(* ===== verification/_CoqProject ===== *)
-Q . S2P
Prelude.v
GoNet.v
External.v
RefEnv.v
EventLog.v
SlidingWindow.v
RateLimit.v
TokenBucket.v
World.v
CacheStore.v
Retransmit.v
Fleet.v
Proxy.v
Server.v
Pool.v
Ingress.v
Pipeline.v
Service.v
Concurrent.v
GoText.v
GoAddr.v
GoNum.v
GoFlag.v
Config.v
Load.v
Sockets.v
Beacon.v
Endpoint.v
Assembly.v
Integrity.v
Metrics.v
Lifecycle.v
Exposition.v
Shutdown.v
Boot.v
