(* ===== verification/Prelude.v ===== *)
(** * retry-endpoint

    A model, in Rocq, of the retry endpoint: a Go service that caches multicast
    frames and repairs listeners that missed them. This header documents the
    whole library; it is the root file, and also holds what all files share.

    ** The program

    - The _ingress workers_ (src/ingress) join multicast groups, read datagrams in
      batches into reusable buffers, spread them over processors by flow key, and
      store every stamped frame in the cache under HashKey and SeqNum.
    - The _NACK server_ (src/server) receives 64-byte requests, checks them against
      a four-tier _rate limiter_ (src/ratelimit), looks the frame up in the _cache_
      (src/cache), and on a hit has the _retransmitter_ (src/retransmit) send it by
      multicast, by unicast or both, then answers with an ACK; on a miss it answers
      with a MISS and may hand the gap to the _NACK proxy_.
    - The _NACK proxy_ (src/proxy) recovers gaps from upstream endpoints: it claims
      the gap in the shared store, asks the upstreams with a NACK that carries the
      proxied flag, stores and delivers what comes back.
    - The _beacon_ (src/beacon) advertises the endpoint; src/config decides into
      which control groups; src/metrics counts and answers /readyz; src/main.go
      loads the configuration (src/config), builds all parts from it in order,
      starts their goroutines, waits, and shuts them down.

    ** The files, in dependency order

    - Prelude: bytes, big-endian integers, Go slices with their bounds checks
      ([gsub], [gput]), and the monad [GoM] of handlers. A handler is the tree of
      the operations it performs on the shared state, which can be run alone
      ([run]; [None] is a Go panic, so a theorem that a handler returns [Some] says
      that it does not panic) or one operation at a time beside others. [wp] is
      the weakest precondition of a run alone.
    - GoNet: net.IP, netip.Addr and net.UDPAddr, and the limiter's [ipKey].
    - External: the interfaces of code that is not in the repository (frame
      decoders, shard engine, cache backend, token bucket, sockets and the kernel
      calls that set them up, clock, tee envelopes), each a class of operations,
      with a class of the documented behaviour the code relies on ([FrameLibOk],
      [BackendOk], ...). [Keeps P f] says that an operation keeps a property of the
      environment. Errors, float64 values and metric events are here too.
    - RefEnv: one concrete instance of every such class. All instances of the
      theorems run on it, so no hypothesis is vacuous.
    - EventLog, SlidingWindow: the sliding-window limiter of ratelimit.go, from the
      slice with its expired prefix, capacity and compaction up to the key map with
      its eviction sweep and rebuild; [SlidingWindow.Spec] is the exact-log
      specification it refines.
    - RateLimit: [New], [Allow], [AllowChain], [AllowGroup] and the token buckets.
    - TokenBucket: the callers of a token-bucket tier interleaved, for its mutex
      covers the lookup of a bucket and not the taking of the token.
    - World: the state handlers run in (environment, limiter, proxy queue, trace of
      metric increments and socket writes) and the interfaces between components:
      [CacheI], [RetransI] and [ProxyI] with the promises [RetransOn] and [ProxyOk].
      [wpi P I] is the weakest precondition of a handler among others: between any
      two of its operations anything may happen to the environment that keeps [P],
      and to limiter and queue that keeps [I].
    - CacheStore: cache.go, the namespaced store.
    - Retransmit: retransmit.go; discharges [RetransOn] ([retrans_on]).
    - Fleet: several endpoints on one dedup store, their retransmits interleaved at
      every call on the environment; alone, an agent is [Retransmit].
    - Proxy: proxy.go; discharges [ProxyOk] ([enqueue_ok]).
    - Server: server.go, proved against [RetransOn] and [ProxyOk] only. [outcome] is
      the contract of the request handler.
    - Pool: Run of server.go once it listens: the reader, the channel and the
      parallel workers, each performing the handler one operation at a time.
    - Ingress: ingress.go's workers and frame handlers, and the processors of
      pipeline.go.
    - Pipeline: pipeline.go's receive loop as a step relation over buffers, queues,
      processors and the counters of what was read and dropped, with the batch
      readers of both platforms.
    - Service: theorems that cross components, from the ingress of a frame, or from
      the NACK of another endpoint's proxy, to the repair.
    - Concurrent: requests, recoveries and ingress datagrams as threads over one
      world; a schedule picks who performs the next operation, which job is taken,
      what arrives and what changes outside. [inv] is the invariant of the system.
    - GoText: the functions of strings and strconv that src/config uses.
    - GoAddr: the address parsers of net/netip and net.
    - GoNum: numbers of any base, floats and durations, as strconv and time read
      them.
    - GoFlag: flag.Parse over the command line, by the kinds of the flags.
    - Config: the control-group prefixes, TTL fallback and scope byte of src/config.
    - Load: config.Load, every flag with its environment default and every check,
      from the environment and the arguments of the process (class [Host], which
      also has the interfaces, the CPU count and the platform); [valid] is what the
      other parts may assume of a configuration.
    - Sockets: how the ingress, the tee, the NACK server and the retransmitter
      create, configure and release sockets, as histories of kernel calls.
    - Beacon: the ADVERT, its target groups, and the sender's rounds.
    - Endpoint: what src/main.go builds from a configuration: rosters, groups,
      workers, retransmitter, recovery client, server.
    - Assembly: run of src/main.go up to its goroutines, in order and with every
      early return, and the theorems on the assembled endpoint as a whole.
    - Integrity: what the writers of the frame store, interleaved, keep true of it.
    - Metrics: the recorder's instruments, counting methods and label cache.
    - Lifecycle: the goroutines main starts, the readiness they report to
      src/metrics, and the responses of its HTTP endpoints.
    - Exposition: Serve of src/metrics with the http.Server it starts and stops, and
      the cache size sampler of main.
    - Shutdown: the end of run, main interleaved with the goroutines of its wait
      group and with the recovery workers; seen from the readiness counter it is a
      run of Lifecycle.
    - Boot: run of src/main.go from its first line, with the logger, the recorder,
      the info gauges and tracing around the assembly.

    Each file holds a module of its own name. Go names are kept; a method [M] of a
    type whose name would clash is [tb_M], [sw_M] or [Type_M]. Configuration
    records whose names the packages share ([Config], [New], [TTLConfig]) are told
    apart by the module.

    ** What the theorems show

    - Rate limiting: the limiter decides exactly as the specification, caps every
      key in every window, keeps keys isolated, bounds its memory, and its sweeps
      change no decision; a request refused by the IP tier consumes nothing else and
      draws no answer; concurrent callers of a token-bucket tier get the verdicts of
      atomic calls.
    - Request handling: on every datagram the handler returns, and what it sends and
      queues is an outcome of its contract; at most one 16-byte response, to the
      requester; ACK flags are true; recovery is limited to one hop; a request the
      reader accepted is taken once and finished once, with the contract met, while
      several are in progress, and only cancellation can leave one behind; and the
      server that main builds meets the contract's assumptions.
    - The endpoint as a whole ([endpoint_interleaved], [served_frame_is_requested]):
      from any configuration that loads, under every interleaving of its handlers,
      nothing panics, every finished handler has kept its own contract, bounds hold,
      and no event or job is lost; and no request is ever answered with a frame of
      another flow. That a handler finishes is not claimed: a call on the outside is
      one operation, which in the program may block.
    - Repair: ingress stores only verbatim, stamped frames under their own key; such
      a frame is served byte for byte; a multicast goes out once per interface to
      the frame's own group, and within the dedup window from one endpoint only,
      however many share the store and however they interleave; fragments and BEEF
      frames are routed like the objects they belong to.
    - Recovery ([recovery] is its relation): unless the gap is claimed elsewhere the
      upstreams are asked in order, a bounded number of them, and the first frame that
      comes back is cached, sent by the modes and counted; the queue is bounded, the
      claims identify gap and requester, the NACK round-trips, and an upstream always
      answers it by unicast.
    - Receive path: every datagram read is handled, in flight, reported as dropped,
      empty or not yet looked at; buffers are never lost, shared or overwritten while
      in use, order per processor is arrival order, on one socket a flow key has one
      processor, groups are dealt to workers exactly once, and the label cache is
      invisible.
    - Configuration: Load returns a [valid] configuration or an error, whatever the
      environment holds, and ends the process exactly on a command line the flag
      package refuses, by the grammar [reads]; arguments set the values they are
      written with; addresses are read back from the text they print as, decimal
      durations and group ids are read exactly; and the TTL an operator gives a class
      of frames is the one the workers and the recovery client store them with.
    - Sockets: an error on any call leaves no descriptor behind; a worker that
      reports ready has made exactly the calls of the source and the ones whose result
      is looked at have succeeded ([effective]); the tee is bound to the loopback
      address alone; the NACK server listens on the address the endpoint sends from,
      or on the wildcard if that is a multicast one; Close releases what Open
      acquired, but for interfaces named twice; a descriptor is closed only after
      cancellation.
    - Discovery and assembly: every loaded configuration assembles, without a panic,
      into an endpoint that meets the assumptions of the request handler's
      contract, with pairwise different groups; its ADVERT carries the configured
      values (the port cut to 16 bits), goes to every group it can dial, at once and on every tick, and its
      flags are the modes of the server; no roster names the node itself, and a
      node that has come up has a series for each rostered source; /readyz answers
      by the number of goroutines that are up.
    - Shutdown: resources are released in order, and, unless the beacon could not
      start, only after the wait group is empty and the metrics are flushed; once main has left its select the process
      ends under any schedule. The rank that bounds the remaining turns counts two
      for a goroutine that is starting, one for one that serves, and the calls main
      still makes.
    - Metrics: no method meets a missing instrument, the per-source series exist
      and count exactly as the starvation alert needs, the copy-on-write label
      cache is coherent under any interleaving, the size gauge shows the last
      sample, and the HTTP server drains until its deadline and ends.
    - Behaviour the documentation or a comment contradicts is stated as a theorem
      too: a cache error is silent, a dedup error suppresses, an own-only roster
      joins any-source, and so do all shard groups without static publishers; a
      foreign frame counts as recovered, a tee-only endpoint may never become ready,
      token buckets are never evicted, an oversized request is accepted, the BEEF TTL
      has no fallback, an unparsable CACHE_TTL shortens the other TTLs, a multicast
      -nack-addr, a NACK port over 65535 and a repeated egress interface pass, a recovery outlives the sockets it sends on.

    ** Modelling choices

    - Integers are [Z] with wrap-around written out where the code can reach it;
      int64 arithmetic of the limiter is kept in range by its invariants. A
      conversion of a float64 that Go leaves implementation-defined is a parameter.
    - No function needs fuel for its result: loops are structural recursions on the
      data they traverse, or step relations. The receive wait of the proxy is a
      recursion on the datagrams that arrive before its deadline. [render6] counts
      down from 9, one more than the groups of an IPv6 address, the parser of such
      an address makes at most 8 turns, one per group, and the duration parser has
      the length of its text, of which every turn reads a character at least.
    - An operation of a handler is what the code does atomically: a limiter call, a
      channel operation, one backend request, one write, one counter. A
      sliding-window call is under one mutex; a token-bucket call is not, and
      TokenBucket.v shows that it may be taken as one operation all the same. What
      a handler does alone is proved by [wp] on the same trees that Concurrent.v
      interleaves, where [wpi] carries the contract of each over.
    - The receive pipeline, the reader with its pool, the fleet, the label cache,
      the shutdown of a socket and the end of run are step relations of their own.
    - A kernel call may return any result; [held] derives the open descriptors from
      the history, so nothing is assumed of the numbers the kernel picks. A ticker
      is a number of ticks before the context is done.
    - Cache entries do not expire during a theorem: [BackendOk] says what holds
      before the TTL.
    - Log lines are not modelled.

    ** Not modelled

    The log lines, and the insides of the packages that src/ only calls: logging
    with its level handler and SIGHUP toggle, tracing, promhttp with its exposition
    format, the OpenTelemetry exporters, the cache backends, the SSM resolver and the
    frame codecs are parameters, with the calls the program makes of them. net/http is
    in Exposition as far as Serve depends on it. src/ci is one call of a build
    pipeline of another repository. Of the operations of src/ nothing else is left
    out. *)

From Stdlib Require Export ZArith Lia.
From Stdlib Require Import Strings.Byte.
From stdpp Require Export base tactics numbers option list strings gmap sorting.

#[export] Set Default Goal Selector "!".
#[export] Set Warnings "-clear-no-such-hyp".
#[global] Open Scope Z_scope.

(** ** Bytes *)

Abbreviation byte := Byte.byte.
Abbreviation bytes := (list Byte.byte).

#[global] Instance byte_eq_dec : EqDecision byte := Byte.byte_eq_dec.
#[global] Program Instance byte_countable : Countable byte :=
  inj_countable Byte.to_N Byte.of_N _.
Next Obligation. apply Byte.of_to_N. Qed.
#[global] Instance byte_inhabited : Inhabited byte := populate Byte.x00.

Definition byte_Z (b : byte) : Z := Z.of_N (Byte.to_N b).

(** Conversion to [uint8]: keeps the low eight bits. *)
Definition Z_byte (z : Z) : byte :=
  default Byte.x00 (Byte.of_N (Z.to_N (z mod 256))).

Lemma byte_Z_range b : 0 ≤ byte_Z b < 256.
Proof. unfold byte_Z. pose proof (Byte.to_N_bounded b). lia. Qed.

Lemma Z_byte_Z z : byte_Z (Z_byte z) = z mod 256.
Proof.
  unfold Z_byte, byte_Z.
  pose proof (Z.mod_pos_bound z 256 ltac:(lia)) as Hz.
  destruct (Byte.of_N (Z.to_N (z mod 256))) as [b|] eqn:E; simpl.
  - apply Byte.to_of_N in E. rewrite E. lia.
  - apply Byte.of_N_None_iff in E. lia.
Qed.

Lemma byte_Z_byte b : Z_byte (byte_Z b) = b.
Proof.
  unfold Z_byte, byte_Z. pose proof (Byte.to_N_bounded b).
  rewrite Z.mod_small by lia. by rewrite N2Z.id, Byte.of_to_N.
Qed.

#[global] Instance byte_Z_inj : Inj (=) (=) byte_Z.
Proof. intros a b H. rewrite <- (byte_Z_byte a), <- (byte_Z_byte b). by rewrite H. Qed.

(** Checking a property of [n] consecutive integers by evaluation. *)
Fixpoint all_from (P : Z → bool) (n : nat) (z : Z) : bool :=
  match n with O => true | S n' => P z && all_from P n' (z + 1) end.

Lemma all_from_spec P n z : all_from P n z = true → ∀ k, z ≤ k < z + Z.of_nat n → P k = true.
Proof.
  revert z. induction n as [|n IH]; intros z Ha k Hk; [lia|]. simpl in Ha.
  apply andb_true_iff in Ha as [H1 H2]. destruct (decide (k = z)) as [->|Hne]; [done|].
  apply (IH (z + 1)); [done|lia].
Qed.

(** ** Big-endian integers (Go's [encoding/binary].BigEndian) *)

Fixpoint be_enc (n : nat) (z : Z) : bytes :=
  match n with
  | O => []
  | S n' => Z_byte (Z.shiftr z (8 * Z.of_nat n')) :: be_enc n' z
  end.

Definition be_dec (l : bytes) : Z := fold_left (λ acc b, acc * 256 + byte_Z b) l 0.

Lemma length_be_enc n z : length (be_enc n z) = n.
Proof. induction n; simpl; congruence. Qed.

Lemma be_dec_acc l a :
  fold_left (λ acc b, acc * 256 + byte_Z b) l a = a * 256 ^ Z.of_nat (length l) + be_dec l.
Proof.
  unfold be_dec. revert a. induction l as [|b l IH]; intros a; cbn [fold_left]; [simpl; lia|].
  rewrite (IH (a * 256 + byte_Z b)), (IH (0 * 256 + byte_Z b)). simpl length. rewrite Nat2Z.inj_succ, Z.pow_succ_r by lia. ring.
Qed.

Lemma be_dec_cons b l : be_dec (b :: l) = byte_Z b * 256 ^ Z.of_nat (length l) + be_dec l.
Proof. unfold be_dec at 1. simpl. by rewrite be_dec_acc. Qed.

Lemma be_dec_app l1 l2 :
  be_dec (l1 ++ l2) = be_dec l1 * 256 ^ Z.of_nat (length l2) + be_dec l2.
Proof. unfold be_dec at 1. rewrite fold_left_app. by rewrite be_dec_acc. Qed.

Lemma be_dec_range l : 0 ≤ be_dec l < 256 ^ Z.of_nat (length l).
Proof.
  induction l as [|b l IH]; [done|].
  rewrite be_dec_cons. pose proof (byte_Z_range b). simpl length.
  rewrite Nat2Z.inj_succ, Z.pow_succ_r by lia. nia.
Qed.

Lemma be_dec_enc n z : be_dec (be_enc n z) = z mod 256 ^ Z.of_nat n.
Proof.
  induction n as [|n IH]; [by rewrite Z.mod_1_r|].
  cbn [be_enc]. rewrite be_dec_cons, IH, Z_byte_Z, length_be_enc.
  rewrite Nat2Z.inj_succ, Z.pow_succ_r by lia.
  rewrite Z.shiftr_div_pow2 by lia.
  rewrite Z.pow_mul_r by lia. change (2 ^ 8) with 256.
  assert (0 < 256 ^ Z.of_nat n) as Hp by (apply Z.pow_pos_nonneg; lia).
  rewrite (Z.mul_comm 256), Z.rem_mul_r by lia. lia.
Qed.

Lemma be_dec_enc_small n z : 0 ≤ z < 256 ^ Z.of_nat n → be_dec (be_enc n z) = z.
Proof. intros. rewrite be_dec_enc. by apply Z.mod_small. Qed.

Lemma be_dec_inj l1 l2 : length l1 = length l2 → be_dec l1 = be_dec l2 → l1 = l2.
Proof.
  revert l2. induction l1 as [|a l1 IH]; intros [|b l2] Hl He; try done.
  simpl in Hl. injection Hl as Hl. rewrite !be_dec_cons, Hl in He.
  pose proof (be_dec_range l1) as H1. pose proof (be_dec_range l2) as H2.
  rewrite Hl in H1.
  pose proof (byte_Z_range a). pose proof (byte_Z_range b).
  assert (byte_Z a = byte_Z b) as Hab by nia.
  apply (inj byte_Z) in Hab as ->. f_equal. apply IH; [done|lia].
Qed.

Lemma be_enc_dec n l : length l = n → be_enc n (be_dec l) = l.
Proof.
  intros Hl. apply be_dec_inj; [by rewrite length_be_enc|].
  rewrite be_dec_enc. apply Z.mod_small. rewrite <- Hl. apply be_dec_range.
Qed.

Lemma be_enc_inj n z1 z2 :
  0 ≤ z1 < 256 ^ Z.of_nat n → 0 ≤ z2 < 256 ^ Z.of_nat n → be_enc n z1 = be_enc n z2 → z1 = z2.
Proof. intros H1 H2 He. rewrite <- (be_dec_enc_small n z1), He by done. by apply be_dec_enc_small. Qed.

Lemma be_enc_2 z : [Z_byte (Z.shiftr z 8); Z_byte z] = be_enc 2 z.
Proof. unfold be_enc. simpl. by rewrite Z.shiftr_0_r. Qed.

#[global] Arguments be_enc : simpl never.
#[global] Arguments be_dec : simpl never.

(** Fixed-width integers: wrap-around of [uintN] and [int64] arithmetic. *)
Definition u16 (z : Z) : Z := z mod 2 ^ 16.
Definition u32 (z : Z) : Z := z mod 2 ^ 32.
Definition u64 (z : Z) : Z := z mod 2 ^ 64.
Definition i64 (z : Z) : Z := (z + 2 ^ 63) mod 2 ^ 64 - 2 ^ 63.

Lemma i64_small z : - 2 ^ 63 ≤ z < 2 ^ 63 → i64 z = z.
Proof. intros. unfold i64. rewrite Z.mod_small; lia. Qed.

Lemma u64_small z : 0 ≤ z < 2 ^ 64 → u64 z = z.
Proof. apply Z.mod_small. Qed.

(** ** Slices

    [None] stands for a runtime panic (index or slice bounds out of range).
    Go lets a slice expression reach the capacity; every access of this program
    is meant to stay within the length, so reaching past it counts as a panic. *)

Definition gsub {A} (lo hi : nat) (l : list A) : option (list A) :=
  if decide (lo ≤ hi ∧ hi ≤ length l)%nat then Some (take (hi - lo) (drop lo l)) else None.

(** [copy(buf[off:off+len(src)], src)] and the [BigEndian.PutUint*] stores. *)
Definition gput {A} (off : nat) (src buf : list A) : option (list A) :=
  if decide (off + length src ≤ length buf)%nat
  then Some (take off buf ++ src ++ drop (off + length src) buf) else None.

Definition gset_byte {A} (off : nat) (b : A) (buf : list A) : option (list A) :=
  gput off [b] buf.

Definition BE_Uint16 (b : bytes) : option Z := be_dec <$> gsub 0 2 b.
Definition BE_Uint32 (b : bytes) : option Z := be_dec <$> gsub 0 4 b.
Definition BE_Uint64 (b : bytes) : option Z := be_dec <$> gsub 0 8 b.

(** The bytes [lo:hi] of a slice known to be long enough. *)
Definition field {A} (lo hi : nat) (l : list A) : list A := take (hi - lo) (drop lo l).

Section slices.
Context {A : Type}.
Implicit Types l src buf : list A.

Lemma gsub_Some lo hi l :
  (lo ≤ hi)%nat → (hi ≤ length l)%nat → gsub lo hi l = Some (field lo hi l).
Proof. intros. unfold gsub, field. by rewrite decide_True. Qed.

Lemma field_all hi l : length l = hi → field 0 hi l = l.
Proof. intros <-. unfold field. by rewrite Nat.sub_0_r, drop_0, take_ge. Qed.

Lemma length_field lo hi l :
  (lo ≤ hi)%nat → (hi ≤ length l)%nat → length (field lo hi l) = (hi - lo)%nat.
Proof. intros. unfold field. rewrite length_take, length_drop. lia. Qed.

Lemma field_field lo hi lo' hi' l :
  (lo' ≤ hi')%nat → (hi' ≤ hi - lo)%nat →
  field lo' hi' (field lo hi l) = field (lo + lo') (lo + hi') l.
Proof.
  intros. unfold field. rewrite skipn_firstn_comm, drop_drop, take_take.
  f_equal. lia.
Qed.

Lemma field_app_adj lo mid hi l :
  (lo ≤ mid)%nat → (mid ≤ hi)%nat → field lo mid l ++ field mid hi l = field lo hi l.
Proof.
  intros. unfold field. replace (hi - lo)%nat with ((mid - lo) + (hi - mid))%nat by lia.
  rewrite <- take_take_drop, drop_drop. replace (lo + (mid - lo))%nat with mid by lia. done.
Qed.

(** Reading a field of a concatenation. *)
Lemma field_skip lo hi l1 l2 : (length l1 ≤ lo)%nat →
  field lo hi (l1 ++ l2) = field (lo - length l1) (hi - length l1) l2.
Proof.
  intros. unfold field. rewrite drop_app_ge by done. f_equal. lia.
Qed.

Lemma field_head hi l1 l2 : length l1 = hi → field 0 hi (l1 ++ l2) = l1.
Proof. intros <-. unfold field. by rewrite Nat.sub_0_r, drop_0, take_app_length. Qed.

Lemma gput_Some off src buf :
  (off + length src ≤ length buf)%nat →
  gput off src buf = Some (take off buf ++ src ++ drop (off + length src) buf).
Proof. intros. unfold gput. by rewrite decide_True. Qed.

Lemma length_gput off src buf buf' :
  gput off src buf = Some buf' → length buf' = length buf.
Proof.
  unfold gput. intros. case_decide; simplify_eq.
  rewrite !length_app, length_take, length_drop. lia.
Qed.

(** Filling a zeroed buffer from left to right. *)
Lemma gput_next pre src (x : A) off n :
  off = length pre → (length src ≤ n)%nat →
  gput off src (pre ++ replicate n x) = Some (pre ++ src ++ replicate (n - length src) x).
Proof.
  intros -> Hn. unfold gput. rewrite decide_True by (rewrite length_app, length_replicate; lia).
  rewrite take_app_length, drop_app_add, drop_replicate. done.
Qed.

Lemma gput_first src (x : A) n : (length src ≤ n)%nat →
  gput 0 src (replicate n x) = Some (src ++ replicate (n - length src) x).
Proof. by apply (gput_next []). Qed.

(** Reading back what was just written. *)
Lemma field_gput_same off src buf buf' :
  gput off src buf = Some buf' → field off (off + length src) buf' = src.
Proof.
  unfold gput, field. intros. case_decide; simplify_eq.
  rewrite drop_app_length' by (rewrite length_take; lia).
  rewrite take_app_length' by lia. done.
Qed.

(** Reading a range a write does not touch. *)
Lemma field_gput_other off src buf buf' lo hi :
  gput off src buf = Some buf' →
  (hi ≤ off ∨ off + length src ≤ lo)%nat → (hi ≤ length buf)%nat →
  field lo hi buf' = field lo hi buf.
Proof.
  unfold gput, field. intros Hp Hr Hhi. case_decide as Hd; simplify_eq.
  destruct Hr as [Hr|Hr].
  - destruct (decide (lo ≤ hi)%nat) as [|]; [|replace (hi - lo)%nat with 0%nat by lia; done].
    rewrite drop_app_le by (rewrite length_take; lia).
    rewrite take_app_le by (rewrite length_drop, length_take; lia).
    rewrite skipn_firstn_comm, take_take. f_equal. lia.
  - rewrite drop_app_ge by (rewrite length_take; lia). rewrite length_take.
    rewrite drop_app_ge by lia. rewrite drop_drop. f_equal. f_equal. lia.
Qed.
End slices.

(** *** Lists of lists *)

Lemma lookup_alter_inv {A} (f : A → A) (l : list A) i j y :
  alter f i l !! j = Some y →
  (j = i ∧ ∃ x, l !! i = Some x ∧ y = f x) ∨ (j ≠ i ∧ l !! j = Some y).
Proof.
  destruct (decide (i = j)) as [->|Hne].
  - rewrite list_lookup_alter_eq. destruct (l !! j) eqn:Hj; simpl; [|done]. intros [= <-]. eauto.
  - rewrite list_lookup_alter_ne by done. auto.
Qed.

(** Replacing one list of a list of lists. *)
Lemma concat_insert_Permutation {A} (ls : list (list A)) k x y :
  ls !! k = Some x → concat (<[k := y]> ls) ++ x ≡ₚ concat ls ++ y.
Proof.
  revert k. induction ls as [|l ls IH]; intros [|k] Hk; simplify_eq/=.
  - by rewrite (Permutation_app_comm _ x), (Permutation_app_comm y), app_assoc.
  - rewrite <- !app_assoc. by rewrite IH.
Qed.

Lemma omap_id_insert {A} (l : list (option A)) i x y :
  l !! i = Some x →
  option_list x ++ omap id (<[i := y]> l) ≡ₚ option_list y ++ omap id l.
Proof.
  revert i. induction l as [|z l IH]; intros [|i] Hi; simplify_eq/=.
  - destruct x, y; simpl; [apply perm_swap|done..].
  - destruct z as [z|]; simpl; [|by apply IH].
    rewrite <- !Permutation_middle. by rewrite IH.
Qed.

Lemma concat_replicate_nil {A} n : concat (replicate n ([] : list A)) = [].
Proof. by induction n. Qed.

Lemma BE_Uint16_Some b : length b = 2%nat → BE_Uint16 b = Some (be_dec b).
Proof. intros. unfold BE_Uint16. by rewrite gsub_Some, field_all by lia. Qed.
Lemma BE_Uint32_Some b : length b = 4%nat → BE_Uint32 b = Some (be_dec b).
Proof. intros. unfold BE_Uint32. by rewrite gsub_Some, field_all by lia. Qed.
Lemma BE_Uint64_Some b : length b = 8%nat → BE_Uint64 b = Some (be_dec b).
Proof. intros. unfold BE_Uint64. by rewrite gsub_Some, field_all by lia. Qed.

Lemma gsub_BE_Uint64 lo hi b :
  hi = (lo + 8)%nat → (hi ≤ length b)%nat → gsub lo hi b ≫= BE_Uint64 = Some (be_dec (field lo hi b)).
Proof.
  intros -> ?. rewrite gsub_Some by lia. simpl. apply BE_Uint64_Some. rewrite length_field; lia.
Qed.

Lemma be_enc_field n lo hi b :
  (lo ≤ hi)%nat → (hi ≤ length b)%nat → n = (hi - lo)%nat → be_enc n (be_dec (field lo hi b)) = field lo hi b.
Proof. intros ?? ->. apply be_enc_dec. by apply length_field. Qed.

(** Moves a field or byte access into the part of a concatenation it reads;
    [Hlen] gives the length of a part that is not a literal encoding. *)
Ltac read_parts Hlen :=
  repeat (first
    [ rewrite field_skip by (rewrite ?length_be_enc, ?Hlen; cbn [length]; lia)
    | rewrite lookup_app_r by (rewrite ?length_be_enc, ?Hlen; cbn [length]; lia) ];
    rewrite ?length_be_enc, ?Hlen; cbn [length Nat.sub]).

(** ** The effect monad

    A stateful Go function over the state [W] that returns an [A], as the tree of
    the operations it performs: each [GOp] acts on the state atomically, and
    panics where it is [None]. [run] is the function running alone; running beside
    others is in Concurrent.v. *)

Inductive GoM (W A : Type) : Type :=
| GRet (a : A)
| GOp {X : Type} (f : W → option (X * W)) (k : X → GoM W A).
#[global] Arguments GRet {W A} a.
#[global] Arguments GOp {W A X} f k.

Fixpoint run {W A} (m : GoM W A) (w : W) : option (A * W) :=
  match m with
  | GRet a => Some (a, w)
  | GOp f k => match f w with Some (x, w') => run (k x) w' | None => None end
  end.
Coercion run : GoM >-> Funclass.

Fixpoint gbind {W A B} (k : A → GoM W B) (m : GoM W A) : GoM W B :=
  match m with
  | GRet a => k a
  | GOp f k' => GOp f (λ x, gbind k (k' x))
  end.

#[global] Instance GoM_ret W : MRet (GoM W) := λ _ a, GRet a.
#[global] Instance GoM_bind W : MBind (GoM W) := λ _ _ k m, gbind k m.

(** One atomic operation. *)
Definition act {W A} (f : W → option (A * W)) : GoM W A := GOp f GRet.

#[global] Arguments act : simpl never.

(** A runtime panic, or any other end of the process. *)
Definition gpanic {W A} : GoM W A := GOp (λ _, None) (λ x : Empty_set, match x with end).
Definition liftO {W A} (o : option A) : GoM W A :=
  match o with Some a => GRet a | None => gpanic end.
Definition gget {W} : GoM W W := act (λ w, Some (w, w)).
Definition gmodify {W} (f : W → W) : GoM W unit := act (λ w, Some (tt, f w)).
Definition lift_state {W A} (f : W → A * W) : GoM W A := act (λ w, Some (f w)).

(** [when c m]: the statement [if c { m }]. *)
Definition when {W} (c : bool) (m : GoM W unit) : GoM W unit := if c then m else mret tt.

Lemma run_bind {W A B} (m : GoM W A) (k : A → GoM W B) w :
  run (m ≫= k) w = match run m w with Some (a, w') => run (k a) w' | None => None end.
Proof.
  revert w. induction m as [a|X f k' IH]; intros w; simpl; [done|]. destruct (f w) as [[x w']|]; [|done]. apply IH.
Qed.

Lemma gret_bind {W A B} (a : A) (k : A → GoM W B) : GRet a ≫= k = k a.
Proof. done. Qed.

Lemma run_act {W A} (f : W → option (A * W)) w : run (act f) w = f w.
Proof. unfold act. simpl. by destruct (f w) as [[]|]. Qed.

(** Total correctness: [m] started in [w] returns, and [Q] holds then. *)
Definition wp {W A} (m : GoM W A) (Q : A → W → Prop) (w : W) : Prop :=
  match run m w with Some (a, w') => Q a w' | None => False end.

Section wp.
Context {W : Type}.

Lemma wp_iff {A} (m : GoM W A) Q w : wp m Q w ↔ ∃ a w', m w = Some (a, w') ∧ Q a w'.
Proof.
  unfold wp. destruct (m w) as [[a w']|].
  - split; [by eauto|]. by intros (? & ? & [= <- <-] & ?).
  - split; [done|]. by intros (? & ? & ? & ?).
Qed.

Lemma wp_ret {A} (a : A) (Q : A → W → Prop) w : Q a w → wp (mret a) Q w.
Proof. done. Qed.

Lemma wp_bind {A B} (m : GoM W A) (k : A → GoM W B) Q w :
  wp m (λ a w', wp (k a) Q w') w → wp (m ≫= k) Q w.
Proof. unfold wp. rewrite run_bind. by destruct (m w) as [[a w']|]. Qed.

Lemma wp_mono {A} (m : GoM W A) (Q Q' : A → W → Prop) w :
  wp m Q w → (∀ a w', Q a w' → Q' a w') → wp m Q' w.
Proof. unfold wp. destruct (m w) as [[a w']|]; auto. Qed.

Lemma wp_act {A} (f : W → option (A * W)) (Q : A → W → Prop) w :
  (∃ a w', f w = Some (a, w') ∧ Q a w') → wp (act f) Q w.
Proof. intros (a & w' & Hf & HQ). unfold wp. by rewrite run_act, Hf. Qed.

Lemma wp_liftO {A} (o : option A) (a : A) (Q : A → W → Prop) w :
  o = Some a → Q a w → wp (liftO o) Q w.
Proof. intros ->. done. Qed.

Lemma wp_modify f (Q : unit → W → Prop) w : Q tt (f w) → wp (gmodify f) Q w.
Proof. done. Qed.

Lemma wp_get (Q : W → W → Prop) w : Q w w → wp gget Q w.
Proof. done. Qed.

Lemma wp_when (c : bool) m (Q : unit → W → Prop) w :
  (c = true → wp m Q w) → (c = false → Q tt w) → wp (when c m) Q w.
Proof. intros Ht Hf. destruct c; [by apply Ht|]. apply wp_ret. by apply Hf. Qed.

Lemma wp_lift_state {A} (f : W → A * W) (Q : A → W → Prop) w :
  (let '(a, w') := f w in Q a w') → wp (lift_state f) Q w.
Proof. unfold wp, lift_state. rewrite run_act. by destruct (f w). Qed.

Lemma wp_conj {A} (m : GoM W A) (Q Q' : A → W → Prop) w :
  wp m Q w → wp m Q' w → wp m (λ a w', Q a w' ∧ Q' a w') w.
Proof. unfold wp. destruct (m w) as [[a w']|]; auto. Qed.

(** Running a closed program and deciding a property of its outcome. *)
Lemma run_decide {A} (m : GoM W A) (Q : A → W → Prop) `{!∀ a w, Decision (Q a w)} w :
  (match run m w with Some (a, w') => bool_decide (Q a w') | None => false end) = true →
  ∃ a w', m w = Some (a, w') ∧ Q a w'.
Proof. destruct (m w) as [[a w']|]; [|done]. intros ?%bool_decide_eq_true. eauto. Qed.
End wp.
#[global] Opaque wp.

(** The state a program that returns ends in. *)
Definition after {W A} (m : GoM W A) (w : W) : W := default w (snd <$> m w).

Lemma run_after {W} (m : GoM W unit) w : bool_decide (is_Some (m w)) = true → m w = Some (tt, after m w).
Proof. intros [[[] w'] Hm]%bool_decide_eq_true. unfold after. by rewrite Hm. Qed.

(** Decides a closed proposition by evaluation. *)
Ltac by_decide :=
  match goal with |- ?P => apply (bool_decide_unpack P); vm_compute; exact I end.

(** Proves [∃ a w', m w = Some (a, w') ∧ Q a w'] for closed [m], [w] and a
    decidable [Q] by evaluation. *)
Ltac run_closed :=
  lazymatch goal with
  | |- ∃ a w', run ?m ?w = Some (a, w') ∧ @?Q a w' => apply (run_decide m Q w)
  end; vm_compute; reflexivity.
