(* ===== verification/GoNet.v ===== *)
(** * Addresses of Go's [net] and [net/netip]

    The standard library's addresses as this program uses them: [net.IP] as a
    byte slice of length 4 or 16 (or an invalid length), [net.UDPAddr], the
    conversions [To4], [To16], [netip.AddrFromSlice], [Addr.As16], and the text
    forms [net.IP.String] and [netip.Addr.String] that become limiter keys and
    metric labels. [ipKey] of src/ratelimit/ratelimit.go is defined on them. *)

From S2P Require Import Prelude.
From Stdlib Require Import Strings.Byte.

Module GoNet.

Record udpaddr := mkUDPAddr { ua_IP : bytes; ua_Port : Z; ua_Zone : string }.
#[global] Instance udpaddr_eq_dec : EqDecision udpaddr.
Proof. solve_decision. Defined.

Definition v4InV6Prefix : bytes := replicate 10 x00 ++ [xff; xff].
Definition IPv6unspecified : bytes := replicate 16 x00.

(** [net.IP.To4]; [None] is nil. *)
Definition To4 (ip : bytes) : option bytes :=
  if decide (length ip = 4%nat) then Some ip
  else if decide (length ip = 16%nat ∧ take 12 ip = v4InV6Prefix) then Some (drop 12 ip)
  else None.

(** [net.IP.To16]; [None] is nil. *)
Definition To16 (ip : bytes) : option bytes :=
  if decide (length ip = 4%nat) then Some (v4InV6Prefix ++ ip)
  else if decide (length ip = 16%nat) then Some ip
  else None.

(** [netip.Addr]: the zero address, an IPv4 address, or an IPv6 address without or
    with a zone. *)
Inductive addr := AddrZero | Addr4 (b : bytes) | Addr6 (b : bytes) | Addr6Zone (b : bytes) (zone : string).
#[global] Instance addr_eq_dec : EqDecision addr.
Proof. solve_decision. Defined.

(** [netip.AddrFromSlice]: the address, and whether the length was valid. *)
Definition AddrFromSlice (ip : bytes) : addr * bool :=
  if decide (length ip = 4%nat) then (Addr4 ip, true)
  else if decide (length ip = 16%nat) then (Addr6 ip, true)
  else (AddrZero, false).

Definition As16 (a : addr) : bytes :=
  match a with
  | AddrZero => IPv6unspecified
  | Addr4 b => v4InV6Prefix ++ b
  | Addr6 b | Addr6Zone b _ => b
  end.

Definition IsValid (a : addr) : bool := match a with AddrZero => false | _ => true end.

(** [ipKey] of the rate limiter: the 16-byte form of a source address. *)
Definition ipKey (ip : bytes) : bytes := As16 (AddrFromSlice ip).1.

(** [net.Interface], its name and index. *)
Record iface := mkIface { if_Name : string; if_Index : Z }.

(** *** Address classes *)

Definition byte_at (i : nat) (b : bytes) : Z := byte_Z (default x00 (b !! i)).

Definition Is4 (a : addr) : bool := match a with Addr4 _ => true | _ => false end.
Definition Is4In6 (a : addr) : bool :=
  match a with Addr6 b | Addr6Zone b _ => bool_decide (take 12 b = v4InV6Prefix) | _ => false end.
Definition Is6 (a : addr) : bool := match a with Addr6 _ | Addr6Zone _ _ => true | _ => false end.
Definition Zone (a : addr) : string := match a with Addr6Zone _ zone => zone | _ => ""%string end.
Definition WithZone (b : bytes) (zone : string) : addr :=
  if decide (zone = ""%string) then Addr6 b else Addr6Zone b zone.
Definition IPv6loopback : bytes := replicate 15 x00 ++ [x01].

(** [netip.Addr.IsLoopback]; an IPv4-mapped address is unmapped first. *)
Definition IsLoopback (a : addr) : bool :=
  match a with
  | AddrZero => false
  | Addr4 b => byte_at 0 b =? 127
  | Addr6 b | Addr6Zone b _ => if Is4In6 a then byte_at 12 b =? 127 else bool_decide (b = IPv6loopback)
  end.

(** Methods of [net.IP]: on the IPv4 form when there is one. *)
Definition IP_IsLoopback (ip : bytes) : bool :=
  match To4 ip with
  | Some ip4 => byte_at 0 ip4 =? 127
  | None => bool_decide (ip = IPv6loopback)
  end.
Definition IP_IsMulticast (ip : bytes) : bool :=
  match To4 ip with
  | Some ip4 => Z.land (byte_at 0 ip4) 0xF0 =? 0xE0
  | None => bool_decide (length ip = 16%nat) && (byte_at 0 ip =? 0xFF)
  end.
Definition IP_IsLinkLocalUnicast (ip : bytes) : bool :=
  match To4 ip with
  | Some ip4 => (byte_at 0 ip4 =? 169) && (byte_at 1 ip4 =? 254)
  | None => bool_decide (length ip = 16%nat) && (byte_at 0 ip =? 0xFE) && (Z.land (byte_at 1 ip) 0xC0 =? 0x80)
  end.
Definition IP_IsUnspecified (ip : bytes) : bool :=
  match To4 ip with
  | Some ip4 => bool_decide (ip4 = replicate 4 x00)
  | None => bool_decide (ip = IPv6unspecified)
  end.
Definition IP_IsGlobalUnicast (ip : bytes) : bool :=
  bool_decide (length ip = 4%nat ∨ length ip = 16%nat) &&
  negb (bool_decide (To4 ip = Some (replicate 4 xff))) &&
  negb (IP_IsUnspecified ip) && negb (IP_IsLoopback ip) && negb (IP_IsMulticast ip) &&
  negb (IP_IsLinkLocalUnicast ip).

(** *** Text forms *)

Definition hex_digit (z : Z) : string :=
  default "0" (["0"; "1"; "2"; "3"; "4"; "5"; "6"; "7"; "8"; "9"; "a"; "b"; "c"; "d"; "e"; "f"]%string
               !! Z.to_nat z).

(** [appendHex]: 16 bits without leading zeros. *)
Definition hex16 (z : Z) : string :=
  ((if (4096 <=? z)%Z then hex_digit (z / 4096)%Z else "") +:+
   (if (256 <=? z)%Z then hex_digit ((z / 256) mod 16)%Z else "") +:+
   (if (16 <=? z)%Z then hex_digit ((z / 16) mod 16)%Z else "") +:+
   hex_digit (z mod 16)%Z)%string.

Definition dec8 (z : Z) : string :=
  ((if (100 <=? z)%Z then hex_digit (z / 100)%Z else "") +:+
   (if (10 <=? z)%Z then hex_digit ((z / 10) mod 10)%Z else "") +:+
   hex_digit (z mod 10)%Z)%string.

Definition string4 (b : bytes) : string :=
  match byte_Z <$> b with
  | [p; q; r; s] => (dec8 p +:+ "." +:+ dec8 q +:+ "." +:+ dec8 r +:+ "." +:+ dec8 s)%string
  | _ => ""
  end.

Fixpoint groups16 (b : bytes) : list Z :=
  match b with
  | x :: y :: b' => (byte_Z x * 256 + byte_Z y) :: groups16 b'
  | _ => []
  end.

Fixpoint zeros (g : list Z) : nat :=
  match g with x :: g' => if x =? 0 then S (zeros g') else 0%nat | [] => 0%nat end.

(** The first longest run of at least two zero groups, as start and end;
    [(255, 255)] when there is none. *)
Definition zero_run (g : list Z) : nat * nat :=
  fold_left (λ '(s, e) i,
    let l := zeros (drop i g) in
    if decide (2 ≤ l ∧ e - s < l)%nat then (i, (i + l)%nat) else (s, e))
    (seq 0 (length g)) (255, 255)%nat.

Fixpoint render6 (fuel : nat) (g : list Z) (run : nat * nat) (i : nat) : string :=
  match fuel with
  | O => ""
  | S fuel' =>
      if decide (8 ≤ i)%nat then ""
      else if decide (i = run.1) then
        if decide (8 ≤ run.2)%nat then "::"
        else ("::" +:+ hex16 (default 0%Z (g !! run.2)) +:+ render6 fuel' g run (S run.2))%string
      else ((if decide (0 < i)%nat then ":" else "") +:+
            hex16 (default 0%Z (g !! i)) +:+ render6 fuel' g run (S i))%string
  end.

Definition string6 (b : bytes) : string :=
  let g := groups16 b in render6 9 g (zero_run g) 0.

(** An IPv6 address; an IPv4-mapped one ends in dotted form. *)
Definition text6 (b : bytes) : string :=
  if decide (take 12 b = v4InV6Prefix) then ("::ffff:" +:+ string4 (drop 12 b))%string else string6 b.

(** [netip.Addr.String] *)
Definition Addr_String (a : addr) : string :=
  match a with
  | AddrZero => "invalid IP"
  | Addr4 b => string4 b
  | Addr6 b => text6 b
  | Addr6Zone b zone => (text6 b +:+ "%" +:+ zone)%string
  end.

Definition hexString (b : bytes) : string :=
  fold_right (λ x s, (hex_digit (byte_Z x / 16)%Z +:+ hex_digit (byte_Z x mod 16)%Z +:+ s)%string) ""%string b.

(** [net.IP.String] *)
Definition IP_String (ip : bytes) : string :=
  if decide (length ip = 0%nat) then "<nil>"
  else if decide (length ip ≠ 4%nat ∧ length ip ≠ 16%nat) then ("?" +:+ hexString ip)%string
  else match To4 ip with
       | Some p4 => string4 p4
       | None => Addr_String (Addr6 ip)
       end.

(** ** Facts *)

Lemma length_ipKey ip : length (ipKey ip) = 16%nat.
Proof. unfold ipKey, AddrFromSlice. repeat case_decide; simpl; try done. lia. Qed.

(** An IPv4 source keys alike in its 4-byte and IPv4-mapped forms. *)
Lemma ipKey_v4_mapped ip :
  length ip = 4%nat → ipKey ip = ipKey (v4InV6Prefix ++ ip).
Proof.
  intros Hl. unfold ipKey, AddrFromSlice. rewrite length_app, Hl. simpl. done.
Qed.

Lemma IP_String_v4_mapped ip :
  length ip = 4%nat → IP_String ip = IP_String (v4InV6Prefix ++ ip).
Proof.
  intros Hl. unfold IP_String, To4. rewrite length_app, Hl. simpl. done.
Qed.

(** The text of an IPv6 address is not empty. *)
Lemma string_app_nonempty (s t : string) : s ≠ ""%string ∨ t ≠ ""%string → (s +:+ t)%string ≠ ""%string.
Proof. destruct s; simpl; [by intros [?|?]|done]. Qed.
Lemma hex_digit_nonempty z : hex_digit z ≠ ""%string.
Proof.
  unfold hex_digit. destruct (_ !! _) as [s|] eqn:Hs; [|done]. apply list_elem_of_lookup_2 in Hs.
  repeat (apply elem_of_cons in Hs as [->|Hs]; [done|]). by apply not_elem_of_nil in Hs.
Qed.
Lemma hex16_nonempty z : hex16 z ≠ ""%string.
Proof. unfold hex16. do 3 (apply string_app_nonempty; right). apply hex_digit_nonempty. Qed.
Lemma render6_nonempty fuel g run : render6 (S fuel) g run 0 ≠ ""%string.
Proof.
  cbn [render6]. destruct (decide (8 ≤ 0)%nat); [lia|]. case_decide; [by case_decide|].
  apply string_app_nonempty. right. apply string_app_nonempty. left. apply hex16_nonempty.
Qed.
Lemma IP_String_nonempty ip : length ip = 16%nat → To4 ip = None → IP_String ip ≠ ""%string.
Proof.
  intros Hl Hv4. unfold IP_String. rewrite Hl, Hv4. unfold Addr_String, text6. simpl.
  case_decide; [done|]. apply render6_nonempty.
Qed.

(** Sixteen-byte addresses have distinct keys. *)
Lemma ipKey_16_inj ip1 ip2 :
  length ip1 = 16%nat → length ip2 = 16%nat → ipKey ip1 = ipKey ip2 → ip1 = ip2.
Proof. intros H1 H2. unfold ipKey, AddrFromSlice. by rewrite H1, H2. Qed.

Example string_loopback : Addr_String (Addr6 (replicate 15 x00 ++ [x01])) = "::1"%string.
Proof. vm_compute. reflexivity. Qed.
Example string_site_group :
  Addr_String (Addr6 ([xff; x05] ++ replicate 10 x00 ++ [x00; x0b; xff; xfd])) = "ff05::b:fffd"%string.
Proof. vm_compute. reflexivity. Qed.
Example string_mapped :
  IP_String (v4InV6Prefix ++ [x0a; x00; x01; xc8]) = "10.0.1.200"%string.
Proof. vm_compute. reflexivity. Qed.

End GoNet.
