(* ===== verification/External.v ===== *)
(** * The code outside the repository, as interfaces

    The retry endpoint calls libraries whose source is not in the repository
    (shard-common's frame, bundle, shard, teewire and cache packages,
    golang.org/x/time/rate) and the operating system. Each is a class here:
    the operational classes list the operations the program calls, with no
    behaviour of their own; the [*Ok] classes state the documented behaviour
    that some theorems rely on. [E] is the state of everything outside the
    process: kernel, network, remote backends, clock.

    Also here: the errors, the metric events of src/metrics/metrics.go, and Go's
    float64 conversions used by the rate-limit configuration. *)

From S2P Require Import Prelude GoNet.
From Stdlib Require Import Strings.Byte.
From Stdlib Require Export SpecFloat.
Import GoNet.

Module External.

(** ** Errors

    [None : option gerror] is Go's nil error. [ErrExt] stands for an error that
    comes from outside (errno, a backend's error, a decoder's error). *)
Inductive gerror :=
| ErrDedupSuppressed
| ErrTooShort | ErrBadMagic | ErrBadVer | ErrTruncated
| ErrText (msg : string)
| ErrWrap (msg : string) (e : gerror)
| ErrExt (code : Z).
#[global] Instance gerror_eq_dec : EqDecision gerror.
Proof. solve_decision. Defined.

(** [errors.Is(err, target)]: equality along the chain of wrapped errors. *)
Fixpoint errors_Is (e target : gerror) : bool :=
  bool_decide (e = target) ||
  match e with ErrWrap _ e' => errors_Is e' target | _ => false end.

(** ** float64, in the IEEE 754 format of the standard library's model *)

Abbreviation float64 := SpecFloat.spec_float.

Definition float_of_Z (z : Z) : float64 := SpecFloat.binary_normalize 53 1024 z 0 false.
Definition float_is_zero (f : float64) : bool := SpecFloat.SFeqb f (float_of_Z 0).
Definition float_le_zero (f : float64) : bool := SpecFloat.SFleb f (float_of_Z 0).

(** Go's [int(f)]: truncation towards zero when the result fits an int64;
    otherwise the result is implementation dependent, here [oob]. *)
Definition float_to_int (oob : float64 → Z) (f : float64) : Z :=
  let range z := if (- 2 ^ 63 <=? z) && (z <? 2 ^ 63) then z else oob f in
  match f with
  | S754_zero _ => 0
  | S754_finite s m e =>
      let v := if 0 <=? e then Z.pos m * 2 ^ e else Z.pos m / 2 ^ (- e) in
      range (if s then - v else v)
  | _ => oob f
  end.

(** ** Metric events

    One constructor per counting method of [metrics.Recorder]; the argument is
    the label of the labelled counters. *)
Inductive metric :=
| CacheHit | CacheMiss | CacheError
| NACKRequest | Retransmit | UnicastRetransmit | RetransmitDedup
| ProxyRequest | ProxyRecovered | ProxyFailed (reason : string)
| ProxyInflightDedup | ProxyQueueDropped
| ResponseSent (typ : string) | ResponseSendError (typ : string)
| RateLimitDrop (level : string)
| FrameReceived | TeeDatagram (form : string) | FrameCached (source : string)
| FrameDropped (reason : string)
| BeaconAdvertSent.
#[global] Instance metric_eq_dec : EqDecision metric.
Proof. solve_decision. Defined.

(** ** shard-common/frame and shard-common/bundle *)

Record flow := mkFlow { fl_HashKey : Z; fl_SeqNum : Z }.

Record fragment := mkFragment {
  ff_HashKey : Z; ff_SeqNum : Z;
  ff_OrigFrameVer : byte; ff_TxID : bytes; ff_SubtreeID : bytes
}.

Class FrameLib := {
  MagicBSV : Z;
  ProtoVer : Z;
  HeaderSize : nat;
  FrameVerV3 : byte; FrameVerV4 : byte; FrameVerV5 : byte;
  FrameVerV6 : byte; FrameVerV8 : byte; FrameVerV9 : byte;
  IsBlockFrame : bytes → bool;
  IsSubtreeDataFrame : bytes → bool;
  IsAnchorFrame : bytes → bool;
  IsBundle : bytes → bool;
  IsBEEFFrame : bytes → bool;
  IsFragment : bytes → bool;
  Decode : bytes → flow + gerror;
  DecodeBlock : bytes → flow + gerror;
  DecodeSubtreeData : bytes → flow + gerror;
  DecodeAnchor : bytes → flow + gerror;
  DecodeBEEF : bytes → flow + gerror;
  DecodeFragment : bytes → fragment + gerror;
  BundleHeaderSize : nat;
  FrameVerBundle : byte;
}.

(** The flow key of a frame: HashKey and SeqNum, at offsets 40 and 48. *)
Definition hashkey_of (raw : bytes) : Z := be_dec (field 40 48 raw).
Definition seqnum_of (raw : bytes) : Z := be_dec (field 48 56 raw).

(** A decoder reads the flow key at the standard offsets. *)
Definition decodes_flow (D : bytes → flow + gerror) : Prop :=
  ∀ raw f, D raw = inl f →
    (56 ≤ length raw)%nat ∧ fl_HashKey f = hashkey_of raw ∧ fl_SeqNum f = seqnum_of raw.

(** Documented in the repository: the frame magic and protocol version
    (docs/architecture.md, ACK/MISS wire format), the 92-byte frame header and
    66-byte bundle header and the offsets of HashKey and SeqNum
    (src/retransmit/retransmit.go, buildDedupKey; src/ingress/pipeline.go,
    shardOf), the FrameVer values (src/ingress/ingress.go). *)
Class FrameLibOk `{FrameLib} : Prop := {
  magic_range : 0 ≤ MagicBSV < 2 ^ 32;
  protover_range : 0 ≤ ProtoVer < 2 ^ 16;
  header_size : HeaderSize = 92%nat;
  bundle_header_size : BundleHeaderSize = 66%nat;
  frame_versions :
    FrameVerV3 = x03 ∧ FrameVerV4 = x04 ∧ FrameVerV5 = x05 ∧ FrameVerV6 = x06 ∧
    FrameVerV8 = x08 ∧ FrameVerV9 = x09 ∧ FrameVerBundle = x08;
  decode_flow : decodes_flow Decode;
  decode_block_flow : decodes_flow DecodeBlock;
  decode_subtree_flow : decodes_flow DecodeSubtreeData;
  decode_anchor_flow : decodes_flow DecodeAnchor;
  decode_beef_flow : decodes_flow DecodeBEEF;
  decode_fragment_flow : ∀ raw f, DecodeFragment raw = inl f →
    (56 ≤ length raw)%nat ∧ ff_HashKey f = hashkey_of raw ∧ ff_SeqNum f = seqnum_of raw;
}.

(** ** shard-common/shard: group derivation *)
Class ShardLib := {
  Engine : Type;
  PlaneEngine : Type;
  eng_GroupIndex : Engine → bytes → Z;
  eng_Addr : Engine → Z → Z → udpaddr;
  eng_Prefix : Engine → Z;
  eng_GroupID : Engine → Z;
  plane_GroupIndex : PlaneEngine → bytes → Z;
  NewEngine : Z → Z → Z → Engine;               (* shard.New(prefix, groupID, bits) *)
  NewPlane : Z → Z → Z → PlaneEngine + gerror;  (* shard.NewPlane in the BEEF domain *)
  GroupAddr : Z → Z → Z → bytes;
  GroupBlockBroadcast : Z;
  GroupSubtreeDataAnnounce : Z;
  GroupSubtreeGroupAnnounce : Z;
  GroupBeacon : Z;
}.

(** An address is the prefix, the group id in bytes 12 and 13 and the group index
    in bytes 14 and 15; an engine's groups are those of its prefix and group id; the
    control groups have the fixed indices of BRC-129 (src/main.go,
    src/beacon/beacon.go, src/ingress/mcastall_linux.go). *)
Class ShardLibOk `{ShardLib} : Prop := {
  group_addr_length : ∀ p g i, length (GroupAddr p g i) = 16%nat;
  group_addr_inj : ∀ p g i j, 0 ≤ i < 2 ^ 16 → 0 ≤ j < 2 ^ 16 → GroupAddr p g i = GroupAddr p g j → i = j;
  eng_addr_eq : ∀ p g bits i port, eng_Addr (NewEngine p g bits) i port = mkUDPAddr (GroupAddr p g i) port "";
  block_group : GroupBlockBroadcast = 0xFFFE;
  beacon_group : GroupBeacon = 0xFFFD;
  announce_group : GroupSubtreeGroupAnnounce = 0xFFFC;
  subtree_group : GroupSubtreeDataAnnounce = 0xFFFB;
}.

(** shard.ParseScope and shard.Prefix for the source-specific mode. *)
Class ScopeLib := {
  ParseScope : string → Z + gerror;
  SSMPrefix : Z → Z + gerror;
}.

(** BRC-129 defines source-specific control groups at site and global scope
    only, FF35 and FF3E (src/config/controlgroup.go). *)
Class ScopeLibOk `{ScopeLib} : Prop := {
  scope_site : ∃ sc, ParseScope "site" = inl sc ∧ SSMPrefix sc = inl 0xFF35;
  scope_global : ∃ sc, ParseScope "global" = inl sc ∧ SSMPrefix sc = inl 0xFF3E;
  scope_other : ∀ name, name ≠ "site"%string → name ≠ "global"%string → ∃ err, ParseScope name = inr err;
}.

(** ** shard-common/teewire: the tee envelope *)
Class TeeWire := {
  tee_HeaderSize : nat;
  tee_IsEncap : bytes → bool;
  tee_Decap : bytes → (addr * bytes) + gerror;
}.

(** The payload of an envelope follows its fixed-size header, as
    src/ingress/pipeline.go (shardOf) assumes. *)
Class TeeWireOk `{TeeWire} : Prop := {
  decap_payload : ∀ pkt a payload, tee_Decap pkt = inl (a, payload) →
    (tee_HeaderSize ≤ length pkt)%nat ∧ payload = drop tee_HeaderSize pkt;
}.

(** An operation that keeps a property of the environment. *)
Class Keeps {E A} (P : E → Prop) (f : E → A * E) : Prop := keeps : ∀ e, P e → P (f e).2.
#[global] Arguments keeps {_ _ _ _ _} e _.
#[global] Instance keeps_any {E A} (f : E → A * E) : Keeps (λ _, True) f.
Proof. done. Qed.

(** ** shard-common/cache: the storage backend

    Operations take the deadline of their context, if any. A miss is
    [inl None]. *)
Class Backend (E : Type) := {
  backend : Type;
  be_is_memory : backend → bool;
  be_Set : backend → option Z → bytes → bytes → Z → E → option gerror * E;
  be_Get : backend → option Z → bytes → E → (option bytes + gerror) * E;
  be_Del : backend → option Z → bytes → E → option gerror * E;
  be_SetNX : backend → option Z → bytes → bytes → Z → E → (bool * option gerror) * E;
  be_Len : backend → E → option Z;
}.

(** The key is taken: no SetNX of it succeeds, with or without an error. *)
Definition be_claimed `{Backend E} (b : backend) (k : bytes) (e : E) : Prop :=
  ∀ c v ttl, (be_SetNX b c k v ttl e).1.1 = false.

(** A backend used within its TTLs and capacity: a successful Set is read back,
    and operations on one key do not disturb another. *)
Class BackendOk E `{Backend E} : Prop := {
  be_get_set : ∀ b c c' k v ttl e e',
    be_Set b c k v ttl e = (None, e') → (be_Get b c' k e').1 = inl (Some v);
  be_get_set_other : ∀ b c c' k k' v ttl e,
    k ≠ k' → (be_Get b c' k' (be_Set b c k v ttl e).2).1 = (be_Get b c' k' e).1;
  be_get_setnx_other : ∀ b c c' k k' v ttl e,
    k ≠ k' → (be_Get b c' k' (be_SetNX b c k v ttl e).2).1 = (be_Get b c' k' e).1;
  be_setnx_once : ∀ b c k v ttl e err e',
    be_SetNX b c k v ttl e = ((true, err), e') → be_claimed b k e';
}.

(** ** golang.org/x/time/rate *)
Class RateLib (E : Type) := {
  rate_Limiter : Type;
  rate_NewLimiter : float64 → Z → rate_Limiter;
  rate_Allow : rate_Limiter → E → bool * rate_Limiter * E;
}.

(** ** Clock, sockets and map iteration order *)
Inductive socket :=
| NACKSocket | EgressSocket (iface : string) | UnicastSocket | FetchSocket | BeaconSocket (group : nat).
#[global] Instance socket_eq_dec : EqDecision socket.
Proof. solve_decision. Defined.

Class OS (E : Type) := {
  mono_now : E → Z * E;
  sock_write : socket → bytes → udpaddr → E → option gerror * E;
  (* the order in which a [range] over a map visits its entries *)
  range_order : ∀ A : Type, list A → E → list A * E;
}.

Class OSOk E `{OS E} : Prop := {
  range_order_perm : ∀ (A : Type) (l : list A) e, (range_order A l e).1 ≡ₚ l;
}.

(** The NACK proxy's fetch socket: name resolution, opening the socket at a local
    address, the datagrams that successive reads return before the first read
    that fails (the deadline is always set, so there is one), and whether the
    context is cancelled. *)
Class FetchNet (E : Type) := {
  net_ResolveUDPAddr : string → E → (udpaddr + gerror) * E;
  net_ListenPacket : string → E → option gerror * E;
  net_arrivals : Z → E → list bytes * E;
  ctx_Done : E → bool * E;
}.

(** Reading the clock and taking a token do not change what a backend returns
    (within the TTL of the entry). *)
Class GetFrame E `{RateLib E, OS E, Backend E} : Prop := {
  get_clock : ∀ b c k e, (be_Get b c k (mono_now e).2).1 = (be_Get b c k e).1;
  get_rate : ∀ b c k l e, (be_Get b c k (rate_Allow l e).2).1 = (be_Get b c k e).1;
}.

(** What the backends hold. A value that a Get returns is stored under its key; a
    Set or a SetNX can add the value it is given, under its own key, and nothing
    else; reading, the clock, tokens, sockets and name resolution add nothing.
    Entries may vanish at any time, and any operation may fail. *)
Class Contents E `{Backend E} := stored : backend → bytes → bytes → E → Prop.
Definition adds_nothing `{Contents E} {A} (f : E → A * E) : Prop :=
  ∀ b k v e, stored b k v (f e).2 → stored b k v e.
Class ContentsOk E `{RateLib E, OS E, FetchNet E, Contents E} : Prop := {
  stored_get : ∀ b c k v e, (be_Get b c k e).1 = inl (Some v) → stored b k v e;
  stored_set : ∀ b k v b' c k' v' ttl e, stored b k v (be_Set b' c k' v' ttl e).2 →
    stored b k v e ∨ (b = b' ∧ k = k' ∧ v = v');
  stored_setnx : ∀ b k v b' c k' v' ttl e, stored b k v (be_SetNX b' c k' v' ttl e).2 →
    stored b k v e ∨ (b = b' ∧ k = k' ∧ v = v');
  stored_read : ∀ b c k, adds_nothing (be_Get b c k);
  stored_now : adds_nothing mono_now;
  stored_rate : ∀ l, adds_nothing (rate_Allow l);
  stored_write : ∀ s d a, adds_nothing (sock_write s d a);
  stored_range : ∀ A l, adds_nothing (range_order A l);
  stored_resolve : ∀ ep, adds_nothing (net_ResolveUDPAddr ep);
  stored_listen : ∀ l, adds_nothing (net_ListenPacket l);
  stored_arrivals : ∀ t, adds_nothing (net_arrivals t);
  stored_done : adds_nothing ctx_Done;
}.

(** Sending a datagram, ranging over a map or another claim does not release a
    claim. *)
Class ClaimFrame E `{OS E, Backend E} : Prop := {
  claimed_write : ∀ b k s d a e, be_claimed b k e → be_claimed b k (sock_write s d a e).2;
  claimed_range : ∀ b k A (l : list A) e, be_claimed b k e → be_claimed b k (range_order A l e).2;
  claimed_setnx : ∀ b k b' c k' v ttl e, be_claimed b k e → be_claimed b k (be_SetNX b' c k' v ttl e).2;
}.

(** ** Descriptors

    The calls that create, configure and release sockets: golang.org/x/sys/unix,
    net.ListenPacket, net.ListenUDP, net.DialUDP, UDPConn.File and netjoin.Join
    of shard-common. A call returns a number, the descriptor for one that creates
    it, or an error; [klog] is the history of the process's calls. *)
Inductive sockopt :=
| SO_REUSEADDR | SO_REUSEPORT | SO_RCVBUF | SO_RCVTIMEO | SO_BROADCAST | IPV6_V6ONLY
| IPV6_MULTICAST_ALL | IPV6_MULTICAST_IF | IPV6_MULTICAST_LOOP.
#[global] Instance sockopt_eq_dec : EqDecision sockopt.
Proof. solve_decision. Defined.

Inductive call :=
| SysSocket                                          (* an IPv6 datagram socket *)
| SysListenPacket (addr : string)
| SysListenUDP (laddr : option bytes)
| SysDialUDP (laddr : option bytes) (raddr : udpaddr)
| SysFile (fd : Z)                                   (* a duplicate *)
| SysSetsockopt (fd : Z) (opt : sockopt) (value : Z)
| SysBind (fd : Z) (ip : bytes) (port : Z)
| SysJoin (fd ifindex : Z) (group : bytes) (srcs : list addr)
| SysClose (fd : Z).

Definition syscall : Type := (call * (Z + gerror))%type.

Class Kernel (E : Type) := {
  sys : call → E → (Z + gerror) * E;
  klog : E → list syscall;
}.
Class KernelOk E `{Kernel E} : Prop := {
  sys_logged : ∀ c e, klog (sys c e).2 = klog e ++ [(c, (sys c e).1)];
}.
(** Ranging over a map and sending make no such call. *)
Class KernelFrame E `{OS E, Kernel E} : Prop := {
  log_write : ∀ s d a e, klog (sock_write s d a e).2 = klog e;
  log_range : ∀ A (l : list A) e, klog (range_order A l e).2 = klog e;
}.

End External.
