(* ===== verification/RefEnv.v ===== *)
(** * A concrete environment

    One executable instance of every interface of External.v, with the values
    the repository documents: a keyed store that can be down, sockets that can
    fail, a clock that ticks on every reading, buckets that count tokens down,
    frames with the flow key at offsets 40 and 48. It shows that the [*Ok]
    classes can hold, and the instances of the theorems run on it. *)

From S2P Require Import Prelude GoNet External.
From Stdlib Require Import Strings.Byte.
Import GoNet External.

Module RefEnv.

Record renv := mkREnv {
  re_clk : Z;
  re_kv : gmap (nat * bytes) bytes;
  re_down : bool;      (* backend unreachable *)
  re_wfail : bool;     (* socket writes fail *)
  re_inbox : list bytes;  (* what a fetch socket will receive *)
  re_log : list syscall;  (* the socket calls so far *)
}.

#[global] Instance ref_OS : OS renv := {|
  mono_now := λ e, (re_clk e, mkREnv (re_clk e + 1) (re_kv e) (re_down e) (re_wfail e) (re_inbox e) (re_log e));
  sock_write := λ _ _ _ e, ((if re_wfail e then Some (ErrExt 101) else None), e);
  range_order := λ _ l e, (l, e);
|}.

#[global] Instance ref_OSOk : OSOk renv.
Proof. split. intros. reflexivity. Qed.

#[global] Instance ref_RateLib : RateLib renv := {|
  rate_Limiter := Z;
  rate_NewLimiter := λ _ burst, burst;
  rate_Allow := λ l e, (0 <? l, l - 1, e);
|}.

Definition ref_set (b : nat) (k v : bytes) (e : renv) : renv :=
  mkREnv (re_clk e) (<[(b, k) := v]> (re_kv e)) (re_down e) (re_wfail e) (re_inbox e) (re_log e).

#[global] Instance ref_Backend : Backend renv := {|
  backend := nat;
  be_is_memory := λ b, bool_decide (b = 0%nat);
  be_Set := λ b _ k v _ e, if re_down e then (Some (ErrExt 111), e) else (None, ref_set b k v e);
  be_Get := λ b _ k e, if re_down e then (inr (ErrExt 111), e) else (inl (re_kv e !! (b, k)), e);
  be_Del := λ b _ k e,
    if re_down e then (Some (ErrExt 111), e)
    else (None, mkREnv (re_clk e) (delete (b, k) (re_kv e)) (re_down e) (re_wfail e) (re_inbox e) (re_log e));
  be_SetNX := λ b _ k v _ e,
    if re_down e then ((false, Some (ErrExt 111)), e) else
    match re_kv e !! (b, k) with
    | Some _ => ((false, None), e)
    | None => ((true, None), ref_set b k v e)
    end;
  be_Len := λ b e, if decide (b = 0%nat) then Some (Z.of_nat (size (re_kv e))) else None;
|}.

#[global] Instance ref_BackendOk : BackendOk renv.
Proof.
  split; simpl; intros.
  - destruct (re_down e) eqn:Hd; simplify_eq. unfold ref_set. simpl. by rewrite Hd, lookup_insert_eq.
  - destruct (re_down e) eqn:Hd; simpl; rewrite Hd; [done|]. by rewrite lookup_insert_ne by congruence.
  - destruct (re_down e) eqn:Hd; simpl; [by rewrite Hd|].
    destruct (re_kv e !! (b, k)) eqn:Hk; simpl; rewrite Hd; [done|].
    by rewrite lookup_insert_ne by congruence.
  - destruct (re_down e) eqn:Hd; [done|]. destruct (re_kv e !! (b, k)) eqn:Hk; simplify_eq.
    intros c' v' ttl'. unfold ref_set. simpl. by rewrite Hd, lookup_insert_eq.
Qed.

(** Every endpoint name resolves to the loopback address. *)
#[global] Instance ref_FetchNet : FetchNet renv := {|
  net_ResolveUDPAddr := λ _ e, (inl (mkUDPAddr (replicate 15 x00 ++ [x01]) 9300 ""), e);
  net_ListenPacket := λ _ e, (None, e);
  net_arrivals := λ _ e,
    (re_inbox e, mkREnv (re_clk e) (re_kv e) (re_down e) (re_wfail e) [] (re_log e));
  ctx_Done := λ e, (false, e);
|}.

#[global] Instance ref_GetFrame : GetFrame renv.
Proof. split; simpl; intros; by destruct (re_down e). Qed.

#[global] Instance ref_Contents : Contents renv := λ b k v e, re_kv e !! (b, k) = Some v.
#[global] Instance ref_ContentsOk : ContentsOk renv.
Proof.
  assert (∀ b k v b' k' v' e, re_kv (ref_set b' k' v' e) !! (b, k) = Some v →
    re_kv e !! (b, k) = Some v ∨ (b = b' ∧ k = k' ∧ v = v')) as Hset.
  { intros b k v b' k' v' e. simpl. rewrite lookup_insert_Some. naive_solver. }
  split; unfold adds_nothing, stored, ref_Contents; try done; simpl.
  - intros b c k v e. destruct (re_down e); [done|]. by intros [= ?].
  - intros b k v b' c k' v' ttl e. destruct (re_down e); [by left|]. apply Hset.
  - intros b k v b' c k' v' ttl e. destruct (re_down e); [by left|].
    destruct (re_kv e !! (b', k')); [by left|]. apply Hset.
  - intros b c k b' k' v' e. by destruct (re_down e).
Qed.

#[global] Instance ref_ClaimFrame : ClaimFrame renv.
Proof.
  split; [done..|]. simpl. intros b k b' c k' v ttl e Hc.
  destruct (re_down e) eqn:Hd; [done|]. destruct (re_kv e !! (b', k')) eqn:Hk'; [done|]. simpl.
  intros c' v' ttl'. specialize (Hc c' v' ttl'). simpl in *. rewrite Hd in *.
  destruct (decide ((b', k') = (b, k))) as [[= -> ->]|Hne]; [by rewrite lookup_insert_eq|].
  rewrite lookup_insert_ne by done. by destruct (re_kv e !! (b, k)).
Qed.

(** Frames of one version: 92-byte header, flow key at the standard offsets. *)
Definition ref_is (v : byte) (raw : bytes) : bool := bool_decide (raw !! 6%nat = Some v).
Definition ref_decode (v : byte) (raw : bytes) : flow + gerror :=
  if decide (92 ≤ length raw)%nat then
    if ref_is v raw then inl (mkFlow (hashkey_of raw) (seqnum_of raw)) else inr ErrBadVer
  else inr ErrTooShort.
Definition ref_decode_fragment (raw : bytes) : fragment + gerror :=
  if decide (104 ≤ length raw)%nat then
    if ref_is x03 raw then
      inl (mkFragment (hashkey_of raw) (seqnum_of raw) (default x02 (raw !! 88%nat))
             (field 8 40 raw) (field 56 88 raw))
    else inr ErrBadVer
  else inr ErrTooShort.

#[global] Instance ref_FrameLib : FrameLib := {|
  MagicBSV := 0xE3E1F3E8; ProtoVer := 0x02BF; HeaderSize := 92%nat;
  FrameVerV3 := x03; FrameVerV4 := x04; FrameVerV5 := x05;
  FrameVerV6 := x06; FrameVerV8 := x08; FrameVerV9 := x09;
  IsBlockFrame := ref_is x04; IsSubtreeDataFrame := ref_is x05; IsAnchorFrame := ref_is x06;
  IsBundle := ref_is x08; IsBEEFFrame := ref_is x09; IsFragment := ref_is x03;
  Decode := ref_decode x02; DecodeBlock := ref_decode x04; DecodeSubtreeData := ref_decode x05;
  DecodeAnchor := ref_decode x06; DecodeBEEF := ref_decode x09;
  DecodeFragment := ref_decode_fragment;
  BundleHeaderSize := 66%nat; FrameVerBundle := x08;
|}.

Lemma ref_decode_ok v : decodes_flow (ref_decode v).
Proof.
  intros raw f. unfold ref_decode. case_decide; [|done]. destruct (ref_is v raw); [|done].
  intros [= <-]. split_and!; [lia|done..].
Qed.

#[global] Instance ref_FrameLibOk : FrameLibOk.
Proof.
  split; try apply ref_decode_ok; try done.
  intros raw f. simpl. unfold ref_decode_fragment. case_decide; [|done].
  destruct (ref_is x03 raw); [|done]. intros [= <-]. split_and!; [lia|done..].
Qed.

(** Group derivation: the leading bits of a 32-byte identifier. *)
Record ref_engine := mkEngine { en_prefix : Z; en_gid : Z; en_bits : Z }.
Definition ref_group_addr (prefix gid idx : Z) : bytes :=
  be_enc 2 prefix ++ replicate 10 x00 ++ be_enc 2 gid ++ be_enc 2 idx.
Definition ref_index (bits : Z) (id : bytes) : Z := be_dec (take 4 id) / 2 ^ (32 - bits).

#[global] Instance ref_ShardLib : ShardLib := {|
  Engine := ref_engine;
  PlaneEngine := Z;
  eng_GroupIndex := λ en id, ref_index (en_bits en) id;
  eng_Addr := λ en idx port, mkUDPAddr (ref_group_addr (en_prefix en) (en_gid en) idx) port "";
  eng_Prefix := en_prefix;
  eng_GroupID := en_gid;
  NewEngine := mkEngine;
  NewPlane := λ _ _ bits, if bits <? 13 then inl bits else inr (ErrText "bits");
  plane_GroupIndex := λ bits id, 0x1000 + ref_index bits id;
  GroupAddr := ref_group_addr;
  GroupBlockBroadcast := 0xFFFE;
  GroupSubtreeDataAnnounce := 0xFFFB;
  GroupSubtreeGroupAnnounce := 0xFFFC;
  GroupBeacon := 0xFFFD;
|}.

#[global] Instance ref_ShardLibOk : ShardLibOk.
Proof.
  split; cbn -[be_enc]; try done; unfold ref_group_addr.
  intros p g i j Hi Hj Heq. rewrite !app_assoc in Heq.
  apply app_inj_1 in Heq as [_ Heq]; [|done].
  apply (f_equal be_dec) in Heq. by rewrite !be_dec_enc_small in Heq by lia.
Qed.

#[global] Instance ref_ScopeLib : ScopeLib := {|
  ParseScope := λ name,
    if decide (name = "site"%string) then inl 5
    else if decide (name = "global"%string) then inl 14 else inr (ErrText "unknown scope");
  SSMPrefix := λ sc, inl (0xFF30 + sc);
|}.
#[global] Instance ref_ScopeLibOk : ScopeLibOk.
Proof.
  split; [by eexists|by eexists|]. intros name H1 H2. simpl.
  rewrite !decide_False by done. by eexists.
Qed.

(** The tee envelope: magic [TEE1], 16-byte source, 4 bytes of padding. *)
Definition tee_magic : bytes := [x54; x45; x45; x31].
#[global] Instance ref_TeeWire : TeeWire := {|
  tee_HeaderSize := 24%nat;
  tee_IsEncap := λ b, bool_decide (take 4 b = tee_magic);
  tee_Decap := λ b,
    if decide (24 ≤ length b)%nat then inl (Addr6 (field 4 20 b), drop 24 b) else inr ErrTooShort;
|}.

#[global] Instance ref_TeeWireOk : TeeWireOk.
Proof. split. intros pkt a payload. simpl. case_decide; [|done]. by intros [= _ <-]. Qed.

(** A frame of version [v] with flow key ([hk], [sq]), transaction id filled
    with [t], subtree or topic id filled with [s] and original version [ov]. *)
Definition ref_frame (v t s ov : byte) (hk sq : Z) : bytes :=
  be_enc 4 0xE3E1F3E8 ++ be_enc 2 0x02BF ++ [v; x00] ++ replicate 32 t ++
  be_enc 8 hk ++ be_enc 8 sq ++ replicate 32 s ++ [ov] ++ replicate 16 x00.

(** Descriptors are numbered by the call that made them; calls fail with the
    network. *)
#[global] Instance ref_Kernel : Kernel renv := {|
  sys := λ c e,
    let r := if re_wfail e then inr (ErrExt 24) else inl (3 + Z.of_nat (length (re_log e))) in
    (r, mkREnv (re_clk e) (re_kv e) (re_down e) (re_wfail e) (re_inbox e) (re_log e ++ [(c, r)]));
  klog := re_log;
|}.
#[global] Instance ref_KernelOk : KernelOk renv.
Proof. by split. Qed.
#[global] Instance ref_KernelFrame : KernelFrame renv.
Proof. by split. Qed.

Definition env0 : renv := mkREnv 1 ∅ false false [] [].

End RefEnv.
