(* ===== verification/EventLog.v ===== *)
(** * The per-key event log of the sliding-window limiter

    Models [eventLog] of src/ratelimit/ratelimit.go: one key's admitted events
    as a Go slice of monotonic timestamps with an expired prefix [ts[:head]].
    The slice is kept with its capacity, because the code shrinks on it, and
    with its nil-ness, because the code tests it. Index accesses are partial:
    [None] is the panic the code must not reach.

    Shown here: [expire] and [allow] never panic on a well-formed log, keep it
    well formed, and act on the live events exactly as a filter and an append
    do; the slice never holds more than twice the events it may admit. *)

From S2P Require Import Prelude.

Module EventLog.

(** A non-nil [[]int64]: its elements and its capacity. *)
Record i64slice := mkSlice { elems : list Z; scap : nat }.

Record eventLog := mkLog { ts : option i64slice; head : nat }.

Definition logInitCap : nat := 4.
Definition logShrinkCap : nat := 256.

Definition ts_list (l : eventLog) : list Z :=
  match ts l with Some s => elems s | None => [] end.
Definition ts_cap (l : eventLog) : nat :=
  match ts l with Some s => scap s | None => 0%nat end.

Definition empty : eventLog := mkLog None 0.

(** [for l.ts[l.head] <= cutoff { l.head++ }] *)
Fixpoint step_head (fuel : nat) (t : list Z) (h : nat) (cutoff : Z) : option nat :=
  match t !! h with
  | None => None
  | Some x =>
      if x <=? cutoff then
        match fuel with O => None | S f => step_head f t (S h) cutoff end
      else Some h
  end.

(** [copy(dst, src)] on slices that may overlap, as memmove does. *)
Definition gcopy (dst src : list Z) : list Z :=
  take (length dst) src ++ drop (length src) dst.

Definition expire (cutoff : Z) (l : eventLog) : option eventLog :=
  let t := ts_list l in
  let n := length t in
  if decide (n = 0)%nat then Some l else
  newest ← t !! (n - 1)%nat;
  if newest <=? cutoff then
    Some (mkLog (if decide (logShrinkCap < ts_cap l)%nat then None
                 else Some (mkSlice [] (ts_cap l))) 0)
  else
    h ← step_head n t (head l) cutoff;
    if decide (2 * h < n)%nat then Some (mkLog (ts l) h) else
    let live := drop h t in
    if decide (logShrinkCap < ts_cap l ∧ 8 * length live < ts_cap l)%nat then
      Some (mkLog (Some (mkSlice live (2 * length live))) 0)
    else
      Some (mkLog (Some (mkSlice (take (length live) (gcopy t live)) (ts_cap l))) 0).

Definition idle (cutoff : Z) (l : eventLog) : bool :=
  match last (ts_list l) with None => true | Some newest => newest <=? cutoff end.

Section with_runtime.
(** The capacity the Go runtime gives a slice that [append] has to grow, from
    its old capacity and the length it must hold. *)
Context (growcap : nat → nat → nat).

Definition append (s : i64slice) (x : Z) : i64slice :=
  mkSlice (elems s ++ [x])
    (if decide (length (elems s) < scap s)%nat then scap s
     else growcap (scap s) (S (length (elems s)))).

Definition allow (now window max : Z) (l : eventLog) : option (bool * eventLog) :=
  l' ← expire (i64 (now - window)) l;
  if max <=? Z.of_nat (length (ts_list l')) - Z.of_nat (head l') then Some (false, l')
  else
    let s := match ts l' with Some s => s | None => mkSlice [] logInitCap end in
    Some (true, mkLog (Some (append s now)) (head l')).
End with_runtime.

(** ** Specification *)

(** The events that have not been stepped past. *)
Definition live (l : eventLog) : list Z := drop (head l) (ts_list l).

(** Events later than [cutoff]. *)
Abbreviation since cutoff := (filter (λ t : Z, cutoff < t)).

Record wf (l : eventLog) : Prop := {
  wf_sorted : StronglySorted Z.le (ts_list l);
  wf_head : (head l = 0 ∨ 2 * head l < length (ts_list l))%nat;
}.

Lemma wf_empty : wf empty.
Proof. split; [constructor | by left]. Qed.

Lemma length_live l : wf l →
  Z.of_nat (length (live l)) = Z.of_nat (length (ts_list l)) - Z.of_nat (head l).
Proof. intros [_ [H|H]]; unfold live; rewrite length_drop; lia. Qed.

Lemma StronglySorted_drop n (t : list Z) : StronglySorted Z.le t → StronglySorted Z.le (drop n t).
Proof.
  revert n. induction t as [|x t IH]; intros [|n] Hs; simpl; try done.
  apply IH. by inversion Hs.
Qed.

Lemma StronglySorted_snoc (t : list Z) x :
  StronglySorted Z.le t → Forall (λ y, y ≤ x) t → StronglySorted Z.le (t ++ [x]).
Proof.
  induction t as [|y t IH]; intros Hs Hf; simpl; [by repeat constructor|].
  inversion Hs; inversion Hf; subst. constructor; [by apply IH|].
  apply Forall_app. split; [done|]. by repeat constructor.
Qed.

Lemma sorted_le_last (t : list Z) x :
  StronglySorted Z.le t → last t = Some x → Forall (λ y, y ≤ x) t.
Proof.
  intros Hs [t' ->]%last_Some. clear - Hs. induction t' as [|y t' IH]; simpl in *.
  - by repeat constructor.
  - inversion Hs as [|? ? Hs' Hf]; subst. constructor; [|by apply IH].
    apply Forall_app in Hf as [_ Hf]. by inversion Hf.
Qed.

Lemma since_all c (t : list Z) : Forall (λ y, c < y) t → since c t = t.
Proof.
  induction 1 as [|y t Hy _ IH]; [done|]. rewrite filter_cons, decide_True by done. by f_equal.
Qed.

Lemma since_none c (t : list Z) : Forall (λ y, y ≤ c) t → since c t = [].
Proof.
  induction 1 as [|y t Hy _ IH]; [done|]. rewrite filter_cons, decide_False by lia. done.
Qed.

Lemma since_since c c' (t : list Z) : c ≤ c' → since c' (since c t) = since c' t.
Proof.
  intros Hc. induction t as [|y t IH]; [done|]. rewrite !filter_cons.
  repeat case_decide; rewrite ?filter_cons; repeat case_decide; try lia; congruence.
Qed.

Lemma step_head_spec fuel t h c :
  StronglySorted Z.le t → (h < length t)%nat → (length t ≤ fuel + h)%nat →
  (∃ newest, last t = Some newest ∧ c < newest) →
  ∃ h', step_head fuel t h c = Some h' ∧ (h ≤ h' < length t)%nat ∧
        drop h' t = since c (drop h t).
Proof.
  intros Hs Hh Hf (newest & Hl & Hc). revert h Hh Hf.
  induction fuel as [|fuel IH]; intros h Hh Hf; [lia|]. simpl.
  destruct (lookup_lt_is_Some_2 t h Hh) as [x Hx]. rewrite Hx.
  destruct (Z.leb_spec x c) as [Hle|Hgt].
  - assert (S h < length t)%nat as Hh'.
    { destruct (decide (S h = length t)) as [E|]; [|lia].
      rewrite last_lookup, <- E in Hl. simpl in Hl. simplify_eq. lia. }
    destruct (IH (S h) Hh' ltac:(lia)) as (h' & -> & Hr & Hd).
    exists h'. split_and!; [done|lia|lia|]. rewrite Hd.
    rewrite (drop_S t x h Hx), filter_cons, decide_False by lia. done.
  - exists h. split_and!; [done|lia|lia|]. symmetry. apply since_all.
    rewrite (drop_S t x h Hx). constructor; [done|].
    pose proof (StronglySorted_drop h t Hs) as Hd. rewrite (drop_S t x h Hx) in Hd.
    inversion Hd as [|? ? _ Hall]; subst. eapply Forall_impl; [exact Hall|]. simpl. lia.
Qed.

Lemma take_gcopy (t l : list Z) : (length l ≤ length t)%nat → take (length l) (gcopy t l) = l.
Proof.
  intros. unfold gcopy. rewrite (take_ge l) by lia. by rewrite take_app_length.
Qed.

(** [expire] keeps exactly the live events after the cutoff. *)
Lemma expire_spec c l : wf l →
  ∃ l', expire c l = Some l' ∧ wf l' ∧ live l' = since c (live l) ∧
        (∀ T, Forall (λ y, y ≤ T) (ts_list l) → Forall (λ y, y ≤ T) (ts_list l')).
Proof.
  intros Hwf. pose proof (wf_sorted l Hwf) as Hs. unfold expire.
  case_decide as Hn.
  { exists l. apply nil_length_inv in Hn. split_and!; try done.
    unfold live. by rewrite Hn, !drop_nil. }
  destruct (lookup_lt_is_Some_2 (ts_list l) (length (ts_list l) - 1)) as [newest Hx]; [lia|].
  rewrite Hx. simpl.
  assert (last (ts_list l) = Some newest) as Hl by (rewrite last_lookup, <- Hx; f_equal; lia).
  destruct (Z.leb_spec newest c) as [Hle|Hgt].
  { eexists. split; [done|].
    assert (since c (live l) = []) as ->.
    { apply since_none. apply Forall_drop. eapply Forall_impl; [by eapply sorted_le_last|].
      simpl. lia. }
    case_decide; (split_and!; [split; [constructor|by left] | done | by constructor]). }
  assert (head l < length (ts_list l))%nat as Hh by (destruct Hwf as [_ []]; lia).
  destruct (step_head_spec (length (ts_list l)) (ts_list l) (head l) c) as (h & -> & Hr & Hd);
    [done..|lia|eauto|]. simpl.
  case_decide as H2.
  { eexists. split; [done|]. split_and!; [by split; [|right] | done | done]. }
  rewrite take_gcopy by (rewrite length_drop; lia).
  pose proof (StronglySorted_drop h _ Hs) as Hs'.
  case_decide; (eexists; split; [done|]; split_and!;
    [by split; [|left] | done | intros T HT; by apply Forall_drop]).
Qed.

Lemma expire_length c l l' :
  expire c l = Some l' → (length (ts_list l') ≤ length (ts_list l))%nat.
Proof.
  unfold expire. case_decide; [by intros; simplify_eq|].
  destruct (ts_list l !! _) as [x|]; [simpl|done].
  destruct (x <=? c); [intros; simplify_eq; unfold ts_list; simpl; case_decide; simpl; lia|].
  destruct (step_head _ _ _ _) as [h|]; [simpl|done].
  repeat case_decide; intros; simplify_eq; unfold ts_list at 1; simpl; [done|..];
    rewrite ?length_take, ?length_drop; lia.
Qed.

Lemma idle_since c l : wf l → idle c l = true → since c (live l) = [].
Proof.
  intros [Hs _]. unfold idle. destruct (last (ts_list l)) as [x|] eqn:Hl; intros Hi.
  - apply since_none. apply Forall_drop. eapply Forall_impl; [by eapply sorted_le_last|].
    simpl. lia.
  - apply last_None in Hl. unfold live. by rewrite Hl, drop_nil.
Qed.

Lemma not_idle_since c l : wf l → idle c l = false → ∃ y, y ∈ live l ∧ c < y.
Proof.
  intros [_ Hh]. unfold idle. destruct (last (ts_list l)) as [x|] eqn:Hl; [|done]. intros Hi.
  exists x. split; [|lia]. unfold live. apply last_Some in Hl as [t Hl]. rewrite Hl in *.
  rewrite length_app in Hh. simpl in Hh. rewrite drop_app_le by lia.
  apply elem_of_app. right. constructor.
Qed.

Section spec.
Context (growcap : nat → nat → nat).

(** [allow] decides on, and records into, the live events only. *)
Lemma allow_spec now window max l :
  wf l → Forall (λ y, y ≤ now) (ts_list l) →
  let cur := since (i64 (now - window)) (live l) in
  let ok := Z.of_nat (length cur) <? max in
  ∃ l', allow growcap now window max l = Some (ok, l') ∧ wf l' ∧
        Forall (λ y, y ≤ now) (ts_list l') ∧
        live l' = (if ok then cur ++ [now] else cur).
Proof.
  intros Hwf HT. simpl. unfold allow.
  destruct (expire_spec (i64 (now - window)) l Hwf) as (l1 & -> & Hwf1 & Hlive & HT1).
  simpl. rewrite <- Hlive, <- (length_live l1 Hwf1).
  specialize (HT1 now HT).
  destruct (Z.leb_spec max (Z.of_nat (length (live l1)))), (Z.ltb_spec (Z.of_nat (length (live l1))) max);
    try lia; [by eexists|].
  eexists. split; [done|]. unfold live, ts_list in *. simpl.
  destruct l1 as [[s|] h]; simpl in *.
  - split_and!.
    + destruct Hwf1 as [Hs Hh]. unfold ts_list in *. simpl in *.
      split; unfold ts_list; simpl; [by apply StronglySorted_snoc|].
      rewrite length_app. simpl. lia.
    + apply Forall_app. split; [done|]. by repeat constructor.
    + rewrite drop_app_le; [done|]. destruct Hwf1 as [_ []]; unfold ts_list in *; simpl in *; lia.
  - destruct Hwf1 as [_ [Hh|]]; unfold ts_list in *; simpl in *; [subst h|lia].
    split_and!; [split; [by repeat constructor|by left]|by repeat constructor|done].
Qed.

(** The slice behind a log stays within twice the events the log may admit. *)
Lemma allow_length now window max l b l' :
  wf l → allow growcap now window max l = Some (b, l') →
  Z.of_nat (length (ts_list l')) ≤ Z.max (2 * max - 1) (Z.of_nat (length (ts_list l))).
Proof.
  intros Hwf. unfold allow.
  destruct (expire_spec (i64 (now - window)) l Hwf) as (l1 & He & Hwf1 & _ & _).
  rewrite He. simpl.
  pose proof (expire_length _ _ _ He).
  destruct (Z.leb_spec max (Z.of_nat (length (ts_list l1)) - Z.of_nat (head l1)));
    intros; simplify_eq; [lia|].
  unfold ts_list at 1. simpl. rewrite length_app. simpl.
  destruct Hwf1 as [_ Hh]. unfold ts_list in *. destruct (ts l1); simpl in *; lia.
Qed.
End spec.

(** ** Panic freedom without assumptions on the clock

    Even with timestamps out of order the code cannot run past the slice: the
    newest event was just seen to be later than the cutoff. *)

Definition hd_ok (l : eventLog) : Prop := (head l = 0 ∨ 2 * head l < length (ts_list l))%nat.

Lemma step_head_total fuel t h c newest :
  (h < length t)%nat → (length t ≤ fuel + h)%nat → last t = Some newest → c < newest →
  ∃ h', step_head fuel t h c = Some h' ∧ (h ≤ h' < length t)%nat.
Proof.
  intros Hh Hf Hl Hc. revert h Hh Hf. induction fuel as [|fuel IH]; intros h Hh Hf; [lia|]. simpl.
  destruct (lookup_lt_is_Some_2 t h Hh) as [x Hx]. rewrite Hx.
  destruct (Z.leb_spec x c) as [Hle|Hgt]; [|by exists h].
  assert (S h < length t)%nat as Hh'.
  { destruct (decide (S h = length t)) as [E|]; [|lia].
    rewrite last_lookup, <- E in Hl. simpl in Hl. simplify_eq. lia. }
  destruct (IH (S h) Hh' ltac:(lia)) as (h' & -> & ?). exists h'. split; [done|lia].
Qed.

Lemma expire_total c l : hd_ok l → ∃ l', expire c l = Some l' ∧ hd_ok l'.
Proof.
  intros Hok. unfold expire. case_decide as Hn; [by eauto|].
  destruct (lookup_lt_is_Some_2 (ts_list l) (length (ts_list l) - 1)) as [newest Hx]; [lia|].
  rewrite Hx. simpl.
  assert (last (ts_list l) = Some newest) as Hl by (rewrite last_lookup, <- Hx; f_equal; lia).
  destruct (Z.leb_spec newest c) as [Hle|Hgt]; [by eexists; split; [|left]|].
  assert (head l < length (ts_list l))%nat as Hh by (unfold hd_ok in Hok; lia).
  destruct (step_head_total (length (ts_list l)) (ts_list l) (head l) c newest) as (h & -> & Hr);
    [done|lia|done..|]. simpl.
  repeat case_decide; (eexists; split; [done|]); [by right|by left..].
Qed.

Lemma allow_total growcap now window max l :
  hd_ok l → ∃ ok l', allow growcap now window max l = Some (ok, l') ∧ hd_ok l'.
Proof.
  intros Hok. unfold allow. destruct (expire_total (i64 (now - window)) l Hok) as (l1 & -> & Hok1).
  simpl. case_match; [by eauto|]. eexists _, _. split; [done|].
  unfold hd_ok, ts_list in *. destruct (ts l1); simpl in *; rewrite ?length_app; simpl; lia.
Qed.

End EventLog.
