(* ===== verification/SlidingWindow.v ===== *)
(** * The sliding-window limiter

    Models [slidingWindowLimiter] of src/ratelimit/ratelimit.go: a Go map from
    keys to event logs, an eviction sweep of aged-out keys triggered by map
    size or by elapsed time, and the admission decision. Timestamps are [int64]
    nanoseconds; the subtraction [now - window] wraps as in Go.

    The abstract specification [Spec] keeps, for every key, the whole history of
    admitted events and admits an event when fewer than [max] of them are later
    than [now - window]. The theorems show that the optimised structure (expired
    prefixes, compaction, eviction of whole keys, map rebuild) takes exactly the
    specification's decisions on every request sequence, that no window ever
    holds more than [max] admitted events, and that the map stays within twice
    the keys that were active at the last sweep. *)

From S2P Require Import Prelude EventLog.
Import EventLog.

Module SlidingWindow.

Record slidingWindowLimiter (K : Type) `{Countable K} := mkSWL {
  keys : gmap K eventLog;
  max : Z;
  window : Z;      (* nanoseconds *)
  maxKeys : Z;     (* map size at which aged-out keys are first swept *)
  sweepAt : Z;     (* map size that triggers the next sweep *)
  lastSweep : Z;   (* time of the last sweep *)
  peak : Z;        (* largest map size since the map was last rebuilt *)
}.
Arguments mkSWL {K _ _}.
Arguments keys {K _ _}.
Arguments max {K _ _}.
Arguments window {K _ _}.
Arguments maxKeys {K _ _}.
Arguments sweepAt {K _ _}.
Arguments lastSweep {K _ _}.
Arguments peak {K _ _}.

Section model.
Context {K : Type} `{Countable K}.
Context (growcap : nat → nat → nat).
Implicit Types r : slidingWindowLimiter K.

Definition newSlidingWindowLimiter (mx win mk : Z) : slidingWindowLimiter K :=
  mkSWL ∅ mx win mk mk 0 0.

Definition zsize (m : gmap K eventLog) : Z := Z.of_nat (size m).

Definition evictExpiredLocked (now : Z) r : slidingWindowLimiter K :=
  let cutoff := i64 (now - window r) in
  let kept := filter (λ kl : K * eventLog, idle cutoff kl.2 = false) (keys r) in
  let n := zsize kept in
  let '(m, pk) :=
    if 4 * n <? peak r
    then (list_to_map (map_to_list kept), n)   (* copy into a map sized for them *)
    else (kept, peak r) in
  mkSWL m (max r) (window r) (maxKeys r)
    (Z.max (maxKeys r) (2 * zsize m)) now pk.

(** The lookup half of [allowLocked]: the key's log, created after a sweep
    when the key is new and the map is full or a window has passed. *)
Definition lookupOrCreate (key : K) (now : Z) r : eventLog * slidingWindowLimiter K :=
  match keys r !! key with
  | Some l => (l, r)
  | None =>
      let r' :=
        if (sweepAt r <=? zsize (keys r)) || (window r <=? i64 (now - lastSweep r))
        then evictExpiredLocked now r else r in
      let m := <[key := empty]> (keys r') in
      (empty, mkSWL m (max r') (window r') (maxKeys r') (sweepAt r') (lastSweep r')
                    (Z.max (peak r') (zsize m)))
  end.

Definition allowLocked (key : K) (now : Z) r : option (bool * slidingWindowLimiter K) :=
  let '(l, r1) := lookupOrCreate key now r in
  '(ok, l') ← EventLog.allow growcap now (window r1) (max r1) l;
  Some (ok, mkSWL (<[key := l']> (keys r1)) (max r1) (window r1) (maxKeys r1)
                  (sweepAt r1) (lastSweep r1) (peak r1)).

(** A sequence of requests, each a key and the clock reading under the lock. *)
Fixpoint run (reqs : list (K * Z)) r : option (list bool * slidingWindowLimiter K) :=
  match reqs with
  | [] => Some ([], r)
  | (k, now) :: reqs' =>
      '(ok, r1) ← allowLocked k now r;
      '(oks, r2) ← run reqs' r1;
      Some (ok :: oks, r2)
  end.
End model.

(** ** Abstract specification: the exact log of admitted events per key *)
Module Spec.
Section spec.
Context {K : Type} `{Countable K}.
Implicit Types h : gmap K (list Z).

Definition hist h (k : K) : list Z := default [] (h !! k).

(** Events of [k] admitted in the window that ends at [now]. *)
Definition in_window (window now : Z) h (k : K) : list Z := since (now - window) (hist h k).

Definition allow (mx window : Z) (k : K) (now : Z) h : bool * gmap K (list Z) :=
  if Z.of_nat (length (in_window window now h k)) <? mx
  then (true, <[k := hist h k ++ [now]]> h) else (false, h).

Fixpoint run (mx window : Z) (reqs : list (K * Z)) h : list bool * gmap K (list Z) :=
  match reqs with
  | [] => ([], h)
  | (k, now) :: reqs' =>
      let '(ok, h1) := allow mx window k now h in
      let '(oks, h2) := run mx window reqs' h1 in
      (ok :: oks, h2)
  end.

Lemma hist_insert h k k' t :
  hist (<[k := t]> h) k' = if decide (k = k') then t else hist h k'.
Proof. unfold hist. rewrite lookup_insert. by case_decide. Qed.
End spec.
End Spec.

(** Requests as the limiter sees them: the clock is read under the lock, so its
    readings never decrease, and it starts at the process's epoch. *)
Definition clock_ok {K} (T : Z) (reqs : list (K * Z)) : Prop :=
  StronglySorted Z.le (T :: (snd <$> reqs)) ∧ Forall (λ t, t < 2 ^ 63) (snd <$> reqs).

Lemma clock_ok_cons {K} T (k : K) now reqs :
  clock_ok T ((k, now) :: reqs) → T ≤ now ∧ now < 2 ^ 63 ∧ clock_ok now reqs.
Proof.
  intros [Hs Hf]. simpl in *. inversion Hs as [|? ? Hs' Hle]; inversion Hf; subst.
  inversion Hle; subst. split_and!; [done..|]. by split.
Qed.

(** ** Refinement *)
Section refinement.
Context {K : Type} `{Countable K}.
Context (growcap : nat → nat → nat).
Implicit Types (r : slidingWindowLimiter K) (h : gmap K (list Z)).

Definition live_of r k : list Z :=
  match keys r !! k with Some l => live l | None => [] end.

(** At time [T] the structure [r] stands for the history [h]: events still in
    a window ending at [T] or later are the same in both. *)
Record refines (T : Z) r h : Prop := {
  rf_logs : ∀ k l, keys r !! k = Some l → wf l ∧ Forall (λ y, y ≤ T) (ts_list l);
  rf_live : ∀ k, since (T - window r) (Spec.hist h k) = since (T - window r) (live_of r k);
  rf_window : 0 < window r < 2 ^ 63;
  rf_time : 0 ≤ T < 2 ^ 63;
  rf_hist : ∀ k, Forall (λ y, y ≤ T) (Spec.hist h k);
}.

Lemma refines_new T mx win mk :
  0 < win < 2 ^ 63 → 0 ≤ T < 2 ^ 63 → refines T (newSlidingWindowLimiter mx win mk) ∅.
Proof.
  intros. split; try done; unfold live_of, Spec.hist; simpl; intros; by rewrite ?lookup_empty in *.
Qed.

Lemma refines_cutoff T r h : refines T r h → i64 (T - window r) = T - window r.
Proof. intros []. apply i64_small. lia. Qed.

Lemma refines_advance T now r h :
  refines T r h → T ≤ now → now < 2 ^ 63 → refines now r h.
Proof.
  intros [Hlogs Hlive Hw HT Hh] Hle Hn. split; try done; try lia.
  - intros k l Hk. destruct (Hlogs k l Hk) as [? Hf]. split; [done|].
    eapply Forall_impl; [exact Hf|]. simpl. lia.
  - intros k. rewrite <- (since_since (T - window r) _ (Spec.hist h k)) by lia.
    rewrite Hlive. by apply since_since; lia.
  - intros k. eapply Forall_impl; [apply Hh|]. simpl. lia.
Qed.

(** What a sweep keeps: the keys whose log is not idle. *)
Lemma evict_lookup now r (k : K) :
  keys (evictExpiredLocked now r) !! k =
  match keys r !! k with
  | Some l => if idle (i64 (now - window r)) l then None else Some l
  | None => None
  end.
Proof.
  unfold evictExpiredLocked.
  set (kept := filter _ (keys r)).
  assert (kept !! k = match keys r !! k with
    | Some l => if idle (i64 (now - window r)) l then None else Some l | None => None end) as Hk.
  { unfold kept. rewrite map_lookup_filter. destruct (keys r !! k) as [l|]; simpl; [|done].
    destruct (idle _ l) eqn:E; case_guard; simpl in *; congruence. }
  destruct (4 * zsize kept <? peak r); simpl; [|done]. by rewrite list_to_map_to_list.
Qed.

Lemma evict_refines now r h : refines now r h → refines now (evictExpiredLocked now r) h.
Proof.
  intros Hr. pose proof (refines_cutoff _ _ _ Hr) as Hc. destruct Hr as [Hlogs Hlive Hw HT Hh].
  assert (window (evictExpiredLocked now r) = window r) as Hwin.
  { unfold evictExpiredLocked. by case_match. }
  split; rewrite ?Hwin; try done.
  - intros k l. rewrite evict_lookup. destruct (keys r !! k) eqn:E; [|done].
    destruct (idle _ _); [done|]. intros. simplify_eq. by eapply Hlogs.
  - intros k. rewrite Hlive. unfold live_of. rewrite evict_lookup.
    destruct (keys r !! k) as [l|] eqn:E; [|done].
    destruct (idle _ l) eqn:Hi; [|done]. rewrite Hc in Hi.
    rewrite (idle_since _ l); [done| |done]. by eapply Hlogs.
Qed.

(** Replacing one key's log by one with the right live events. *)
Lemma refines_update now r h k l' t sa ls pk :
  refines now r h → wf l' → Forall (λ y, y ≤ now) (ts_list l') → Forall (λ y, y ≤ now) t →
  since (now - window r) t = since (now - window r) (live l') →
  refines now (mkSWL (<[k := l']> (keys r)) (max r) (window r) (maxKeys r) sa ls pk)
    (<[k := t]> h).
Proof.
  intros [Hlogs Hlive Hw HT Hh] Hwf Hf Ht Hs. split; simpl; try done.
  - intros k' l. rewrite lookup_insert. case_decide; intros; simplify_eq; eauto.
  - intros k'. unfold live_of in *. simpl. rewrite Spec.hist_insert, lookup_insert.
    case_decide; [done|apply Hlive].
  - intros k'. rewrite Spec.hist_insert. by case_decide.
Qed.

Lemma Spec_hist_id h (k k' : K) : Spec.hist (<[k := Spec.hist h k]> h) k' = Spec.hist h k'.
Proof. rewrite Spec.hist_insert. by case_decide; subst. Qed.

Lemma refines_hist_ext T r h h' :
  (∀ k, Spec.hist h k = Spec.hist h' k) → refines T r h → refines T r h'.
Proof. intros He []. split; try done; intros; by rewrite <- He. Qed.

Lemma evict_params now r :
  max (evictExpiredLocked now r) = max r ∧ window (evictExpiredLocked now r) = window r ∧
  maxKeys (evictExpiredLocked now r) = maxKeys r.
Proof. unfold evictExpiredLocked. by case_match. Qed.

Lemma lookupOrCreate_refines key now r h :
  refines now r h →
  let '(l, r1) := lookupOrCreate key now r in
  keys r1 !! key = Some l ∧ refines now r1 h ∧
  max r1 = max r ∧ window r1 = window r ∧ maxKeys r1 = maxKeys r.
Proof.
  intros Hr. unfold lookupOrCreate. destruct (keys r !! key) as [l|] eqn:E; [done|].
  match goal with |- context [if ?b then evictExpiredLocked now r else r] =>
    set (r' := if b then evictExpiredLocked now r else r) end.
  assert (refines now r' h ∧ keys r' !! key = None ∧
    max r' = max r ∧ window r' = window r ∧ maxKeys r' = maxKeys r) as (Hr' & Hk & ? & Hw & ?).
  { unfold r'. destruct (_ || _); [|done].
    split_and!; [by apply evict_refines|by rewrite evict_lookup, E|apply evict_params..]. }
  simpl. split_and!; try done; [by rewrite lookup_insert_eq|].
  apply (refines_hist_ext _ _ (<[key := Spec.hist h key]> h)); [intros; apply Spec_hist_id|].
  apply refines_update; try done; [apply wf_empty|by apply Hr'|].
  rewrite (rf_live _ _ _ Hr'). unfold live_of. by rewrite Hk.
Qed.

(** One request: the implementation takes the specification's decision. *)
Lemma allowLocked_refines key now r h :
  refines now r h →
  ∃ r', allowLocked growcap key now r = Some ((Spec.allow (max r) (window r) key now h).1, r') ∧
        refines now r' (Spec.allow (max r) (window r) key now h).2 ∧
        max r' = max r ∧ window r' = window r ∧ maxKeys r' = maxKeys r.
Proof.
  intros Hr. pose proof (lookupOrCreate_refines key now r h Hr) as Hp.
  unfold allowLocked.
  destruct (lookupOrCreate key now r) as [l r1].
  destruct Hp as (Hk & Hr1 & Em & Ew & Ek). destruct (rf_logs _ _ _ Hr1 _ _ Hk) as [Hwf Hf].
  destruct (allow_spec growcap now (window r1) (max r1) l Hwf Hf) as (l' & -> & Hwf' & Hf' & Hl').
  simpl. rewrite (refines_cutoff _ _ _ Hr1) in *. rewrite <- Em, <- Ew in *.
  pose proof (rf_live _ _ _ Hr1 key) as Hlk. unfold live_of in Hlk. rewrite Hk in Hlk.
  unfold Spec.allow, Spec.in_window. rewrite Hlk.
  destruct (Z.of_nat _ <? max r1) eqn:Hok; simpl; eexists; split_and!; try done.
  - apply refines_update; try done.
    + apply Forall_app. split; [by apply Hr1|by repeat constructor].
    + rewrite Hl', !filter_app, Hlk, since_since by lia. done.
  - apply (refines_hist_ext _ _ (<[key := Spec.hist h key]> h)); [intros; apply Spec_hist_id|].
    apply refines_update; try done; [by apply Hr1|].
    rewrite Hl', since_since by lia. done.
Qed.

(** A request sequence: same decisions, and the relation holds at any time
    not before the last request. *)
Lemma run_refines reqs T r h :
  clock_ok T reqs → refines T r h →
  ∃ r', run growcap reqs r = Some ((Spec.run (max r) (window r) reqs h).1, r') ∧
    max r' = max r ∧ window r' = window r ∧
    ∀ T', T ≤ T' < 2 ^ 63 → Forall (λ t, t ≤ T') (snd <$> reqs) →
          refines T' r' (Spec.run (max r) (window r) reqs h).2.
Proof.
  revert T r h. induction reqs as [|[k now] reqs IH]; intros T r h Hc Hr; simpl.
  { exists r. split_and!; try done. intros. apply (refines_advance T); done || lia. }
  apply clock_ok_cons in Hc as (Hle & Hlt & Hc).
  destruct (allowLocked_refines k now r h) as (r1 & -> & Hr1 & Em & Ew & Ek);
    [by eapply refines_advance|].
  destruct (Spec.allow _ _ _ _ h) as [ok h1]. simpl in *.
  destruct (IH now r1 h1 Hc Hr1) as (r' & -> & Em' & Ew' & Hr'). simpl.
  rewrite Em, Ew in *. destruct (Spec.run (max r) _ _ h1) as [oks h2]. simpl in *.
  exists r'. split_and!; try congruence. intros T' HT' Hf. inversion Hf; subst. apply Hr'; [lia|done].
Qed.
End refinement.

(** ** What the decisions guarantee *)
Section guarantees.
Context {K : Type} `{Countable K}.
Context (growcap : nat → nat → nat).
Implicit Types (r : slidingWindowLimiter K) (h : gmap K (list Z)).

(** The times at which requests for [k] were admitted. *)
Fixpoint admitted (k : K) (reqs : list (K * Z)) (oks : list bool) : list Z :=
  match reqs, oks with
  | (k', now) :: reqs', ok :: oks' =>
      (if decide (k' = k) then if ok then [now] else [] else []) ++ admitted k reqs' oks'
  | _, _ => []
  end.

Lemma Spec_allow_hist mx win k0 now h k :
  Spec.hist (Spec.allow mx win k0 now h).2 k =
  Spec.hist h k ++ (if decide (k0 = k)
                    then if (Spec.allow mx win k0 now h).1 then [now] else [] else []).
Proof.
  unfold Spec.allow. destruct (_ <? _); simpl; [rewrite Spec.hist_insert|];
    case_decide; subst; by rewrite ?app_nil_r.
Qed.

Lemma Spec_run_hist mx win reqs h k :
  Spec.hist (Spec.run mx win reqs h).2 k =
  Spec.hist h k ++ admitted k reqs (Spec.run mx win reqs h).1.
Proof.
  revert h. induction reqs as [|[k0 now] reqs IH]; intros h; simpl; [by rewrite app_nil_r|].
  pose proof (Spec_allow_hist mx win k0 now h k) as Ha.
  destruct (Spec.allow _ _ _ _ h) as [ok h1]. simpl in *. specialize (IH h1).
  destruct (Spec.run _ _ _ h1) as [oks h2]. simpl in *.
  by rewrite IH, Ha, <- app_assoc.
Qed.

(** An invariant of single requests holds after every request sequence. *)
Lemma run_inv (I : slidingWindowLimiter K → gmap K (list Z) → Prop) reqs T r h :
  (∀ k now r h r', refines now r h → I r h →
     allowLocked growcap k now r = Some ((Spec.allow (max r) (window r) k now h).1, r') →
     I r' (Spec.allow (max r) (window r) k now h).2) →
  clock_ok T reqs → refines T r h → I r h →
  ∃ r', run growcap reqs r = Some ((Spec.run (max r) (window r) reqs h).1, r') ∧
        I r' (Spec.run (max r) (window r) reqs h).2.
Proof.
  intros Hstep. revert T r h. induction reqs as [|[k now] reqs IH]; intros T r h Hc Hr HI; simpl.
  { eauto. }
  apply clock_ok_cons in Hc as (Hle & Hlt & Hc).
  assert (refines now r h) as Hr0 by (by eapply refines_advance).
  destruct (allowLocked_refines growcap k now r h Hr0) as (r1 & Ha & Hr1 & Em & Ew & Ek).
  pose proof (Hstep _ _ _ _ _ Hr0 HI Ha) as HI1. rewrite Ha.
  destruct (Spec.allow _ _ _ _ h) as [ok h1]. simpl in *.
  destruct (IH now r1 h1 Hc Hr1 HI1) as (r' & -> & HI'). simpl.
  rewrite Em, Ew in *. destruct (Spec.run (max r) _ _ h1) as [oks h2]. simpl in *. eauto.
Qed.

(** No window holds more than [mx] events of a key. *)
Definition capped (mx win : Z) h : Prop :=
  ∀ k t, Z.of_nat (length (filter (λ y, t - win < y ∧ y ≤ t) (Spec.hist h k))) ≤ Z.max 0 mx.

Lemma length_filter_weaken (P Q : Z → Prop) `{!∀ x, Decision (P x), !∀ x, Decision (Q x)} l :
  (∀ x, P x → Q x) → (length (filter P l) ≤ length (filter Q l))%nat.
Proof.
  intros HPQ. induction l as [|x l IH]; [done|]. rewrite !filter_cons.
  repeat case_decide; simpl; try lia. naive_solver.
Qed.

Lemma Spec_allow_capped mx win k now h :
  (∀ k, Forall (λ y, y ≤ now) (Spec.hist h k)) → capped mx win h →
  capped mx win (Spec.allow mx win k now h).2.
Proof.
  intros Hh Hc k' t. unfold Spec.allow.
  destruct (Z.ltb_spec (Z.of_nat (length (Spec.in_window win now h k))) mx) as [Hlt|]; [|apply Hc].
  simpl. rewrite Spec.hist_insert. case_decide; [subst k'|apply Hc].
  rewrite filter_app, length_app, filter_cons, filter_nil.
  case_decide as Hd; simpl; [|specialize (Hc k t); lia].
  pose proof (length_filter_weaken (λ y, t - win < y ∧ y ≤ t) (λ y, now - win < y)
    (Spec.hist h k) ltac:(simpl; lia)). unfold Spec.in_window in Hlt. lia.
Qed.

Definition active_at (win T : Z) (adm : K → list Z) (S : gset K) : Prop :=
  ∀ k, k ∈ S → ∃ y, y ∈ adm k ∧ T - win < y ≤ T.

(** Map size and log sizes stay bounded. *)
Definition bounded r h : Prop :=
  (∀ k l, keys r !! k = Some l → Z.of_nat (length (ts_list l)) ≤ Z.max 0 (2 * max r - 1)) ∧
  1 ≤ maxKeys r ∧ zsize (keys r) ≤ sweepAt r ∧
  ∃ S : gset K, active_at (window r) (lastSweep r) (Spec.hist h) S ∧
    sweepAt r ≤ Z.max (maxKeys r) (2 * Z.of_nat (size S)).

Lemma evict_bounded now r h :
  refines now r h → bounded r h →
  bounded (evictExpiredLocked now r) h ∧
  (zsize (keys (evictExpiredLocked now r)) < sweepAt (evictExpiredLocked now r)).
Proof.
  intros Hr (Hl & Hmk & _ & _). pose proof (refines_cutoff _ _ _ Hr) as Hc.
  destruct (evict_params now r) as (Em & Ew & Ek).
  assert (sweepAt (evictExpiredLocked now r) =
    Z.max (maxKeys r) (2 * zsize (keys (evictExpiredLocked now r))) ∧
    lastSweep (evictExpiredLocked now r) = now) as [Es Els].
  { unfold evictExpiredLocked. by case_match. }
  assert (0 ≤ zsize (keys (evictExpiredLocked now r))) by (unfold zsize; lia).
  unfold bounded. rewrite Em, Ew, Ek, Es, Els. split_and!; [|lia|lia| |lia].
  - intros k l. rewrite evict_lookup. intros. repeat case_match; simplify_eq; eauto.
  - exists (dom (keys (evictExpiredLocked now r))). split; [|unfold zsize; rewrite size_dom; lia].
    intros k [l Hk]%elem_of_dom. rewrite evict_lookup in Hk.
    destruct (keys r !! k) as [l'|] eqn:E; [|done].
    destruct (idle _ l') eqn:Hi; simplify_eq. rewrite Hc in Hi.
    destruct (rf_logs _ _ _ Hr _ _ E) as [Hwf _].
    destruct (not_idle_since _ _ Hwf Hi) as (y & Hy & Hlt).
    assert (y ∈ since (now - window r) (Spec.hist h k)) as [_ Hin]%list_elem_of_filter.
    { rewrite (rf_live _ _ _ Hr). unfold live_of. rewrite E. by apply list_elem_of_filter. }
    exists y. split; [done|]. pose proof (rf_hist _ _ _ Hr k) as Hf.
    rewrite Forall_forall in Hf. specialize (Hf y Hin). lia.
Qed.

Lemma lookupOrCreate_bounded k now r h :
  refines now r h → bounded r h →
  bounded (lookupOrCreate k now r).2 h ∧ (lookupOrCreate k now r).2.(keys) !! k = Some (lookupOrCreate k now r).1.
Proof.
  intros Hr Hb. unfold lookupOrCreate. destruct (keys r !! k) as [l|] eqn:E; [done|].
  match goal with |- context [if ?b then evictExpiredLocked now r else r] =>
    set (r' := if b then evictExpiredLocked now r else r); assert (bounded r' h ∧
      zsize (keys r') < sweepAt r' ∧ keys r' !! k = None) as (Hb' & Hlt & Hn) end.
  { destruct (evict_bounded now r h Hr Hb) as [He1 He2].
    subst r'. destruct (Z.leb_spec (sweepAt r) (zsize (keys r))) as [|Hs]; simpl;
      [|destruct (window r <=? _)]; split_and!; done || by rewrite evict_lookup, E. }
  clearbody r'. simpl. split; [|by rewrite lookup_insert_eq].
  destruct Hb' as (Hl & Hmk & Hsz & HS). unfold bounded. simpl. split_and!; [|done| |done].
  - intros k' l. rewrite lookup_insert. case_decide; intros; simplify_eq; [simpl; lia|eauto].
  - unfold zsize in *. rewrite map_size_insert_None by done. lia.
Qed.

Lemma allowLocked_bounded k now r h r' :
  refines now r h → bounded r h →
  allowLocked growcap k now r = Some ((Spec.allow (max r) (window r) k now h).1, r') →
  bounded r' (Spec.allow (max r) (window r) k now h).2.
Proof.
  intros Hr Hb. pose proof (lookupOrCreate_bounded k now r h Hr Hb) as [Hb1 Hk].
  pose proof (lookupOrCreate_refines k now r h Hr) as Hp. unfold allowLocked.
  destruct (lookupOrCreate k now r) as [l r1]. simpl in *.
  destruct Hp as (_ & Hr1 & Em & Ew & Ek).
  destruct (EventLog.allow _ _ _ _ l) as [[ok l']|] eqn:Ea; [|done]. simpl.
  intros [= _ <-]. destruct Hb1 as (Hl & Hmk & Hsz & S & HS & Hle).
  destruct (rf_logs _ _ _ Hr1 _ _ Hk) as [Hwf _].
  pose proof (allow_length _ _ _ _ _ _ _ Hwf Ea).
  unfold bounded. simpl. split_and!; [|done| |].
  - intros k' l0. rewrite lookup_insert. case_decide; intros; simplify_eq; [|eauto].
    specialize (Hl _ _ Hk). lia.
  - unfold zsize. by rewrite map_size_insert_Some by eauto.
  - exists S. split; [|done]. intros k' Hk'. destruct (HS k' Hk') as (y & Hy & ?).
    exists y. split; [|done]. rewrite Spec_allow_hist. apply elem_of_app. by left.
Qed.
End guarantees.

(** ** Panic freedom, whatever the clock reads *)
Section total.
Context {K : Type} `{Countable K}.
Context (growcap : nat → nat → nat).
Implicit Types r : slidingWindowLimiter K.

Definition logs_ok r : Prop := map_Forall (λ _ l, hd_ok l) (keys r).

Lemma logs_ok_new mx win mk : logs_ok (newSlidingWindowLimiter mx win mk).
Proof. apply map_Forall_empty. Qed.

Lemma allowLocked_total k now r :
  logs_ok r → ∃ ok r', allowLocked growcap k now r = Some (ok, r') ∧ logs_ok r'.
Proof.
  intros Hok. unfold allowLocked.
  assert (hd_ok (lookupOrCreate k now r).1 ∧ logs_ok (lookupOrCreate k now r).2) as [Hl Hr].
  { unfold lookupOrCreate. destruct (keys r !! k) as [l|] eqn:E; [by split; [eapply Hok|]|].
    simpl. split; [by left|]. unfold logs_ok. simpl. apply map_Forall_insert_2; [by left|].
    destruct (_ || _); [|done]. intros k' l. rewrite evict_lookup.
    intros. repeat case_match; simplify_eq. by eapply Hok. }
  destruct (lookupOrCreate k now r) as [l r1]. simpl in *.
  destruct (allow_total growcap now (window r1) (max r1) l Hl) as (ok & l' & -> & Hl').
  simpl. eexists _, _. split; [done|]. unfold logs_ok. simpl. by apply map_Forall_insert_2.
Qed.
End total.

(** ** Non-interference between keys *)
Section isolation.
Context {K : Type} `{Countable K}.

(** The decisions taken for the requests of one key. *)
Fixpoint decisions_for (k : K) (reqs : list (K * Z)) (oks : list bool) : list bool :=
  match reqs, oks with
  | (k', _) :: reqs', ok :: oks' =>
      (if decide (k' = k) then [ok] else []) ++ decisions_for k reqs' oks'
  | _, _ => []
  end.

Lemma Spec_allow_local mx win k now (h h' : gmap K (list Z)) :
  Spec.hist h k = Spec.hist h' k →
  (Spec.allow mx win k now h).1 = (Spec.allow mx win k now h').1 ∧
  Spec.hist (Spec.allow mx win k now h).2 k = Spec.hist (Spec.allow mx win k now h').2 k.
Proof.
  intros He. rewrite !Spec_allow_hist, He. unfold Spec.allow, Spec.in_window. rewrite He.
  by destruct (_ <? _).
Qed.

Lemma Spec_run_isolated mx win k reqs (h h' : gmap K (list Z)) :
  Spec.hist h k = Spec.hist h' k →
  decisions_for k reqs (Spec.run mx win reqs h).1 =
  (Spec.run mx win (filter (λ q, q.1 = k) reqs) h').1.
Proof.
  revert h h'. induction reqs as [|[k0 now] reqs IH]; intros h h' He; [done|].
  rewrite filter_cons. cbn [Spec.run fst].
  pose proof (Spec_allow_hist mx win k0 now h k) as Hh.
  pose proof (Spec_allow_local mx win k now h h' He) as [Hd Hh'].
  destruct (decide (k0 = k)) as [->|Hne]; cbn [Spec.run].
  - destruct (Spec.allow mx win k now h) as [ok h1], (Spec.allow mx win k now h') as [ok' h1'].
    simpl in *. specialize (IH h1 h1' Hh').
    destruct (Spec.run mx win reqs h1), (Spec.run mx win (filter _ reqs) h1'). simpl in *.
    rewrite decide_True by done. simpl. by rewrite IH, Hd.
  - destruct (Spec.allow mx win k0 now h) as [ok h1]. simpl in *. rewrite app_nil_r in Hh.
    specialize (IH h1 h' ltac:(congruence)).
    destruct (Spec.run mx win reqs h1). simpl in *. by rewrite decide_False by done.
Qed.

Lemma clock_ok_filter (P : K * Z → Prop) `{!∀ x, Decision (P x)} T reqs :
  clock_ok T reqs → clock_ok T (filter P reqs).
Proof.
  revert T. induction reqs as [|[k now] reqs IH]; intros T Hc; [done|].
  apply clock_ok_cons in Hc as (Hle & Hlt & Hc). rewrite filter_cons.
  assert (∀ T', T' ≤ now → clock_ok T' (filter P reqs)) as Hw.
  { intros T' HT. destruct (IH now Hc) as [Hs Hf]. split; [|done].
    inversion Hs; subst. constructor; [done|]. eapply Forall_impl; [done|]. simpl. lia. }
  destruct (decide _); [|by apply Hw]. destruct (IH now Hc) as [Hs Hf].
  split; simpl; [|by constructor]. constructor; [done|]. constructor; [done|].
  inversion Hs; subst. eapply Forall_impl; [done|]. simpl. lia.
Qed.
End isolation.

(** ** Theorems *)
Section theorems.
Context {K : Type} `{Countable K}.
Implicit Types reqs : list (K * Z).

(** C6: on every sequence of requests with nondecreasing clock readings the
    limiter (logs with expired prefixes, compaction, key eviction, map
    rebuild) answers without panicking and takes exactly the decisions of the
    exact-log specification. *)
Theorem sliding_window_exact (growcap : nat → nat → nat) (mx win mk : Z) reqs :
  0 < win < 2 ^ 63 → clock_ok 0 reqs →
  ∃ r', run growcap reqs (newSlidingWindowLimiter mx win mk) =
          Some ((Spec.run mx win reqs ∅).1, r').
Proof.
  intros Hw Hc. destruct (run_refines growcap reqs 0 (newSlidingWindowLimiter mx win mk) ∅ Hc)
    as (r' & Hrun & _); [by apply refines_new|]. eauto.
Qed.

(** C7: whatever the requests, at most [max] of them are admitted per key in
    any window: for every key and every time [t], the admitted requests in
    [(t - window, t]] number at most [max] (none when [max] is not positive). *)
Theorem sliding_window_cap (growcap : nat → nat → nat) (mx win mk : Z) reqs :
  0 < win < 2 ^ 63 → clock_ok 0 reqs →
  ∃ oks r', run growcap reqs (newSlidingWindowLimiter mx win mk) = Some (oks, r') ∧
    ∀ (k : K) t, Z.of_nat (length (filter (λ y, t - win < y ∧ y ≤ t) (admitted k reqs oks)))
                 ≤ Z.max 0 mx.
Proof.
  intros Hw Hc. set (r := newSlidingWindowLimiter mx win mk).
  destruct (run_inv growcap (λ r h, max r = mx ∧ window r = win ∧ capped mx win h) reqs 0 r ∅)
    as (r' & Hrun & _ & _ & Hcap); [|done|by apply refines_new|split_and!; [done..|]|].
  - intros k now r0 h r1 Hr (<- & <- & Hcap) Ha.
    destruct (allowLocked_refines growcap k now r0 h Hr) as (r2 & Ha' & _ & ? & ? & _).
    rewrite Ha in Ha'. simplify_eq. split_and!; [done..|]. by apply Spec_allow_capped; [apply Hr|].
  - intros k t. unfold Spec.hist. rewrite lookup_empty. simpl. lia.
  - eexists _, r'. split; [exact Hrun|]. intros k t. specialize (Hcap k t).
    by rewrite Spec_run_hist in Hcap.
Qed.

(** C33: memory. After any request sequence the key map holds at most
    [maxKeys] keys or twice the number of keys that had an event admitted in
    the window ending at the last sweep, and the slice behind every key holds
    fewer than [2 * max] timestamps. *)
Theorem sliding_window_memory (growcap : nat → nat → nat) (mx win mk : Z) reqs :
  0 < win < 2 ^ 63 → 1 ≤ mk → clock_ok 0 reqs →
  ∃ oks r', run growcap reqs (newSlidingWindowLimiter mx win mk) = Some (oks, r') ∧
    (∃ S : gset K, active_at win (lastSweep r') (λ k, admitted k reqs oks) S ∧
       zsize (keys r') ≤ Z.max mk (2 * Z.of_nat (size S))) ∧
    (∀ k l, keys r' !! k = Some l →
       Z.of_nat (length (ts_list l)) ≤ Z.max 0 (2 * mx - 1)).
Proof.
  intros Hw Hmk Hc. set (r := newSlidingWindowLimiter mx win mk).
  destruct (run_inv growcap (λ r h, max r = mx ∧ window r = win ∧ maxKeys r = mk ∧ bounded r h)
    reqs 0 r ∅) as (r' & Hrun & Em & Ew & Ek & Hl & _ & Hsz & S & HS & Hle);
    [|done|by apply refines_new| |].
  - intros k now r0 h r1 Hr (<- & <- & <- & Hb) Ha.
    destruct (allowLocked_refines growcap k now r0 h Hr) as (r2 & Ha' & _ & ? & ? & ?).
    rewrite Ha in Ha'. simplify_eq. split_and!; [done..|]. by eapply allowLocked_bounded.
  - split_and!; try done. split_and!; simpl; [done|lia|unfold zsize; rewrite map_size_empty; lia|].
    exists ∅. split; [by intros k ?%not_elem_of_empty|]. lia.
  - eexists _, r'. split; [exact Hrun|]. rewrite Em, Ew, Ek in *. split; [|done].
    exists S. split; [|lia]. intros k Hk. destruct (HS k Hk) as (y & Hy & ?).
    rewrite Spec_run_hist in Hy. eauto.
Qed.

(** Eviction is invisible. In any reachable state, sweeping at time [at_]
    changes no later decision for any key. *)
Theorem eviction_invisible (growcap : nat → nat → nat) (mx win mk : Z) reqs oks r (k : K) (at_ now : Z) :
  0 < win < 2 ^ 63 → clock_ok 0 reqs → Forall (λ t, t ≤ at_) (snd <$> reqs) →
  0 ≤ at_ → at_ ≤ now → now < 2 ^ 63 →
  run growcap reqs (newSlidingWindowLimiter mx win mk) = Some (oks, r) →
  fst <$> allowLocked growcap k now (evictExpiredLocked at_ r) =
  fst <$> allowLocked growcap k now r.
Proof.
  intros Hw Hc Hf H0 Hle Hlt Hrun.
  destruct (run_refines growcap reqs 0 (newSlidingWindowLimiter mx win mk) ∅ Hc)
    as (r' & Hrun' & _ & _ & Hr); [by apply refines_new|].
  rewrite Hrun in Hrun'. simplify_eq. specialize (Hr at_ ltac:(lia) Hf).
  pose proof (evict_params at_ r') as (Em & Ew & _).
  destruct (allowLocked_refines growcap k now (evictExpiredLocked at_ r') _
    (refines_advance _ _ _ _ (evict_refines _ _ _ Hr) Hle Hlt)) as (? & -> & _).
  destruct (allowLocked_refines growcap k now r' _ (refines_advance _ _ _ _ Hr Hle Hlt))
    as (? & -> & _).
  by rewrite Em, Ew.
Qed.

(** Isolation. The decisions for one key are those the limiter would take
    if it only ever saw that key's requests: no traffic on other keys, however
    heavy, changes them. *)
Theorem sliding_window_isolation (growcap : nat → nat → nat) (mx win mk : Z) reqs (k : K) :
  0 < win < 2 ^ 63 → clock_ok 0 reqs →
  ∃ oks r1 r2, run growcap reqs (newSlidingWindowLimiter mx win mk) = Some (oks, r1) ∧
    run growcap (filter (λ q, q.1 = k) reqs) (newSlidingWindowLimiter mx win mk) =
      Some (decisions_for k reqs oks, r2).
Proof.
  intros Hw Hc. set (r := newSlidingWindowLimiter mx win mk : slidingWindowLimiter K).
  destruct (run_refines growcap reqs 0 r ∅ Hc) as (r1 & H1 & _); [by apply refines_new|].
  destruct (run_refines growcap (filter (λ q, q.1 = k) reqs) 0 r ∅) as (r2 & H2 & _);
    [by apply clock_ok_filter|by apply refines_new|].
  eexists _, r1, r2. split; [exact H1|]. by rewrite H2, (Spec_run_isolated _ _ _ _ _ ∅).
Qed.
End theorems.

(** ** Instances of the theorems at a concrete request sequence *)

(** Two keys, a limit of two events per 100 ns, and a request after the window. *)
Definition demo_reqs : list (nat * Z) :=
  [(1%nat, 5); (1%nat, 6); (1%nat, 7); (2%nat, 7); (1%nat, 106); (1%nat, 107)].

Lemma demo_clock : clock_ok 0 demo_reqs.
Proof. split; simpl; repeat (constructor; try lia). Qed.

Example demo_decisions :
  fst <$> run (λ _ n, n) demo_reqs (newSlidingWindowLimiter 2 100 1) =
  Some [true; true; false; true; true; true].
Proof. vm_compute. reflexivity. Qed.

Lemma sliding_window_exact_witness :
  ∃ r', run (λ _ n, n) demo_reqs (newSlidingWindowLimiter 2 100 1) =
          Some ((Spec.run 2 100 demo_reqs ∅).1, r').
Proof. apply (sliding_window_exact (λ _ n, n) 2 100 1 demo_reqs); [lia|apply demo_clock]. Defined.

Lemma sliding_window_cap_witness :
  ∃ oks r', run (λ _ n, n) demo_reqs (newSlidingWindowLimiter 2 100 1) = Some (oks, r') ∧
    ∀ (k : nat) t, Z.of_nat (length (filter (λ y, t - 100 < y ∧ y ≤ t) (admitted k demo_reqs oks))) ≤ 2.
Proof. apply (sliding_window_cap (λ _ n, n) 2 100 1 demo_reqs); [lia|apply demo_clock]. Defined.

Lemma sliding_window_memory_witness :
  ∃ oks r', run (λ _ n, n) demo_reqs (newSlidingWindowLimiter 2 100 1) = Some (oks, r') ∧
    (∃ S : gset nat, active_at 100 (lastSweep r') (λ k, admitted k demo_reqs oks) S ∧
       zsize (keys r') ≤ Z.max 1 (2 * Z.of_nat (size S))) ∧
    (∀ k l, keys r' !! k = Some l → Z.of_nat (length (ts_list l)) ≤ 3).
Proof.
  apply (sliding_window_memory (λ _ n, n) 2 100 1 demo_reqs); [lia|lia|apply demo_clock].
Defined.

Lemma sliding_window_isolation_witness :
  ∃ oks r1 r2, run (λ _ n, n) demo_reqs (newSlidingWindowLimiter 2 100 1) = Some (oks, r1) ∧
    run (λ _ n, n) (filter (λ q, q.1 = 1%nat) demo_reqs) (newSlidingWindowLimiter 2 100 1) =
      Some (decisions_for 1%nat demo_reqs oks, r2).
Proof. apply (sliding_window_isolation (λ _ n, n) 2 100 1 demo_reqs 1%nat); [lia|apply demo_clock]. Defined.

Definition demo_state : list bool * slidingWindowLimiter nat :=
  default ([], newSlidingWindowLimiter 2 100 1)
    (run (λ _ n, n) demo_reqs (newSlidingWindowLimiter 2 100 1)).

Lemma eviction_invisible_witness :
  fst <$> allowLocked (λ _ n, n) 2%nat 300 (evictExpiredLocked 250 demo_state.2) =
  fst <$> allowLocked (λ _ n, n) 2%nat 300 demo_state.2.
Proof.
  apply (eviction_invisible (λ _ n, n) 2 100 1 demo_reqs demo_state.1 demo_state.2 2%nat 250 300);
    [lia|apply demo_clock| |lia|lia|lia|vm_compute; reflexivity].
  simpl. repeat (constructor; try lia).
Defined.

End SlidingWindow.
