(* ===== verification/RateLimit.v ===== *)
(** * The four-tier rate limiter

    Models src/ratelimit/ratelimit.go around the sliding window: the token
    buckets per key (golang.org/x/time/rate is the class [RateLib]), the bucket
    keys, [New] with its defaults and aliases, and [Allow], [AllowChain] and
    [AllowGroup]. Every sliding-window tier reads the clock under its lock, so a
    call is one atomic step on the limiter and the environment. *)

From S2P Require Import Prelude GoNet External RefEnv EventLog SlidingWindow.
From Stdlib Require Import Strings.Byte.
Import GoNet External SlidingWindow.

Module RateLimit.

(** ** Keys *)

Record seqKey := mkSeqKey { sk_hashKey : Z; sk_seqNum : Z }.
Record chainKey := mkChainKey { ck_ip : bytes; ck_hashKey : Z }.
Record groupKey := mkGroupKey { gk_ip : bytes; gk_groupIdx : Z }.

#[global] Instance seqKey_eq_dec : EqDecision seqKey.
Proof. solve_decision. Defined.
#[global] Instance chainKey_eq_dec : EqDecision chainKey.
Proof. solve_decision. Defined.
#[global] Instance groupKey_eq_dec : EqDecision groupKey.
Proof. solve_decision. Defined.
#[global] Instance seqKey_countable : Countable seqKey.
Proof.
  refine (inj_countable' (λ k, (sk_hashKey k, sk_seqNum k)) (λ p, mkSeqKey p.1 p.2) _).
  by intros [].
Defined.
#[global] Instance chainKey_countable : Countable chainKey.
Proof.
  refine (inj_countable' (λ k, (ck_ip k, ck_hashKey k)) (λ p, mkChainKey p.1 p.2) _).
  by intros [].
Defined.
#[global] Instance groupKey_countable : Countable groupKey.
Proof.
  refine (inj_countable' (λ k, (gk_ip k, gk_groupIdx k)) (λ p, mkGroupKey p.1 p.2) _).
  by intros [].
Defined.

Definition LevelIP : string := "ip".
Definition LevelChain : string := "chain".
Definition LevelSequence : string := "sequence".
Definition LevelGroup : string := "group".

Definition maxWindowKeys : Z := 100000.

(** Nanoseconds; [time.Minute]. *)
Definition time_Minute : Z := 60 * 1000000000.

Record Config := mkConfig {
  IPRate : float64; IPBurst : Z;
  SenderRate : float64; SenderWindow : Z;
  ChainRate : float64; ChainWindow : Z;
  SequenceMax : Z; SequenceWindow : Z;
  GroupRate : float64; GroupBurst : Z;
}.

Section model.
Context {E : Type} `{!RateLib E, !OS E}.
Context (growcap : nat → nat → nat).
(** Go's result for an out-of-range float64-to-int conversion. *)
Context (int_oob : float64 → Z).

(** *** Token buckets *)

Record tokenBucketLimiter (K : Type) `{Countable K} := mkTBL {
  limit : gmap K rate_Limiter;
  tb_r : float64;
  tb_burst : Z;
}.
#[global] Arguments mkTBL {K _ _}.
#[global] Arguments limit {K _ _}.
#[global] Arguments tb_r {K _ _}.
#[global] Arguments tb_burst {K _ _}.

Definition newTokenBucketLimiter {K} `{Countable K} (tokensPerSec : float64) (burst : Z)
  : tokenBucketLimiter K := mkTBL ∅ tokensPerSec burst.

Definition tb_Allow {K} `{Countable K} (key : K) (t : tokenBucketLimiter K) (e : E)
  : bool * tokenBucketLimiter K * E :=
  let l := match limit t !! key with
           | Some l => l
           | None => rate_NewLimiter (tb_r t) (tb_burst t)
           end in
  let '(ok, l', e') := rate_Allow l e in
  (ok, mkTBL (<[key := l']> (limit t)) (tb_r t) (tb_burst t), e').

(** [slidingWindowLimiter.Allow]: the clock is read under the lock. *)
Definition sw_Allow {K} `{Countable K} (key : K) (r : slidingWindowLimiter K) (e : E)
  : option (bool * slidingWindowLimiter K * E) :=
  let '(now, e') := mono_now e in
  '(ok, r') ← allowLocked growcap key now r;
  Some (ok, r', e').

(** *** The limiter *)

Record Limiter := mkLimiter {
  ipLimiter : tokenBucketLimiter string;
  chainLimiter : slidingWindowLimiter chainKey;
  sequenceLimiter : slidingWindowLimiter seqKey;
  groupLimiter : tokenBucketLimiter groupKey;
}.

(** The effective parameters [New] derives from its configuration. *)
Definition seqWindowOf (cfg : Config) : Z :=
  if SequenceWindow cfg <=? 0 then time_Minute else SequenceWindow cfg.
Definition chainRateOf (cfg : Config) : float64 :=
  if float_is_zero (ChainRate cfg) && negb (float_is_zero (SenderRate cfg))
  then SenderRate cfg else ChainRate cfg.
Definition chainWindowOf (cfg : Config) : Z :=
  let w := if (ChainWindow cfg <=? 0) && (0 <? SenderWindow cfg)
           then SenderWindow cfg else ChainWindow cfg in
  if w <=? 0 then time_Minute else w.
Definition chainMaxOf (cfg : Config) : Z :=
  let m := float_to_int int_oob (chainRateOf cfg) in if m <=? 0 then 500 else m.
Definition groupRateOf (cfg : Config) : float64 :=
  if float_le_zero (GroupRate cfg) then float_of_Z 200 else GroupRate cfg.
Definition groupBurstOf (cfg : Config) : Z :=
  if GroupBurst cfg <=? 0 then 50 else GroupBurst cfg.

Definition New (cfg : Config) : Limiter := mkLimiter
  (newTokenBucketLimiter (IPRate cfg) (IPBurst cfg))
  (newSlidingWindowLimiter (chainMaxOf cfg) (chainWindowOf cfg) maxWindowKeys)
  (newSlidingWindowLimiter (SequenceMax cfg) (seqWindowOf cfg) maxWindowKeys)
  (newTokenBucketLimiter (groupRateOf cfg) (groupBurstOf cfg)).

(** The IP tier and the sequence tier, each under its own lock. *)
Definition AllowIP (srcIP : bytes) (r : Limiter) (e : E) : bool * Limiter * E :=
  let '(ok, ipl, e1) := tb_Allow (IP_String srcIP) (ipLimiter r) e in
  (ok, mkLimiter ipl (chainLimiter r) (sequenceLimiter r) (groupLimiter r), e1).
Definition AllowSequence (hashKey startSeq : Z) (r : Limiter) (e : E) : option (bool * Limiter * E) :=
  '(ok, sql, e1) ← sw_Allow (mkSeqKey hashKey startSeq) (sequenceLimiter r) e;
  Some (ok, mkLimiter (ipLimiter r) (chainLimiter r) sql (groupLimiter r), e1).

(** Both in turn. Returns the verdict and the rejecting level. *)
Definition Allow (srcIP : bytes) (hashKey startSeq : Z) (r : Limiter) (e : E)
  : option (bool * string * Limiter * E) :=
  let '(ok, r1, e1) := AllowIP srcIP r e in
  if negb ok then Some (false, LevelIP, r1, e1) else
  '(ok, r2, e2) ← AllowSequence hashKey startSeq r1 e1;
  if negb ok then Some (false, LevelSequence, r2, e2) else Some (true, ""%string, r2, e2).

(** Chain tier. *)
Definition AllowChain (srcIP : bytes) (hashKey : Z) (r : Limiter) (e : E)
  : option (bool * Limiter * E) :=
  if hashKey =? 0 then Some (true, r, e) else
  '(ok, cl, e1) ← sw_Allow (mkChainKey (ipKey srcIP) hashKey) (chainLimiter r) e;
  Some (ok, mkLimiter (ipLimiter r) cl (sequenceLimiter r) (groupLimiter r), e1).

(** Group tier. *)
Definition AllowGroup (srcIP : bytes) (groupIdx : Z) (r : Limiter) (e : E) : bool * Limiter * E :=
  let '(ok, gl, e1) := tb_Allow (mkGroupKey (ipKey srcIP) groupIdx) (groupLimiter r) e in
  (ok, mkLimiter (ipLimiter r) (chainLimiter r) (sequenceLimiter r) gl, e1).

(** ** Well-formedness: the invariant under which no tier can panic *)
Record lim_ok (r : Limiter) : Prop := {
  chain_logs_ok : logs_ok (chainLimiter r);
  seq_logs_ok : logs_ok (sequenceLimiter r);
}.

Lemma New_ok cfg : lim_ok (New cfg).
Proof. split; apply logs_ok_new. Qed.

Lemma sw_Allow_total {K} `{Countable K} (key : K) r e :
  logs_ok r → ∃ ok r' e', sw_Allow key r e = Some (ok, r', e') ∧ logs_ok r'.
Proof.
  intros Hok. unfold sw_Allow. destruct (mono_now e) as [now e'].
  destruct (allowLocked_total growcap key now r Hok) as (ok & r' & -> & ?). simpl. eauto.
Qed.

Lemma AllowIP_ok srcIP r e : lim_ok r → lim_ok (AllowIP srcIP r e).1.2.
Proof. intros []. unfold AllowIP. destruct (tb_Allow _ _ e) as [[ok ipl] e1]. by split. Qed.

Lemma AllowSequence_total hk sq r e :
  lim_ok r → ∃ ok r' e', AllowSequence hk sq r e = Some (ok, r', e') ∧ lim_ok r'.
Proof.
  intros [Hc Hs]. unfold AllowSequence.
  destruct (sw_Allow_total (mkSeqKey hk sq) (sequenceLimiter r) e Hs) as (ok & sql & e1 & -> & ?). simpl.
  eexists _, _, _. split; [done|by split].
Qed.

Lemma AllowChain_total srcIP hk r e :
  lim_ok r → ∃ ok r' e', AllowChain srcIP hk r e = Some (ok, r', e') ∧ lim_ok r'.
Proof.
  intros [Hc Hs]. unfold AllowChain. destruct (hk =? 0); [by eexists _, _, _|].
  destruct (sw_Allow_total (mkChainKey (ipKey srcIP) hk) (chainLimiter r) e Hc)
    as (ok2 & cl & e2 & -> & ?). simpl. eexists _, _, _. split; [done|by split].
Qed.

Lemma AllowGroup_ok srcIP idx r e : lim_ok r → lim_ok (AllowGroup srcIP idx r e).1.2.
Proof. intros []. unfold AllowGroup. destruct (tb_Allow _ _ e) as [[ok gl] e1]. by split. Qed.

(** A tier reads the clock or takes a token, and nothing else of the environment. *)
Section keeps.
Context (P : E → Prop) `{!Keeps P mono_now, !∀ l, Keeps P (rate_Allow l)}.

Lemma tb_Allow_keeps {K} `{Countable K} (k : K) t : Keeps P (tb_Allow k t).
Proof.
  intros e He. unfold tb_Allow. set (l := match limit t !! k with Some _ => _ | None => _ end).
  pose proof (keeps (f := rate_Allow l) e He) as Hk. by destruct (rate_Allow l e) as [[ok l'] e'].
Qed.

Lemma sw_Allow_keeps {K} `{Countable K} (k : K) r e ok r' e' :
  P e → sw_Allow k r e = Some (ok, r', e') → P e'.
Proof.
  intros He. unfold sw_Allow. pose proof (keeps (f := mono_now) e He) as Hk. destruct (mono_now e) as [now e1].
  destruct (allowLocked _ _ _ _) as [[]|]; simpl; [|done]. by intros [= _ _ <-].
Qed.

Lemma AllowIP_keeps srcIP r : Keeps P (AllowIP srcIP r).
Proof.
  intros e He. unfold AllowIP. pose proof (tb_Allow_keeps (IP_String srcIP) (ipLimiter r) e He) as Hk.
  by destruct (tb_Allow _ _ e) as [[ok ipl] e1].
Qed.

Lemma AllowGroup_keeps srcIP idx r : Keeps P (AllowGroup srcIP idx r).
Proof.
  intros e He. unfold AllowGroup.
  pose proof (tb_Allow_keeps (mkGroupKey (ipKey srcIP) idx) (groupLimiter r) e He) as Hk.
  by destruct (tb_Allow _ _ e) as [[ok gl] e1].
Qed.

Lemma AllowSequence_keeps hk sq r e ok r' e' :
  P e → AllowSequence hk sq r e = Some (ok, r', e') → P e'.
Proof.
  intros He. unfold AllowSequence. destruct (sw_Allow _ _ e) as [[[ok1 sl] e1]|] eqn:Hs; simpl; [|done].
  intros [= _ _ <-]. by eapply sw_Allow_keeps.
Qed.

Lemma AllowChain_keeps srcIP hk r e ok r' e' :
  P e → AllowChain srcIP hk r e = Some (ok, r', e') → P e'.
Proof.
  intros He. unfold AllowChain. destruct (hk =? 0); [by intros [= _ _ <-]|].
  destruct (sw_Allow _ _ e) as [[[ok1 sl] e1]|] eqn:Hs; simpl; [|done].
  intros [= _ _ <-]. by eapply sw_Allow_keeps.
Qed.

Lemma Allow_keeps srcIP hk sq r e ok lvl r' e' :
  P e → Allow srcIP hk sq r e = Some (ok, lvl, r', e') → P e'.
Proof.
  intros He. unfold Allow. pose proof (AllowIP_keeps srcIP r e He) as H1. destruct (AllowIP srcIP r e) as [[ok1 r1] e1].
  destruct ok1; simpl; [|by intros [= _ _ _ <-]].
  destruct (AllowSequence hk sq r1 e1) as [[[ok2 r2] e2]|] eqn:Hs; simpl; [|done].
  apply AllowSequence_keeps in Hs; [|done]. destruct ok2; simpl; by intros [= _ _ _ <-].
Qed.
End keeps.

(** A sequence of token-bucket requests. *)
Fixpoint tb_run {K} `{Countable K} (ks : list K) (t : tokenBucketLimiter K) (e : E)
  : tokenBucketLimiter K * E :=
  match ks with
  | [] => (t, e)
  | k :: ks' => let '(_, t', e') := tb_Allow k t e in tb_run ks' t' e'
  end.

Lemma tb_Allow_dom {K} `{Countable K} (k : K) t e :
  dom (limit (tb_Allow k t e).1.2) = {[k]} ∪ dom (limit t).
Proof. unfold tb_Allow. destruct (rate_Allow _ e) as [[ok l'] e']. simpl. apply dom_insert_L. Qed.

Lemma tb_run_dom {K} `{Countable K} (ks : list K) t e :
  dom (limit (tb_run ks t e).1) = list_to_set ks ∪ dom (limit t).
Proof.
  revert t e. induction ks as [|k ks IH]; intros t e; simpl; [set_solver|].
  pose proof (tb_Allow_dom k t e) as Hd. destruct (tb_Allow k t e) as [[ok t'] e']. simpl in *.
  rewrite IH, Hd. set_solver.
Qed.

(** ** Theorems *)

(** Whatever the operator configured, [New] builds a limiter whose two
    sliding windows have a positive length that fits an int64 and whose chain
    tier admits at least one request per window; the group tier gets a rate
    that is not negative or zero and a burst of at least one. *)
Theorem New_parameters (cfg : Config) :
  SequenceWindow cfg < 2 ^ 63 → ChainWindow cfg < 2 ^ 63 → SenderWindow cfg < 2 ^ 63 →
  let r := New cfg in
  0 < window (sequenceLimiter r) < 2 ^ 63 ∧ 0 < window (chainLimiter r) < 2 ^ 63 ∧
  1 ≤ SlidingWindow.max (chainLimiter r) ∧
  float_le_zero (tb_r (groupLimiter r)) = false ∧ 1 ≤ tb_burst (groupLimiter r).
Proof.
  intros Hs Hc Hse. simpl.
  unfold seqWindowOf, chainWindowOf, chainMaxOf, groupRateOf, groupBurstOf, time_Minute.
  split_and!; try (repeat case_match; lia).
  destruct (float_le_zero (GroupRate cfg)) eqn:Hg; [vm_compute; reflexivity|done].
Qed.

(** The IP tier comes first. A request rejected there consumes nothing of
    the other tiers' budgets: it leaves the sequence, chain and group limiters
    as they were, so a flooding source cannot drain a flow's repair budget
    with requests that are themselves refused. *)
Theorem ip_reject_preserves_budgets (srcIP : bytes) (hk sq : Z) r e r' e' :
  Allow srcIP hk sq r e = Some (false, LevelIP, r', e') →
  sequenceLimiter r' = sequenceLimiter r ∧ chainLimiter r' = chainLimiter r ∧
  groupLimiter r' = groupLimiter r ∧
  (tb_Allow (IP_String srcIP) (ipLimiter r) e).1.1 = false.
Proof.
  unfold Allow, AllowIP, AllowSequence. destruct (tb_Allow _ _ e) as [[ok ipl] e1] eqn:Et. simpl.
  destruct ok; simpl; [|by intros; simplify_eq].
  destruct (sw_Allow _ _ e1) as [[[ok2 sql] e2]|]; simpl; [|done].
  destruct ok2; simpl; intros; simplify_eq.
Qed.

(** An IPv4 listener is one source to every tier, whether its address
    arrives as four bytes or IPv4-mapped. *)
Theorem v4_mapped_same_source (ip : bytes) (hk sq idx : Z) r e :
  length ip = 4%nat →
  Allow ip hk sq r e = Allow (v4InV6Prefix ++ ip) hk sq r e ∧
  AllowChain ip hk r e = AllowChain (v4InV6Prefix ++ ip) hk r e ∧
  AllowGroup ip idx r e = AllowGroup (v4InV6Prefix ++ ip) idx r e.
Proof.
  intros Hl. unfold Allow, AllowIP, AllowChain, AllowGroup.
  by rewrite <- (IP_String_v4_mapped ip Hl), <- (ipKey_v4_mapped ip Hl).
Qed.

(** The token-bucket maps are never swept. After requests for the keys
    [ks] the map holds every one of them besides what it held before, so it
    grows by one entry per distinct (spoofable) source for the life of the
    process, unlike the sliding-window maps. *)
Theorem token_buckets_never_evicted {K} `{Countable K} (ks : list K) rate burst e :
  dom (limit (tb_run ks (newTokenBucketLimiter rate burst) e).1) = list_to_set ks.
Proof. rewrite tb_run_dom. simpl. rewrite dom_empty_L. set_solver. Qed.
End model.

(** ** Instances *)
Section instances.
Import RefEnv.

Definition cfg0 : Config :=
  mkConfig (float_of_Z 100) 10 (float_of_Z 0) 0 (float_of_Z 500) 60000000000 100 60000000000
    (float_of_Z 200) 50.
Definition lim0 : Limiter := New (λ _, 0) cfg0.

(** An operator who set nothing: every field zero. *)
Definition cfg_zero : Config :=
  mkConfig (float_of_Z 0) 0 (float_of_Z 0) 0 (float_of_Z 0) 0 0 0 (float_of_Z 0) 0.

Lemma New_parameters_witness :
  0 < window (sequenceLimiter (New (λ _, 0) cfg_zero)) < 2 ^ 63 ∧
  1 ≤ SlidingWindow.max (chainLimiter (New (λ _, 0) cfg_zero)).
Proof.
  destruct (New_parameters (λ _, 0) cfg_zero) as (H1 & _ & H3 & _); simpl; [lia..|].
  split; [exact H1|exact H3].
Defined.

(** A source whose bucket is empty is refused at the IP tier. *)
Definition lim_flooded : Limiter := New (λ _, 0)
  (mkConfig (float_of_Z 100) 0 (float_of_Z 0) 0 (float_of_Z 500) 60000000000 100 60000000000
    (float_of_Z 200) 50).

Lemma ip_reject_preserves_budgets_witness :
  ∃ r' e', Allow (λ _ n, n) IPv6unspecified 7 1 lim_flooded env0 = Some (false, LevelIP, r', e') ∧
    sequenceLimiter r' = sequenceLimiter lim_flooded.
Proof.
  eexists _, _. split; [vm_compute; reflexivity|].
  eapply (ip_reject_preserves_budgets (λ _ n, n) IPv6unspecified 7 1 lim_flooded env0).
  vm_compute. reflexivity.
Defined.

Lemma v4_mapped_same_source_witness :
  Allow (λ _ n, n) (replicate 4 x7f) 7 1 lim0 env0 =
  Allow (λ _ n, n) (v4InV6Prefix ++ replicate 4 x7f) 7 1 lim0 env0.
Proof. apply (v4_mapped_same_source (λ _ n, n) (replicate 4 x7f) 7 1 0 lim0 env0). reflexivity. Defined.
End instances.

End RateLimit.
