(* ===== verification/TokenBucket.v ===== *)
(** * Token buckets under concurrent callers

    tokenBucketLimiter.Allow of src/ratelimit/ratelimit.go holds its mutex only while
    it finds or creates the bucket of a key; the token is taken from the bucket
    afterwards, through a pointer. Here any number of callers do these two steps
    in any interleaving, over one map of pointers and one heap of buckets. The
    theorem shows that they cannot be told from callers of [tb_Allow], which
    RateLimit.v runs as one atomic step, in the order in which they take their
    token. *)

From S2P Require Import Prelude GoNet External RefEnv RateLimit.
Import GoNet External RateLimit.

Module TokenBucket.

Section model.
Context {E : Type} `{!RateLib E, !OS E}.
Context {K : Type} `{Countable K}.
Context (r : float64) (burst : Z).

(** ** The callers *)

Inductive pc := Lookup | Take (p : nat) | Returned (ok : bool).

Record state := mkState {
  t_limit : gmap K nat;             (* the map of pointers *)
  t_heap : list rate_Limiter;       (* the buckets, by pointer *)
  t_env : E;
  t_calls : list (K * pc);
  t_done : list (K * bool);         (* the verdicts, in the order of the tokens *)
}.

Inductive step : state → state → Prop :=
| found m h e cs d i k p : cs !! i = Some (k, Lookup) → m !! k = Some p →
    step (mkState m h e cs d) (mkState m h e (<[i := (k, Take p)]> cs) d)
| created m h e cs d i k : cs !! i = Some (k, Lookup) → m !! k = None →
    step (mkState m h e cs d)
      (mkState (<[k := length h]> m) (h ++ [rate_NewLimiter r burst]) e (<[i := (k, Take (length h))]> cs) d)
| taken m h e cs d i k p l ok l' e' : cs !! i = Some (k, Take p) → h !! p = Some l → rate_Allow l e = (ok, l', e') →
    step (mkState m h e cs d) (mkState m (<[p := l']> h) e' (<[i := (k, Returned ok)]> cs) (d ++ [(k, ok)]))
| arrives m h e cs d k : step (mkState m h e cs d) (mkState m h e (cs ++ [(k, Lookup)]) d)
| elapses m h e cs d e' : step (mkState m h e cs d) (mkState m h e' cs d).

Definition initial (e : E) : state := mkState ∅ [] e [] [].

(** ** The specification: whole calls, one after the other *)

Record spec := mkSpec { sp_limit : tokenBucketLimiter K; sp_env : E; sp_done : list (K * bool) }.

Inductive spec_step : spec → spec → Prop :=
| calls t e d k ok t' e' : tb_Allow k t e = (ok, t', e') → spec_step (mkSpec t e d) (mkSpec t' e' (d ++ [(k, ok)]))
| passes t e d e' : spec_step (mkSpec t e d) (mkSpec t e' d).

(** ** The simulation *)

(** The bucket a call of [k] would find. *)
Definition bucket (st : state) (k : K) : rate_Limiter :=
  default (rate_NewLimiter r burst) (t_limit st !! k ≫= λ p, t_heap st !! p).
Definition spec_bucket (t : tokenBucketLimiter K) (k : K) : rate_Limiter :=
  default (rate_NewLimiter r burst) (limit t !! k).

Record simulates (st : state) (sp : spec) : Prop := {
  si_params : tb_r (sp_limit sp) = r ∧ tb_burst (sp_limit sp) = burst;
  si_env : t_env st = sp_env sp;
  si_done : t_done st = sp_done sp;
  si_buckets : ∀ k, bucket st k = spec_bucket (sp_limit sp) k;
  si_inj : ∀ k1 k2 p, t_limit st !! k1 = Some p → t_limit st !! k2 = Some p → k1 = k2;
  si_heap : ∀ k p, t_limit st !! k = Some p → (p < length (t_heap st))%nat;
  si_calls : ∀ i k p, t_calls st !! i = Some (k, Take p) → t_limit st !! k = Some p;
  si_returned : ∀ i k ok, t_calls st !! i = Some (k, Returned ok) → (k, ok) ∈ t_done st;
}.

Lemma lookup_insert_call (cs : list (K * pc)) i j x y : <[i := x]> cs !! j = Some y →
  y = x ∨ cs !! j = Some y.
Proof.
  destruct (decide (i = j)) as [->|Hne]; [|rewrite list_lookup_insert_ne by done; auto].
  intros Hy. left. assert (j < length cs)%nat.
  { apply lookup_lt_Some in Hy. by rewrite length_insert in Hy. }
  rewrite list_lookup_insert_eq in Hy by done. congruence.
Qed.

(** Finding a bucket, or creating one that is as good as absent. *)
Lemma sim_found m h e cs d i k p sp : cs !! i = Some (k, Lookup) → m !! k = Some p →
  simulates (mkState m h e cs d) sp → simulates (mkState m h e (<[i := (k, Take p)]> cs) d) sp.
Proof.
  intros Hi Hk [Hpar He Hd Hb Hinj Hh Hc Hr]. split; simpl in *; try done.
  - intros j k' p' [[= -> ->]|?]%lookup_insert_call; [done|by eapply Hc].
  - intros j k' ok [[=]|?]%lookup_insert_call. by eapply Hr.
Qed.

Lemma sim_created m h e cs d i k sp : cs !! i = Some (k, Lookup) → m !! k = None →
  simulates (mkState m h e cs d) sp →
  simulates (mkState (<[k := length h]> m) (h ++ [rate_NewLimiter r burst]) e (<[i := (k, Take (length h))]> cs) d) sp.
Proof.
  intros Hi Hk [Hpar He Hd Hb Hinj Hh Hc Hr]. split; simpl in *; try done.
  - intros k'. rewrite <- Hb. unfold bucket. simpl. destruct (decide (k = k')) as [<-|Hne].
    + rewrite lookup_insert_eq, Hk. simpl. by rewrite lookup_app_r, Nat.sub_diag.
    + rewrite lookup_insert_ne by done. destruct (m !! k') as [p|] eqn:Hp; simpl; [|done].
      by rewrite lookup_app_l by (by eapply Hh).
  - intros k1 k2 p. rewrite !lookup_insert_Some. intros [[<- <-]|[Hn1 H1]] [[<- Hp]|[Hn2 H2]]; try done.
    + apply Hh in H2. lia.
    + subst. apply Hh in H1. lia.
    + by eapply Hinj.
  - intros k' p. rewrite length_app, lookup_insert_Some. simpl. intros [[_ <-]|[_ Hp]]; [lia|]. apply Hh in Hp. lia.
  - intros j k' p [[= -> ->]|Hj]%lookup_insert_call; [by rewrite lookup_insert_eq|].
    apply Hc in Hj. rewrite lookup_insert_ne; [done|]. congruence.
  - intros j k' ok [[=]|?]%lookup_insert_call. by eapply Hr.
Qed.

(** Taking the token is the whole call. *)
Lemma sim_taken m h e cs d i k p l ok l' e' sp : cs !! i = Some (k, Take p) → h !! p = Some l →
  rate_Allow l e = (ok, l', e') → simulates (mkState m h e cs d) sp →
  ∃ t', tb_Allow k (sp_limit sp) (sp_env sp) = (ok, t', e') ∧
    simulates (mkState m (<[p := l']> h) e' (<[i := (k, Returned ok)]> cs) (d ++ [(k, ok)]))
      (mkSpec t' e' (sp_done sp ++ [(k, ok)])).
Proof.
  intros Hi Hl Ha [[Hr1 Hr2] He Hd Hb Hinj Hh Hc Hr]. simpl in *. pose proof (Hc _ _ _ Hi) as Hk.
  pose proof (Hb k) as Hbk. unfold bucket, spec_bucket in Hbk. simpl in Hbk. rewrite Hk in Hbk. simpl in Hbk.
  rewrite Hl in Hbk. simpl in Hbk.
  assert (match limit (sp_limit sp) !! k with
    | Some l => l | None => rate_NewLimiter (tb_r (sp_limit sp)) (tb_burst (sp_limit sp)) end = l) as Hsp.
  { rewrite Hr1, Hr2, Hbk. by destruct (limit (sp_limit sp) !! k). }
  unfold tb_Allow. rewrite Hsp, <- He, Ha. eexists. split; [done|]. split; simpl; try done.
  - by rewrite Hd.
  - intros k'. unfold bucket, spec_bucket. simpl. destruct (decide (k = k')) as [<-|Hne].
    + rewrite Hk, lookup_insert_eq. simpl. by rewrite list_lookup_insert_eq by (by eapply lookup_lt_Some).
    + rewrite lookup_insert_ne by done. specialize (Hb k'). unfold bucket, spec_bucket in Hb. simpl in Hb.
      rewrite <- Hb. destruct (m !! k') as [p'|] eqn:Hp'; simpl; [|done].
      rewrite list_lookup_insert_ne; [done|]. intros ->. apply Hne. by eapply Hinj.
  - intros k' p'. rewrite length_insert. apply Hh.
  - intros j k' p' [[=]|?]%lookup_insert_call. by eapply Hc.
  - intros j k' ok' [[= -> ->]|Hj]%lookup_insert_call; apply elem_of_app; [right; constructor|left; by eapply Hr].
Qed.

Lemma sim_step st st' sp : step st st' → simulates st sp → ∃ sp', rtc spec_step sp sp' ∧ simulates st' sp'.
Proof.
  intros Hs Hsim. destruct Hs as [m h e cs d i k p Hi Hk|m h e cs d i k Hi Hk|m h e cs d i k p l ok l' e' Hi Hl Ha|m h e cs d k|m h e cs d e'].
  - exists sp. split; [done|]. by apply sim_found.
  - exists sp. split; [done|]. by apply sim_created.
  - destruct (sim_taken _ _ _ _ _ _ _ _ _ _ _ _ _ Hi Hl Ha Hsim) as (t' & Hcall & Hsim').
    eexists. split; [|exact Hsim']. destruct sp as [t e1 d1]. apply rtc_once. by constructor.
  - exists sp. split; [done|]. destruct Hsim as [Hpar He Hd Hb Hinj Hh Hc Hr]. split; simpl in *; try done.
    + intros i k' p [Hi|[_ Hi]]%lookup_app_Some; [by eapply Hc|]. by destruct (_ - _)%nat.
    + intros i k' ok [Hi|[_ Hi]]%lookup_app_Some; [by eapply Hr|]. by destruct (_ - _)%nat.
  - destruct sp as [t e1 d1]. exists (mkSpec t e' d1). split; [apply rtc_once; constructor|].
    destruct Hsim as [Hpar He Hd Hb Hinj Hh Hc Hr]. by split.
Qed.

Lemma sim_initial e : simulates (initial e) (mkSpec (newTokenBucketLimiter r burst) e []).
Proof.
  split; simpl; try done.
Qed.

(** ** Theorem *)

(** C34: the token-bucket tiers are linearizable. However the callers of Allow
    interleave between finding their bucket and taking their token, the verdicts
    are those of the same calls made one at a time, in the order of the tokens;
    every call that returned has its verdict among them; and each key is left
    with the bucket the sequential run leaves it. *)
Theorem token_bucket_linearizable (e : E) (st : state) :
  rtc step (initial e) st →
  ∃ t, rtc spec_step (mkSpec (newTokenBucketLimiter r burst) e []) (mkSpec t (t_env st) (t_done st)) ∧
    (∀ i k ok, t_calls st !! i = Some (k, Returned ok) → (k, ok) ∈ t_done st) ∧
    (∀ k, bucket st k = spec_bucket t k).
Proof.
  intros Hr. assert (∃ sp, rtc spec_step (mkSpec (newTokenBucketLimiter r burst) e []) sp ∧ simulates st sp) as (sp & Hsp & Hsim).
  { pose proof (sim_initial e) as H0. revert H0. generalize (mkSpec (newTokenBucketLimiter r burst) e []).
    induction Hr as [|st1 st2 st3 Hs _ IH]; intros sp Hsim; [by exists sp|].
    destruct (sim_step _ _ _ Hs Hsim) as (sp2 & H12 & Hsim2). destruct (IH sp2 Hsim2) as (sp3 & H23 & Hsim3).
    exists sp3. split; [by etrans|done]. }
  destruct sp as [t e' d]. destruct Hsim as [_ He Hd Hb _ _ _ Hret]. simpl in *. subst. exists t. split_and!; done.
Qed.
End model.

(** ** Instances *)
Section instances.
Import RefEnv.

(** Two callers of one key with a burst of one: both find the bucket before either
    takes a token, and one of them is refused. *)
Definition two_callers : state (E := renv) (K := string) :=
  mkState {["a"%string := 0%nat]} [-1] env0
    [("a"%string, Returned false); ("a"%string, Returned true)] [("a"%string, true); ("a"%string, false)].
Lemma two_callers_reachable : rtc (step (float_of_Z 1) 1) (initial env0) two_callers.
Proof.
  eapply rtc_l; [apply (arrives _ _ _ _ _ _ _ "a"%string)|]. eapply rtc_l; [apply (arrives _ _ _ _ _ _ _ "a"%string)|].
  eapply rtc_l; [by apply (created _ _ _ _ _ _ _ 0 "a"%string)|].
  eapply rtc_l; [by apply (found _ _ _ _ _ _ _ 1 "a"%string 0)|].
  eapply rtc_l; [by eapply (taken _ _ _ _ _ _ _ 1 "a"%string 0)|].
  eapply rtc_l; [by eapply (taken _ _ _ _ _ _ _ 0 "a"%string 0)|]. apply rtc_refl.
Qed.

Lemma token_bucket_linearizable_witness :
  ∃ t, rtc spec_step (mkSpec (newTokenBucketLimiter (float_of_Z 1) 1) env0 [])
      (mkSpec t env0 [("a"%string, true); ("a"%string, false)]) ∧ spec_bucket (float_of_Z 1) 1 t "a"%string = -1.
Proof.
  destruct (token_bucket_linearizable (float_of_Z 1) 1 env0 two_callers) as (t & Ht & _ & Hb); [apply two_callers_reachable|].
  exists t. split; [exact Ht|]. rewrite <- Hb. reflexivity.
Defined.
End instances.

End TokenBucket.
