(* ===== verification/World.v ===== *)
(** * The state the handlers run in, and the interfaces between components

    [world] is the process as the handlers see it: the environment [E], the
    shared rate limiter, the NACK proxy's job queue and the trace of observable
    actions (metric increments and socket writes, in order). The classes
    [CacheI], [RetransI] and [ProxyI] are the Go interfaces cache.Cache,
    server.Retransmitter and server.ProxyEnqueuer; [RetransOn] and [ProxyOk]
    state what their implementations promise to the NACK server. The server's
    theorems are proved against these promises, and Retransmit.v and Proxy.v
    discharge them for the real components. *)

From S2P Require Import Prelude GoNet External RefEnv RateLimit.
Import GoNet External RateLimit.

Module World.

(** A recovery job of the NACK proxy. *)
Record job := mkJob {
  j_hashKey : Z; j_seq : Z; j_subtree : bytes; j_requester : option udpaddr
}.

Inductive event :=
| EvMetric (m : metric)
| EvWrite (s : socket) (dst : udpaddr) (b : bytes) (ok : bool).

#[global] Instance event_eq_dec : EqDecision event.
Proof. solve_decision. Defined.

Definition is_response (ev : event) : Prop :=
  match ev with EvWrite NACKSocket _ _ _ => True | _ => False end.
#[global] Instance is_response_dec ev : Decision (is_response ev).
Proof. destruct ev as [|[]]; simpl; apply _. Defined.

(** Datagrams the NACK socket was asked to send. *)
Abbreviation responses := (filter is_response).

(** A successful multicast copy of [raw]; a successful unicast copy to [dst]. *)
Definition multicast_of (raw : bytes) (evs : list event) : Prop :=
  ∃ iface grp, EvWrite (EgressSocket iface) grp raw true ∈ evs.
Definition unicast_of (raw : bytes) (dst : udpaddr) (evs : list event) : Prop :=
  EvWrite UnicastSocket dst raw true ∈ evs.

(** The only datagrams among [evs] are multicast copies of [raw]; the only ones
    are unicast copies of [raw] to [dst]. *)
Definition mc_only (raw : bytes) (evs : list event) : Prop :=
  Forall (λ ev, match ev with
                | EvMetric _ => True
                | EvWrite (EgressSocket _) _ b _ => b = raw
                | _ => False
                end) evs.
Definition uc_only (raw : bytes) (dst : udpaddr) (evs : list event) : Prop :=
  Forall (λ ev, match ev with
                | EvMetric _ => True
                | EvWrite UnicastSocket d b _ => d = dst ∧ b = raw
                | _ => False
                end) evs.

Definition metrics_only (evs : list event) : Prop :=
  Forall (λ ev, match ev with EvMetric _ => True | _ => False end) evs.

Section world.
Context {E : Type} `{!RateLib E, !OS E}.

Record world := mkWorld {
  w_env : E;
  w_lim : Limiter;
  w_queue : list job;
  w_events : list event;
}.

Definition add_event (ev : event) (w : world) : world :=
  mkWorld (w_env w) (w_lim w) (w_queue w) (w_events w ++ [ev]).

(** A call on a possibly nil recorder: [if rec != nil { rec.M() }]. *)
Definition emit (rec : bool) (m : metric) : GoM world unit :=
  when rec (gmodify (add_event (EvMetric m))).

(** An operation of the environment. *)
Definition env_op {A} (f : E → A * E) : GoM world A := act (λ w,
  let '(a, e) := f (w_env w) in
  Some (a, mkWorld e (w_lim w) (w_queue w) (w_events w))).

(** [conn.WriteTo(b, dst)]: the error it returns, and the write in the trace. *)
Definition write_to (s : socket) (b : bytes) (dst : udpaddr) : GoM world (option gerror) := act (λ w,
  let '(err, e) := sock_write s b dst (w_env w) in
  Some (err, mkWorld e (w_lim w) (w_queue w)
               (w_events w ++ [EvWrite s dst b (bool_decide (err = None))]))).

(** An operation of the shared rate limiter. *)
Definition lim_op {A} (f : Limiter → E → option (A * Limiter * E)) : GoM world A := act (λ w,
  match f (w_lim w) (w_env w) with
  | Some (a, l, e) => Some (a, mkWorld e l (w_queue w) (w_events w))
  | None => None
  end).

(** *** Interfaces *)

(** cache.Cache, as the ingress worker and the NACK server use it. *)
Class CacheI := {
  cache_Store : bytes → bytes → Z → E → option gerror * E;
  cache_Retrieve : bytes → E → (option bytes + gerror) * E;
}.

(** server.Retransmitter *)
Class RetransI := {
  rt_Retransmit : bytes → bytes → GoM world (option gerror);
  rt_RetransmitUnicast : bytes → udpaddr → GoM world (option gerror);
}.

(** server.ProxyEnqueuer; the result of Enqueue. *)
Class ProxyI := {
  px_Enqueue : Z → Z → bytes → option udpaddr → GoM world bool;
}.

(** A step that leaves the limiter and the queue alone and appends [evs]. *)
Definition extends (w w' : world) (evs : list event) : Prop :=
  w_lim w' = w_lim w ∧ w_queue w' = w_queue w ∧ w_events w' = w_events w ++ evs.

(** *** Correctness beside other handlers

    [wpi P I m Q]: if before each operation of [m] the others may have left the
    world in any state whose environment satisfies [P], and whose limiter and queue
    satisfy [I], then no operation panics, each keeps [P] and [I] and only appends to
    trace and queue, and [m] returns with [Q] of its result, of the events it caused
    and of the jobs it queued. *)
Fixpoint wpi {A} (P : E → Prop) (I : Limiter → list job → Prop) (m : GoM world A)
    (Q : A → list event → list job → Prop) : Prop :=
  match m with
  | GRet a => Q a [] []
  | GOp f k => ∀ w, P (w_env w) → I (w_lim w) (w_queue w) →
      ∃ x w' evs jobs, f w = Some (x, w') ∧ P (w_env w') ∧ I (w_lim w') (w_queue w') ∧
      w_events w' = w_events w ++ evs ∧ w_queue w' = w_queue w ++ jobs ∧
      wpi P I (k x) (λ a evs' jobs', Q a (evs ++ evs') (jobs ++ jobs'))
  end.

(** What the NACK server and the proxy rely on, whatever runs beside it: a
    retransmit always returns, touches neither the limiter nor the queue, keeps [P]
    of the environment, sends nothing but copies of the frame it was given, and a
    nil error means a copy went out. *)
Class RetransOn (P : E → Prop) `{!RetransI} : Prop := {
  rt_multicast : ∀ I (raw txID : bytes), length txID = 32%nat →
    wpi P I (rt_Retransmit raw txID) (λ err evs jobs, jobs = [] ∧
      mc_only raw evs ∧ (err = None → multicast_of raw evs));
  rt_unicast : ∀ I raw dst,
    wpi P I (rt_RetransmitUnicast raw dst) (λ err evs jobs, jobs = [] ∧
      uc_only raw dst evs ∧ (err = None → unicast_of raw dst evs));
}.

(** Enqueue returns at once: either the job is now last in a queue that had room,
    fewer than [cap] jobs, or it is dropped and the queue unchanged. *)
Class ProxyOk (cap : Z) `{!ProxyI} : Prop := {
  px_enqueue : ∀ P (I : Limiter → list job → Prop) hk sq sub req,
    (∀ l q, I l q → Z.of_nat (length q) < cap → I l (q ++ [mkJob hk sq sub req])) →
    wpi P I (px_Enqueue hk sq sub req) (λ (ok : bool) evs jobs,
      metrics_only evs ∧ jobs = if ok then [mkJob hk sq sub req] else []);
}.

(** ** Rules for the primitive operations *)

Lemma wp_emit (rec : bool) m (Q : unit → world → Prop) w :
  (∀ evs, evs = (if rec then [EvMetric m] else []) →
          Q tt (mkWorld (w_env w) (w_lim w) (w_queue w) (w_events w ++ evs))) →
  wp (emit rec m) Q w.
Proof.
  intros HQ. unfold emit. apply wp_when; intros ->.
  - apply wp_modify. by apply HQ.
  - specialize (HQ [] eq_refl). rewrite app_nil_r in HQ. by destruct w.
Qed.

Lemma wp_env_op {A} (f : E → A * E) (Q : A → world → Prop) w :
  (∀ a e, f (w_env w) = (a, e) → Q a (mkWorld e (w_lim w) (w_queue w) (w_events w))) →
  wp (env_op f) Q w.
Proof.
  intros HQ. apply wp_act. destruct (f (w_env w)) as [a e] eqn:Ef.
  eexists _, _. split; [done|]. by apply HQ.
Qed.

Lemma wp_write_to s b dst (Q : option gerror → world → Prop) w :
  (∀ err e, sock_write s b dst (w_env w) = (err, e) →
     Q err (mkWorld e (w_lim w) (w_queue w)
              (w_events w ++ [EvWrite s dst b (bool_decide (err = None))]))) →
  wp (write_to s b dst) Q w.
Proof.
  intros HQ. apply wp_act. destruct (sock_write _ _ _ _) as [err e] eqn:Ef.
  eexists _, _. split; [done|]. by apply HQ.
Qed.

Lemma wp_lim_op {A} f (Q : A → world → Prop) w a l e :
  f (w_lim w) (w_env w) = Some (a, l, e) → Q a (mkWorld e l (w_queue w) (w_events w)) →
  wp (lim_op f) Q w.
Proof. intros Hf HQ. apply wp_act. rewrite Hf. eauto. Qed.

(** *** Rules for [wpi] *)
Section wpi.
Context (P : E → Prop) (I : Limiter → list job → Prop).

Lemma wpi_mono {A} (m : GoM world A) (Q Q' : A → list event → list job → Prop) :
  wpi P I m Q → (∀ a evs jobs, Q a evs jobs → Q' a evs jobs) → wpi P I m Q'.
Proof.
  revert Q Q'. induction m as [a|X f k IH]; intros Q Q' Hm HQ; simpl in *; [by apply HQ|].
  intros w Hp Hw. destruct (Hm w Hp Hw) as (x & w' & evs & jobs & ? & ? & ? & ? & ? & Hk).
  exists x, w', evs, jobs. split_and!; [done..|]. eapply IH; [exact Hk|]. intros a evs' jobs'. apply HQ.
Qed.

Lemma wpi_ret {A} (a : A) (Q : A → list event → list job → Prop) : Q a [] [] → wpi P I (mret a) Q.
Proof. done. Qed.

Lemma wpi_bind {A B} (m : GoM world A) (k : A → GoM world B) (Q : B → list event → list job → Prop) :
  wpi P I m (λ a evs jobs, wpi P I (k a) (λ b evs' jobs', Q b (evs ++ evs') (jobs ++ jobs'))) → wpi P I (m ≫= k) Q.
Proof.
  revert Q. induction m as [a|X f k' IH]; intros Q Hm; [exact Hm|].
  intros w Hp Hw. destruct (Hm w Hp Hw) as (x & w' & evs & jobs & ? & ? & ? & ? & ? & Hk).
  exists x, w', evs, jobs. split_and!; [done..|]. apply IH. eapply wpi_mono; [exact Hk|]. simpl.
  intros a evs1 jobs1 Ha. eapply wpi_mono; [exact Ha|]. intros b evs2 jobs2. by rewrite !app_assoc.
Qed.

Lemma wpi_act {A} (f : world → option (A * world)) (Q : A → list event → list job → Prop) :
  (∀ w, P (w_env w) → I (w_lim w) (w_queue w) →
     ∃ a w' evs jobs, f w = Some (a, w') ∧ P (w_env w') ∧ I (w_lim w') (w_queue w') ∧
     w_events w' = w_events w ++ evs ∧ w_queue w' = w_queue w ++ jobs ∧ Q a evs jobs) → wpi P I (act f) Q.
Proof.
  intros Hf w Hp Hw. destruct (Hf w Hp Hw) as (a & w' & evs & jobs & ? & ? & ? & ? & ? & ?).
  exists a, w', evs, jobs. split_and!; [done..|]. simpl. by rewrite !app_nil_r.
Qed.

Lemma wpi_liftO {A} (o : option A) (a : A) (Q : A → list event → list job → Prop) :
  o = Some a → Q a [] [] → wpi P I (liftO o) Q.
Proof. intros ->. done. Qed.

Lemma wpi_when (c : bool) m (Q : unit → list event → list job → Prop) :
  (c = true → wpi P I m Q) → (c = false → Q tt [] []) → wpi P I (when c m) Q.
Proof. intros Ht Hf. destruct c; [by apply Ht|]. apply wpi_ret. by apply Hf. Qed.

Lemma wpi_emit (rec : bool) m (Q : unit → list event → list job → Prop) :
  (∀ evs, evs = (if rec then [EvMetric m] else []) → Q tt evs []) → wpi P I (emit rec m) Q.
Proof.
  intros HQ. unfold emit. apply wpi_when; intros ->; [|by apply HQ]. apply wpi_act. intros w Hp Hw.
  eexists _, _, _, _. split_and!; [done|exact Hp|exact Hw|reflexivity|symmetry; apply app_nil_r|by apply HQ].
Qed.

Lemma wpi_env_op {A} (f : E → A * E) `{!Keeps P f} (Q : A → list event → list job → Prop) :
  (∀ e a e', P e → f e = (a, e') → Q a [] []) → wpi P I (env_op f) Q.
Proof.
  intros HQ. apply wpi_act. intros w Hp Hw. pose proof (keeps (P := P) (f := f) _ Hp) as Hk.
  destruct (f (w_env w)) as [a e] eqn:Hf.
  eexists _, _, [], []. split_and!; [done|exact Hk|exact Hw|by rewrite app_nil_r..|exact (HQ _ _ _ Hp Hf)].
Qed.

Lemma wpi_write_to s b dst `{!Keeps P (sock_write s b dst)} (Q : option gerror → list event → list job → Prop) :
  (∀ err, Q err [EvWrite s dst b (bool_decide (err = None))] []) → wpi P I (write_to s b dst) Q.
Proof.
  intros HQ. apply wpi_act. intros w Hp Hw. pose proof (keeps (P := P) (f := sock_write s b dst) _ Hp) as Hk.
  destruct (sock_write _ _ _ _) as [err e].
  eexists _, _, _, []. split_and!; [done|exact Hk|exact Hw|reflexivity|by rewrite app_nil_r|apply HQ].
Qed.

Lemma wpi_lim_op {A} f (Q : A → list event → list job → Prop) :
  (∀ l q e, P e → I l q → ∃ a l' e', f l e = Some (a, l', e') ∧ P e' ∧ I l' q ∧ Q a [] []) → wpi P I (lim_op f) Q.
Proof.
  intros HQ. apply wpi_act. intros w Hp Hw. destruct (HQ _ _ _ Hp Hw) as (a & l' & e' & -> & ? & ? & ?).
  eexists _, _, [], []. by rewrite !app_nil_r.
Qed.

(** The two shapes of a handler that is under way. *)
Lemma wpi_done {A} (a : A) (Q : A → list event → list job → Prop) : wpi P I (GRet a) Q → Q a [] [].
Proof. done. Qed.

Lemma wpi_next {A X} (f : world → option (X * world)) (k : X → GoM world A) (Q : A → list event → list job → Prop) w :
  wpi P I (GOp f k) Q → P (w_env w) → I (w_lim w) (w_queue w) →
  ∃ x w' evs jobs, f w = Some (x, w') ∧ P (w_env w') ∧ I (w_lim w') (w_queue w') ∧
    w_events w' = w_events w ++ evs ∧ w_queue w' = w_queue w ++ jobs ∧
    wpi P I (k x) (λ a evs' jobs', Q a (evs ++ evs') (jobs ++ jobs')).
Proof. intros Hm. apply Hm. Qed.

(** A handler that is correct beside others is correct alone. *)
Lemma wpi_run {A} (m : GoM world A) (Q : A → list event → list job → Prop) w :
  wpi P I m Q → P (w_env w) → I (w_lim w) (w_queue w) →
  ∃ a w' evs jobs, m w = Some (a, w') ∧ I (w_lim w') (w_queue w') ∧
    w_events w' = w_events w ++ evs ∧ w_queue w' = w_queue w ++ jobs ∧ Q a evs jobs.
Proof.
  revert Q w. induction m as [a|X f k IH]; intros Q w Hm Hp Hw; simpl in *.
  { exists a, w, [], []. by rewrite !app_nil_r. }
  destruct (Hm w Hp Hw) as (x & w1 & evs & jobs & -> & Hp1 & Hw1 & He & Hq & Hk).
  destruct (IH x _ w1 Hk Hp1 Hw1) as (a & w2 & evs2 & jobs2 & -> & ? & He2 & Hq2 & ?).
  exists a, w2, (evs ++ evs2), (jobs ++ jobs2).
  split_and!; [done..|by rewrite He2, He, app_assoc|by rewrite Hq2, Hq, app_assoc|done].
Qed.
End wpi.

(** A handler that leaves limiter and queue alone whatever runs beside it. *)
Lemma wpi_extends {A} (m : GoM world A) (R : A → list event → Prop) w :
  (∀ I, wpi (λ _, True) I m (λ a evs jobs, jobs = [] ∧ R a evs)) → wp m (λ a w', ∃ evs, extends w w' evs ∧ R a evs) w.
Proof.
  intros Hm. destruct (wpi_run (λ _, True) (λ l _, l = w_lim w) m _ w (Hm _) Logic.I eq_refl)
    as (a & w' & evs & jobs & Hr & Hl & He & Hq & -> & HR).
  apply wp_iff. exists a, w'. split; [done|]. exists evs. rewrite app_nil_r in Hq. done.
Qed.

(** The interface's promises for a call that runs alone. *)
Lemma alone_multicast `{!RetransI, !RetransOn (λ _, True)} raw txID w : length txID = 32%nat →
  wp (rt_Retransmit raw txID) (λ err w', ∃ evs, extends w w' evs ∧
    mc_only raw evs ∧ (err = None → multicast_of raw evs)) w.
Proof.
  intros Hl. apply (wpi_extends _ (λ err evs, mc_only raw evs ∧ (err = None → multicast_of raw evs))).
  intros I. by apply rt_multicast.
Qed.

Lemma alone_unicast `{!RetransI, !RetransOn (λ _, True)} raw dst w :
  wp (rt_RetransmitUnicast raw dst) (λ err w', ∃ evs, extends w w' evs ∧
    uc_only raw dst evs ∧ (err = None → unicast_of raw dst evs)) w.
Proof.
  apply (wpi_extends _ (λ err evs, uc_only raw dst evs ∧ (err = None → unicast_of raw dst evs))).
  intros I. by apply rt_unicast.
Qed.

Lemma extends_refl w : extends w w [].
Proof. unfold extends. by rewrite app_nil_r. Qed.

Lemma extends_trans w1 w2 w3 evs1 evs2 :
  extends w1 w2 evs1 → extends w2 w3 evs2 → extends w1 w3 (evs1 ++ evs2).
Proof.
  unfold extends. intros (-> & -> & ->) (-> & -> & ->). by rewrite app_assoc.
Qed.
End world.

#[global] Opaque wpi.

#[global] Arguments world E {_}.
#[global] Arguments CacheI E : clear implicits.
#[global] Arguments RetransI E {_}.
#[global] Arguments ProxyI E {_}.
#[global] Arguments RetransOn {E _} P {_}.
#[global] Arguments ProxyOk E {_} cap {_}.

(** The promise when nothing is asked of the environment. *)
Abbreviation RetransOk r := (@RetransOn _ _ (λ _, True) r).

Lemma responses_app evs1 evs2 : responses (evs1 ++ evs2) = responses evs1 ++ responses evs2.
Proof. apply filter_app. Qed.

Lemma responses_metric rec (m : metric) :
  responses (if rec : bool then [EvMetric m] else []) = [].
Proof. by destruct rec. Qed.

Lemma mc_only_metric raw rec (m : metric) :
  mc_only raw (if rec : bool then [EvMetric m] else []).
Proof. destruct rec; repeat constructor. Qed.

Lemma metrics_only_metric rec (m : metric) :
  metrics_only (if rec : bool then [EvMetric m] else []).
Proof. destruct rec; repeat constructor. Qed.

Lemma metrics_only_responses evs : metrics_only evs → responses evs = [].
Proof. induction 1 as [|[] evs H _ IH]; done. Qed.
Lemma metrics_only_app evs1 evs2 :
  metrics_only evs1 → metrics_only evs2 → metrics_only (evs1 ++ evs2).
Proof. intros. by apply Forall_app. Qed.
Lemma metrics_only_filter (P : event → Prop) `{!∀ ev, Decision (P ev)} evs :
  metrics_only evs → metrics_only (filter P evs).
Proof. induction 1; [constructor|]. rewrite filter_cons. by case_decide; [constructor|]. Qed.
Lemma multicast_of_app raw evs1 evs2 :
  multicast_of raw evs1 ∨ multicast_of raw evs2 → multicast_of raw (evs1 ++ evs2).
Proof. intros [(i & g & ?)|(i & g & ?)]; exists i, g; set_solver. Qed.
Lemma unicast_of_app raw dst evs1 evs2 :
  unicast_of raw dst evs1 ∨ unicast_of raw dst evs2 → unicast_of raw dst (evs1 ++ evs2).
Proof. unfold unicast_of. set_solver. Qed.
Lemma mc_only_responses raw evs : mc_only raw evs → responses evs = [].
Proof. induction 1 as [|[|[]] evs H _ IH]; done. Qed.
Lemma uc_only_responses raw dst evs : uc_only raw dst evs → responses evs = [].
Proof. induction 1 as [|[|[]] evs H _ IH]; done. Qed.

Create HintDb trace.
#[export] Hint Resolve extends_refl metrics_only_metric metrics_only_app mc_only_metric
  multicast_of_app unicast_of_app : trace.
#[export] Hint Constructors Forall : trace.

(** Symbolic execution of a handler: one bind, emit or return at a time. *)
Ltac wp_step :=
  cbv beta iota; cbn [negb];
  lazymatch goal with
  | |- wp (mbind _ _) _ _ => apply wp_bind
  | |- wp (mret _) _ _ => apply wp_ret
  | |- wp (emit _ _) _ _ => apply wp_emit; intros ? ->
  | |- wp (env_op _) _ _ => apply wp_env_op; let H := fresh "Hop" in intros ? ? H; cbn [w_env] in H
  | |- wp (write_to _ _ _) _ _ => apply wp_write_to; let H := fresh "Hwr" in intros ? ? H; cbn [w_env] in H
  end; cbn [w_env w_lim w_queue w_events].

(** The same for [wpi]. *)
Ltac wpi_step :=
  cbv beta iota; cbn [negb];
  lazymatch goal with
  | |- wpi _ _ (mbind _ _) _ => apply wpi_bind
  | |- wpi _ _ (mret _) _ => apply wpi_ret
  | |- wpi _ _ (emit _ _) _ => apply wpi_emit; intros ? ->
  | |- wpi _ _ (env_op _) _ => refine (wpi_env_op _ _ _ _ _); let Hp := fresh "Hp" in let H := fresh "Hop" in intros ? ? ? Hp H
  | |- wpi _ _ (write_to _ _ _) _ => refine (wpi_write_to _ _ _ _ _ _ _); intros ?
  end; cbv beta; cbn [app]; rewrite ?app_nil_r.

Definition world0 : world RefEnv.renv := mkWorld RefEnv.env0 lim0 [] [].

End World.
