(* ===== verification/CacheStore.v ===== *)
(** * The namespaced cache adapter

    Models src/cache/cache.go: [Store] wraps a shard-common backend under a key
    prefix and bounds each operation by a deadline, except on the in-process
    backend. [store_cache] makes a [Store] the [CacheI] the ingress worker and
    the NACK server use. The theorems show that a stored frame is read back,
    and that the three namespaces main.go builds on one backend cannot touch
    each other's entries. *)

From S2P Require Import Prelude GoNet External RefEnv World.
From Stdlib Require Import Strings.Byte.
Import GoNet External World.

Module CacheStore.

(** [[]byte(s)] *)
Definition bytes_of_string (s : string) : bytes := String.list_byte_of_string s.

Definition time_Second : Z := 1000000000.

Section model.
Context {E : Type} `{!Backend E}.

Record Store := mkStore {
  st_b : backend;
  st_prefix : bytes;
  st_opTimeout : Z;
  st_local : bool;
}.

Definition NewStore (b : backend) (prefix : string) (opTimeout : Z) : Store :=
  mkStore b (bytes_of_string prefix)
    (if opTimeout <=? 0 then time_Second else opTimeout) (be_is_memory b).

(** Allocates [len(prefix)+len(k)] bytes and copies both in. *)
Definition key (s : Store) (k : bytes) : bytes := st_prefix s ++ k.

(** The deadline of an operation's context. *)
Definition opCtx (s : Store) : option Z :=
  if st_local s then None else Some (st_opTimeout s).

Definition Store_Store (s : Store) (k value : bytes) (ttl : Z) : E → option gerror * E :=
  be_Set (st_b s) (opCtx s) (key s k) value ttl.

Definition Retrieve (s : Store) (k : bytes) : E → (option bytes + gerror) * E :=
  be_Get (st_b s) (opCtx s) (key s k).

Definition Delete (s : Store) (k : bytes) : E → option gerror * E :=
  be_Del (st_b s) (opCtx s) (key s k).

Definition SetNX (s : Store) (k value : bytes) (ttl : Z) : E → (bool * option gerror) * E :=
  be_SetNX (st_b s) (opCtx s) (key s k) value ttl.

Definition Len (s : Store) (e : E) : Z := default 0 (be_Len (st_b s) e).

Definition Close (s : Store) : option gerror := None.

(** *Store implements the cache interface of ingress and server. *)
Definition store_cache (s : Store) : CacheI E := {|
  cache_Store := Store_Store s;
  cache_Retrieve := Retrieve s;
|}.

(** Two stores with different prefixes of one length have no key in common. *)
Lemma key_disjoint s1 s2 k1 k2 :
  length (st_prefix s1) = length (st_prefix s2) → st_prefix s1 ≠ st_prefix s2 →
  key s1 k1 ≠ key s2 k2.
Proof. unfold key. intros Hl Hne He. apply Hne. by apply app_inj_1 in He as [? _]. Qed.

Lemma key_inj s k1 k2 : key s k1 = key s k2 → k1 = k2.
Proof. apply app_inv_head. Qed.

(** ** Theorems *)
Context `{!BackendOk E}.

(** A frame that was stored without error is returned, byte for byte, by
    the next Retrieve of the same key, and storing it changes what no other
    key returns. *)
Theorem store_retrieve (s : Store) (k value : bytes) (ttl : Z) (e e' : E) :
  Store_Store s k value ttl e = (None, e') →
  (Retrieve s k e').1 = inl (Some value) ∧
  ∀ k', k' ≠ k → (Retrieve s k' e').1 = (Retrieve s k' e).1.
Proof.
  intros Hs. split; [by eapply be_get_set|]. intros k' Hne. unfold Retrieve.
  replace e' with (Store_Store s k value ttl e).2 by (by rewrite Hs).
  apply be_get_set_other. intros ?%key_inj. congruence.
Qed.

(** The stores main.go builds: frames, retransmit dedup, proxy claims. *)
Definition frame_store (b : backend) (t : Z) : Store := NewStore b "bre:frame:" t.
Definition dedup_store (b : backend) (t : Z) : Store := NewStore b "bre:dedup:" t.
Definition proxy_store (b : backend) (t : Z) : Store := NewStore b "bre:proxy:" t.

(** The namespaces on one shared backend are independent. A claim taken
    by the retransmit dedup gate or by the NACK proxy never changes what the
    frame cache returns, and never collides with the other's claims. *)
Theorem namespaces_independent (b : backend) (t : Z) (k k' v : bytes) (ttl : Z) (e : E) :
  (Retrieve (frame_store b t) k (SetNX (dedup_store b t) k' v ttl e).2).1 =
    (Retrieve (frame_store b t) k e).1 ∧
  (Retrieve (frame_store b t) k (SetNX (proxy_store b t) k' v ttl e).2).1 =
    (Retrieve (frame_store b t) k e).1 ∧
  key (dedup_store b t) k ≠ key (proxy_store b t) k'.
Proof.
  split_and!; [apply be_get_setnx_other..|]; by apply key_disjoint.
Qed.
End model.

(** ** Instances *)
Section instances.
Import RefEnv.

Definition mem : @backend renv ref_Backend := 0%nat.
Definition redis : @backend renv ref_Backend := 1%nat.

Lemma store_retrieve_witness :
  (Retrieve (frame_store mem 0) [x01] (ref_set mem (key (frame_store mem 0) [x01]) [x02] env0)).1
    = inl (Some [x02]).
Proof.
  apply (store_retrieve (frame_store mem 0) [x01] [x02] 60 env0). vm_compute. reflexivity.
Defined.

Lemma namespaces_independent_witness :
  (Retrieve (frame_store redis 0) [x01] (SetNX (dedup_store redis 0) [x01] [x31] 60 env0).2).1 =
  inl None.
Proof. apply (namespaces_independent redis 0 [x01] [x01] [x31] 60 env0). Defined.
End instances.

End CacheStore.
