(* ===== verification/Retransmit.v ===== *)
(** * The retransmitter

    Models src/retransmit/retransmit.go: the destination of a cached frame
    ([targetGroup]), the cross-instance dedup gate, the multicast send on every
    egress interface and the unicast send. The egress sockets are a Go map, so
    [range_order] chooses the order of the writes.

    [retrans_iface] makes it the interface of the NACK server and [retrans_ok]
    discharges the interface's promises. The sockets themselves are the
    operating system's; [Open] is modelled over their results, and Sockets.v models how
    they are created and closed. *)

From S2P Require Import Prelude GoNet External RefEnv RateLimit World CacheStore.
From Stdlib Require Import Strings.Byte.
Import GoNet External World CacheStore.

Module Retransmit.

Section model.
Context {E : Type} `{!RateLib E, !OS E, !Backend E, !FrameLib, !ShardLib}.

Record Retransmitter := mkRetransmitter {
  engine : Engine;
  beefEngine : option PlaneEngine;    (* None = BRC-148 plane disabled *)
  egressPort : Z;
  dedupWindow : Z;
  dedup : option Store;               (* None = no cross-instance dedup *)
  rt_rec : bool;                      (* recorder attached *)
  unicastConn : bool;                 (* unicast socket open *)
  sockets : list string;              (* interfaces with an egress socket *)
  ifaces : list iface;                (* the configured egress interfaces *)
  unicastSrc : option bytes;          (* source address of the unicast socket; None = nil *)
  multicastLoop : bool;               (* IPV6_MULTICAST_LOOP on egress sockets *)
}.

Definition New (engine : Engine) (ifaces : list iface) (egressPort dedupWindow : Z)
    (dedup : option Store) (rec : bool) : Retransmitter :=
  mkRetransmitter engine None egressPort dedupWindow dedup rec false [] ifaces None false.

Definition SetBEEF (pe : option PlaneEngine) (r : Retransmitter) : Retransmitter :=
  mkRetransmitter (engine r) pe (egressPort r) (dedupWindow r) (dedup r) (rt_rec r)
    (unicastConn r) (sockets r) (ifaces r) (unicastSrc r) (multicastLoop r).
Definition SetUnicastSource (ip : bytes) (r : Retransmitter) : Retransmitter :=
  mkRetransmitter (engine r) (beefEngine r) (egressPort r) (dedupWindow r) (dedup r) (rt_rec r)
    (unicastConn r) (sockets r) (ifaces r) (Some ip) (multicastLoop r).
Definition SetMulticastLoop (b : bool) (r : Retransmitter) : Retransmitter :=
  mkRetransmitter (engine r) (beefEngine r) (egressPort r) (dedupWindow r) (dedup r) (rt_rec r)
    (unicastConn r) (sockets r) (ifaces r) (unicastSrc r) b.

(** [r.sockets[name] = conn]: the map has one socket per name. *)
Definition addSocket (name : string) (r : Retransmitter) : Retransmitter :=
  mkRetransmitter (engine r) (beefEngine r) (egressPort r) (dedupWindow r) (dedup r) (rt_rec r)
    (unicastConn r) (if decide (name ∈ sockets r) then sockets r else sockets r ++ [name]) (ifaces r)
    (unicastSrc r) (multicastLoop r).

(** One egress socket per interface, then the unicast socket. A failure leaves
    the sockets opened so far in place. [openEgressSocket] and [listenUDP] are
    the operating system's half (Sockets.v). *)
Fixpoint openFrom (openEgressSocket : bool → iface → E → option gerror * E)
    (listenUDP : option bytes → E → option gerror * E)
    (ifcs : list iface) (r : Retransmitter) (e : E) : option gerror * Retransmitter * E :=
  match ifcs with
  | [] =>
      match listenUDP (unicastSrc r) e with
      | (Some err, e') => (Some (ErrWrap "open unicast retransmit socket" err), r, e')
      | (None, e') =>
          (None, mkRetransmitter (engine r) (beefEngine r) (egressPort r) (dedupWindow r)
                   (dedup r) (rt_rec r) true (sockets r) (ifaces r) (unicastSrc r) (multicastLoop r), e')
      end
  | ifc :: ifcs' =>
      match openEgressSocket (multicastLoop r) ifc e with
      | (Some err, e') => (Some (ErrWrap "open egress socket" err), r, e')
      | (None, e') => openFrom openEgressSocket listenUDP ifcs' (addSocket (if_Name ifc) r) e'
      end
  end.
Definition Open (openEgressSocket : bool → iface → E → option gerror * E)
    (listenUDP : option bytes → E → option gerror * E)
    (r : Retransmitter) (e : E) : option gerror * Retransmitter * E :=
  openFrom openEgressSocket listenUDP (ifaces r) r e.

(** The control group [idx] under the engine's prefix and group id. *)
Definition ctrlGroup (r : Retransmitter) (idx : Z) : udpaddr :=
  mkUDPAddr (GroupAddr (eng_Prefix (engine r)) (eng_GroupID (engine r)) idx) (egressPort r) "".

(** [r.engine.Addr(idx, r.egressPort)] *)
Definition shardGroup (r : Retransmitter) (idx : Z) : udpaddr :=
  eng_Addr (engine r) idx (egressPort r).

(** The V3 case: route per the class the fragment was cut from. *)
Definition fragmentGroup (r : Retransmitter) (ff : fragment) : udpaddr + gerror :=
  let v := ff_OrigFrameVer ff in
  if decide (v = FrameVerV4 ∨ v = FrameVerV6) then inl (ctrlGroup r GroupBlockBroadcast)
  else if decide (v = FrameVerV5) then inl (ctrlGroup r GroupSubtreeDataAnnounce)
  else if decide (v = FrameVerV9) then
    match beefEngine r with
    | None => inr (ErrText "retransmit: BEEF fragment cached but plane disabled")
    | Some pe => inl (shardGroup r (plane_GroupIndex pe (ff_SubtreeID ff)))
    end
  else inl (shardGroup r (eng_GroupIndex (engine r) (ff_TxID ff))).

Definition targetGroup (r : Retransmitter) (raw txID : bytes) : option (udpaddr + gerror) :=
  let byTxID := Some (inl (shardGroup r (eng_GroupIndex (engine r) txID))) in
  if decide (7 ≤ length raw)%nat then
    ver ← raw !! 6%nat;
    if decide (ver = FrameVerV4 ∨ ver = FrameVerV6) then
      Some (inl (ctrlGroup r GroupBlockBroadcast))
    else if decide (ver = FrameVerV5) then
      Some (inl (ctrlGroup r GroupSubtreeDataAnnounce))
    else if decide (ver = FrameVerV9) then
      match beefEngine r with
      | None => Some (inr (ErrText "retransmit: BEEF frame cached but plane disabled"))
      | Some pe =>
          if decide (length raw < 88)%nat then
            Some (inr (ErrText "retransmit: BEEF frame too short for TopicID"))
          else
            topicID ← gsub 56 88 raw;
            Some (inl (shardGroup r (plane_GroupIndex pe topicID)))
      end
    else if decide (ver = FrameVerV3) then
      match DecodeFragment raw with
      | inl ff => Some (fragmentGroup r ff)
      | inr _ => byTxID
      end
    else if decide (ver = FrameVerV8) then
      if decide (58 ≤ length raw)%nat then
        f ← gsub 56 58 raw;
        groupIdx ← BE_Uint16 f;
        Some (inl (shardGroup r groupIdx))
      else byTxID
    else byTxID
  else byTxID.

(** The dedup key: HashKey and SeqNum, bytes 40 to 55; empty is nil. *)
Definition buildDedupKey (raw : bytes) : bytes :=
  if decide (length raw < 56)%nat then [] else field 40 56 raw.

(** [for name, conn := range r.sockets]: the first write error ends it. *)
Fixpoint sendAll (r : Retransmitter) (raw : bytes) (grp : udpaddr) (names : list string)
  : GoM (world E) (option gerror) :=
  match names with
  | [] => mret None
  | name :: names' =>
      err ← write_to (EgressSocket name) raw grp;
      match err with
      | Some e => _ ← emit (rt_rec r) CacheError; mret (Some e)
      | None => sendAll r raw grp names'
      end
  end.

(** The dedup gate: true when a sibling holds the claim. A backend error with
    [set = false] takes the same branch. *)
Definition dedupSuppressed (r : Retransmitter) (raw : bytes) : GoM (world E) bool :=
  match dedup r with
  | None => mret false
  | Some d =>
      let dedupKey := buildDedupKey raw in
      if decide (0 < length dedupKey)%nat then
        '(set, _) ← env_op (SetNX d dedupKey (bytes_of_string "1") (dedupWindow r));
        if set : bool then mret false
        else _ ← emit (rt_rec r) RetransmitDedup; mret true
      else mret false
  end.

Definition Retransmit (r : Retransmitter) (raw txID : bytes) : GoM (world E) (option gerror) :=
  suppressed ← dedupSuppressed r raw;
  if suppressed : bool then mret (Some ErrDedupSuppressed) else
  g ← liftO (targetGroup r raw txID);
  match g with
  | inr gerr => mret (Some gerr)
  | inl groupAddr =>
      names ← env_op (range_order _ (sockets r));
      sendAll r raw groupAddr names
  end.

Definition RetransmitUnicast (r : Retransmitter) (raw : bytes) (dst : option udpaddr)
  : GoM (world E) (option gerror) :=
  match dst with
  | None => mret (Some (ErrText "retransmit unicast: nil dst"))
  | Some dst =>
      if negb (unicastConn r) then mret (Some (ErrText "retransmit unicast: socket not open"))
      else write_to UnicastSocket raw dst
  end.

Definition retrans_iface (r : Retransmitter) : RetransI E := {|
  rt_Retransmit := Retransmit r;
  rt_RetransmitUnicast := λ raw dst, RetransmitUnicast r raw (Some dst);
|}.

(** ** Lemmas *)

Lemma targetGroup_total r raw txID : is_Some (targetGroup r raw txID).
Proof.
  unfold targetGroup. case_decide as Hl; [|done].
  destruct (lookup_lt_is_Some_2 raw 6) as [ver ->]; [lia|]. simpl.
  repeat (case_decide || case_match); simpl; try done.
  - rewrite gsub_Some by lia. done.
  - rewrite gsub_Some by lia. simpl. rewrite BE_Uint16_Some by (rewrite length_field; lia). done.
Qed.

(** What a retransmit does to its environment keeps [P]. *)
Class RetransEnv (P : E → Prop) (r : Retransmitter) : Prop := {
  re_write :: ∀ s b dst, Keeps P (sock_write s b dst);
  re_range :: ∀ A l, Keeps P (range_order A l);
  re_claim : ∀ d k v ttl, dedup r = Some d → Keeps P (SetNX d k v ttl);
}.
#[global] Instance retransEnv_any r : RetransEnv (λ _, True) r.
Proof. split; apply _. Qed.

Section wpi.
Context (P : E → Prop) (I : RateLimit.Limiter → list job → Prop) (r : Retransmitter) `{!RetransEnv P r}.

Lemma wpi_sendAll raw grp names :
  wpi P I (sendAll r raw grp names) (λ err evs jobs, jobs = [] ∧ mc_only raw evs ∧
    (err = None → evs = (λ n, EvWrite (EgressSocket n) grp raw true) <$> names)).
Proof.
  induction names as [|n names IH]; cbn [sendAll]; [wpi_step; split_and!; [done|constructor|done]|].
  wpi_step. wpi_step. destruct err as [err|].
  - wpi_step. wpi_step. wpi_step. split_and!; [done| |done]. by constructor; [|apply mc_only_metric].
  - eapply wpi_mono; [apply IH|]. simpl. intros err evs jobs (-> & Hr & He). split_and!; [done|by constructor|].
    intros ?. by rewrite He.
Qed.

Lemma wpi_dedupSuppressed raw :
  wpi P I (dedupSuppressed r raw) (λ sup evs jobs, jobs = [] ∧ mc_only raw evs ∧ (sup = false → evs = [])).
Proof.
  unfold dedupSuppressed. destruct (dedup r) as [d|] eqn:Hd; [|wpi_step; split_and!; [done|constructor|done]].
  case_decide; [|wpi_step; split_and!; [done|constructor|done]].
  pose proof (re_claim d (buildDedupKey raw) (bytes_of_string "1") (dedupWindow r) Hd).
  wpi_step. wpi_step. destruct a as [set err]. destruct set; [wpi_step; split_and!; [done|constructor|done]|].
  wpi_step. wpi_step. wpi_step. split_and!; [done| |done]. apply mc_only_metric.
Qed.

(** What a multicast retransmit does: on a nil error its events are exactly
    one verbatim copy per egress interface, to the frame's group. *)
Lemma wpi_Retransmit raw txID :
  wpi P I (Retransmit r raw txID) (λ err evs jobs, jobs = [] ∧ mc_only raw evs ∧
    (err = None → ∃ grp names, targetGroup r raw txID = Some (inl grp) ∧
       (∃ e, names = (range_order _ (sockets r) e).1) ∧
       evs = (λ n, EvWrite (EgressSocket n) grp raw true) <$> names)).
Proof.
  unfold Retransmit. wpi_step. eapply wpi_mono; [apply wpi_dedupSuppressed|].
  intros sup evs1 jobs1 (-> & Hr1 & Hs). destruct sup; [by wpi_step|]. specialize (Hs eq_refl) as ->.
  destruct (targetGroup_total r raw txID) as [g Hg]. wpi_step. eapply wpi_liftO; [exact Hg|].
  destruct g as [grp|gerr]; [|wpi_step; split_and!; [done|constructor|done]].
  wpi_step. wpi_step. eapply wpi_mono; [apply wpi_sendAll|]. cbn [app].
  intros err evs jobs (-> & Hr & He). split_and!; [done..|].
  intros ->. eexists grp, _. split; [done|]. split; [|by apply He]. exists e. by rewrite Hop.
Qed.

Lemma wpi_RetransmitUnicast raw dst :
  wpi P I (RetransmitUnicast r raw (Some dst)) (λ err evs jobs, jobs = [] ∧
    uc_only raw dst evs ∧ (err = None → unicast_of raw dst evs)).
Proof.
  unfold RetransmitUnicast. destruct (unicastConn r); simpl.
  - wpi_step. split_and!; [done|by repeat constructor|]. intros ->. constructor.
  - wpi_step. split_and!; [done|constructor|done].
Qed.

End wpi.

(** The same for a retransmit that runs alone. *)
Lemma wp_Retransmit r raw txID w :
  wp (Retransmit r raw txID) (λ err w', ∃ evs, extends w w' evs ∧ mc_only raw evs ∧
    (err = None → ∃ grp names, targetGroup r raw txID = Some (inl grp) ∧
       (∃ e, names = (range_order _ (sockets r) e).1) ∧
       evs = (λ n, EvWrite (EgressSocket n) grp raw true) <$> names)) w.
Proof. apply (wpi_extends _ (λ err evs, mc_only raw evs ∧ (err = None → _))). intros I. apply wpi_Retransmit, _. Qed.

Lemma wp_RetransmitUnicast r raw dst w :
  wp (RetransmitUnicast r raw (Some dst)) (λ err w', ∃ evs, extends w w' evs ∧
    uc_only raw dst evs ∧ (err = None → unicast_of raw dst evs)) w.
Proof. apply (wpi_extends _ (λ err evs, uc_only raw dst evs ∧ (err = None → _))). intros I. apply wpi_RetransmitUnicast, _. Qed.

(** The interface's promises hold for a retransmitter with open sockets. *)
Lemma retrans_on `{!OSOk E} P r `{!RetransEnv P r} : sockets r ≠ [] → @RetransOn _ _ P (retrans_iface r).
Proof.
  intros Hs. split; simpl.
  - intros I raw txID _. eapply wpi_mono; [by apply wpi_Retransmit|].
    intros err evs jobs (-> & Hr & He). split_and!; [done..|].
    intros Hn. destruct (He Hn) as (grp & names & _ & (e & Hnames) & ->).
    destruct names as [|n names].
    + pose proof (range_order_perm _ (sockets r) e) as Hp. rewrite <- Hnames in Hp.
      by apply Permutation_nil_l in Hp.
    + exists n, grp. constructor.
  - intros. by apply wpi_RetransmitUnicast with (r := r).
Qed.

Lemma retrans_ok `{!OSOk E} r : sockets r ≠ [] → RetransOk (retrans_iface r).
Proof. apply retrans_on, _. Qed.

(** A successful Open keeps the sockets there were and opens the unicast
    socket and one egress socket per interface. *)
Lemma openFrom_sockets oe lu ifcs r e r' e' :
  openFrom oe lu ifcs r e = (None, r', e') → NoDup (sockets r) →
  unicastConn r' = true ∧ NoDup (sockets r') ∧
  ∀ name, name ∈ sockets r' ↔ name ∈ sockets r ∨ name ∈ if_Name <$> ifcs.
Proof.
  revert r e. induction ifcs as [|n ifcs IH]; intros r e; simpl.
  { destruct (lu (unicastSrc r) e) as [[err|] e1]; [done|]. intros [= <- <-] Hnd.
    split_and!; [done..|]. intros name. simpl. set_solver. }
  destruct (oe (multicastLoop r) n e) as [[err|] e1]; [done|]. intros Hgo Hnd.
  destruct (IH _ _ Hgo) as (Hu & Hd & Hs).
  { simpl. case_decide; [done|]. apply NoDup_app. split_and!; [done|set_solver|apply NoDup_singleton]. }
  split_and!; [done..|]. intros name. rewrite Hs. simpl. case_decide; set_solver.
Qed.

(** Open touches neither the dedup gate nor the unicast source. *)
Lemma openFrom_settings oe lu ifcs r e r' e' err : openFrom oe lu ifcs r e = (err, r', e') →
  dedup r' = dedup r ∧ unicastSrc r' = unicastSrc r.
Proof.
  revert r e. induction ifcs as [|n ifcs IH]; intros r e; simpl.
  - destruct (lu (unicastSrc r) e) as [[err1|] e1]; by intros [= <- <- <-].
  - destruct (oe (multicastLoop r) n e) as [[err1|] e1]; [by intros [= <- <- <-]|]. by intros Hgo%IH.
Qed.

(** Running through the dedup gate when the claim is refused. *)
Lemma Retransmit_refused r d raw txID w err e' :
  dedup r = Some d → (56 ≤ length raw)%nat →
  SetNX d (buildDedupKey raw) (bytes_of_string "1") (dedupWindow r) (w_env w) = ((false, err), e') →
  wp (Retransmit r raw txID) (λ res w', res = Some ErrDedupSuppressed ∧
    w_events w' = w_events w ++ (if rt_rec r then [EvMetric RetransmitDedup] else [])) w.
Proof.
  intros Hd Hl Hset. unfold Retransmit, dedupSuppressed. rewrite Hd.
  assert (0 < length (buildDedupKey raw))%nat.
  { unfold buildDedupKey. rewrite decide_False by lia. rewrite length_field; lia. }
  rewrite decide_True by done. wp_step. wp_step. wp_step.
  match goal with H : SetNX _ _ _ _ _ = _ |- _ => rewrite Hset in H; simplify_eq end.
  wp_step. wp_step. wp_step. wp_step. done.
Qed.

(** A send keeps claims that were taken before it. *)
Lemma wp_sendAll_claimed `{!ClaimFrame E} r raw grp names b k w :
  be_claimed b k (w_env w) →
  wp (sendAll r raw grp names) (λ _ w', be_claimed b k (w_env w')) w.
Proof.
  revert w. induction names as [|n names IH]; intros w Hc; cbn [sendAll]; [by wp_step|].
  wp_step. wp_step.
  match goal with H : sock_write ?s ?x ?g _ = _ |- _ =>
    pose proof (claimed_write b k s x g _ Hc) as Hc'; rewrite H in Hc'; simpl in Hc' end.
  destruct err; [|by apply IH]. wp_step. wp_step. by wp_step.
Qed.

Lemma wp_Retransmit_claims `{!BackendOk E, !ClaimFrame E} r d raw txID w :
  dedup r = Some d → (56 ≤ length raw)%nat →
  wp (Retransmit r raw txID) (λ res w', res = None →
    be_claimed (st_b d) (key d (buildDedupKey raw)) (w_env w')) w.
Proof.
  intros Hd Hl. unfold Retransmit, dedupSuppressed. rewrite Hd.
  assert (0 < length (buildDedupKey raw))%nat.
  { unfold buildDedupKey. rewrite decide_False by lia. rewrite length_field; lia. }
  rewrite decide_True by done. wp_step. wp_step. wp_step.
  match goal with H : SetNX _ _ _ _ _ = (?a, _) |- _ => rename H into Hset; destruct a as [[] err] end.
  2:{ wp_step. wp_step. wp_step. by wp_step. }
  wp_step. apply be_setnx_once in Hset.
  destruct (targetGroup_total r raw txID) as [g Hg]. wp_step. eapply wp_liftO; [exact Hg|].
  destruct g as [grp|gerr]; [|by wp_step]. wp_step. wp_step.
  match goal with H : range_order ?A ?l _ = _ |- _ =>
    pose proof (claimed_range _ _ A l _ Hset) as Hc; rewrite H in Hc; simpl in Hc end.
  eapply wp_mono; [by apply wp_sendAll_claimed|]. done.
Qed.

(** ** Theorems *)

(** C13: a multicast retransmit always returns; when it reports success, what
    went on the wire is exactly one byte-for-byte copy of the cached frame on
    every egress interface, addressed to the frame's own group. *)
Theorem retransmit_verbatim `{!OSOk E} r (raw txID : bytes) (w : world E) :
  ∃ err w', Retransmit r raw txID w = Some (err, w') ∧
    (err = None → ∃ grp names, targetGroup r raw txID = Some (inl grp) ∧ names ≡ₚ sockets r ∧
       w_events w' = w_events w ++ ((λ n, EvWrite (EgressSocket n) grp raw true) <$> names)).
Proof.
  pose proof (wp_Retransmit r raw txID w) as Hwp. apply wp_iff in Hwp as (err & w' & Hr & evs & Hx & _ & He).
  exists err, w'. split; [done|]. intros Hn. destruct (He Hn) as (grp & names & Hg & (e & ->) & ->).
  exists grp, (range_order _ (sockets r) e).1. split_and!; [done|apply range_order_perm|apply Hx].
Qed.

(** A refused claim sends nothing. Whenever SetNX does not create the
    dedup key, be it held by a sibling or be it that the backend returned an
    error, the retransmit is reported as suppressed and no datagram leaves. *)
Theorem refused_claim_sends_nothing r d (raw txID : bytes) (w : world E) err e' :
  dedup r = Some d → (56 ≤ length raw)%nat →
  SetNX d (buildDedupKey raw) (bytes_of_string "1") (dedupWindow r) (w_env w) = ((false, err), e') →
  ∃ w', Retransmit r raw txID w = Some (Some ErrDedupSuppressed, w') ∧
    w_events w' = w_events w ++ (if rt_rec r then [EvMetric RetransmitDedup] else []).
Proof.
  intros Hd Hl Hs. pose proof (Retransmit_refused r d raw txID w err e' Hd Hl Hs) as Hwp.
  apply wp_iff in Hwp as (res & w' & ? & -> & ?). eauto.
Qed.

(** Within the dedup window only one endpoint multicasts a frame. If one
    instance's retransmit succeeded, then an instance that shares its dedup
    store is refused for every frame with the same HashKey and SeqNum, and
    sends nothing. *)
Theorem one_sibling_retransmits `{!BackendOk E, !ClaimFrame E} r1 r2 d
    (raw1 raw2 tx1 tx2 : bytes) (w w1 : world E) :
  dedup r1 = Some d → dedup r2 = Some d →
  (56 ≤ length raw1)%nat → (56 ≤ length raw2)%nat → field 40 56 raw1 = field 40 56 raw2 →
  Retransmit r1 raw1 tx1 w = Some (None, w1) →
  ∃ w2, Retransmit r2 raw2 tx2 w1 = Some (Some ErrDedupSuppressed, w2) ∧
    w_events w2 = w_events w1 ++ (if rt_rec r2 then [EvMetric RetransmitDedup] else []).
Proof.
  intros H1 H2 Hl1 Hl2 Hf Hr.
  pose proof (wp_Retransmit_claims r1 d raw1 tx1 w H1 Hl1) as Hc.
  apply wp_iff in Hc as (res & w1' & Hr' & Hc). rewrite Hr in Hr'. simplify_eq.
  specialize (Hc eq_refl). unfold buildDedupKey in Hc. rewrite decide_False, Hf in Hc by lia.
  specialize (Hc (opCtx d) (bytes_of_string "1") (dedupWindow r2)).
  destruct (be_SetNX _ _ _ _ _ _) as [[set err] e'] eqn:Hs. simpl in Hc. simplify_eq.
  pose proof (Retransmit_refused r2 d raw2 tx2 w1' err e' H2 Hl2) as Hwp.
  apply wp_iff in Hwp as (res & w' & ? & -> & ?); [by eauto|].
  unfold buildDedupKey. rewrite decide_False by lia. exact Hs.
Qed.

(** A BEEF frame is routed by its TopicID alone. Two V9 frames that agree
    on bytes 56 to 88 go to the same group whatever their ContentIDs (the
    bytes at offset 8 the server passes as transaction id) and payloads. *)
Theorem beef_routed_by_topic r (raw raw' txID txID' : bytes) :
  FrameLibOk → raw !! 6%nat = Some FrameVerV9 → raw' !! 6%nat = Some FrameVerV9 →
  (88 ≤ length raw)%nat → (88 ≤ length raw')%nat → field 56 88 raw = field 56 88 raw' →
  targetGroup r raw txID = targetGroup r raw' txID'.
Proof.
  intros Hok Hv Hv' Hl Hl' Hf. destruct frame_versions as (E3 & E4 & E5 & E6 & E8 & E9 & _).
  unfold targetGroup. rewrite Hv, Hv', !decide_True by lia. simpl.
  rewrite !(decide_False (P := FrameVerV9 = FrameVerV4 ∨ FrameVerV9 = FrameVerV6)) by
    (rewrite E4, E6, E9; by intros []).
  rewrite !(decide_False (P := FrameVerV9 = FrameVerV5)) by (by rewrite E5, E9).
  rewrite !(decide_True (P := FrameVerV9 = FrameVerV9)) by done.
  destruct (beefEngine r); [|done]. rewrite !decide_False by lia.
  rewrite !gsub_Some, Hf by lia. done.
Qed.

(** C11: A fragment is routed like the frame it was cut from. For a fragment
    of a whole frame of any class other than a bundle, the destination equals
    the destination of that whole frame. *)
Theorem fragment_routed_as_whole r (raw whole txID : bytes) (ff : fragment) :
  FrameLibOk → beefEngine r ≠ None →
  raw !! 6%nat = Some FrameVerV3 → DecodeFragment raw = inl ff →
  whole !! 6%nat = Some (ff_OrigFrameVer ff) → (88 ≤ length whole)%nat →
  ff_OrigFrameVer ff ≠ FrameVerV3 → ff_OrigFrameVer ff ≠ FrameVerV8 →
  field 56 88 whole = ff_SubtreeID ff →
  targetGroup r raw txID = targetGroup r whole (ff_TxID ff).
Proof.
  intros Hok Hb Hv Hd Hw Hl Hn3 Hn8 Hf.
  destruct frame_versions as (E3 & E4 & E5 & E6 & E8 & E9 & _).
  pose proof (lookup_lt_Some _ _ _ Hv).
  unfold targetGroup. rewrite Hv, Hw, Hd, !decide_True by lia. simpl.
  rewrite !(decide_False (P := FrameVerV3 = FrameVerV4 ∨ FrameVerV3 = FrameVerV6)) by
    (rewrite E4, E6, E3; by intros []).
  rewrite !(decide_False (P := FrameVerV3 = FrameVerV5)) by (by rewrite E5, E3).
  rewrite !(decide_False (P := FrameVerV3 = FrameVerV9)) by (by rewrite E9, E3).
  rewrite !(decide_True (P := FrameVerV3 = FrameVerV3)) by done.
  unfold fragmentGroup. repeat case_decide; try (done || lia).
  destruct (beefEngine r); [|done]. rewrite ?decide_False by lia.
  rewrite gsub_Some, Hf by lia. done.
Qed.
End model.

(** ** Instances *)
Section instances.
Import RefEnv.

Definition rt0 : Retransmitter (E := renv) :=
  mkRetransmitter (mkEngine 0xFF05 0xB 2 : @Engine ref_ShardLib) (Some (4 : @PlaneEngine ref_ShardLib))
    9001 60000000000 (Some (dedup_store redis 0)) true true ["eth0"; "eth1"]
    [mkIface "eth0" 2; mkIface "eth1" 3] None false.

Definition tx_frame : bytes := ref_frame x02 xab x00 x00 7 1.
Definition beef_frame (content topic : byte) : bytes := ref_frame x09 content topic x00 7 2.
Definition block_fragment : bytes := ref_frame x03 xab x00 x04 7 3.

Lemma retransmit_verbatim_witness :
  ∃ err w', Retransmit rt0 tx_frame (field 8 40 tx_frame) world0 = Some (err, w') ∧
    (err = None → ∃ grp names, targetGroup rt0 tx_frame (field 8 40 tx_frame) = Some (inl grp) ∧
       names ≡ₚ sockets rt0 ∧
       w_events w' = w_events world0 ++ ((λ n, EvWrite (EgressSocket n) grp tx_frame true) <$> names)).
Proof. apply (retransmit_verbatim rt0 tx_frame (field 8 40 tx_frame) world0). Defined.

(** The backend is down: SetNX returns false with an error. *)
Definition world_down : world renv := mkWorld (mkREnv 1 ∅ true false [] []) RateLimit.lim0 [] [].

Lemma refused_claim_sends_nothing_witness :
  ∃ w', Retransmit rt0 tx_frame (field 8 40 tx_frame) world_down =
          Some (Some ErrDedupSuppressed, w') ∧ w_events w' = [EvMetric RetransmitDedup].
Proof.
  apply (refused_claim_sends_nothing rt0 (dedup_store redis 0) tx_frame (field 8 40 tx_frame)
    world_down (Some (ErrExt 111)) (w_env world_down)); [reflexivity|vm_compute; lia|reflexivity].
Defined.

Definition world_claimed : world renv :=
  default world0 (snd <$> Retransmit rt0 tx_frame (field 8 40 tx_frame) world0).

Lemma one_sibling_retransmits_witness :
  ∃ w2, Retransmit rt0 tx_frame (field 8 40 tx_frame) world_claimed =
          Some (Some ErrDedupSuppressed, w2) ∧
    w_events w2 = w_events world_claimed ++ [EvMetric RetransmitDedup].
Proof.
  apply (one_sibling_retransmits rt0 rt0 (dedup_store redis 0) tx_frame tx_frame
    (field 8 40 tx_frame) (field 8 40 tx_frame) world0 world_claimed);
    [reflexivity|reflexivity|vm_compute; lia|vm_compute; lia|reflexivity|vm_compute; reflexivity].
Defined.

Lemma beef_routed_by_topic_witness :
  targetGroup rt0 (beef_frame x01 x77) (replicate 32 x01) =
  targetGroup rt0 (beef_frame xff x77) (replicate 32 xff).
Proof.
  apply (beef_routed_by_topic rt0 (beef_frame x01 x77) (beef_frame xff x77));
    [apply _|reflexivity|reflexivity|vm_compute; lia|vm_compute; lia|vm_compute; reflexivity].
Defined.

Lemma fragment_routed_as_whole_witness :
  targetGroup rt0 block_fragment (replicate 32 xab) =
  targetGroup rt0 (ref_frame x04 xab x00 x00 7 3) (replicate 32 xab).
Proof.
  apply (fragment_routed_as_whole rt0 block_fragment (ref_frame x04 xab x00 x00 7 3)
    (replicate 32 xab) (mkFragment 7 3 x04 (replicate 32 xab) (replicate 32 x00)));
    try (vm_compute; reflexivity); try done; try apply _. vm_compute; lia.
Defined.
End instances.

End Retransmit.
