(* ===== verification/Fleet.v ===== *)
(** * A fleet of endpoints

    Several endpoints that share a dedup store and retransmit concurrently: each
    agent runs [Retransmit] of src/retransmit/retransmit.go, and their calls on the
    environment, the claim, the map range and every write, interleave in any
    order. [Retransmit_is_agent] shows that an agent left alone is exactly the
    sequential [Retransmit].

    The fleet theorem is the cross-instance dedup contract of docs/architecture.md
    for any number of endpoints, within the dedup window. *)

From S2P Require Import Prelude GoNet External RefEnv RateLimit World CacheStore Retransmit.
From Stdlib Require Import Strings.Byte.
Import GoNet External World CacheStore Retransmit.

Module Fleet.

Section model.
Context {E : Type} `{!RateLib E, !OS E, !Backend E, !FrameLib, !ShardLib}.

Inductive apc :=
| Idle
| Suppressed                                   (* refused at the gate *)
| Routing                                      (* past the gate *)
| Sending (grp : udpaddr) (names : list string)
| Finished (err : option gerror).

Record agent := mkAgent { ag_rt : Retransmitter (E := E); ag_raw : bytes; ag_tx : bytes; ag_pc : apc }.
Definition set_pc (pc : apc) (a : agent) : agent := mkAgent (ag_rt a) (ag_raw a) (ag_tx a) pc.

(** The dedup gate on the environment; true = suppressed. *)
Definition gate (r : Retransmitter (E := E)) (raw : bytes) (e : E) : bool * E :=
  match dedup r with
  | None => (false, e)
  | Some d =>
      if decide (0 < length (buildDedupKey raw))%nat then
        let '((set, _), e') := SetNX d (buildDedupKey raw) (bytes_of_string "1") (dedupWindow r) e in
        (negb set, e')
      else (false, e)
  end.

(** The datagrams that left: agent, interface, destination and payload. *)
Definition packet : Type := (nat * string * udpaddr * bytes)%type.
Record fleet := mkFleet { fl_env : E; fl_agents : list agent; fl_wire : list packet }.

Inductive fleet_step : fleet → fleet → Prop :=
| fs_refused e e' as_ wire i a :
    as_ !! i = Some a → ag_pc a = Idle → gate (ag_rt a) (ag_raw a) e = (true, e') →
    fleet_step (mkFleet e as_ wire) (mkFleet e' (<[i := set_pc Suppressed a]> as_) wire)
| fs_claimed e e' as_ wire i a :
    as_ !! i = Some a → ag_pc a = Idle → gate (ag_rt a) (ag_raw a) e = (false, e') →
    fleet_step (mkFleet e as_ wire) (mkFleet e' (<[i := set_pc Routing a]> as_) wire)
| fs_no_group e as_ wire i a err :
    as_ !! i = Some a → ag_pc a = Routing → targetGroup (ag_rt a) (ag_raw a) (ag_tx a) = Some (inr err) →
    fleet_step (mkFleet e as_ wire) (mkFleet e (<[i := set_pc (Finished (Some err)) a]> as_) wire)
| fs_route e e' as_ wire i a grp names :
    as_ !! i = Some a → ag_pc a = Routing → targetGroup (ag_rt a) (ag_raw a) (ag_tx a) = Some (inl grp) →
    range_order _ (sockets (ag_rt a)) e = (names, e') →
    fleet_step (mkFleet e as_ wire) (mkFleet e' (<[i := set_pc (Sending grp names) a]> as_) wire)
| fs_sent e e' as_ wire i a grp name names :
    as_ !! i = Some a → ag_pc a = Sending grp (name :: names) →
    sock_write (EgressSocket name) (ag_raw a) grp e = (None, e') →
    fleet_step (mkFleet e as_ wire)
      (mkFleet e' (<[i := set_pc (Sending grp names) a]> as_) (wire ++ [(i, name, grp, ag_raw a)]))
| fs_send_error e e' as_ wire i a grp name names err :
    as_ !! i = Some a → ag_pc a = Sending grp (name :: names) →
    sock_write (EgressSocket name) (ag_raw a) grp e = (Some err, e') →
    fleet_step (mkFleet e as_ wire) (mkFleet e' (<[i := set_pc (Finished (Some err)) a]> as_) wire)
| fs_done e as_ wire i a grp :
    as_ !! i = Some a → ag_pc a = Sending grp [] →
    fleet_step (mkFleet e as_ wire) (mkFleet e (<[i := set_pc (Finished None) a]> as_) wire)
(* anything else the environment does within the window releases no claim *)
| fs_env e e' as_ wire :
    (∀ b k, be_claimed b k e → be_claimed b k e') →
    fleet_step (mkFleet e as_ wire) (mkFleet e' as_ wire).

Definition launched (e : E) (as_ : list agent) : Prop := Forall (λ a, ag_pc a = Idle) as_.

(** ** Lemmas *)

(** Past the gate. *)
Definition passed (a : agent) : Prop := match ag_pc a with Idle | Suppressed => False | _ => True end.

(** The claim an agent needs: backend and key. *)
Definition claim (a : agent) : option (backend * bytes) :=
  d ← dedup (ag_rt a);
  if decide (56 ≤ length (ag_raw a))%nat then Some (st_b d, key d (buildDedupKey (ag_raw a))) else None.

Lemma claim_set_pc pc a : claim (set_pc pc a) = claim a.
Proof. done. Qed.

Lemma buildDedupKey_pos raw : (0 < length (buildDedupKey raw))%nat ↔ (56 ≤ length raw)%nat.
Proof. unfold buildDedupKey. case_decide; simpl; [lia|]. rewrite length_field; lia. Qed.

(** The gate keeps every claim, takes the agent's when it lets it pass, and lets
    no agent pass whose claim is taken. *)
Lemma gate_claims `{!BackendOk E, !ClaimFrame E} a e sup e' : gate (ag_rt a) (ag_raw a) e = (sup, e') →
  (∀ b k, be_claimed b k e → be_claimed b k e') ∧
  (∀ b k, claim a = Some (b, k) → (sup = false → be_claimed b k e') ∧ (be_claimed b k e → sup = true)).
Proof.
  unfold gate, claim. destruct (dedup (ag_rt a)) as [d|]; [|intros [= <- <-]; done]. cbn [mbind option_bind].
  destruct (decide (0 < length (buildDedupKey (ag_raw a)))%nat) as [Hp|Hp].
  2:{ intros [= <- <-]. rewrite decide_False; [done|]. by rewrite <- buildDedupKey_pos. }
  rewrite decide_True by (by apply buildDedupKey_pos).
  destruct (SetNX d _ _ _ e) as [[set err] e1] eqn:Hs. intros [= <- <-]. unfold SetNX in Hs. split.
  - intros b k Hc. pose proof (claimed_setnx b k (st_b d) (opCtx d) (key d (buildDedupKey (ag_raw a)))
      (bytes_of_string "1") (dedupWindow (ag_rt a)) e Hc) as Hk. by rewrite Hs in Hk.
  - intros b k [= <- <-]. split.
    + destruct set; [intros _; by eapply be_setnx_once|done].
    + intros Hc. specialize (Hc (opCtx d) (bytes_of_string "1") (dedupWindow (ag_rt a))).
      rewrite Hs in Hc. by simplify_eq/=.
Qed.

(** The interfaces agent [i] has sent on. *)
Definition sent_by (i : nat) (wire : list packet) : list string :=
  omap (λ p, if decide (p.1.1.1 = i) then Some p.1.1.2 else None) wire.
Definition to_send (a : agent) : list string :=
  match ag_pc a with Idle | Suppressed | Routing => [] | Sending _ names => names | Finished _ => [] end.

Record fleet_ok (st : fleet) : Prop := {
  fo_claimed : ∀ i a b k, fl_agents st !! i = Some a → passed a → claim a = Some (b, k) → be_claimed b k (fl_env st);
  fo_unique : ∀ i j a a' c, fl_agents st !! i = Some a → fl_agents st !! j = Some a' → passed a → passed a' →
    claim a = Some c → claim a' = Some c → i = j;
  fo_wire : ∀ i name grp raw, (i, name, grp, raw) ∈ fl_wire st →
    ∃ a, fl_agents st !! i = Some a ∧ passed a ∧ ag_raw a = raw ∧ targetGroup (ag_rt a) raw (ag_tx a) = Some (inl grp);
  fo_sending : ∀ i a grp names, fl_agents st !! i = Some a → ag_pc a = Sending grp names →
    targetGroup (ag_rt a) (ag_raw a) (ag_tx a) = Some (inl grp);
  fo_once : ∀ i a, fl_agents st !! i = Some a → NoDup (sent_by i (fl_wire st) ++ to_send a);
  fo_fresh : ∀ i a, fl_agents st !! i = Some a → ag_pc a = Routing → sent_by i (fl_wire st) = [];
  fo_names : ∀ i a, fl_agents st !! i = Some a → NoDup (sockets (ag_rt a));
}.

Lemma sent_by_app i l l' : sent_by i (l ++ l') = sent_by i l ++ sent_by i l'.
Proof. apply omap_app. Qed.
Lemma sent_by_self i name grp raw : sent_by i [(i, name, grp, raw)] = [name].
Proof. unfold sent_by. simpl. by rewrite decide_True. Qed.
Lemma sent_by_other i j name grp raw : i ≠ j → sent_by j [(i, name, grp, raw)] = [].
Proof. intros Hne. unfold sent_by. simpl. by rewrite decide_False. Qed.

Lemma sent_by_nil i wire : (∀ name grp raw, (i, name, grp, raw) ∉ wire) → sent_by i wire = [].
Proof.
  induction wire as [|[[[j name] grp] raw] wire IH]; intros Hw; [done|]. unfold sent_by. simpl.
  case_decide as Hj; [subst; exfalso; apply (Hw name grp raw); constructor|].
  apply IH. intros ??? Hin. eapply Hw. by constructor.
Qed.

(** One agent moves. *)
Lemma fleet_ok_move e e' as_ wire wire' i a pc :
  fleet_ok (mkFleet e as_ wire) → as_ !! i = Some a →
  (∀ b k, be_claimed b k e → be_claimed b k e') →
  (passed (set_pc pc a) → passed a ∨ ∀ b k, claim a = Some (b, k) → be_claimed b k e' ∧ ¬ be_claimed b k e) →
  (passed a → passed (set_pc pc a)) →
  (wire' = wire ∨ ∃ name grp, wire' = wire ++ [(i, name, grp, ag_raw a)] ∧ passed (set_pc pc a) ∧
     targetGroup (ag_rt a) (ag_raw a) (ag_tx a) = Some (inl grp)) →
  (∀ grp names, pc = Sending grp names → targetGroup (ag_rt a) (ag_raw a) (ag_tx a) = Some (inl grp)) →
  NoDup (sent_by i wire' ++ to_send (set_pc pc a)) → (pc = Routing → sent_by i wire' = []) →
  fleet_ok (mkFleet e' (<[i := set_pc pc a]> as_) wire').
Proof.
  intros [Hcl Hun Hwi Hse Hon Hfr Hna] Hi Hkeep Hpass Hkept Hwire Htarget Honce Hfresh. simpl in *.
  assert (i < length as_)%nat as Hlt by (by eapply lookup_lt_Some).
  assert (∀ j x, <[i := set_pc pc a]> as_ !! j = Some x →
    (j = i ∧ x = set_pc pc a) ∨ (j ≠ i ∧ as_ !! j = Some x)) as Hlook.
  { intros j x. destruct (decide (j = i)) as [->|Hne].
    - rewrite list_lookup_insert_eq by done. intros [= <-]. by left.
    - rewrite list_lookup_insert_ne by done. by right. }
  assert (∀ j, j ≠ i → sent_by j wire' = sent_by j wire) as Hother.
  { intros j Hne. destruct Hwire as [->|(name & grp & -> & _)]; [done|].
    by rewrite sent_by_app, sent_by_other, app_nil_r. }
  split; simpl.
  - intros j x b k [[-> ->]|[Hne Hj]]%Hlook Hp Hc; [|by eauto].
    destruct (Hpass Hp) as [Hp'|Hnew]; [by eauto|by apply Hnew].
  - assert (∀ j x c, j ≠ i → as_ !! j = Some x → passed x → claim x = Some c → passed (set_pc pc a) →
      claim a = Some c → False) as Hclash.
    { intros j x [b k] Hne Hj Hp Hc Hp' Hc'. destruct (Hpass Hp') as [Hpa|Hnew].
      - apply Hne. by eapply Hun.
      - destruct (Hnew b k Hc') as [_ Hno]. by eapply Hno, Hcl. }
    intros j1 j2 x1 x2 c [[-> ->]|[Hne1 Hj1]]%Hlook [[-> ->]|[Hne2 Hj2]]%Hlook Hp1 Hp2 Hc1 Hc2;
      [done|by destruct (Hclash j2 x2 c)|by destruct (Hclash j1 x1 c)|by eauto].
  - intros j name grp raw Hin.
    assert ((j, name, grp, raw) ∈ wire ∨ j = i ∧ raw = ag_raw a ∧ passed (set_pc pc a) ∧
      targetGroup (ag_rt a) (ag_raw a) (ag_tx a) = Some (inl grp)) as [Hold|(-> & -> & Hp & Ht)].
    { destruct Hwire as [->|(n & g & -> & Hp & Ht)]; [by left|]. apply elem_of_app in Hin as [Hin|Hin]; [by left|].
      apply list_elem_of_singleton in Hin. simplify_eq. right. done. }
    + destruct (Hwi _ _ _ _ Hold) as (x & Hx & Hp & Hraw & Ht). destruct (decide (j = i)) as [->|Hne].
      * rewrite Hi in Hx. simplify_eq. exists (set_pc pc x). rewrite list_lookup_insert_eq by done. auto.
      * exists x. by rewrite list_lookup_insert_ne.
    + exists (set_pc pc a). by rewrite list_lookup_insert_eq.
  - intros j x grp names [[-> ->]|[Hne Hj]]%Hlook Hpc; [by eapply Htarget|by eapply Hse].
  - intros j x [[-> ->]|[Hne Hj]]%Hlook; [done|]. rewrite Hother by done. by apply Hon.
  - intros j x [[-> ->]|[Hne Hj]]%Hlook Hpc; [by apply Hfresh|]. rewrite Hother by done. by eapply Hfr.
  - intros j x [[-> ->]|[Hne Hj]]%Hlook; [exact (Hna i a Hi)|exact (Hna j x Hj)].
Qed.

(** An agent before the gate has sent nothing. *)
Lemma idle_silent st i a : fleet_ok st → fl_agents st !! i = Some a → ag_pc a = Idle →
  sent_by i (fl_wire st) = [].
Proof.
  intros Hok Hi Hpc. apply sent_by_nil. intros name grp raw Hin.
  destruct (fo_wire _ Hok _ _ _ _ Hin) as (x & Hx & Hp & _). rewrite Hi in Hx. simplify_eq.
  unfold passed in Hp. by rewrite Hpc in Hp.
Qed.

Lemma passing st i a : fleet_ok st → fl_agents st !! i = Some a →
  match ag_pc a with Idle | Suppressed => False | _ => True end →
  passed a ∧ NoDup (sent_by i (fl_wire st) ++ to_send a).
Proof. intros Hok Hi Hp. split; [done|]. by apply (fo_once _ Hok). Qed.

Lemma fleet_step_ok `{!BackendOk E, !ClaimFrame E, !OSOk E} st st' : fleet_step st st' → fleet_ok st → fleet_ok st'.
Proof.
  intros Hs Hok. destruct Hs as [e e' l wire i a Hi Hpc Hg|e e' l wire i a Hi Hpc Hg|e l wire i a err Hi Hpc Ht
    |e e' l wire i a grp names Hi Hpc Ht Hr|e e' l wire i a grp name names Hi Hpc Hw
    |e e' l wire i a grp name names err Hi Hpc Hw|e l wire i a grp Hi Hpc|e e' l wire Henv].
  - pose proof (idle_silent _ _ _ Hok Hi Hpc) as Hsil. simpl in Hsil. destruct (gate_claims a e true e' Hg) as [Hk _].
    apply (fleet_ok_move e e' l wire wire i a Suppressed Hok Hi);
      [done|done| |by left|done|rewrite Hsil; constructor|done].
    unfold passed. by rewrite Hpc.
  - pose proof (idle_silent _ _ _ Hok Hi Hpc) as Hsil. simpl in Hsil. destruct (gate_claims a e false e' Hg) as [Hk Hc].
    apply (fleet_ok_move e e' l wire wire i a Routing Hok Hi);
      [done| |done|by left|done|rewrite Hsil; constructor|done].
    intros _. right. intros b k Hbk. destruct (Hc b k Hbk) as [H1' H2']. split; [by apply H1'|]. intros Hb.
    by specialize (H2' Hb).
  - destruct (passing _ _ _ Hok Hi) as [Hp Ho]; [by rewrite Hpc|]. unfold to_send in Ho. rewrite Hpc in Ho.
    apply (fleet_ok_move e e l wire wire i a (Finished (Some err)) Hok Hi); by (done || left).
  - destruct (passing _ _ _ Hok Hi) as [Hp _]; [by rewrite Hpc|].
    pose proof (fo_fresh _ Hok _ _ Hi Hpc) as Hf. simpl in Hf.
    apply (fleet_ok_move e e' l wire wire i a (Sending grp names) Hok Hi); [|by left|done|by left| | |done].
    + intros b k Hb. pose proof (claimed_range b k _ (sockets (ag_rt a)) e Hb) as Hb'. by rewrite Hr in Hb'.
    + intros ?? [= <- <-]. done.
    + rewrite Hf. simpl. pose proof (range_order_perm _ (sockets (ag_rt a)) e) as Hp'. rewrite Hr in Hp'.
      simpl in Hp'. change (NoDup names). rewrite Hp'. by apply (fo_names _ Hok i).
  - destruct (passing _ _ _ Hok Hi) as [Hp Ho]; [by rewrite Hpc|]. unfold to_send in Ho. rewrite Hpc in Ho.
    pose proof (fo_sending _ Hok _ _ _ _ Hi Hpc) as Ht.
    apply (fleet_ok_move e e' l wire (wire ++ [(i, name, grp, ag_raw a)]) i a (Sending grp names) Hok Hi);
      [|by left|done|right; by exists name, grp| | |done].
    + intros b k Hb. pose proof (claimed_write b k (EgressSocket name) (ag_raw a) grp e Hb) as Hb'. by rewrite Hw in Hb'.
    + intros ?? [= <- <-]. done.
    + rewrite sent_by_app, sent_by_self, <- app_assoc. done.
  - destruct (passing _ _ _ Hok Hi) as [Hp Ho]; [by rewrite Hpc|]. apply NoDup_app in Ho as (Ho & _ & _).
    apply (fleet_ok_move e e' l wire wire i a (Finished (Some err)) Hok Hi);
      [|by left|done|by left|done|simpl; by rewrite app_nil_r|done].
    intros b k Hb. pose proof (claimed_write b k (EgressSocket name) (ag_raw a) grp e Hb) as Hb'. by rewrite Hw in Hb'.
  - destruct (passing _ _ _ Hok Hi) as [Hp Ho]; [by rewrite Hpc|]. unfold to_send in Ho. rewrite Hpc in Ho.
    apply (fleet_ok_move e e l wire wire i a (Finished None) Hok Hi); by (done || left).
  - destruct Hok as [Hcl ? ? ? ? ? ?]. split; simpl in *; try done. intros. eapply Henv, Hcl; done.
Qed.

Lemma fleet_reachable_ok `{!BackendOk E, !ClaimFrame E, !OSOk E} st st' : rtc fleet_step st st' → fleet_ok st → fleet_ok st'.
Proof. induction 1 as [|st st1 st' Hs _ IH]; [done|]. intros Hok. by eapply IH, fleet_step_ok. Qed.

Lemma launched_ok e as_ : Forall (λ a, ag_pc a = Idle ∧ NoDup (sockets (ag_rt a))) as_ → fleet_ok (mkFleet e as_ []).
Proof.
  intros Hall. assert (∀ i a, as_ !! i = Some a → ag_pc a = Idle ∧ NoDup (sockets (ag_rt a))) as Hi.
  { intros i a Ha. by apply (Forall_lookup_1 _ _ i a Hall). }
  assert (∀ i a, as_ !! i = Some a → ¬ passed a) as Hn.
  { intros i a Ha. unfold passed. destruct (Hi i a Ha) as [-> _]. by intros []. }
  split; simpl.
  - intros i a b k Ha Hp. by destruct (Hn i a Ha).
  - intros i j a a' c Ha _ Hp. by destruct (Hn i a Ha).
  - intros i name grp raw Hin. by apply not_elem_of_nil in Hin.
  - intros i a grp names Ha Hpc. destruct (Hi i a Ha) as [Hx _]. congruence.
  - intros i a Ha. unfold to_send. destruct (Hi i a Ha) as [-> _]. constructor.
  - done.
  - intros i a Ha. by destruct (Hi i a Ha).
Qed.

(** *** An agent left alone *)

(** The packets of agent 0 in a trace: its successful multicast writes. *)
Definition packets (evs : list event) : list packet :=
  omap (λ ev, match ev with EvWrite (EgressSocket n) grp raw true => Some (0%nat, n, grp, raw) | _ => None end) evs.

Lemma sendAll_agent r raw tx grp names w res w' wire :
  sendAll r raw grp names w = Some (res, w') → ∃ evs, w_events w' = w_events w ++ evs ∧
    rtc fleet_step (mkFleet (w_env w) [mkAgent r raw tx (Sending grp names)] wire)
      (mkFleet (w_env w') [mkAgent r raw tx (Finished res)] (wire ++ packets evs)).
Proof.
  revert w wire. induction names as [|n names IH]; intros w wire; cbn [sendAll].
  { intros [= <- <-]. exists []. rewrite !app_nil_r. split; [done|]. eapply rtc_l; [by eapply (fs_done _ _ _ 0)|]. apply rtc_refl. }
  rewrite run_bind. unfold write_to. rewrite run_act. destruct (sock_write _ raw grp (w_env w)) as [[err|] e1] eqn:Hw.
  - rewrite run_bind. unfold emit, when, gmodify. destruct (rt_rec r); intros [= <- <-]; simpl; rewrite <- ?app_assoc;
      (eexists; split; [reflexivity|]); simpl; rewrite app_nil_r;
      (eapply rtc_l; [by eapply (fs_send_error _ _ _ _ 0)|apply rtc_refl]).
  - intros Hs. destruct (IH _ (wire ++ [(0%nat, n, grp, raw)]) Hs) as (evs & He & Hr).
    exists (EvWrite (EgressSocket n) grp raw true :: evs). simpl in *. rewrite He, <- !app_assoc in *. split; [done|].
    eapply rtc_l; [by eapply (fs_sent _ _ _ _ 0)|exact Hr].
Qed.

(** The sequential code is one of the fleet's runs: alone, an agent does to the
    environment and the wire what [Retransmit] does, with the same result. *)
Lemma Retransmit_is_agent r raw tx w res w' : Retransmit r raw tx w = Some (res, w') →
  ∃ evs pc, w_events w' = w_events w ++ evs ∧
    rtc fleet_step (mkFleet (w_env w) [mkAgent r raw tx Idle] []) (mkFleet (w_env w') [mkAgent r raw tx pc] (packets evs)) ∧
    (pc = Suppressed ∧ res = Some ErrDedupSuppressed ∨ pc = Finished res).
Proof.
  unfold Retransmit. rewrite run_bind.
  destruct (dedupSuppressed r raw w) as [[sup w1]|] eqn:Hd; [|done].
  assert (gate r raw (w_env w) = (sup, w_env w1) ∧ ∃ evs, w_events w1 = w_events w ++ evs ∧ packets evs = []) as (Hg & evs0 & He0 & Hp0).
  { revert Hd. unfold dedupSuppressed, gate. destruct (dedup r) as [d|].
    2:{ intros [= <- <-]. split; [done|]. exists []. by rewrite app_nil_r. }
    destruct (decide (0 < length (buildDedupKey raw))%nat).
    2:{ intros [= <- <-]. split; [done|]. exists []. by rewrite app_nil_r. }
    rewrite run_bind. unfold env_op. rewrite run_act. destruct (SetNX _ _ _ _ _) as [[set err] e1]. destruct set.
    { intros [= <- <-]. split; [done|]. exists []. by rewrite app_nil_r. }
    rewrite run_bind. unfold emit, when, gmodify. destruct (rt_rec r); intros [= <- <-]; (split; [done|]); simpl;
      [by eexists|exists []; by rewrite app_nil_r]. }
  destruct sup.
  { intros [= <- <-]. exists evs0, Suppressed. rewrite Hp0. split_and!; [done| |by left].
    eapply rtc_l; [by eapply (fs_refused _ _ _ _ 0)|apply rtc_refl]. }
  rewrite run_bind. destruct (targetGroup r raw tx) as [[grp|gerr]|] eqn:Ht; [| |done]; simpl.
  - unfold env_op. destruct (range_order _ _ _) as [names e2] eqn:Hr. intros Hs.
    apply (sendAll_agent _ _ tx _ _ _ _ _ []) in Hs as (evs & He & Hrtc). exists (evs0 ++ evs), (Finished res).
    simpl in *. unfold packets. rewrite omap_app. fold (packets evs0). fold (packets evs). rewrite Hp0. simpl.
    split_and!; [by rewrite He, He0, app_assoc| |by right].
    eapply rtc_l; [by eapply (fs_claimed _ _ _ _ 0)|]. eapply rtc_l; [by eapply (fs_route _ _ _ _ 0)|]. exact Hrtc.
  - intros [= <- <-]. exists evs0, (Finished (Some gerr)). rewrite Hp0. split_and!; [done| |by right].
    eapply rtc_l; [by eapply (fs_claimed _ _ _ _ 0)|]. eapply rtc_l; [by eapply (fs_no_group _ _ _ 0)|]. apply rtc_refl.
Qed.

(** ** Theorems *)

(** C14: within the dedup window one endpoint multicasts a frame. Whatever number of
    endpoints share a dedup store and however their retransmits interleave, all
    the datagrams on the wire that carry one HashKey and SeqNum come from one
    retransmit of one endpoint, at most one per egress interface, each a verbatim
    copy of that endpoint's cached frame to the frame's group. *)
Theorem fleet_single_sender (e : E) (agents : list agent) (st : fleet) :
  BackendOk E → ClaimFrame E → OSOk E →
  Forall (λ a, ag_pc a = Idle ∧ NoDup (sockets (ag_rt a))) agents →
  rtc fleet_step (mkFleet e agents []) st →
  (∀ i j a a' d p p', fl_agents st !! i = Some a → fl_agents st !! j = Some a' →
     p ∈ fl_wire st → p' ∈ fl_wire st → p.1.1.1 = i → p'.1.1.1 = j →
     dedup (ag_rt a) = Some d → dedup (ag_rt a') = Some d →
     (56 ≤ length (ag_raw a))%nat → (56 ≤ length (ag_raw a'))%nat →
     field 40 56 (ag_raw a) = field 40 56 (ag_raw a') → i = j) ∧
  (∀ i, (i < length (fl_agents st))%nat → NoDup (sent_by i (fl_wire st))) ∧
  (∀ i name grp raw, (i, name, grp, raw) ∈ fl_wire st → ∃ a, fl_agents st !! i = Some a ∧ ag_raw a = raw ∧
     targetGroup (ag_rt a) raw (ag_tx a) = Some (inl grp)).
Proof.
  intros Hbe Hcf Hos Hall Hr. assert (fleet_ok st) as Hok by (eapply fleet_reachable_ok, launched_ok; done).
  split_and!.
  - intros i j a a' d p p' Ha Ha' Hp Hp' Hi Hj Hd Hd' Hl Hl' Hf.
    destruct p as [[[i' n] g] x], p' as [[[j' n'] g'] x']. simpl in Hi, Hj. subst.
    destruct (fo_wire _ Hok _ _ _ _ Hp) as (b & Hb & Hpb & _), (fo_wire _ Hok _ _ _ _ Hp') as (b' & Hb' & Hpb' & _).
    simplify_eq. eapply (fo_unique _ Hok _ _ _ _ (st_b d, key d (buildDedupKey (ag_raw a)))); try done; unfold claim.
    + rewrite Hd. simpl. by rewrite decide_True.
    + rewrite Hd'. simpl. rewrite decide_True by done. unfold buildDedupKey. by rewrite !decide_False, Hf by lia.
  - intros i Hi. destruct (lookup_lt_is_Some_2 _ _ Hi) as [a Ha]. pose proof (fo_once _ Hok _ _ Ha) as Ho.
    by apply NoDup_app in Ho as [Ho _].
  - intros i name grp raw Hin. destruct (fo_wire _ Hok _ _ _ _ Hin) as (a & ? & _ & ? & ?). eauto.
Qed.
End model.

(** ** Instances *)
Section instances.
Import RefEnv.

Definition agent0 : agent (E := renv) := mkAgent rt0 tx_frame (replicate 32 xab) Idle.
(** The claim of agent 0, then agent 1 is refused between its two writes. *)
Definition fleet1 : fleet (E := renv) :=
  mkFleet (gate rt0 tx_frame (gate rt0 tx_frame env0).2).2
    [set_pc (Sending (shardGroup rt0 (eng_GroupIndex (engine rt0) (replicate 32 xab))) ["eth1"%string]) agent0;
     set_pc Suppressed agent0]
    [(0%nat, "eth0"%string, shardGroup rt0 (eng_GroupIndex (engine rt0) (replicate 32 xab)), tx_frame)].

Lemma fleet1_reachable : rtc fleet_step (mkFleet env0 [agent0; agent0] []) fleet1.
Proof.
  eapply rtc_l; [by eapply (fs_claimed _ _ _ _ 0)|]. eapply rtc_l; [by eapply (fs_route _ _ _ _ 0)|].
  eapply rtc_l; [by eapply (fs_sent _ _ _ _ 0)|]. eapply rtc_l; [by eapply (fs_refused _ _ _ _ 1)|].
  apply rtc_refl.
Qed.

Lemma fleet_single_sender_witness : fl_wire fleet1 ≠ [] ∧ NoDup (sent_by 0 (fl_wire fleet1)).
Proof.
  destruct (fleet_single_sender env0 [agent0; agent0] fleet1) as (_ & Hnd & _);
    [apply _|apply _|apply _| |apply fleet1_reachable|].
  - repeat constructor; try done; simpl; set_solver.
  - split; [done|]. apply Hnd. simpl. lia.
Defined.
End instances.

End Fleet.
