(* ===== verification/Proxy.v ===== *)
(** * The cross-domain NACK proxy

    Models src/proxy/proxy.go: the bounded job queue, the worker's [recover]
    (claim, fetch from upstream, re-cache, deliver), the proxied NACK it sends
    and the read loop that waits for the frame, and the re-cache TTL.

    The queue is the channel of the [world]; a worker takes its head
    ([worker_step]). The fetch socket, name resolution and the context are the
    class [FetchNet]; the cache, claim store and retransmitter are the client's
    interfaces. *)

From S2P Require Import Prelude GoNet External RefEnv RateLimit World CacheStore Retransmit.
From Stdlib Require Import Strings.Byte.
Import GoNet External World CacheStore.

Module Proxy.

Definition nackSize : nat := 64.
Definition respSize : nat := 16.
Definition msgTypeNACK : byte := x10.
Definition msgTypeMISS : byte := x11.
Definition msgTypeACK : byte := x12.
Definition FlagProxied : Z := 0x01.

Definition Millisecond : Z := 1000000.
Definition Second : Z := 1000000000.

Record TTLConfig := mkTTLs { Tx : Z; Block : Z; Subtree : Z; Anchor : Z; BEEF : Z }.

(** [net.JoinHostPort]: brackets around a host that contains a colon or a
    percent sign. *)
Definition JoinHostPort (host port : string) : string :=
  if existsb (λ b, bool_decide (b = x3a) || bool_decide (b = x25)) (bytes_of_string host)
  then ("[" +:+ host +:+ "]:" +:+ port)%string else (host +:+ ":" +:+ port)%string.

Section model.
Context {E : Type} `{!RateLib E, !OS E, !Backend E, !FetchNet E, !FrameLib}.

Record Config := mkConfig {
  Upstreams : list string;
  SourceIP : option bytes;
  Timeout : Z;
  MaxEndpoints : Z;
  DedupWindow : Z;
  Workers : Z;
  QueueDepth : Z;
  Dedup : option Store;
  Cache : CacheI E;
  Retrans : RetransI E;
  TTLs : TTLConfig;
  Rec : bool;
  Multicast : bool;
  Unicast : bool;
}.

(** The client is its configuration with the defaults applied; its queue is
    the world's. *)
Definition New (cfg : Config) : Config :=
  let n := Z.of_nat (length (Upstreams cfg)) in
  mkConfig (Upstreams cfg) (SourceIP cfg)
    (if Timeout cfg <=? 0 then 300 * Millisecond else Timeout cfg)
    (if (MaxEndpoints cfg <=? 0) || (n <? MaxEndpoints cfg) then n else MaxEndpoints cfg)
    (if DedupWindow cfg <=? 0 then 60 * Second else DedupWindow cfg)
    (if Workers cfg <=? 0 then 4 else Workers cfg)
    (if QueueDepth cfg <=? 0 then 1024 else QueueDepth cfg)
    (Dedup cfg) (Cache cfg) (Retrans cfg) (TTLs cfg) (Rec cfg) (Multicast cfg) (Unicast cfg).

(** A non-blocking send on the queue channel: true when there was room. *)
Definition trySend (cap : Z) (j : job) : GoM (world E) bool := act (λ w,
  if Z.of_nat (length (w_queue w)) <? cap
  then Some (true, mkWorld (w_env w) (w_lim w) (w_queue w ++ [j]) (w_events w))
  else Some (false, w)).

(** A receive from the queue channel: [None] when it is empty. *)
Definition tryRecv : GoM (world E) (option job) := act (λ w,
  match w_queue w with
  | [] => Some (None, w)
  | j :: q => Some (Some j, mkWorld (w_env w) (w_lim w) q (w_events w))
  end).

Definition Enqueue (c : Config) (hashKey seq : Z) (subtree : bytes) (requester : option udpaddr)
  : GoM (world E) bool :=
  sent ← trySend (QueueDepth c) (mkJob hashKey seq subtree requester);
  if sent : bool then mret true
  else _ ← emit (Rec c) ProxyQueueDropped; mret false.

Definition ttlFor (c : Config) (ver : byte) : Z :=
  if decide (ver = FrameVerV4) then Block (TTLs c)
  else if decide (ver = FrameVerV5) then Subtree (TTLs c)
  else if decide (ver = FrameVerV6) then Anchor (TTLs c)
  else if decide (ver = FrameVerV9) then BEEF (TTLs c)
  else Tx (TTLs c).

(** Re-caches a recovered frame under its own HashKey and SeqNum. *)
Definition store (c : Config) (raw : bytes) : GoM (world E) (option gerror) :=
  if decide (length raw < HeaderSize)%nat then mret (Some (ErrText "proxy: short frame")) else
  hk ← liftO (gsub 40 48 raw);
  sq ← liftO (gsub 48 56 raw);
  ver ← liftO (raw !! 6%nat);
  env_op (@cache_Store E (Cache c) (hk ++ sq) raw (ttlFor c ver)).

(** The proxied NACK for a job. *)
Definition buildNACK (j : job) : option bytes :=
  b ← gput 0 (be_enc 4 MagicBSV) (replicate nackSize x00);
  b ← gput 4 (be_enc 2 ProtoVer) b;
  b ← gset_byte 6 msgTypeNACK b;
  b ← gset_byte 7 (Z_byte FlagProxied) b;
  b ← gput 8 (be_enc 8 (j_hashKey j)) b;
  b ← gput 16 (be_enc 8 (j_seq j)) b;
  b ← gput 24 (be_enc 8 (j_seq j)) b;
  gput 32 (j_subtree j) b.

(** Is a datagram a frame return? *)
Definition isFrame (d : bytes) : option bool :=
  if decide (HeaderSize ≤ length d)%nat then
    m ← gsub 0 4 d ≫= BE_Uint32;
    b ← d !! 6%nat;
    Some (bool_decide (m = MagicBSV) && bool_decide (b ≠ msgTypeACK) &&
          bool_decide (b ≠ msgTypeMISS))
  else Some false.

(** A 16-byte MISS response. *)
Definition is_miss (d : bytes) : bool :=
  bool_decide (length d = respSize ∧ d !! 6%nat = Some msgTypeMISS).

(** The read loop over the datagrams that arrive before the deadline. *)
Fixpoint readLoop (ds : list bytes) : option (option bytes) :=
  match ds with
  | [] => Some None
  | d :: ds' =>
      fr ← isFrame d;
      if fr : bool then Some (Some d)
      else if is_miss d then Some None
      else readLoop ds'
  end.

Definition fetch (c : Config) (endpoint : string) (j : job) : GoM (world E) (option bytes) :=
  addr ← env_op (net_ResolveUDPAddr endpoint);
  match addr with
  | inr _ => mret None
  | inl addr =>
      let laddr := match SourceIP c with
                   | Some ip => JoinHostPort (IP_String ip) "0"
                   | None => "[::]:0"%string
                   end in
      err ← env_op (net_ListenPacket laddr);
      match err : option gerror with
      | Some _ => mret None
      | None =>
          nack ← liftO (buildNACK j);
          err ← write_to FetchSocket nack addr;
          match err with
          | Some _ => mret None
          | None =>
              ds ← env_op (net_arrivals (Timeout c));
              liftO (readLoop ds)
          end
      end
  end.

(** The in-flight claim's key: the gap, and the requester when the recovered
    frame will be unicast to it. *)
Definition gapKey (j : job) : bytes := be_enc 8 (j_hashKey j) ++ be_enc 8 (j_seq j).
Definition claimSuffix (c : Config) (j : job) : bytes :=
  match Unicast c, j_requester j with
  | true, Some req => ua_IP req ++ [Z_byte (Z.shiftr (ua_Port req) 8); Z_byte (ua_Port req)]
  | _, _ => []
  end.
Definition claimKey (c : Config) (j : job) : bytes := gapKey j ++ claimSuffix c j.

Definition ip_port (a : udpaddr) : bytes * Z := (ua_IP a, ua_Port a).

(** After a successful fetch: re-cache, deliver, count. *)
Definition deliver (c : Config) (j : job) (raw : bytes) : GoM (world E) unit :=
  _ ← store c raw;
  _ ← (if Multicast c then
         txID ← liftO (gsub 8 40 raw);
         err ← @rt_Retransmit E _ (Retrans c) raw txID;
         match err with
         | None => emit (Rec c) External.Retransmit
         | Some _ => mret tt
         end
       else mret tt);
  _ ← match Unicast c, j_requester j with
      | true, Some req =>
          err ← @rt_RetransmitUnicast E _ (Retrans c) raw req;
          match err with
          | None => emit (Rec c) UnicastRetransmit
          | Some _ => mret tt
          end
      | _, _ => mret tt
      end;
  emit (Rec c) ProxyRecovered.

(** [for i < MaxEndpoints]; [n] endpoints are left, [i] is the next. *)
Fixpoint tryUpstreams (c : Config) (j : job) (n i : nat) : GoM (world E) unit :=
  match n with
  | O => emit (Rec c) (ProxyFailed "exhausted")
  | S n' =>
      done ← env_op ctx_Done;
      if done : bool then mret tt else
      endpoint ← liftO (Upstreams c !! i);
      r ← fetch c endpoint j;
      match r with
      | None => tryUpstreams c j n' (S i)
      | Some raw => deliver c j raw
      end
  end.

(** The claim: false when another request holds it. An error proceeds. *)
Definition claim (c : Config) (j : job) : GoM (world E) bool :=
  match Dedup c with
  | None => mret true
  | Some d =>
      '(set, err) ← env_op (SetNX d (claimKey c j) (bytes_of_string "1") (DedupWindow c));
      match err : option gerror with
      | Some _ => mret true
      | None =>
          if set : bool then mret true
          else _ ← emit (Rec c) ProxyInflightDedup; mret false
      end
  end.

Definition recover (c : Config) (j : job) : GoM (world E) unit :=
  _ ← emit (Rec c) ProxyRequest;
  claimed ← claim c j;
  if claimed : bool then tryUpstreams c j (Z.to_nat (MaxEndpoints c)) 0 else mret tt.

(** One turn of a worker: take the head of the queue and recover it. *)
Definition worker_step (c : Config) : GoM (world E) unit :=
  next ← tryRecv;
  match next with
  | None => mret tt
  | Some j => recover c j
  end.

(** *Client implements the server's ProxyEnqueuer. *)
Definition proxy_iface (c : Config) : ProxyI E := {| px_Enqueue := Enqueue c |}.

(** ** Lemmas *)

(** The layout of the proxied NACK. *)
Lemma buildNACK_eq j : length (j_subtree j) = 32%nat →
  buildNACK j = Some (be_enc 4 MagicBSV ++ be_enc 2 ProtoVer ++ [msgTypeNACK] ++
    [Z_byte FlagProxied] ++ be_enc 8 (j_hashKey j) ++ be_enc 8 (j_seq j) ++
    be_enc 8 (j_seq j) ++ j_subtree j).
Proof.
  intros Hs. unfold buildNACK, gset_byte.
  rewrite gput_first by (rewrite length_be_enc; unfold nackSize; lia).
  cbn [mbind option_bind].
  repeat (rewrite app_assoc; rewrite gput_next;
    [cbn [mbind option_bind]
    |by rewrite ?length_app, ?length_be_enc
    |rewrite ?length_be_enc, ?Hs; unfold nackSize; simpl; lia]).
  rewrite !length_be_enc, Hs. cbn [length nackSize Nat.sub replicate].
  by rewrite app_nil_r, <- !app_assoc.
Qed.

Lemma wpi_trySend (P : E → Prop) (I : RateLimit.Limiter → list job → Prop) cap j :
  (∀ l q, I l q → Z.of_nat (length q) < cap → I l (q ++ [j])) →
  wpi P I (trySend cap j) (λ (ok : bool) evs jobs, evs = [] ∧ jobs = if ok then [j] else []).
Proof.
  intros HI. apply wpi_act. intros w Hp Hw. destruct (_ <? _) eqn:Hc; eexists _, _, [], _; rewrite app_nil_r;
    (split_and!; [done|exact Hp| |done| |done|reflexivity]); simpl; rewrite ?app_nil_r; auto with lia.
Qed.

Lemma enqueue_ok c : @ProxyOk E _ (QueueDepth c) (proxy_iface c).
Proof.
  split. intros P I hk sq sub req HI. simpl. unfold Enqueue. wpi_step. eapply wpi_mono; [by apply wpi_trySend|].
  intros sent evs jobs [-> ->]. destruct sent; [wpi_step; split; [constructor|done]|].
  wpi_step. wpi_step. wpi_step. split; [apply metrics_only_metric|done].
Qed.

(** What one recovery may put on the wire, [raw] being the recovered frame:
    the job's proxied NACK to upstreams, multicast copies in multicast mode
    and unicast copies to the requester in unicast mode. *)
Definition recover_event (c : Config) (j : job) (raw : bytes) (ev : event) : Prop :=
  match ev with
  | EvMetric _ => True
  | EvWrite FetchSocket _ b _ => buildNACK j = Some b
  | EvWrite (EgressSocket _) _ b _ => Multicast c = true ∧ b = raw
  | EvWrite UnicastSocket d b _ => Unicast c = true ∧ j_requester j = Some d ∧ b = raw
  | EvWrite _ _ _ _ => False
  end.

Definition is_fetch (ev : event) : Prop :=
  match ev with EvWrite FetchSocket _ _ _ => True | _ => False end.
#[global] Instance is_fetch_dec ev : Decision (is_fetch ev).
Proof. destruct ev as [|[]]; simpl; apply _. Defined.

Lemma metrics_recover c j raw evs :
  metrics_only evs → Forall (recover_event c j raw) evs ∧ filter is_fetch evs = [].
Proof. induction 1 as [|[] evs Hev _ [IH1 IH2]]; [done| |done]. split; [by constructor|done]. Qed.

Lemma mc_recover c j raw evs : Multicast c = true → mc_only raw evs →
  Forall (recover_event c j raw) evs ∧ filter is_fetch evs = [].
Proof. intros ?. induction 1 as [|[|[]] evs Hev _ [IH1 IH2]]; try done; (split; [by constructor|done]). Qed.

Lemma uc_recover c j raw dst evs : Unicast c = true → j_requester j = Some dst → uc_only raw dst evs →
  Forall (recover_event c j raw) evs ∧ filter is_fetch evs = [].
Proof.
  intros ??. induction 1 as [|[|[]] evs Hev _ [IH1 IH2]]; try done; (split; [|done]); constructor; try done.
  destruct Hev as [-> ->]. done.
Qed.

(** The events of a part of a recovery: of the allowed kinds, at most [n] of
    them NACKs. *)
Definition recovering (c : Config) (j : job) (raw : bytes) (n : nat) (evs : list event) : Prop :=
  Forall (recover_event c j raw) evs ∧ (length (filter is_fetch evs) ≤ n)%nat.

Lemma recovering_nil c j raw n : recovering c j raw n [].
Proof. split; [constructor|simpl; lia]. Qed.

Lemma recovering_app c j raw n1 n2 evs1 evs2 :
  recovering c j raw n1 evs1 → recovering c j raw n2 evs2 → recovering c j raw (n1 + n2) (evs1 ++ evs2).
Proof.
  intros [Hf1 Hn1] [Hf2 Hn2]. split; [by apply Forall_app|]. rewrite filter_app, length_app. lia.
Qed.

Lemma recovering_app0 c j raw n evs1 evs2 :
  recovering c j raw 0 evs1 → recovering c j raw n evs2 → recovering c j raw n (evs1 ++ evs2).
Proof. apply (recovering_app _ _ _ 0). Qed.

Lemma recovering_none c j raw n evs :
  Forall (recover_event c j raw) evs ∧ filter is_fetch evs = [] → recovering c j raw n evs.
Proof. intros [Hf Hn]. split; [done|]. rewrite Hn. simpl. lia. Qed.

Lemma recovering_metric c j raw n (rec : bool) m : recovering c j raw n (if rec then [EvMetric m] else []).
Proof. apply recovering_none, metrics_recover, metrics_only_metric. Qed.
#[local] Hint Resolve recovering_nil recovering_app0 recovering_metric : trace.

Lemma isFrame_total `{!FrameLibOk} d : is_Some (isFrame d).
Proof.
  unfold isFrame. rewrite header_size. case_decide; [|done].
  rewrite gsub_Some by lia. simpl. rewrite BE_Uint32_Some by (rewrite length_field; lia). simpl.
  destruct (lookup_lt_is_Some_2 d 6) as [b ->]; [lia|]. done.
Qed.

Lemma isFrame_length d : isFrame d = Some true → (HeaderSize ≤ length d)%nat.
Proof. unfold isFrame. case_decide; [done|]. intros [=]. Qed.

Lemma readLoop_total `{!FrameLibOk} ds :
  ∃ r, readLoop ds = Some r ∧ (∀ raw, r = Some raw → (92 ≤ length raw)%nat).
Proof.
  induction ds as [|d ds IH]; [by exists None|]. simpl.
  destruct (isFrame_total d) as [[] Hd]; rewrite Hd; simpl.
  - eexists. split; [done|]. intros raw [= <-]. apply isFrame_length in Hd.
    by rewrite header_size in Hd.
  - destruct (is_miss d); [by exists None|done].
Qed.

(** Closes a branch that does nothing more. *)
#[local] Ltac quiet := wpi_step; split_and!; auto with trace.

(** What a recovery does to its environment, its retransmits apart, keeps [P]: the
    only frames it stores are stored under their own key. *)
Class RecoveryEnv (P : E → Prop) (c : Config) : Prop := {
  pe_resolve :: ∀ ep, Keeps P (net_ResolveUDPAddr ep);
  pe_listen :: ∀ l, Keeps P (net_ListenPacket l);
  pe_arrivals :: ∀ t, Keeps P (net_arrivals t);
  pe_done :: Keeps P ctx_Done;
  pe_write :: ∀ s b dst, Keeps P (sock_write s b dst);
  pe_claim : ∀ d k v ttl, Dedup c = Some d → Keeps P (SetNX d k v ttl);
  pe_store :: ∀ raw ttl, Keeps P (@cache_Store E (Cache c) (field 40 56 raw) raw ttl);
}.
#[global] Instance recoveryEnv_any c : RecoveryEnv (λ _, True) c.
Proof. split; apply _. Qed.

Section contract.
Context `{!FrameLibOk} (P : E → Prop) (I : RateLimit.Limiter → list job → Prop) (c : Config) `{!RecoveryEnv P c}.

Lemma wpi_fetch ep j : length (j_subtree j) = 32%nat →
  wpi P I (fetch c ep j) (λ r evs jobs, jobs = [] ∧ (∀ raw, recovering c j raw 1 evs) ∧
    (∀ raw, r = Some raw → (92 ≤ length raw)%nat)).
Proof.
  intros Hs. unfold fetch. wpi_step. wpi_step.
  destruct a as [addr|]; [|by quiet].
  wpi_step. wpi_step. destruct a as [err|]; [by quiet|].
  wpi_step. eapply wpi_liftO; [by apply buildNACK_eq|]. wpi_step. wpi_step.
  assert (∀ b raw, recovering c j raw 1 [EvWrite FetchSocket addr
     (be_enc 4 MagicBSV ++ be_enc 2 ProtoVer ++ [msgTypeNACK] ++ [Z_byte FlagProxied] ++
      be_enc 8 (j_hashKey j) ++ be_enc 8 (j_seq j) ++ be_enc 8 (j_seq j) ++ j_subtree j) b]) as Hst.
  { intros b raw. split; [|done]. repeat constructor. by apply buildNACK_eq. }
  destruct err; [wpi_step; split_and!; [done|intros; apply Hst|done]|].
  wpi_step. wpi_step. destruct (readLoop_total a) as (r & Hr & Hlen). eapply wpi_liftO; [exact Hr|].
  rewrite ?app_nil_r. split_and!; [done|intros; apply Hst|exact Hlen].
Qed.

Lemma wpi_store raw : (92 ≤ length raw)%nat →
  wpi P I (store c raw) (λ _ evs jobs, jobs = [] ∧ evs = []).
Proof.
  intros Hl. unfold store. rewrite header_size, decide_False by lia.
  destruct (lookup_lt_is_Some_2 raw 6) as [ver Hv]; [lia|].
  wpi_step. eapply wpi_liftO; [apply gsub_Some; lia|]. wpi_step. eapply wpi_liftO; [apply gsub_Some; lia|].
  wpi_step. eapply wpi_liftO; [exact Hv|]. rewrite field_app_adj by lia. by wpi_step.
Qed.

Context (Hrt : @RetransOn _ _ P (Retrans c)).

(** The optional send of a recovered frame, counted when it succeeds. *)
Lemma wpi_counted j raw (m : GoM (world E) (option gerror)) ev :
  wpi P I m (λ _ evs jobs, jobs = [] ∧ recovering c j raw 0 evs) →
  wpi P I (err ← m; match err with None => emit (Rec c) ev | Some _ => mret tt end)
    (λ _ evs jobs, jobs = [] ∧ recovering c j raw 0 evs).
Proof.
  intros Hm. wpi_step. eapply wpi_mono; [exact Hm|]. intros err evs jobs [-> Hr].
  destruct err; wpi_step; [done|]. auto with trace.
Qed.

Lemma wpi_deliver j raw : (92 ≤ length raw)%nat →
  wpi P I (deliver c j raw) (λ _ evs jobs, jobs = [] ∧ recovering c j raw 0 evs).
Proof.
  intros Hl. unfold deliver. wpi_step. eapply wpi_mono; [by apply wpi_store|]. intros ? ? ? [-> ->].
  wpi_step. eapply (wpi_mono _ _ _ (λ _ evs jobs, jobs = [] ∧ recovering c j raw 0 evs)).
  { destruct (Multicast c) eqn:Hm; [|by quiet].
    wpi_step. eapply wpi_liftO; [apply gsub_Some; lia|]. apply wpi_counted.
    eapply wpi_mono; [apply rt_multicast; rewrite length_field; lia|].
    intros err evs jobs (-> & Hmc & _). split; [done|]. by apply recovering_none, mc_recover. }
  intros ? evs1 ? [-> H1]. wpi_step. eapply (wpi_mono _ _ _ (λ _ evs jobs, jobs = [] ∧ recovering c j raw 0 evs)).
  { destruct (Unicast c) eqn:Hu, (j_requester j) as [req|] eqn:Hreq; try by quiet.
    apply wpi_counted. eapply wpi_mono; [apply rt_unicast|].
    intros err evs jobs (-> & Huc & _). split; [done|]. by eapply recovering_none, uc_recover. }
  intros ? evs2 ? [-> H2]. wpi_step. cbn [app]. auto with trace.
Qed.

Lemma wpi_tryUpstreams j n i :
  length (j_subtree j) = 32%nat → (i + n ≤ length (Upstreams c))%nat →
  wpi P I (tryUpstreams c j n i) (λ _ evs jobs, jobs = [] ∧ ∃ raw, recovering c j raw n evs).
Proof.
  intros Hs. revert i. induction n as [|n IH]; intros i Hi; cbn [tryUpstreams].
  { wpi_step. split; [done|]. exists []. auto with trace. }
  wpi_step. wpi_step. destruct a; [wpi_step; split; [done|]; exists []; auto with trace|].
  destruct (lookup_lt_is_Some_2 (Upstreams c) i) as [ep Hep]; [lia|].
  wpi_step. eapply wpi_liftO; [exact Hep|]. wpi_step.
  eapply wpi_mono; [by apply wpi_fetch|]. intros r evs1 ? (-> & Hf & Hr). destruct r as [raw|].
  - eapply wpi_mono; [apply wpi_deliver, Hr; reflexivity|]. intros ? evs2 ? [-> H2]. split; [done|]. exists raw.
    pose proof (recovering_app _ _ _ _ _ _ _ (Hf raw) H2) as [? ?]. cbn [app]. split; [done|lia].
  - eapply wpi_mono; [apply IH; lia|]. intros ? evs2 ? [-> [raw H2]]. split; [done|]. exists raw.
    by apply (recovering_app _ _ _ 1 n).
Qed.

Lemma wpi_recover j :
  length (j_subtree j) = 32%nat → MaxEndpoints c ≤ Z.of_nat (length (Upstreams c)) →
  wpi P I (recover c j) (λ _ evs jobs, jobs = [] ∧ ∃ raw, recovering c j raw (Z.to_nat (MaxEndpoints c)) evs).
Proof.
  intros Hs Hm. unfold recover. wpi_step. wpi_step. wpi_step.
  eapply (wpi_mono _ _ _ (λ ok evs jobs, jobs = [] ∧ ∀ raw, recovering c j raw 0 evs)).
  { unfold claim. destruct (Dedup c) as [d|] eqn:Hd; [|by quiet].
    pose proof (pe_claim d (claimKey c j) (bytes_of_string "1") (DedupWindow c) Hd). wpi_step. wpi_step. destruct a as [set [err|]]; [by quiet|].
    destruct set; [by quiet|]. wpi_step. wpi_step. wpi_step. auto with trace. }
  intros ok evs1 ? [-> H1]. destruct ok.
  - eapply wpi_mono; [apply wpi_tryUpstreams; [done|lia]|]. intros ? evs2 ? [-> [raw H2]]. split; [done|]. exists raw.
    cbn [app]. auto with trace.
  - wpi_step. split; [done|]. exists []. apply recovering_app0; [apply recovering_metric|].
    destruct (H1 []) as [? ?]. split; [done|lia].
Qed.
End contract.

Lemma New_endpoints cfg :
  0 ≤ MaxEndpoints (New cfg) ≤ Z.of_nat (length (Upstreams (New cfg))).
Proof. simpl. repeat case_match; lia. Qed.

Lemma New_depth cfg : 0 ≤ QueueDepth (New cfg).
Proof. simpl. case_match; lia. Qed.

(** *** The queue as a state machine: requests arriving from the server, jobs
    taken by workers *)
Inductive px_step (c : Config) (w : world E) : world E → Prop :=
| px_enqueue_step hk sq sub req ok w' :
    length sub = 32%nat → Enqueue c hk sq sub req w = Some (ok, w') → px_step c w w'
| px_worker_step w' : worker_step c w = Some (tt, w') → px_step c w w'.

Definition queue_inv (c : Config) (w : world E) : Prop :=
  Z.of_nat (length (w_queue w)) ≤ QueueDepth c ∧
  Forall (λ j, length (j_subtree j) = 32%nat) (w_queue w).

(** A recovery that runs alone. *)
Lemma wp_recover `{!FrameLibOk} c j w :
  RetransOk (Retrans c) → length (j_subtree j) = 32%nat → MaxEndpoints c ≤ Z.of_nat (length (Upstreams c)) →
  wp (recover c j) (λ _ w', ∃ evs, extends w w' evs ∧ ∃ raw, recovering c j raw (Z.to_nat (MaxEndpoints c)) evs) w.
Proof.
  intros Hrt Hs Hm. apply (wpi_extends _ (λ _ evs, ∃ raw, recovering c j raw _ evs)). intros I. apply wpi_recover; [apply _|done..].
Qed.

(** *** What a recovery is meant to do, as a relation *)

(** A counter of the recorder, if there is one. *)
Definition counted (c : Config) (m : metric) (w : world E) : world E := if Rec c then add_event (EvMetric m) w else w.

Definition with_env (e : E) (w : world E) : world E := mkWorld e (w_lim w) (w_queue w) (w_events w).

(** A delivery was made, and counted if it succeeded. *)
Definition sent (c : Config) (m : GoM (world E) (option gerror)) (ev : metric) (w w' : world E) : Prop :=
  ∃ err w1, m w = Some (err, w1) ∧ w' = if decide (err = None) then counted c ev w1 else w1.

(** A recovered frame is put back into the cache under its own flow key with the TTL
    of its version; multicast in multicast mode; unicast in unicast mode to a
    requester that is known; and counted. *)
Definition delivered (c : Config) (j : job) (raw : bytes) (w w' : world E) : Prop :=
  ∃ ver w1 w2 w3, raw !! 6%nat = Some ver ∧
    w1 = with_env (@cache_Store E (Cache c) (field 40 56 raw) raw (ttlFor c ver) (w_env w)).2 w ∧
    (if Multicast c then sent c (@rt_Retransmit E _ (Retrans c) raw (field 8 40 raw)) External.Retransmit w1 w2
     else w2 = w1) ∧
    (match j_requester j with
     | Some req =>
         if Unicast c then sent c (@rt_RetransmitUnicast E _ (Retrans c) raw req) UnicastRetransmit w2 w3 else w3 = w2
     | None => w3 = w2
     end) ∧
    w' = counted c ProxyRecovered w3.

(** The upstreams from [i] on, [n] of them, were asked in turn and none returned a
    frame. *)
Inductive unanswered (c : Config) (j : job) : nat → nat → world E → world E → Prop :=
| un_none i w : unanswered c j i 0 w w
| un_next i n ep e w w1 w' :
    ctx_Done (w_env w) = (false, e) → Upstreams c !! i = Some ep →
    fetch c ep j (with_env e w) = Some (None, w1) → unanswered c j (S i) n w1 w' →
    unanswered c j i (S n) w w'.

(** The end of a recovery that asks [n] upstreams from [i] on: cancelled before an
    upstream was asked, all of them asked in vain, or the first frame delivered. *)
Definition concluded (c : Config) (j : job) (i n : nat) (w w' : world E) : Prop :=
  ∃ k w1, (k ≤ n)%nat ∧ unanswered c j i k w w1 ∧
    ((∃ e, (k < n)%nat ∧ ctx_Done (w_env w1) = (true, e) ∧ w' = with_env e w1) ∨
     (k = n ∧ w' = counted c (ProxyFailed "exhausted") w1) ∨
     (∃ e ep raw w2, (k < n)%nat ∧ ctx_Done (w_env w1) = (false, e) ∧ Upstreams c !! (i + k)%nat = Some ep ∧
        fetch c ep j (with_env e w1) = Some (Some raw, w2) ∧ isFrame raw = Some true ∧ delivered c j raw w2 w')).

(** A claim on the gap: granted, not needed or undecided because of an error; or held
    by another request. *)
Definition claimed (c : Config) (j : job) (w w' : world E) : Prop :=
  match Dedup c with
  | None => w' = w
  | Some d => ∃ set err e, SetNX d (claimKey c j) (bytes_of_string "1") (DedupWindow c) (w_env w) = ((set, err), e) ∧
      (err ≠ None ∨ set = true) ∧ w' = with_env e w
  end.
Definition held_elsewhere (c : Config) (j : job) (w w' : world E) : Prop :=
  ∃ d e, Dedup c = Some d ∧
    SetNX d (claimKey c j) (bytes_of_string "1") (DedupWindow c) (w_env w) = ((false, None), e) ∧
    w' = counted c ProxyInflightDedup (with_env e w).

Definition recovery (c : Config) (j : job) (w w' : world E) : Prop :=
  let w0 := counted c ProxyRequest w in
  held_elsewhere c j w0 w' ∨
  ∃ w1, claimed c j w0 w1 ∧ concluded c j 0 (Z.to_nat (MaxEndpoints c)) w1 w'.

Lemma run_emit c m w : emit (Rec c) m w = Some (tt, counted c m w).
Proof. unfold emit, counted. by destruct (Rec c). Qed.

Lemma run_liftO {A} (a : A) (o : option A) (w : world E) : o = Some a → liftO o w = Some (a, w).
Proof. by intros ->. Qed.

Lemma run_env_op {A} (f : E → A * E) (w : world E) : env_op f w = Some ((f (w_env w)).1, with_env (f (w_env w)).2 w).
Proof. unfold env_op. rewrite run_act. by destruct (f (w_env w)). Qed.

Lemma run_sent c (m : GoM (world E) (option gerror)) ev w Q : wp m Q w →
  ∃ w', (err ← m; match err with None => emit (Rec c) ev | Some _ => mret tt end) w = Some (tt, w') ∧ sent c m ev w w'.
Proof.
  intros (err & w1 & Hm & _)%wp_iff. rewrite run_bind, Hm. destruct err as [err|].
  - exists w1. split; [done|]. exists (Some err), w1. by split.
  - exists (counted c ev w1). split; [apply run_emit|]. exists None, w1. by split.
Qed.

Lemma run_store `{!FrameLibOk} c raw ver w : (92 ≤ length raw)%nat → raw !! 6%nat = Some ver →
  let r := @cache_Store E (Cache c) (field 40 56 raw) raw (ttlFor c ver) (w_env w) in
  store c raw w = Some (r.1, with_env r.2 w).
Proof.
  intros Hl Hv r. assert (wp (store c raw) (λ err w', err = r.1 ∧ w' = with_env r.2 w) w) as (err & ? & ? & -> & ->)%wp_iff; [|done].
  unfold store. rewrite header_size, decide_False by lia.
  wp_step. eapply wp_liftO; [apply gsub_Some; lia|]. wp_step. eapply wp_liftO; [apply gsub_Some; lia|].
  wp_step. eapply wp_liftO; [exact Hv|]. rewrite field_app_adj by lia. wp_step. unfold r. by rewrite Hop.
Qed.

Lemma run_deliver `{!FrameLibOk} c j raw w : RetransOk (Retrans c) → (92 ≤ length raw)%nat →
  ∃ w', deliver c j raw w = Some (tt, w') ∧ delivered c j raw w w'.
Proof.
  intros Hrt Hl. destruct (lookup_lt_is_Some_2 raw 6) as [ver Hv]; [lia|].
  set (w1 := with_env (@cache_Store E (Cache c) (field 40 56 raw) raw (ttlFor c ver) (w_env w)).2 w).
  pose proof (run_store c raw ver w Hl Hv) as Hst. cbv zeta in Hst. fold w1 in Hst.
  assert (∃ w2, (if Multicast c then
         txID ← liftO (gsub 8 40 raw);
         err ← @rt_Retransmit E _ (Retrans c) raw txID;
         match err with None => emit (Rec c) External.Retransmit | Some _ => mret tt end
       else mret tt) w1 = Some (tt, w2) ∧
     if Multicast c then sent c (@rt_Retransmit E _ (Retrans c) raw (field 8 40 raw)) External.Retransmit w1 w2
     else w2 = w1) as (w2 & Hr2 & Hs2).
  { destruct (Multicast c); [|by exists w1]. rewrite gsub_Some by lia.
    eapply run_sent, alone_multicast. rewrite length_field; lia. }
  assert (∃ w3, (match Unicast c, j_requester j with
      | true, Some req =>
          err ← @rt_RetransmitUnicast E _ (Retrans c) raw req;
          match err with None => emit (Rec c) UnicastRetransmit | Some _ => mret tt end
      | _, _ => mret tt
      end) w2 = Some (tt, w3) ∧
     match j_requester j with
     | Some req =>
         if Unicast c then sent c (@rt_RetransmitUnicast E _ (Retrans c) raw req) UnicastRetransmit w2 w3 else w3 = w2
     | None => w3 = w2
     end) as (w3 & Hr3 & Hs3).
  { destruct (Unicast c), (j_requester j) as [req|]; try by exists w2. eapply run_sent, alone_unicast. }
  exists (counted c ProxyRecovered w3). split.
  - unfold deliver. rewrite run_bind, Hst, run_bind, Hr2, run_bind, Hr3. apply run_emit.
  - by exists ver, w1, w2, w3.
Qed.

(** A fetch returns, with a frame or without. *)
Lemma run_fetch `{!FrameLibOk} c ep j w : length (j_subtree j) = 32%nat →
  ∃ r w', fetch c ep j w = Some (r, w') ∧ ∀ raw, r = Some raw → isFrame raw = Some true ∧ (92 ≤ length raw)%nat.
Proof.
  intros Hs. apply wp_iff. unfold fetch. wp_step. wp_step. destruct a as [addr|]; [|by wp_step].
  wp_step. wp_step. destruct a as [err|]; [by wp_step|].
  wp_step. eapply wp_liftO; [by apply buildNACK_eq|]. wp_step. wp_step. destruct err; [by wp_step|].
  wp_step. wp_step. destruct (readLoop_total a) as (r & Hr & Hlen). eapply wp_liftO; [exact Hr|].
  intros raw ->. split; [|by apply Hlen]. clear -Hr. induction a as [|d a IH]; [done|]. simpl in Hr.
  destruct (isFrame d) as [[]|] eqn:Hd; simpl in Hr; [by simplify_eq| |done]. destruct (is_miss d); [done|auto].
Qed.

Lemma run_tryUpstreams `{!FrameLibOk} c j n i w : RetransOk (Retrans c) →
  length (j_subtree j) = 32%nat → (i + n ≤ length (Upstreams c))%nat →
  ∃ w', tryUpstreams c j n i w = Some (tt, w') ∧ concluded c j i n w w'.
Proof.
  intros Hrt Hs. revert i w. induction n as [|n IH]; intros i w Hi; cbn [tryUpstreams].
  { eexists. split; [apply run_emit|]. exists 0%nat, w. split_and!; [lia|constructor|]. auto. }
  rewrite run_bind, run_env_op. destruct (ctx_Done (w_env w)) as [[] e] eqn:Hd; cbn [fst snd].
  { eexists. split; [done|]. exists 0%nat, w. split_and!; [lia|constructor|]. left. exists e. split_and!; [lia|done..]. }
  destruct (lookup_lt_is_Some_2 (Upstreams c) i) as [ep Hep]; [lia|].
  destruct (run_fetch c ep j (with_env e w) Hs) as (r & w1 & Hf & Hr).
  rewrite run_bind, Hep, (run_liftO ep), run_bind, Hf by done.
  destruct r as [raw|].
  - destruct (Hr raw eq_refl) as [Hfr Hl]. destruct (run_deliver c j raw w1 Hrt Hl) as (w' & Hdel & Hdd).
    exists w'. split; [done|]. exists 0%nat, w. split_and!; [lia|constructor|]. right. right.
    exists e, ep, raw, w1. rewrite Nat.add_0_r. split_and!; [lia|done..].
  - destruct (IH (S i) w1) as (w' & Ht & k & w2 & Hk & Hu & Hc); [lia|]. exists w'. split; [done|].
    exists (S k), w2. split_and!; [lia|by econstructor|]. rewrite <- plus_n_Sm.
    destruct Hc as [(e1 & Hlt & Hc)|[[-> Hc]|(e1 & ep1 & raw & w3 & Hlt & Hc)]].
    + left. exists e1. split; [lia|done].
    + right. left. by split.
    + right. right. exists e1, ep1, raw, w3. split; [lia|done].
Qed.

Lemma run_claim c j w :
  ∃ (ok : bool) w', claim c j w = Some (ok, w') ∧ if ok then claimed c j w w' else held_elsewhere c j w w'.
Proof.
  apply wp_iff. unfold claim, claimed, held_elsewhere. destruct (Dedup c) as [d|] eqn:Hd; [|by wp_step].
  wp_step. wp_step. destruct a as [set [err|]]; [|destruct set]; wp_step.
  - exists set, (Some err), e. by split_and!; [|left|].
  - exists true, None, e. by split_and!; [|right|].
  - apply wp_iff. eexists _, _. split; [apply run_emit|]. wp_step. by exists d, e.
Qed.

Lemma run_recover `{!FrameLibOk} c j w : RetransOk (Retrans c) →
  length (j_subtree j) = 32%nat → MaxEndpoints c ≤ Z.of_nat (length (Upstreams c)) →
  ∃ w', recover c j w = Some (tt, w') ∧ recovery c j w w'.
Proof.
  intros Hrt Hs Hm. unfold recover, recovery. rewrite run_bind, run_emit. set (w0 := counted c ProxyRequest w).
  destruct (run_claim c j w0) as (ok & w1 & Hc & Hok). rewrite run_bind, Hc. destruct ok; [|by eauto].
  destruct (run_tryUpstreams c j (Z.to_nat (MaxEndpoints c)) 0 w1 Hrt Hs) as (w' & Ht & Hcon); [lia|eauto 6].
Qed.

Lemma wp_worker_step `{!FrameLibOk} c w :
  RetransOk (Retrans c) → MaxEndpoints c ≤ Z.of_nat (length (Upstreams c)) →
  queue_inv c w → wp (worker_step c) (λ _ w', w_queue w' = tail (w_queue w)) w.
Proof.
  intros Hrt Hm [_ Hq]. unfold worker_step. apply wp_bind, wp_act.
  destruct (w_queue w) as [|j q] eqn:Hqw; eexists _, _; (split; [done|]); [wp_step; by rewrite Hqw|].
  eapply wp_mono; [apply wp_recover; [done|by inversion Hq|done]|].
  intros ? w' (evs & (_ & Hq' & _) & _). exact Hq'.
Qed.

Lemma px_step_inv `{!FrameLibOk} c w w' :
  RetransOk (Retrans c) → MaxEndpoints c ≤ Z.of_nat (length (Upstreams c)) →
  px_step c w w' → queue_inv c w → queue_inv c w'.
Proof.
  intros Hrt Hm Hstep Hinv. destruct Hstep as [hk sq sub req ok w' Hsub He|w' Hw].
  - revert He. unfold Enqueue, queue_inv. destruct Hinv as [Hl Hf].
    rewrite run_bind. unfold trySend. rewrite run_act. destruct (_ <? _) eqn:Hc.
    + intros [= <- <-]. simpl. rewrite length_app. simpl. split; [lia|].
      apply Forall_app. split; [done|]. by constructor.
    + rewrite run_bind. unfold emit. destruct (Rec c); intros [= <- <-]; done.
  - pose proof (wp_worker_step c w Hrt Hm Hinv) as Hwp. apply wp_iff in Hwp as ([] & w1 & Hw1 & Hq).
    rewrite Hw in Hw1. simplify_eq. destruct Hinv as [Hl Hf]. unfold queue_inv. rewrite Hq.
    destruct (w_queue w); simpl in *; [done|]. split; [lia|by inversion Hf].
Qed.

Lemma gap_app_inj j1 j2 s1 s2 :
  0 ≤ j_hashKey j1 < 2 ^ 64 → 0 ≤ j_hashKey j2 < 2 ^ 64 →
  0 ≤ j_seq j1 < 2 ^ 64 → 0 ≤ j_seq j2 < 2 ^ 64 →
  gapKey j1 ++ s1 = gapKey j2 ++ s2 ↔
    j_hashKey j1 = j_hashKey j2 ∧ j_seq j1 = j_seq j2 ∧ s1 = s2.
Proof.
  intros Hh1 Hh2 Hs1 Hs2. unfold gapKey. rewrite <- !app_assoc. split.
  - intros He. apply app_inj_1 in He as [Hh He]; [|by rewrite !length_be_enc].
    apply app_inj_1 in He as [Hs He]; [|by rewrite !length_be_enc].
    apply be_enc_inj in Hh; [|done..]. by apply be_enc_inj in Hs.
  - by intros (-> & -> & ->).
Qed.

(** ** Theorems *)


(** The recovery queue is bounded and never stuck. In every state reached
    by requests arriving and workers taking jobs, at most QueueDepth jobs wait,
    a request for a full queue is refused at once rather than blocking the
    NACK worker, and a worker's turn completes. *)
Theorem queue_bounded cfg (w0 w : world E) :
  FrameLibOk → RetransOk (Retrans cfg) → w_queue w0 = [] → rtc (px_step (New cfg)) w0 w →
  Z.of_nat (length (w_queue w)) ≤ QueueDepth (New cfg) ∧
  (∀ hk sq sub req, ∃ w', Enqueue (New cfg) hk sq sub req w =
     Some (bool_decide (Z.of_nat (length (w_queue w)) < QueueDepth (New cfg)), w')) ∧
  (∃ w', worker_step (New cfg) w = Some (tt, w') ∧ w_queue w' = tail (w_queue w)).
Proof.
  intros Hok Hrt H0 Hrtc. destruct (New_endpoints cfg) as [_ Hm].
  assert (queue_inv (New cfg) w) as Hinv.
  { assert (queue_inv (New cfg) w0) as Hi0.
    { unfold queue_inv. rewrite H0. split; [|constructor]. simpl. case_match; lia. }
    clear H0. induction Hrtc as [|w0 w1 w Hst _ IH]; [done|].
    apply IH. by eapply px_step_inv. }
  split_and!; [apply Hinv| |].
  - intros. unfold Enqueue. rewrite run_bind. unfold trySend. rewrite run_act. destruct (_ <? _) eqn:Hc.
    + rewrite bool_decide_true by lia. eexists. done.
    + rewrite bool_decide_false, run_bind by lia. unfold emit. destruct (Rec _); eexists; done.
  - pose proof (wp_worker_step (New cfg) w Hrt Hm Hinv) as Hwp.
    apply wp_iff in Hwp as ([] & w' & ? & ?). eauto.
Qed.

(** The in-flight claim identifies exactly what it must. In unicast mode
    two jobs contend for one claim only if they ask for the same gap on behalf
    of the same requester; in multicast mode, for the same gap. *)
Theorem claim_identifies c (j1 j2 : job) :
  0 ≤ j_hashKey j1 < 2 ^ 64 → 0 ≤ j_hashKey j2 < 2 ^ 64 →
  0 ≤ j_seq j1 < 2 ^ 64 → 0 ≤ j_seq j2 < 2 ^ 64 →
  (∀ r, j_requester j1 = Some r ∨ j_requester j2 = Some r →
     length (ua_IP r) = 16%nat ∧ 0 ≤ ua_Port r < 2 ^ 16) →
  claimKey c j1 = claimKey c j2 ↔
    j_hashKey j1 = j_hashKey j2 ∧ j_seq j1 = j_seq j2 ∧
    (Unicast c = true → ip_port <$> j_requester j1 = ip_port <$> j_requester j2).
Proof.
  intros Hh1 Hh2 Hs1 Hs2 Hr. unfold claimKey. rewrite gap_app_inj by done.
  split; (intros (? & ? & Hreq); split_and!; [done..|]); revert Hreq; unfold claimSuffix.
  - destruct (Unicast c); [|done]. intros Hreq _.
    destruct (j_requester j1) as [r1|], (j_requester j2) as [r2|]; simpl in *;
      [|by apply app_nil in Hreq as []|by symmetry in Hreq; apply app_nil in Hreq as []|done].
    destruct (Hr r1 (or_introl eq_refl)) as [Hl1 Hp1], (Hr r2 (or_intror eq_refl)) as [Hl2 Hp2].
    apply app_inj_1 in Hreq as [Hip Hport]; [|congruence]. unfold ip_port. f_equal. f_equal; [done|].
    rewrite !be_enc_2 in Hport. by apply be_enc_inj in Hport.
  - destruct (Unicast c); [|done]. intros Hreq. specialize (Hreq eq_refl).
    destruct (j_requester j1), (j_requester j2); simplify_eq/=; [|done].
    unfold ip_port in *. simplify_eq. congruence.
Qed.

(** The wait for an upstream answers with a frame exactly when one
    arrives before any MISS: the first datagram that is a frame or a 16-byte
    MISS decides, and ACKs, short datagrams and other noise before it are
    skipped. *)
Theorem readLoop_first (ds : list bytes) (d : bytes) :
  FrameLibOk →
  readLoop ds = Some (Some d) ↔
    ∃ pre post, ds = pre ++ d :: post ∧ isFrame d = Some true ∧
      Forall (λ x, isFrame x = Some false ∧ is_miss x = false) pre.
Proof.
  intros Hok. induction ds as [|x ds IH]; simpl.
  { split; [done|]. by intros ([] & ? & ? & _). }
  destruct (isFrame_total x) as [b Hb]. rewrite Hb. simpl. destruct b.
  - split.
    + intros [= <-]. by exists [], ds.
    + intros ([|y pre] & post & Heq & _ & Hpre); simplify_eq/=; try done.
      inversion Hpre as [|?? [Hy _]]. congruence.
  - fold (is_miss x). destruct (is_miss x) eqn:Hm.
    + split; [done|]. intros ([|y pre] & post & Heq & Hd & Hpre); simplify_eq/=; try congruence.
      inversion Hpre as [|?? [_ Hy]]. congruence.
    + rewrite IH. split.
      * intros (pre & post & -> & Hd & Hpre). exists (x :: pre), post. by split_and!; [..|constructor].
      * intros ([|y pre] & post & Heq & Hd & Hpre); simplify_eq/=; try congruence.
        inversion Hpre. by exists pre, post.
Qed.
End model.

(** ** Instances *)
Section instances.
Import RefEnv.

Definition ttls0 : TTLConfig := mkTTLs 60 600 600 600 300.

(** A client with one upstream, both delivery modes and a shared claim store. *)
Definition px0 (multicast unicast : bool) : Config (E := renv) :=
  mkConfig ["upstream:9300"%string] None 0 0 0 0 2 (Some (proxy_store redis 0))
    (store_cache (frame_store redis 0)) (Retransmit.retrans_iface Retransmit.rt0) ttls0
    true multicast unicast.

Definition listener : udpaddr := mkUDPAddr (replicate 16 x20) 5000 "".
Definition job0 : job := mkJob 7 1 (replicate 32 x00) (Some listener).

(** A world in which the upstream answers with an ACK and then [raw]. *)
Definition world_upstream (raw : bytes) : world renv :=
  mkWorld (mkREnv 1 ∅ false false [replicate 16 x12; raw] []) RateLimit.lim0 [] [].

Lemma rt0_ok : RetransOk (Retransmit.retrans_iface Retransmit.rt0).
Proof. by apply Retransmit.retrans_ok. Qed.


(** The recovered frame reaches the requester and the cache. *)
Example recover_runs :
  ∃ r w', recover (New (px0 false true)) job0 (world_upstream Retransmit.tx_frame) = Some (r, w') ∧
    EvWrite UnicastSocket listener Retransmit.tx_frame true ∈ w_events w' ∧
    (@cache_Retrieve renv (store_cache (frame_store redis 0)) (gapKey job0) (w_env w')).1 =
      inl (Some Retransmit.tx_frame).
Proof.
  run_closed.
Qed.

Lemma queue_bounded_witness :
  ∃ w, rtc (px_step (New (px0 true true))) world0 w ∧ w_queue w = [job0] ∧
    Z.of_nat (length (w_queue w)) ≤ 2.
Proof.
  assert (rtc (px_step (New (px0 true true))) world0 (mkWorld env0 RateLimit.lim0 [job0] [])) as Hr.
  { apply rtc_once. eapply (px_enqueue_step _ _ 7 1 (replicate 32 x00) (Some listener) true);
      reflexivity. }
  eexists. split_and!; [exact Hr|reflexivity|].
  apply (queue_bounded (px0 true true) world0); [apply _|apply rt0_ok|reflexivity|exact Hr].
Defined.

Lemma claim_identifies_witness :
  claimKey (px0 false true) job0 ≠
  claimKey (px0 false true) (mkJob 7 1 (replicate 32 x00) (Some (mkUDPAddr (replicate 16 x20) 5001 ""))).
Proof.
  intros Hc. apply (claim_identifies (px0 false true)) in Hc; simpl; [|lia..|].
  - destruct Hc as (_ & _ & Hc). specialize (Hc eq_refl). discriminate Hc.
  - intros r [[= <-]|[= <-]]; (split; [reflexivity|simpl; lia]).
Defined.

Lemma readLoop_first_witness :
  readLoop [replicate 16 x12; Retransmit.tx_frame] = Some (Some Retransmit.tx_frame).
Proof.
  apply (readLoop_first [replicate 16 x12; Retransmit.tx_frame] Retransmit.tx_frame); [apply _|].
  exists [replicate 16 x12], []. split_and!; [reflexivity|vm_compute; reflexivity|].
  repeat constructor; vm_compute; reflexivity.
Defined.

(** The proxy does not check that what came back is what was asked for.
    Asked to recover (7, 1), it accepts an upstream's frame of flow (8, 2),
    unicasts it to the requester, caches it under the foreign flow key and
    counts the recovery as a success, while the requested gap stays missing. *)
Theorem proxy_accepts_foreign_frame :
  let foreign := ref_frame x02 xab x00 x00 8 2 in
  ∃ r w', recover (New (px0 false true)) job0 (world_upstream foreign) = Some (r, w') ∧
    EvWrite UnicastSocket listener foreign true ∈ w_events w' ∧
    EvMetric ProxyRecovered ∈ w_events w' ∧
    (@cache_Retrieve renv (store_cache (frame_store redis 0)) (gapKey job0) (w_env w')).1 = inl None ∧
    (@cache_Retrieve renv (store_cache (frame_store redis 0)) (field 40 56 foreign) (w_env w')).1 =
      inl (Some foreign).
Proof.
  intros foreign.
  run_closed.
Qed.
End instances.

End Proxy.
