(* ===== verification/Server.v ===== *)
(** * The NACK server

    Models src/server/server.go: the server's configuration, [validateNACK], the
    request handler [processNACK] with its four rate-limit tiers, and the response
    datagrams.

    The handler runs in the [world] monad against the interfaces [CacheI],
    [RetransI] and [ProxyI] held in the [Server] record. [outcome] is the
    abstract contract of a request (dropped, throttled, missed or served, with
    what each may put on the wire), and every run of [processNACK] is shown to
    be one of its cases, also when other handlers run in between
    ([wpi_processNACK]). Logging is not modelled; the listening socket is in
    Sockets.v, the reader with its workers in Pool.v. *)

From S2P Require Import Prelude GoNet External RefEnv RateLimit World CacheStore Retransmit Proxy.
From Stdlib Require Import Strings.Byte.
Import GoNet External RateLimit World CacheStore.

Module Server.

Definition NACKSize : nat := 64.
Definition ResponseSize : nat := 16.
Definition msgTypeNACK : byte := x10.
Definition msgTypeMISS : byte := x11.
Definition msgTypeACK : byte := x12.
Definition msgTypeThrottled : byte := x13.
Definition throttleBucketSequence : byte := x02.
Definition throttleBucketChain : byte := x03.
Definition throttleBucketGroup : byte := x04.
Definition ackFlagMulticastSent : Z := 0x01.
Definition ackFlagUnicastSent : Z := 0x02.

Section model.
Context {E : Type} `{!RateLib E, !OS E, !FrameLib, !ShardLib}.
Context (growcap : nat → nat → nat).

(** The rate limiter is the world's; the recorder is present or nil. *)
Record Server := mkServer {
  port : Z;
  bindAddr : string;
  cache : CacheI E;
  rec : bool;
  retransmit : RetransI E;
  workers : Z;
  debug : bool;
  suppressACK : bool;
  suppressMISS : bool;
  throttleResp : bool;
  shardEngine : option Engine;
  beefEngine : option PlaneEngine;
  retransmitMC : bool;
  retransmitUC : bool;
  proxy : option (ProxyI E);
}.

Definition New (port : Z) (cache : CacheI E) (rec : bool) (retransmit : RetransI E)
    (workers : Z) (debug : bool) : Server :=
  mkServer port "" cache rec retransmit workers debug false false false None None true false None.

Definition SetRetransmitModes (mc uc : bool) (s : Server) : Server :=
  mkServer (port s) (bindAddr s) (cache s) (rec s) (retransmit s) (workers s) (debug s)
    (suppressACK s) (suppressMISS s) (throttleResp s) (shardEngine s) (beefEngine s) mc uc (proxy s).
Definition SetProxy (p : option (ProxyI E)) (s : Server) : Server :=
  mkServer (port s) (bindAddr s) (cache s) (rec s) (retransmit s) (workers s) (debug s)
    (suppressACK s) (suppressMISS s) (throttleResp s) (shardEngine s) (beefEngine s)
    (retransmitMC s) (retransmitUC s) p.
Definition SetSuppressACK (v : bool) (s : Server) : Server :=
  mkServer (port s) (bindAddr s) (cache s) (rec s) (retransmit s) (workers s) (debug s)
    v (suppressMISS s) (throttleResp s) (shardEngine s) (beefEngine s)
    (retransmitMC s) (retransmitUC s) (proxy s).
Definition SetSuppressMISS (v : bool) (s : Server) : Server :=
  mkServer (port s) (bindAddr s) (cache s) (rec s) (retransmit s) (workers s) (debug s)
    (suppressACK s) v (throttleResp s) (shardEngine s) (beefEngine s)
    (retransmitMC s) (retransmitUC s) (proxy s).
Definition SetThrottleResponse (v : bool) (s : Server) : Server :=
  mkServer (port s) (bindAddr s) (cache s) (rec s) (retransmit s) (workers s) (debug s)
    (suppressACK s) (suppressMISS s) v (shardEngine s) (beefEngine s)
    (retransmitMC s) (retransmitUC s) (proxy s).
Definition SetBindAddr (a : string) (s : Server) : Server :=
  mkServer (port s) a (cache s) (rec s) (retransmit s) (workers s) (debug s)
    (suppressACK s) (suppressMISS s) (throttleResp s) (shardEngine s) (beefEngine s)
    (retransmitMC s) (retransmitUC s) (proxy s).
Definition SetBEEFEngine (pe : option PlaneEngine) (s : Server) : Server :=
  mkServer (port s) (bindAddr s) (cache s) (rec s) (retransmit s) (workers s) (debug s)
    (suppressACK s) (suppressMISS s) (throttleResp s) (shardEngine s) pe
    (retransmitMC s) (retransmitUC s) (proxy s).
Definition SetShardEngine (e : option Engine) (s : Server) : Server :=
  mkServer (port s) (bindAddr s) (cache s) (rec s) (retransmit s) (workers s) (debug s)
    (suppressACK s) (suppressMISS s) (throttleResp s) e (beefEngine s)
    (retransmitMC s) (retransmitUC s) (proxy s).

(** Format check of a datagram: [Some None] is a nil error. *)
Definition validateNACK (datagram : bytes) : option (option gerror) :=
  if decide (length datagram < NACKSize)%nat then Some (Some (ErrText "invalid NACK size")) else
  m ← gsub 0 4 datagram ≫= BE_Uint32;
  if decide (m ≠ MagicBSV) then Some (Some (ErrText "invalid magic")) else
  t ← datagram !! 6%nat;
  if decide (t ≠ msgTypeNACK) then Some (Some (ErrText "invalid message type")) else Some None.

(** The 16-byte response buffer. *)
Definition responseBuf (msgType flags : byte) (seqNum : Z) : option bytes :=
  buf ← gput 0 (be_enc 4 MagicBSV) (replicate ResponseSize x00);
  buf ← gput 4 (be_enc 2 ProtoVer) buf;
  buf ← gset_byte 6 msgType buf;
  buf ← gset_byte 7 flags buf;
  gput 8 (be_enc 8 seqNum) buf.

(** The write of a response and its counters. *)
Definition writeResponse (s : Server) (src : udpaddr) (buf : bytes) (label : string)
  : GoM (world E) unit :=
  err ← write_to NACKSocket buf src;
  match err with
  | Some _ => emit (rec s) (ResponseSendError label)
  | None => emit (rec s) (ResponseSent label)
  end.

Definition sendThrottled (s : Server) (src : udpaddr) (bucket : byte) (seqNum : Z)
  : GoM (world E) unit :=
  buf ← liftO (responseBuf msgTypeThrottled (Z_byte (Z.land (byte_Z bucket) 0x0F)) seqNum);
  writeResponse s src buf "throttled".

Definition sendResponse (s : Server) (src : udpaddr) (msgType flags : byte) (seqNum : Z)
  : GoM (world E) unit :=
  buf ← liftO (responseBuf msgType flags seqNum);
  writeResponse s src buf (if decide (msgType = msgTypeMISS) then "miss" else "ack").

(** [if s.throttleResp && src != nil { s.sendThrottled(...) }] *)
Definition throttle (s : Server) (src : option udpaddr) (bucket : byte) (seqNum : Z)
  : GoM (world E) unit :=
  match src with
  | Some a => when (throttleResp s) (sendThrottled s a bucket seqNum)
  | None => mret tt
  end.

(** The rate-limit group of a cached frame. *)
Definition groupIdxOf (s : Server) (eng : Engine) (raw txID : bytes) : option Z :=
  let g0 := eng_GroupIndex eng txID in
  g1 ← (if decide (IsBundle raw = true ∧ 58 ≤ length raw)%nat
        then gsub 56 58 raw ≫= BE_Uint16 else Some g0);
  match beefEngine s with
  | Some pe =>
      if decide (IsBEEFFrame raw = true ∧ 88 ≤ length raw)%nat
      then plane_GroupIndex pe <$> gsub 56 88 raw else Some g1
  | None => Some g1
  end.

(** The sends of a cache hit: the ACK flags, or [None] on a hard multicast
    error (the handler returns without a response). *)
Definition dispatch (s : Server) (src : option udpaddr) (proxied : bool) (raw txID : bytes)
  : GoM (world E) (option Z) :=
  mc ← (if retransmitMC s then
          err ← @rt_Retransmit E _ (retransmit s) raw txID;
          match err with
          | None => _ ← emit (rec s) External.Retransmit; mret (Some ackFlagMulticastSent)
          | Some err => if errors_Is err ErrDedupSuppressed then mret (Some 0) else mret None
          end
        else mret (Some 0));
  match mc with
  | None => mret None
  | Some ackFlags =>
      match src with
      | Some a =>
          if retransmitUC s || proxied then
            err ← @rt_RetransmitUnicast E _ (retransmit s) raw a;
            match err with
            | Some _ => mret (Some ackFlags)
            | None =>
                _ ← emit (rec s) UnicastRetransmit;
                mret (Some (Z.lor ackFlags ackFlagUnicastSent))
            end
          else mret (Some ackFlags)
      | None => mret (Some ackFlags)
      end
  end.

(** The group tier: true to go on. *)
Definition groupTier (s : Server) (src : option udpaddr) (srcIP : bytes) (seqNum : Z)
    (raw txID : bytes) : GoM (world E) bool :=
  match shardEngine s with
  | None => mret true
  | Some eng =>
      groupIdx ← liftO (groupIdxOf s eng raw txID);
      ok ← lim_op (λ l e, Some (AllowGroup srcIP groupIdx l e));
      if ok : bool then mret true else
      _ ← emit (rec s) (RateLimitDrop LevelGroup);
      _ ← throttle s src throttleBucketGroup seqNum;
      mret false
  end.

(** The handler from the cache hit on. *)
Definition serveHit (s : Server) (src : option udpaddr) (srcIP : bytes) (proxied : bool)
    (seqNum : Z) (raw : bytes) : GoM (world E) unit :=
  _ ← emit (rec s) CacheHit;
  txID ← liftO (if decide (40 ≤ length raw)%nat then gsub 8 40 raw else Some (replicate 32 x00));
  go ← groupTier s src srcIP seqNum raw txID;
  if negb go then mret tt else
  flags ← dispatch s src proxied raw txID;
  match flags with
  | None => mret tt
  | Some ackFlags =>
      match src with
      | Some a =>
          let attempted := retransmitMC s || (retransmitUC s || proxied) in
          when (negb (suppressACK s) && (negb (ackFlags =? 0) || negb attempted))
            (sendResponse s a msgTypeACK (Z_byte ackFlags) seqNum)
      | None => mret tt
      end
  end.

(** The handler from the cache miss on. *)
Definition serveMiss (s : Server) (src : option udpaddr) (proxied : bool)
    (hashKey startSeq : Z) (subtreeID : bytes) : GoM (world E) unit :=
  _ ← emit (rec s) CacheMiss;
  _ ← match src with
      | Some a => when (negb (suppressMISS s)) (sendResponse s a msgTypeMISS x00 0)
      | None => mret tt
      end;
  match proxy s with
  | Some p =>
      if negb proxied then _ ← @px_Enqueue E _ p hashKey startSeq subtreeID src; mret tt
      else mret tt
  | None => mret tt
  end.

Definition srcIPOf (src : option udpaddr) : bytes :=
  match src with Some a => ua_IP a | None => IPv6unspecified end.

(** [s.rl.Allow]: other requests may pass between the two tiers. *)
Definition allow (srcIP : bytes) (hashKey startSeq : Z) : GoM (world E) (bool * string) :=
  ok ← lim_op (λ l e, Some (AllowIP srcIP l e));
  if negb ok then mret (false, LevelIP) else
  ok ← lim_op (AllowSequence growcap hashKey startSeq);
  if negb ok then mret (false, LevelSequence) else mret (true, ""%string).

Definition processNACK (s : Server) (datagram : bytes) (src : option udpaddr)
  : GoM (world E) unit :=
  _ ← emit (rec s) NACKRequest;
  v ← liftO (validateNACK datagram);
  match v with
  | Some _ => mret tt
  | None =>
      flags ← liftO (datagram !! 7%nat);
      let proxied := negb (Z.land (byte_Z flags) Proxy.FlagProxied =? 0) in
      hashKey ← liftO (gsub 8 16 datagram ≫= BE_Uint64);
      startSeq ← liftO (gsub 16 24 datagram ≫= BE_Uint64);
      endSeq ← liftO (gsub 24 32 datagram ≫= BE_Uint64);
      subtreeID ← liftO (gsub 32 64 datagram);
      if negb (endSeq =? startSeq) then mret tt else
      let srcIP := srcIPOf src in
      '(allowed, level) ← allow srcIP hashKey startSeq;
      if negb allowed then
        _ ← emit (rec s) (RateLimitDrop level);
        if decide (level = LevelSequence) then throttle s src throttleBucketSequence startSeq
        else mret tt
      else
      chainOk ← lim_op (AllowChain growcap srcIP hashKey);
      if negb chainOk then
        _ ← emit (rec s) (RateLimitDrop LevelChain);
        throttle s src throttleBucketChain startSeq
      else
      key ← liftO (k ← gput 0 (be_enc 8 hashKey) (replicate 16 x00); gput 8 (be_enc 8 startSeq) k);
      r ← env_op (@cache_Retrieve E (cache s) key);
      match r with
      | inr _ => emit (rec s) CacheError
      | inl None => serveMiss s src proxied hashKey startSeq subtreeID
      | inl (Some raw) => serveHit s src srcIP proxied startSeq raw
      end
  end.

(** *** What the reader accepts

    A datagram is read into a 64-byte buffer, so a longer one is truncated. The
    reader and its workers are in Pool.v. *)
Definition nackRequest : Type := bytes * option udpaddr.

Definition readRequest (dg : bytes * option udpaddr) : option nackRequest :=
  let buf := take NACKSize dg.1 in
  if decide (length buf ≠ NACKSize) then None else Some (buf, dg.2).

(** ** The contract of a request *)

Definition rq_hashKey (d : bytes) : Z := be_dec (field 8 16 d).
Definition rq_seq (d : bytes) : Z := be_dec (field 16 24 d).
Definition rq_end (d : bytes) : Z := be_dec (field 24 32 d).
Definition rq_proxied (d : bytes) : bool :=
  match d !! 7%nat with
  | Some b => negb (Z.land (byte_Z b) Proxy.FlagProxied =? 0)
  | None => false
  end.
Definition rq_job (d : bytes) (src : option udpaddr) : job :=
  mkJob (rq_hashKey d) (rq_seq d) (field 32 64 d) src.

(** The response datagram. *)
Definition response (msgType flags : byte) (seqNum : Z) : bytes :=
  be_enc 4 MagicBSV ++ be_enc 2 ProtoVer ++ [msgType] ++ [flags] ++ be_enc 8 seqNum.

(** Copies of [raw] a hit may send. *)
Definition copy_event (s : Server) (d : bytes) (src : option udpaddr) (raw : bytes) (ev : event) : Prop :=
  match ev with
  | EvMetric _ => True
  | EvWrite (EgressSocket _) _ b _ => retransmitMC s = true ∧ b = raw
  | EvWrite UnicastSocket a b _ => (retransmitUC s || rq_proxied d) = true ∧ src = Some a ∧ b = raw
  | _ => False
  end.

(** The ACK flags say what was sent. *)
Definition honest_flags (s : Server) (d : bytes) (raw : bytes) (a : udpaddr) (evs : list event) (fl : Z) : Prop :=
  0 ≤ fl < 4 ∧
  (Z.testbit fl 0 = true → multicast_of raw evs) ∧
  (Z.testbit fl 1 = true → unicast_of raw a evs) ∧
  (fl = 0 → retransmitMC s = false ∧ (retransmitUC s || rq_proxied d) = false).

(** At most one response datagram [b], to the requester. *)
Definition replied (src : option udpaddr) (P : udpaddr → bytes → Prop) (evs : list event) : Prop :=
  metrics_only evs ∨
  ∃ ms1 a b ok ms2, evs = ms1 ++ EvWrite NACKSocket a b ok :: ms2 ∧ metrics_only ms1 ∧
    metrics_only ms2 ∧ src = Some a ∧ P a b.

(** What a request may do, in an environment that satisfies [P]: nothing, one
    THROTTLED reply, a miss with at most one MISS and one recovery job, or a hit with
    copies of the frame a lookup returned and at most one ACK. *)
Inductive outcome_in (P : E → Prop) (s : Server) (d : bytes) (src : option udpaddr) : list event → list job → Prop :=
| Dropped evs : metrics_only evs → outcome_in P s d src evs []
| Throttled evs :
    throttleResp s = true →
    replied src (λ _ b, ∃ bucket, bucket ∈ [x02; x03; x04] ∧
      b = response msgTypeThrottled bucket (rq_seq d)) evs →
    outcome_in P s d src evs []
| Missed evs jobs e :
    P e →
    (@cache_Retrieve E (cache s) (field 8 24 d) e).1 = inl None →
    replied src (λ _ b, suppressMISS s = false ∧ b = response msgTypeMISS x00 0) evs →
    jobs = [] ∨ (jobs = [rq_job d src] ∧ rq_proxied d = false ∧ proxy s ≠ None) →
    outcome_in P s d src evs jobs
| Served evs copies reply raw e :
    P e →
    (@cache_Retrieve E (cache s) (field 8 24 d) e).1 = inl (Some raw) →
    evs = copies ++ reply →
    Forall (copy_event s d src raw) copies →
    replied src (λ a b, suppressACK s = false ∧ ∃ fl, honest_flags s d raw a copies fl ∧
      b = response msgTypeACK (Z_byte fl) (rq_seq d)) reply →
    outcome_in P s d src evs [].

(** The contract when nothing is known of the environment. *)
Definition outcome (s : Server) := outcome_in (λ _, True) s.

Definition proxies_ok (s : Server) : Prop :=
  match proxy s with Some p => ∃ cap, @ProxyOk E _ cap p | None => True end.

(** The recovery client accepts a job only when the queue keeps [J] then. *)
Definition proxies_keep (J : list job → Prop) (s : Server) : Prop :=
  match proxy s with
  | Some p => ∃ cap, @ProxyOk E _ cap p ∧ ∀ q j, J q → Z.of_nat (length q) < cap →
      length (j_subtree j) = 32%nat → J (q ++ [j])
  | None => True
  end.

(** ** Lemmas *)

Lemma responseBuf_eq mt fl sq : responseBuf mt fl sq = Some (response mt fl sq).
Proof.
  unfold responseBuf, gset_byte.
  rewrite gput_first by (rewrite length_be_enc; unfold ResponseSize; lia).
  cbn [mbind option_bind].
  repeat (rewrite ?app_assoc; rewrite gput_next;
    [cbn [mbind option_bind]
    |by rewrite ?length_app, ?length_be_enc
    |rewrite ?length_be_enc; unfold ResponseSize; simpl; lia]).
  rewrite !length_be_enc. cbn [length ResponseSize Nat.sub replicate].
  unfold response. by rewrite app_nil_r, <- !app_assoc.
Qed.

Lemma length_response mt fl sq : length (response mt fl sq) = ResponseSize.
Proof. unfold response. by rewrite !length_app, !length_be_enc. Qed.

Lemma metrics_replied src P evs : metrics_only evs → replied src P evs.
Proof. by left. Qed.

Lemma replied_prefix src P ms evs : metrics_only ms → replied src P evs → replied src P (ms ++ evs).
Proof.
  intros Hm [He|(ms1 & a & b & ok & ms2 & -> & ? & ? & ? & ?)].
  - left. by apply metrics_only_app.
  - right. exists (ms ++ ms1), a, b, ok, ms2. rewrite <- app_assoc.
    split_and!; try done. by apply metrics_only_app.
Qed.

Lemma replied_suffix src P ms evs : metrics_only ms → replied src P evs → replied src P (evs ++ ms).
Proof.
  intros Hm [He|(ms1 & a & b & ok & ms2 & -> & ? & ? & ? & ?)].
  - left. by apply metrics_only_app.
  - right. exists ms1, a, b, ok, (ms2 ++ ms). rewrite <- app_assoc.
    split_and!; try done. by apply metrics_only_app.
Qed.

Lemma outcome_prefix P s d src ms evs jobs :
  metrics_only ms → outcome_in P s d src evs jobs → outcome_in P s d src (ms ++ evs) jobs.
Proof.
  intros Hm Ho. destruct Ho as [evs He|evs Ht Hr|evs jobs e Hp Hc Hr Hj|evs copies reply raw e Hp Hc -> Hf Hr].
  - apply Dropped. by apply metrics_only_app.
  - apply Throttled; [done|by apply replied_prefix].
  - eapply Missed; [done..|by apply replied_prefix|done].
  - eapply (Served _ _ _ _ _ (ms ++ copies) reply); [done..|by rewrite app_assoc| |].
    + apply Forall_app. split; [|done]. by eapply Forall_impl; [exact Hm|intros []].
    + destruct Hr as [?|(ms1 & a & b & ok & ms2 & -> & ? & ? & ? & ? & fl & (? & ? & ? & ?) & ?)]; [by left|].
      right. eexists ms1, a, b, ok, ms2. split_and!; [done..|]. exists fl.
      split_and!; [|done]. unfold honest_flags. split_and!; [lia|lia| | |done]; eauto with trace.
Qed.

Lemma groupIdxOf_total s eng raw txID : is_Some (groupIdxOf s eng raw txID).
Proof.
  unfold groupIdxOf.
  assert (∃ g1, (if decide (IsBundle raw = true ∧ 58 ≤ length raw)%nat
        then gsub 56 58 raw ≫= BE_Uint16 else Some (eng_GroupIndex eng txID)) = Some g1) as [g1 ->].
  { case_decide as Hb; [|eauto]. rewrite gsub_Some by lia. simpl.
    rewrite BE_Uint16_Some by (rewrite length_field; lia). eauto. }
  simpl. destruct (beefEngine s); [|done]. case_decide as Hb; [|done].
  by rewrite gsub_Some by lia.
Qed.

(** The key the handler looks up is the flow key of the datagram. *)
Lemma lookup_key d : (64 ≤ length d)%nat →
  (k ← gput 0 (be_enc 8 (rq_hashKey d)) (replicate 16 x00); gput 8 (be_enc 8 (rq_seq d)) k) =
    Some (field 8 24 d).
Proof.
  intros Hl. unfold rq_hashKey, rq_seq. rewrite !be_enc_field by lia.
  rewrite gput_first by (rewrite length_field; lia).
  cbn [mbind option_bind]. rewrite gput_next; [|by rewrite length_field by lia|].
  2:{ rewrite !length_field by lia. lia. }
  rewrite !length_field by lia. simpl. by rewrite app_nil_r, field_app_adj by lia.
Qed.

Lemma validateNACK_total d :
  ∃ v, validateNACK d = Some v ∧ (v = None → (64 ≤ length d)%nat).
Proof.
  unfold validateNACK, NACKSize. case_decide; [by eexists|].
  rewrite gsub_Some by lia. simpl. rewrite BE_Uint32_Some by (rewrite length_field; lia). simpl.
  case_decide; [by eexists|]. destruct (lookup_lt_is_Some_2 d 6) as [t ->]; [lia|]. simpl.
  case_decide; eexists; (split; [done|]); [done|lia].
Qed.

(** The handler after validation, with the parsed fields in place. *)
Definition handleValid (s : Server) (d : bytes) (src : option udpaddr) : GoM (world E) unit :=
  if negb (rq_end d =? rq_seq d) then mret tt else
  '(allowed, level) ← allow (srcIPOf src) (rq_hashKey d) (rq_seq d);
  if negb allowed then
    _ ← emit (rec s) (RateLimitDrop level);
    if decide (level = LevelSequence) then throttle s src throttleBucketSequence (rq_seq d)
    else mret tt
  else
  chainOk ← lim_op (AllowChain growcap (srcIPOf src) (rq_hashKey d));
  if negb chainOk then
    _ ← emit (rec s) (RateLimitDrop LevelChain);
    throttle s src throttleBucketChain (rq_seq d)
  else
  r ← env_op (@cache_Retrieve E (cache s) (field 8 24 d));
  match r with
  | inr _ => emit (rec s) CacheError
  | inl None => serveMiss s src (rq_proxied d) (rq_hashKey d) (rq_seq d) (field 32 64 d)
  | inl (Some raw) => serveHit s src (srcIPOf src) (rq_proxied d) (rq_seq d) raw
  end.

(** What validation and parsing leave of the handler. *)
Lemma processNACK_valid s d src : validateNACK d = Some None →
  processNACK s d src = (_ ← emit (rec s) NACKRequest; handleValid s d src).
Proof.
  intros Hv. destruct (validateNACK_total d) as (v & Hv' & Hl).
  assert (64 ≤ length d)%nat as Hlen by (apply Hl; congruence).
  unfold processNACK. rewrite Hv. destruct (lookup_lt_is_Some_2 d 7) as [fb Hfb]; [lia|].
  rewrite Hfb. rewrite !gsub_BE_Uint64 by (done || lia). rewrite (gsub_Some 32 64) by lia. cbn [liftO].
  assert (rq_proxied d = negb (Z.land (byte_Z fb) Proxy.FlagProxied =? 0)) as Hp.
  { unfold rq_proxied. by rewrite Hfb. }
  repeat (rewrite gret_bind; cbv beta iota zeta). rewrite <- Hp.
  change (be_dec (field 24 32 d)) with (rq_end d).
  change (be_dec (field 16 24 d)) with (rq_seq d). change (be_dec (field 8 16 d)) with (rq_hashKey d).
  rewrite lookup_key by done. reflexivity.
Qed.

Lemma processNACK_parsed s d src w Q :
  validateNACK d = Some None →
  wp (handleValid s d src) Q
    (mkWorld (w_env w) (w_lim w) (w_queue w) (w_events w ++ (if rec s then [EvMetric NACKRequest] else []))) →
  wp (processNACK s d src) Q w.
Proof. intros Hv HQ. rewrite processNACK_valid by done. wp_step. by wp_step. Qed.

(** The two tiers of [allow] when nothing runs between them. *)
Lemma wp_allow srcIP hk sq w ok lvl l e Q :
  Allow growcap srcIP hk sq (w_lim w) (w_env w) = Some (ok, lvl, l, e) →
  Q (ok, lvl) (mkWorld e l (w_queue w) (w_events w)) → wp (allow srcIP hk sq) Q w.
Proof.
  unfold Allow, allow. intros Ha HQ. wp_step. destruct (AllowIP srcIP _ _) as [[ok1 l1] e1] eqn:H1.
  eapply wp_lim_op; [by rewrite H1|]. destruct ok1; cbn [negb] in *; [|simplify_eq; by wp_step].
  destruct (AllowSequence growcap hk sq l1 e1) as [[[ok2 l2] e2]|] eqn:H2; simpl in Ha; [|done].
  wp_step. eapply wp_lim_op; [exact H2|]. destruct ok2; cbn [negb] in *; simplify_eq; by wp_step.
Qed.

(** What a request does to its environment, its retransmits apart, keeps [P]. *)
Class RequestEnv (P : E → Prop) (s : Server) : Prop := {
  se_now :: Keeps P mono_now;
  se_rate :: ∀ l, Keeps P (rate_Allow l);
  se_write :: ∀ so b dst, Keeps P (sock_write so b dst);
  se_get :: ∀ k, Keeps P (@cache_Retrieve E (cache s) k);
}.
#[global] Instance requestEnv_any s : RequestEnv (λ _, True) s.
Proof. split; apply _. Qed.

(** What runs beside a request keeps [P] of the environment, leaves the limiter
    well-formed and keeps [J] of the queue. *)
Section beside.
Context (P : E → Prop) (J : list job → Prop) (s : Server) `{!RequestEnv P s}.
Abbreviation beside := (wpi P (λ l q, lim_ok l ∧ J q)).

Lemma wpi_writeResponse a b label (R : udpaddr → bytes → Prop) : R a b →
  beside (writeResponse s a b label) (λ _ evs jobs, jobs = [] ∧ replied (Some a) R evs).
Proof.
  intros HP. unfold writeResponse. wpi_step. wpi_step.
  destruct err; wpi_step; (split; [done|]); right;
    eexists [], _, _, _, _; (split_and!; [done|constructor|apply metrics_only_metric|done..]).
Qed.

Lemma wpi_throttle d src bucket : bucket ∈ [x02; x03; x04] →
  beside (throttle s src bucket (rq_seq d)) (λ _ evs jobs, outcome_in P s d src evs jobs).
Proof.
  intros Hb. unfold throttle. destruct src as [a|]; [|wpi_step; apply Dropped; constructor].
  apply wpi_when; intros Ht; [|apply Dropped; constructor].
  unfold sendThrottled. wpi_step. eapply wpi_liftO; [apply responseBuf_eq|].
  eapply wpi_mono; [eapply (wpi_writeResponse a _ _ (λ _ b, ∃ bucket, bucket ∈ [x02; x03; x04] ∧
      b = response msgTypeThrottled bucket (rq_seq d)))|].
  - exists bucket. split; [done|]. f_equal.
    repeat (apply elem_of_cons in Hb as [->|Hb]; [done|]). by apply not_elem_of_nil in Hb.
  - intros ? evs ? (-> & ?). by apply Throttled.
Qed.

Section hit.
Context (Hrt : @RetransOn _ _ P (retransmit s)).

Lemma mc_copies d src raw evs :
  retransmitMC s = true → mc_only raw evs → Forall (copy_event s d src raw) evs.
Proof. intros Hm Hf. eapply Forall_impl; [exact Hf|]. by intros [|[]]. Qed.

Lemma uc_copies d a raw evs :
  (retransmitUC s || rq_proxied d) = true → uc_only raw a evs →
  Forall (copy_event s d (Some a) raw) evs.
Proof. intros Hm Hf. eapply Forall_impl; [exact Hf|]. intros [|[]]; try done. by intros [-> ->]. Qed.

Lemma metrics_copies d src raw evs :
  metrics_only evs → Forall (copy_event s d src raw) evs.
Proof. intros Hf. eapply Forall_impl; [exact Hf|]. by intros []. Qed.

(** The multicast half: the flag is set only after a copy went out. *)
Lemma wpi_dispatch_mc d src raw txID : length txID = 32%nat →
  beside (if retransmitMC s then
        err ← @rt_Retransmit E _ (retransmit s) raw txID;
        match err with
        | None => _ ← emit (rec s) External.Retransmit; mret (Some ackFlagMulticastSent)
        | Some err => if errors_Is err ErrDedupSuppressed then mret (Some 0) else mret None
        end
      else mret (Some 0))
    (λ r evs jobs, jobs = [] ∧ Forall (copy_event s d src raw) evs ∧
       (r = None ∨ r = Some 0 ∨ (r = Some 1 ∧ multicast_of raw evs))).
Proof.
  intros Hl. destruct (retransmitMC s) eqn:Hm; [|wpi_step; split_and!; [done|constructor|auto]].
  wpi_step. eapply wpi_mono; [by apply rt_multicast|]. intros err evs ? (-> & Hmc & Hs).
  destruct err as [err|].
  - destruct (errors_Is _ _); wpi_step; (split_and!; [done|by apply mc_copies|auto]).
  - wpi_step. wpi_step. wpi_step. split_and!; [done| |].
    + apply Forall_app. split; [by apply mc_copies|]. apply metrics_copies, metrics_only_metric.
    + right. right. split; [done|]. apply multicast_of_app. auto.
Qed.

Lemma honest_flags_intro d raw a evs fl :
  fl = 0 ∨ (fl = 1 ∧ multicast_of raw evs) →
  (fl ≠ 0 ∨ retransmitMC s || (retransmitUC s || rq_proxied d) = false) →
  honest_flags s d raw a evs fl.
Proof.
  intros Hfl Hat. unfold honest_flags. split_and!.
  - naive_solver lia.
  - naive_solver lia.
  - by destruct Hfl as [->|[-> ?]].
  - by destruct Hfl as [->|[-> ?]].
  - intros ->. destruct Hat as [|Hat]; [done|]. by apply orb_false_iff in Hat.
Qed.

Lemma honest_flags_unicast d raw a evs fl :
  fl = 0 ∨ (fl = 1 ∧ multicast_of raw evs) → unicast_of raw a evs →
  honest_flags s d raw a evs (Z.lor fl ackFlagUnicastSent).
Proof. intros [->|[-> ?]] ?; unfold honest_flags; simpl; split_and!; done || lia. Qed.

Lemma wpi_dispatch d src raw txID : length txID = 32%nat →
  beside (dispatch s src (rq_proxied d) raw txID) (λ r evs jobs, jobs = [] ∧
    Forall (copy_event s d src raw) evs ∧
    ∀ fl a, r = Some fl → src = Some a →
      (fl ≠ 0 ∨ retransmitMC s || (retransmitUC s || rq_proxied d) = false) →
      honest_flags s d raw a evs fl).
Proof.
  intros Hl. unfold dispatch. wpi_step.
  eapply wpi_mono; [by apply (wpi_dispatch_mc d src)|]. intros mc evs1 ? (-> & Hc1 & Hmc).
  destruct mc as [fl|]; [|by wpi_step].
  assert (fl = 0 ∨ (fl = 1 ∧ multicast_of raw evs1)) as Hfl.
  { destruct Hmc as [|[?|[? ?]]]; simplify_eq; auto. }
  assert (∀ fl' a, Some fl = Some fl' → src = Some a →
    (fl' ≠ 0 ∨ retransmitMC s || (retransmitUC s || rq_proxied d) = false) →
    honest_flags s d raw a evs1 fl') as Hmc1.
  { intros fl' a [= <-] _. by apply honest_flags_intro. }
  destruct src as [a|]; [|by wpi_step].
  destruct (retransmitUC s || rq_proxied d) eqn:Hu; [|by wpi_step].
  wpi_step. eapply wpi_mono; [apply rt_unicast|]. intros err evs2 ? (-> & Hc2 & Huc).
  assert (Forall (copy_event s d (Some a) raw) (evs1 ++ evs2)) as Hc.
  { apply Forall_app. split; [done|by apply uc_copies]. }
  destruct err as [err|].
  - wpi_step. split_and!; [done..|].
    intros fl' a' [= <-] [= <-] Hne. apply honest_flags_intro; [|by rewrite Hu].
    destruct Hfl as [?|[? ?]]; eauto 6 with trace.
  - specialize (Huc eq_refl). wpi_step. wpi_step. wpi_step. rewrite app_assoc. split_and!; [done| |].
    + apply Forall_app. split; [done|]. apply metrics_copies, metrics_only_metric.
    + intros fl' a' [= <-] [= <-] _. apply honest_flags_unicast; [|auto 6 with trace].
      destruct Hfl as [?|[? ?]]; eauto 8 with trace.
Qed.
End hit.

(** The refusal of a tier: counted, and answered with a hint at most. *)
Lemma wpi_refused d src lvl bucket : bucket ∈ [x02; x03; x04] →
  beside (_ ← emit (rec s) (RateLimitDrop lvl); throttle s src bucket (rq_seq d))
    (λ _ evs jobs, outcome_in P s d src evs jobs).
Proof.
  intros Hb. wpi_step. wpi_step. eapply wpi_mono; [by apply wpi_throttle|]. intros ? evs jobs Ho.
  apply outcome_prefix; [apply metrics_only_metric|done].
Qed.

Lemma wpi_groupTier d src srcIP raw txID :
  beside (groupTier s src srcIP (rq_seq d) raw txID) (λ go evs jobs,
    if go : bool then evs = [] ∧ jobs = [] else outcome_in P s d src evs jobs).
Proof.
  unfold groupTier. destruct (shardEngine s) as [eng|]; [|by wpi_step].
  destruct (groupIdxOf_total s eng raw txID) as [g Hg]. wpi_step. eapply wpi_liftO; [exact Hg|].
  wpi_step. apply wpi_lim_op. intros l q e Hp [Hl HJ]. pose proof (AllowGroup_ok srcIP g l e Hl) as Hok.
  pose proof (AllowGroup_keeps P srcIP g l e Hp) as Hk.
  destruct (AllowGroup srcIP g l e) as [[ok l'] e']. exists ok, l', e'. split_and!; [done..|].
  destruct ok; [by wpi_step|].
  wpi_step. wpi_step. wpi_step. eapply wpi_mono; [apply (wpi_throttle d); by repeat constructor|].
  intros ? evs jobs Ho. wpi_step. apply outcome_prefix; [apply metrics_only_metric|done].
Qed.

Lemma wpi_ack d a raw copies fl :
  honest_flags s d raw a copies fl → suppressACK s = false →
  beside (sendResponse s a msgTypeACK (Z_byte fl) (rq_seq d)) (λ _ evs jobs, jobs = [] ∧
    replied (Some a) (λ a b, suppressACK s = false ∧ ∃ fl, honest_flags s d raw a copies fl ∧
      b = response msgTypeACK (Z_byte fl) (rq_seq d)) evs).
Proof.
  intros Hh Hs. unfold sendResponse. wpi_step. eapply wpi_liftO; [apply responseBuf_eq|].
  apply wpi_writeResponse. eauto.
Qed.

Lemma wpi_serveHit d src srcIP raw e0 :
  @RetransOn _ _ P (retransmit s) →
  P e0 → (@cache_Retrieve E (cache s) (field 8 24 d) e0).1 = inl (Some raw) →
  beside (serveHit s src srcIP (rq_proxied d) (rq_seq d) raw) (λ _ evs jobs, outcome_in P s d src evs jobs).
Proof.
  intros Hrt Hp0 Hc. unfold serveHit. wpi_step. wpi_step. wpi_step.
  assert (∃ txID, (if decide (40 ≤ length raw)%nat then gsub 8 40 raw else Some (replicate 32 x00)) = Some txID ∧
    length txID = 32%nat) as (txID & Htx & Hlen).
  { case_decide; [|by eexists]. rewrite gsub_Some by lia. eexists. split; [done|]. rewrite length_field; lia. }
  eapply wpi_liftO; [exact Htx|]. cbn [app]. wpi_step. eapply wpi_mono; [apply (wpi_groupTier d)|].
  intros go evs1 jobs1 Hgo. destruct go; cbn [negb].
  2:{ wpi_step. apply outcome_prefix; [apply metrics_only_metric|done]. }
  destruct Hgo as [-> ->]. wpi_step.
  eapply wpi_mono; [by apply (wpi_dispatch Hrt d src)|]. intros flags evs ? (-> & Hcp & Hfl). cbn [app].
  eapply (wpi_mono _ _ _ (λ _ reply jobs, jobs = [] ∧ replied src (λ a b, suppressACK s = false ∧
      ∃ fl, honest_flags s d raw a evs fl ∧ b = response msgTypeACK (Z_byte fl) (rq_seq d)) reply)).
  - destruct flags as [fl|]; [|wpi_step; split; [done|left; constructor]].
    destruct src as [a|]; [|wpi_step; split; [done|left; constructor]].
    apply wpi_when; intros Hw; [|split; [done|left; constructor]].
    apply andb_true_iff in Hw as [Hs Hor]. apply negb_true_iff in Hs.
    apply wpi_ack; [|done]. apply Hfl; [done..|].
    apply orb_true_iff in Hor as [Hor|Hor]; apply negb_true_iff in Hor; [left; lia|by right].
  - intros ? reply ? (-> & Hrep). apply outcome_prefix; [apply metrics_only_metric|]. by eapply Served.
Qed.

Lemma wpi_serveMiss d src e0 :
  proxies_keep J s → (64 ≤ length d)%nat → P e0 → (@cache_Retrieve E (cache s) (field 8 24 d) e0).1 = inl None →
  beside (serveMiss s src (rq_proxied d) (rq_hashKey d) (rq_seq d) (field 32 64 d))
    (λ _ evs jobs, outcome_in P s d src evs jobs).
Proof.
  intros Hp Hlen Hp0 Hc. unfold serveMiss. wpi_step. wpi_step. wpi_step.
  eapply (wpi_mono _ _ _ (λ _ evs jobs, jobs = [] ∧
    replied src (λ _ b, suppressMISS s = false ∧ b = response msgTypeMISS x00 0) evs)).
  { destruct src as [a|]; [|wpi_step; split; [done|left; constructor]].
    apply wpi_when; intros Hw; [|split; [done|left; constructor]].
    unfold sendResponse. wpi_step. eapply wpi_liftO; [apply responseBuf_eq|].
    apply wpi_writeResponse. split; [by apply negb_true_iff|done]. }
  intros ? evs ? (-> & Hr). cbn [app].
  assert (∀ evs', metrics_only evs' → replied src (λ _ b, suppressMISS s = false ∧ b = response msgTypeMISS x00 0)
    ((if rec s then [EvMetric CacheMiss] else []) ++ evs ++ evs')) as Hrep.
  { intros evs' Hm. apply replied_prefix; [apply metrics_only_metric|]. by apply replied_suffix. }
  assert (outcome_in P s d src ((if rec s then [EvMetric CacheMiss] else []) ++ evs) []) as Hplain.
  { eapply Missed; [done..| |by left]. rewrite <- (app_nil_r evs). apply Hrep. constructor. }
  unfold proxies_keep in Hp. destruct (proxy s) as [p|] eqn:Hpx; [|by wpi_step]. destruct Hp as (cap & Hp & HJ).
  destruct (rq_proxied d) eqn:Hd; cbn [negb]; [by wpi_step|].
  wpi_step. eapply wpi_mono; [apply px_enqueue|].
  { intros l q [Hl Hq] Hc'. split; [done|]. apply HJ; [done..|]. simpl. rewrite length_field; lia. }
  intros ok evs2 jobs2 (Hm2 & ->). wpi_step.
  eapply Missed; [done..|by apply Hrep|]. destruct ok; [right|by left].
  split_and!; [done..|]. by rewrite Hpx.
Qed.

Lemma wpi_allow srcIP hk sq :
  beside (allow srcIP hk sq) (λ _ evs jobs, evs = [] ∧ jobs = []).
Proof.
  unfold allow. wpi_step. apply wpi_lim_op. intros l q e Hp [Hl HJ]. pose proof (AllowIP_ok srcIP l e Hl) as Hok.
  pose proof (AllowIP_keeps P srcIP l e Hp) as Hk.
  destruct (AllowIP srcIP l e) as [[ok l'] e']. exists ok, l', e'. split_and!; [done..|].
  destruct ok; [|by wpi_step]. cbn [negb]. wpi_step. apply wpi_lim_op. intros l1 q1 e1 Hp1 [Hl1 HJ1].
  destruct (AllowSequence_total growcap hk sq l1 e1 Hl1) as (ok & l2 & e2 & Ha & Hl2).
  exists ok, l2, e2. split_and!; [done|exact (AllowSequence_keeps _ P _ _ _ _ _ _ _ Hp1 Ha)|done..|]. by destruct ok; wpi_step.
Qed.

Lemma wpi_handleValid d src :
  @RetransOn _ _ P (retransmit s) → proxies_keep J s → (64 ≤ length d)%nat →
  beside (handleValid s d src) (λ _ evs jobs, outcome_in P s d src evs jobs).
Proof.
  intros Hrt Hpx Hlen. unfold handleValid. destruct (negb _); [wpi_step; apply Dropped; constructor|].
  wpi_step. eapply wpi_mono; [apply wpi_allow|]. intros [ok lvl] ? ? [-> ->]. cbn [app]. destruct ok; cbn [negb].
  2:{ case_decide; [apply wpi_refused; by repeat constructor|].
      wpi_step. wpi_step. wpi_step. apply Dropped, metrics_only_metric. }
  wpi_step. apply wpi_lim_op. intros l q e Hp [Hl HJ].
  destruct (AllowChain_total growcap (srcIPOf src) (rq_hashKey d) l e Hl) as (ok & l2 & e2 & Hac & Hl2).
  exists ok, l2, e2. split_and!; [done|exact (AllowChain_keeps _ P _ _ _ _ _ _ _ Hp Hac)|done..|]. cbn [app]. destruct ok; cbn [negb].
  2:{ apply wpi_refused; by repeat constructor. }
  wpi_step. wpi_step. destruct a as [[raw|]|err].
  - eapply wpi_serveHit; [done..|by rewrite Hop].
  - eapply wpi_serveMiss; [done..|by rewrite Hop].
  - wpi_step. apply Dropped, metrics_only_metric.
Qed.

(** The contract of a request, whatever runs beside it. *)
Lemma wpi_processNACK d src :
  @RetransOn _ _ P (retransmit s) → proxies_keep J s →
  beside (processNACK s d src) (λ _ evs jobs, outcome_in P s d src evs jobs).
Proof.
  intros Hrt Hpx. destruct (validateNACK_total d) as ([err|] & Hv & Hlen).
  - unfold processNACK. wpi_step. wpi_step. wpi_step. eapply wpi_liftO; [exact Hv|].
    wpi_step. apply Dropped, metrics_only_metric.
  - rewrite processNACK_valid by done. wpi_step. wpi_step. eapply wpi_mono; [by apply wpi_handleValid; auto|].
    intros ? evs jobs Ho. apply outcome_prefix; [apply metrics_only_metric|done].
Qed.
End beside.

(** Fields of a response. *)
Lemma response_lookup mt fl sq :
  response mt fl sq !! 6%nat = Some mt ∧ response mt fl sq !! 7%nat = Some fl.
Proof.
  unfold response. split; do 2 (rewrite lookup_app_r by (rewrite length_be_enc; lia); rewrite !length_be_enc); done.
Qed.

Lemma response_type mt fl sq t : response mt fl sq !! 6%nat = Some t → mt = t.
Proof. destruct (response_lookup mt fl sq) as [-> _]. by intros [=]. Qed.

Lemma rq_seq_range d : 0 ≤ rq_seq d < 2 ^ 64.
Proof.
  unfold rq_seq. pose proof (be_dec_range (field 16 24 d)) as Hb.
  assert (length (field 16 24 d) ≤ 8)%nat by (unfold field; rewrite length_take; lia).
  assert (256 ^ Z.of_nat (length (field 16 24 d)) ≤ 256 ^ Z.of_nat 8)
    by (apply Z.pow_le_mono_r; lia). lia.
Qed.

Lemma response_seq mt fl sq : field 8 16 (response mt fl sq) = be_enc 8 sq.
Proof.
  unfold field, response. rewrite !app_assoc. rewrite drop_app_length' by (by rewrite !length_app, !length_be_enc).
  by rewrite take_ge by (rewrite length_be_enc; lia).
Qed.

Lemma replied_elem src P evs a b ok :
  replied src P evs → EvWrite NACKSocket a b ok ∈ evs → src = Some a ∧ P a b.
Proof.
  intros [Hm|(ms1 & a' & b' & ok' & ms2 & -> & Hm1 & Hm2 & ? & ?)] Hin.
  - by pose proof (proj1 (Forall_forall _ _) Hm _ Hin).
  - apply elem_of_app in Hin as [Hin|Hin]; [by pose proof (proj1 (Forall_forall _ _) Hm1 _ Hin)|].
    apply elem_of_cons in Hin as [Heq|Hin]; [by simplify_eq|].
    by pose proof (proj1 (Forall_forall _ _) Hm2 _ Hin).
Qed.

Lemma copies_no_response s d src raw copies : Forall (copy_event s d src raw) copies → responses copies = [].
Proof. induction 1 as [|[|[]] ? Hev _ IH]; done. Qed.

Lemma replied_responses src P evs : replied src P evs → (length (responses evs) ≤ 1)%nat.
Proof.
  intros [Hm|(ms1 & a' & b' & ok' & ms2 & -> & Hm1 & Hm2 & ? & ?)].
  - rewrite metrics_only_responses by done. simpl. lia.
  - rewrite filter_app, filter_cons, decide_True by done.
    rewrite (metrics_only_responses ms1), (metrics_only_responses ms2) by done. done.
Qed.

(** Every case of the contract has at most one response. *)
Lemma outcome_responses s d src evs jobs : outcome s d src evs jobs → (length (responses evs) ≤ 1)%nat.
Proof.
  intros Ho. destruct Ho as [evs He|evs Ht Hr|evs jobs e _ Hc Hr Hj|evs copies reply raw e _ Hc -> Hf Hr].
  - by eapply (replied_responses None (λ _ _, True)), metrics_replied.
  - by eapply replied_responses.
  - by eapply replied_responses.
  - rewrite filter_app. erewrite copies_no_response by done. by eapply replied_responses.
Qed.

(** What a response datagram of a run can be, by its type byte. *)
Lemma outcome_response s d src evs jobs a b ok :
  outcome s d src evs jobs → EvWrite NACKSocket a b ok ∈ evs →
  src = Some a ∧
  ((∃ bucket, b = response msgTypeThrottled bucket (rq_seq d) ∧ jobs = [] ∧
      metrics_only (filter (λ ev, ¬ is_response ev) evs)) ∨
   b = response msgTypeMISS x00 0 ∨
   (∃ raw e fl copies reply, (@cache_Retrieve E (cache s) (field 8 24 d) e).1 = inl (Some raw) ∧
      evs = copies ++ reply ∧ honest_flags s d raw a copies fl ∧
      b = response msgTypeACK (Z_byte fl) (rq_seq d))).
Proof.
  intros Ho Hin. destruct Ho as [evs He|evs Ht Hr|evs jobs e _ Hc Hr Hj|evs copies reply raw e _ Hc -> Hf Hr].
  - by pose proof (proj1 (Forall_forall _ _) He _ Hin).
  - pose proof (replied_elem _ _ _ _ _ _ Hr Hin) as (-> & bucket & _ & ->). split; [done|]. left. exists bucket.
    split_and!; [done..|]. destruct Hr as [Hm|(ms1 & a' & b' & ok' & ms2 & -> & Hm1 & Hm2 & ? & ?)].
    + by apply metrics_only_filter.
    + rewrite filter_app, filter_cons, decide_False by (simpl; tauto).
      apply metrics_only_app; by apply metrics_only_filter.
  - pose proof (replied_elem _ _ _ _ _ _ Hr Hin) as (-> & _ & ->). auto.
  - apply elem_of_app in Hin as [Hin|Hin]; [by pose proof (proj1 (Forall_forall _ _) Hf _ Hin)|].
    pose proof (replied_elem _ _ _ _ _ _ Hr Hin) as (-> & _ & fl & Hfl & ->). split; [done|]. right. right. naive_solver.
Qed.

(** The fields the server reads from the NACK the proxy builds. *)
Lemma buildNACK_fields j d :
  length (j_subtree j) = 32%nat → Proxy.buildNACK j = Some d →
  length d = 64%nat ∧ field 0 4 d = be_enc 4 MagicBSV ∧ d !! 6%nat = Some msgTypeNACK ∧
  d !! 7%nat = Some x01 ∧ field 8 16 d = be_enc 8 (j_hashKey j) ∧
  field 16 24 d = be_enc 8 (j_seq j) ∧ field 24 32 d = be_enc 8 (j_seq j) ∧
  field 32 64 d = j_subtree j.
Proof.
  intros Hs. rewrite Proxy.buildNACK_eq by done. intros Hd. apply (inj Some) in Hd as <-.
  assert (∀ lo hi n z (l : bytes), (n ≤ lo)%nat → field lo hi (be_enc n z ++ l) = field (lo - n) (hi - n) l) as Hsk.
  { intros. by rewrite field_skip, length_be_enc by (rewrite length_be_enc; lia). }
  split_and!; [by rewrite !length_app, !length_be_enc, Hs| | | |..].
  - by rewrite field_head by apply length_be_enc.
  - do 2 (rewrite lookup_app_r by (rewrite length_be_enc; lia); rewrite !length_be_enc). done.
  - do 2 (rewrite lookup_app_r by (rewrite length_be_enc; lia); rewrite !length_be_enc). done.
  - do 2 rewrite Hsk by lia. do 2 rewrite field_skip by (simpl; lia). by apply field_head, length_be_enc.
  - do 2 rewrite Hsk by lia. do 2 rewrite field_skip by (simpl; lia). rewrite Hsk by (simpl; lia).
    by apply field_head, length_be_enc.
  - do 2 rewrite Hsk by lia. do 2 rewrite field_skip by (simpl; lia). do 2 rewrite Hsk by (simpl; lia).
    by apply field_head, length_be_enc.
  - do 2 rewrite Hsk by lia. do 2 rewrite field_skip by (simpl; lia). do 3 rewrite Hsk by (simpl; lia).
    by apply field_all.
Qed.

(** ** Theorems *)

(** C32: the proxied NACK round-trips. What the proxy of one endpoint encodes,
    the server of another accepts and decodes to the same HashKey, SeqNum and
    subtree, as a single-frame request that carries the proxied flag. *)
Theorem proxied_nack_roundtrip (j : job) (d : bytes) (src : option udpaddr) :
  FrameLibOk → 0 ≤ j_hashKey j < 2 ^ 64 → 0 ≤ j_seq j < 2 ^ 64 → length (j_subtree j) = 32%nat →
  Proxy.buildNACK j = Some d →
  validateNACK d = Some None ∧ rq_end d = rq_seq d ∧ rq_proxied d = true ∧
  rq_job d src = mkJob (j_hashKey j) (j_seq j) (j_subtree j) src.
Proof.
  intros Hok Hh Hq Hs Hb. destruct (buildNACK_fields j d Hs Hb) as (Hl & Hm & Ht & Hf & H1 & H2 & H3 & H4).
  split_and!.
  - unfold validateNACK, NACKSize. rewrite decide_False by lia. rewrite gsub_Some by lia. cbn [mbind option_bind].
    rewrite Hm, BE_Uint32_Some by apply length_be_enc. cbn [mbind option_bind].
    rewrite be_dec_enc_small by apply magic_range. rewrite decide_False by (intros Hn; by apply Hn).
    rewrite Ht. cbn [mbind option_bind]. by rewrite decide_False by (intros Hn; by apply Hn).
  - unfold rq_end, rq_seq. by rewrite H2, H3.
  - unfold rq_proxied. by rewrite Hf.
  - unfold rq_job, rq_hashKey, rq_seq. by rewrite H1, H2, H4, !be_dec_enc_small.
Qed.

(** The flood tier is silent. A request the IP tier rejects draws no
    datagram of any kind, no recovery and no cache lookup, even with THROTTLED
    replies enabled, so a spoofed flood is never answered. *)
Theorem ip_tier_silent s (d : bytes) (src : option udpaddr) (w : world E) l' e' :
  validateNACK d = Some None → rq_end d = rq_seq d →
  Allow growcap (srcIPOf src) (rq_hashKey d) (rq_seq d) (w_lim w) (w_env w) =
    Some (false, LevelIP, l', e') →
  ∃ ms, metrics_only ms ∧
    processNACK s d src w = Some (tt, mkWorld e' l' (w_queue w) (w_events w ++ ms)).
Proof.
  intros Hv Hr Ha.
  assert (wp (processNACK s d src) (λ _ w', ∃ ms, metrics_only ms ∧
    w' = mkWorld e' l' (w_queue w) (w_events w ++ ms)) w) as Hwp.
  { apply processNACK_parsed; [done|]. unfold handleValid. rewrite Hr, Z.eqb_refl.
    wp_step. eapply wp_allow; [exact Ha|]. wp_step. wp_step.
    rewrite decide_False by done. wp_step. rewrite <- app_assoc. eexists. split; [|done]. auto with trace. }
  apply wp_iff in Hwp as ([] & w' & Hrun & ms & Hm & ->). eauto.
Qed.

(** A cache error is answered with silence. When the backend returns an
    error for an admitted request, the handler counts it and sends nothing: no
    MISS and no recovery job, unlike a miss. *)
Theorem cache_error_silent s (d : bytes) (src : option udpaddr) (w : world E) l1 e1 l2 e2 err e3 :
  validateNACK d = Some None → rq_end d = rq_seq d →
  Allow growcap (srcIPOf src) (rq_hashKey d) (rq_seq d) (w_lim w) (w_env w) =
    Some (true, ""%string, l1, e1) →
  AllowChain growcap (srcIPOf src) (rq_hashKey d) l1 e1 = Some (true, l2, e2) →
  @cache_Retrieve E (cache s) (field 8 24 d) e2 = (inr err, e3) →
  processNACK s d src w = Some (tt, mkWorld e3 l2 (w_queue w)
    (w_events w ++ if rec s then [EvMetric NACKRequest; EvMetric CacheError] else [])).
Proof.
  intros Hv Hr Ha Hc Hg.
  assert (wp (processNACK s d src) (λ _ w', w' = mkWorld e3 l2 (w_queue w)
    (w_events w ++ if rec s then [EvMetric NACKRequest; EvMetric CacheError] else [])) w) as Hwp.
  { apply processNACK_parsed; [done|]. unfold handleValid. rewrite Hr, Z.eqb_refl.
    wp_step. eapply wp_allow; [exact Ha|]. wp_step. eapply wp_lim_op; [exact Hc|].
    wp_step. wp_step. rewrite Hg in Hop. simplify_eq. wp_step. rewrite <- app_assoc.
    by destruct (rec s). }
  apply wp_iff in Hwp as ([] & w' & Hrun & ->). done.
Qed.

Section theorems.
Context (s : Server).
Context (Hrt : RetransOk (retransmit s)) (Hpx : proxies_ok s).

(** Every run from a well-formed limiter is a case of the contract. *)
Lemma run_handled d src w : lim_ok (w_lim w) →
  ∃ w', processNACK s d src w = Some (tt, w') ∧ lim_ok (w_lim w') ∧ ∃ evs jobs, w_events w' = w_events w ++ evs ∧
    w_queue w' = w_queue w ++ jobs ∧ outcome s d src evs jobs.
Proof.
  intros Hl. assert (proxies_keep (λ _, True) s) as Hk.
  { revert Hpx. unfold proxies_ok, proxies_keep. destruct (proxy s); [|done]. intros [cap ?]. by exists cap. }
  destruct (wpi_run _ _ _ _ w (wpi_processNACK (λ _, True) _ s d src Hrt Hk) I (conj Hl I))
    as ([] & w' & evs & jobs & ? & [? _] & ? & ? & ?). eauto 10.
Qed.

Lemma run_outcome d src (w w' : world E) evs : lim_ok (w_lim w) →
  processNACK s d src w = Some (tt, w') → w_events w' = w_events w ++ evs →
  lim_ok (w_lim w') ∧ ∃ jobs, w_queue w' = w_queue w ++ jobs ∧ outcome s d src evs jobs.
Proof.
  intros Hl Hr He. destruct (run_handled d src w Hl) as (w1 & Hr1 & Hl1 & evs1 & jobs & He1 & Hq1 & Ho).
  rewrite Hr in Hr1. simplify_eq. rewrite He in He1. simplify_list_eq. eauto.
Qed.

(** C1: the request handler refines its contract. Whatever the datagram,
    its length included, and whoever sent it, the handler returns without a
    panic, keeps the limiter well-formed, and what it sends and queues is
    one of: nothing (dropped), one THROTTLED reply, a miss with at most one
    MISS reply and at most one recovery job, or a hit with copies of the
    cached frame and at most one ACK. *)
Theorem processNACK_refines (d : bytes) (src : option udpaddr) (w : world E) :
  lim_ok (w_lim w) →
  ∃ w' evs jobs, processNACK s d src w = Some (tt, w') ∧ lim_ok (w_lim w') ∧
    w_events w' = w_events w ++ evs ∧ w_queue w' = w_queue w ++ jobs ∧
    outcome s d src evs jobs.
Proof.
  intros Hl. destruct (run_handled d src w Hl) as (w' & ? & ? & evs & jobs & ? & ? & ?).
  exists w', evs, jobs. done.
Qed.

(** C5: the NACK socket cannot be used for amplification. A request of any
    content draws at most one response datagram, of 16 bytes, and only to
    the address the request came from. *)
Theorem response_bound (d : bytes) (src : option udpaddr) (w w' : world E) evs :
  lim_ok (w_lim w) → processNACK s d src w = Some (tt, w') → w_events w' = w_events w ++ evs →
  (length (responses evs) ≤ 1)%nat ∧
  ∀ a b ok, EvWrite NACKSocket a b ok ∈ evs → src = Some a ∧ length b = ResponseSize.
Proof.
  intros Hl Hr He. destruct (run_outcome d src w w' evs Hl Hr He) as (_ & jobs & _ & Ho).
  split; [by eapply outcome_responses|]. intros a b ok Hin.
  destruct (outcome_response _ _ _ _ _ _ _ _ Ho Hin) as [-> Hb]. split; [done|].
  destruct Hb as [(? & -> & _)|[->|(? & ? & ? & ? & ? & _ & _ & _ & ->)]]; apply length_response.
Qed.

(** C4: an ACK is honest. If the handler sends an ACK, the cache held a
    frame under the request's flow key, the ACK echoes the requested SeqNum,
    its multicast bit is set only if a byte-for-byte copy of that frame left
    an egress socket, its unicast bit only if a copy was sent to the
    requester, and a flagless ACK comes only from an endpoint configured
    with neither send mode, for a request that is not proxied. *)
Theorem ack_honest (d : bytes) (src : option udpaddr) (w w' : world E) evs a b ok :
  lim_ok (w_lim w) → processNACK s d src w = Some (tt, w') → w_events w' = w_events w ++ evs →
  EvWrite NACKSocket a b ok ∈ evs → b !! 6%nat = Some msgTypeACK →
  ∃ raw e fl, (@cache_Retrieve E (cache s) (field 8 24 d) e).1 = inl (Some raw) ∧
    b !! 7%nat = Some (Z_byte fl) ∧ be_dec (field 8 16 b) = rq_seq d ∧
    honest_flags s d raw a evs fl.
Proof.
  intros Hl Hr He Hin Hty. destruct (run_outcome d src w w' evs Hl Hr He) as (_ & jobs & _ & Ho).
  destruct (outcome_response _ _ _ _ _ _ _ _ Ho Hin) as [-> Hb].
  destruct Hb as [(bk & -> & _)|[->|(raw & e & fl & copies & reply & Hc & -> & Hh & ->)]].
  - by apply response_type in Hty.
  - by apply response_type in Hty.
  - exists raw, e, fl. split_and!; [done|apply response_lookup| |].
    + rewrite response_seq. apply be_dec_enc_small, rq_seq_range.
    + destruct Hh as (? & ? & ? & ?). unfold honest_flags.
      split_and!; [lia|lia|eauto with trace|eauto with trace|done].
Qed.

(** A THROTTLED reply comes with no repair: the request that draws it
    sends nothing else and queues no recovery. *)
Theorem throttled_sends_nothing (d : bytes) (src : option udpaddr) (w w' : world E) evs a b ok :
  lim_ok (w_lim w) → processNACK s d src w = Some (tt, w') → w_events w' = w_events w ++ evs →
  EvWrite NACKSocket a b ok ∈ evs → b !! 6%nat = Some msgTypeThrottled →
  metrics_only (filter (λ ev, ¬ is_response ev) evs) ∧ w_queue w' = w_queue w ∧
  be_dec (field 8 16 b) = rq_seq d.
Proof.
  intros Hl Hr He Hin Hty. destruct (run_outcome d src w w' evs Hl Hr He) as (_ & jobs & Hq & Ho).
  destruct (outcome_response _ _ _ _ _ _ _ _ Ho Hin) as [-> Hb].
  destruct Hb as [(bk & -> & -> & Hm)|[->|(raw & e & fl & copies & reply & Hc & -> & Hh & ->)]].
  - split_and!; [done|by rewrite app_nil_r in Hq|]. rewrite response_seq.
    apply be_dec_enc_small, rq_seq_range.
  - by apply response_type in Hty.
  - by apply response_type in Hty.
Qed.

(** C12: recovery is bounded to one hop. A NACK that carries the proxied flag
    never queues a recovery job; any other request queues at most one, the
    job for exactly its own HashKey, SeqNum, subtree and requester, and only
    after the cache reported a miss for its flow key. *)
Theorem one_hop (d : bytes) (src : option udpaddr) (w w' : world E) :
  lim_ok (w_lim w) → processNACK s d src w = Some (tt, w') →
  w_queue w' = w_queue w ∨
  (rq_proxied d = false ∧ w_queue w' = w_queue w ++ [rq_job d src] ∧
   ∃ e, (@cache_Retrieve E (cache s) (field 8 24 d) e).1 = inl None).
Proof.
  intros Hl Hr. destruct (run_handled d src w Hl) as (w1 & Hr1 & _ & evs & jobs & _ & Hq & Ho).
  rewrite Hr in Hr1. simplify_eq. rewrite Hq.
  destruct Ho as [| |evs jobs e _ Hc _ Hj|]; try (left; by rewrite app_nil_r).
  destruct Hj as [->|(-> & Hp & _)]; [left; by rewrite app_nil_r|]. right. eauto.
Qed.
End theorems.

(** The reader's length check does not bound a datagram from above. It
    accepts every datagram of at least 64 bytes, and hands the worker its
    first 64. *)
Theorem oversized_accepted (d : bytes) (src : option udpaddr) (r : nackRequest) :
  readRequest (d, src) = Some r ↔ (NACKSize ≤ length d)%nat ∧ r = (field 0 NACKSize d, src).
Proof.
  unfold readRequest, field, NACKSize. simpl. rewrite length_take, drop_0. case_decide; split.
  - done.
  - intros [? ->]. lia.
  - intros [= <-]. split; [lia|done].
  - by intros [_ ->].
Qed.
End model.

(** ** Instances *)
Section instances.
Import RefEnv.

Definition grow0 : nat → nat → nat := λ _ n, n.
Definition cache0 : CacheI renv := store_cache (frame_store redis 0).

(** A server with every feature on. *)
Definition srv0 : Server (E := renv) :=
  SetShardEngine (Some (mkEngine 0xFF05 0xB 2 : @Engine ref_ShardLib))
    (SetThrottleResponse true (SetProxy (Some (Proxy.proxy_iface (Proxy.New (Proxy.px0 false true))))
      (SetRetransmitModes true true
        (New 9300 cache0 true (Retransmit.retrans_iface Retransmit.rt0) 4 false)))).

(** A NACK for (7, 1), and a cache that holds that frame. *)
Definition nack0 : bytes :=
  be_enc 4 0xE3E1F3E8 ++ be_enc 2 0x02BF ++ [x10; x00] ++ be_enc 8 7 ++ be_enc 8 1 ++ be_enc 8 1 ++
  replicate 32 x00.
Definition world_cached : world renv :=
  mkWorld (@cache_Store renv cache0 (field 40 56 Retransmit.tx_frame) Retransmit.tx_frame 60 env0).2
    lim0 [] [].

Lemma srv0_rt : RetransOk (retransmit srv0).
Proof. apply Proxy.rt0_ok. Qed.
Lemma srv0_px : proxies_ok srv0.
Proof. eexists. apply Proxy.enqueue_ok. Qed.
Lemma lim0_ok : lim_ok lim0.
Proof. apply New_ok. Qed.

(** What the handler does for a cached frame, evaluated. *)
Example hit_runs :
  ∃ r w', processNACK grow0 srv0 nack0 (Some Proxy.listener) world_cached = Some (r, w') ∧
    EvWrite (EgressSocket "eth0") (mkUDPAddr (ref_group_addr 0xFF05 0xB 2) 9001 "") Retransmit.tx_frame true
      ∈ w_events w' ∧
    EvWrite UnicastSocket Proxy.listener Retransmit.tx_frame true ∈ w_events w' ∧
    EvWrite NACKSocket Proxy.listener (response msgTypeACK x03 1) true ∈ w_events w'.
Proof. run_closed. Qed.

Definition hit_end : world renv := after (processNACK grow0 srv0 nack0 (Some Proxy.listener)) world_cached.
Lemma hit_end_eq : processNACK grow0 srv0 nack0 (Some Proxy.listener) world_cached = Some (tt, hit_end).
Proof. unfold hit_end. apply run_after. vm_compute. reflexivity. Qed.

Lemma processNACK_refines_witness :
  ∃ w' evs jobs, processNACK grow0 srv0 nack0 (Some Proxy.listener) world0 = Some (tt, w') ∧
    lim_ok (w_lim w') ∧ w_events w' = w_events world0 ++ evs ∧ w_queue w' = w_queue world0 ++ jobs ∧
    outcome srv0 nack0 (Some Proxy.listener) evs jobs.
Proof.
  apply (processNACK_refines grow0 srv0 srv0_rt srv0_px nack0 (Some Proxy.listener) world0 lim0_ok).
Defined.

Lemma response_bound_witness : (length (responses (w_events hit_end)) ≤ 1)%nat.
Proof.
  apply (response_bound grow0 srv0 srv0_rt srv0_px nack0 (Some Proxy.listener) world_cached hit_end
    (w_events hit_end) lim0_ok hit_end_eq eq_refl).
Defined.

Lemma ack_honest_witness :
  ∃ raw e fl, (@cache_Retrieve renv (cache srv0) (field 8 24 nack0) e).1 = inl (Some raw) ∧
    response msgTypeACK x03 1 !! 7%nat = Some (Z_byte fl) ∧
    be_dec (field 8 16 (response msgTypeACK x03 1)) = rq_seq nack0 ∧
    honest_flags srv0 nack0 raw Proxy.listener (w_events hit_end) fl.
Proof.
  apply (ack_honest grow0 srv0 srv0_rt srv0_px nack0 (Some Proxy.listener) world_cached hit_end
    (w_events hit_end) Proxy.listener (response msgTypeACK x03 1) true lim0_ok hit_end_eq eq_refl).
  - by_decide.
  - reflexivity.
Defined.

(** A limiter whose sequence tier admits nothing. *)
Definition lim_seq0 : Limiter := RateLimit.New (λ _, 0)
  (mkConfig (float_of_Z 100) 10 (float_of_Z 0) 0 (float_of_Z 500) 60000000000 0 60000000000
    (float_of_Z 200) 50).
Definition world_throttling : world renv := mkWorld env0 lim_seq0 [] [].
Definition throttled_end : world renv :=
  after (processNACK grow0 srv0 nack0 (Some Proxy.listener)) world_throttling.
Lemma throttled_end_eq :
  processNACK grow0 srv0 nack0 (Some Proxy.listener) world_throttling = Some (tt, throttled_end).
Proof. unfold throttled_end. apply run_after. vm_compute. reflexivity. Qed.
Lemma lim_seq0_ok : lim_ok lim_seq0.
Proof. apply New_ok. Qed.

Lemma throttled_sends_nothing_witness :
  EvWrite NACKSocket Proxy.listener (response msgTypeThrottled x02 1) true ∈ w_events throttled_end ∧
  metrics_only (filter (λ ev, ¬ is_response ev) (w_events throttled_end)).
Proof.
  assert (EvWrite NACKSocket Proxy.listener (response msgTypeThrottled x02 1) true
    ∈ w_events throttled_end) as Hin by by_decide.
  split; [exact Hin|].
  apply (throttled_sends_nothing grow0 srv0 srv0_rt srv0_px nack0 (Some Proxy.listener) world_throttling
    throttled_end (w_events throttled_end) Proxy.listener (response msgTypeThrottled x02 1) true
    lim_seq0_ok throttled_end_eq eq_refl Hin eq_refl).
Defined.

Definition miss_end : world renv := after (processNACK grow0 srv0 nack0 (Some Proxy.listener)) world0.
Lemma miss_end_eq : processNACK grow0 srv0 nack0 (Some Proxy.listener) world0 = Some (tt, miss_end).
Proof. unfold miss_end. apply run_after. vm_compute. reflexivity. Qed.

Lemma one_hop_witness :
  w_queue miss_end = w_queue world0 ∨
  (rq_proxied nack0 = false ∧ w_queue miss_end = w_queue world0 ++ [rq_job nack0 (Some Proxy.listener)] ∧
   ∃ e, (@cache_Retrieve renv (cache srv0) (field 8 24 nack0) e).1 = inl None).
Proof.
  apply (one_hop grow0 srv0 srv0_rt srv0_px nack0 (Some Proxy.listener) world0 miss_end lim0_ok miss_end_eq).
Defined.

(** The miss queues exactly one job. *)
Example miss_queues_job : w_queue miss_end = [rq_job nack0 (Some Proxy.listener)].
Proof. vm_compute. reflexivity. Qed.

Definition proxied_nack0 : bytes := default [] (Proxy.buildNACK Proxy.job0).

Lemma proxied_nack_roundtrip_witness :
  rq_proxied proxied_nack0 = true ∧ rq_job proxied_nack0 (Some Proxy.listener) = Proxy.job0.
Proof.
  destruct (proxied_nack_roundtrip Proxy.job0 proxied_nack0 (Some Proxy.listener)) as (_ & _ & H1 & H2);
    [apply _|simpl; lia|simpl; lia|reflexivity|vm_compute; reflexivity|]. split; [exact H1|exact H2].
Defined.

Definition world_flooded : world renv := mkWorld env0 lim_flooded [] [].

Lemma ip_tier_silent_witness :
  ∃ ms l' e', metrics_only ms ∧ processNACK grow0 srv0 nack0 (Some Proxy.listener) world_flooded =
    Some (tt, mkWorld e' l' [] ms).
Proof.
  destruct (Allow grow0 (ua_IP Proxy.listener) 7 1 lim_flooded env0) as [[[[ok lvl] l'] e']|] eqn:Ha;
    [|discriminate Ha].
  assert (ok = false ∧ lvl = LevelIP) as [-> ->]
    by (assert (Some (ok, lvl) = Some (false, LevelIP)); [|by simplify_eq];
        change (Some (ok, lvl)) with (fst ∘ fst <$> Some (ok, lvl, l', e')); rewrite <- Ha;
        vm_compute; reflexivity).
  destruct (ip_tier_silent grow0 srv0 nack0 (Some Proxy.listener) world_flooded l' e') as (ms & Hm & Hr);
    [vm_compute; reflexivity|vm_compute; reflexivity|exact Ha|].
  exists ms, l', e'. split; [exact Hm|exact Hr].
Defined.

(** The tiers' states after admitting the request while the backend is down. *)
Definition down_1 : Limiter * renv :=
  match Allow grow0 (ua_IP Proxy.listener) 7 1 lim0 (w_env Retransmit.world_down) with
  | Some (_, _, l, e) => (l, e) | None => (lim0, env0) end.
Definition down_2 : Limiter * renv :=
  match AllowChain grow0 (ua_IP Proxy.listener) 7 down_1.1 down_1.2 with
  | Some (_, l, e) => (l, e) | None => (lim0, env0) end.

Lemma cache_error_silent_witness :
  processNACK grow0 srv0 nack0 (Some Proxy.listener) Retransmit.world_down =
  Some (tt, mkWorld down_2.2 down_2.1 [] [EvMetric NACKRequest; EvMetric CacheError]).
Proof.
  apply (cache_error_silent grow0 srv0 nack0 (Some Proxy.listener) Retransmit.world_down
    down_1.1 down_1.2 down_2.1 down_2.2 (ErrExt 111) down_2.2); vm_compute; reflexivity.
Defined.

End instances.

End Server.
