(* ===== verification/Pool.v ===== *)
(** * The reader and the workers of the NACK server

    Models [Run] of src/server/server.go once it listens: the goroutine that reads
    the socket, the channel of 100 requests, and the workers, several of which handle
    requests at the same time. A worker runs the handler of Server.v one operation
    at a time, so requests in progress interleave and may finish in another order
    than they arrived. When the context is cancelled the reader closes the channel
    and waits for the workers; a worker leaves from its select, never in the middle
    of a request.

    [pl_arrived], [pl_taken] and [pl_finished] record the history: the datagrams
    read, the requests in the order workers took them, and the requests in the order
    they were finished, with what each has caused. *)

From S2P Require Import Prelude GoNet External RefEnv RateLimit World CacheStore Retransmit Proxy Server.
Import GoNet External RateLimit World CacheStore.

Module Pool.
Import Server.Server.

Section model.
Context {E : Type} `{!RateLib E, !OS E, !FrameLib, !ShardLib}.
Context (growcap : nat → nat → nat).

Definition requestsCap : nat := 100.

(** The reader: at its select, in ReadFrom, holding a request while the channel is
    full, waiting for the workers with the channel closed, returned. *)
Inductive reader := RdSelect | RdRead | RdHolding (r : nackRequest) | RdClosed | RdReturned.

(** A worker: at its select, in processNACK with what is left of it and what it has
    caused so far, returned. *)
Inductive worker :=
| WSelect
| WBusy (r : nackRequest) (code : GoM (world E) unit) (evs : list event) (jobs : list job)
| WReturned.

Record pool := mkPool {
  pl_world : world E;
  pl_cancelled : bool;
  pl_reader : reader;
  pl_requests : list nackRequest;
  pl_workers : list worker;
  pl_arrived : list (bytes * option udpaddr);
  pl_taken : list nackRequest;
  pl_finished : list (nackRequest * list event * list job);
}.

Definition at_reader (rd : reader) (p : pool) : pool :=
  mkPool (pl_world p) (pl_cancelled p) rd (pl_requests p) (pl_workers p) (pl_arrived p) (pl_taken p) (pl_finished p).
Definition at_worker (i : nat) (wk : worker) (p : pool) : pool :=
  mkPool (pl_world p) (pl_cancelled p) (pl_reader p) (pl_requests p) (<[i := wk]> (pl_workers p))
    (pl_arrived p) (pl_taken p) (pl_finished p).
Definition in_world (w : world E) (p : pool) : pool :=
  mkPool w (pl_cancelled p) (pl_reader p) (pl_requests p) (pl_workers p) (pl_arrived p) (pl_taken p) (pl_finished p).

(** [close(requests)] has happened. *)
Definition closed (rd : reader) : bool := match rd with RdClosed | RdReturned => true | _ => false end.

Definition started (s : Server) (w : world E) : pool :=
  mkPool w false RdSelect [] (replicate (Z.to_nat (workers s)) WSelect) [] [] [].

(** What the worker in front of an operation does next. *)
Inductive work_step (i : nat) (p : pool) : pool → Prop :=
| wk_op X (f : world E → option (X * world E)) k r evs jobs x w' :
    pl_workers p !! i = Some (WBusy r (GOp f k) evs jobs) → f (pl_world p) = Some (x, w') →
    work_step i p (in_world w' (at_worker i (WBusy r (k x)
      (evs ++ drop (length (w_events (pl_world p))) (w_events w'))
      (jobs ++ drop (length (w_queue (pl_world p))) (w_queue w'))) p))
| wk_finish r evs jobs :
    pl_workers p !! i = Some (WBusy r (GRet tt) evs jobs) →
    work_step i p (mkPool (pl_world p) (pl_cancelled p) (pl_reader p) (pl_requests p) (<[i := WSelect]> (pl_workers p))
      (pl_arrived p) (pl_taken p) (pl_finished p ++ [(r, evs, jobs)])).

Inductive run_step (s : Server) (p : pool) : pool → Prop :=
(* the reader *)
| rd_read : pl_reader p = RdSelect → pl_cancelled p = false → run_step s p (at_reader RdRead p)
| rd_cancelled : pl_reader p = RdSelect → pl_cancelled p = true → run_step s p (at_reader RdClosed p)
| rd_datagram dg : pl_reader p = RdRead →
    run_step s p (mkPool (pl_world p) (pl_cancelled p)
      (match readRequest dg with Some r => RdHolding r | None => RdSelect end)
      (pl_requests p) (pl_workers p) (pl_arrived p ++ [dg]) (pl_taken p) (pl_finished p))
| rd_error : pl_reader p = RdRead → run_step s p (at_reader RdSelect p)
| rd_error_cancelled : pl_reader p = RdRead → pl_cancelled p = true → run_step s p (at_reader RdClosed p)
| rd_send r : pl_reader p = RdHolding r → (length (pl_requests p) < requestsCap)%nat →
    run_step s p (mkPool (pl_world p) (pl_cancelled p) RdSelect (pl_requests p ++ [r])
      (pl_workers p) (pl_arrived p) (pl_taken p) (pl_finished p))
| rd_give_up r : pl_reader p = RdHolding r → pl_cancelled p = true → run_step s p (at_reader RdClosed p)
| rd_return : pl_reader p = RdClosed → Forall (λ wk, wk = WReturned) (pl_workers p) → run_step s p (at_reader RdReturned p)
(* a worker *)
| wk_take i r q : pl_workers p !! i = Some WSelect → pl_requests p = r :: q →
    run_step s p (mkPool (pl_world p) (pl_cancelled p) (pl_reader p) q
      (<[i := WBusy r (processNACK growcap s r.1 r.2) [] []]> (pl_workers p))
      (pl_arrived p) (pl_taken p ++ [r]) (pl_finished p))
| wk_return i : pl_workers p !! i = Some WSelect →
    pl_cancelled p = true ∨ (closed (pl_reader p) = true ∧ pl_requests p = []) → run_step s p (at_worker i WReturned p)
| wk_work i p' : work_step i p p' → run_step s p p'
(* everything else: the context, the environment and the recovery queue *)
| ctx_cancel : run_step s p (mkPool (pl_world p) true (pl_reader p) (pl_requests p) (pl_workers p)
    (pl_arrived p) (pl_taken p) (pl_finished p))
| outside e q : run_step s p (in_world (mkWorld e (w_lim (pl_world p)) q (w_events (pl_world p))) p).

(** ** Lemmas *)

Definition held_by (wk : worker) : option nackRequest := match wk with WBusy r _ _ _ => Some r | _ => None end.
(** The requests in progress. *)
Definition progressing (p : pool) : list nackRequest := omap held_by (pl_workers p).
(** The request the reader holds. *)
Definition holding (rd : reader) : list nackRequest := match rd with RdHolding r => [r] | _ => [] end.

Section theorems.
Context (s : Server) `{!FrameLibOk}.
Context (Hrt : RetransOk (retransmit s)) (Hpx : proxies_ok s).

Abbreviation any := (λ _ : E, True).
Abbreviation shared := (λ (l : Limiter) (_ : list job), lim_ok l ∧ True).

(** A worker will finish its request as the contract of Server.v says. *)
Definition worker_ok (wk : worker) : Prop :=
  match wk with
  | WBusy r code evs jobs => wpi any shared code (λ _ evs' jobs', outcome s r.1 r.2 (evs ++ evs') (jobs ++ jobs'))
  | _ => True
  end.

Record pool_ok (p : pool) : Prop := {
  po_lim : lim_ok (w_lim (pl_world p));
  po_cap : (length (pl_requests p) ≤ requestsCap)%nat;
  po_size : length (pl_workers p) = Z.to_nat (workers s);
  po_workers : Forall worker_ok (pl_workers p);
  po_closed : closed (pl_reader p) = true → pl_cancelled p = true;
  po_returned : pl_reader p = RdReturned → Forall (λ wk, wk = WReturned) (pl_workers p);
  po_arrived : ∃ lost, omap readRequest (pl_arrived p) = pl_taken p ++ pl_requests p ++ holding (pl_reader p) ++ lost ∧
    (length lost ≤ 1)%nat ∧ (lost ≠ [] → closed (pl_reader p) = true);
  po_taken : pl_taken p ≡ₚ ((λ h, h.1.1) <$> pl_finished p) ++ progressing p;
  po_finished : Forall (λ h, outcome s h.1.1.1 h.1.1.2 h.1.2 h.2) (pl_finished p);
}.

Lemma started_ok w : lim_ok (w_lim w) → pool_ok (started s w).
Proof.
  intros Hl. split; simpl; try done.
  - lia.
  - apply length_replicate.
  - by apply Forall_replicate.
  - exists []. by split_and!; [|simpl; lia|].
  - unfold progressing. simpl. by induction (Z.to_nat (workers s)).
Qed.

Lemma progressing_insert ws i wk wk' : ws !! i = Some wk →
  option_list (held_by wk) ++ omap held_by (<[i := wk']> ws) ≡ₚ option_list (held_by wk') ++ omap held_by ws.
Proof.
  revert i. induction ws as [|w ws IH]; intros [|i] Hi; simplify_eq/=.
  - destruct (held_by wk), (held_by wk'); simpl; try done. apply Permutation_swap.
  - specialize (IH i Hi). destruct (held_by w) as [r|]; [|done].
    change (r :: ?l) with ([r] ++ l). rewrite !(Permutation_app_swap_app _ [r]). by rewrite IH.
Qed.

(** The reader's steps leave the workers alone. *)
Lemma reader_ok (p : pool) rd : pool_ok p →
  (closed rd = true → pl_cancelled p = true) →
  (rd = RdReturned → Forall (λ wk, wk = WReturned) (pl_workers p)) →
  (closed (pl_reader p) = true → closed rd = true) →
  (holding rd = holding (pl_reader p) ∨ (holding rd = [] ∧ closed (pl_reader p) = false ∧ closed rd = true)) →
  pool_ok (at_reader rd p).
Proof.
  intros [Hl Hc Hs Hw Hcl Hr (lost & Ha & Hlost & Hz) Ht Hf] Hcc Hrr Hcl' Hh. split; simpl; try done.
  destruct Hh as [-> | (-> & Hno & Hyes)]; [by exists lost; split_and!; auto|].
  assert (lost = []) as -> by (destruct lost; [done|]; rewrite (Hz ltac:(done)) in Hno; done).
  exists (holding (pl_reader p)). rewrite Ha, app_nil_r. split_and!; [done|by destruct (pl_reader p); simpl; lia|done].
Qed.

(** A worker's steps leave the reader alone. *)
Lemma worker_step_ok (p : pool) i wk wk' w' q tk fin : pool_ok p → pl_workers p !! i = Some wk → wk ≠ WReturned →
  lim_ok (w_lim w') → worker_ok wk' →
  tk ++ q = pl_taken p ++ pl_requests p → (length q ≤ requestsCap)%nat →
  tk ++ option_list (held_by wk) ≡ₚ
    ((λ h, h.1.1) <$> fin) ++ option_list (held_by wk') ++ progressing p →
  Forall (λ h, outcome s h.1.1.1 h.1.1.2 h.1.2 h.2) fin →
  pool_ok (mkPool w' (pl_cancelled p) (pl_reader p) q (<[i := wk']> (pl_workers p)) (pl_arrived p) tk fin).
Proof.
  intros [Hl Hc Hs Hw Hcl Hr (lost & Ha & Hlost & Hz) Ht Hf] Hi Hne Hlim Hwk Hq Hlen Hp Hfin. split; simpl; try done.
  - by rewrite length_insert.
  - by apply Forall_insert.
  - intros Hret. exfalso. apply Hne. apply Hr in Hret. rewrite Forall_lookup in Hret. by eapply Hret.
  - exists lost. rewrite Ha. split_and!; [|done..]. rewrite !app_assoc. by rewrite Hq.
  - apply (Permutation_app_inv_r (option_list (held_by wk))). rewrite Hp, <- app_assoc. apply Permutation_app_head.
    rewrite <- (progressing_insert _ _ _ wk' Hi). apply Permutation_app_comm.
Qed.

Lemma taken_ok d src : worker_ok (WBusy (d, src) (processNACK growcap s d src) [] []).
Proof.
  assert (proxies_keep (λ _, True) s) as Hk.
  { revert Hpx. unfold proxies_ok, proxies_keep. destruct (proxy s); [|done]. intros [cap ?]. by exists cap. }
  exact (wpi_processNACK growcap any (λ _, True) s d src Hrt Hk).
Qed.

Lemma work_step_ok (p : pool) i p' : work_step i p p' → pool_ok p → pool_ok p'.
Proof.
  intros Hst Hok. destruct Hst as [X f k r evs jobs x w' Hi Hf|r evs jobs Hi].
  - pose proof (po_workers _ Hok) as Hw. rewrite Forall_lookup in Hw. specialize (Hw _ _ Hi). simpl in Hw.
    destruct (wpi_next _ _ _ _ _ _ Hw I (conj (po_lim _ Hok) I)) as (x1 & w1 & evs1 & jobs1 & Hf1 & _ & [Hl1 _] & He & Hj & Hk).
    rewrite Hf in Hf1. simplify_eq. unfold in_world, at_worker. simpl.
    eapply worker_step_ok; [done|exact Hi|done|done| |done|apply Hok| |apply Hok].
    + simpl. rewrite He, Hj, !drop_app_length. eapply wpi_mono; [exact Hk|]. intros ? evs2 jobs2 Ho. by rewrite <- !app_assoc.
    + simpl. rewrite (po_taken _ Hok), <- app_assoc. apply Permutation_app_head. apply Permutation_app_comm.
  - pose proof (po_workers _ Hok) as Hw. rewrite Forall_lookup in Hw. specialize (Hw _ _ Hi). simpl in Hw.
    apply wpi_done in Hw. rewrite !app_nil_r in Hw.
    eapply worker_step_ok; [done|exact Hi|done|apply Hok|done|done|apply Hok| |].
    + simpl. rewrite (po_taken _ Hok), fmap_app, <- !app_assoc. apply Permutation_app_head. simpl. apply Permutation_app_comm.
    + apply Forall_app. split; [apply Hok|]. by constructor.
Qed.

Lemma run_step_ok (p p' : pool) : run_step s p p' → pool_ok p → pool_ok p'.
Proof.
  intros Hst Hok. destruct Hst as [Hr Hc|Hr Hc|dg Hr|Hr|Hr Hc|r Hr Hlen|r Hr Hc|Hr Hall|i r q Hi Hq|i Hi Hx|i p' Hw| |e q].
  - apply reader_ok; rewrite ?Hr; auto; done.
  - apply reader_ok; rewrite ?Hr; auto; done.
  - destruct Hok as [Hl Hc Hs Hw Hcl _ (lost & Ha & _ & Hz) Ht Hf]. rewrite Hr in *. simpl in *.
    assert (lost = []) as -> by (destruct lost; [done|]; by specialize (Hz ltac:(done))).
    split; simpl; try done; try (by destruct (readRequest dg)). exists []. rewrite omap_app, Ha, !app_nil_r. simpl.
    split_and!; [|lia|done]. destruct (readRequest dg); simpl; by rewrite ?app_nil_r, <- ?app_assoc.
  - apply reader_ok; rewrite ?Hr; auto; done.
  - apply reader_ok; rewrite ?Hr; auto; done.
  - destruct Hok as [Hl Hc Hs Hw Hcl _ (lost & Ha & Hlost & Hz) Ht Hf]. rewrite Hr in *. simpl in *.
    split; simpl; try done; [rewrite length_app; simpl; lia|]. exists lost. rewrite Ha. split_and!; [|done..].
    by rewrite <- !app_assoc.
  - apply reader_ok; rewrite ?Hr; auto; try done.
  - apply reader_ok; rewrite ?Hr; auto; try done. intros _. apply Hok. by rewrite Hr.
  - pose proof (po_cap _ Hok) as Hcap. rewrite Hq in Hcap. simpl in Hcap.
    eapply worker_step_ok; [done|exact Hi|done|apply Hok|destruct r; apply taken_ok| |lia| |apply Hok].
    + by rewrite Hq, <- app_assoc.
    + simpl. rewrite app_nil_r, (po_taken _ Hok), <- app_assoc. apply Permutation_app_head. apply Permutation_app_comm.
  - eapply (worker_step_ok p i WSelect WReturned); [done|exact Hi|done|apply Hok|done|done|apply Hok| |apply Hok].
    simpl. rewrite app_nil_r. apply Hok.
  - by eapply work_step_ok.
  - destruct Hok. by split.
  - destruct Hok. by split.
Qed.

Lemma run_reachable_ok w p : lim_ok (w_lim w) → rtc (run_step s) (started s w) p → pool_ok p.
Proof.
  intros Hl Hr. pose proof (started_ok w Hl) as Hok. induction Hr as [|p1 p2 p3 Hs _ IH]; [done|].
  by apply IH, (run_step_ok _ _ Hs).
Qed.

(** A worker's own steps finish its request, whatever state the others are in. *)
Lemma work_finishes (p : pool) i r code evs jobs : pool_ok p → pl_workers p !! i = Some (WBusy r code evs jobs) →
  ∃ p' evs' jobs', rtc (work_step i) p p' ∧ pl_workers p' !! i = Some WSelect ∧
    pl_finished p' = pl_finished p ++ [(r, evs', jobs')] ∧ pl_requests p' = pl_requests p ∧ pl_taken p' = pl_taken p.
Proof.
  revert p evs jobs. induction code as [[]|X f k IH]; intros p evs jobs Hok Hi.
  - eexists _, evs, jobs. split; [by apply rtc_once, wk_finish|]. simpl. split_and!; try done.
    apply list_lookup_insert_eq. by eapply lookup_lt_Some.
  - pose proof (po_workers _ Hok) as Hw. rewrite Forall_lookup in Hw. specialize (Hw _ _ Hi). simpl in Hw.
    destruct (wpi_next _ _ _ _ _ _ Hw I (conj (po_lim _ Hok) I)) as (x & w1 & evs1 & jobs1 & Hf & _).
    pose proof (wk_op i p X f k r evs jobs x w1 Hi Hf) as Hst. pose proof (work_step_ok _ _ _ Hst Hok) as Hok1.
    assert (∀ wk, pl_workers (in_world w1 (at_worker i wk p)) !! i = Some wk) as Hi1.
    { intros wk. simpl. apply list_lookup_insert_eq. by eapply lookup_lt_Some. }
    destruct (IH x _ _ _ Hok1 (Hi1 _)) as (p' & evs' & jobs' & Hrtc & Hsel & Hfin & Hq & Htk).
    exists p', evs', jobs'. split; [by eapply rtc_l|]. done.
Qed.

(** ** Theorem *)

End theorems.
End model.

(** ** Instances *)
Section instances.
Import RefEnv.

(** Two requests, in progress with two workers. *)
Definition two_busy : pool (E := renv) :=
  let r := (nack0, Some Proxy.listener) in
  let busy := WBusy r (processNACK grow0 srv0 nack0 (Some Proxy.listener)) [] [] in
  mkPool world_cached false RdSelect [] [busy; busy; WSelect; WSelect] [r; r] [r; r] [].

Lemma two_busy_reachable : rtc (run_step grow0 srv0) (started srv0 world_cached) two_busy.
Proof.
  pose (r := (nack0, Some Proxy.listener)).
  assert (readRequest r = Some r) as Hread by (vm_compute; reflexivity).
  assert (∀ p, pl_reader p = RdSelect → pl_cancelled p = false → pl_requests p = [] →
    rtc (run_step grow0 srv0) p (mkPool (pl_world p) false RdSelect [r] (pl_workers p) (pl_arrived p ++ [r]) (pl_taken p) (pl_finished p)))
    as Hrd.
  { intros [w c rd q ws arr tk fin]. simpl. intros -> -> ->.
    eapply rtc_l; [by apply rd_read|]. eapply rtc_l; [by apply (rd_datagram _ _ _ r)|]. rewrite Hread.
    eapply rtc_l; [by apply (rd_send _ _ _ r); [|unfold requestsCap; simpl; lia]|]. apply rtc_refl. }
  etrans; [by apply Hrd|]. eapply rtc_l; [by apply (wk_take _ _ _ 0%nat r [])|].
  etrans; [by apply Hrd|]. eapply rtc_l; [by apply (wk_take _ _ _ 1%nat r [])|]. apply rtc_refl.
Qed.

End instances.

End Pool.
