(* ===== verification/Ingress.v ===== *)
(** * The ingress worker

    Models src/ingress/ingress.go and the processing half of
    src/ingress/pipeline.go: [Partition] of the groups over workers, the
    group joins, the dispatch of a datagram to its frame class, the handlers
    that cache it, and the processor that unwraps tee envelopes and labels
    sources. The receive loop around them is Pipeline.v.

    All classes are cached under HashKey and SeqNum, bytes 40 to 56 of the frame,
    which is the key the NACK server looks up. *)

From S2P Require Import Prelude GoNet External RefEnv RateLimit World CacheStore Retransmit.
From Stdlib Require Import Strings.Byte.
Import GoNet External World CacheStore.

Module Ingress.

Record TTLConfig := mkTTLs { Tx : Z; Block : Z; Subtree : Z; Anchor : Z; BEEF : Z }.

Definition socketRecvBuf : Z := 64 * 1024 * 1024.

(** [out[i%n] = append(out[i%n], g)] for the groups from index [i] on. *)
Fixpoint deal {A} (n i : nat) (groups : list A) (out : list (list A)) : list (list A) :=
  match groups with
  | [] => out
  | g :: groups' => deal n (S i) groups' (alter (λ l, l ++ [g]) (i mod n)%nat out)
  end.

Definition Partition {A} (groups : list A) (n : Z) : list (list A) :=
  let n := if Z.of_nat (length groups) <? n then Z.of_nat (length groups) else n in
  if n <? 1 then [groups] else deal (Z.to_nat n) 0 groups (replicate (Z.to_nat n) []).

(** ** Partition: each group goes to exactly one worker *)
Section partition.
Context {A : Type}.
Implicit Types (gs : list A) (out : list (list A)).

Lemma length_deal n i gs out : length (deal n i gs out) = length out.
Proof. revert i out. induction gs as [|g gs IH]; intros; simpl; [done|]. by rewrite IH, length_alter. Qed.

Lemma concat_alter i (g : A) out :
  (i < length out)%nat → concat (alter (λ l, l ++ [g]) i out) ≡ₚ concat out ++ [g].
Proof.
  revert i. induction out as [|o out IH]; intros [|i] Hi; csimpl in *; [lia..| |].
  - by rewrite <- !app_assoc, (Permutation_app_comm [g]).
  - rewrite IH by lia. by rewrite app_assoc.
Qed.

Lemma deal_concat n i gs out :
  (0 < n)%nat → length out = n → concat (deal n i gs out) ≡ₚ concat out ++ gs.
Proof.
  intros Hn. revert i out. induction gs as [|g gs IH]; intros i out Hl; simpl; [by rewrite app_nil_r|].
  rewrite IH by (by rewrite length_alter). rewrite concat_alter.
  - by rewrite <- app_assoc.
  - rewrite Hl. apply Nat.mod_upper_bound. lia.
Qed.

(** Part [j] after [i] groups were dealt round robin. *)
Definition dealt (n i : nat) out : Prop :=
  ∃ q r, i = (n * q + r)%nat ∧ (r < n)%nat ∧
    ∀ j l, out !! j = Some l → length l = (if decide (j < r)%nat then S q else q).

Lemma deal_dealt n i gs out :
  length out = n → dealt n i out → dealt n (i + length gs) (deal n i gs out).
Proof.
  revert i out. induction gs as [|g gs IH]; intros i out Hl (q & r & Hi & Hr & Hout); simpl.
  { exists q, r. split_and!; [lia|done..]. }
  rewrite <- Nat.add_succ_comm. apply IH; [by rewrite length_alter|].
  assert ((i mod n)%nat = r) as Hm by (symmetry; by apply (Nat.mod_unique i n q r)).
  rewrite Hm. destruct (decide (S r = n)) as [He|Hne].
  - exists (S q), 0%nat. split_and!; [lia..|]. intros j l Hj.
    apply lookup_alter_inv in Hj as [(-> & l' & Hl' & ->)|(Hjr & Hj)].
    + rewrite length_app. apply Hout in Hl'. rewrite Hl'. repeat case_decide; simpl; lia.
    + pose proof (lookup_lt_Some _ _ _ Hj). apply Hout in Hj. rewrite Hj. repeat case_decide; lia.
  - exists q, (S r). split_and!; [lia..|]. intros j l Hj.
    apply lookup_alter_inv in Hj as [(-> & l' & Hl' & ->)|(Hjr & Hj)].
    + rewrite length_app. apply Hout in Hl'. rewrite Hl'. repeat case_decide; simpl; lia.
    + apply Hout in Hj. rewrite Hj. repeat case_decide; lia.
Qed.

Lemma length_Partition (gs : list A) (n : Z) :
  Z.of_nat (length (Partition gs n)) = Z.max 1 (Z.min n (Z.of_nat (length gs))).
Proof.
  unfold Partition. set (m := if _ <? n then _ else n).
  assert (m = Z.min n (Z.of_nat (length gs))) as Hm by (unfold m; case_match; lia).
  destruct (m <? 1) eqn:Hlt; [simpl; lia|]. rewrite length_deal, length_replicate. lia.
Qed.

Lemma Partition_perm (gs : list A) (n : Z) : concat (Partition gs n) ≡ₚ gs.
Proof.
  unfold Partition. set (m := if _ <? n then _ else n).
  destruct (m <? 1) eqn:Hlt; [simpl; by rewrite app_nil_r|].
  rewrite deal_concat; [|lia|by rewrite length_replicate]. by rewrite concat_replicate_nil.
Qed.

(** [Partition] gives every group to exactly one worker: the parts are a
    rearrangement of the groups. It makes at least one part and never more
    than were asked for or than there are groups, and any two parts differ in
    size by at most one. *)
Theorem partition_exact (gs : list A) (n : Z) :
  let parts := Partition gs n in
  concat parts ≡ₚ gs ∧
  Z.of_nat (length parts) = Z.max 1 (Z.min n (Z.of_nat (length gs))) ∧
  ∀ i j p q, parts !! i = Some p → parts !! j = Some q → (length p ≤ S (length q))%nat.
Proof.
  intros parts. split; [apply Partition_perm|]. pose proof (length_Partition gs n) as Hlen. revert Hlen.
  unfold parts, Partition. clear parts. set (m := if _ <? n then _ else n).
  assert (m = Z.min n (Z.of_nat (length gs))) as Hm by (unfold m; case_match; lia).
  destruct (m <? 1) eqn:Hlt; intros Hlen.
  { split; [done|]. intros [|i] [|j] p q Hp Hq; simplify_eq/=; lia. }
  assert (dealt (Z.to_nat m) 0 (replicate (Z.to_nat m) ([] : list A))) as H0.
  { exists 0%nat, 0%nat. split_and!; [lia..|]. intros j l Hj.
    apply lookup_replicate in Hj as [-> _]. done. }
  split; [done|].
  destruct (deal_dealt (Z.to_nat m) 0 gs _ (length_replicate _ _) H0) as (q & r & _ & _ & Hd).
  intros i j p p' Hp Hp'. rewrite (Hd i p Hp), (Hd j p' Hp'). repeat case_decide; lia.
Qed.
End partition.

Section model.
Context {E : Type} `{!RateLib E, !OS E, !FrameLib, !TeeWire}.

Record Worker := mkWorker {
  iface : option Z;                       (* the interface's index *)
  port : Z;
  groups : list udpaddr;
  sources : option (gmap bytes (list addr));  (* SSM sources by 16-byte group *)
  cache : CacheI E;
  rec : bool;
  ttls : TTLConfig;
  recvBuf : Z;
  queueDepth : Z;
  procs : Z;
}.

Definition New (iface : option Z) (port : Z) (groups : list udpaddr) (cache : CacheI E)
    (rec : bool) (ttls : TTLConfig) : Worker :=
  mkWorker iface port groups None cache rec ttls 0 0 0.

Definition SetRecvBuf (n : Z) (w : Worker) : Worker :=
  mkWorker (iface w) (port w) (groups w) (sources w) (cache w) (rec w) (ttls w) n
    (queueDepth w) (procs w).
Definition SetGroupSources (src : option (gmap bytes (list addr))) (w : Worker) : Worker :=
  mkWorker (iface w) (port w) (groups w) src (cache w) (rec w) (ttls w) (recvBuf w)
    (queueDepth w) (procs w).

Definition recvBufBytes (w : Worker) : Z :=
  if 0 <? recvBuf w then recvBuf w else socketRecvBuf.

(** (Re)joins every group; [join ifindex group sources] is netjoin.Join. *)
Definition joinAll (join : Z → bytes → list addr → E → option gerror * E)
    (ifindex : Z) (w : Worker) (first : bool) : list udpaddr → E → option gerror * E :=
  fix go gs e :=
    match gs with
    | [] => (None, e)
    | grp :: gs' =>
        match To16 (ua_IP grp) with
        | None => (Some (ErrText "ingress: bad group address"), e)
        | Some ga =>
            let srcs := match sources w with
                        | Some m => default [] (m !! ga)
                        | None => []
                        end in
            match join ifindex ga srcs e with
            | (Some err, e') => if first then (Some (ErrWrap "ingress: join group" err), e') else go gs' e'
            | (None, e') => go gs' e'
            end
        end
    end.

(** *** Caching one decoded frame

    The common body of the handlers: drop on a decode error, count, ignore a
    frame that was not stamped, store the raw bytes under the flow key. *)
Definition cacheFrame (w : Worker) (raw : bytes) (src : string) (ttl : Z) (d : flow + gerror)
  : GoM (world E) unit :=
  match d with
  | inr _ => emit (rec w) (FrameDropped "decode_error")
  | inl f =>
      _ ← emit (rec w) FrameReceived;
      if fl_SeqNum f =? 0 then mret tt else
      key ← liftO (k ← gput 0 (be_enc 8 (fl_HashKey f)) (replicate 16 x00);
                   gput 8 (be_enc 8 (fl_SeqNum f)) k);
      err ← env_op (@cache_Store E (cache w) key raw ttl);
      match err : option gerror with
      | Some _ => emit (rec w) CacheError
      | None => emit (rec w) (FrameCached src)
      end
  end.

Definition processBlockFrame (w : Worker) (raw : bytes) (src : string) : GoM (world E) unit :=
  cacheFrame w raw src (Block (ttls w)) (DecodeBlock raw).
Definition processSubtreeDataFrame (w : Worker) (raw : bytes) (src : string) : GoM (world E) unit :=
  cacheFrame w raw src (Subtree (ttls w)) (DecodeSubtreeData raw).
Definition processAnchorFrame (w : Worker) (raw : bytes) (src : string) : GoM (world E) unit :=
  cacheFrame w raw src (Anchor (ttls w)) (DecodeAnchor raw).
Definition processBEEFFrame (w : Worker) (raw : bytes) (src : string) : GoM (world E) unit :=
  cacheFrame w raw src (BEEF (ttls w)) (DecodeBEEF raw).

(** The TTL of a fragment follows the class it was cut from. *)
Definition fragmentTTL (w : Worker) (ver : byte) : Z :=
  if decide (ver = FrameVerV4) then Block (ttls w)
  else if decide (ver = FrameVerV5) then Subtree (ttls w)
  else if decide (ver = FrameVerV6) then Anchor (ttls w)
  else if decide (ver = FrameVerV9) then BEEF (ttls w)
  else Tx (ttls w).

Definition processFragmentFrame (w : Worker) (raw : bytes) (src : string) : GoM (world E) unit :=
  match DecodeFragment raw with
  | inr e => cacheFrame w raw src (Tx (ttls w)) (inr e)
  | inl ff => cacheFrame w raw src (fragmentTTL w (ff_OrigFrameVer ff))
                (inl (mkFlow (ff_HashKey ff) (ff_SeqNum ff)))
  end.

(** A bundle's flow key and member count, from its header alone. The two
    operands of the size comparison are converted to uint64 in the code, which
    keeps their values: a length past the header and a uint32. *)
Definition bundleKey (raw : bytes) : option ((Z * Z * Z) + gerror) :=
  if decide (length raw < BundleHeaderSize)%nat then Some (inr ErrTooShort) else
  m ← gsub 0 4 raw ≫= BE_Uint32;
  if decide (m ≠ MagicBSV) then Some (inr ErrBadMagic) else
  v ← raw !! 6%nat;
  if decide (v ≠ FrameVerBundle) then Some (inr ErrBadVer) else
  sz ← gsub 62 66 raw ≫= BE_Uint32;
  if Z.of_nat (length raw) - Z.of_nat BundleHeaderSize <? sz then Some (inr ErrTruncated) else
  hk ← gsub 40 48 raw ≫= BE_Uint64;
  sq ← gsub 48 56 raw ≫= BE_Uint64;
  members ← gsub 60 62 raw ≫= BE_Uint16;
  Some (inl (hk, sq, members)).

Definition processBundleFrame (w : Worker) (raw : bytes) (src : string) : GoM (world E) unit :=
  r ← liftO (bundleKey raw);
  cacheFrame w raw src (Tx (ttls w))
    (match r with
     | inr e => inr e
     | inl (hk, sq, _) => inl (mkFlow hk sq)
     end).

Definition processFrame (w : Worker) (raw : bytes) (src : string) : GoM (world E) unit :=
  if IsBlockFrame raw then processBlockFrame w raw src
  else if IsSubtreeDataFrame raw then processSubtreeDataFrame w raw src
  else if IsAnchorFrame raw then processAnchorFrame w raw src
  else if IsBundle raw then processBundleFrame w raw src
  else if IsBEEFFrame raw then processBEEFFrame w raw src
  else if IsFragment raw then processFragmentFrame w raw src
  else cacheFrame w raw src (Tx (ttls w)) (Decode raw).

(** *** The processor: source labels and tee envelopes *)

Record slot := mkSlot { sl_data : bytes; sl_from : bytes; sl_v6 : bool; sl_trunc : bool }.
Record processor := mkProcessor { lastSrc : bytes; p_src : string }.

Definition newProcessor : processor := mkProcessor (replicate 16 x00) "".

(** Formats the label only when the source changed. *)
Definition label (a : bytes) (p : processor) : string * processor :=
  if decide (p_src p = ""%string ∨ a ≠ lastSrc p) then
    let s := Addr_String (Addr6 a) in (s, mkProcessor a s)
  else (p_src p, p).

Definition handle (w : Worker) (tee : bool) (p : processor) (s : slot)
  : GoM (world E) processor :=
  let pkt := sl_data s in
  if negb tee then
    if sl_v6 s then
      let '(src, p') := label (sl_from s) p in
      _ ← processFrame w pkt src; mret p'
    else _ ← processFrame w pkt ""; mret p
  else if tee_IsEncap pkt then
    match tee_Decap pkt with
    | inr _ => _ ← emit (rec w) (FrameDropped "tee_decap_error"); mret p
    | inl (srcAddr, payload) =>
        _ ← emit (rec w) (TeeDatagram "encap");
        let '(src, p') := label (As16 srcAddr) p in
        _ ← processFrame w payload src; mret p'
    end
  else
    let '(src, p') := if sl_v6 s then label (sl_from s) p else (""%string, p) in
    _ ← emit (rec w) (TeeDatagram "raw");
    _ ← processFrame w pkt src; mret p'.

(** ** Lemmas *)

(** The decoder and TTL a frame's class selects. *)
Definition decodeFrame (w : Worker) (raw : bytes) : (flow + gerror) * Z :=
  if IsBlockFrame raw then (DecodeBlock raw, Block (ttls w))
  else if IsSubtreeDataFrame raw then (DecodeSubtreeData raw, Subtree (ttls w))
  else if IsAnchorFrame raw then (DecodeAnchor raw, Anchor (ttls w))
  else if IsBundle raw then
    (match bundleKey raw with
     | Some (inl (hk, sq, _)) => inl (mkFlow hk sq)
     | Some (inr e) => inr e
     | None => inr ErrTooShort
     end, Tx (ttls w))
  else if IsBEEFFrame raw then (DecodeBEEF raw, BEEF (ttls w))
  else if IsFragment raw then
    match DecodeFragment raw with
    | inl ff => (inl (mkFlow (ff_HashKey ff) (ff_SeqNum ff)), fragmentTTL w (ff_OrigFrameVer ff))
    | inr e => (inr e, Tx (ttls w))
    end
  else (Decode raw, Tx (ttls w)).

Section contract.
Context `{!FrameLibOk}.

Lemma bundleKey_eq raw :
  bundleKey raw = Some
    (if decide (length raw < 66)%nat then inr ErrTooShort
     else if decide (be_dec (field 0 4 raw) ≠ MagicBSV) then inr ErrBadMagic
     else if decide (raw !! 6%nat ≠ Some x08) then inr ErrBadVer
     else if Z.of_nat (length raw) - 66 <? be_dec (field 62 66 raw) then inr ErrTruncated
     else inl (hashkey_of raw, seqnum_of raw, be_dec (field 60 62 raw))).
Proof.
  unfold bundleKey. rewrite bundle_header_size. case_decide as Hl; [done|].
  destruct frame_versions as (_ & _ & _ & _ & _ & _ & HB).
  rewrite !gsub_Some by lia. cbn [mbind option_bind].
  rewrite !BE_Uint32_Some, !BE_Uint64_Some, !BE_Uint16_Some by (rewrite length_field; lia).
  cbn [mbind option_bind]. case_decide as Hm; [done|].
  destruct (lookup_lt_is_Some_2 raw 6) as [v Hv]; [lia|]. rewrite Hv, HB. cbn [mbind option_bind].
  destruct (decide (v = x08)) as [->|Hne].
  - rewrite !decide_False by (intros Hn; by apply Hn).
    change (Z.of_nat 66) with 66. by destruct (_ <? _).
  - by rewrite !decide_True by congruence.
Qed.

Lemma bundleKey_flow raw hk sq m : bundleKey raw = Some (inl (hk, sq, m)) →
  (56 ≤ length raw)%nat ∧ hk = hashkey_of raw ∧ sq = seqnum_of raw.
Proof.
  rewrite bundleKey_eq. intros Hb. repeat case_decide; try done.
  case_match; try done. simplify_eq. split; [lia|done].
Qed.

(** Every class reads its flow key at the standard offsets. *)
Lemma decodeFrame_flow w raw f ttl : decodeFrame w raw = (inl f, ttl) →
  (56 ≤ length raw)%nat ∧ fl_HashKey f = hashkey_of raw ∧ fl_SeqNum f = seqnum_of raw ∧
  ttl ∈ [Tx (ttls w); Block (ttls w); Subtree (ttls w); Anchor (ttls w); BEEF (ttls w)].
Proof.
  assert (∀ D, decodes_flow D → D raw = inl f →
    (56 ≤ length raw)%nat ∧ fl_HashKey f = hashkey_of raw ∧ fl_SeqNum f = seqnum_of raw) as HD.
  { intros D HD Hf. by apply HD in Hf. }
  unfold decodeFrame, fragmentTTL. intros Hd.
  repeat match type of Hd with context [if ?b then _ else _] => destruct b end.
  all: repeat case_match; simplify_eq.
  all: try match goal with
    | H : DecodeBlock _ = _ |- _ => apply (HD _ decode_block_flow) in H
    | H : DecodeSubtreeData _ = _ |- _ => apply (HD _ decode_subtree_flow) in H
    | H : DecodeAnchor _ = _ |- _ => apply (HD _ decode_anchor_flow) in H
    | H : DecodeBEEF _ = _ |- _ => apply (HD _ decode_beef_flow) in H
    | H : Decode _ = _ |- _ => apply (HD _ decode_flow) in H
    | H : DecodeFragment _ = _ |- _ => apply decode_fragment_flow in H
    | H : bundleKey _ = _ |- _ => apply bundleKey_flow in H
    end.
  all: naive_solver (repeat constructor).
Qed.

Lemma flow_key f raw :
  (56 ≤ length raw)%nat → fl_HashKey f = hashkey_of raw → fl_SeqNum f = seqnum_of raw →
  (k ← gput 0 (be_enc 8 (fl_HashKey f)) (replicate 16 x00); gput 8 (be_enc 8 (fl_SeqNum f)) k) =
    Some (field 40 56 raw).
Proof.
  intros Hl -> ->. unfold hashkey_of, seqnum_of. rewrite !be_enc_field by lia.
  rewrite gput_first by (rewrite length_field; lia).
  cbn [mbind option_bind]. rewrite gput_next; [|by rewrite length_field by lia|].
  2:{ rewrite !length_field by lia. lia. }
  rewrite !length_field by lia. simpl. by rewrite app_nil_r, field_app_adj by lia.
Qed.

(** The effect of caching [raw]: metrics only, and one store or none. *)
Definition ingested (w : Worker) (raw : bytes) (wd wd' : world E) : Prop :=
  w_lim wd' = w_lim wd ∧ w_queue wd' = w_queue wd ∧
  (∃ ms, w_events wd' = w_events wd ++ ms ∧ metrics_only ms) ∧
  w_env wd' = match decodeFrame w raw with
              | (inl f, ttl) =>
                  if fl_SeqNum f =? 0 then w_env wd
                  else (@cache_Store E (cache w) (field 40 56 raw) raw ttl (w_env wd)).2
              | (inr _, _) => w_env wd
              end.

Lemma wp_cacheFrame w raw src (wd : world E) :
  wp (cacheFrame w raw src (decodeFrame w raw).2 (decodeFrame w raw).1)
    (λ _ wd', ingested w raw wd wd') wd.
Proof.
  unfold cacheFrame, ingested. destruct (decodeFrame w raw) as [[f|err] ttl] eqn:Hd; cbn [fst snd].
  2:{ wp_step. split_and!; try done. eexists. split; [done|]. auto with trace. }
  apply decodeFrame_flow in Hd as (Hl & Hh & Hs & _). wp_step. wp_step.
  destruct (fl_SeqNum f =? 0) eqn:Hz; rewrite ?Hz.
  { wp_step. split_and!; try done. eexists. split; [done|]. auto with trace. }
  wp_step. eapply wp_liftO; [by apply flow_key|]. wp_step. wp_step.
  destruct a; wp_step; rewrite Hop; (split_and!; [done..| |done]);
    eexists; rewrite <- app_assoc; (split; [done|auto with trace]).
Qed.

Lemma processFrame_decode w raw src :
  processFrame w raw src = cacheFrame w raw src (decodeFrame w raw).2 (decodeFrame w raw).1.
Proof.
  unfold processFrame, decodeFrame, processBlockFrame, processSubtreeDataFrame, processAnchorFrame,
    processBundleFrame, processBEEFFrame, processFragmentFrame.
  destruct (IsBlockFrame raw); [done|]. destruct (IsSubtreeDataFrame raw); [done|].
  destruct (IsAnchorFrame raw); [done|]. destruct (IsBundle raw).
  { by rewrite bundleKey_eq. }
  destruct (IsBEEFFrame raw); [done|]. destruct (IsFragment raw); [|done].
  by destruct (DecodeFragment raw).
Qed.

Lemma wp_processFrame w raw src (wd : world E) :
  wp (processFrame w raw src) (λ _ wd', ingested w raw wd wd') wd.
Proof. rewrite processFrame_decode. apply wp_cacheFrame. Qed.

(** Storing a frame under its own key keeps [P]. *)
Class IngestEnv (P : E → Prop) (w : Worker) : Prop :=
  ie_store :: ∀ raw ttl, Keeps P (@cache_Store E (cache w) (field 40 56 raw) raw ttl).
#[global] Instance ingestEnv_any w : IngestEnv (λ _, True) w.
Proof. intros raw ttl. apply _. Qed.

Section wpi.
Context (P : E → Prop) (I : RateLimit.Limiter → list job → Prop) (w : Worker) `{!IngestEnv P w}.

Lemma wpi_cacheFrame raw src ttl d : (∀ f, d = inl f → (56 ≤ length raw)%nat ∧
    fl_HashKey f = hashkey_of raw ∧ fl_SeqNum f = seqnum_of raw) →
  wpi P I (cacheFrame w raw src ttl d) (λ _ evs jobs, jobs = [] ∧ metrics_only evs).
Proof.
  intros Hd. unfold cacheFrame. destruct d as [f|err]; [|wpi_step; auto with trace].
  destruct (Hd f eq_refl) as (Hl & Hh & Hs). wpi_step. wpi_step.
  destruct (fl_SeqNum f =? 0); [wpi_step; auto with trace|].
  wpi_step. eapply wpi_liftO; [by apply flow_key|]. wpi_step. wpi_step.
  destruct a; wpi_step; auto with trace.
Qed.

(** Whatever runs beside it, ingress touches neither limiter nor queue nor network. *)
Lemma wpi_processFrame raw src :
  wpi P I (processFrame w raw src) (λ _ evs jobs, jobs = [] ∧ metrics_only evs).
Proof.
  rewrite processFrame_decode. apply wpi_cacheFrame. intros f Hf.
  destruct (decodeFrame w raw) as [d ttl] eqn:Hd. simpl in Hf. subst d.
  apply decodeFrame_flow in Hd as (? & ? & ? & _). done.
Qed.

Lemma wpi_handle tee p s :
  wpi P I (handle w tee p s) (λ _ evs jobs, jobs = [] ∧ metrics_only evs).
Proof.
  assert (∀ raw src (p' : processor), wpi P I (_ ← processFrame w raw src; mret p')
    (λ _ evs jobs, jobs = [] ∧ metrics_only evs)) as Hf.
  { intros raw src p'. wpi_step. eapply wpi_mono; [apply wpi_processFrame|].
    intros ? evs ? [-> Hm]. wpi_step. done. }
  assert (∀ m raw src (p' : processor), wpi P I (_ ← emit (rec w) m; _ ← processFrame w raw src; mret p')
    (λ _ evs jobs, jobs = [] ∧ metrics_only evs)) as Hef.
  { intros m raw src p'. wpi_step. wpi_step. eapply wpi_mono; [apply Hf|]. intros ? evs ? [-> Hm].
    auto with trace. }
  unfold handle. destruct tee; cbn [negb].
  - destruct (tee_IsEncap _); [destruct (tee_Decap _) as [[a payload]|]|].
    + destruct (label (As16 a) p). apply Hef.
    + wpi_step. wpi_step. wpi_step. auto with trace.
    + destruct (if sl_v6 s then _ else _). apply Hef.
  - destruct (sl_v6 s); [destruct (label _ p)|]; apply Hf.
Qed.
End wpi.
End contract.

(** *** Labels *)

Definition label_inv (p : processor) : Prop :=
  p_src p = ""%string ∨ p_src p = Addr_String (Addr6 (lastSrc p)).

Lemma label_correct a p : label_inv p →
  (label a p).1 = Addr_String (Addr6 a) ∧ label_inv (label a p).2.
Proof.
  unfold label, label_inv. intros Hp. case_decide as Hc; simpl; [by auto|].
  assert (a = lastSrc p) as -> by (destruct (decide (a = lastSrc p)); tauto). tauto.
Qed.

(** The processor without its label cache: formats every time. *)
Definition handle_ref (w : Worker) (tee : bool) (s : slot) : GoM (world E) unit :=
  let lbl a := Addr_String (Addr6 a) in
  let pkt := sl_data s in
  if negb tee then processFrame w pkt (if sl_v6 s then lbl (sl_from s) else "")
  else if tee_IsEncap pkt then
    match tee_Decap pkt with
    | inr _ => emit (rec w) (FrameDropped "tee_decap_error")
    | inl (srcAddr, payload) =>
        _ ← emit (rec w) (TeeDatagram "encap"); processFrame w payload (lbl (As16 srcAddr))
    end
  else
    _ ← emit (rec w) (TeeDatagram "raw");
    processFrame w pkt (if sl_v6 s then lbl (sl_from s) else "").

Fixpoint handle_all (w : Worker) (tee : bool) (p : processor) (ss : list slot)
  : GoM (world E) processor :=
  match ss with
  | [] => mret p
  | s :: ss' => p' ← handle w tee p s; handle_all w tee p' ss'
  end.

Fixpoint handle_all_ref (w : Worker) (tee : bool) (ss : list slot) : GoM (world E) unit :=
  match ss with
  | [] => mret tt
  | s :: ss' => _ ← handle_ref w tee s; handle_all_ref w tee ss'
  end.

(** The same run, returning [b]. *)
Definition returning {A B W} (b : B) (r : option (A * W)) : option (B * W) :=
  match r with Some (_, w') => Some (b, w') | None => None end.

Lemma run_returning {W B} (m : GoM W unit) (b : B) wd : run (_ ← m; mret b) wd = returning b (run m wd).
Proof. rewrite run_bind. by destruct (run m wd) as [[]|]. Qed.

Lemma handle_equiv w tee p s (wd : world E) : label_inv p →
  ∃ p', label_inv p' ∧
    handle w tee p s wd = returning p' (handle_ref w tee s wd).
Proof.
  intros Hp. unfold handle, handle_ref.
  assert (∀ a, ∃ p', label_inv p' ∧ label a p = (Addr_String (Addr6 a), p')) as Hlbl.
  { intros a. destruct (label_correct a p Hp) as [Hl Hi]. destruct (label a p) as [src p']. simpl in *. subst. eauto. }
  destruct tee; cbn [negb].
  - destruct (tee_IsEncap (sl_data s)); [destruct (tee_Decap (sl_data s)) as [[a payload]|]|].
    + destruct (Hlbl (As16 a)) as (p' & Hi & ->). exists p'. split; [done|]. rewrite !(run_bind (emit _ _)).
      destruct (run (emit _ _) wd) as [[[] wd1]|]; [|done]. apply run_returning.
    + exists p. split; [done|]. apply run_returning.
    + assert (∃ p', label_inv p' ∧ (if sl_v6 s then label (sl_from s) p else (""%string, p)) =
        (if sl_v6 s then Addr_String (Addr6 (sl_from s)) else ""%string, p')) as (p' & Hi & ->).
      { destruct (sl_v6 s); [apply Hlbl|by exists p]. }
      exists p'. split; [done|]. rewrite !(run_bind (emit _ _)).
      destruct (run (emit _ _) wd) as [[[] wd1]|]; [|done]. apply run_returning.
  - destruct (sl_v6 s).
    + destruct (Hlbl (sl_from s)) as (p' & Hi & ->). exists p'. split; [done|]. apply run_returning.
    + exists p. split; [done|]. apply run_returning.
Qed.

Lemma handle_all_equiv w tee p ss (wd : world E) : label_inv p →
  ∃ p', handle_all w tee p ss wd = returning p' (handle_all_ref w tee ss wd).
Proof.
  revert p wd. induction ss as [|s ss IH]; intros p wd Hp; cbn [handle_all handle_all_ref]; [by exists p|].
  destruct (handle_equiv w tee p s wd Hp) as (p1 & Hp1 & He). rewrite !run_bind, He.
  destruct (handle_ref w tee s wd) as [[[] wd1]|]; simpl; [by apply IH|by exists p].
Qed.

(** ** Theorems *)

(** C9: what ingress caches is what the NACK server can serve. Whatever
    arrives, the handler returns without a panic and touches neither limiter
    nor proxy queue nor network; it stores nothing, or exactly one entry: the
    datagram verbatim, under its own HashKey and SeqNum (bytes 40 to 56), with
    one of the configured TTLs, and never a frame whose SeqNum is zero. *)
Theorem ingest_contract (w : Worker) (raw : bytes) (src : string) (wd : world E) :
  FrameLibOk →
  ∃ wd' ms, processFrame w raw src wd = Some (tt, wd') ∧
    w_lim wd' = w_lim wd ∧ w_queue wd' = w_queue wd ∧
    w_events wd' = w_events wd ++ ms ∧ metrics_only ms ∧
    (w_env wd' = w_env wd ∨
     ((56 ≤ length raw)%nat ∧ seqnum_of raw ≠ 0 ∧ ∃ ttl,
       ttl ∈ [Tx (ttls w); Block (ttls w); Subtree (ttls w); Anchor (ttls w); BEEF (ttls w)] ∧
       w_env wd' = (@cache_Store E (cache w) (field 40 56 raw) raw ttl (w_env wd)).2)).
Proof.
  intros Hok. pose proof (wp_processFrame w raw src wd) as Hwp.
  apply wp_iff in Hwp as ([] & wd' & Hr & Hl & Hq & (ms & Hev & Hms) & He).
  exists wd', ms. split_and!; [done..|]. rewrite He.
  destruct (decodeFrame w raw) as [[f|err] ttl] eqn:Hd; [|by left].
  apply decodeFrame_flow in Hd as (Hlen & Hh & Hs & Httl).
  destruct (fl_SeqNum f =? 0) eqn:Hz; [by left|]. right. split_and!; [done|lia|eauto].
Qed.

(** The header-only bundle parse is total and exact. It never panics, and
    it accepts a datagram precisely when it holds a full 66-byte header with
    the right magic and version and a member section of the announced size;
    it then returns the flow key and member count at their offsets. *)
Theorem bundleKey_exact (raw : bytes) (hk sq members : Z) :
  FrameLibOk →
  is_Some (bundleKey raw) ∧
  (bundleKey raw = Some (inl (hk, sq, members)) ↔
    (66 ≤ length raw)%nat ∧ be_dec (field 0 4 raw) = MagicBSV ∧ raw !! 6%nat = Some x08 ∧
    66 + be_dec (field 62 66 raw) ≤ Z.of_nat (length raw) ∧
    hk = hashkey_of raw ∧ sq = seqnum_of raw ∧ members = be_dec (field 60 62 raw)).
Proof.
  intros Hok. rewrite bundleKey_eq. split; [done|]. split.
  - intros Hb. case_decide as Hl; [done|]. case_decide as Hm; [done|]. case_decide as Hv; [done|].
    destruct (_ <? _) eqn:Hlt; [done|].
    injection Hb as <- <- <-. split_and!; [lia|exact Hm|exact Hv|lia|done..].
  - intros (Hl & Hm & Hv & Hs & -> & -> & ->). rewrite decide_False by lia.
    rewrite !decide_False by (intros Hn; by apply Hn).
    destruct (_ <? _) eqn:Hlt; [lia|done].
Qed.

(** C40: The processor's label cache is invisible. Whatever mix of sources,
    envelopes and raw datagrams a processor sees, it has exactly the effects,
    labels included, of one that formats the source address every time. *)
Theorem label_cache_invisible (w : Worker) (tee : bool) (ss : list slot) (wd : world E) :
  ∃ p', handle_all w tee newProcessor ss wd = returning p' (handle_all_ref w tee ss wd).
Proof. apply handle_all_equiv. by left. Qed.
End model.

(** ** Instances *)
Section instances.
Import RefEnv.

Definition worker0 : Worker (E := renv) :=
  New (Some 2) 9001 [] (store_cache (frame_store redis 0)) true (mkTTLs 60 600 600 600 300).

(** A bundle header with an empty member section. *)
Definition bundle0 : bytes :=
  be_enc 4 0xE3E1F3E8 ++ be_enc 2 0x02BF ++ [x08; x00] ++ replicate 32 x00 ++ be_enc 8 7 ++ be_enc 8 4 ++
  be_enc 2 1 ++ be_enc 2 0 ++ be_enc 2 3 ++ be_enc 4 0.

Lemma ingest_contract_witness :
  ∃ wd' ms, processFrame worker0 Retransmit.tx_frame "::1" world0 = Some (tt, wd') ∧
    w_lim wd' = w_lim world0 ∧ w_queue wd' = w_queue world0 ∧
    w_events wd' = w_events world0 ++ ms ∧ metrics_only ms ∧
    (w_env wd' = w_env world0 ∨
     ((56 ≤ length Retransmit.tx_frame)%nat ∧ seqnum_of Retransmit.tx_frame ≠ 0 ∧ ∃ ttl,
       ttl ∈ [60; 600; 600; 600; 300] ∧
       w_env wd' = (@cache_Store renv (cache worker0) (field 40 56 Retransmit.tx_frame)
         Retransmit.tx_frame ttl (w_env world0)).2)).
Proof. apply (ingest_contract worker0 Retransmit.tx_frame "::1" world0). apply _. Defined.

(** Each class ends up in the cache under its flow key. *)
Example classes_cached :
  Forall (λ raw, (@cache_Retrieve renv (cache worker0) (field 40 56 raw)
    (w_env (after (processFrame worker0 raw "::1") world0))).1 = inl (Some raw))
    [Retransmit.tx_frame; Retransmit.beef_frame x01 x02; Retransmit.block_fragment; bundle0;
     ref_frame x04 x01 x02 x00 9 1; ref_frame x05 x01 x02 x00 9 1; ref_frame x06 x01 x02 x00 9 1].
Proof. by_decide. Qed.

Lemma bundleKey_exact_witness : bundleKey bundle0 = Some (inl (7, 4, 3)).
Proof. apply (bundleKey_exact bundle0 7 4 3); [apply _|]. split_and!; vm_compute; (reflexivity || lia || discriminate). Defined.
End instances.

End Ingress.
