(* ===== verification/Pipeline.v ===== *)
(** * The receive pipeline

    Models src/ingress/pipeline.go around the processor of Ingress.v: the sizes,
    the choice of a processor by cache key ([shardOf]), and [receive] as a state
    machine over a shared ring of reusable buffers.

    A state holds the buffers themselves ([ps_mem]), so that reuse is visible:
    the receiver overwrites the buffers of its batch, queues and processors only
    hold indices into them. A lane is one processing goroutine with its queue;
    [ln_accepted] and [ln_handled] record what was queued to it and what it
    processed; [ps_meter] counts the datagrams read and records the drops reported.
    [read_batch] is the reader of Linux, [read_one] that of the platforms without
    recvmmsg. Closing the socket and cancellation stop the receiver. *)

From S2P Require Import Prelude GoNet External RefEnv RateLimit World CacheStore Retransmit Ingress.
From Stdlib Require Import Strings.Byte.
Import GoNet External World CacheStore Ingress.

Module Pipeline.

Definition slotSize : Z := Z.shiftl 64 10.
Definition recvBatchSize : nat := 64.
Definition DefaultQueueDepth : Z := 1024.
Definition DefaultProcs : Z := 4.

Section model.
Context {E : Type} `{!RateLib E, !OS E, !FrameLib, !TeeWire}.

Definition SetPipeline (depth procs : Z) (w : Worker (E := E)) : Worker :=
  mkWorker (iface w) (port w) (groups w) (sources w) (cache w) (rec w) (ttls w) (recvBuf w) depth procs.

Definition pipelineSize (w : Worker (E := E)) : Z * Z :=
  (if queueDepth w <? 1 then DefaultQueueDepth else queueDepth w,
   if Ingress.procs w <? 1 then DefaultProcs else Ingress.procs w).

(** Queue capacity per processor and number of slots. *)
Definition perQueue (depth procs : Z) : Z := (depth + procs - 1) / procs.
Definition totalSlots (depth procs : Z) : Z :=
  perQueue depth procs * procs + procs + Z.of_nat recvBatchSize.

(** The bytes a processor will parse as a frame. *)
Definition shardOf (pkt : bytes) (tee : bool) : option Z :=
  let body pkt :=
    if decide (length pkt < 56)%nat then Some 0 else
    a ← gsub 40 48 pkt ≫= BE_Uint64;
    b ← gsub 48 56 pkt ≫= BE_Uint64;
    let h := Z.lxor a (u64 (b * 0x9E3779B97F4A7C15)) in
    Some (Z.lxor h (Z.shiftr h 32)) in
  if tee && tee_IsEncap pkt then
    if decide (length pkt < tee_HeaderSize)%nat then Some 0
    else gsub tee_HeaderSize (length pkt) pkt ≫= body
  else body pkt.

(** The lane of a datagram. *)
Definition laneOf (procs : nat) (tee : bool) (pkt : bytes) : option nat :=
  if decide (1 < procs)%nat then
    h ← shardOf pkt tee;
    Some (Z.to_nat (h mod Z.of_nat procs))
  else Some 0%nat.

(** *** The receive loop *)

Record lane := mkLane {
  ln_queue : list nat;
  ln_held : option nat;
  ln_accepted : list slot;
  ln_handled : list slot;
}.

Definition lane_slots (l : lane) : list nat := option_list (ln_held l) ++ ln_queue l.

(** Where the receiver is: about to read, looking at datagram [i] of [n],
    waiting for room for it, taking a free slot to replace it, returned. *)
Inductive rpc := Reading | Dispatching (i n : nat) | Waiting (i n : nat) | Refilling (i n : nat) | Returned.

(** What the receiver has counted: datagrams read, drops reported to the recorder,
    datagrams skipped because they are empty. *)
Record meter := mkMeter {
  mt_read : nat;
  mt_events : list metric;
  mt_empty : nat;
}.

Definition dropped (rec : bool) (reason : string) (mt : meter) : meter :=
  if rec then mkMeter (mt_read mt) (mt_events mt ++ [FrameDropped reason]) (mt_empty mt) else mt.

Record pstate := mkP {
  ps_meter : meter;
  ps_mem : list slot;
  ps_free : list nat;
  ps_batch : list (option nat);
  ps_lanes : list lane;
  ps_pc : rpc;
}.

(** A batched read stores its datagrams in the first slots of the batch. *)
Fixpoint write_batch (mem : list slot) (batch : list (option nat)) (ds : list slot) : list slot :=
  match batch, ds with
  | Some s :: batch', d :: ds' => write_batch (<[s := d]> mem) batch' ds'
  | _, _ => mem
  end.

(** recvbatch_linux.go: a header recvmmsg has filled in, and the slot made of it. *)
Definition MSG_TRUNC : Z := 0x20.
Definition AF_INET6 : Z := 10.
Record mmsghdr := mkMmsghdr { mh_Buf : bytes; mh_Flags : Z; mh_Family : Z; mh_Addr : bytes }.

Definition received (h : mmsghdr) : slot :=
  mkSlot (mh_Buf h) (mh_Addr h) (mh_Family h =? AF_INET6) (negb (Z.land (mh_Flags h) MSG_TRUNC =? 0)).
Definition read_batch (mem : list slot) (batch : list (option nat)) (hs : list mmsghdr) : list slot :=
  write_batch mem batch (received <$> hs).

(** What the kernel fills in for a datagram: the part that fits the buffer, and the
    flag when there is more. *)
Definition recvmmsg (data : bytes) (family : Z) (from : bytes) : mmsghdr :=
  mkMmsghdr (take (Z.to_nat slotSize) data) (if slotSize <? Z.of_nat (length data) then MSG_TRUNC else 0) family from.

(** recvbatch_other.go: one datagram per read, cut to the buffer without notice;
    a source that is not IPv6 leaves the old address in the slot. *)
Definition read_one (mem : list slot) (batch : list (option nat)) (data : bytes) (from : option bytes) : list slot :=
  match batch with
  | Some s :: _ =>
      match mem !! s with
      | Some old =>
          <[s := mkSlot (take (Z.to_nat slotSize) data) (default (sl_from old) from) (bool_decide (is_Some from)) false]> mem
      | None => mem
      end
  | _ => mem
  end.

Section machine.
Context (procs per : nat) (tee rec : bool).

Implicit Types (lanes : list lane) (mem : list slot) (batch : list (option nat)).

Definition emptySlot : slot := mkSlot [] (replicate 16 x00) false false.

Definition initial : pstate :=
  let total := (per * procs + procs + recvBatchSize)%nat in
  mkP (mkMeter 0 [] 0) (replicate total emptySlot) (seq recvBatchSize (total - recvBatchSize))
    (Some <$> seq 0 recvBatchSize) (replicate procs (mkLane [] None [] [])) Reading.

Inductive recv_step : pstate → pstate → Prop :=
| rs_read mt mem free batch lanes ds :
    (0 < length ds ≤ recvBatchSize)%nat →
    recv_step (mkP mt mem free batch lanes Reading)
      (mkP (mkMeter (mt_read mt + length ds) (mt_events mt) (mt_empty mt)) (write_batch mem batch ds) free batch lanes (Dispatching 0 (length ds)))
| rs_truncated mt mem free batch lanes i n s d :
    (i < n)%nat → batch !! i = Some (Some s) → mem !! s = Some d → sl_trunc d = true →
    recv_step (mkP mt mem free batch lanes (Dispatching i n))
      (mkP (dropped rec "truncated" mt) mem free batch lanes (Dispatching (S i) n))
| rs_empty mt mem free batch lanes i n s d :
    (i < n)%nat → batch !! i = Some (Some s) → mem !! s = Some d → sl_trunc d = false → sl_data d = [] →
    recv_step (mkP mt mem free batch lanes (Dispatching i n))
      (mkP (mkMeter (mt_read mt) (mt_events mt) (S (mt_empty mt))) mem free batch lanes (Dispatching (S i) n))
| rs_send mt mem free batch lanes i n s d k ln pc :
    pc = Dispatching i n ∨ pc = Waiting i n →
    (i < n)%nat → batch !! i = Some (Some s) → mem !! s = Some d →
    sl_trunc d = false → sl_data d ≠ [] →
    laneOf procs tee (sl_data d) = Some k → lanes !! k = Some ln → (length (ln_queue ln) < per)%nat →
    recv_step (mkP mt mem free batch lanes pc)
      (mkP mt mem free (<[i := None]> batch)
        (<[k := mkLane (ln_queue ln ++ [s]) (ln_held ln) (ln_accepted ln ++ [d]) (ln_handled ln)]> lanes)
        (Refilling i n))
| rs_full mt mem free batch lanes i n s d k ln :
    (i < n)%nat → batch !! i = Some (Some s) → mem !! s = Some d →
    sl_trunc d = false → sl_data d ≠ [] →
    laneOf procs tee (sl_data d) = Some k → lanes !! k = Some ln → length (ln_queue ln) = per →
    recv_step (mkP mt mem free batch lanes (Dispatching i n)) (mkP mt mem free batch lanes (Waiting i n))
| rs_timeout mt mem free batch lanes i n :
    recv_step (mkP mt mem free batch lanes (Waiting i n))
      (mkP (dropped rec "queue_full" mt) mem free batch lanes (Dispatching (S i) n))
| rs_refill mt mem s free batch lanes i n :
    recv_step (mkP mt mem (s :: free) batch lanes (Refilling i n))
      (mkP mt mem free (<[i := Some s]> batch) lanes (Dispatching (S i) n))
| rs_next mt mem free batch lanes n :
    recv_step (mkP mt mem free batch lanes (Dispatching n n)) (mkP mt mem free batch lanes Reading)
| rs_return mt mem free batch lanes pc :
    pc = Reading ∨ (∃ i n, pc = Waiting i n) →
    recv_step (mkP mt mem free batch lanes pc) (mkP mt mem free batch lanes Returned)
| rs_take mt mem free batch lanes pc k ln s q :
    lanes !! k = Some ln → ln_held ln = None → ln_queue ln = s :: q →
    recv_step (mkP mt mem free batch lanes pc)
      (mkP mt mem free batch (<[k := mkLane q (Some s) (ln_accepted ln) (ln_handled ln)]> lanes) pc)
| rs_handle mt mem free batch lanes pc k ln s d :
    lanes !! k = Some ln → ln_held ln = Some s → mem !! s = Some d →
    recv_step (mkP mt mem free batch lanes pc)
      (mkP mt mem (free ++ [s]) batch
        (<[k := mkLane (ln_queue ln) None (ln_accepted ln) (ln_handled ln ++ [d])]> lanes) pc).

(** *** Where the slots are *)

Definition placed (st : pstate) : list nat :=
  ps_free st ++ omap id (ps_batch st) ++ concat (lane_slots <$> ps_lanes st).

Definition total : nat := (per * procs + procs + recvBatchSize)%nat.

(** The datagrams in the given slots. *)
Definition contents (mem : list slot) (l : list nat) : list slot := omap (λ s, mem !! s) l.

Definition lane_ok (mem : list slot) (k : nat) (ln : lane) : Prop :=
  (length (ln_queue ln) ≤ per)%nat ∧
  ln_accepted ln = ln_handled ln ++ contents mem (lane_slots ln) ∧
  Forall (λ d, laneOf procs tee (sl_data d) = Some k) (ln_accepted ln).

Definition pc_ok (batch : list (option nat)) (pc : rpc) : Prop :=
  match pc with
  | Dispatching i n => (n ≤ recvBatchSize)%nat ∧ length (omap id batch) = recvBatchSize
  | Waiting i n => (n ≤ recvBatchSize)%nat ∧ length (omap id batch) = recvBatchSize
  | Refilling i n => (n ≤ recvBatchSize)%nat ∧ batch !! i = Some None ∧
      S (length (omap id batch)) = recvBatchSize
  | _ => length (omap id batch) = recvBatchSize
  end.

Record pipe_ok (st : pstate) : Prop := {
  po_placed : placed st ≡ₚ seq 0 total;
  po_mem : length (ps_mem st) = total;
  po_batch : length (ps_batch st) = recvBatchSize;
  po_pc : pc_ok (ps_batch st) (ps_pc st);
  po_lanes : length (ps_lanes st) = procs;
  po_lane : ∀ k ln, ps_lanes st !! k = Some ln → lane_ok (ps_mem st) k ln;
}.

Lemma write_batch_other mem batch ds s :
  s ∉ omap id batch → write_batch mem batch ds !! s = mem !! s.
Proof.
  revert mem ds. induction batch as [|[s'|] batch IH]; intros mem [|d ds] Hs; try done.
  simpl in *. apply not_elem_of_cons in Hs as [? ?].
  rewrite IH by done. by rewrite list_lookup_insert_ne by congruence.
Qed.

(** A read of the Linux reader is a step; it marks as truncated exactly what did not
    fit, and the rest arrives whole, with its source when that is IPv6. *)
Lemma read_batch_reads mt mem free batch lanes hs :
  (0 < length hs ≤ recvBatchSize)%nat →
  recv_step (mkP mt mem free batch lanes Reading)
    (mkP (mkMeter (mt_read mt + length hs) (mt_events mt) (mt_empty mt)) (read_batch mem batch hs) free batch lanes
      (Dispatching 0 (length hs))).
Proof. rewrite <- (length_fmap received hs). apply rs_read. Qed.

Lemma received_whole data family from :
  let d := received (recvmmsg data family from) in
  (sl_trunc d = true ↔ slotSize < Z.of_nat (length data)) ∧
  (sl_trunc d = false → sl_data d = data) ∧ sl_from d = from ∧ (sl_v6 d = true ↔ family = AF_INET6).
Proof.
  unfold received, recvmmsg. cbn [sl_trunc sl_data sl_from sl_v6 mh_Buf mh_Flags mh_Family mh_Addr].
  rewrite Z.eqb_eq. destruct (Z.ltb_spec slotSize (Z.of_nat (length data))).
  - by split_and!.
  - split_and!; [split; [done|lia]| |done..]. intros _. apply take_ge. unfold slotSize in *. lia.
Qed.

(** The other platforms' reader is an instance of the batched one: a UDP datagram
    fits the buffer, so nothing is lost by not reporting truncation. *)
Lemma read_one_reads mt mem free batch lanes s old data from :
  batch !! 0%nat = Some (Some s) → mem !! s = Some old → Z.of_nat (length data) < 65536 →
  recv_step (mkP mt mem free batch lanes Reading) (mkP (mkMeter (mt_read mt + 1) (mt_events mt) (mt_empty mt)) (read_one mem batch data from) free batch lanes (Dispatching 0 1)) ∧
  sl_data <$> read_one mem batch data from !! s = Some data.
Proof.
  intros Hb Hs Hd. destruct batch as [|b batch]; [done|]. injection Hb as ->. unfold read_one. rewrite Hs.
  rewrite take_ge by (change slotSize with 65536; lia). split.
  - pose proof (rs_read mt mem free (Some s :: batch) lanes
      [mkSlot data (default (sl_from old) from) (bool_decide (is_Some from)) false]) as Hr.
    destruct batch as [|[]]; apply Hr; unfold recvBatchSize; simpl; lia.
  - by rewrite list_lookup_insert_eq by eauto using lookup_lt_Some.
Qed.

Lemma length_write_batch mem batch ds : length (write_batch mem batch ds) = length mem.
Proof.
  revert mem ds. induction batch as [|[s'|] batch IH]; intros mem [|d ds]; try done.
  simpl. by rewrite IH, length_insert.
Qed.

Lemma contents_ext mem mem' l :
  (∀ s, s ∈ l → mem !! s = mem' !! s) → contents mem l = contents mem' l.
Proof.
  unfold contents. induction l as [|s l IH]; intros Hl; csimpl; [done|].
  rewrite Hl by constructor. rewrite IH; [done|]. intros s' ?. apply Hl. by constructor.
Qed.

Lemma lane_slots_elem lanes k ln s :
  lanes !! k = Some ln → s ∈ lane_slots ln → s ∈ concat (lane_slots <$> lanes).
Proof.
  revert k. induction lanes as [|l lanes IH]; intros [|k] Hk Hs; simplify_eq/=; [set_solver|].
  apply elem_of_app. right. by eapply IH.
Qed.

(** A buffer a lane owns is not one the receiver writes to. *)
Lemma placed_disjoint st k ln s :
  (placed st ≡ₚ seq 0 total) → ps_lanes st !! k = Some ln → s ∈ lane_slots ln →
  (s ∉ omap id (ps_batch st)) ∧ (s < total)%nat.
Proof.
  intros Hp Hk Hs. assert (NoDup (placed st)) as Hnd by (rewrite Hp; apply NoDup_seq).
  unfold placed in *. apply NoDup_app in Hnd as (_ & _ & Hnd). apply NoDup_app in Hnd as (_ & Hd & _).
  pose proof (lane_slots_elem _ _ _ _ Hk Hs) as Hin. split.
  - intros Hb. by apply (Hd s).
  - assert (s ∈ seq 0 total) as Hseq by (rewrite <- Hp; set_solver). apply elem_of_seq in Hseq. lia.
Qed.

(** Replacing a lane moves its slots. *)
Lemma lanes_insert lanes k ln ln' :
  lanes !! k = Some ln →
  concat (lane_slots <$> <[k := ln']> lanes) ++ lane_slots ln ≡ₚ
  concat (lane_slots <$> lanes) ++ lane_slots ln'.
Proof.
  intros Hk. rewrite list_fmap_insert. apply concat_insert_Permutation.
  by rewrite list_lookup_fmap, Hk.
Qed.

Lemma contents_cons mem s d l : mem !! s = Some d → contents mem (s :: l) = d :: contents mem l.
Proof. intros Hs. unfold contents. csimpl. by rewrite Hs. Qed.
Lemma contents_app mem l1 l2 : contents mem (l1 ++ l2) = contents mem l1 ++ contents mem l2.
Proof. apply omap_app. Qed.

Lemma contents_length mem l : (∀ s, s ∈ l → is_Some (mem !! s)) → length (contents mem l) = length l.
Proof.
  intros Hin. induction l as [|s l IH]; [done|]. destruct (Hin s) as [d Hd]; [by left|].
  rewrite (contents_cons _ _ d) by done. simpl. rewrite IH; [done|]. intros s' Hs'. apply Hin. by right.
Qed.

(** *** Every step preserves the invariant *)

Lemma lanes_replace mem lanes k ln' :
  (∀ j ln, lanes !! j = Some ln → lane_ok mem j ln) → lane_ok mem k ln' →
  ∀ j ln, <[k := ln']> lanes !! j = Some ln → lane_ok mem j ln.
Proof.
  intros Hl Hk j ln Hj. apply list_lookup_insert_Some in Hj as [(-> & <- & _)|[_ Hj]]; [done|eauto].
Qed.

Lemma step_pc mt mt' mem free batch lanes pc pc' :
  pipe_ok (mkP mt mem free batch lanes pc) → pc_ok batch pc' → pipe_ok (mkP mt' mem free batch lanes pc').
Proof. intros [] Hpc. by split. Qed.

Lemma step_read_ok mt mem free batch lanes ds :
  (length ds ≤ recvBatchSize)%nat → pipe_ok (mkP mt mem free batch lanes Reading) →
  pipe_ok (mkP (mkMeter (mt_read mt + length ds) (mt_events mt) (mt_empty mt)) (write_batch mem batch ds) free batch lanes (Dispatching 0 (length ds))).
Proof.
  intros Hds Hok. destruct Hok as [Hp Hm Hb Hpc Hl Hln]. split; simpl in *; try done.
  - by rewrite length_write_batch.
  - intros k ln Hk. destruct (Hln k ln Hk) as (Hq & Ha & Hf). split_and!; [done| |done].
    rewrite Ha. f_equal. apply contents_ext. intros s Hs.
    destruct (placed_disjoint _ k ln s Hp Hk Hs) as [Hd _]. by rewrite write_batch_other.
Qed.

Lemma step_send_ok mt mem free batch lanes i n s d k ln pc :
  pc = Dispatching i n ∨ pc = Waiting i n → batch !! i = Some (Some s) → mem !! s = Some d →
  laneOf procs tee (sl_data d) = Some k → lanes !! k = Some ln → (length (ln_queue ln) < per)%nat →
  pipe_ok (mkP mt mem free batch lanes pc) →
  pipe_ok (mkP mt mem free (<[i := None]> batch)
        (<[k := mkLane (ln_queue ln ++ [s]) (ln_held ln) (ln_accepted ln ++ [d]) (ln_handled ln)]> lanes)
        (Refilling i n)).
Proof.
  intros Hpc0 Hi Hs Hlane Hk Hq Hok. destruct Hok as [Hp Hm Hb Hpc Hl Hln]. simpl in *.
  pose proof (omap_id_insert batch i (Some s) None Hi) as Hom. simpl in Hom.
  set (ln' := mkLane _ _ _ _). pose proof (lanes_insert lanes k ln ln' Hk) as Hli.
  assert (concat (lane_slots <$> <[k := ln']> lanes) ≡ₚ concat (lane_slots <$> lanes) ++ [s]) as Hli'.
  { apply (Permutation_app_inv_r (lane_slots ln)). rewrite Hli. unfold lane_slots at 2. simpl.
    rewrite <- (app_assoc _ [s]), (Permutation_app_comm [s]). unfold lane_slots at 3. by rewrite <- !app_assoc. }
  split; simpl.
  - unfold placed in *. simpl in *. rewrite Hli', <- Hp, <- Hom. apply Permutation_app; [done|].
    simpl. rewrite app_assoc, (Permutation_app_comm _ [s]). done.
  - done.
  - by rewrite length_insert.
  - assert (length (omap id batch) = recvBatchSize ∧ (n ≤ recvBatchSize)%nat) as [Hlen Hn].
    { destruct Hpc0 as [-> | ->]; simpl in Hpc; tauto. }
    split_and!; [done|by apply list_lookup_insert_eq, (lookup_lt_Some _ _ _ Hi)|].
    apply Permutation_length in Hom. simpl in Hom. lia.
  - by rewrite length_insert.
  - apply lanes_replace; [done|]. destruct (Hln k ln Hk) as (Hlq & Ha & Hf). split_and!.
    + simpl. rewrite length_app. simpl. lia.
    + unfold lane_slots in *. simpl. rewrite Ha, app_assoc, (contents_app mem (_ ++ _)).
      rewrite (contents_cons mem s d) by done. by rewrite <- !app_assoc.
    + simpl. apply Forall_app. split; [done|]. by constructor.
Qed.

Lemma step_refill_ok mt mem s free batch lanes i n :
  pipe_ok (mkP mt mem (s :: free) batch lanes (Refilling i n)) →
  pipe_ok (mkP mt mem free (<[i := Some s]> batch) lanes (Dispatching (S i) n)).
Proof.
  intros Hok. destruct Hok as [Hp Hm Hb Hpc Hl Hln]. simpl in *. destruct Hpc as (Hn & Hi & Hlen).
  pose proof (omap_id_insert batch i None (Some s) Hi) as Hom. simpl in Hom.
  split; simpl; try done.
  - unfold placed in *. simpl in *. rewrite Hom, <- Hp. symmetry. apply Permutation_middle.
  - by rewrite length_insert.
  - apply Permutation_length in Hom. simpl in Hom. lia.
Qed.

Lemma step_take_ok mt mem free batch lanes pc k ln s q :
  lanes !! k = Some ln → ln_held ln = None → ln_queue ln = s :: q →
  pipe_ok (mkP mt mem free batch lanes pc) →
  pipe_ok (mkP mt mem free batch (<[k := mkLane q (Some s) (ln_accepted ln) (ln_handled ln)]> lanes) pc).
Proof.
  intros Hk Hh Hq Hok. destruct Hok as [Hp Hm Hb Hpc Hl Hln]. simpl in *.
  assert (lane_slots (mkLane q (Some s) (ln_accepted ln) (ln_handled ln)) = lane_slots ln) as Hls.
  { unfold lane_slots. simpl. by rewrite Hh, Hq. }
  split; simpl; try done.
  - unfold placed in *. simpl in *. rewrite list_fmap_insert, Hls, list_insert_id; [done|].
    by rewrite list_lookup_fmap, Hk.
  - by rewrite length_insert.
  - apply lanes_replace; [done|]. destruct (Hln k ln Hk) as (Hlq & Ha & Hf).
    split_and!; [|by rewrite Hls|done]. rewrite Hq in Hlq. simpl in *. lia.
Qed.

Lemma step_handle_ok mt mem free batch lanes pc k ln s d :
  lanes !! k = Some ln → ln_held ln = Some s → mem !! s = Some d →
  pipe_ok (mkP mt mem free batch lanes pc) →
  pipe_ok (mkP mt mem (free ++ [s]) batch
    (<[k := mkLane (ln_queue ln) None (ln_accepted ln) (ln_handled ln ++ [d])]> lanes) pc).
Proof.
  intros Hk Hh Hd Hok. destruct Hok as [Hp Hm Hb Hpc Hl Hln]. simpl in *.
  set (ln' := mkLane _ _ _ _). pose proof (lanes_insert lanes k ln ln' Hk) as Hli.
  assert (lane_slots ln = s :: lane_slots ln') as Hls.
  { unfold lane_slots. simpl. by rewrite Hh. }
  assert (concat (lane_slots <$> lanes) ≡ₚ s :: concat (lane_slots <$> <[k := ln']> lanes)) as Hli'.
  { apply (Permutation_app_inv_r (lane_slots ln')). rewrite <- Hli, Hls. by rewrite <- Permutation_middle. }
  split; simpl; try done.
  - unfold placed in *. simpl in *. rewrite <- Hp, Hli', <- !app_assoc. apply Permutation_app; [done|].
    simpl. by rewrite <- Permutation_middle.
  - by rewrite length_insert.
  - apply lanes_replace; [done|]. destruct (Hln k ln Hk) as (Hlq & Ha & Hf). split_and!; [done| |done].
    simpl. rewrite Ha, Hls, <- app_assoc. f_equal. by apply contents_cons.
Qed.

Lemma recv_step_ok st st' : recv_step st st' → pipe_ok st → pipe_ok st'.
Proof.
  intros Hst Hok. destruct Hst.
  - by apply step_read_ok; [lia|].
  - eapply step_pc; [done|]. apply Hok.
  - eapply step_pc; [done|]. apply Hok.
  - by eapply step_send_ok.
  - eapply step_pc; [done|]. apply Hok.
  - eapply step_pc; [done|]. apply Hok.
  - by apply step_refill_ok.
  - eapply step_pc; [done|]. apply Hok.
  - eapply step_pc; [done|]. destruct Hok as [_ _ _ Hpc _ _]. simpl in *.
    destruct H1 as [->|(i & n & ->)]; simpl in Hpc; tauto.
  - by eapply step_take_ok.
  - by eapply step_handle_ok.
Qed.

Lemma initial_ok : pipe_ok initial.
Proof.
  split.
  - change (placed initial) with (seq recvBatchSize (total - recvBatchSize) ++
      omap id (Some <$> seq 0 recvBatchSize) ++
      concat (lane_slots <$> replicate procs (mkLane [] None [] []))).
    assert (concat (lane_slots <$> replicate procs (mkLane [] None [] [])) = []) as ->.
    { rewrite fmap_replicate. apply concat_replicate_nil. }
    assert (omap id (Some <$> seq 0 recvBatchSize) = seq 0 recvBatchSize) as Hom.
    { induction (seq 0 recvBatchSize) as [|x l IH]; [done|]. csimpl. by rewrite IH. }
    rewrite Hom, app_nil_r, (Permutation_app_comm (seq _ _)).
    replace total with (recvBatchSize + (total - recvBatchSize))%nat at 2 by (unfold total; lia).
    by rewrite seq_app.
  - apply length_replicate.
  - done.
  - done.
  - apply length_replicate.
  - intros k ln Hk. apply lookup_replicate in Hk as [-> _]. split_and!; [simpl; lia|done|constructor].
Qed.

Lemma reachable_ok st : rtc recv_step initial st → pipe_ok st.
Proof.
  intros Hr. pose proof initial_ok as Hok. revert Hok.
  induction Hr as [|st1 st2 st3 Hs _ IH]; [done|]. intros Hok. apply IH. by eapply recv_step_ok.
Qed.

Lemma lanes_occupancy (lanes : list lane) :
  (∀ k ln, lanes !! k = Some ln → (length (ln_queue ln) ≤ per)%nat) →
  (length (concat (lane_slots <$> lanes)) ≤ length lanes * S per)%nat.
Proof.
  induction lanes as [|l lanes IH]; intros Hl; csimpl; [lia|]. rewrite length_app.
  specialize (Hl 0%nat l eq_refl) as Hl0.
  assert (length (concat (lane_slots <$> lanes)) ≤ length lanes * S per)%nat.
  { apply IH. intros k ln Hk. by apply (Hl (S k)). }
  unfold lane_slots at 1. rewrite length_app. destruct (ln_held l); csimpl; lia.
Qed.

Lemma ok_occupancy st : pipe_ok st →
  (length (ps_free st) + length (omap id (ps_batch st)) +
     length (concat (lane_slots <$> ps_lanes st)) = total)%nat ∧
  (length (concat (lane_slots <$> ps_lanes st)) ≤ procs * S per)%nat.
Proof.
  intros [Hp _ _ _ Hl Hln]. split.
  - apply Permutation_length in Hp. unfold placed in Hp. rewrite !length_app, length_seq in Hp. lia.
  - rewrite <- Hl. apply lanes_occupancy. intros k ln Hk. apply (Hln k ln Hk).
Qed.
(** *** Where the datagrams are *)

(** Datagrams of the current batch the receiver has not decided on. *)
Definition pending (pc : rpc) : nat :=
  match pc with
  | Dispatching i n | Waiting i n => (n - i)%nat
  | Refilling i n => (n - S i)%nat
  | Reading | Returned => 0%nat
  end.

Definition total_of (f : lane → nat) (lanes : list lane) : nat := sum_list (f <$> lanes).

Definition drop_event (m : metric) : Prop := m = FrameDropped "truncated" ∨ m = FrameDropped "queue_full".

Definition pc_range (pc : rpc) : Prop :=
  match pc with
  | Dispatching i n => (i ≤ n ≤ recvBatchSize)%nat
  | Waiting i n | Refilling i n => (i < n ≤ recvBatchSize)%nat
  | _ => True
  end.

(** Every datagram read was queued, reported, empty, or is still pending; [left]
    are those a receiver that returned while it waited for room left behind. *)
Record accounted (st : pstate) : Prop := {
  ac_events : Forall drop_event (mt_events (ps_meter st));
  ac_pc : pc_range (ps_pc st);
  ac_sum : ∃ left, (left ≤ recvBatchSize)%nat ∧ (ps_pc st ≠ Returned → left = 0%nat) ∧
    mt_read (ps_meter st) = (total_of (length ∘ ln_accepted) (ps_lanes st) +
      length (mt_events (ps_meter st)) + mt_empty (ps_meter st) + pending (ps_pc st) + left)%nat;
}.

Lemma total_of_insert f lanes k ln ln' :
  lanes !! k = Some ln → (total_of f (<[k := ln']> lanes) + f ln = total_of f lanes + f ln')%nat.
Proof.
  unfold total_of. revert k. induction lanes as [|l lanes IH]; intros [|k] Hk; simplify_eq/=; [lia|].
  specialize (IH k Hk). lia.
Qed.

Lemma dropped_accounted reason mt mem free batch lanes pc i n :
  rec = true → drop_event (FrameDropped reason) → pc = Dispatching i n ∨ pc = Waiting i n → (i < n)%nat →
  accounted (mkP mt mem free batch lanes pc) →
  accounted (mkP (dropped rec reason mt) mem free batch lanes (Dispatching (S i) n)).
Proof.
  intros -> Hr Hpc Hi [He Hp (left & Hl & Hz & Hs)]. simpl in *. split; simpl.
  - apply Forall_app. split; [done|]. by constructor.
  - destruct Hpc as [-> | ->]; simpl in Hp; lia.
  - exists 0%nat. rewrite length_app.
    destruct Hpc as [-> | ->]; rewrite (Hz ltac:(done)) in Hs; simpl in *; split_and!; (lia || done).
Qed.

(** A step of a receiver that has not returned, whose count is linear arithmetic. *)
Local Ltac settle Hz Hs :=
  rewrite (Hz ltac:(done)) in Hs; simpl in *;
  split; simpl; [done|first [done|lia]|exists 0%nat; split_and!; [lia|done|lia]].

Lemma recv_step_accounted st st' : rec = true → recv_step st st' → accounted st → accounted st'.
Proof.
  intros Hrec Hst Hac. destruct Hst as [| | |mt mem free batch lanes i n s d k ln pc Hpc0| | | | |
    mt mem free batch lanes pc Hpc0| |];
    try (eapply dropped_accounted; [done|by left|by left|lia|done]);
    try (eapply dropped_accounted; [done|by right|by right|apply Hac|done]);
    destruct Hac as [He Hp (left & Hl & Hz & Hs)]; simpl in *.
  all: try match goal with H : _ !! _ = Some ?ln |- context [<[_ := mkLane ?q ?h ?a ?b]> _] =>
    pose proof (total_of_insert (length ∘ ln_accepted) _ _ ln (mkLane q h a b) H) as Hins;
    simpl in Hins; rewrite ?length_app in Hins; simpl in Hins end.
  - settle Hz Hs.
  - settle Hz Hs.
  - destruct Hpc0 as [-> | ->]; settle Hz Hs.
  - settle Hz Hs.
  - settle Hz Hs.
  - settle Hz Hs.
  - rewrite (Hz ltac:(by destruct Hpc0 as [->|(i & n & ->)])) in Hs.
    split; simpl; [done|done|exists (pending pc)].
    destruct Hpc0 as [->|(i & n & ->)]; simpl in *; split_and!; (lia || done).
  - split; simpl; [done|done|exists left; split_and!; [done|done|lia]].
  - split; simpl; [done|done|exists left; split_and!; [done|done|lia]].
Qed.

Lemma reachable_accounted st : rec = true → rtc recv_step initial st → accounted st.
Proof.
  intros Hrec Hr. assert (accounted initial) as Hac.
  { split; simpl; [constructor|done|exists 0%nat; split_and!; [lia|done|]].
    unfold total_of. rewrite fmap_replicate. by induction procs. }
  revert Hac. induction Hr as [|st1 st2 st3 Hs _ IH]; [done|]. intros Hac. apply IH. by eapply recv_step_accounted.
Qed.

(** What was queued is handled or in flight. *)
Lemma accepted_split st : pipe_ok st →
  total_of (length ∘ ln_accepted) (ps_lanes st) =
  (total_of (length ∘ ln_handled) (ps_lanes st) + length (concat (lane_slots <$> ps_lanes st)))%nat.
Proof.
  intros Hok. assert (∀ k ln, ps_lanes st !! k = Some ln →
    length (ln_accepted ln) = length (ln_handled ln) + length (lane_slots ln))%nat as Hl.
  { intros k ln Hk. destruct Hok as [Hp Hm _ _ _ Hln]. destruct (Hln k ln Hk) as (_ & -> & _).
    rewrite length_app. f_equal. apply contents_length. intros s Hs.
    apply lookup_lt_is_Some_2. rewrite Hm. by eapply placed_disjoint. }
  clear Hok. induction (ps_lanes st) as [|l lanes IH]; [done|]. unfold total_of in *. csimpl.
  rewrite length_app, IH by (intros k; apply (Hl (S k))). rewrite (Hl 0%nat l eq_refl). simpl. lia.
Qed.
End machine.

(** The machine a worker's configuration builds. *)
Definition wprocs (w : Worker (E := E)) : nat := Z.to_nat (pipelineSize w).2.
Definition wper (w : Worker (E := E)) : nat :=
  Z.to_nat (perQueue (pipelineSize w).1 (pipelineSize w).2).

Lemma pipelineSize_pos w : 1 ≤ (pipelineSize w).1 ∧ 1 ≤ (pipelineSize w).2.
Proof. unfold pipelineSize, DefaultQueueDepth, DefaultProcs. simpl. repeat case_match; lia. Qed.

Lemma wtotal w : Z.of_nat (total (wprocs w) (wper w)) = totalSlots (pipelineSize w).1 (pipelineSize w).2.
Proof.
  unfold total, totalSlots, wprocs, wper. destruct (pipelineSize_pos w) as [Hd Hp].
  assert (0 ≤ perQueue (pipelineSize w).1 (pipelineSize w).2) by (apply Z.div_pos; lia).
  rewrite !Nat2Z.inj_add, Nat2Z.inj_mul, !Z2Nat.id by lia. done.
Qed.

(** The frame a processor parses out of a datagram. *)
Definition payload (tee : bool) (pkt : bytes) : bytes :=
  if tee && tee_IsEncap pkt then drop tee_HeaderSize pkt else pkt.

Lemma shardOf_payload tee pkt : (56 ≤ length (payload tee pkt))%nat →
  shardOf pkt tee =
    let h := Z.lxor (hashkey_of (payload tee pkt)) (u64 (seqnum_of (payload tee pkt) * 0x9E3779B97F4A7C15)) in
    Some (Z.lxor h (Z.shiftr h 32)).
Proof.
  unfold shardOf, payload, hashkey_of, seqnum_of.
  assert (∀ p : bytes, (56 ≤ length p)%nat →
    (if decide (length p < 56)%nat then Some 0 else
      a ← gsub 40 48 p ≫= BE_Uint64;
      b ← gsub 48 56 p ≫= BE_Uint64;
      let h := Z.lxor a (u64 (b * 0x9E3779B97F4A7C15)) in
      Some (Z.lxor h (Z.shiftr h 32))) =
    let h := Z.lxor (be_dec (field 40 48 p)) (u64 (be_dec (field 48 56 p) * 0x9E3779B97F4A7C15)) in
    Some (Z.lxor h (Z.shiftr h 32))) as Hbody.
  { intros p Hp. rewrite decide_False by lia. rewrite !gsub_BE_Uint64 by lia. done. }
  destruct (tee && tee_IsEncap pkt); [|apply Hbody]. rewrite length_drop. intros Hl.
  rewrite decide_False by lia. rewrite gsub_Some by lia. cbn [mbind option_bind].
  replace (field tee_HeaderSize (length pkt) pkt) with (drop tee_HeaderSize pkt).
  - apply Hbody. rewrite length_drop. lia.
  - unfold field. by rewrite take_ge by (rewrite length_drop; lia).
Qed.

(** ** Theorems *)

(** C15: no buffer is ever lost, shared or waited for. Whatever the depth and
    processor count configured, in every reachable state each of the allocated
    slots is in exactly one place (free list, batch, a queue, a processor);
    when the receiver must replace a slot it handed over, the free list is not
    empty; and when a processor returns a slot, the free list has room. The
    queues together hold at least the configured depth. *)
Theorem slots_conserved (w : Worker (E := E)) (tee : bool) (st : pstate) :
  rtc (recv_step (wprocs w) (wper w) tee (rec w)) (initial (wprocs w) (wper w)) st →
  placed st ≡ₚ seq 0 (total (wprocs w) (wper w)) ∧
  Z.of_nat (length (ps_mem st)) = totalSlots (pipelineSize w).1 (pipelineSize w).2 ∧
  (∀ i n, ps_pc st = Refilling i n → ps_free st ≠ []) ∧
  (∀ k ln, ps_lanes st !! k = Some ln → ln_held ln ≠ None →
     (length (ps_free st) < total (wprocs w) (wper w))%nat) ∧
  (pipelineSize w).1 ≤ Z.of_nat (wper w * wprocs w).
Proof.
  intros Hr. apply reachable_ok in Hr as Hok. destruct (ok_occupancy _ _ _ _ Hok) as [Hocc Hmax].
  split_and!.
  - apply Hok.
  - destruct Hok as [_ -> _ _ _ _]. apply wtotal.
  - intros i n Hpc He. destruct Hok as [_ _ _ Hp _ _]. rewrite Hpc in Hp. destruct Hp as (_ & _ & Hb).
    rewrite He in Hocc. simpl in Hocc. unfold total in *. lia.
  - intros k ln Hk Hh.
    assert (0 < length (concat (lane_slots <$> ps_lanes st)))%nat; [|lia].
    destruct (ln_held ln) as [s|] eqn:Hs; [|done].
    assert (s ∈ concat (lane_slots <$> ps_lanes st)) as Hin.
    { eapply lane_slots_elem; [done|]. unfold lane_slots. rewrite Hs. by left. }
    destruct (concat _); [by apply not_elem_of_nil in Hin|simpl; lia].
  - unfold wper, wprocs, perQueue. destruct (pipelineSize_pos w) as [Hd Hp].
    rewrite Nat2Z.inj_mul, !Z2Nat.id by (try apply Z.div_pos; lia).
    pose proof (Z.mul_div_le ((pipelineSize w).1 + (pipelineSize w).2 - 1) (pipelineSize w).2).
    pose proof (Z.mod_pos_bound ((pipelineSize w).1 + (pipelineSize w).2 - 1) (pipelineSize w).2).
    pose proof (Z.div_mod ((pipelineSize w).1 + (pipelineSize w).2 - 1) (pipelineSize w).2). lia.
Qed.

(** C16: reusing buffers corrupts nothing and keeps order. In every reachable
    state each processor has handled exactly the datagrams that were queued to
    it, unmodified and in arrival order, up to those it still holds or has
    queued, whose buffers still contain them although the receiver went on
    reading into others. *)
Theorem buffers_intact (w : Worker (E := E)) (tee : bool) (st : pstate) k ln :
  rtc (recv_step (wprocs w) (wper w) tee (rec w)) (initial (wprocs w) (wper w)) st →
  ps_lanes st !! k = Some ln →
  ln_accepted ln = ln_handled ln ++ contents (ps_mem st) (lane_slots ln) ∧
  length (contents (ps_mem st) (lane_slots ln)) = length (lane_slots ln) ∧
  Forall (λ d, laneOf (wprocs w) tee (sl_data d) = Some k) (ln_accepted ln).
Proof.
  intros Hr Hk. apply reachable_ok in Hr as Hok. destruct Hok as [Hp Hm _ _ _ Hln].
  destruct (Hln k ln Hk) as (_ & Ha & Hf). split_and!; [done| |done].
  apply contents_length. intros s Hs. apply lookup_lt_is_Some_2. rewrite Hm. by eapply placed_disjoint.
Qed.

(** C35: no datagram disappears unnoticed. In every reachable state of a worker
    with a recorder the datagrams read from the socket are exactly those that a
    processor has handled, those queued or being handled, those reported as
    dropped (as truncated, or after the wait on a full queue), the empty ones, and
    those of the current batch that the receiver has not looked at yet. Only the
    return of the receiver leaves some behind, at most one batch. *)
Theorem no_silent_loss (w : Worker (E := E)) (tee : bool) (st : pstate) :
  rec w = true →
  rtc (recv_step (wprocs w) (wper w) tee (rec w)) (initial (wprocs w) (wper w)) st →
  let known := (total_of (length ∘ ln_handled) (ps_lanes st) + length (concat (lane_slots <$> ps_lanes st)) +
    length (mt_events (ps_meter st)) + mt_empty (ps_meter st) + pending (ps_pc st))%nat in
  Forall drop_event (mt_events (ps_meter st)) ∧
  (ps_pc st ≠ Returned → mt_read (ps_meter st) = known) ∧
  (known ≤ mt_read (ps_meter st) ≤ known + recvBatchSize)%nat.
Proof.
  intros Hrec Hr. destruct (reachable_accounted _ _ _ _ _ Hrec Hr) as [He _ (left & Hl & Hz & Hs)].
  rewrite (accepted_split (wprocs w) (wper w) tee) in Hs by (by eapply reachable_ok).
  split_and!; [done| |lia..]. intros Hpc. rewrite (Hz Hpc) in Hs. lia.
Qed.

(** Datagrams of one cache key have one lane. *)
Lemma same_key_lane (w : Worker (E := E)) (tee : bool) (p1 p2 : bytes) :
  (56 ≤ length (payload tee p1))%nat → (56 ≤ length (payload tee p2))%nat →
  field 40 56 (payload tee p1) = field 40 56 (payload tee p2) →
  ∃ k, laneOf (wprocs w) tee p1 = Some k ∧ laneOf (wprocs w) tee p2 = Some k ∧ (k < wprocs w)%nat.
Proof.
  intros Hl1 Hl2 Hkey. destruct (pipelineSize_pos w) as [_ Hp].
  assert (hashkey_of (payload tee p1) = hashkey_of (payload tee p2)) as Hh.
  { unfold hashkey_of. apply (f_equal (field 0 8)) in Hkey. rewrite !field_field in Hkey by lia.
    simpl in Hkey. by rewrite Hkey. }
  assert (seqnum_of (payload tee p1) = seqnum_of (payload tee p2)) as Hs.
  { unfold seqnum_of. apply (f_equal (field 8 16)) in Hkey. rewrite !field_field in Hkey by lia.
    simpl in Hkey. by rewrite Hkey. }
  unfold laneOf, wprocs. case_decide as Hc; [|exists 0%nat; split_and!; [done..|lia]].
  rewrite !shardOf_payload by done. cbv zeta. cbn [mbind option_bind]. rewrite Hh, Hs.
  eexists. split_and!; [done..|].
  match goal with |- (Z.to_nat (?h mod ?n) < _)%nat => pose proof (Z.mod_pos_bound h n) end. lia.
Qed.

(** C36: on one socket, all writes of one cache key are made by one processor. Of the
    datagrams that a socket's receiver has queued in any reachable state, raw or, on
    the tee socket, in an envelope, those whose frames carry the same HashKey and
    SeqNum are all with the same one of its processors, and each such datagram has a
    processor that exists. Each socket has processors of its own. *)
Theorem same_key_same_lane (w : Worker (E := E)) (tee : bool) (st : pstate) (k1 k2 : nat) (ln1 ln2 : lane) (d1 d2 : slot) :
  rtc (recv_step (wprocs w) (wper w) tee (rec w)) (initial (wprocs w) (wper w)) st →
  ps_lanes st !! k1 = Some ln1 → ps_lanes st !! k2 = Some ln2 → d1 ∈ ln_accepted ln1 → d2 ∈ ln_accepted ln2 →
  (56 ≤ length (payload tee (sl_data d1)))%nat → (56 ≤ length (payload tee (sl_data d2)))%nat →
  field 40 56 (payload tee (sl_data d1)) = field 40 56 (payload tee (sl_data d2)) →
  k1 = k2 ∧ laneOf (wprocs w) tee (sl_data d1) = Some k1 ∧ (k1 < wprocs w)%nat.
Proof.
  intros Hr Hk1 Hk2 Hd1 Hd2 Hl1 Hl2 Hkey. apply reachable_ok in Hr as [_ _ _ _ _ Hln].
  destruct (Hln _ _ Hk1) as (_ & _ & Hf1), (Hln _ _ Hk2) as (_ & _ & Hf2). rewrite Forall_forall in Hf1, Hf2.
  specialize (Hf1 _ Hd1). specialize (Hf2 _ Hd2).
  destruct (same_key_lane w tee (sl_data d1) (sl_data d2) Hl1 Hl2 Hkey) as (k & He1 & He2 & Hlt).
  rewrite Hf1 in He1. rewrite Hf2 in He2. simplify_eq. done.
Qed.
End model.

(** ** Instances *)
Section instances.
Import RefEnv.

Definition pipe_worker : Worker (E := renv) := SetPipeline 8 2 worker0.
Definition datagram (raw : bytes) : slot := mkSlot raw (replicate 16 x20) true false.
Definition init0 : pstate := initial (wprocs pipe_worker) (wper pipe_worker).

(** One datagram read and queued, with the lane's queue holding slot 0. *)
Definition queued0 : pstate :=
  mkP (mkMeter 1 [] 0) (<[0%nat := datagram Retransmit.tx_frame]> (ps_mem init0)) (ps_free init0)
    (<[0%nat := None]> (ps_batch init0))
    (<[1%nat := mkLane [0%nat] None [datagram Retransmit.tx_frame] []]> (ps_lanes init0))
    (Refilling 0 1).

Lemma queued0_reachable :
  rtc (recv_step (wprocs pipe_worker) (wper pipe_worker) false (rec pipe_worker)) init0 queued0.
Proof.
  eapply rtc_l.
  - apply (rs_read _ _ _ _ _ _ _ _ _ [datagram Retransmit.tx_frame]). simpl. unfold recvBatchSize. lia.
  - apply rtc_once. eapply (rs_send _ _ _ _ _ _ _ _ _ 0 1 0 (datagram Retransmit.tx_frame) 1 (mkLane [] None [] []));
      [by left|lia|reflexivity|reflexivity|reflexivity|discriminate|vm_compute; reflexivity|reflexivity|vm_compute; lia].
Qed.

Lemma slots_conserved_witness : ps_free queued0 ≠ [].
Proof.
  destruct (slots_conserved pipe_worker false queued0 queued0_reachable) as (_ & _ & Hf & _).
  apply (Hf 0%nat 1%nat). reflexivity.
Defined.

Lemma buffers_intact_witness :
  contents (ps_mem queued0) [0%nat] = [datagram Retransmit.tx_frame].
Proof.
  destruct (buffers_intact pipe_worker false queued0 1
    (mkLane [0%nat] None [datagram Retransmit.tx_frame] []) queued0_reachable eq_refl) as (Ha & _ & _).
  symmetry. exact Ha.
Defined.

(** A datagram reported as truncated, then one queued. *)
Definition dropped0 : pstate :=
  mkP (mkMeter 2 [FrameDropped "truncated"] 0)
    (<[1%nat := datagram Retransmit.tx_frame]> (<[0%nat := mkSlot [x00] (replicate 16 x20) true true]> (ps_mem init0)))
    (ps_free init0) (<[1%nat := None]> (ps_batch init0))
    (<[1%nat := mkLane [1%nat] None [datagram Retransmit.tx_frame] []]> (ps_lanes init0))
    (Refilling 1 2).

Lemma dropped0_reachable :
  rtc (recv_step (wprocs pipe_worker) (wper pipe_worker) false (rec pipe_worker)) init0 dropped0.
Proof.
  eapply rtc_l; [|eapply rtc_l; [|apply rtc_once]].
  - apply (rs_read _ _ _ _ _ _ _ _ _ [mkSlot [x00] (replicate 16 x20) true true; datagram Retransmit.tx_frame]).
    simpl. unfold recvBatchSize. lia.
  - eapply (rs_truncated _ _ _ _ _ _ _ _ _ 0 2 0); [lia|reflexivity|reflexivity|reflexivity].
  - eapply (rs_send _ _ _ _ _ _ _ _ _ 1 2 1 (datagram Retransmit.tx_frame) 1 (mkLane [] None [] []));
      [by left|lia|reflexivity|reflexivity|reflexivity|discriminate|vm_compute; reflexivity|reflexivity|vm_compute; lia].
Qed.

Lemma no_silent_loss_witness :
  ps_pc dropped0 = Refilling 1 2 ∧ mt_read (ps_meter dropped0) = 2%nat ∧
  mt_read (ps_meter dropped0) = (0 + 1 + 1 + 0 + 0)%nat.
Proof.
  split_and!; [reflexivity|reflexivity|].
  destruct (no_silent_loss pipe_worker false dropped0 eq_refl dropped0_reachable) as (_ & Hk & _).
  apply Hk. discriminate.
Defined.

(** The same frame, raw and in a tee envelope. *)
Definition enveloped : bytes := tee_magic ++ replicate 20 x00 ++ Retransmit.tx_frame.

(** It and the frame itself, read from the tee socket and queued one after the other. *)
Definition twice0 : pstate :=
  mkP (mkMeter 2 [] 0)
    (<[1%nat := datagram enveloped]> (<[0%nat := datagram Retransmit.tx_frame]> (ps_mem init0)))
    (tail (ps_free init0)) (<[1%nat := None]> (<[0%nat := head (ps_free init0)]> (<[0%nat := None]> (ps_batch init0))))
    (<[1%nat := mkLane [0%nat; 1%nat] None [datagram Retransmit.tx_frame; datagram enveloped] []]>
       (<[1%nat := mkLane [0%nat] None [datagram Retransmit.tx_frame] []]> (ps_lanes init0)))
    (Refilling 1 2).

Lemma twice0_reachable :
  rtc (recv_step (wprocs pipe_worker) (wper pipe_worker) true (rec pipe_worker)) init0 twice0.
Proof.
  eapply rtc_l; [apply (rs_read _ _ _ _ _ _ _ _ _ [datagram Retransmit.tx_frame; datagram enveloped]);
    simpl; unfold recvBatchSize; lia|].
  eapply rtc_l.
  { eapply (rs_send _ _ _ _ _ _ _ _ _ 0 2 0 (datagram Retransmit.tx_frame) 1 (mkLane [] None [] []));
      [by left|lia|reflexivity|reflexivity|reflexivity|discriminate|vm_compute; reflexivity|reflexivity|vm_compute; lia]. }
  eapply rtc_l; [apply (rs_refill _ _ _ _ _ _ recvBatchSize)|]. apply rtc_once.
  eapply (rs_send _ _ _ _ _ _ _ _ _ 1 2 1 (datagram enveloped) 1
    (mkLane [0%nat] None [datagram Retransmit.tx_frame] []));
    [by left|lia|reflexivity|reflexivity|reflexivity|discriminate|vm_compute; reflexivity|reflexivity|vm_compute; lia].
Qed.

Lemma same_key_same_lane_witness : laneOf (wprocs pipe_worker) true enveloped = Some 1%nat.
Proof.
  pose (ln := mkLane [0%nat; 1%nat] None [datagram Retransmit.tx_frame; datagram enveloped] []).
  destruct (same_key_same_lane pipe_worker true twice0 1 1 ln ln (datagram enveloped) (datagram Retransmit.tx_frame)
    twice0_reachable) as (_ & Hl & _);
    [reflexivity|reflexivity|by right; left|by left|vm_compute; lia|vm_compute; lia|vm_compute; reflexivity|].
  exact Hl.
Defined.
End instances.

End Pipeline.
