(* ===== verification/Service.v ===== *)
(** * The endpoint end to end

    Composes the components: a frame cached by the ingress worker is what the
    NACK server answers with, and a NACK proxied by another endpoint is always
    answered with the frame itself. The theorems here use the components'
    lemmas only; the server's collaborators are still its interfaces, with the
    cache instantiated by the namespaced store both sides share. *)

From S2P Require Import Prelude GoNet External RefEnv SlidingWindow RateLimit World CacheStore Retransmit Proxy Server Ingress.
From Stdlib Require Import Strings.Byte.
Import GoNet External RateLimit World CacheStore.

Module Service.

Section model.
Context {E : Type} `{!RateLib E, !OS E, !Backend E, !FrameLib, !ShardLib, !TeeWire}.
Context (growcap : nat → nat → nat).
Implicit Types (s : Server.Server (E := E)) (w : Ingress.Worker (E := E)).

(** The limiter's tiers leave the stored entries alone. *)
Section frame.
Context `{!GetFrame E} (b : backend) (c : option Z) (key : bytes) (v : option bytes + gerror).

#[local] Instance get_kept_clock : Keeps (λ e, (be_Get b c key e).1 = v) mono_now.
Proof. intros e He. by rewrite get_clock. Qed.
#[local] Instance get_kept_rate l : Keeps (λ e, (be_Get b c key e).1 = v) (rate_Allow l).
Proof. intros e He. by rewrite get_rate. Qed.

Lemma Allow_get srcIP hk sq l e ok lvl l' e' :
  Allow growcap srcIP hk sq l e = Some (ok, lvl, l', e') → (be_Get b c key e).1 = v → (be_Get b c key e').1 = v.
Proof. intros Ha He. exact (Allow_keeps growcap (λ e, (be_Get b c key e).1 = v) _ _ _ _ _ _ _ _ _ He Ha). Qed.

Lemma AllowChain_get srcIP hk l e ok l' e' :
  AllowChain growcap srcIP hk l e = Some (ok, l', e') → (be_Get b c key e).1 = v → (be_Get b c key e').1 = v.
Proof. intros Ha He. exact (AllowChain_keeps growcap (λ e, (be_Get b c key e).1 = v) _ _ _ _ _ _ _ He Ha). Qed.
End frame.

(** A request that passes validation and the pre-lookup tiers in [wd],
    leaving limiter [l2] and environment [e2]. *)
Record admitted (d : bytes) (src : option udpaddr) (wd : world E) (l2 : Limiter) (e2 : E) : Prop := {
  ad_valid : Server.validateNACK d = Some None;
  ad_single : Server.rq_end d = Server.rq_seq d;
  ad_tiers : ∃ l1 e1,
    Allow growcap (Server.srcIPOf src) (Server.rq_hashKey d) (Server.rq_seq d) (w_lim wd) (w_env wd) =
      Some (true, ""%string, l1, e1) ∧
    AllowChain growcap (Server.srcIPOf src) (Server.rq_hashKey d) l1 e1 = Some (true, l2, e2);
}.

(** An admitted request runs the handler's second half on the frame the cache
    returns. *)
Lemma wp_admitted_hit s d src (wd : world E) l2 e2 e3 raw Q :
  admitted d src wd l2 e2 →
  @cache_Retrieve E (Server.cache s) (field 8 24 d) e2 = (inl (Some raw), e3) →
  wp (Server.serveHit s src (Server.srcIPOf src) (Server.rq_proxied d) (Server.rq_seq d) raw) Q
    (mkWorld e3 l2 (w_queue wd)
      (w_events wd ++ if Server.rec s then [EvMetric NACKRequest] else [])) →
  wp (Server.processNACK growcap s d src) Q wd.
Proof.
  intros [Hv Hr (l1 & e1 & Ha & Hc)] Hg HQ. apply Server.processNACK_parsed; [done|].
  unfold Server.handleValid. rewrite Hr, Z.eqb_refl.
  wp_step. eapply Server.wp_allow; [exact Ha|]. wp_step. eapply wp_lim_op; [exact Hc|].
  wp_step. wp_step. rewrite Hg in Hop. by simplify_eq.
Qed.

(** A predicate on the environment under which the sends succeed. *)
Context (healthy : E → Prop).

(** The group tier admits every group index in [l], [e]. *)
Definition group_admits (srcIP : bytes) (l : Limiter) (e : E) : Prop :=
  ∀ g, (AllowGroup srcIP g l e).1.1 = true ∧ healthy (AllowGroup srcIP g l e).2.

Lemma wp_group_admitted s src srcIP sq raw txID (wd : world E) :
  healthy (w_env wd) → group_admits srcIP (w_lim wd) (w_env wd) →
  wp (Server.groupTier s src srcIP sq raw txID) (λ go wd', go = true ∧
    healthy (w_env wd') ∧ w_queue wd' = w_queue wd ∧ w_events wd' = w_events wd) wd.
Proof.
  intros Hh Hg. unfold Server.groupTier. destruct (Server.shardEngine s) as [eng|]; [|by wp_step].
  destruct (Server.groupIdxOf_total s eng raw txID) as [g Hgi]. wp_step. eapply wp_liftO; [exact Hgi|].
  wp_step. specialize (Hg g). destruct (AllowGroup srcIP g (w_lim wd) (w_env wd)) as [[ok l] e] eqn:Ha.
  simpl in Hg. destruct Hg as [-> Hg]. eapply wp_lim_op; [by rewrite Ha|]. by wp_step.
Qed.

(** The response to an ACK-able dispatch is written. *)
Lemma wp_ack_sent s a fl sq (wd : world E) :
  wp (Server.sendResponse s a Server.msgTypeACK fl sq) (λ _ wd', w_queue wd' = w_queue wd ∧ ∃ ok ms,
    metrics_only ms ∧ w_events wd' = w_events wd ++ EvWrite NACKSocket a (Server.response Server.msgTypeACK fl sq) ok :: ms) wd.
Proof.
  unfold Server.sendResponse. wp_step. eapply wp_liftO; [apply Server.responseBuf_eq|].
  unfold Server.writeResponse. wp_step. wp_step.
  destruct err; wp_step; (split; [done|]); eexists _, _; rewrite <- app_assoc; (split; [|done]);
    auto with trace.
Qed.

(** In a healthy environment the multicast goes out, or is at worst
    suppressed by the dedup gate; the unicast goes out. *)
Definition sends_multicast s (raw : bytes) : Prop :=
  ∀ wd : world E, healthy (w_env wd) →
    ∃ wd', @rt_Retransmit E _ (Server.retransmit s) raw (field 8 40 raw) wd = Some (None, wd').
Definition survives_multicast s (raw : bytes) : Prop :=
  ∀ wd : world E, healthy (w_env wd) →
    ∃ err wd', @rt_Retransmit E _ (Server.retransmit s) raw (field 8 40 raw) wd = Some (err, wd') ∧
      (err = None ∨ err = Some ErrDedupSuppressed) ∧ healthy (w_env wd').
Definition sends_unicast s (raw : bytes) (a : udpaddr) : Prop :=
  ∀ wd : world E, healthy (w_env wd) →
    ∃ wd', @rt_RetransmitUnicast E _ (Server.retransmit s) raw a wd = Some (None, wd').

Lemma wp_multicast s raw (wd : world E) Q :
  RetransOk (Server.retransmit s) → sends_multicast s raw → healthy (w_env wd) →
  (40 ≤ length raw)%nat →
  (∀ wd' evs, extends wd wd' evs → multicast_of raw evs → Q None wd') →
  wp (@rt_Retransmit E _ (Server.retransmit s) raw (field 8 40 raw)) Q wd.
Proof.
  intros Hrt Hs Hh Hl HQ. destruct (Hs wd Hh) as [wd' Hrun].
  pose proof (@World.alone_multicast E _ (Server.retransmit s) Hrt raw (field 8 40 raw) wd) as Hwp.
  rewrite length_field in Hwp by lia. specialize (Hwp eq_refl).
  apply wp_iff in Hwp as (err & wd1 & Hrun1 & evs & Hx & _ & Hm). rewrite Hrun in Hrun1. simplify_eq.
  apply wp_iff. exists None, wd1. eauto.
Qed.

Lemma wp_multicast_any s raw (wd : world E) Q :
  RetransOk (Server.retransmit s) → survives_multicast s raw → healthy (w_env wd) →
  (40 ≤ length raw)%nat →
  (∀ err wd', err = None ∨ err = Some ErrDedupSuppressed → w_queue wd' = w_queue wd →
     healthy (w_env wd') → Q err wd') →
  wp (@rt_Retransmit E _ (Server.retransmit s) raw (field 8 40 raw)) Q wd.
Proof.
  intros Hrt Hs Hh Hl HQ. destruct (Hs wd Hh) as (err & wd' & Hrun & Herr & Hh').
  pose proof (@World.alone_multicast E _ (Server.retransmit s) Hrt raw (field 8 40 raw) wd) as Hwp.
  rewrite length_field in Hwp by lia. specialize (Hwp eq_refl).
  apply wp_iff in Hwp as (err1 & wd1 & Hrun1 & evs & (_ & Hq & _) & _). rewrite Hrun in Hrun1. simplify_eq.
  apply wp_iff. exists err1, wd1. eauto.
Qed.

Lemma wp_unicast s raw a (wd : world E) Q :
  RetransOk (Server.retransmit s) → sends_unicast s raw a → healthy (w_env wd) →
  (∀ wd' evs, extends wd wd' evs → unicast_of raw a evs → Q None wd') →
  wp (@rt_RetransmitUnicast E _ (Server.retransmit s) raw a) Q wd.
Proof.
  intros Hrt Hs Hh HQ. destruct (Hs wd Hh) as [wd' Hrun].
  pose proof (@World.alone_unicast E _ (Server.retransmit s) Hrt raw a wd) as Hwp.
  apply wp_iff in Hwp as (err & wd1 & Hrun1 & evs & Hx & _ & Hm). rewrite Hrun in Hrun1. simplify_eq.
  apply wp_iff. exists None, wd1. eauto.
Qed.

(** ** Theorems *)

(** C8: a frame the ingress worker cached is repaired byte for byte. If the
    worker decoded and stored [raw], then an admitted NACK for the HashKey and
    SeqNum in [raw] (and no other request in between) makes a server in the
    default mode put a verbatim copy of [raw] on the multicast egress and
    answer with an ACK that says so. *)
Theorem ingested_frame_served `{!BackendOk E, !GetFrame E} b t w s (raw d : bytes) (src : string)
    (a : udpaddr) f ttl (wd wd1 : world E) e1 l2 e2 :
  FrameLibOk → RetransOk (Server.retransmit s) →
  Ingress.cache w = store_cache (frame_store b t) → Server.cache s = store_cache (frame_store b t) →
  Server.retransmitMC s = true → Server.retransmitUC s = false → Server.suppressACK s = false →
  Ingress.decodeFrame w raw = (inl f, ttl) → fl_SeqNum f ≠ 0 →
  Store_Store (frame_store b t) (field 40 56 raw) raw ttl (w_env wd) = (None, e1) →
  Ingress.processFrame w raw src wd = Some (tt, wd1) →
  field 8 24 d = field 40 56 raw → Server.rq_proxied d = false →
  admitted d (Some a) wd1 l2 e2 →
  healthy (Retrieve (frame_store b t) (field 8 24 d) e2).2 →
  group_admits (ua_IP a) l2 (Retrieve (frame_store b t) (field 8 24 d) e2).2 →
  sends_multicast s raw →
  ∃ wd2 ok, Server.processNACK growcap s d (Some a) wd1 = Some (tt, wd2) ∧
    multicast_of raw (w_events wd2) ∧
    EvWrite NACKSocket a (Server.response Server.msgTypeACK x01 (Server.rq_seq d)) ok ∈ w_events wd2.
Proof.
  intros Hok Hrt Hcw Hcs Hmc Huc Hsup Hdec Hseq Hst Hrun Hkey Hpx Had Hhl Hgrp Hsend.
  destruct (Ingress.decodeFrame_flow _ _ _ _ Hdec) as (Hlen & _).
  assert (w_env wd1 = e1) as He1.
  { pose proof (Ingress.wp_processFrame w raw src wd) as Hwp.
    apply wp_iff in Hwp as ([] & wd1' & Hr1 & _ & _ & _ & He). rewrite Hrun in Hr1. simplify_eq.
    rewrite Hdec, Hcw in He. destruct (fl_SeqNum f =? 0) eqn:Hz; [lia|]. simpl in He. by rewrite Hst in He. }
  destruct (Retrieve (frame_store b t) (field 8 24 d) e2) as [res e3] eqn:Hget.
  assert (res = inl (Some raw)) as ->.
  { replace res with (Retrieve (frame_store b t) (field 8 24 d) e2).1 by (by rewrite Hget).
    destruct Had as [_ _ (l1 & e1' & Ha & Hc)]. unfold Retrieve.
    eapply AllowChain_get; [exact Hc|]. eapply Allow_get; [exact Ha|]. rewrite He1, Hkey.
    by eapply be_get_set. }
  assert (wp (Server.processNACK growcap s d (Some a)) (λ _ wd2, multicast_of raw (w_events wd2) ∧
    ∃ ok, EvWrite NACKSocket a (Server.response Server.msgTypeACK x01 (Server.rq_seq d)) ok ∈ w_events wd2) wd1) as Hwp.
  2:{ apply wp_iff in Hwp as ([] & wd2 & ? & ? & ok & ?). eauto. }
  eapply wp_admitted_hit; [exact Had|by rewrite Hcs|].
  unfold Server.serveHit. wp_step. wp_step. wp_step. rewrite decide_True by lia.
  eapply wp_liftO; [apply gsub_Some; lia|]. wp_step.
  eapply wp_mono; [by apply wp_group_admitted|]. intros go w3 (-> & Hh3 & _ & _). simpl.
  wp_step. unfold Server.dispatch. rewrite Hmc, Huc, Hpx, Hsup. simpl. wp_step. wp_step.
  eapply wp_multicast; [done|done|done|lia|]. intros w4 evs (_ & _ & Hev) Hm.
  wp_step. wp_step. wp_step. wp_step. eapply wp_mono; [apply wp_ack_sent|].
  intros ? w5 (_ & ok & ms & _ & Hw5). rewrite Hw5, Hev. simpl. split.
  - do 2 (apply multicast_of_app; left). apply multicast_of_app. by right.
  - exists ok. set_solver.
Qed.

(** C31: a proxied NACK is always answered with the frame. When another
    endpoint's proxy asks for a gap this endpoint holds, the frame is unicast
    back to it, whatever the configured modes, unless the multicast send
    failed hard; the ACK's unicast bit is set and nothing is queued. *)
Theorem proxied_always_unicast s (j : job) (raw d : bytes) (a : udpaddr) (wd : world E) l2 e2 e3 :
  FrameLibOk → RetransOk (Server.retransmit s) →
  length (j_subtree j) = 32%nat → Proxy.buildNACK j = Some d →
  admitted d (Some a) wd l2 e2 →
  @cache_Retrieve E (Server.cache s) (field 8 24 d) e2 = (inl (Some raw), e3) →
  (40 ≤ length raw)%nat → healthy e3 → group_admits (ua_IP a) l2 e3 →
  Server.retransmitMC s = false ∨ survives_multicast s raw → sends_unicast s raw a →
  ∃ wd2, Server.processNACK growcap s d (Some a) wd = Some (tt, wd2) ∧
    unicast_of raw a (w_events wd2) ∧ w_queue wd2 = w_queue wd ∧
    (Server.suppressACK s = false → ∃ fl ok, Z.testbit fl 1 = true ∧
      EvWrite NACKSocket a (Server.response Server.msgTypeACK (Z_byte fl) (Server.rq_seq d)) ok
        ∈ w_events wd2).
Proof.
  intros Hok Hrt Hsub Hb Had Hget Hlen Hhl Hgrp Hmc Huc.
  assert (Server.rq_proxied d = true) as Hpx.
  { destruct (Server.buildNACK_fields j d Hsub Hb) as (_ & _ & _ & Hf & _).
    unfold Server.rq_proxied. by rewrite Hf. }
  assert (wp (Server.processNACK growcap s d (Some a)) (λ _ wd2,
    unicast_of raw a (w_events wd2) ∧ w_queue wd2 = w_queue wd ∧
    (Server.suppressACK s = false → ∃ fl ok, Z.testbit fl 1 = true ∧
      EvWrite NACKSocket a (Server.response Server.msgTypeACK (Z_byte fl) (Server.rq_seq d)) ok
        ∈ w_events wd2)) wd) as Hwp.
  2:{ apply wp_iff in Hwp as ([] & wd2 & ? & ?). eauto. }
  eapply wp_admitted_hit; [exact Had|exact Hget|].
  unfold Server.serveHit. wp_step. wp_step. wp_step. rewrite decide_True by lia.
  eapply wp_liftO; [apply gsub_Some; lia|]. wp_step.
  eapply wp_mono; [by apply wp_group_admitted|]. intros go w3 (-> & Hh3 & Hq3 & _). simpl. simpl in Hq3.
  wp_step. unfold Server.dispatch. rewrite Hpx, orb_true_r. wp_step.
  eapply (wp_mono _ (λ r (wd' : world E), (∃ fl, r = Some fl ∧ (fl = 0 ∨ fl = 1)) ∧
    w_queue wd' = w_queue wd ∧ healthy (w_env wd'))).
  { destruct (Server.retransmitMC s) eqn:Hm; [|wp_step; split_and!; [eauto|done|done]].
    destruct Hmc as [|Hmc]; [done|]. wp_step. eapply wp_multicast_any; [done|done|done|lia|].
    intros err w4 Herr Hq4 Hh4. destruct Herr as [-> | ->]; simpl.
    - wp_step. wp_step. wp_step. split_and!; [eauto|by rewrite Hq4|done].
    - wp_step. split_and!; [eauto|by rewrite Hq4|done]. }
  intros r w4 ((fl & -> & Hfl) & Hq4 & Hh4). wp_step. eapply wp_unicast; [done|done|done|].
  intros w5 evs (_ & Hq5 & Hev5) Hun. wp_step. wp_step. wp_step.
  assert (unicast_of raw a (w_events w5)) as Hun5.
  { rewrite Hev5. apply unicast_of_app. by right. }
  destruct (Server.suppressACK s) eqn:Hsup; simpl.
  { wp_step. split_and!; [apply unicast_of_app; by left|by rewrite Hq5|done]. }
  assert (Z.testbit (Z.lor fl Server.ackFlagUnicastSent) 1 = true ∧
    Z.lor fl Server.ackFlagUnicastSent <> 0) as [Hbit Hnz] by (by destruct Hfl as [-> | ->]).
  apply Z.eqb_neq in Hnz. rewrite Hnz. simpl.
  eapply wp_mono; [apply wp_ack_sent|]. intros ? w6 (Hq6 & ok & ms & _ & Hev6). split_and!.
  - rewrite Hev6. simpl. do 2 (apply unicast_of_app; left). done.
  - by rewrite Hq6; simpl; rewrite Hq5.
  - intros _. eexists _, ok. split; [exact Hbit|]. rewrite Hev6. set_solver.
Qed.
End model.

(** ** Instances *)
Section instances.
Import RefEnv.

(** The default server on a retransmitter without dedup store. *)
Definition rt1 : Retransmit.Retransmitter (E := renv) :=
  Retransmit.mkRetransmitter (mkEngine 0xFF05 0xB 2 : @Engine ref_ShardLib) None 9001 60000000000 None
    true true ["eth0"%string] [mkIface "eth0" 2] None false.
Definition srv1 : Server.Server (E := renv) :=
  Server.New 9300 (store_cache (frame_store redis 0)) true (Retransmit.retrans_iface rt1) 4 false.
Definition writable (e : renv) : Prop := re_wfail e = false.

Lemma rt1_ok : RetransOk (Retransmit.retrans_iface rt1).
Proof. by apply Retransmit.retrans_ok. Qed.

Lemma rt1_multicast : sends_multicast writable srv1 Retransmit.tx_frame.
Proof. intros [[clk kv down wf ib] l q evs] Hw. unfold writable in Hw. simpl in Hw. subst wf. eexists. reflexivity. Qed.
Lemma rt1_unicast : sends_unicast writable srv1 Retransmit.tx_frame Proxy.listener.
Proof. intros [[clk kv down wf ib] l q evs] Hw. unfold writable in Hw. simpl in Hw. subst wf. eexists. reflexivity. Qed.

(** The world after the worker cached the frame, and the tiers' states after
    admitting a request for it. *)
Definition ingested1 : world renv :=
  after (Ingress.processFrame Ingress.worker0 Retransmit.tx_frame "::1") world0.
Definition tier_ip : Limiter * renv :=
  match Allow Server.grow0 (ua_IP Proxy.listener) 7 1 (w_lim ingested1) (w_env ingested1) with
  | Some (_, _, l, e) => (l, e) | None => (lim0, env0) end.
Definition tier_chain : Limiter * renv :=
  match AllowChain Server.grow0 (ua_IP Proxy.listener) 7 tier_ip.1 tier_ip.2 with
  | Some (_, l, e) => (l, e) | None => (lim0, env0) end.

Lemma admitted1 d :
  Server.validateNACK d = Some None → Server.rq_end d = Server.rq_seq d →
  Server.rq_hashKey d = 7 → Server.rq_seq d = 1 →
  admitted Server.grow0 d (Some Proxy.listener) ingested1 tier_chain.1 tier_chain.2.
Proof.
  intros Hv He Hh Hs. split; [done..|]. exists tier_ip.1, tier_ip.2. rewrite Hh, Hs.
  split; vm_compute; reflexivity.
Qed.

Lemma group_admits1 e : re_wfail e = false →
  group_admits writable (ua_IP Proxy.listener) tier_chain.1 e.
Proof.
  intros He g. unfold AllowGroup, tb_Allow.
  assert (groupLimiter tier_chain.1 = groupLimiter lim0) as -> by (vm_compute; reflexivity).
  split; [reflexivity|exact He].
Qed.

Lemma ingested_frame_served_witness :
  ∃ wd2 ok, Server.processNACK Server.grow0 srv1 Server.nack0 (Some Proxy.listener) ingested1 = Some (tt, wd2) ∧
    multicast_of Retransmit.tx_frame (w_events wd2) ∧
    EvWrite NACKSocket Proxy.listener (Server.response Server.msgTypeACK x01 (Server.rq_seq Server.nack0)) ok
      ∈ w_events wd2.
Proof.
  apply (ingested_frame_served Server.grow0 writable redis 0 Ingress.worker0 srv1 Retransmit.tx_frame
    Server.nack0 "::1" Proxy.listener (mkFlow 7 1) 60 world0 ingested1
    (Store_Store (frame_store redis 0) (field 40 56 Retransmit.tx_frame) Retransmit.tx_frame 60 env0).2
    tier_chain.1 tier_chain.2);
    [apply _|exact rt1_ok|reflexivity|reflexivity|reflexivity|reflexivity|reflexivity
    |vm_compute; reflexivity|discriminate|vm_compute; reflexivity|..].
  - unfold ingested1. apply run_after. vm_compute. reflexivity.
  - vm_compute; reflexivity.
  - vm_compute; reflexivity.
  - apply admitted1; vm_compute; reflexivity.
  - vm_compute; reflexivity.
  - apply group_admits1. vm_compute. reflexivity.
  - exact rt1_multicast.
Defined.

Lemma proxied_always_unicast_witness :
  ∃ wd2, Server.processNACK Server.grow0 srv1 Server.proxied_nack0 (Some Proxy.listener) ingested1 =
      Some (tt, wd2) ∧ unicast_of Retransmit.tx_frame Proxy.listener (w_events wd2).
Proof.
  destruct (proxied_always_unicast Server.grow0 writable srv1 Proxy.job0 Retransmit.tx_frame
    Server.proxied_nack0 Proxy.listener ingested1 tier_chain.1 tier_chain.2 tier_chain.2)
    as (wd2 & Hr & Hu & _); [apply _|exact rt1_ok|reflexivity|vm_compute; reflexivity|..].
  - apply admitted1; vm_compute; reflexivity.
  - vm_compute; reflexivity.
  - vm_compute; lia.
  - vm_compute; reflexivity.
  - apply group_admits1. reflexivity.
  - right. intros wd Hw. destruct (rt1_multicast wd Hw) as [wd' Hrun]. exists None, wd'.
    split_and!; [exact Hrun|by left|]. destruct wd as [[clk kv down wf ib] l q evs].
    unfold writable in *. simpl in Hw. subst wf.
    change wd' with (default wd' (snd <$> Some (@None gerror, wd'))). rewrite <- Hrun. reflexivity.
  - exact rt1_unicast.
  - exists wd2. split; [exact Hr|exact Hu].
Defined.
End instances.

End Service.
