(* ===== verification/Concurrent.v ===== *)
(** * Handlers that interleave

    The endpoint runs many handlers at once: the NACK workers of server.go (Run,
    processNACK), the recovery workers of proxy.go (worker, recover) and the
    processors of the ingress workers (processor.handle), over one limiter, one job
    queue, one set of backends and sockets. A handler is the tree of its operations
    ([GoM]); here a scheduler picks, at every step, a request or a datagram to
    start on, a waiting job to hand to a recovery worker, one handler to perform
    its next operation, or a change of everything outside the process. An
    operation is what the code does atomically: a limiter call under its mutex, a
    channel operation, one backend request, one write, one counter.

    The sizes of the pools are not fixed: every interleaving of a bounded pool is one
    of the schedules here. *)

From S2P Require Import Prelude GoNet External RefEnv RateLimit World CacheStore Retransmit Proxy Server Ingress.
From Stdlib Require Import Strings.Byte.
Import GoNet External RateLimit World CacheStore.

Module Concurrent.

(** ** Lists of histories *)

Lemma concat_append_Permutation {A} (ls : list (list A)) i x d :
  ls !! i = Some x → concat (<[i := x ++ d]> ls) ≡ₚ concat ls ++ d.
Proof.
  intros Hi. apply (Permutation_app_inv_r x). rewrite (concat_insert_Permutation ls i x (x ++ d) Hi).
  rewrite <- app_assoc. by rewrite (Permutation_app_comm x d).
Qed.

Section model.
Context {E : Type} `{!RateLib E, !OS E, !Backend E, !FetchNet E, !FrameLib, !ShardLib, !TeeWire}.
Context (growcap : nat → nat → nat).
Context (s : Server.Server (E := E)) (c : Proxy.Config (E := E)).

(** ** The system *)

(** What a goroutine is working on. *)
Inductive task :=
| Request (d : bytes) (src : option udpaddr)
| Recovery (j : job)
| Datagram (w : Ingress.Worker (E := E)) (tee : bool) (p : Ingress.processor) (sl : Ingress.slot).

Definition code (t : task) : GoM (world E) unit :=
  match t with
  | Request d src => Server.processNACK growcap s d src
  | Recovery j => Proxy.recover c j
  | Datagram w tee p sl => _ ← Ingress.handle w tee p sl; mret tt
  end.

(** A handler under way: what is left of it, and the events and jobs it caused. *)
Record thread := mkThread {
  t_task : task; t_code : GoM (world E) unit; t_evs : list event; t_jobs : list job;
}.
Definition start (t : task) : thread := mkThread t (code t) [] [].
Definition finished (th : thread) : bool := match t_code th with GRet _ => true | GOp _ _ => false end.

Record system := mkSystem { s_world : world E; s_threads : list thread }.

Inductive choice :=
| RequestArrives (d : bytes) (src : option udpaddr)
| DatagramArrives (w : Ingress.Worker (E := E)) (tee : bool) (p : Ingress.processor) (sl : Ingress.slot)
| Take
| Turn (i : nat)
| Outside (e : E).

Definition spawn (t : task) (σ : system) : system := mkSystem (s_world σ) (s_threads σ ++ [start t]).

(** One step; [None] is a panic, which ends the process. A choice that is not
    enabled changes nothing. *)
Definition exec (ch : choice) (σ : system) : option system :=
  let w := s_world σ in
  match ch with
  | RequestArrives d src => Some (spawn (Request d src) σ)
  | DatagramArrives iw tee p sl => Some (spawn (Datagram iw tee p sl) σ)
  | Take =>
      match Proxy.tryRecv w with
      | Some (Some j, w') => Some (spawn (Recovery j) (mkSystem w' (s_threads σ)))
      | Some (None, _) => Some σ
      | None => None
      end
  | Turn i =>
      match s_threads σ !! i with
      | None => Some σ
      | Some th =>
          match t_code th with
          | GRet _ => Some σ
          | GOp f k =>
              match f w with
              | None => None
              | Some (x, w') => Some (mkSystem w' (<[i := mkThread (t_task th) (k x)
                  (t_evs th ++ drop (length (w_events w)) (w_events w'))
                  (t_jobs th ++ drop (length (w_queue w)) (w_queue w'))]> (s_threads σ)))
              end
          end
      end
  | Outside e => Some (mkSystem (mkWorld e (w_lim w) (w_queue w) (w_events w)) (s_threads σ))
  end.

Fixpoint exec_all (sched : list choice) (σ : system) : option system :=
  match sched with
  | [] => Some σ
  | ch :: sched' => exec ch σ ≫= exec_all sched'
  end.

(** ** The contract *)

(** The environment satisfies [P] at all times. *)
Context (P : E → Prop).

(** What each kind of handler may have caused when it is done. *)
Definition contract (t : task) (evs : list event) (jobs : list job) : Prop :=
  match t with
  | Request d src => Server.outcome_in P s d src evs jobs
  | Recovery j => jobs = [] ∧ ∃ raw, Proxy.recovering c j raw (Z.to_nat (Proxy.MaxEndpoints c)) evs
  | Datagram _ _ _ _ => jobs = [] ∧ metrics_only evs
  end.

(** The jobs that reached a recovery worker, in order. *)
Definition task_job (t : task) : option job := match t with Recovery j => Some j | _ => None end.
Definition taken (σ : system) : list job := omap task_job (t_task <$> s_threads σ).

(** A queue that respects its capacity and holds jobs of well-formed requests. *)
Definition queue_ok (q : list job) : Prop :=
  Z.of_nat (length q) ≤ Proxy.QueueDepth c ∧ Forall (λ j, length (j_subtree j) = 32%nat) q.

(** The components are wired to each other, and what they do keeps [P]. *)
Record wired : Prop := {
  wi_request : Server.RequestEnv P s;
  wi_recovery : Proxy.RecoveryEnv P c;
  wi_server : @RetransOn _ _ P (Server.retransmit s);
  wi_proxy : @RetransOn _ _ P (Proxy.Retrans c);
  wi_queue : Server.proxy s = None ∨ Server.proxy s = Some (Proxy.proxy_iface c);
  wi_endpoints : Proxy.MaxEndpoints c ≤ Z.of_nat (length (Proxy.Upstreams c));
  wi_depth : 0 ≤ Proxy.QueueDepth c;
}.

(** What comes from outside keeps [P] too. *)
Definition admissible (ch : choice) : Prop :=
  match ch with
  | DatagramArrives w _ _ _ => Ingress.IngestEnv P w
  | Outside e => P e
  | _ => True
  end.
Definition task_env (t : task) : Prop :=
  match t with Datagram w _ _ _ => Ingress.IngestEnv P w | _ => True end.

Abbreviation shared := (λ l q, lim_ok l ∧ queue_ok q).

(** A handler under way will meet its contract. *)
Definition thread_ok (th : thread) : Prop :=
  wpi P shared (t_code th) (λ _ evs jobs, contract (t_task th) (t_evs th ++ evs) (t_jobs th ++ jobs)).

(** The invariant of the system, started in [w0]. *)
Record inv (w0 : world E) (σ : system) : Prop := {
  in_env : P (w_env (s_world σ));
  in_shared : shared (w_lim (s_world σ)) (w_queue (s_world σ));
  in_threads : Forall thread_ok (s_threads σ);
  in_sublist : Forall (λ th, t_evs th `sublist_of` w_events (s_world σ)) (s_threads σ);
  in_trace : w_events (s_world σ) ≡ₚ w_events w0 ++ concat (t_evs <$> s_threads σ);
  in_queue : taken σ ++ w_queue (s_world σ) ≡ₚ w_queue w0 ++ concat (t_jobs <$> s_threads σ);
}.

(** ** Lemmas *)
Context `{!FrameLibOk} (Hw : wired).

Lemma code_ok t : (∀ j, t = Recovery j → length (j_subtree j) = 32%nat) → task_env t → thread_ok (start t).
Proof.
  intros Hj He. unfold thread_ok. simpl. destruct t as [d src|j|w tee p sl]; simpl.
  - apply Server.wpi_processNACK; [apply Hw|apply Hw|]. unfold Server.proxies_keep.
    destruct (wi_queue Hw) as [->| ->]; [done|]. eexists. split; [apply Proxy.enqueue_ok|].
    intros q j [Hl Hf] Hc Hs. split; [rewrite length_app; simpl; lia|]. apply Forall_app. split; [done|by constructor].
  - apply Proxy.wpi_recover; [apply Hw|apply Hw|by apply Hj|apply Hw].
  - wpi_step. eapply wpi_mono; [by apply Ingress.wpi_handle|]. intros ? evs ? [-> Hm]. wpi_step. done.
Qed.

Lemma thread_done th : thread_ok th → finished th = true → contract (t_task th) (t_evs th) (t_jobs th).
Proof.
  unfold thread_ok, finished. destruct (t_code th) as [[]|]; [|done].
  intros Hc%wpi_done _. by rewrite !app_nil_r in Hc.
Qed.

Lemma idle_ok l : lim_ok l → shared l [].
Proof. intros Hl. split; [done|]. split; [simpl; apply Hw|constructor]. Qed.

Lemma inv_init w0 : P (w_env w0) → shared (w_lim w0) (w_queue w0) → inv w0 (mkSystem w0 []).
Proof. intros Hp Hs. split; simpl; [done|done|constructor|constructor|by rewrite app_nil_r|]. by rewrite app_nil_r. Qed.

(** A new handler changes no history. *)
Lemma inv_spawn w0 σ t : (∀ j, t = Recovery j → length (j_subtree j) = 32%nat) → task_job t = None → task_env t →
  inv w0 σ → inv w0 (spawn t σ).
Proof.
  intros Hj Ht He [Hp Hs Hth Hsub Htr Hq]. split; simpl; [done|done| | |by rewrite fmap_app, concat_app; simpl; rewrite !app_nil_r|].
  - apply Forall_app. split; [done|]. constructor; [by apply code_ok|constructor].
  - apply Forall_app. split; [done|]. constructor; [apply sublist_nil_l|constructor].
  - unfold taken in *. simpl. rewrite !fmap_app, concat_app, omap_app. simpl. rewrite Ht. simpl.
    by rewrite !app_nil_r.
Qed.

Lemma inv_take w0 σ j q : inv w0 σ → w_queue (s_world σ) = j :: q →
  inv w0 (spawn (Recovery j) (mkSystem (mkWorld (w_env (s_world σ)) (w_lim (s_world σ)) q (w_events (s_world σ)))
    (s_threads σ))).
Proof.
  intros [Hp [Hl Hqo] Hth Hsub Htr Hq] Heq. rewrite Heq in *. destruct Hqo as [Hlen Hf]. inversion Hf; subst.
  split; simpl.
  - done.
  - split; [done|]. split; [simpl in Hlen; lia|done].
  - apply Forall_app. split; [done|]. constructor; [|constructor]. apply code_ok; [by intros j' [= ->]|done].
  - apply Forall_app. split; [done|]. constructor; [apply sublist_nil_l|constructor].
  - by rewrite fmap_app, concat_app; simpl; rewrite !app_nil_r.
  - unfold taken in *. simpl. rewrite !fmap_app, concat_app, omap_app. simpl.
    by rewrite !app_nil_r, <- app_assoc.
Qed.

(** One operation of one handler. *)
Lemma inv_turn w0 σ i th X f (k : X → GoM (world E) unit) : inv w0 σ →
  s_threads σ !! i = Some th → t_code th = GOp f k →
  ∃ σ', exec (Turn i) σ = Some σ' ∧ inv w0 σ' ∧
    ∃ x th' jobs, s_threads σ' = <[i := th']> (s_threads σ) ∧ t_task th' = t_task th ∧ t_code th' = k x ∧
      w_queue (s_world σ') = w_queue (s_world σ) ++ jobs.
Proof.
  intros [Hp Hs Hth Hsub Htr Hq] Hi Hc. unfold exec. rewrite Hi, Hc.
  pose proof (Forall_lookup_1 _ _ _ _ Hth Hi) as Hok. unfold thread_ok in Hok. rewrite Hc in Hok.
  destruct (wpi_next _ _ _ _ _ _ Hok Hp Hs) as (x & w' & evs & jobs & Hf & Hp' & Hs' & He & Hj & Hk).
  rewrite Hf. eexists. split; [done|]. rewrite He, Hj, !drop_app_length.
  split; [|by eexists x, _, jobs].
  set (th' := mkThread _ _ _ _). split; simpl.
  - done.
  - done.
  - apply Forall_insert; [done|]. unfold thread_ok. simpl. eapply wpi_mono; [exact Hk|].
    intros ? evs' jobs'. cbv beta. by rewrite <- !app_assoc.
  - rewrite He. apply Forall_insert.
    + eapply Forall_impl; [exact Hsub|]. intros th1 Hth1. by apply sublist_inserts_r.
    + simpl. apply sublist_app; [|done]. by apply (Forall_lookup_1 _ _ _ _ Hsub Hi).
  - rewrite He, Htr, list_fmap_insert. simpl.
    rewrite (concat_append_Permutation _ i (t_evs th)) by (by rewrite list_lookup_fmap, Hi). by rewrite app_assoc.
  - unfold taken in *. simpl. rewrite !list_fmap_insert. simpl.
    rewrite (list_insert_id (t_task <$> _)) by (by rewrite list_lookup_fmap, Hi).
    rewrite Hj, app_assoc, Hq.
    rewrite (concat_append_Permutation _ i (t_jobs th)) by (by rewrite list_lookup_fmap, Hi). by rewrite app_assoc.
Qed.

(** No step panics, and each keeps the invariant. *)
Lemma exec_inv w0 ch σ : admissible ch → inv w0 σ → ∃ σ', exec ch σ = Some σ' ∧ inv w0 σ'.
Proof.
  intros Ha Hi. destruct ch as [d src|iw tee p sl| |i|e].
  - eexists. split; [done|]. by apply inv_spawn.
  - eexists. split; [done|]. by apply inv_spawn.
  - unfold exec, Proxy.tryRecv. rewrite run_act. destruct (w_queue (s_world σ)) as [|j q] eqn:Hq; [by eexists|].
    eexists. split; [done|]. by apply inv_take.
  - destruct (s_threads σ !! i) as [th|] eqn:Hth; [|unfold exec; rewrite Hth; by eexists].
    destruct (t_code th) as [[]|X f k] eqn:Hc; [unfold exec; rewrite Hth, Hc; by eexists|].
    destruct (inv_turn w0 σ i th X f k Hi Hth Hc) as (σ' & ? & ? & _). eauto.
  - eexists. split; [done|]. by destruct Hi.
Qed.

Lemma exec_all_inv w0 sched σ : Forall admissible sched → inv w0 σ → ∃ σ', exec_all sched σ = Some σ' ∧ inv w0 σ'.
Proof.
  revert σ. induction sched as [|ch sched IH]; intros σ Ha Hi; simpl; [by eexists|].
  inversion Ha; subst. destruct (exec_inv w0 ch σ) as (σ1 & -> & Hi1); [done..|]. simpl. by apply IH.
Qed.
End model.

Lemma admissible_any {E : Type} `{!RateLib E} (ch : choice (E := E)) : admissible (λ _, True) ch.
Proof. destruct ch; done. Qed.
Lemma any_admissible {E : Type} `{!RateLib E} (sched : list (choice (E := E))) : Forall (admissible (λ _, True)) sched.
Proof. apply Forall_true. intros ch. apply admissible_any. Qed.
End Concurrent.
