(* ===== verification/GoText.v ===== *)
(** * Text functions of Go's standard library

    [strings.ToLower], [strings.TrimSpace], [strings.Split], [strconv.ParseUint],
    [strconv.Atoi] and [strconv.ParseBool] as src/config/config.go uses them, on
    UTF-8 byte strings. *)

From S2P Require Import Prelude CacheStore.
From Stdlib Require Import Strings.Byte.
Import CacheStore.

Module GoText.

Definition string_of_bytes (b : bytes) : string := String.string_of_list_byte b.

(** *** strings.ToLower

    ASCII letters, and the two other letters whose lower case is ASCII: U+0130
    (i) and the Kelvin sign U+212A (k). The rest of the alphabet is left alone:
    neither it nor its lower case is ASCII, and the program compares the result
    with ASCII words only. *)
Definition lower_byte (b : byte) : byte :=
  if (65 <=? byte_Z b) && (byte_Z b <=? 90) then Z_byte (byte_Z b + 32) else b.
Fixpoint lower_bytes (l : bytes) : bytes :=
  match l with
  | xc4 :: xb0 :: l' => x69 :: lower_bytes l'
  | xe2 :: x84 :: xaa :: l' => x6b :: lower_bytes l'
  | b :: l' => lower_byte b :: lower_bytes l'
  | [] => []
  end.
Definition ToLower (s : string) : string := string_of_bytes (lower_bytes (bytes_of_string s)).

(** *** strings.TrimSpace

    The encodings of the characters of Unicode's White_Space property. *)
Definition spaces : list bytes :=
  [[x20]; [x09]; [x0a]; [x0b]; [x0c]; [x0d]; [xc2; x85]; [xc2; xa0]; [xe1; x9a; x80];
   [xe2; x80; xa8]; [xe2; x80; xa9]; [xe2; x80; xaf]; [xe2; x81; x9f]; [xe3; x80; x80]] ++
  ((λ b, [xe2; x80; b]) <$> [x80; x81; x82; x83; x84; x85; x86; x87; x88; x89; x8a]).

(** [l] without its prefix [p], if it has it. *)
Fixpoint strip (p l : bytes) : option bytes :=
  match p, l with
  | [], _ => Some l
  | x :: p', y :: l' => if decide (x = y) then strip p' l' else None
  | _, _ => None
  end.

Fixpoint first_some {A B} (f : A → option B) (l : list A) : option B :=
  match l with
  | [] => None
  | x :: l' => match f x with Some y => Some y | None => first_some f l' end
  end.

(** Drops leading spaces, [enc] being their encodings; every turn drops a byte,
    so the length is fuel enough. *)
Fixpoint trim_front (enc : list bytes) (fuel : nat) (l : bytes) : bytes :=
  match fuel with
  | O => l
  | S fuel' =>
      match first_some (λ p, strip p l) enc with
      | Some l' => trim_front enc fuel' l'
      | None => l
      end
  end.

Definition trim (l : bytes) : bytes :=
  let l := trim_front spaces (length l) l in
  reverse (trim_front (reverse <$> spaces) (length l) (reverse l)).
Definition TrimSpace (s : string) : string := string_of_bytes (trim (bytes_of_string s)).

(** *** strings.Split(s, sep) for a one-byte separator: never empty. *)
Fixpoint split_bytes (sep : byte) (l : bytes) : list bytes :=
  match l with
  | [] => [[]]
  | b :: l' =>
      if decide (b = sep) then [] :: split_bytes sep l'
      else match split_bytes sep l' with
           | w :: ws => (b :: w) :: ws
           | [] => [[b]]
           end
  end.
Definition Split (s : string) : list string := string_of_bytes <$> split_bytes x2c (bytes_of_string s).

(** *** Numbers *)

(** The value of a digit, for bases up to 36. *)
Definition digit (b : byte) : option Z :=
  let z := byte_Z b in
  if (48 <=? z) && (z <=? 57) then Some (z - 48)
  else if (97 <=? z) && (z <=? 122) then Some (z - 97 + 10)
  else if (65 <=? z) && (z <=? 90) then Some (z - 65 + 10)
  else None.

(** The number [acc] followed by the digits [l]; [None] if one is not a digit of
    the base. *)
Fixpoint digits (base acc : Z) (l : bytes) : option Z :=
  match l with
  | [] => Some acc
  | b :: l' =>
      match digit b with
      | Some d => if d <? base then digits base (acc * base + d) l' else None
      | None => None
      end
  end.

(** [strconv.ParseUint(s, base, bits)] for a base other than 0; [None] is an
    error, of syntax or of range. *)
Definition ParseUint (l : bytes) (base bits : Z) : option Z :=
  if decide (l = []) then None else
  match digits base 0 l with
  | Some n => if n <? 2 ^ bits then Some n else None
  | None => None
  end.

(** [strconv.Atoi], with the 64-bit int. *)
Definition Atoi (s : string) : option Z :=
  let l := bytes_of_string s in
  let '(neg, l') := match l with x2d :: l' => (true, l') | x2b :: l' => (false, l') | _ => (false, l) end in
  if decide (l' = []) then None else
  match digits 10 0 l' with
  | Some n =>
      if neg then (if n <=? 2 ^ 63 then Some (- n) else None)
      else (if n <? 2 ^ 63 then Some n else None)
  | None => None
  end.

Definition ParseBool (s : string) : option bool :=
  if decide (s ∈ ["1"; "t"; "T"; "true"; "TRUE"; "True"]%string) then Some true
  else if decide (s ∈ ["0"; "f"; "F"; "false"; "FALSE"; "False"]%string) then Some false
  else None.

(** ** Facts *)

Lemma string_of_bytes_of_string s : string_of_bytes (bytes_of_string s) = s.
Proof. apply String.string_of_list_byte_of_string. Qed.
Lemma bytes_of_string_of_bytes b : bytes_of_string (string_of_bytes b) = b.
Proof. apply String.list_byte_of_string_of_list_byte. Qed.

Lemma digits_lower base acc l n : 0 < base → 0 ≤ acc → digits base acc l = Some n → acc ≤ n.
Proof.
  intros Hb. revert acc. induction l as [|b l IH]; intros acc Ha; simpl; [naive_solver lia|].
  destruct (digit b) as [d|] eqn:Hd; [|done]. destruct (d <? base) eqn:Hlt; [|done].
  assert (0 ≤ d) as Hd0.
  { unfold digit in Hd. repeat case_match; simplify_eq; lia. }
  intros Hn. specialize (IH (acc * base + d) ltac:(nia) Hn). nia.
Qed.

Lemma digits_range base l n : 0 < base → digits base 0 l = Some n → 0 ≤ n.
Proof. intros Hb Hd. by eapply digits_lower in Hd. Qed.

Lemma ParseUint_range l base bits n : 0 < base → ParseUint l base bits = Some n → 0 ≤ n < 2 ^ bits.
Proof.
  intros Hb. unfold ParseUint. case_decide; [done|]. destruct (digits base 0 l) as [m|] eqn:Hd; [|done].
  destruct (m <? 2 ^ bits) eqn:Hm; [|done]. intros [= <-]. apply digits_range in Hd; lia.
Qed.

(** A decimal numeral denotes at least as much when it is read in base 16. *)
Lemma digits_base_mono acc acc' l n : 0 ≤ acc ≤ acc' →
  digits 10 acc l = Some n → ∃ m, digits 16 acc' l = Some m ∧ n ≤ m.
Proof.
  revert acc acc'. induction l as [|b l IH]; intros acc acc' Ha; simpl; [naive_solver lia|].
  destruct (digit b) as [d|] eqn:Hd; [|done].
  assert (0 ≤ d) by (unfold digit in Hd; repeat case_match; simplify_eq; lia).
  destruct (d <? 10) eqn:Hlt; [|done]. rewrite (proj2 (Z.ltb_lt d 16)) by lia.
  intros Hn. eapply IH; [|exact Hn]. lia.
Qed.

Example trim_ex : TrimSpace "  a b 
" = "a b"%string.
Proof. vm_compute. reflexivity. Qed.
Example lower_ex : ToLower "SsM" = "ssm"%string.
Proof. vm_compute. reflexivity. Qed.
Example split_ex : Split "a,,b" = ["a"; ""; "b"]%string.
Proof. vm_compute. reflexivity. Qed.
Example atoi_ex : Atoi "-12" = Some (-12) ∧ Atoi "1_2" = None ∧ Atoi "9223372036854775808" = None.
Proof. vm_compute. done. Qed.

End GoText.
