(* ===== verification/GoAddr.v ===== *)
(** * Reading addresses

    The parsers of Go's net/netip and net that the program feeds with its
    configuration: [netip.ParseAddr] with [parseIPv4Fields] and [parseIPv6],
    [netip.ParseAddrPort], [net.ParseIP] and [net.SplitHostPort]. [None] is an
    error; of [SplitHostPort] the program uses only whether it fails, and the text
    of its error.

    [ParseAddr_String] shows that every valid address is read back from the text
    [Addr.String] gives it, which is how the program hands addresses on as text. *)

From S2P Require Import Prelude GoNet External CacheStore GoText.
From Stdlib Require Import Strings.Byte.
Import GoNet External CacheStore GoText.

Module GoAddr.

(** *** IPv4 *)

Definition dec_digit (b : byte) : option Z :=
  match digit b with Some d => if d <? 10 then Some d else None | None => None end.
Definition hex_value (b : byte) : option Z :=
  match digit b with Some d => if d <? 16 then Some d else None | None => None end.

(** [parseIPv4Fields]: [digLen] digits of the current octet are read, of value
    [val], after the octets [fields]. *)
Fixpoint v4_fields (digLen : nat) (val : Z) (fields : bytes) (l : bytes) : option bytes :=
  match l with
  | [] => if decide (length fields < 3)%nat then None else Some (fields ++ [Z_byte val])
  | b :: l' =>
      match dec_digit b with
      | Some d =>
          if decide (digLen = 1%nat ∧ val = 0) then None else
          let val' := val * 10 + d in
          if 255 <? val' then None else v4_fields (S digLen) val' fields l'
      | None =>
          if decide (b ≠ x2e) then None
          else if decide (digLen = 0%nat ∨ l' = []) then None
          else if decide (length fields = 3%nat) then None
          else v4_fields 0 0 (fields ++ [Z_byte val]) l'
      end
  end.
Definition parseIPv4Fields : bytes → option bytes := v4_fields 0 0 [].

(** *** IPv6 *)

(** The hexadecimal digits at the front: how many, their value, and the rest. A
    fifth digit is an error. *)
Fixpoint hex_group (off : nat) (acc : Z) (l : bytes) : option (nat * Z * bytes) :=
  match l with
  | [] => Some (off, acc, [])
  | b :: l' =>
      match hex_value b with
      | Some d => if decide (3 < off)%nat then None else hex_group (S off) (acc * 16 + d) l'
      | None => Some (off, acc, l)
      end
  end.

Definition group_bytes (z : Z) : bytes := [Z_byte (z / 256); Z_byte z].

(** The loop of [parseIPv6], with room for [n] more groups after the bytes [ip];
    [ell] is the position of the ellipsis. *)
Fixpoint v6_groups (n : nat) (ip : bytes) (ell : option nat) (l : bytes) : option (bytes * option nat * bytes) :=
  match n with
  | O => Some (ip, ell, l)
  | S n' =>
      '(off, acc, l1) ← hex_group 0 0 l;
      if decide (off = 0%nat) then None else
      if decide (head l1 = Some x2e) then
        if decide (ell = None ∧ length ip ≠ 12%nat) then None else
        if decide (16 < length ip + 4)%nat then None else
        fields ← parseIPv4Fields l;
        Some (ip ++ fields, ell, [])
      else
      let ip := ip ++ group_bytes acc in
      match l1 with
      | [] => Some (ip, ell, [])
      | c :: l2 =>
          if decide (c ≠ x3a) then None else
          match l2 with
          | [] => None
          | c2 :: l3 =>
              if decide (c2 = x3a) then
                match ell with
                | Some _ => None
                | None => if decide (l3 = []) then Some (ip, Some (length ip), [])
                          else v6_groups n' ip (Some (length ip)) l3
                end
              else v6_groups n' ip ell l2
          end
      end
  end.

(** The ellipsis stands for the groups that are missing, at least one. *)
Definition expand (ip : bytes) (ell : option nat) : option bytes :=
  if decide (length ip < 16)%nat then
    k ← ell; Some (take k ip ++ replicate (16 - length ip) x00 ++ drop k ip)
  else match ell with Some _ => None | None => Some ip end.

(** What comes before the first [c] and after it; [None] when there is none. *)
Fixpoint cut (c : byte) (l : bytes) : option (bytes * bytes) :=
  match l with
  | [] => None
  | b :: l' => if decide (b = c) then Some ([], l') else '(p, q) ← cut c l'; Some (b :: p, q)
  end.

Definition parse6 (l : bytes) : option bytes :=
  let '(ell, l) := match l with x3a :: x3a :: l' => (Some 0%nat, l') | _ => (None, l) end in
  if decide (ell ≠ None ∧ l = []) then Some IPv6unspecified else
  '(ip, ell, rest) ← v6_groups 8 [] ell l;
  if decide (rest ≠ []) then None else expand ip ell.

Definition parseIPv6 (l : bytes) : option addr :=
  let '(l, zone) := match cut x25 l with Some (p, z) => (p, Some z) | None => (l, None) end in
  if decide (zone = Some []) then None else
  ip ← parse6 l;
  Some (WithZone ip (string_of_bytes (default [] zone))).

(** *** netip.ParseAddr *)

(** By the first dot, colon or percent sign. *)
Fixpoint kind_of (l : bytes) : option byte :=
  match l with
  | [] => None
  | b :: l' => if decide (b ∈ [x2e; x3a; x25]) then Some b else kind_of l'
  end.

Definition ParseAddr (s : string) : option addr :=
  let l := bytes_of_string s in
  match kind_of l with
  | Some x2e => Addr4 <$> parseIPv4Fields l
  | Some x3a => parseIPv6 l
  | _ => None
  end.

(** *** netip.ParseAddrPort *)

(** Around the last [c]. *)
Definition cut_last (c : byte) (l : bytes) : option (bytes * bytes) :=
  '(p, q) ← cut c (reverse l); Some (reverse q, reverse p).

Definition splitAddrPort (l : bytes) : option (bytes * bytes * bool) :=
  '(ip, port) ← cut_last x3a l;
  if decide (ip = []) then None else
  if decide (port = []) then None else
  if decide (head ip = Some x5b) then
    if decide (length ip < 2 ∨ last ip ≠ Some x5d)%nat then None
    else Some (field 1 (length ip - 1) ip, port, true)
  else Some (ip, port, false).

Definition ParseAddrPort (s : string) : option (addr * Z) :=
  '(ip, port, v6) ← splitAddrPort (bytes_of_string s);
  port16 ← ParseUint port 10 16;
  a ← ParseAddr (string_of_bytes ip);
  if (v6 && Is4 a) || (negb v6 && Is6 a) then None else Some (a, port16).

(** *** net.ParseIP: no zone; the 16-byte form. *)

Definition ParseIP (s : string) : option bytes :=
  a ← ParseAddr s;
  if decide (Zone a ≠ ""%string) then None else Some (As16 a).

(** *** net.SplitHostPort: its error. *)

Definition missingPort : gerror := ErrText "missing port in address".
Definition tooManyColons : gerror := ErrText "too many colons in address".

(** The position of the first [c]. *)
Definition index (c : byte) (l : bytes) : option nat := (λ p, length p.1) <$> cut c l.
Definition last_index (c : byte) (l : bytes) : option nat := (λ p, length p.1) <$> cut_last c l.

Definition SplitHostPort (s : string) : option gerror :=
  let l := bytes_of_string s in
  match last_index x3a l with
  | None => Some missingPort
  | Some i =>
      let brackets j k :=
        if decide (x5b ∈ drop j l) then Some (ErrText "unexpected '[' in address")
        else if decide (x5d ∈ drop k l) then Some (ErrText "unexpected ']' in address")
        else None in
      if decide (head l = Some x5b) then
        match index x5d l with
        | None => Some (ErrText "missing ']' in address")
        | Some e =>
            if decide (e + 1 = length l)%nat then Some missingPort
            else if decide (e + 1 = i)%nat then brackets 1%nat (e + 1)%nat
            else if decide (l !! (e + 1)%nat = Some x3a) then Some tooManyColons else Some missingPort
        end
      else if decide (x3a ∈ take i l) then Some tooManyColons
      else brackets 0%nat 0%nat
  end.

(** ** Facts *)

Lemma bytes_of_string_app s t : bytes_of_string (s +:+ t) = bytes_of_string s ++ bytes_of_string t.
Proof.
  unfold bytes_of_string. induction s as [|c s IH]; [done|].
  change (String c s +:+ t)%string with (String c (s +:+ t)).
  assert (∀ u, String.list_byte_of_string (String c u) = Ascii.byte_of_ascii c :: String.list_byte_of_string u) as Hc by reflexivity.
  by rewrite !Hc, IH.
Qed.

(** A digit as text and back. *)
Lemma hex_digit_value d : 0 ≤ d < 16 → ∃ b, bytes_of_string (hex_digit d) = [b] ∧
  hex_value b = Some d ∧ (d < 10 → dec_digit b = Some d) ∧ b ∉ [x2e; x3a; x25].
Proof.
  intros Hd. assert (∃ n, (n < 16)%nat ∧ d = Z.of_nat n) as (n & Hn & ->) by (exists (Z.to_nat d); lia).
  do 16 (destruct n as [|n]; [eexists; split; [vm_compute; reflexivity|];
    (split; [reflexivity|]); (split; [first [by intros _; vm_compute|intros; exfalso; lia]|]);
    by apply (bool_decide_unpack _)|]). lia.
Qed.

(** A byte that ends a group. *)
Definition stops (t : bytes) : Prop := ∀ b, head t = Some b → hex_value b = None.

Lemma hex_group_digit off acc d t : 0 ≤ d < 16 → (off ≤ 3)%nat →
  hex_group off acc (bytes_of_string (hex_digit d) ++ t) = hex_group (S off) (acc * 16 + d) t.
Proof.
  intros Hd Ho. destruct (hex_digit_value d Hd) as (b & -> & Hb & _). simpl. rewrite Hb.
  by rewrite decide_False by lia.
Qed.

Lemma hex_group_stop off acc t : stops t → hex_group off acc t = Some (off, acc, t).
Proof. intros Ht. destruct t as [|b t]; [done|]. simpl. by rewrite (Ht b eq_refl). Qed.

(** A group as text and back. *)
Lemma hex16_read z t : 0 ≤ z < 65536 → stops t →
  ∃ off, (0 < off)%nat ∧ hex_group 0 0 (bytes_of_string (hex16 z) ++ t) = Some (off, z, t).
Proof.
  intros Hz Ht. unfold hex16. rewrite !bytes_of_string_app.
  destruct (4096 <=? z) eqn:H3, (256 <=? z) eqn:H2, (16 <=? z) eqn:H1; try (exfalso; lia);
    cbn [bytes_of_string String.list_byte_of_string String.list_ascii_of_string map app];
    rewrite <- ?app_assoc, !hex_group_digit, hex_group_stop by (done || (Z.to_euclidean_division_equations; lia) || lia);
    eexists; (split; [|repeat f_equal; Z.to_euclidean_division_equations; lia]); lia.
Qed.

(** *** IPv6 text *)

Definition u16s (gs : list Z) : Prop := Forall (λ z, 0 ≤ z < 65536) gs.
Definition groups_bytes (gs : list Z) : bytes := concat (group_bytes <$> gs).

(** Groups with colons before them, and between them. *)
Definition text_tail (gs : list Z) : bytes := concat ((λ z, x3a :: bytes_of_string (hex16 z)) <$> gs).
Definition text_groups (gs : list Z) : bytes :=
  match gs with [] => [] | z :: gs' => bytes_of_string (hex16 z) ++ text_tail gs' end.

Lemma text_tail_groups gs : text_tail gs = match gs with [] => [] | _ => x3a :: text_groups gs end.
Proof. by destruct gs. Qed.

Lemma hex16_head z : 0 ≤ z < 65536 → ∃ b l, bytes_of_string (hex16 z) = b :: l ∧ Forall (λ b, b ∉ [x2e; x3a; x25]) (b :: l).
Proof.
  intros Hz. assert (Forall (λ b, b ∉ [x2e; x3a; x25]) (bytes_of_string (hex16 z))) as Hf.
  { assert (∀ d, 0 ≤ d < 16 → Forall (λ b, b ∉ [x2e; x3a; x25]) (bytes_of_string (hex_digit d))) as Hd.
    { intros d Hd. destruct (hex_digit_value d Hd) as (b & -> & _ & _ & Hb). by repeat constructor. }
    unfold hex16. rewrite !bytes_of_string_app, !Forall_app.
    split_and!; repeat case_match; try constructor; apply Hd; Z.to_euclidean_division_equations; lia. }
  destruct (bytes_of_string (hex16 z)) as [|b l] eqn:Hb; [|by eexists _, _].
  destruct (hex16_read z [] Hz) as (off & Hoff & Hr); [done|]. rewrite Hb in Hr. injection Hr as <-. lia.
Qed.

Lemma colon_stops l : stops (x3a :: l).
Proof. by intros b [= <-]. Qed.

(** One group of the loop: the last one, and one before a colon. *)
Lemma v6_last n ip ell z : 0 ≤ z < 65536 →
  v6_groups (S n) ip ell (bytes_of_string (hex16 z)) = Some (ip ++ group_bytes z, ell, []).
Proof.
  intros Hz. destruct (hex16_read z [] Hz) as (off & Ho & Hr); [done|]. rewrite app_nil_r in Hr.
  cbn [v6_groups]. rewrite Hr. simpl. by rewrite decide_False by lia.
Qed.
Lemma v6_next n ip ell z c l : 0 ≤ z < 65536 → c ≠ x3a →
  v6_groups (S n) ip ell (bytes_of_string (hex16 z) ++ x3a :: c :: l) = v6_groups n (ip ++ group_bytes z) ell (c :: l).
Proof.
  intros Hz Hc. destruct (hex16_read z (x3a :: c :: l) Hz) as (off & Ho & Hr); [apply colon_stops|].
  cbn [v6_groups]. rewrite Hr. cbn [mbind option_bind]. rewrite decide_False by lia.
  rewrite decide_False by done. rewrite decide_False by (by intros ?). by rewrite decide_False.
Qed.
Lemma v6_ellipsis n ip z l : 0 ≤ z < 65536 →
  v6_groups (S n) ip None (bytes_of_string (hex16 z) ++ x3a :: x3a :: l) =
  let ip := ip ++ group_bytes z in
  if decide (l = []) then Some (ip, Some (length ip), []) else v6_groups n ip (Some (length ip)) l.
Proof.
  intros Hz. destruct (hex16_read z (x3a :: x3a :: l) Hz) as (off & Ho & Hr); [apply colon_stops|].
  cbn [v6_groups]. rewrite Hr. cbn [mbind option_bind]. by rewrite decide_False by lia.
Qed.

Lemma v6_all gs n ip ell : u16s gs → gs ≠ [] → (length gs ≤ n)%nat →
  v6_groups n ip ell (text_groups gs) = Some (ip ++ groups_bytes gs, ell, []).
Proof.
  intros Hr. revert n ip. induction Hr as [|z gs Hz Hr IH]; intros n ip Hne Hn; [done|].
  destruct n as [|n]; [simpl in Hn; lia|]. simpl in Hn. cbn [text_groups]. rewrite text_tail_groups.
  destruct gs as [|z' gs].
  - by rewrite app_nil_r, v6_last.
  - destruct (hex16_head z') as (b & l & Hb & Hl); [by inversion Hr|]. cbn [text_groups]. rewrite Hb. cbn [app].
    rewrite v6_next by (done || (inversion Hl; set_solver)).
    rewrite app_comm_cons, <- Hb. change (bytes_of_string (hex16 z') ++ text_tail gs) with (text_groups (z' :: gs)).
    rewrite IH by (done || lia). unfold groups_bytes. simpl. by rewrite <- app_assoc.
Qed.

Lemma v6_before gs n ip l : u16s gs → gs ≠ [] → (length gs ≤ n)%nat →
  v6_groups n ip None (text_groups gs ++ x3a :: x3a :: l) =
  let ip := ip ++ groups_bytes gs in
  if decide (l = []) then Some (ip, Some (length ip), []) else v6_groups (n - length gs) ip (Some (length ip)) l.
Proof.
  intros Hr. revert n ip. induction Hr as [|z gs Hz Hr IH]; intros n ip Hne Hn; [done|].
  destruct n as [|n]; [simpl in Hn; lia|]. simpl in Hn. cbn [text_groups]. rewrite text_tail_groups.
  destruct gs as [|z' gs].
  - rewrite app_nil_r, v6_ellipsis by done. unfold groups_bytes. simpl. by rewrite Nat.sub_0_r.
  - destruct (hex16_head z') as (b & l0 & Hb & Hl); [by inversion Hr|]. cbn [text_groups]. rewrite Hb. rewrite <- app_assoc. cbn [app].
    rewrite v6_next by (done || (inversion Hl; set_solver)).
    rewrite !app_comm_cons, <- Hb. change (bytes_of_string (hex16 z') ++ text_tail gs) with (text_groups (z' :: gs)).
    rewrite IH by (done || lia). unfold groups_bytes. simpl. by rewrite <- !app_assoc.
Qed.

(** The run that is left out. *)
Lemma zeros_spec g : (zeros g ≤ length g)%nat ∧ take (zeros g) g = replicate (zeros g) 0.
Proof.
  induction g as [|x g [Hl Ht]]; [done|]. simpl. destruct (x =? 0) eqn:Hx; simpl; [|split; [lia|done]].
  rewrite Ht. split; [lia|]. f_equal. lia.
Qed.

Definition run_ok (g : list Z) (run : nat * nat) : Prop :=
  run = (255, 255)%nat ∨
  (run.1 < run.2)%nat ∧ (run.2 ≤ length g)%nat ∧ take (run.2 - run.1) (drop run.1 g) = replicate (run.2 - run.1) 0.

Lemma zero_run_ok g : run_ok g (zero_run g).
Proof.
  unfold zero_run. generalize (seq 0 (length g)). intros l.
  assert (∀ run, run_ok g run → run_ok g (fold_left (λ '(s, e) i,
    let l := zeros (drop i g) in if decide (2 ≤ l ∧ e - s < l)%nat then (i, (i + l)%nat) else (s, e)) l run)) as Hall.
  { induction l as [|i l IH]; intros [s e] Hrun; simpl; [done|]. apply IH. case_decide as Hd; [|done].
    destruct (zeros_spec (drop i g)) as [Hl Ht]. rewrite length_drop in Hl. right. simpl.
    replace (i + zeros (drop i g) - i)%nat with (zeros (drop i g)) by lia. split_and!; [lia|lia|done]. }
  apply Hall. by left.
Qed.

(** The rest of the text after the run, or of one that has none. *)
Lemma render6_tail fuel g run i : length g = 8%nat → (i ≤ 8)%nat → (8 - i < fuel)%nat → (run.1 < i ∨ 8 ≤ run.1)%nat →
  bytes_of_string (render6 fuel g run i) = if decide (i = 0%nat) then text_groups g else text_tail (drop i g).
Proof.
  intros Hg. revert i. induction fuel as [|fuel IH]; intros i Hi Hf Hr; [lia|]. cbn [render6].
  destruct (decide (8 ≤ i)%nat) as [H8|H8].
  { rewrite decide_False by lia. by rewrite drop_ge by lia. }
  rewrite decide_False by lia. destruct (lookup_lt_is_Some_2 g i) as [z Hz]; [lia|].
  rewrite (drop_S _ _ _ Hz), Hz, !bytes_of_string_app, IH, (decide_False (P := S i = 0%nat)) by lia. simpl.
  destruct i as [|i].
  - destruct g as [|z0 g]; [done|]. simplify_eq/=. done.
  - by rewrite decide_True, decide_False by lia.
Qed.

(** With a run: the groups before it, two colons, the groups after it. *)
Lemma render6_run fuel g s e i : length g = 8%nat → (i ≤ s)%nat → (s < e ≤ 8)%nat → (8 - i < fuel)%nat →
  bytes_of_string (render6 fuel g (s, e) i) =
  (if decide (i = 0%nat) then text_groups else text_tail) (take (s - i) (drop i g)) ++ x3a :: x3a :: text_groups (drop e g).
Proof.
  intros Hg. revert i. induction fuel as [|fuel IH]; intros i Hi Hse Hf; [lia|]. cbn [render6 fst snd].
  rewrite decide_False by lia. destruct (decide (i = s)) as [->|Hne].
  - rewrite Nat.sub_diag, take_0. replace (_ ++ _) with (x3a :: x3a :: text_groups (drop e g)) by (by case_decide).
    destruct (decide (8 ≤ e)%nat); [by rewrite drop_ge by lia|].
    destruct (lookup_lt_is_Some_2 g e) as [z Hz]; [lia|].
    rewrite !bytes_of_string_app, Hz, (drop_S _ _ _ Hz), render6_tail, decide_False by (simpl; lia). done.
  - destruct (lookup_lt_is_Some_2 g i) as [z Hz]; [lia|].
    rewrite !bytes_of_string_app, Hz, IH, (decide_False (P := S i = 0%nat)) by lia. simpl.
    rewrite (drop_S _ _ _ Hz). replace (s - i)%nat with (S (s - S i)) by lia. simpl.
    destruct i as [|i].
    + simpl. by rewrite <- app_assoc.
    + rewrite decide_True, decide_False by lia. unfold text_tail. simpl. by rewrite <- app_assoc.
Qed.

Lemma groups_bytes_cons z gs : groups_bytes (z :: gs) = group_bytes z ++ groups_bytes gs.
Proof. done. Qed.

(** Bytes as groups and back. *)
Lemma groups16_spec b n : length b = (2 * n)%nat →
  length (groups16 b) = n ∧ u16s (groups16 b) ∧ groups_bytes (groups16 b) = b.
Proof.
  revert b. induction n as [|n IH]; intros b Hb.
  { destruct b; [|simpl in Hb; lia]. by repeat constructor. }
  destruct b as [|x [|y b]]; simpl in Hb; [lia..|]. destruct (IH b) as (Hl & Hr & He); [lia|]. simpl.
  pose proof (byte_Z_range x). pose proof (byte_Z_range y). split_and!; [lia|constructor; [lia|done]|].
  rewrite groups_bytes_cons, He. unfold group_bytes. simpl.
  replace ((byte_Z x * 256 + byte_Z y) / 256) with (byte_Z x) by (Z.to_euclidean_division_equations; lia).
  rewrite byte_Z_byte. do 2 f_equal. rewrite <- (byte_Z_byte y) at 2. unfold Z_byte. do 3 f_equal.
  Z.to_euclidean_division_equations; lia.
Qed.

Lemma length_groups_bytes gs : length (groups_bytes gs) = (2 * length gs)%nat.
Proof. induction gs as [|z gs IH]; [done|]. rewrite groups_bytes_cons, length_app, IH. simpl. lia. Qed.
Lemma groups_bytes_app gs hs : groups_bytes (gs ++ hs) = groups_bytes gs ++ groups_bytes hs.
Proof. unfold groups_bytes. by rewrite fmap_app, concat_app. Qed.
Lemma groups_bytes_zeros n : groups_bytes (replicate n 0) = replicate (2 * n) x00.
Proof.
  induction n as [|n IH]; [done|]. replace (2 * S n)%nat with (S (S (2 * n))) by lia.
  change (groups_bytes (replicate (S n) 0)) with (group_bytes 0 ++ groups_bytes (replicate n 0)). by rewrite IH.
Qed.

Lemma text_groups_head gs : u16s gs → gs ≠ [] → ∃ b l, text_groups gs = b :: l ∧ b ∉ [x2e; x3a; x25].
Proof.
  intros Hr Hne. destruct gs as [|z gs]; [done|]. inversion Hr; subst.
  destruct (hex16_head z) as (b & l & Hb & Hl); [done|]. simpl. rewrite Hb. inversion Hl; subst. by eexists _, _.
Qed.

Lemma parse6_plain gs : u16s gs → length gs = 8%nat → parse6 (text_groups gs) = Some (groups_bytes gs).
Proof.
  intros Hr Hl. assert (gs ≠ []) as Hne by (by intros ->). unfold parse6.
  destruct (text_groups_head gs Hr Hne) as (b & l & Hb & Hnb). rewrite Hb.
  assert (match b :: l with x3a :: x3a :: l' => (Some 0%nat, l') | _ => (None, b :: l) end = (None, b :: l)) as ->.
  { destruct b; try done. by destruct Hnb; constructor 2; constructor. }
  rewrite decide_False by (by intros [? ?]). rewrite <- Hb, v6_all by (done || lia). simpl.
  unfold expand. rewrite length_groups_bytes, Hl. done.
Qed.

(** Two colons stand for as many zero groups as are missing. *)
Lemma parse6_run gs hs n : u16s gs → u16s hs → (length gs + n + length hs = 8)%nat → (0 < n)%nat →
  parse6 (text_groups gs ++ x3a :: x3a :: text_groups hs) = Some (groups_bytes (gs ++ replicate n 0 ++ hs)).
Proof.
  intros Hg Hh Hl Hn. rewrite !groups_bytes_app, groups_bytes_zeros. unfold parse6.
  assert (∀ ip k, ip = groups_bytes gs ++ groups_bytes hs → k = length (groups_bytes gs) →
    expand ip (Some k) = Some (groups_bytes gs ++ replicate (2 * n) x00 ++ groups_bytes hs)) as Hexp.
  { intros ip k -> ->. unfold expand. rewrite decide_True by (rewrite length_app, !length_groups_bytes; lia).
    cbn [mbind option_bind]. rewrite take_app_length, drop_app_length.
    replace (16 - _)%nat with (2 * n)%nat by (rewrite length_app, !length_groups_bytes; lia). done. }
  destruct gs as [|z gs].
  - change (text_groups [] ++ x3a :: x3a :: text_groups hs) with (x3a :: x3a :: text_groups hs). cbv beta iota zeta.
    destruct hs as [|z' hs].
    { simpl. replace n with 8%nat by (simpl in Hl; lia). done. }
    rewrite decide_False by (destruct (text_groups_head (z' :: hs) Hh) as (b & l & -> & _); [done|]; by intros [? ?]).
    rewrite v6_all by (done || (simpl in *; lia)). cbn [mbind option_bind]. by apply Hexp.
  - destruct (text_groups_head (z :: gs) Hg) as (b & l & Hb & Hnb); [done|].
    rewrite Hb. cbn [app].
    assert (match b :: l ++ x3a :: x3a :: text_groups hs with x3a :: x3a :: l' => (Some 0%nat, l')
      | _ => (None, b :: l ++ x3a :: x3a :: text_groups hs) end = (None, b :: l ++ x3a :: x3a :: text_groups hs)) as ->.
    { destruct b; try done. by destruct Hnb; constructor 2; constructor. }
    rewrite decide_False by (by intros [? ?]). rewrite app_comm_cons, <- Hb, v6_before by (done || lia). cbv zeta.
    destruct hs as [|z' hs].
    { rewrite decide_True by done. simpl. apply Hexp; [by rewrite app_nil_r|done]. }
    rewrite decide_False by (by destruct (text_groups_head (z' :: hs) Hh) as (b' & l' & -> & _)).
    rewrite v6_all by (done || (simpl in *; lia)). simpl. by apply Hexp.
Qed.

(** *** Texts of IPv6 addresses *)

Variant shape6 (b : bytes) : bytes → Prop :=
| shape_plain gs : u16s gs → length gs = 8%nat → b = groups_bytes gs → shape6 b (text_groups gs)
| shape_run gs hs n : u16s gs → u16s hs → (length gs + n + length hs = 8)%nat → (0 < n)%nat →
    b = groups_bytes (gs ++ replicate n 0 ++ hs) → shape6 b (text_groups gs ++ x3a :: x3a :: text_groups hs).

Lemma string6_shape b : length b = 16%nat → shape6 b (bytes_of_string (string6 b)).
Proof.
  intros Hb. destruct (groups16_spec b 8 Hb) as (Hl & Hr & He). unfold string6.
  destruct (zero_run_ok (groups16 b)) as [Hrun|(Hlt & Hle & Hz)].
  - rewrite Hrun, render6_tail by (simpl; lia). by apply shape_plain.
  - destruct (zero_run (groups16 b)) as [s e]. cbn [fst snd] in *. cbv zeta. rewrite render6_run by lia.
    rewrite (decide_True (P := 0%nat = 0%nat)), Nat.sub_0_r, drop_0 by done. apply (shape_run _ _ _ (e - s)%nat).
    + by apply Forall_take.
    + by apply Forall_drop.
    + rewrite length_take, length_drop. lia.
    + lia.
    + rewrite <- Hz, <- He at 1. f_equal.
      trans (take s (groups16 b) ++ drop s (groups16 b)); [by rewrite take_drop|]. f_equal.
      trans (take (e - s) (drop s (groups16 b)) ++ drop (e - s) (drop s (groups16 b))); [by rewrite take_drop|].
      rewrite drop_drop. do 2 f_equal. lia.
Qed.

Lemma shape6_parse b l : shape6 b l → parse6 l = Some b.
Proof. intros [gs Hr Hl ->|gs hs n Hg Hh Hl Hn ->]; [by apply parse6_plain|by apply parse6_run]. Qed.

(** What decides how a text is read: its first dot, colon or percent sign. *)
Lemma kind_of_first l c t : Forall (λ b, b ∉ [x2e; x3a; x25]) l → c ∈ [x2e; x3a; x25] → kind_of (l ++ c :: t) = Some c.
Proof.
  intros Hl Hc. induction Hl as [|b l Hb _ IH]; simpl; [by rewrite decide_True|]. by rewrite decide_False.
Qed.
Lemma kind_of_app l t c : kind_of l = Some c → kind_of (l ++ t) = Some c.
Proof. induction l as [|b l IH]; simpl; [done|]. by case_decide. Qed.
Lemma cut_none c l : c ∉ l → cut c l = None.
Proof.
  induction l as [|b l IH]; intros Hn; simpl; [done|]. rewrite decide_False by set_solver. by rewrite IH by set_solver.
Qed.
Lemma cut_here c l t : c ∉ l → cut c (l ++ c :: t) = Some (l, t).
Proof.
  induction l as [|b l IH]; intros Hn; simpl; [by rewrite decide_True|].
  rewrite decide_False by set_solver. by rewrite IH by set_solver.
Qed.

Lemma text_tail_clean gs : u16s gs → x25 ∉ text_tail gs.
Proof.
  induction 1 as [|z gs Hz _ IH]; [apply not_elem_of_nil|].
  change (text_tail (z :: gs)) with ((x3a :: bytes_of_string (hex16 z)) ++ text_tail gs).
  destruct (hex16_head z Hz) as (b & l & -> & Hl). intros [Hin|Hin]%elem_of_app; [|done].
  apply elem_of_cons in Hin as [?|Hin]; [done|]. eapply Forall_forall in Hl; [|exact Hin]. set_solver.
Qed.
Lemma text_groups_clean gs : u16s gs → x25 ∉ text_groups gs.
Proof.
  intros Hr Hin. apply (text_tail_clean gs Hr). rewrite text_tail_groups. destruct gs; [done|]. by constructor.
Qed.

Lemma shape6_clean b l : shape6 b l → (x25 ∉ l) ∧ kind_of l = Some x3a.
Proof.
  intros Hs. destruct Hs as [gs Hr Hl _|gs hs n Hg Hh Hl Hn _].
  - split; [by apply text_groups_clean|]. destruct gs as [|z [|z' gs]]; try done. inversion Hr; subst.
    destruct (hex16_head z) as (b0 & l0 & Hb & Hc); [done|]. cbn [text_groups]. rewrite text_tail_groups, Hb.
    by apply kind_of_first; [|set_solver].
  - split.
    { pose proof (text_groups_clean gs Hg). pose proof (text_groups_clean hs Hh). set_solver. }
    destruct gs as [|z gs]; [done|]. inversion Hg; subst. destruct (hex16_head z) as (b0 & l0 & Hb & Hc); [done|].
    cbn [text_groups]. rewrite text_tail_groups, Hb. destruct gs; rewrite <- ?app_assoc; by apply kind_of_first; [|set_solver].
Qed.

(** *** Texts of IPv4 addresses *)

Lemma v4_digit digLen val fields d t : 0 ≤ d < 10 → 0 ≤ val * 10 + d ≤ 255 → (digLen = 1%nat → val ≠ 0) →
  v4_fields digLen val fields (bytes_of_string (hex_digit d) ++ t) = v4_fields (S digLen) (val * 10 + d) fields t.
Proof.
  intros Hd Hv Hz. destruct (hex_digit_value d) as (b & -> & _ & Hb & _); [lia|]. simpl. rewrite Hb by lia.
  rewrite decide_False by naive_solver. by destruct (255 <? val * 10 + d) eqn:?; [lia|].
Qed.

(** An octet as text and back, as an octet and as the start of a group. *)
Lemma dec8_read fields z t : 0 ≤ z < 256 →
  ∃ k, v4_fields 0 0 fields (bytes_of_string (dec8 z) ++ t) = v4_fields (S k) z fields t.
Proof.
  intros Hz. unfold dec8. rewrite !bytes_of_string_app.
  destruct (100 <=? z) eqn:H2, (10 <=? z) eqn:H1; try (exfalso; lia);
    cbn [bytes_of_string String.list_byte_of_string String.list_ascii_of_string map app];
    rewrite <- ?app_assoc, !v4_digit by (Z.to_euclidean_division_equations; lia);
    eexists; repeat f_equal; Z.to_euclidean_division_equations; lia.
Qed.
Lemma dec8_group z t : 0 ≤ z < 256 → stops t →
  ∃ off v, (0 < off)%nat ∧ hex_group 0 0 (bytes_of_string (dec8 z) ++ t) = Some (off, v, t).
Proof.
  intros Hz Ht. unfold dec8. rewrite !bytes_of_string_app.
  destruct (100 <=? z) eqn:H2, (10 <=? z) eqn:H1; try (exfalso; lia);
    cbn [bytes_of_string String.list_byte_of_string String.list_ascii_of_string map app];
    rewrite <- ?app_assoc, !hex_group_digit, hex_group_stop by (done || (Z.to_euclidean_division_equations; lia) || lia);
    eexists _, _; (split; [|reflexivity]); lia.
Qed.
Lemma dec8_clean z : 0 ≤ z < 256 →
  Forall (λ b, b ∉ [x2e; x3a; x25]) (bytes_of_string (dec8 z)) ∧ bytes_of_string (dec8 z) ≠ [].
Proof.
  intros Hz. assert (∀ d, 0 ≤ d < 16 → Forall (λ b, b ∉ [x2e; x3a; x25]) (bytes_of_string (hex_digit d))) as Hd.
  { intros d Hd. destruct (hex_digit_value d Hd) as (b & -> & _ & _ & Hb). by repeat constructor. }
  split.
  - unfold dec8. rewrite !bytes_of_string_app, !Forall_app.
    split_and!; repeat case_match; try constructor; apply Hd; Z.to_euclidean_division_equations; lia.
  - intros Hn. destruct (dec8_group z [] Hz) as (off & v & Ho & Hr); [done|]. rewrite Hn in Hr. injection Hr as <-. lia.
Qed.

Definition dotted (p q r s : Z) : bytes :=
  bytes_of_string (dec8 p) ++ x2e :: bytes_of_string (dec8 q) ++ x2e :: bytes_of_string (dec8 r) ++ x2e :: bytes_of_string (dec8 s).

Lemma v4_dot k val fields t : (length fields < 3)%nat → t ≠ [] →
  v4_fields (S k) val fields (x2e :: t) = v4_fields 0 0 (fields ++ [Z_byte val]) t.
Proof.
  intros Hf Ht. simpl. rewrite decide_False by (by intros [?|?]). by rewrite decide_False by lia.
Qed.

Lemma dotted_read p q r s : 0 ≤ p < 256 → 0 ≤ q < 256 → 0 ≤ r < 256 → 0 ≤ s < 256 →
  parseIPv4Fields (dotted p q r s) = Some [Z_byte p; Z_byte q; Z_byte r; Z_byte s].
Proof.
  intros Hp Hq Hr Hs. unfold parseIPv4Fields, dotted.
  assert (∀ z t, 0 ≤ z < 256 → bytes_of_string (dec8 z) ++ t ≠ []) as Hne.
  { intros z t Hz Hn. apply app_eq_nil in Hn as [Hn _]. by destruct (dec8_clean z Hz). }
  destruct (dec8_read [] p (x2e :: bytes_of_string (dec8 q) ++ x2e :: bytes_of_string (dec8 r) ++ x2e :: bytes_of_string (dec8 s)) Hp) as [k1 ->].
  rewrite v4_dot by (simpl; lia || by apply Hne).
  destruct (dec8_read ([] ++ [Z_byte p]) q (x2e :: bytes_of_string (dec8 r) ++ x2e :: bytes_of_string (dec8 s)) Hq) as [k2 ->].
  rewrite v4_dot by (simpl; lia || by apply Hne).
  destruct (dec8_read (([] ++ [Z_byte p]) ++ [Z_byte q]) r (x2e :: bytes_of_string (dec8 s)) Hr) as [k3 ->].
  rewrite v4_dot by (simpl; lia || by apply (proj2 (dec8_clean s Hs))).
  rewrite <- (app_nil_r (bytes_of_string (dec8 s))).
  destruct (dec8_read ((([] ++ [Z_byte p]) ++ [Z_byte q]) ++ [Z_byte r]) s [] Hs) as [k4 ->]. done.
Qed.

Lemma string4_dotted b : length b = 4%nat → ∃ p q r s, bytes_of_string (string4 b) = dotted p q r s ∧
  (0 ≤ p < 256 ∧ 0 ≤ q < 256 ∧ 0 ≤ r < 256 ∧ 0 ≤ s < 256) ∧ b = [Z_byte p; Z_byte q; Z_byte r; Z_byte s].
Proof.
  intros Hb. destruct b as [|p [|q [|r [|s [|]]]]]; try done.
  exists (byte_Z p), (byte_Z q), (byte_Z r), (byte_Z s). rewrite !byte_Z_byte.
  split_and!; try apply byte_Z_range; [|done]. unfold string4, dotted. simpl. by rewrite !bytes_of_string_app.
Qed.

Lemma dotted_clean p q r s : 0 ≤ p < 256 → 0 ≤ q < 256 → 0 ≤ r < 256 → 0 ≤ s < 256 →
  (x25 ∉ dotted p q r s) ∧ kind_of (dotted p q r s) = Some x2e.
Proof.
  intros Hp Hq Hr Hs. split; [|apply kind_of_first; [by apply dec8_clean|set_solver]].
  assert (∀ z, 0 ≤ z < 256 → x25 ∉ bytes_of_string (dec8 z)) as Hc.
  { intros z Hz Hin. destruct (dec8_clean z Hz) as [Hf _]. eapply Forall_forall in Hf; [|exact Hin]. set_solver. }
  unfold dotted. pose proof (Hc p Hp). pose proof (Hc q Hq). pose proof (Hc r Hr). pose proof (Hc s Hs). set_solver.
Qed.

(** An IPv4-mapped address, in dotted form. *)
Lemma mapped_parse d : length d = 4%nat →
  parse6 (bytes_of_string ("::ffff:" +:+ string4 d)) = Some (v4InV6Prefix ++ d) ∧
  (x25 ∉ bytes_of_string ("::ffff:" +:+ string4 d)).
Proof.
  intros Hd. destruct (string4_dotted d Hd) as (p & q & r & s & Ht & (Hp & Hq & Hr & Hs) & Hv).
  rewrite bytes_of_string_app, Ht. destruct (dotted_clean p q r s) as [Hc _]; [done..|].
  split; [|change (bytes_of_string "::ffff:") with [x3a; x3a; x66; x66; x66; x66; x3a]; set_solver].
  destruct (dec8_clean p Hp) as [Hf Hne].
  destruct (dec8_group p (x2e :: bytes_of_string (dec8 q) ++ x2e :: bytes_of_string (dec8 r) ++ x2e :: bytes_of_string (dec8 s)) Hp)
    as (off & v & Ho & Hg); [by intros b [= <-]|].
  pose proof (dotted_read p q r s Hp Hq Hr Hs) as Hd4. rewrite <- Hv in Hd4.
  assert (v6_groups 7 [xff; xff] (Some 0%nat) (dotted p q r s) = Some ([xff; xff] ++ d, Some 0%nat, [])) as Hlast.
  { fold (dotted p q r s) in Hg. cbn [v6_groups]. rewrite Hg. cbn [mbind option_bind]. rewrite decide_False by lia.
    rewrite decide_True by done. rewrite decide_False by (by intros [? ?]). rewrite decide_False by (simpl; lia). by rewrite Hd4. }
  assert (∃ c l, dotted p q r s = c :: l ∧ c ≠ x3a) as (c & l & Hcl & Hc3).
  { unfold dotted. destruct (bytes_of_string (dec8 p)) as [|c l]; [done|]. inversion Hf; subst. eexists c, _.
    split; [done|set_solver]. }
  unfold parse6. change (bytes_of_string "::ffff:" ++ dotted p q r s) with (x3a :: x3a :: bytes_of_string (hex16 65535) ++ x3a :: dotted p q r s).
  cbv beta iota zeta. rewrite decide_False by (by intros [? ?]). rewrite Hcl, v6_next by (done || lia).
  rewrite <- Hcl. change ([] ++ group_bytes 65535) with [xff; xff]. rewrite Hlast. cbn [mbind option_bind].
  rewrite decide_False by (by intros ?). unfold expand. rewrite length_app, Hd. done.
Qed.

(** ** Theorem *)

Definition wf_addr (a : addr) : Prop :=
  match a with
  | AddrZero => False
  | Addr4 b => length b = 4%nat
  | Addr6 b => length b = 16%nat
  | Addr6Zone b zone => length b = 16%nat ∧ zone ≠ ""%string
  end.

Lemma text6_parse b : length b = 16%nat → parse6 (bytes_of_string (text6 b)) = Some b ∧
  (x25 ∉ bytes_of_string (text6 b)) ∧ kind_of (bytes_of_string (text6 b)) = Some x3a.
Proof.
  intros Hb. unfold text6. case_decide as Hm.
  - destruct (mapped_parse (drop 12 b)) as [Hp Hc]; [rewrite length_drop; lia|].
    rewrite <- Hm, take_drop in Hp. split_and!; [done..|]. by rewrite bytes_of_string_app.
  - pose proof (string6_shape b Hb) as Hs. split; [by apply shape6_parse|by eapply shape6_clean].
Qed.

(** What is read is well formed. *)
Lemma v4_fields_length k val fields l ip : v4_fields k val fields l = Some ip → (length fields ≤ 3)%nat → length ip = 4%nat.
Proof.
  revert k val fields. induction l as [|b l IH]; intros k val fields; simpl.
  - case_decide; [done|]. intros [= <-] ?. rewrite length_app. simpl. lia.
  - destruct (dec_digit b).
    + repeat case_match; [done|done|]. apply IH.
    + repeat case_decide; try done. intros Hr Hl. eapply IH; [exact Hr|]. rewrite length_app. simpl. lia.
Qed.
Lemma v6_groups_length n ip ell l ip' ell' rest : v6_groups n ip ell l = Some (ip', ell', rest) →
  (length ip + 2 * n = 16)%nat → (∀ k, ell = Some k → (k ≤ length ip)%nat) →
  (length ip' ≤ 16)%nat ∧ (∀ k, ell' = Some k → (k ≤ length ip')%nat).
Proof.
  revert ip ell l. induction n as [|n IH]; intros ip ell l; cbn [v6_groups].
  { intros [= <- <- <-] ? ?. split; [lia|done]. }
  intros Hr Hn He. apply bind_Some in Hr as ([[off acc] l1] & _ & Hr). case_decide; [done|]. case_decide.
  { repeat (case_decide; [done|]). apply bind_Some in Hr as (f4 & Hf & [= <- <- <-]).
    apply v4_fields_length in Hf; [|simpl; lia]. rewrite length_app. split; [lia|].
    intros k Hk. specialize (He k Hk). lia. }
  cbv zeta in Hr. assert (length (ip ++ group_bytes acc) = (length ip + 2)%nat) as Hl by (by rewrite length_app).
  destruct l1 as [|c l2].
  { injection Hr as <- <- <-. rewrite Hl. split; [lia|]. intros k Hk. specialize (He k Hk). lia. }
  case_decide; [done|]. destruct l2 as [|c2 l3]; [done|]. case_decide.
  - destruct ell; [done|]. case_decide.
    { injection Hr as <- <- <-. rewrite Hl. split; [lia|]. intros k [= <-]. lia. }
    eapply IH; [exact Hr|lia|]. intros k [= <-]. lia.
  - eapply IH; [exact Hr|lia|]. intros k Hk. specialize (He k Hk). lia.
Qed.
Lemma parse6_length l ip : parse6 l = Some ip → length ip = 16%nat.
Proof.
  unfold parse6. destruct (match l with x3a :: x3a :: l' => _ | _ => _ end) as [ell l1] eqn:Hell.
  assert (∀ k, ell = Some k → (k ≤ length (@nil byte))%nat) as Hk0.
  { intros k ->. destruct l as [|b [|b' l]]; simpl in Hell; repeat case_match; simplify_eq; simpl; lia. }
  case_decide; [by intros [= <-]|]. intros Hp. apply bind_Some in Hp as ([[ip' ell'] rest] & Hv & Hp).
  apply v6_groups_length in Hv as [Hl Hk]; [|simpl; lia|done]. case_decide; [done|]. unfold expand in Hp. case_decide.
  - apply bind_Some in Hp as (k & -> & [= <-]). rewrite !length_app, length_replicate, length_take, length_drop.
    specialize (Hk k eq_refl). lia.
  - destruct ell'; [done|]. injection Hp as <-. lia.
Qed.
Lemma ParseAddr_wf s a : ParseAddr s = Some a → wf_addr a.
Proof.
  unfold ParseAddr. destruct (kind_of _) as [k|]; [|done].
  assert (∀ o, parseIPv4Fields (bytes_of_string s) = o → Addr4 <$> o = Some a → wf_addr a) as H4.
  { intros [ip|] Hip [= <-]. simpl. eapply v4_fields_length; [exact Hip|]. simpl. lia. }
  assert (parseIPv6 (bytes_of_string s) = Some a → wf_addr a) as H6.
  { unfold parseIPv6. destruct (match cut _ _ with Some _ => _ | None => _ end) as [l zone].
    case_decide; [done|]. intros (ip & Hip & [= <-])%bind_Some. apply parse6_length in Hip. unfold WithZone. by case_decide. }
  destruct k; try done. by apply H4.
Qed.
Lemma ParseIP_length s ip : ParseIP s = Some ip → length ip = 16%nat.
Proof.
  unfold ParseIP. intros (a & Ha%ParseAddr_wf & Hip)%bind_Some. case_decide; [done|]. injection Hip as <-.
  destruct a; simpl in *; [done|by rewrite Ha|done|by destruct Ha].
Qed.
Lemma ParseAddrPort_range s a p : ParseAddrPort s = Some (a, p) → wf_addr a ∧ 0 ≤ p < 2 ^ 16.
Proof.
  unfold ParseAddrPort. intros ([[ip port] v6] & _ & Hr)%bind_Some. apply bind_Some in Hr as (p16 & Hp & Hr).
  apply bind_Some in Hr as (a' & Ha%ParseAddr_wf & Hr). case_match; [done|]. injection Hr as <- <-.
  split; [done|]. apply ParseUint_range in Hp; lia.
Qed.

(** A valid address is read back from its text: [ParseAddr] inverts [Addr.String]. *)
Theorem ParseAddr_String (a : addr) : wf_addr a → ParseAddr (Addr_String a) = Some a.
Proof.
  destruct a as [|b|b|b zone]; simpl; [done|..]; unfold ParseAddr.
  - intros Hb. destruct (string4_dotted b Hb) as (p & q & r & s & -> & (Hp & Hq & Hr & Hs) & ->).
    destruct (dotted_clean p q r s) as [_ ->]; [done..|]. by rewrite dotted_read.
  - intros Hb. destruct (text6_parse b Hb) as (Hp & Hc & ->). unfold parseIPv6.
    rewrite cut_none by done. simpl. by rewrite Hp.
  - intros [Hb Hz]. destruct (text6_parse b Hb) as (Hp & Hc & Hk).
    rewrite !bytes_of_string_app. change (bytes_of_string "%") with [x25]. cbn [app].
    rewrite (kind_of_app _ _ _ Hk). unfold parseIPv6. rewrite cut_here by done. cbv beta iota.
    assert (string_of_bytes (bytes_of_string zone) = zone) as Hs by apply String.string_of_list_byte_of_string.
    rewrite decide_False by (intros [= Hn]; rewrite Hn in Hs; by subst zone). rewrite Hp. cbn [mbind option_bind from_option id].
    rewrite Hs. unfold WithZone. by rewrite decide_False.
Qed.

(** [net.ParseIP] inverts [net.IP.String] on IPv6 addresses. *)
Lemma ParseIP_String ip : length ip = 16%nat → To4 ip = None → ParseIP (IP_String ip) = Some ip.
Proof.
  intros Hl Hv4. assert (IP_String ip = Addr_String (Addr6 ip)) as -> by (unfold IP_String; by rewrite Hl, Hv4).
  unfold ParseIP. by rewrite ParseAddr_String.
Qed.

(** What the texts denote. *)
Example addrs_read :
  ParseAddr "192.0.2.7" = Some (Addr4 [xc0; x00; x02; x07]) ∧
  ParseAddr "fd00::7" = Some (Addr6 (xfd :: replicate 14 x00 ++ [x07])) ∧
  ParseAddr "::" = Some (Addr6 IPv6unspecified) ∧ ParseAddr "1::" = Some (Addr6 (x00 :: x01 :: replicate 14 x00)) ∧
  ParseAddr "::ffff:10.0.1.200" = Some (Addr6 (v4InV6Prefix ++ [x0a; x00; x01; xc8])) ∧
  ParseAddr "1:2:3:4:5:6:7.8.9.10" = Some (Addr6 [x00; x01; x00; x02; x00; x03; x00; x04; x00; x05; x00; x06; x07; x08; x09; x0a]) ∧
  ParseAddr "fe80::1%eth0" = Some (Addr6Zone ([xfe; x80] ++ replicate 13 x00 ++ [x01]) "eth0").
Proof. vm_compute. done. Qed.

Example addrs_refused :
  Forall (λ s, ParseAddr s = None)
    [""; "1"; "1.2.3"; "1.2.3.4.5"; "1..2.3"; "01.2.3.4"; "256.1.1.1"; "%eth0"; "fe80::1%"; "1::2::3"; "12345::";
     "1:2:3:4:5:6:7"; "1:2:3:4:5:6:7:8:9"; "::1:2:3:4:5:6:7:8"; "1:"; ":1"; "g::"; "1:2:3:4:5:6:7:8.9.10.11"]%string.
Proof. repeat constructor. Qed.

Example ports_read :
  ParseAddrPort "[::1]:9500" = Some (Addr6 IPv6loopback, 9500) ∧ ParseAddrPort "127.0.0.1:80" = Some (Addr4 [x7f; x00; x00; x01], 80) ∧
  ParseAddrPort "::1:80" = None ∧ ParseAddrPort "[127.0.0.1]:80" = None ∧ ParseAddrPort "[::1]:65536" = None ∧
  ParseAddrPort "[::1]" = None ∧ ParseIP "fe80::1%eth0" = None.
Proof. vm_compute. done. Qed.

Example hosts_split :
  SplitHostPort "up1:9300" = None ∧ SplitHostPort "[::1]:9300" = None ∧ SplitHostPort ":" = None ∧
  SplitHostPort "up1" = Some missingPort ∧ SplitHostPort "::1:9300" = Some tooManyColons ∧
  SplitHostPort "[::1]" = Some missingPort ∧ SplitHostPort "[::1]x:1" = Some missingPort ∧
  SplitHostPort "[::1:9300" = Some (ErrText "missing ']' in address").
Proof. vm_compute. done. Qed.

End GoAddr.
