(* ===== verification/GoNum.v ===== *)
(** * Reading numbers and durations

    [strconv.ParseUint] and [ParseInt] with base 0, as the flag package calls them,
    [strconv.ParseFloat] and [time.ParseDuration]. [None] is an error, of syntax or
    of range.

    A float64 is the exact value of the numeral, rounded to nearest, ties to even;
    the duration parser follows the code of the package, whose fractions go through
    float64 arithmetic. *)

From S2P Require Import Prelude External CacheStore GoText.
From Stdlib Require Import Strings.Byte.
From Stdlib Require Floats.SpecFloat.
Import External CacheStore GoText.

Module GoNum.

(** *** Underscores *)

Inductive saw := SawStart | SawDigit | SawUnder | SawOther.
#[global] Instance saw_eq_dec : EqDecision saw.
Proof. solve_decision. Defined.

Definition is_digit (base : Z) (b : byte) : bool :=
  match digit b with Some d => d <? base | None => false end.

Fixpoint under_ok (hex : bool) (last : saw) (l : bytes) : bool :=
  match l with
  | [] => negb (bool_decide (last = SawUnder))
  | b :: l' =>
      if is_digit (if hex then 16 else 10) b then under_ok hex SawDigit l'
      else if decide (b = x5f) then bool_decide (last = SawDigit) && under_ok hex SawUnder l'
      else negb (bool_decide (last = SawUnder)) && under_ok hex SawOther l'
  end.

Definition strip_sign (l : bytes) : bool * bytes :=
  match l with x2d :: l' => (true, l') | x2b :: l' => (false, l') | _ => (false, l) end.

(** Underscores only between digits, or between a base prefix and a digit. *)
Definition underscoreOK (l : bytes) : bool :=
  match (strip_sign l).2 with
  | x30 :: c :: l' =>
      if decide (lower_byte c ∈ [x62; x6f; x78]) then under_ok (bool_decide (lower_byte c = x78)) SawDigit l'
      else under_ok false SawStart (x30 :: c :: l')
  | l' => under_ok false SawStart l'
  end.

(** *** Integers with base 0 *)

(** The base that the prefix of a numeral tells, and the digits. *)
Definition base_prefix (l : bytes) : Z * bytes :=
  match l with
  | x30 :: c :: d :: l' =>
      if decide (lower_byte c = x62) then (2, d :: l')
      else if decide (lower_byte c = x6f) then (8, d :: l')
      else if decide (lower_byte c = x78) then (16, d :: l')
      else (8, c :: d :: l')
  | x30 :: l' => (8, l')
  | _ => (10, l)
  end.

Definition ParseUint0 (l : bytes) : option Z :=
  if decide (l = []) then None else
  let '(base, l') := base_prefix l in
  n ← digits base 0 (filter (λ b, b ≠ x5f) l');
  if bool_decide (x5f ∈ l') && negb (underscoreOK l) then None
  else if n <? 2 ^ 64 then Some n else None.

Definition ParseInt0 (l : bytes) : option Z :=
  let '(neg, l') := strip_sign l in
  n ← ParseUint0 l';
  if neg then (if n <=? 2 ^ 63 then Some (- n) else None)
  else (if n <? 2 ^ 63 then Some n else None).

(** *** strconv.ParseFloat *)

(** The float64 nearest to [n / d], for [n] not negative and [d] positive: the
    quotient is taken to more bits than the format has, with a sticky last bit. *)
Definition round_ratio (neg : bool) (n d : Z) : float64 :=
  if n =? 0 then SpecFloat.S754_zero neg else
  let k := Z.max 0 (66 + Z.log2 d - Z.log2 n) in
  let q := n * 2 ^ k / d in
  let m := 2 * q + (if (n * 2 ^ k) mod d =? 0 then 0 else 1) in
  SpecFloat.binary_normalize 53 1024 (if neg then - m else m) (- k - 1) neg.

(** The digits of a mantissa: their value, how many follow the dot, whether there
    was any, and the rest. *)
Fixpoint mantissa (base : Z) (dot : bool) (m frac : Z) (seen : bool) (l : bytes) : Z * Z * bool * bytes :=
  match l with
  | [] => (m, frac, seen, [])
  | c :: l' =>
      if decide (c = x5f) then mantissa base dot m frac seen l'
      else if decide (c = x2e) then (if dot then (m, frac, seen, l) else mantissa base true m frac seen l')
      else match digit c with
           | Some d => if d <? base
                       then mantissa base dot (m * base + d) (if dot then frac + 1 else frac) true l'
                       else (m, frac, seen, l)
           | None => (m, frac, seen, l)
           end
  end.

(** The digits of an exponent, up to five of them counted, and the rest. *)
Fixpoint exponent (e : Z) (l : bytes) : Z * bytes :=
  match l with
  | [] => (e, [])
  | c :: l' =>
      if decide (c = x5f) then exponent e l'
      else match digit c with
           | Some d => if d <? 10 then exponent (if e <? 10000 then e * 10 + d else e) l' else (e, l)
           | None => (e, l)
           end
  end.

(** The exponent with its letter and sign, and the rest; [None] is an error. *)
Definition read_exponent (letter : byte) (required : bool) (l : bytes) : option (Z * bytes) :=
  match l with
  | c :: l1 =>
      if decide (lower_byte c = letter) then
        let '(neg, l2) := strip_sign l1 in
        match l2 with
        | d :: _ => if is_digit 10 d then let '(e, rest) := exponent 0 l2 in Some ((if neg then - e else e), rest)
                    else None
        | [] => None
        end
      else if required then None else Some (0, l)
  | [] => if required then None else Some (0, [])
  end.

(** A finite numeral; the whole text has to be one. *)
Definition parse_finite (l : bytes) : option float64 :=
  let '(neg, l1) := strip_sign l in
  let '(hex, l2) :=
    match l1 with
    | x30 :: c :: d :: l' => if decide (lower_byte c = x78) then (true, d :: l') else (false, l1)
    | _ => (false, l1)
    end in
  let base := if hex then 16 else 10 in
  let '(m, frac, seen, l3) := mantissa base false 0 0 false l2 in
  if negb seen then None else
  '(e, rest) ← read_exponent (if hex then x70 else x65) hex l3;
  if bool_decide (x5f ∈ l) && negb (underscoreOK l) then None else
  if decide (rest ≠ []) then None else
  let ex := if hex then e - 4 * frac else e - frac in
  let b := if hex then 2 else 10 in
  let f := if 0 <=? ex then round_ratio neg (m * b ^ ex) 1 else round_ratio neg m (b ^ (- ex)) in
  match f with SpecFloat.S754_infinity _ => None | _ => Some f end.

Definition ParseFloat (s : string) : option float64 :=
  let l := bytes_of_string s in
  let '(neg, l1) := strip_sign l in
  if decide (lower_byte <$> l1 ∈ [bytes_of_string "inf"; bytes_of_string "infinity"])
  then Some (SpecFloat.S754_infinity neg)
  else if decide (lower_byte <$> l = bytes_of_string "nan") then Some SpecFloat.S754_nan
  else parse_finite l.

(** *** time.ParseDuration *)

(** [leadingInt]: [None] on overflow. *)
Fixpoint leadingInt (x : Z) (l : bytes) : option (Z * bytes) :=
  match l with
  | [] => Some (x, [])
  | c :: l' =>
      match digit c with
      | Some d =>
          if d <? 10 then
            if 2 ^ 63 / 10 <? x then None else
            let x := x * 10 + d in
            if 2 ^ 63 <? x then None else leadingInt x l'
          else Some (x, l)
      | None => Some (x, l)
      end
  end.

(** [leadingFraction]: digits that would overflow are dropped. *)
Fixpoint leadingFraction (x : Z) (scale : float64) (overflow : bool) (l : bytes) : Z * float64 * bytes :=
  match l with
  | [] => (x, scale, [])
  | c :: l' =>
      match digit c with
      | Some d =>
          if d <? 10 then
            if overflow || ((2 ^ 63 - 1) / 10 <? x) then leadingFraction x scale true l' else
            let y := x * 10 + d in
            if 2 ^ 63 <? y then leadingFraction x scale true l'
            else leadingFraction y (SpecFloat.SFmul 53 1024 scale (float_of_Z 10)) false l'
          else (x, scale, l)
      | None => (x, scale, l)
      end
  end.

Definition unit_end (b : byte) : bool := bool_decide (b = x2e) || is_digit 10 b.
Fixpoint span_unit (l : bytes) : bytes * bytes :=
  match l with
  | [] => ([], [])
  | c :: l' => if unit_end c then ([], l) else let '(u, r) := span_unit l' in (c :: u, r)
  end.

(** [unitMap]: the micro sign U+00B5 and the letter mu U+03BC both serve. *)
Definition unitMap : list (bytes * Z) :=
  [([x6e; x73], 1); ([x75; x73], 1000); ([xc2; xb5; x73], 1000); ([xce; xbc; x73], 1000); ([x6d; x73], 1000000);
   ([x73], 1000000000); ([x6d], 60000000000); ([x68], 3600000000000)].
Definition unit_of (u : bytes) : option Z := snd <$> List.find (λ p, bool_decide (p.1 = u)) unitMap.

(** The number of nanoseconds of a fraction: the conversion of a float64 in range. *)
Definition fraction_ns (f unit : Z) (scale : float64) : Z :=
  float_to_int (λ _, 0)
    (SpecFloat.SFmul 53 1024 (float_of_Z f) (SpecFloat.SFdiv 53 1024 (float_of_Z unit) scale)).

(** One component of a duration, [v.f] of a unit, and the rest. *)
Definition component (l : bytes) : option (Z * bytes) :=
  if negb (match l with c :: _ => unit_end c | [] => false end) then None else
  '(v, l1) ← leadingInt 0 l;
  let pre := bool_decide (length l1 ≠ length l) in
  let '(f, scale, l2, post) :=
    match l1 with
    | x2e :: l1' => let '(f, scale, l2) := leadingFraction 0 (float_of_Z 1) false l1' in
                    (f, scale, l2, bool_decide (length l2 ≠ length l1'))
    | _ => (0, float_of_Z 1, l1, false)
    end in
  if negb pre && negb post then None else
  let '(u, l3) := span_unit l2 in
  if decide (u = []) then None else
  unit ← unit_of u;
  if 2 ^ 63 / unit <? v then None else
  let v := v * unit in
  let v := if 0 <? f then v + fraction_ns f unit scale else v in
  if 2 ^ 63 <? v then None else Some (v, l3).

(** The sum is a uint64 and checked after it is taken. Every component is at least
    one byte, so the length is fuel enough. *)
Fixpoint components (fuel : nat) (d : Z) (l : bytes) : option Z :=
  match l, fuel with
  | [], _ => Some d
  | _, O => None
  | _, S fuel' =>
      '(v, l') ← component l;
      let d := (d + v) mod 2 ^ 64 in
      if 2 ^ 63 <? d then None else components fuel' d l'
  end.

Definition ParseDuration (s : string) : option Z :=
  let '(neg, l) := strip_sign (bytes_of_string s) in
  if decide (l = [x30]) then Some 0 else
  if decide (l = []) then None else
  d ← components (length l) 0 l;
  if neg then Some (- d) else if 2 ^ 63 - 1 <? d then None else Some d.

(** ** Facts *)

Lemma digits_nonneg base acc l n : 0 < base → 0 ≤ acc → digits base acc l = Some n → 0 ≤ n.
Proof. intros Hb Ha Hd. apply digits_lower in Hd; lia. Qed.

Lemma ParseUint0_range l n : ParseUint0 l = Some n → 0 ≤ n < 2 ^ 64.
Proof.
  unfold ParseUint0. case_decide; [done|]. destruct (base_prefix l) as [base l'] eqn:Hb.
  assert (0 < base) as Hbase by (unfold base_prefix in Hb; repeat case_match; simplify_eq; lia).
  intros (m & Hm & Hr)%bind_Some. destruct (_ && _); [done|]. destruct (m <? 2 ^ 64) eqn:Hlt; [|done].
  injection Hr as <-. apply digits_nonneg in Hm; [|lia..]. lia.
Qed.

Lemma components_range fuel d l n : 0 ≤ d ≤ 2 ^ 63 → components fuel d l = Some n → 0 ≤ n ≤ 2 ^ 63.
Proof.
  revert d l. induction fuel as [|fuel IH]; intros d l Hd; destruct l as [|c l]; simpl; try naive_solver.
  intros ([v l'] & _ & Hr)%bind_Some. destruct (_ <? _) eqn:Hlt; [done|]. eapply IH; [|exact Hr].
  pose proof (Z.mod_pos_bound (d + v) (2 ^ 64)). lia.
Qed.

(** A duration is an int64. *)
Lemma ParseDuration_range s d : ParseDuration s = Some d → - 2 ^ 63 ≤ d < 2 ^ 63.
Proof.
  unfold ParseDuration. destruct (strip_sign _) as [neg l]. case_decide; [intros [= <-]; lia|].
  case_decide; [done|]. intros (n & Hn & Hr)%bind_Some. apply components_range in Hn; [|lia].
  destruct neg; [injection Hr as <-; lia|]. destruct (_ <? n) eqn:Hlt; [done|]. injection Hr as <-. lia.
Qed.

(** *** Whole numbers of a unit *)

Lemma leadingInt_digits acc l n u : 0 ≤ acc → digits 10 acc l = Some n → (∀ b, head u = Some b → is_digit 10 b = false) →
  acc ≤ 2 ^ 63 → leadingInt acc (l ++ u) = if n <=? 2 ^ 63 then Some (n, u) else None.
Proof.
  intros Ha Hd Hu. revert acc Ha Hd. induction l as [|c l IH]; intros acc Ha Hd Hle.
  - simpl in Hd. injection Hd as <-. rewrite (proj2 (Z.leb_le _ _) Hle). destruct u as [|b u]; [done|].
    specialize (Hu b eq_refl). unfold is_digit in Hu. simpl. destruct (digit b); [by rewrite Hu|done].
  - simpl in Hd. cbn [app leadingInt]. destruct (digit c) as [d|] eqn:Hc; [|done]. destruct (d <? 10) eqn:Hd10; [|done].
    assert (0 ≤ d) as Hd0. { revert Hc. unfold digit. repeat case_match; intros; simplify_eq; lia. }
    pose proof (digits_lower 10 (acc * 10 + d) l n ltac:(lia) ltac:(lia) Hd).
    change (2 ^ 63 / 10) with 922337203685477580.
    destruct (922337203685477580 <? acc) eqn:H1; [destruct (n <=? 2 ^ 63) eqn:?; [lia|done]|].
    destruct (2 ^ 63 <? acc * 10 + d) eqn:H2; [destruct (n <=? 2 ^ 63) eqn:?; [lia|done]|].
    apply IH; [lia|done|lia].
Qed.

Lemma span_unit_all u : Forall (λ b, unit_end b = false) u → span_unit u = (u, []).
Proof. induction 1 as [|b u Hb _ IH]; [done|]. simpl. by rewrite Hb, IH. Qed.

Lemma unit_of_spec u unit : unit_of u = Some unit → 0 < unit ∧ u ≠ [] ∧ Forall (λ b, unit_end b = false) u.
Proof.
  unfold unit_of. intros ([u' un] & [Hin Hu]%find_some & ->)%fmap_Some. apply bool_decide_eq_true in Hu as <-. simpl.
  apply list_elem_of_In in Hin. unfold unitMap in Hin.
  repeat (apply elem_of_cons in Hin as [[= -> ->]|Hin]; [split_and!; [lia|done|repeat constructor]|]).
  by apply not_elem_of_nil in Hin.
Qed.

Lemma digits_head l n : l ≠ [] → digits 10 0 l = Some n → ∃ c l', l = c :: l' ∧ is_digit 10 c = true.
Proof.
  intros Hl Hd. destruct l as [|c l]; [done|]. exists c, l. split; [done|]. simpl in Hd. unfold is_digit.
  by destruct (digit c) as [d|]; [destruct (d <? 10)|].
Qed.

(** A whole number of a unit is read exactly, and refused exactly when it does not
    fit an int64 of nanoseconds. *)
Theorem ParseDuration_exact (l u : bytes) (n unit : Z) :
  l ≠ [] → digits 10 0 l = Some n → unit_of u = Some unit →
  ParseDuration (string_of_bytes (l ++ u)) = if n * unit <? 2 ^ 63 then Some (n * unit) else None.
Proof.
  intros Hl Hd Hu. destruct (unit_of_spec u unit Hu) as (Hpos & Hne & Hf).
  destruct (digits_head l n Hl Hd) as (c & l' & Hcl & Hc). pose proof (digits_nonneg 10 0 l n ltac:(lia) ltac:(lia) Hd) as Hn.
  assert (∀ b, head u = Some b → is_digit 10 b = false) as Hhead.
  { intros b Hb. destruct u as [|b' u']; [done|]. injection Hb as ->. inversion Hf as [|? ? Hue]; subst.
    unfold unit_end in Hue. by apply orb_false_iff in Hue as [_ ?]. }
  unfold ParseDuration. rewrite bytes_of_string_of_bytes.
  assert (strip_sign (l ++ u) = (false, l ++ u)) as ->.
  { rewrite Hcl. destruct c; try done. }
  assert (length (l ++ u) ≠ 1%nat) as Hlen.
  { rewrite length_app, Hcl. destruct u; [done|]. simpl. lia. }
  rewrite decide_False by (intros Hx; by rewrite Hx in Hlen). rewrite decide_False by (intros Hx; by rewrite Hcl in Hx).
  assert (component (l ++ u) = if n * unit <=? 2 ^ 63 then Some (n * unit, []) else None) as Hcomp.
  { unfold component. replace (match l ++ u with c :: _ => unit_end c | [] => false end) with true.
    2:{ rewrite Hcl. simpl. unfold unit_end. by rewrite Hc, orb_true_r. }
    cbn [negb]. rewrite (leadingInt_digits 0 l n u) by (done || lia). destruct (n <=? 2 ^ 63) eqn:Hn63; cbn [mbind option_bind].
    2:{ destruct (n * unit <=? 2 ^ 63) eqn:?; [nia|done]. }
    rewrite bool_decide_true by (rewrite length_app, Hcl; simpl; lia).
    replace (match u with x2e :: l1' => _ | _ => (0, float_of_Z 1, u, false) end) with (0, float_of_Z 1, u, false).
    2:{ destruct u as [|b u']; [done|]. inversion Hf as [|? ? Hb]; subst. by destruct b. }
    cbn [negb andb]. rewrite span_unit_all by done. rewrite decide_False by done. rewrite Hu. cbn [mbind option_bind].
    change (0 <? 0) with false. cbv iota. destruct (2 ^ 63 / unit <? n) eqn:Hq.
    - destruct (n * unit <=? 2 ^ 63) eqn:?; [|done]. exfalso.
      assert (n ≤ 2 ^ 63 / unit) by (apply Z.div_le_lower_bound; lia). lia.
    - assert (n * unit ≤ 2 ^ 63) as Hle.
      { apply Z.ltb_ge in Hq. pose proof (Z.mul_div_le (2 ^ 63) unit Hpos). nia. }
      rewrite (proj2 (Z.leb_le _ _) Hle). by destruct (2 ^ 63 <? n * unit) eqn:?; [lia|]. }
  assert (∃ fuel, length (l ++ u) = S fuel) as [fuel ->] by (rewrite Hcl; simpl; eauto).
  assert (∃ b t, l ++ u = b :: t) as (b & t & Hbt) by (rewrite Hcl; simpl; eauto).
  rewrite Hbt in Hcomp |- *. cbn [components]. rewrite Hcomp.
  destruct (n * unit <=? 2 ^ 63) eqn:Hle; cbn [mbind option_bind].
  - rewrite Z.add_0_l, Z.mod_small by lia. destruct (2 ^ 63 <? n * unit) eqn:?; [lia|].
    replace (components fuel (n * unit) []) with (Some (n * unit)) by (by destruct fuel). cbn [mbind option_bind].
    destruct (2 ^ 63 - 1 <? n * unit) eqn:?, (n * unit <? 2 ^ 63) eqn:?; try lia; done.
  - by destruct (n * unit <? 2 ^ 63) eqn:?; [lia|].
Qed.

Example ints_read :
  (ParseInt0 ∘ bytes_of_string <$> ["42"; "-0x2A"; "0b101"; "0o17"; "017"; "1_000"; "0"; "-9223372036854775808"]%string) =
    [Some 42; Some (-42); Some 5; Some 15; Some 15; Some 1000; Some 0; Some (- 2 ^ 63)] ∧
  (ParseInt0 ∘ bytes_of_string <$> [""; "-"; "_1"; "1__0"; "08"; "9223372036854775808"; "1.0"; "0x_"]%string) = replicate 8 None.
Proof. split; vm_compute; reflexivity. Qed.

Example floats_read :
  ParseFloat "100" = Some (float_of_Z 100) ∧ ParseFloat "1e2" = Some (float_of_Z 100) ∧
  ParseFloat "0x1p-1" = Some (SpecFloat.SFdiv 53 1024 (float_of_Z 1) (float_of_Z 2)) ∧
  ParseFloat "0.1" = Some (SpecFloat.SFdiv 53 1024 (float_of_Z 1) (float_of_Z 10)) ∧
  ParseFloat "9007199254740993" = Some (float_of_Z 9007199254740992) ∧
  ParseFloat "-Inf" = Some (SpecFloat.S754_infinity true) ∧ ParseFloat "NaN" = Some SpecFloat.S754_nan ∧
  ParseFloat "1e-400" = Some (SpecFloat.S754_zero false) ∧
  (ParseFloat <$> [""; "1e400"; "1e"; "."; "0x1"; "+nan"; "1_"; "1.2.3"; "infin"]%string) = replicate 9 None.
Proof. split_and!; vm_compute; reflexivity. Qed.

Example durations_read :
  (ParseDuration <$> ["60s"; "1h30m"; "1.5h"; "-250ms"; "0"; "10us"; ".5s"; "2562047h47m16.854775807s"]%string) =
    [Some 60000000000; Some 5400000000000; Some 5400000000000; Some (-250000000); Some 0; Some 10000; Some 500000000;
     Some (2 ^ 63 - 1)] ∧
  (ParseDuration <$> [""; "60"; "10 m"; "s"; "1.s."; "1d"; "9223372036854775808ns"; "-"; "."]%string) = replicate 9 None.
Proof. split; vm_compute; reflexivity. Qed.

End GoNum.
