(* ===== verification/GoFlag.v ===== *)
(** * The flag package

    flag.CommandLine as src/config/config.go uses it: a set of flags with the kind
    of their values, and [Parse] over the arguments of the process, which stops at
    the first argument that is no flag and ends the process on an error (the
    ExitOnError policy; here [None], also for -h). Every occurrence of a flag is
    set, so a value that does not parse is an error even when a later one replaces
    it. *)

From S2P Require Import Prelude External CacheStore GoText GoAddr GoNum.
From Stdlib Require Import Strings.Byte.
Import External CacheStore GoText GoAddr GoNum.

Module GoFlag.

Inductive kind := KString | KInt | KUint | KBool | KFloat64 | KDuration.
#[global] Instance kind_eq_dec : EqDecision kind.
Proof. solve_decision. Defined.

(** [Value.Set] of each kind. *)
Definition FlagInt (s : string) : option Z := ParseInt0 (bytes_of_string s).
Definition FlagUint (s : string) : option Z := ParseUint0 (bytes_of_string s).
Definition type_of (k : kind) : Type :=
  match k with KString => string | KInt | KUint | KDuration => Z | KBool => bool | KFloat64 => float64 end.
Definition set_value (k : kind) : string → option (type_of k) :=
  match k with
  | KString => Some
  | KInt => FlagInt
  | KUint => FlagUint
  | KBool => ParseBool
  | KFloat64 => ParseFloat
  | KDuration => ParseDuration
  end.
Definition settable (k : kind) (v : string) : bool :=
  match set_value k v with Some _ => true | None => false end.

Section flagset.
(** The flags that are defined, by name. *)
Context (formal : list (string * kind)).

Definition kind_named (name : string) : option kind := snd <$> List.find (λ p, bool_decide (p.1 = name)) formal.

(** The name of an argument -name, --name, -name=value: [inl false] when it is no
    flag, [inl true] when it ends the flags, and an error ([None]) when it is badly
    formed. *)
Definition flag_name (l : bytes) : option (bool + bytes * option bytes) :=
  match l with
  | x2d :: x2d :: [] => Some (inl true)
  | x2d :: c :: l' =>
      let name := if decide (c = x2d) then l' else c :: l' in
      match name with
      | [] => None
      | n0 :: rest =>
          if decide (n0 = x2d ∨ n0 = x3d) then None else
          match cut x3d rest with
          | Some (p, v) => Some (inr (n0 :: p, Some v))
          | None => Some (inr (name, None))
          end
      end
  | _ => Some (inl false)
  end.

(** The values that were set, in order. *)
Fixpoint Parse (args : list string) : option (list (string * string)) :=
  match args with
  | [] => Some []
  | s :: args1 =>
      match flag_name (bytes_of_string s) with
      | None => None
      | Some (inl _) => Some []
      | Some (inr (name, value)) =>
          let name := string_of_bytes name in
          k ← kind_named name;
          let set v rest := if settable k v then (λ l, (name, v) :: l) <$> rest else None in
          match k, value with
          | _, Some v => set (string_of_bytes v) (Parse args1)
          | KBool, None => set "true"%string (Parse args1)
          | _, None =>
              match args1 with
              | [] => None
              | v :: args2 => set v (Parse args2)
              end
          end
      end
  end.

(** The last value a flag was set to. *)
Definition arg_of (set : list (string * string)) (name : string) : option string :=
  last (omap (λ p, if decide (p.1 = name) then Some p.2 else None) set).

(** ** Facts *)

(** Whatever was set is a value of the flag's kind. *)
Definition typed (p : string * string) : Prop := ∃ k, kind_named p.1 = Some k ∧ settable k p.2 = true.

Lemma Parse_typed args set : Parse args = Some set → Forall typed set.
Proof.
  revert set. induction args as [args IH] using (induction_ltof1 _ (@length string)); unfold ltof in IH.
  intros set. destruct args as [|s args1]; cbn [Parse]; [intros [= <-]; constructor|].
  destruct (flag_name _) as [[|[name value]]|]; [intros [= <-]; constructor| |done].
  intros (k & Hk & Hs)%bind_Some. cbv zeta in Hs.
  assert (∀ v rest, (if settable k v then (λ l, (string_of_bytes name, v) :: l) <$> rest else None) = Some set →
    (∀ l, rest = Some l → Forall typed l) → Forall typed set) as Hset.
  { intros v rest Hr Hl. destruct (settable k v) eqn:Hv; [|done]. apply fmap_Some in Hr as (l & Hrest & ->).
    constructor; [by exists k|by apply Hl]. }
  assert (∀ l, Parse args1 = Some l → Forall typed l) as H1 by (intros l; apply IH; simpl; lia).
  assert (∀ v args2 l, args1 = v :: args2 → Parse args2 = Some l → Forall typed l) as H2.
  { intros v args2 l ->. apply IH. simpl. lia. }
  destruct value as [v|].
  - apply (Hset (string_of_bytes v) (Parse args1)); [|done]. by destruct k.
  - destruct (decide (k = KBool)) as [->|Hne]; [by apply (Hset "true"%string (Parse args1))|].
    destruct args1 as [|v args2]; [by destruct k|]. apply (Hset v (Parse args2)); [by destruct k|]. by intros l; eapply H2.
Qed.

(** A flag that was set has a value of its kind. *)
Lemma arg_typed args set name k v : Parse args = Some set → arg_of set name = Some v → kind_named name = Some k →
  is_Some (set_value k v).
Proof.
  intros Hp%Parse_typed Ha Hk. unfold arg_of in Ha. apply last_Some_elem_of, list_elem_of_omap in Ha as ([n' v'] & Hin & Hv).
  simpl in Hv. case_decide; [|done]. simplify_eq. eapply Forall_forall in Hp as (k' & Hk' & Hs); [|exact Hin]. simpl in *.
  rewrite Hk in Hk'. injection Hk' as <-. unfold settable in Hs. by destruct (set_value k v).
Qed.

(** An argument that sets a flag. *)
Definition written (p : string * string) : string :=
  string_of_bytes (x2d :: bytes_of_string p.1 ++ x3d :: bytes_of_string p.2).

(** A name that an argument can carry. *)
Definition nameable (name : string) : bool :=
  match bytes_of_string name with
  | n0 :: rest => negb (bool_decide (n0 = x2d ∨ n0 = x3d)) && bool_decide (x3d ∉ rest)
  | [] => false
  end.

Lemma flag_name_written p : nameable p.1 = true →
  flag_name (bytes_of_string (written p)) = Some (inr (bytes_of_string p.1, Some (bytes_of_string p.2))).
Proof.
  unfold nameable, written. rewrite bytes_of_string_of_bytes.
  destruct (bytes_of_string p.1) as [|n0 rest]; [done|]. intros (Hn & Hr)%andb_true_iff.
  apply negb_true_iff, bool_decide_eq_false in Hn. apply bool_decide_eq_true in Hr. cbn [app flag_name].
  destruct (decide (n0 = x2d)) as [->|Hd]; [by destruct Hn; left|].
  rewrite (decide_False (P := n0 = x2d ∨ n0 = x3d)) by done. rewrite cut_here by done. by destruct n0.
Qed.

(** Parsing gives back what was written. *)
Lemma Parse_written set : Forall (λ p, nameable p.1 = true) formal → Forall typed set →
  Parse (written <$> set) = Some set.
Proof.
  intros Hf. induction 1 as [|p set (k & Hk & Hv) _ IH]; [done|]. rewrite fmap_cons. cbn [Parse].
  assert (nameable p.1 = true) as Hn.
  { unfold kind_named in Hk. apply fmap_Some in Hk as (q & Hq & _). apply List.find_some in Hq as [Hin Hq].
    apply bool_decide_eq_true in Hq. rewrite <- Hq. rewrite Forall_forall in Hf. by apply Hf, list_elem_of_In. }
  rewrite flag_name_written by done. cbv zeta. rewrite !string_of_bytes_of_string, Hk. cbn [mbind option_bind].
  rewrite Hv, IH. destruct p. by destruct k.
Qed.

(** ** The command lines that are accepted *)

(** [s] is -name, --name, -name=value or --name=value; [s] ends the flags, being
    "--", or no flag at all. *)
Definition flag_arg (s name : string) (value : option string) : Prop :=
  ∃ dash, (dash = [x2d] ∨ dash = [x2d; x2d]) ∧ nameable name = true ∧
    bytes_of_string s = dash ++ bytes_of_string name ++
      match value with Some v => x3d :: bytes_of_string v | None => [] end.
Definition ends_flags (s : string) : Prop :=
  s = "--"%string ∨ s = "-"%string ∨ head (bytes_of_string s) ≠ Some x2d.

(** [reads args set]: up to the first argument that ends the flags, [args] consists
    of flags that are defined, each with a value of its kind: after an equals sign,
    or, unless it is a bool, in the argument that follows. [set] are the values. *)
Inductive reads : list string → list (string * string) → Prop :=
| reads_end : reads [] []
| reads_stop s args : ends_flags s → reads (s :: args) []
| reads_value s args name v k set :
    flag_arg s name (Some v) → kind_named name = Some k → settable k v = true → reads args set →
    reads (s :: args) ((name, v) :: set)
| reads_bool s args name set :
    flag_arg s name None → kind_named name = Some KBool → reads args set →
    reads (s :: args) ((name, "true"%string) :: set)
| reads_next s v args name k set :
    flag_arg s name None → kind_named name = Some k → k ≠ KBool → settable k v = true → reads args set →
    reads (s :: v :: args) ((name, v) :: set).

Lemma cut_Some c l p q : cut c l = Some (p, q) → l = p ++ c :: q ∧ c ∉ p.
Proof.
  revert p. induction l as [|b l IH]; intros p; simpl; [done|]. case_decide as Hb.
  - intros [= <- <-]. subst. split; [done|apply not_elem_of_nil].
  - intros ([p' q'] & Hc & [= <- <-])%bind_Some. destruct (IH p') as [-> Hn]; [done|].
    split; [done|]. apply not_elem_of_cons. by split.
Qed.
Lemma cut_None c l : cut c l = None → c ∉ l.
Proof.
  induction l as [|b l IH]; simpl; [intros _; apply not_elem_of_nil|]. case_decide; [done|].
  destruct (cut c l) as [[]|]; [done|]. intros _. apply not_elem_of_cons. by auto.
Qed.

Lemma nameable_bytes n0 rest : n0 ≠ x2d → n0 ≠ x3d → x3d ∉ rest → nameable (string_of_bytes (n0 :: rest)) = true.
Proof.
  intros H1 H2 H3. unfold nameable. rewrite bytes_of_string_of_bytes.
  rewrite bool_decide_false by naive_solver. by rewrite bool_decide_true.
Qed.

(** The parser of one argument recognises exactly these forms. *)
Lemma flag_name_flag s name value :
  flag_name (bytes_of_string s) = Some (inr (bytes_of_string name, bytes_of_string <$> value)) ↔ flag_arg s name value.
Proof.
  split.
  - unfold flag_arg. destruct (bytes_of_string s) as [|b0 l]; [done|]. unfold flag_name.
    destruct (decide (b0 = x2d)) as [->|Hb]; [|by destruct b0]. destruct l as [|c l]; [done|].
    assert (∀ dash n, (dash = [x2d] ∨ dash = [x2d; x2d]) → x2d :: c :: l = dash ++ n →
      match n with
      | [] => None
      | n0 :: rest =>
          if decide (n0 = x2d ∨ n0 = x3d) then None else
          match cut x3d rest with
          | Some (p, v) => Some (inr (n0 :: p, Some v))
          | None => Some (inr (n, None))
          end
      end = Some (inr (A := bool) (bytes_of_string name, bytes_of_string <$> value)) →
      ∃ dash, (dash = [x2d] ∨ dash = [x2d; x2d]) ∧ nameable name = true ∧
        x2d :: c :: l = dash ++ bytes_of_string name ++ match value with Some v => x3d :: bytes_of_string v | None => [] end)
      as Hgo.
    { intros dash [|n0 rest] Hdash Heq; [done|]. case_decide as Hn; [done|].
      destruct (cut x3d rest) as [[p v]|] eqn:Hc; intros [= Hname Hval]; exists dash; (split; [done|]).
      - apply cut_Some in Hc as [-> Hp]. destruct value as [v'|]; [|done]. injection Hval as ->.
        rewrite <- (string_of_bytes_of_string name), <- Hname. split; [apply nameable_bytes; naive_solver|].
        by rewrite bytes_of_string_of_bytes, Heq.
      - apply cut_None in Hc. destruct value as [v'|]; [done|].
        rewrite <- (string_of_bytes_of_string name), <- Hname. split; [apply nameable_bytes; naive_solver|].
        by rewrite bytes_of_string_of_bytes, Heq, app_nil_r. }
    destruct (decide (c = x2d)) as [->|Hcd].
    + destruct l as [|l0 l]; [done|]. apply (Hgo [x2d; x2d] (l0 :: l)); [by right|done].
    + intros Hf. apply (Hgo [x2d] (c :: l)); [by left|done|]. by destruct c.
  - intros (dash & Hdash & Hn & ->). unfold nameable in Hn. destruct (bytes_of_string name) as [|n0 rest]; [done|].
    apply andb_true_iff in Hn as [Hn Hr]. apply negb_true_iff, bool_decide_eq_false in Hn. apply bool_decide_eq_true in Hr.
    assert (n0 ≠ x2d ∧ ¬ (n0 = x2d ∨ n0 = x3d)) as [Hd Hn'] by naive_solver.
    set (tl := match value with Some _ => _ | None => _ end).
    assert (match cut x3d (rest ++ tl) with
      | Some (p, v) => Some (inr (A := bool) (n0 :: p, Some v))
      | None => Some (inr (n0 :: rest ++ tl, None)) end = Some (inr (n0 :: rest, bytes_of_string <$> value))) as Hcut.
    { unfold tl. destruct value as [v|]; [by rewrite cut_here|]. rewrite app_nil_r. by rewrite cut_none. }
    destruct Hdash as [-> | ->]; cbn [app flag_name].
    + rewrite (decide_False (P := n0 = x2d)), (decide_False (P := n0 = x2d ∨ n0 = x3d)) by done. by destruct n0.
    + rewrite (decide_True (P := x2d = x2d)), (decide_False (P := n0 = x2d ∨ n0 = x3d)) by done. done.
Qed.

Lemma flag_name_stop s b : flag_name (bytes_of_string s) = Some (inl b) → ends_flags s.
Proof.
  intros Hf. unfold ends_flags. destruct (bytes_of_string s) as [|b0 l] eqn:Hs; [by right; right|].
  destruct (decide (b0 = x2d)) as [->|Hb]; [|right; right; simpl; congruence].
  rewrite <- (string_of_bytes_of_string s), Hs. destruct l as [|c l]; [by right; left|].
  destruct (decide (c = x2d)) as [->|Hc].
  - destruct l as [|l0 l]; [by left|]. simpl in Hf. by repeat case_match.
  - exfalso. revert Hf. destruct c; simpl; try done; by repeat case_match.
Qed.
Lemma ends_flag_name s : ends_flags s → ∃ b, flag_name (bytes_of_string s) = Some (inl b).
Proof.
  intros [->|[->|Hs]]; [by eexists|by eexists|]. destruct (bytes_of_string s) as [|b0 l]; [by eexists|].
  simpl in Hs. exists false. by destruct b0.
Qed.

(** Parse accepts exactly the command lines that read so. *)
Lemma Parse_reads args set : Parse args = Some set ↔ reads args set.
Proof.
  split.
  - revert set. induction args as [args IH] using (induction_ltof1 _ (@length string)); unfold ltof in IH.
    intros set. destruct args as [|s args1]; cbn [Parse]; [intros [= <-]; constructor|].
    destruct (flag_name _) as [[|[name value]]|] eqn:Hf; [|..|done].
    { intros [= <-]. apply reads_stop. by eapply flag_name_stop. }
    assert (flag_arg s (string_of_bytes name) (string_of_bytes <$> value)) as Ha.
    { apply flag_name_flag. rewrite Hf, bytes_of_string_of_bytes. destruct value; simpl; [|done].
      by rewrite bytes_of_string_of_bytes. }
    intros (k & Hk & Hs)%bind_Some. cbv zeta in Hs. destruct value as [v|]; simpl in Ha.
    + assert ((if settable k (string_of_bytes v) then (λ l, (string_of_bytes name, string_of_bytes v) :: l) <$> Parse args1
        else None) = Some set) as Hs' by (by destruct k).
      destruct (settable k _) eqn:Hv; [|done]. apply fmap_Some in Hs' as (l & Hl & ->).
      eapply reads_value; [done..|]. apply IH; [simpl; lia|done].
    + destruct (decide (k = KBool)) as [->|Hne].
      * destruct (settable KBool _) eqn:Hv; [|done]. apply fmap_Some in Hs as (l & Hl & ->).
        apply reads_bool; [done..|]. apply IH; [simpl; lia|done].
      * destruct args1 as [|v args2]; [by destruct k|].
        assert ((if settable k v then (λ l, (string_of_bytes name, v) :: l) <$> Parse args2 else None) = Some set) as Hs'
          by (by destruct k).
        destruct (settable k v) eqn:Hv; [|done]. apply fmap_Some in Hs' as (l & Hl & ->).
        eapply reads_next; [done..|]. apply IH; [simpl; lia|done].
  - induction 1 as [|s args Hs|s args name v k set Ha Hk Hv _ IH|s args name set Ha Hk _ IH|s v args name k set Ha Hk Hne Hv _ IH];
      cbn [Parse]; [done|by destruct (ends_flag_name s Hs) as [b ->]|..];
      apply flag_name_flag in Ha as ->; cbv zeta; simpl fmap; rewrite !string_of_bytes_of_string, Hk; cbn [mbind option_bind].
    + rewrite Hv, IH. by destruct k.
    + by rewrite IH.
    + rewrite Hv, IH. by destruct k.
Qed.
End flagset.

Example flags_read :
  let formal := [("a", KInt); ("b", KBool); ("s", KString); ("d", KDuration)]%string in
  Parse formal ["-a"; "0x10"; "--b"; "-s=x=y"; "-a=2"; "rest"; "-a"; "z"]%string =
    Some [("a", "0x10"); ("b", "true"); ("s", "x=y"); ("a", "2")]%string ∧
  Parse formal ["-b"; "false"; "-a"; "z"]%string = Some [("b", "true")]%string ∧
  Parse formal ["-a"; "1"; "--"; "-zz"]%string = Some [("a", "1")]%string ∧
  (Parse formal <$> [["-a"]; ["-a"; "z"; "-a"; "1"]; ["-zz"]; ["---a"]; ["-=1"]; ["-h"]; ["-b=maybe"]; ["-d"; "10 m"]]%string) =
    replicate 8 None ∧
  arg_of [("a", "1"); ("b", "x"); ("a", "2")]%string "a" = Some "2"%string.
Proof. vm_compute. done. Qed.

End GoFlag.
