(* ===== verification/Config.v ===== *)
(** * Configuration: control-plane groups and cache TTLs

    Models src/config/controlgroup.go and the TTL and scope rules of
    src/config/config.go: the prefixes the beacon is advertised into, as a
    function of -control-group-compat, -source-mode and -beacon-scope, the ADVERT
    scope byte, and the TTL fallback. shard.ParseScope and shard.Prefix are the
    class [ScopeLib]. Flags, environment and validation are Load.v. *)

From S2P Require Import Prelude GoNet External RefEnv CacheStore.
From Stdlib Require Import Strings.Byte.
Import GoNet External CacheStore.

Module Config.

Definition ControlGroupASMOnly : string := "asm-only".
Definition ControlGroupBoth : string := "both".
Definition ControlGroupDerived : string := "derived".

Definition Scopes (name : string) : option Z :=
  if decide (name = "link"%string) then Some 0xFF02
  else if decide (name = "site"%string) then Some 0xFF05
  else if decide (name = "org"%string) then Some 0xFF08
  else if decide (name = "global"%string) then Some 0xFF0E
  else None.

(** Case folding as [strings.EqualFold] does it, for strings compared with one
    of ASCII letters: the long s (U+017F) folds to s, ASCII letters to lower
    case. *)
Fixpoint fold_bytes (l : bytes) : bytes :=
  match l with
  | xc5 :: xbf :: l' => x73 :: fold_bytes l'
  | b :: l' =>
      (if (65 <=? byte_Z b) && (byte_Z b <=? 90) then Z_byte (byte_Z b + 32) else b) :: fold_bytes l'
  | [] => []
  end.
Definition EqualFold (s t : string) : bool :=
  bool_decide (fold_bytes (bytes_of_string s) = fold_bytes (bytes_of_string t)).

Section model.
Context `{!ScopeLib}.

Definition ControlGroupPrefixes (compat sourceMode scopeName : string) : list Z + gerror :=
  match Scopes scopeName with
  | None => inr (ErrText "unknown scope")
  | Some asm =>
      if decide (compat = ControlGroupASMOnly) then inl [asm]
      else if decide (compat ≠ ControlGroupBoth ∧ compat ≠ ControlGroupDerived) then
        inr (ErrText "invalid -control-group-compat")
      else
        let finish derived :=
          if decide (compat = ControlGroupDerived ∨ derived = asm) then inl [derived]
          else inl [asm; derived] in
        if EqualFold sourceMode "ssm" then
          match ParseScope scopeName with
          | inr _ =>
              if decide (compat = ControlGroupDerived) then
                inr (ErrText "derived needs a scope with an SSM control group")
              else finish asm
          | inl sc =>
              match SSMPrefix sc with
              | inr perr => inr perr
              | inl p => finish p
              end
          end
        else finish asm
  end.

Definition beaconScopeNames (beaconScope : string) : list string + gerror :=
  if decide (beaconScope ∈ ["site"; "org"; "global"]%string) then inl [beaconScope]
  else if decide (beaconScope ∈ ["both"; "all"]%string) then inl ["site"; "org"; "global"]%string
  else inr (ErrText "beacon-scope").

(** Appends the prefixes not seen yet. *)
Fixpoint addNew (out ps : list Z) : list Z :=
  match ps with
  | [] => out
  | p :: ps' => addNew (if decide (p ∈ out) then out else out ++ [p]) ps'
  end.

Fixpoint collectPrefixes (compat sourceMode : string) (out : list Z) (names : list string)
  : list Z + gerror :=
  match names with
  | [] => inl out
  | name :: names' =>
      match ControlGroupPrefixes compat sourceMode name with
      | inr err => inr err
      | inl ps => collectPrefixes compat sourceMode (addNew out ps) names'
      end
  end.

Definition BeaconGroupPrefixes (compat sourceMode beaconScope : string) : list Z + gerror :=
  match beaconScopeNames beaconScope with
  | inr err => inr err
  | inl names => collectPrefixes compat sourceMode [] names
  end.

(** The ADVERT scope byte Load derives from -beacon-scope. *)
Definition beaconScopeByte (beaconScope : string) : Z + gerror :=
  if decide (beaconScope = "site"%string) then inl 0x05
  else if decide (beaconScope = "org"%string) then inl 0x08
  else if decide (beaconScope = "global"%string) then inl 0x0E
  else if decide (beaconScope = "both"%string ∨ beaconScope = "all"%string) then inl 0xFF
  else inr (ErrText "beacon-scope").

(** ** Lemmas *)

Lemma asm_only_prefixes mode name asm :
  Scopes name = Some asm → ControlGroupPrefixes ControlGroupASMOnly mode name = inl [asm].
Proof. intros Hs. unfold ControlGroupPrefixes. by rewrite Hs. Qed.

(** Without SSM the compatibility flag does not matter. *)
Lemma asm_mode_prefixes mode name asm compat :
  EqualFold mode "ssm" = false → compat ∈ [ControlGroupASMOnly; ControlGroupBoth; ControlGroupDerived] →
  Scopes name = Some asm → ControlGroupPrefixes compat mode name = inl [asm].
Proof.
  intros Hm Hc Hs. unfold ControlGroupPrefixes. rewrite Hs, Hm.
  case_decide; [done|]. rewrite decide_False by set_solver. by rewrite decide_True by auto.
Qed.

Lemma ssm_prefixes mode name asm sc p :
  EqualFold mode "ssm" = true → Scopes name = Some asm → ParseScope name = inl sc → SSMPrefix sc = inl p →
  p ≠ asm →
  ControlGroupPrefixes ControlGroupBoth mode name = inl [asm; p] ∧
  ControlGroupPrefixes ControlGroupDerived mode name = inl [p].
Proof.
  intros Hm Hs Hp Hx Hne. unfold ControlGroupPrefixes. rewrite Hs, Hm, Hp, Hx.
  rewrite (decide_False (P := ControlGroupBoth = ControlGroupDerived ∨ p = asm)) by naive_solver.
  by rewrite (decide_True (P := ControlGroupDerived = ControlGroupDerived ∨ p = asm)) by auto.
Qed.

Lemma ssm_undefined_prefixes mode name asm err :
  EqualFold mode "ssm" = true → Scopes name = Some asm → ParseScope name = inr err →
  ControlGroupPrefixes ControlGroupBoth mode name = inl [asm] ∧
  ∃ e, ControlGroupPrefixes ControlGroupDerived mode name = inr e.
Proof.
  intros Hm Hs Hp. unfold ControlGroupPrefixes. rewrite Hs, Hm, Hp. split; [|by eexists].
  by rewrite (decide_True (P := ControlGroupBoth = ControlGroupDerived ∨ asm = asm)) by auto.
Qed.

(** The prefixes of one scope under each flag value. *)
Lemma scope_prefixes `{!ScopeLibOk} mode name :
  name ∈ ["site"; "org"; "global"]%string →
  ∃ asm, ControlGroupPrefixes ControlGroupASMOnly mode name = inl [asm] ∧
    ((ControlGroupPrefixes ControlGroupBoth mode name = inl [asm] ∧
      (ControlGroupPrefixes ControlGroupDerived mode name = inl [asm] ∨
       ∃ e, ControlGroupPrefixes ControlGroupDerived mode name = inr e)) ∨
     ∃ p, ControlGroupPrefixes ControlGroupBoth mode name = inl [asm; p] ∧
       ControlGroupPrefixes ControlGroupDerived mode name = inl [p]).
Proof.
  intros Hn. destruct (EqualFold mode "ssm") eqn:Hm.
  2:{ assert (∃ asm, Scopes name = Some asm) as [asm Hs].
      { repeat (apply elem_of_cons in Hn as [->|Hn]; [by eexists|]). by apply not_elem_of_nil in Hn. }
      exists asm. split; [by apply asm_only_prefixes|]. left.
      split; [|left]; apply asm_mode_prefixes; set_solver. }
  destruct scope_site as (s1 & Hp1 & Hx1), scope_global as (s2 & Hp2 & Hx2).
  apply elem_of_cons in Hn as [->|Hn].
  { eexists. split; [by apply asm_only_prefixes|]. right. eexists. by eapply ssm_prefixes. }
  apply elem_of_cons in Hn as [->|Hn].
  { eexists. split; [by apply asm_only_prefixes|]. left.
    destruct (scope_other "org") as [err He]; [done..|].
    edestruct (ssm_undefined_prefixes mode "org") as [? ?]; [done..|]. auto. }
  apply elem_of_cons in Hn as [->|Hn]; [|by apply not_elem_of_nil in Hn].
  eexists. split; [by apply asm_only_prefixes|]. right. eexists. by eapply ssm_prefixes.
Qed.

Lemma elem_of_addNew p out ps : p ∈ addNew out ps ↔ p ∈ out ∨ p ∈ ps.
Proof.
  revert out. induction ps as [|q ps IH]; intros out; simpl; [set_solver|].
  rewrite IH. case_decide; set_solver.
Qed.

Lemma NoDup_addNew out ps : NoDup out → NoDup (addNew out ps).
Proof.
  revert out. induction ps as [|q ps IH]; intros out Hnd; simpl; [done|].
  apply IH. case_decide; [done|]. apply NoDup_app. split_and!; [done|set_solver|apply NoDup_singleton].
Qed.

Lemma collect_NoDup compat mode out names r :
  collectPrefixes compat mode out names = inl r → NoDup out → NoDup r.
Proof.
  revert out. induction names as [|n names IH]; intros out; simpl; [by intros [= <-]|].
  destruct (ControlGroupPrefixes compat mode n); [|done]. intros Hc Hnd.
  eapply IH; [exact Hc|]. by apply NoDup_addNew.
Qed.

(** What [both] collects, against the other two. *)
Lemma collect_both `{!ScopeLibOk} mode names A B D :
  Forall (λ n, n ∈ ["site"; "org"; "global"]%string) names →
  (∀ p, p ∈ B ↔ p ∈ A ∨ p ∈ D) →
  ∃ A' B', collectPrefixes ControlGroupASMOnly mode A names = inl A' ∧
    collectPrefixes ControlGroupBoth mode B names = inl B' ∧ A ⊆ A' ∧ A' ⊆ B' ∧
    ∀ D', collectPrefixes ControlGroupDerived mode D names = inl D' → ∀ p, p ∈ B' ↔ p ∈ A' ∨ p ∈ D'.
Proof.
  intros Hn. revert A B D. induction Hn as [|n names Hn _ IH]; intros A B D Hinv; simpl.
  { exists A, B. split_and!; [done..|set_solver|]. by intros D' [= <-]. }
  destruct (scope_prefixes mode n Hn) as (asm & Ha & [[Hb Hd]|(p & Hb & Hd)]); rewrite Ha, Hb.
  - destruct (IH (addNew A [asm]) (addNew B [asm]) (addNew D [asm])) as (A' & B' & HA & HB & Hsub & HAB & Hp).
    { intros p. rewrite !elem_of_addNew, Hinv. tauto. }
    exists A', B'. split_and!; [done..| |done|].
    { intros p ?. apply Hsub, elem_of_addNew. by left. }
    destruct Hd as [-> |[e ->]]; [exact Hp|done].
  - destruct (IH (addNew A [asm]) (addNew B [asm; p]) (addNew D [p])) as (A' & B' & HA & HB & Hsub & HAB & Hp).
    { intros q. rewrite !elem_of_addNew, Hinv, !elem_of_cons, elem_of_nil. tauto. }
    exists A', B'. rewrite Hd. split_and!; [done..| |done|exact Hp].
    intros q ?. apply Hsub, elem_of_addNew. by left.
Qed.

(** ** Theorems *)

(** The control-group switch can be rolled out without losing a listener.
    For every beacon scope and source mode, "both" resolves whenever
    "asm-only" does, into distinct prefixes that include all of the
    "asm-only" ones, and, where "derived" resolves too, exactly the union of
    the two. *)
Theorem both_covers (mode scope : string) (A : list Z) :
  ScopeLibOk → BeaconGroupPrefixes ControlGroupASMOnly mode scope = inl A →
  ∃ B, BeaconGroupPrefixes ControlGroupBoth mode scope = inl B ∧ NoDup B ∧ A ⊆ B ∧
    ∀ D, BeaconGroupPrefixes ControlGroupDerived mode scope = inl D → ∀ p, p ∈ B ↔ p ∈ A ∨ p ∈ D.
Proof.
  intros Hok. unfold BeaconGroupPrefixes, beaconScopeNames. intros HA.
  assert (∃ names, (if decide (scope ∈ ["site"; "org"; "global"]%string) then inl [scope]
    else if decide (scope ∈ ["both"; "all"]%string) then inl ["site"; "org"; "global"]%string
    else inr (ErrText "beacon-scope")) = (inl names : list string + gerror) ∧
    Forall (λ n, n ∈ ["site"; "org"; "global"]%string) names) as (names & Hnames & Hf).
  { case_decide; [eexists; split; [done|by apply Forall_singleton]|].
    case_decide; [|done]. eexists. split; [done|]. by apply Forall_forall. }
  rewrite Hnames in *.
  destruct (collect_both mode names [] [] [] Hf) as (A' & B' & HA' & HB & _ & HAB & Hp); [set_solver|].
  rewrite HA in HA'. simplify_eq. exists B'. split_and!; [done| |done|done].
  eapply collect_NoDup; [exact HB|constructor].
Qed.
End model.

(** *** Cache TTLs *)

Record TTLs := mkTTLs {
  CacheTTL : Z; CacheTTLTx : Z; CacheTTLBlock : Z; CacheTTLSubtree : Z; CacheTTLAnchor : Z; CacheTTLBEEF : Z
}.

Definition resolveCacheTTLs (c : TTLs)
    (cacheTTLExplicit txExplicit blockExplicit subtreeExplicit anchorExplicit : bool) : TTLs :=
  if negb cacheTTLExplicit then c else
  mkTTLs (CacheTTL c)
    (if negb txExplicit then CacheTTL c else CacheTTLTx c)
    (if negb blockExplicit then CacheTTL c else CacheTTLBlock c)
    (if negb subtreeExplicit then CacheTTL c else CacheTTLSubtree c)
    (if negb anchorExplicit then CacheTTL c else CacheTTLAnchor c)
    (CacheTTLBEEF c).

(** An explicit CACHE_TTL is not a fallback for the BEEF class. Of the TTLs
    the operator did not set, the transaction, block, subtree and anchor ones
    take the value of CACHE_TTL, but the BEEF TTL keeps its own default. *)
Theorem beef_ttl_ignores_fallback (c : TTLs) :
  resolveCacheTTLs c true false false false false =
    mkTTLs (CacheTTL c) (CacheTTL c) (CacheTTL c) (CacheTTL c) (CacheTTL c) (CacheTTLBEEF c) ∧
  ∀ e1 e2 e3 e4 e5, CacheTTLBEEF (resolveCacheTTLs c e1 e2 e3 e4 e5) = CacheTTLBEEF c.
Proof. split; [done|]. by intros [] [] [] [] []. Qed.

(** ** Instances *)
Section instances.
Import RefEnv.

Lemma both_covers_witness :
  ∃ B, BeaconGroupPrefixes ControlGroupBoth "ssm" "site" = inl B ∧ NoDup B ∧ [0xFF05] ⊆ B ∧
    ∀ D, BeaconGroupPrefixes ControlGroupDerived "ssm" "site" = inl D → ∀ p, p ∈ B ↔ p ∈ [0xFF05] ∨ p ∈ D.
Proof. apply (both_covers "ssm" "site" [0xFF05]); [apply _|vm_compute; reflexivity]. Defined.

Example derived_site : BeaconGroupPrefixes ControlGroupDerived "SSM" "site" = inl [0xFF35].
Proof. vm_compute. reflexivity. Qed.
Example both_all : BeaconGroupPrefixes ControlGroupBoth "ssm" "all" =
  inl [0xFF05; 0xFF35; 0xFF08; 0xFF0E; 0xFF3E].
Proof. vm_compute. reflexivity. Qed.
End instances.

End Config.
