(* ===== verification/Load.v ===== *)
(** * config.Load

    Models [Load] of src/config/config.go: the flags with their environment
    defaults, and the validation that turns them into a Config or an error. What the
    process is given is the class [Host]: its environment and command line, the
    interfaces of the machine, the number of processors and the operating system.
    The parsers of the standard library are those of GoText, GoNum, GoAddr and
    GoFlag.

    [valid] is what the rest of the program may assume of a Config;
    [validate_valid] shows that Load returns nothing else. *)

From S2P Require Import Prelude GoNet External RefEnv CacheStore GoText GoAddr GoNum GoFlag Config.
From Stdlib Require Import Strings.Byte.
Import GoNet External CacheStore GoText GoAddr GoNum GoFlag Config.

Module Load.

(** The process and the machine it runs on: os.Getenv, os.Args without the program,
    net.InterfaceByName, runtime.NumCPU and runtime.GOOS. *)
Class Host := {
  Getenv : string → string;
  Args : list string;
  InterfaceByName : string → option gerror;
  NumCPU : Z;
  GOOS : string;
}.

(** There is a processor. *)
Class HostOk `{Host} : Prop := { num_cpu_pos : 1 ≤ NumCPU }.

Definition Millisecond : Z := 1000000.
Definition Second : Z := 1000 * Millisecond.
Definition Minute : Z := 60 * Second.
Definition defaultCacheTTLTx : Z := 60 * Second.
Definition defaultCacheTTLBlock : Z := 10 * Minute.
Definition defaultCacheTTLSubtree : Z := 5 * Minute.
Definition defaultCacheTTLAnchor : Z := 2 * Minute.
Definition defaultCacheTTLBEEF : Z := 60 * Second.

(** *** Flags *)

Record IngestFlags := mkIngestFlags {
  f_MCIface : string; f_ListenPort : Z; f_teeListen : string; f_MCJoinEnabled : bool;
  f_CacheBackend : string; f_RedisAddr : string; f_aeroHosts : string; f_AeroNamespace : string;
  f_AeroSet : string; f_CacheDialTimeout : Z; f_CacheOpTimeout : Z; f_CacheTTL : Z;
  f_CacheTTLTx : Z; f_CacheTTLBlock : Z; f_CacheTTLSubtree : Z; f_CacheTTLAnchor : Z;
  f_CacheTTLBEEF : Z; f_BEEFEnabled : bool; f_beefBits : Z; f_CacheMaxKeys : Z;
  f_CacheMaxBytes : Z; f_NACKPort : Z; f_NACKWorkers : Z; f_NumWorkers : Z; f_RecvBufBytes : Z;
  f_QueueDepth : Z; f_IngressProcs : Z; f_egressFlag : string; f_EgressPort : Z; f_DedupWindow : Z;
}.

Record LimitFlags := mkLimitFlags {
  f_ProxyEnabled : bool; f_upstreamFlag : string; f_ProxyTimeout : Z; f_ProxyMaxEndpoints : Z;
  f_ProxyDedupWindow : Z; f_ProxyWorkers : Z; f_ProxyQueue : Z; f_RLIPRate : float64;
  f_RLIPBurst : Z; f_RLSenderRate : float64; f_RLSenderWindow : Z; f_RLChainRate : float64;
  f_RLChainWindow : Z; f_RLSequenceMax : Z; f_RLSequenceWindow : Z; f_RLGroupRate : float64;
  f_RLGroupBurst : Z;
}.

Record ModeFlags := mkModeFlags {
  f_MCScope : string; f_groupIDFlag : string; f_SourceMode : string; f_BindSource : string;
  f_ssmBootstrapManifest : string; f_ssmBootstrapBeacon : string;
  f_ssmBootstrapSubtreeAnn : string; f_ssmPublishersStatic : string; f_SSMBootstrapRefresh : Z;
  f_SubtreeDataEnabled : bool; f_EgressMulticastLoop : bool; f_Debug : bool; f_LogFormat : string;
  f_LogLevel : string; f_TraceSampling : float64; f_DrainTimeout : Z; f_MetricsAddr : string;
  f_InstanceID : string; f_OTLPEndpoint : string; f_otlpInterval : Z; f_bits : Z;
}.

Record BeaconFlags := mkBeaconFlags {
  f_BeaconEnabled : bool; f_beaconTier : Z; f_beaconPref : Z; f_BeaconInterval : Z;
  f_BeaconScope : string; f_ControlGroupCompat : string; f_BeaconFlagsUnicast : bool;
  f_BeaconFlagsMulticast : bool; f_BeaconFlagsDraining : bool; f_BeaconNACKAddr : string;
  f_SuppressACK : bool; f_SuppressMISS : bool; f_ThrottleResponse : bool;
}.

(** The flags; a field is named after the variable the flag is bound to. *)
Record Flags := mkFlags {
  ff_ingest :> IngestFlags; ff_limit :> LimitFlags; ff_mode :> ModeFlags; ff_beacon :> BeaconFlags;
}.

(** *** The loaded configuration

    [c_flags] holds the fields the flag package writes and nothing changes
    afterwards; the others are those Load computes. *)
Record Config := mkConfig {
  c_flags :> Flags;
  CacheTTLs : TTLs;
  BeaconTier : Z; BeaconPreference : Z;
  ShardBits : Z; BEEFShardBits : Z; NumGroups : Z; OTLPInterval : Z;
  SourceMode : string; MCPrefix : Z;
  SSMBootstrapManifest : list string; SSMBootstrapBeacon : list string;
  SSMBootstrapSubtreeAnn : list string; SSMPublishersStatic : list string;
  MCGroupID : Z;
  TeeListen : option (addr * Z);   (* None = disabled *)
  AeroHosts : list string;
  NumWorkers : Z; NACKWorkers : Z;
  EgressIfaces : list string;
  UpstreamRetryEndpoints : list string; ProxyWorkers : Z;
  BeaconScopeByte : Z; ControlGroupCompat : string;
}.

(** *** Errors as values *)
Definition result (A : Type) : Type := (A + gerror)%type.
#[global] Instance result_ret : MRet result := λ A a, inl a.
#[global] Instance result_bind : MBind result := λ A B f m,
  match m with inl a => f a | inr e => inr e end.
(** [if b { return nil, fmt.Errorf(msg) }] *)
Definition reject (b : bool) (msg : string) : result unit :=
  if b then inr (ErrText msg) else inl tt.

Definition splitCSV (s : string) : list string :=
  if decide (s = ""%string) then [] else filter (λ p, p ≠ ""%string) (TrimSpace <$> Split s).

(** A hex literal with or without 0x, or a decimal number, of 16 bits. *)
Definition parseGroupID (s : string) : result Z :=
  let l := trim (bytes_of_string s) in
  if decide (l = []) then inr (ErrText "empty value") else
  let '(l', base) :=
    match strip [x30; x78] (lower_bytes l) with
    | Some _ => (drop 2 l, 16)
    | None => match ParseUint l 10 16 with Some _ => (l, 10) | None => (l, 16) end
    end in
  match ParseUint l' base 16 with
  | Some n => inl n
  | None => inr (ErrText "invalid syntax or value out of range")
  end.

Section load.
Context `{!Host, !ScopeLib}.

(** *** Environment defaults *)

Definition env_or {A} (key : string) (parse : string → option A) (def : A) : A :=
  let v := Getenv key in
  if decide (v = ""%string) then def else default def (parse v).
Definition envStr (key def : string) : string := env_or key Some def.
Definition envInt (key : string) (def : Z) : Z := env_or key Atoi def.
Definition envBool (key : string) (def : bool) : bool := env_or key ParseBool def.
Definition envFloat (key : string) (def : float64) : float64 := env_or key ParseFloat def.
Definition envDuration (key : string) (def : Z) : Z := env_or key ParseDuration def.

(** *** Flags

    The value of a flag: the last one it was set to, and the default when it was
    not. [flag_set] is what flag.Parse found on the command line. *)

(** The flags Load defines. *)
Definition formal : list (string * kind) :=
  [("mc-iface", KString); ("listen-port", KInt); ("tee-listen", KString); ("mc-join-enabled", KBool);
   ("cache-backend", KString); ("redis-addr", KString); ("aerospike-hosts", KString);
   ("aerospike-namespace", KString); ("aerospike-set", KString); ("cache-dial-timeout", KDuration);
   ("cache-op-timeout", KDuration); ("cache-ttl", KDuration); ("cache-ttl-tx", KDuration);
   ("cache-ttl-block", KDuration); ("cache-ttl-subtree", KDuration); ("cache-ttl-anchor", KDuration);
   ("cache-ttl-beef", KDuration); ("beef-enabled", KBool); ("beef-shard-bits", KUint);
   ("cache-max-keys", KInt); ("cache-max-bytes", KInt); ("nack-port", KInt); ("nack-workers", KInt);
   ("ingress-workers", KInt); ("ingress-recv-buf-bytes", KInt); ("ingress-queue-depth", KInt);
   ("ingress-procs", KInt); ("egress-iface", KString); ("egress-port", KInt); ("dedup-window", KDuration);
   ("proxy-enabled", KBool); ("upstream-retry-endpoints", KString); ("proxy-timeout", KDuration);
   ("proxy-max-endpoints", KInt); ("proxy-dedup-window", KDuration); ("proxy-workers", KInt);
   ("proxy-queue", KInt); ("rl-ip-rate", KFloat64); ("rl-ip-burst", KInt); ("rl-sender-rate", KFloat64);
   ("rl-sender-window", KDuration); ("rl-chain-rate", KFloat64); ("rl-chain-window", KDuration);
   ("rl-sequence-max", KInt); ("rl-sequence-window", KDuration); ("rl-group-rate", KFloat64);
   ("rl-group-burst", KInt); ("scope", KString); ("mc-group-id", KString); ("source-mode", KString);
   ("bind-source", KString); ("ssm-bootstrap-manifest", KString); ("ssm-bootstrap-beacon", KString);
   ("ssm-bootstrap-subtree-announce", KString); ("ssm-publishers-static", KString);
   ("ssm-bootstrap-refresh", KDuration); ("subtree-data-enabled", KBool); ("egress-multicast-loop", KBool);
   ("debug", KBool); ("log-format", KString); ("log-level", KString); ("trace-sampling", KFloat64);
   ("drain-timeout", KDuration); ("metrics-addr", KString); ("instance", KString);
   ("otlp-endpoint", KString); ("otlp-interval", KDuration); ("shard-bits", KUint);
   ("beacon-enabled", KBool); ("beacon-tier", KUint); ("beacon-preference", KUint);
   ("beacon-interval", KDuration); ("beacon-scope", KString); ("control-group-compat", KString);
   ("beacon-flags-unicast", KBool); ("beacon-flags-multicast", KBool); ("beacon-flags-draining", KBool);
   ("nack-addr", KString); ("suppress-ack", KBool); ("suppress-miss", KBool);
   ("rl-throttle-response", KBool)]%string.

Definition flag_set : option (list (string * string)) := Parse formal Args.
Definition FlagArg (name : string) : option string := set ← flag_set; arg_of set name.
Definition flagVar {A} (parse : string → option A) (name : string) (def : A) : option A :=
  match FlagArg name with Some arg => parse arg | None => Some def end.
Definition strVar : string → string → option string := flagVar Some.
Definition intVar : string → Z → option Z := flagVar FlagInt.
Definition uintVar : string → Z → option Z := flagVar FlagUint.
Definition boolVar : string → bool → option bool := flagVar ParseBool.
Definition floatVar : string → float64 → option float64 := flagVar ParseFloat.
Definition durVar : string → Z → option Z := flagVar ParseDuration.

Definition parseIngestFlags : option IngestFlags :=
  MCIface ← strVar "mc-iface" (envStr "MC_IFACE" "eth0");
  ListenPort ← intVar "listen-port" (envInt "LISTEN_PORT" 9001);
  teeListen ← strVar "tee-listen" (envStr "TEE_LISTEN" "");
  MCJoinEnabled ← boolVar "mc-join-enabled" (envBool "MC_JOIN_ENABLED" true);
  CacheBackend ← strVar "cache-backend" (envStr "CACHE_BACKEND" "memory");
  RedisAddr ← strVar "redis-addr" (envStr "REDIS_ADDR" "");
  aeroHosts ← strVar "aerospike-hosts" (envStr "AEROSPIKE_HOSTS" "");
  AeroNamespace ← strVar "aerospike-namespace" (envStr "AEROSPIKE_NAMESPACE" "cache");
  AeroSet ← strVar "aerospike-set" (envStr "AEROSPIKE_SET" "bre");
  CacheDialTimeout ← durVar "cache-dial-timeout" (envDuration "CACHE_DIAL_TIMEOUT" Second);
  CacheOpTimeout ← durVar "cache-op-timeout" (envDuration "CACHE_OP_TIMEOUT" Second);
  CacheTTL ← durVar "cache-ttl" (envDuration "CACHE_TTL" (60 * Second));
  CacheTTLTx ← durVar "cache-ttl-tx" (envDuration "CACHE_TTL_TX" defaultCacheTTLTx);
  CacheTTLBlock ← durVar "cache-ttl-block" (envDuration "CACHE_TTL_BLOCK" defaultCacheTTLBlock);
  CacheTTLSubtree ← durVar "cache-ttl-subtree" (envDuration "CACHE_TTL_SUBTREE" defaultCacheTTLSubtree);
  CacheTTLAnchor ← durVar "cache-ttl-anchor" (envDuration "CACHE_TTL_ANCHOR" defaultCacheTTLAnchor);
  CacheTTLBEEF ← durVar "cache-ttl-beef" (envDuration "CACHE_TTL_BEEF" defaultCacheTTLBEEF);
  BEEFEnabled ← boolVar "beef-enabled" (envBool "BEEF_ENABLED" false);
  beefBits ← uintVar "beef-shard-bits" (u64 (envInt "BEEF_SHARD_BITS" 0));
  CacheMaxKeys ← intVar "cache-max-keys" (envInt "CACHE_MAX_KEYS" 0);
  CacheMaxBytes ← intVar "cache-max-bytes" (envInt "CACHE_MAX_BYTES" 0);
  NACKPort ← intVar "nack-port" (envInt "NACK_PORT" 9300);
  NACKWorkers ← intVar "nack-workers" (envInt "NACK_WORKERS" NumCPU);
  NumWorkers ← intVar "ingress-workers" (envInt "INGRESS_WORKERS" 1);
  RecvBufBytes ← intVar "ingress-recv-buf-bytes" (envInt "INGRESS_RECV_BUF_BYTES" (64 * 2 ^ 20));
  QueueDepth ← intVar "ingress-queue-depth" (envInt "INGRESS_QUEUE_DEPTH" 1024);
  IngressProcs ← intVar "ingress-procs" (envInt "INGRESS_PROCS" 4);
  egressFlag ← strVar "egress-iface" (envStr "EGRESS_IFACE" "eth0");
  EgressPort ← intVar "egress-port" (envInt "EGRESS_PORT" 9001);
  DedupWindow ← durVar "dedup-window" (envDuration "DEDUP_WINDOW" (60 * Second));
  Some {|
    f_MCIface := MCIface; f_ListenPort := ListenPort; f_teeListen := teeListen;
    f_MCJoinEnabled := MCJoinEnabled; f_CacheBackend := CacheBackend; f_RedisAddr := RedisAddr;
    f_aeroHosts := aeroHosts; f_AeroNamespace := AeroNamespace; f_AeroSet := AeroSet;
    f_CacheDialTimeout := CacheDialTimeout; f_CacheOpTimeout := CacheOpTimeout;
    f_CacheTTL := CacheTTL; f_CacheTTLTx := CacheTTLTx; f_CacheTTLBlock := CacheTTLBlock;
    f_CacheTTLSubtree := CacheTTLSubtree; f_CacheTTLAnchor := CacheTTLAnchor;
    f_CacheTTLBEEF := CacheTTLBEEF; f_BEEFEnabled := BEEFEnabled; f_beefBits := beefBits;
    f_CacheMaxKeys := CacheMaxKeys; f_CacheMaxBytes := CacheMaxBytes; f_NACKPort := NACKPort;
    f_NACKWorkers := NACKWorkers; f_NumWorkers := NumWorkers; f_RecvBufBytes := RecvBufBytes;
    f_QueueDepth := QueueDepth; f_IngressProcs := IngressProcs; f_egressFlag := egressFlag;
    f_EgressPort := EgressPort; f_DedupWindow := DedupWindow
  |}.

Definition parseLimitFlags : option LimitFlags :=
  ProxyEnabled ← boolVar "proxy-enabled" (envBool "PROXY_ENABLED" false);
  upstreamFlag ← strVar "upstream-retry-endpoints" (envStr "UPSTREAM_RETRY_ENDPOINTS" "");
  ProxyTimeout ← durVar "proxy-timeout" (envDuration "PROXY_TIMEOUT" (300 * Millisecond));
  ProxyMaxEndpoints ← intVar "proxy-max-endpoints" (envInt "PROXY_MAX_ENDPOINTS" 0);
  ProxyDedupWindow ← durVar "proxy-dedup-window" (envDuration "PROXY_DEDUP_WINDOW" (60 * Second));
  ProxyWorkers ← intVar "proxy-workers" (envInt "PROXY_WORKERS" 4);
  ProxyQueue ← intVar "proxy-queue" (envInt "PROXY_QUEUE" 1024);
  RLIPRate ← floatVar "rl-ip-rate" (envFloat "RL_IP_RATE" (float_of_Z 100));
  RLIPBurst ← intVar "rl-ip-burst" (envInt "RL_IP_BURST" 10);
  RLSenderRate ← floatVar "rl-sender-rate" (envFloat "RL_SENDER_RATE" (float_of_Z 0));
  RLSenderWindow ← durVar "rl-sender-window" (envDuration "RL_SENDER_WINDOW" 0);
  RLChainRate ← floatVar "rl-chain-rate" (envFloat "RL_CHAIN_RATE" (float_of_Z 500));
  RLChainWindow ← durVar "rl-chain-window" (envDuration "RL_CHAIN_WINDOW" (60 * Second));
  RLSequenceMax ← intVar "rl-sequence-max" (envInt "RL_SEQUENCE_MAX" 100);
  RLSequenceWindow ← durVar "rl-sequence-window" (envDuration "RL_SEQUENCE_WINDOW" (60 * Second));
  RLGroupRate ← floatVar "rl-group-rate" (envFloat "RL_GROUP_RATE" (float_of_Z 200));
  RLGroupBurst ← intVar "rl-group-burst" (envInt "RL_GROUP_BURST" 50);
  Some {|
    f_ProxyEnabled := ProxyEnabled; f_upstreamFlag := upstreamFlag; f_ProxyTimeout := ProxyTimeout;
    f_ProxyMaxEndpoints := ProxyMaxEndpoints; f_ProxyDedupWindow := ProxyDedupWindow;
    f_ProxyWorkers := ProxyWorkers; f_ProxyQueue := ProxyQueue; f_RLIPRate := RLIPRate;
    f_RLIPBurst := RLIPBurst; f_RLSenderRate := RLSenderRate; f_RLSenderWindow := RLSenderWindow;
    f_RLChainRate := RLChainRate; f_RLChainWindow := RLChainWindow;
    f_RLSequenceMax := RLSequenceMax; f_RLSequenceWindow := RLSequenceWindow;
    f_RLGroupRate := RLGroupRate; f_RLGroupBurst := RLGroupBurst
  |}.

Definition parseModeFlags : option ModeFlags :=
  MCScope ← strVar "scope" (envStr "MC_SCOPE" "site");
  groupIDFlag ← strVar "mc-group-id" (envStr "MC_GROUP_ID" "0x000B");
  SourceMode ← strVar "source-mode" (envStr "SOURCE_MODE" "asm");
  BindSource ← strVar "bind-source" (envStr "BIND_SOURCE" "");
  ssmBootstrapManifest ← strVar "ssm-bootstrap-manifest" (envStr "SSM_BOOTSTRAP_MANIFEST" "");
  ssmBootstrapBeacon ← strVar "ssm-bootstrap-beacon" (envStr "SSM_BOOTSTRAP_BEACON" "");
  ssmBootstrapSubtreeAnn ← strVar "ssm-bootstrap-subtree-announce" (envStr "SSM_BOOTSTRAP_SUBTREE_ANNOUNCE" "");
  ssmPublishersStatic ← strVar "ssm-publishers-static" (envStr "SSM_PUBLISHERS_STATIC" "");
  SSMBootstrapRefresh ← durVar "ssm-bootstrap-refresh" (envDuration "SSM_BOOTSTRAP_REFRESH" (30 * Second));
  SubtreeDataEnabled ← boolVar "subtree-data-enabled" (envBool "SUBTREE_DATA_ENABLED" false);
  EgressMulticastLoop ← boolVar "egress-multicast-loop" (envBool "EGRESS_MULTICAST_LOOP" false);
  Debug ← boolVar "debug" (envBool "DEBUG" false);
  LogFormat ← strVar "log-format" (envStr "LOG_FORMAT" "text");
  LogLevel ← strVar "log-level" (envStr "LOG_LEVEL" "info");
  TraceSampling ← floatVar "trace-sampling" (envFloat "TRACE_SAMPLING" (float_of_Z 0));
  DrainTimeout ← durVar "drain-timeout" (envDuration "DRAIN_TIMEOUT" 0);
  MetricsAddr ← strVar "metrics-addr" (envStr "METRICS_ADDR" ":9400");
  InstanceID ← strVar "instance" (envStr "INSTANCE_ID" "");
  OTLPEndpoint ← strVar "otlp-endpoint" (envStr "OTLP_ENDPOINT" "");
  otlpInterval ← durVar "otlp-interval" (envDuration "OTLP_INTERVAL" (30 * Second));
  bits ← uintVar "shard-bits" (u64 (envInt "SHARD_BITS" 2));
  Some {|
    f_MCScope := MCScope; f_groupIDFlag := groupIDFlag; f_SourceMode := SourceMode;
    f_BindSource := BindSource; f_ssmBootstrapManifest := ssmBootstrapManifest;
    f_ssmBootstrapBeacon := ssmBootstrapBeacon; f_ssmBootstrapSubtreeAnn := ssmBootstrapSubtreeAnn;
    f_ssmPublishersStatic := ssmPublishersStatic; f_SSMBootstrapRefresh := SSMBootstrapRefresh;
    f_SubtreeDataEnabled := SubtreeDataEnabled; f_EgressMulticastLoop := EgressMulticastLoop;
    f_Debug := Debug; f_LogFormat := LogFormat; f_LogLevel := LogLevel;
    f_TraceSampling := TraceSampling; f_DrainTimeout := DrainTimeout; f_MetricsAddr := MetricsAddr;
    f_InstanceID := InstanceID; f_OTLPEndpoint := OTLPEndpoint; f_otlpInterval := otlpInterval;
    f_bits := bits
  |}.

Definition parseBeaconFlags : option BeaconFlags :=
  BeaconEnabled ← boolVar "beacon-enabled" (envBool "BEACON_ENABLED" true);
  beaconTier ← uintVar "beacon-tier" (u64 (envInt "BEACON_TIER" 0));
  beaconPref ← uintVar "beacon-preference" (u64 (envInt "BEACON_PREFERENCE" 128));
  BeaconInterval ← durVar "beacon-interval" (envDuration "BEACON_INTERVAL" (60 * Second));
  BeaconScope ← strVar "beacon-scope" (envStr "BEACON_SCOPE" "site");
  ControlGroupCompat ← strVar "control-group-compat" (envStr "CONTROL_GROUP_COMPAT" ControlGroupASMOnly);
  BeaconFlagsUnicast ← boolVar "beacon-flags-unicast" (envBool "BEACON_FLAGS_UNICAST" false);
  BeaconFlagsMulticast ← boolVar "beacon-flags-multicast" (envBool "BEACON_FLAGS_MULTICAST" true);
  BeaconFlagsDraining ← boolVar "beacon-flags-draining" (envBool "BEACON_FLAGS_DRAINING" false);
  BeaconNACKAddr ← strVar "nack-addr" (envStr "NACK_ADDR" "");
  SuppressACK ← boolVar "suppress-ack" (envBool "SUPPRESS_ACK" false);
  SuppressMISS ← boolVar "suppress-miss" (envBool "SUPPRESS_MISS" false);
  ThrottleResponse ← boolVar "rl-throttle-response" (envBool "RL_THROTTLE_RESPONSE" false);
  Some {|
    f_BeaconEnabled := BeaconEnabled; f_beaconTier := beaconTier; f_beaconPref := beaconPref;
    f_BeaconInterval := BeaconInterval; f_BeaconScope := BeaconScope;
    f_ControlGroupCompat := ControlGroupCompat; f_BeaconFlagsUnicast := BeaconFlagsUnicast;
    f_BeaconFlagsMulticast := BeaconFlagsMulticast; f_BeaconFlagsDraining := BeaconFlagsDraining;
    f_BeaconNACKAddr := BeaconNACKAddr; f_SuppressACK := SuppressACK;
    f_SuppressMISS := SuppressMISS; f_ThrottleResponse := ThrottleResponse
  |}.

(** [None] when the flag package ends the process. *)
Definition parseFlags : option Flags :=
  _ ← flag_set;
  i ← parseIngestFlags; l ← parseLimitFlags; m ← parseModeFlags; b ← parseBeaconFlags;
  Some (mkFlags i l m b).

(** *** Validation, in the order of Load *)

(** Set through the environment or on the command line. *)
Definition explicit (env flag : string) : bool :=
  bool_decide (Getenv env ≠ ""%string) || bool_decide (FlagArg flag ≠ None).

Definition loadTTLs (f : Flags) : TTLs :=
  resolveCacheTTLs
    (mkTTLs (f_CacheTTL f) (f_CacheTTLTx f) (f_CacheTTLBlock f) (f_CacheTTLSubtree f)
       (f_CacheTTLAnchor f) (f_CacheTTLBEEF f))
    (explicit "CACHE_TTL" "cache-ttl") (explicit "CACHE_TTL_TX" "cache-ttl-tx")
    (explicit "CACHE_TTL_BLOCK" "cache-ttl-block") (explicit "CACHE_TTL_SUBTREE" "cache-ttl-subtree")
    (explicit "CACHE_TTL_ANCHOR" "cache-ttl-anchor").

Definition checkWidths (f : Flags) : result unit :=
  _ ← reject ((f_bits f <? 1) || (12 <? f_bits f)) "shard-bits must be in [1, 12]";
  reject (12 <? f_beefBits f) "beef-shard-bits must be in [0, 12]".

(** The normalised source mode and the upper 16 bits of the group addresses. *)
Definition resolveMode (f : Flags) : result (string * Z) :=
  let mode := ToLower (f_SourceMode f) in
  if decide (mode = "asm"%string) then
    match Scopes (f_MCScope f) with
    | Some prefix => mret ("asm"%string, prefix)
    | None => inr (ErrText "unknown scope")
    end
  else if decide (mode = "ssm"%string) then
    match ParseScope (f_MCScope f) with
    | inr err => inr (ErrWrap "source-mode=ssm requires -scope site|global" err)
    | inl scope =>
        match SSMPrefix scope with
        | inr err => inr err
        | inl prefix => mret ("ssm"%string, prefix)
        end
    end
  else inr (ErrText "invalid source-mode").

Definition checkSSM (f : Flags) (mode : string) : result unit :=
  let manifest := splitCSV (f_ssmBootstrapManifest f) in
  let static := splitCSV (f_ssmPublishersStatic f) in
  _ ← reject (f_SSMBootstrapRefresh f <=? 0) "ssm-bootstrap-refresh must be > 0";
  if decide (mode ≠ "ssm"%string) then mret tt else
  _ ← reject (bool_decide (f_BindSource f ≠ ""%string) &&
              match ParseIP (f_BindSource f) with
              | None => true
              | Some ip => bool_decide (To4 ip ≠ None)
              end) "invalid -bind-source";
  _ ← reject (bool_decide (manifest = []) && bool_decide (splitCSV (f_ssmBootstrapBeacon f) = []) &&
              bool_decide (splitCSV (f_ssmBootstrapSubtreeAnn f) = []) && bool_decide (static = []))
        "source-mode=ssm requires a bootstrap list";
  reject (bool_decide (16 < length static)%nat && bool_decide (manifest = []))
    "ssm-publishers-static has too many entries".

(** The tee address: an IPv6 loopback literal with a port. *)
Definition parseTee (f : Flags) : result (option (addr * Z)) :=
  if decide (f_teeListen f = ""%string) then mret None else
  match ParseAddrPort (f_teeListen f) with
  | None => inr (ErrText "invalid -tee-listen")
  | Some (a, port) =>
      _ ← reject (negb (IsLoopback a) || Is4 a || Is4In6 a) "-tee-listen must be an IPv6 loopback literal";
      _ ← reject (port =? 0) "-tee-listen must carry an explicit port";
      mret (Some (a, port))
  end.

Definition checkCache (f : Flags) (aeroHosts : list string) (t : TTLs) : result unit :=
  _ ← reject (bool_decide (f_CacheBackend f ∉ ["memory"; "redis"; "aerospike"]%string)) "cache-backend";
  _ ← reject (bool_decide (f_CacheBackend f = "redis"%string) && bool_decide (f_RedisAddr f = ""%string))
        "redis-addr required when cache-backend=redis";
  _ ← reject (bool_decide (f_CacheBackend f = "aerospike"%string) && bool_decide (aeroHosts = []))
        "aerospike-hosts required when cache-backend=aerospike";
  (* a range over a map: the first offending entry is named, in any order *)
  reject ((CacheTTLTx t <=? 0) || (CacheTTLBlock t <=? 0) || (CacheTTLSubtree t <=? 0) ||
          (CacheTTLAnchor t <=? 0) || (CacheTTLBEEF t <=? 0)) "cache TTL must be > 0".

(** One ingress worker unless the platform scopes sockets to their groups. *)
Definition loadWorkers (f : Flags) : Z :=
  if (f_NumWorkers f <? 1) || bool_decide (GOOS ≠ "linux"%string) then 1 else f_NumWorkers f.

Definition checkQueues (f : Flags) : result unit :=
  _ ← reject (f_QueueDepth f <=? 0) "ingress-queue-depth must be > 0";
  reject (f_IngressProcs f <=? 0) "ingress-procs must be > 0".

Fixpoint egressNames (names : list string) (out : list string) : result (list string) :=
  match names with
  | [] => mret out
  | name :: names' =>
      let name := TrimSpace name in
      if decide (name = ""%string) then egressNames names' out else
      match InterfaceByName name with
      | Some err => inr (ErrWrap "egress interface not found" err)
      | None => egressNames names' (out ++ [name])
      end
  end.

Definition loadEgress (f : Flags) : result (list string) :=
  out ← egressNames (Split (f_egressFlag f)) [];
  _ ← reject (bool_decide (out = [])) "at least one egress interface must be specified";
  mret out.

Fixpoint checkEndpoints (eps : list string) : result unit :=
  match eps with
  | [] => mret tt
  | ep :: eps' =>
      match SplitHostPort ep with
      | Some err => inr (ErrWrap "invalid -upstream-retry-endpoints entry" err)
      | None => checkEndpoints eps'
      end
  end.

(** The upstreams and the number of recovery workers. *)
Definition loadProxy (f : Flags) : result (list string * Z) :=
  let eps := splitCSV (f_upstreamFlag f) in
  if negb (f_ProxyEnabled f) then mret (eps, f_ProxyWorkers f) else
  _ ← reject (bool_decide (eps = [])) "proxy-enabled requires at least one upstream";
  _ ← checkEndpoints eps;
  _ ← reject (f_ProxyTimeout f <=? 0) "proxy-timeout must be > 0";
  _ ← reject (f_ProxyMaxEndpoints f <? 0) "proxy-max-endpoints must be >= 0";
  let workers := if f_ProxyWorkers f <=? 0 then 4 else f_ProxyWorkers f in
  _ ← reject (f_ProxyQueue f <=? 0) "proxy-queue must be > 0";
  mret (eps, workers).

(** The normalised control-group setting, checked against the beacon. *)
Definition loadControl (f : Flags) (mode : string) : result string :=
  let compat := ToLower (TrimSpace (f_ControlGroupCompat f)) in
  _ ← reject (bool_decide (compat ∉ [ControlGroupASMOnly; ControlGroupBoth; ControlGroupDerived]))
        "invalid -control-group-compat";
  if negb (f_BeaconEnabled f) then mret compat else
  match BeaconGroupPrefixes compat mode (f_BeaconScope f) with
  | inr err => inr (ErrWrap "beacon group" err)
  | inl _ => mret compat
  end.

Definition checkBeacon (f : Flags) : result unit :=
  _ ← reject (254 <? f_beaconTier f) "beacon-tier must be in [0, 254]";
  _ ← reject (255 <? f_beaconPref f) "beacon-preference must fit in uint8";
  _ ← reject (f_BeaconInterval f <? Second) "beacon-interval must be at least 1s";
  reject (bool_decide (f_BeaconNACKAddr f ≠ ""%string) &&
          match ParseIP (f_BeaconNACKAddr f) with
          | None => true
          | Some ip => bool_decide (To16 ip = None) || bool_decide (To4 ip ≠ None)
          end) "nack-addr must be a valid IPv6 unicast address".

Definition validate (f : Flags) : result Config :=
  let ttls := loadTTLs f in
  _ ← checkWidths f;
  '(mode, prefix) ← resolveMode f;
  _ ← checkSSM f mode;
  gid ← match parseGroupID (f_groupIDFlag f) with
        | inr err => inr (ErrWrap "invalid -mc-group-id" err)
        | inl n => inl n
        end;
  tee ← parseTee f;
  _ ← reject (negb (f_MCJoinEnabled f) && bool_decide (tee = None)) "mc-join-enabled=false requires -tee-listen";
  let aero := splitCSV (f_aeroHosts f) in
  _ ← checkCache f aero ttls;
  _ ← checkQueues f;
  egress ← loadEgress f;
  '(upstreams, pworkers) ← loadProxy f;
  scopeByte ← beaconScopeByte (f_BeaconScope f);
  compat ← loadControl f mode;
  _ ← checkBeacon f;
  mret {|
    c_flags := f; CacheTTLs := ttls; BeaconTier := f_beaconTier f; BeaconPreference := f_beaconPref f;
    ShardBits := f_bits f; BEEFShardBits := f_beefBits f; NumGroups := 2 ^ f_bits f;
    OTLPInterval := f_otlpInterval f; SourceMode := mode; MCPrefix := prefix;
    SSMBootstrapManifest := splitCSV (f_ssmBootstrapManifest f);
    SSMBootstrapBeacon := splitCSV (f_ssmBootstrapBeacon f);
    SSMBootstrapSubtreeAnn := splitCSV (f_ssmBootstrapSubtreeAnn f);
    SSMPublishersStatic := splitCSV (f_ssmPublishersStatic f);
    MCGroupID := gid; TeeListen := tee; AeroHosts := aero;
    NumWorkers := loadWorkers f;
    NACKWorkers := if f_NACKWorkers f <=? 0 then NumCPU else f_NACKWorkers f;
    EgressIfaces := egress; UpstreamRetryEndpoints := upstreams; ProxyWorkers := pworkers;
    BeaconScopeByte := scopeByte; ControlGroupCompat := compat
  |}.

Definition Load : option (result Config) := validate <$> parseFlags.

(** ** What a loaded configuration guarantees *)

Record valid (c : Config) : Prop := {
  v_bits : 1 ≤ ShardBits c ≤ 12 ∧ NumGroups c = 2 ^ ShardBits c;
  v_beef : 0 ≤ BEEFShardBits c ≤ 12;
  v_mode :
    SourceMode c = "asm"%string ∧ Scopes (f_MCScope c) = Some (MCPrefix c) ∨
    SourceMode c = "ssm"%string ∧
      (∃ sc, ParseScope (f_MCScope c) = inl sc ∧ SSMPrefix sc = inl (MCPrefix c)) ∧
      (SSMBootstrapManifest c ≠ [] ∨ SSMBootstrapBeacon c ≠ [] ∨
       SSMBootstrapSubtreeAnn c ≠ [] ∨ SSMPublishersStatic c ≠ []);
  v_gid : 0 ≤ MCGroupID c < 2 ^ 16;
  v_feed : f_MCJoinEnabled c = true ∨ TeeListen c ≠ None;
  v_tee : ∀ a port, TeeListen c = Some (a, port) → As16 a = IPv6loopback ∧ 0 < port < 2 ^ 16;
  v_backend : f_CacheBackend c ∈ ["memory"; "redis"; "aerospike"]%string;
  v_ttls : 0 < CacheTTLTx (CacheTTLs c) ∧ 0 < CacheTTLBlock (CacheTTLs c) ∧
    0 < CacheTTLSubtree (CacheTTLs c) ∧ 0 < CacheTTLAnchor (CacheTTLs c) ∧ 0 < CacheTTLBEEF (CacheTTLs c);
  v_workers : 1 ≤ NumWorkers c ∧ 1 ≤ NACKWorkers c ∧ 0 < f_QueueDepth c ∧ 0 < f_IngressProcs c;
  v_egress : EgressIfaces c ≠ [] ∧ Forall (λ n, n ≠ ""%string ∧ InterfaceByName n = None) (EgressIfaces c);
  v_proxy : f_ProxyEnabled c = true →
    UpstreamRetryEndpoints c ≠ [] ∧ Forall (λ ep, SplitHostPort ep = None) (UpstreamRetryEndpoints c) ∧
    0 < f_ProxyTimeout c ∧ 0 ≤ f_ProxyMaxEndpoints c ∧ 0 < ProxyWorkers c ∧ 0 < f_ProxyQueue c;
  v_beacon : 0 ≤ BeaconTier c ≤ 254 ∧ 0 ≤ BeaconPreference c ≤ 255 ∧ Second ≤ f_BeaconInterval c ∧
    beaconScopeByte (f_BeaconScope c) = inl (BeaconScopeByte c);
  v_nack : f_BeaconNACKAddr c = ""%string ∨ ∃ ip, ParseIP (f_BeaconNACKAddr c) = Some ip ∧ To4 ip = None;
  v_control : f_BeaconEnabled c = true → ∃ ps, ps ≠ [] ∧
    BeaconGroupPrefixes (ControlGroupCompat c) (SourceMode c) (f_BeaconScope c) = inl ps;
}.

(** ** Lemmas *)

Lemma result_bind_inl {A B} (m : result A) (f : A → result B) b :
  m ≫= f = inl b ↔ ∃ a, m = inl a ∧ f a = inl b.
Proof. destruct m; unfold mbind; simpl; naive_solver. Qed.

Lemma reject_inl b msg u : reject b msg = inl u ↔ b = false.
Proof. destruct b, u; simpl; naive_solver. Qed.

(** Inverts a successful chain of checks. *)
Ltac inv_checks :=
  repeat match goal with
  | H : _ ≫= _ = inl _ |- _ => apply result_bind_inl in H as (? & ? & H)
  | H : reject _ _ = inl _ |- _ => apply reject_inl in H
  | H : mret _ = inl _ |- _ => injection H as H; simplify_eq/=
  | H : _ || _ = false |- _ => apply orb_false_iff in H as [? ?]
  | H : (_ <? _) = false |- _ => apply Z.ltb_ge in H
  | H : (_ <=? _) = false |- _ => apply Z.leb_gt in H
  | H : (_ =? _) = false |- _ => apply Z.eqb_neq in H
  | H : bool_decide _ = false |- _ => apply bool_decide_eq_false in H
  | H : negb _ = false |- _ => apply negb_false_iff in H
  end.

Lemma checkWidths_inl f u : checkWidths f = inl u → 1 ≤ f_bits f ≤ 12 ∧ f_beefBits f ≤ 12.
Proof. unfold checkWidths. intros H1. inv_checks. lia. Qed.

Lemma checkSSM_inl f mode u : checkSSM f mode = inl u → mode = "ssm"%string →
  splitCSV (f_ssmBootstrapManifest f) ≠ [] ∨ splitCSV (f_ssmBootstrapBeacon f) ≠ [] ∨
  splitCSV (f_ssmBootstrapSubtreeAnn f) ≠ [] ∨ splitCSV (f_ssmPublishersStatic f) ≠ [].
Proof.
  unfold checkSSM. intros H1 ->. apply result_bind_inl in H1 as (_ & _ & H1).
  rewrite decide_False in H1 by (intros Hne; by apply Hne). inv_checks.
  match goal with H : context [f_ssmBootstrapBeacon] |- _ => revert H end.
  rewrite !andb_false_iff, !bool_decide_eq_false. tauto.
Qed.

Lemma parseGroupID_range s n : parseGroupID s = inl n → 0 ≤ n < 2 ^ 16.
Proof.
  unfold parseGroupID. case_decide; [done|].
  destruct (match strip _ _ with Some _ => _ | None => _ end) as [l base] eqn:Hb.
  assert (0 < base). { repeat case_match; simplify_eq; lia. }
  destruct (ParseUint l base 16) eqn:Hp; [|done]. intros [= <-]. by apply ParseUint_range in Hp.
Qed.

(** A zone makes no difference to the class of an address. *)
Lemma IsLoopback_v6 a : IsLoopback a = true → Is4 a = false → Is4In6 a = false → As16 a = IPv6loopback.
Proof.
  destruct a as [|b|b|b z]; try done; intros Hl _ H46; unfold IsLoopback in Hl; rewrite H46 in Hl;
    by apply bool_decide_eq_true in Hl as ->.
Qed.

Lemma parseTee_inl f tee : parseTee f = inl tee →
  ∀ a port, tee = Some (a, port) → As16 a = IPv6loopback ∧ 0 < port < 2 ^ 16.
Proof.
  unfold parseTee. case_decide; [intros [= <-]; done|].
  destruct (ParseAddrPort (f_teeListen f)) as [[a0 p0]|] eqn:Hp; [|done].
  apply ParseAddrPort_range in Hp as [_ Hp]. intros Ht a port ->. inv_checks.
  split; [by apply IsLoopback_v6|lia].
Qed.

Lemma checkCache_inl f aero t u : checkCache f aero t = inl u →
  f_CacheBackend f ∈ ["memory"; "redis"; "aerospike"]%string ∧
  0 < CacheTTLTx t ∧ 0 < CacheTTLBlock t ∧ 0 < CacheTTLSubtree t ∧ 0 < CacheTTLAnchor t ∧ 0 < CacheTTLBEEF t.
Proof. unfold checkCache. intros H1. inv_checks. split_and!; [by apply dec_stable|lia..]. Qed.

Lemma egressNames_inl names out l : egressNames names out = inl l →
  Forall (λ n, n ≠ ""%string ∧ InterfaceByName n = None) out →
  Forall (λ n, n ≠ ""%string ∧ InterfaceByName n = None) l.
Proof.
  revert out. induction names as [|n names IH]; intros out; simpl; [by intros [= <-]|].
  case_decide; [apply IH|]. destruct (InterfaceByName (TrimSpace n)) eqn:Hi; [done|].
  intros Hl Hout. apply (IH _ Hl). apply Forall_app_2; [done|]. by apply Forall_singleton.
Qed.

Lemma loadEgress_inl f l : loadEgress f = inl l →
  l ≠ [] ∧ Forall (λ n, n ≠ ""%string ∧ InterfaceByName n = None) l.
Proof.
  unfold loadEgress. intros H1. inv_checks. split; [done|]. eapply egressNames_inl; [done|constructor].
Qed.

Lemma checkEndpoints_inl eps u : checkEndpoints eps = inl u → Forall (λ ep, SplitHostPort ep = None) eps.
Proof.
  induction eps as [|ep eps IH]; simpl; [constructor|].
  destruct (SplitHostPort ep) eqn:Hs; [done|]. intros ?. constructor; [done|by apply IH].
Qed.

Lemma loadProxy_inl f eps n : loadProxy f = inl (eps, n) → f_ProxyEnabled f = true →
  eps ≠ [] ∧ Forall (λ ep, SplitHostPort ep = None) eps ∧
  0 < f_ProxyTimeout f ∧ 0 ≤ f_ProxyMaxEndpoints f ∧ 0 < n ∧ 0 < f_ProxyQueue f.
Proof.
  unfold loadProxy. intros H1 Hpe. rewrite Hpe in H1. simpl in H1. inv_checks.
  split_and!; try done; [by eapply checkEndpoints_inl|].
  destruct (f_ProxyWorkers f <=? 0) eqn:Hw; lia.
Qed.

Lemma ControlGroupPrefixes_ne compat mode name ps :
  ControlGroupPrefixes compat mode name = inl ps → ps ≠ [].
Proof. unfold ControlGroupPrefixes. intros Hp. repeat case_match; repeat case_decide; by simplify_eq. Qed.

Lemma addNew_ne out ps : out ≠ [] ∨ ps ≠ [] → addNew out ps ≠ [].
Proof.
  revert out. induction ps as [|p ps IH]; intros out Hne; simpl; [naive_solver|].
  apply IH. left. case_decide as Hp; [by intros ->; apply not_elem_of_nil in Hp|by destruct out].
Qed.

Lemma collectPrefixes_ne compat mode out names ps :
  collectPrefixes compat mode out names = inl ps → out ≠ [] ∨ names ≠ [] → ps ≠ [].
Proof.
  revert out. induction names as [|n names IH]; intros out; simpl; [by intros [= <-] [?|Hn]|].
  destruct (ControlGroupPrefixes compat mode n) as [ps0|] eqn:Hp; [|done]. intros Hc _.
  eapply IH; [exact Hc|]. left. apply addNew_ne. right. by eapply ControlGroupPrefixes_ne.
Qed.

Lemma BeaconGroupPrefixes_ne compat mode scope ps :
  BeaconGroupPrefixes compat mode scope = inl ps → ps ≠ [].
Proof.
  unfold BeaconGroupPrefixes, beaconScopeNames. intros Hb.
  repeat case_decide; try done; (eapply collectPrefixes_ne; [exact Hb|]; by right).
Qed.

Lemma loadControl_inl f mode compat : loadControl f mode = inl compat → f_BeaconEnabled f = true →
  ∃ ps, ps ≠ [] ∧ BeaconGroupPrefixes compat mode (f_BeaconScope f) = inl ps.
Proof.
  unfold loadControl. intros H1 Hbe. rewrite Hbe in H1. simpl in H1. inv_checks.
  destruct (BeaconGroupPrefixes _ _ _) as [ps|] eqn:Hp; [|done]. inv_checks.
  exists ps. split; [by eapply BeaconGroupPrefixes_ne|done].
Qed.

(** The unsigned flags are in the range of their type. *)
Lemma uintVar_range name z n : uintVar name (u64 z) = Some n → 0 ≤ n < 2 ^ 64.
Proof.
  unfold uintVar, flagVar. destruct (FlagArg name); [apply ParseUint0_range|].
  intros [= <-]. unfold u64. apply Z.mod_pos_bound. lia.
Qed.

Ltac inv_flags H :=
  repeat (let x := fresh "x" in let Hx := fresh "Hx" in apply bind_Some in H as (x & Hx & H)).

Lemma parseFlags_uints f : parseFlags = Some f →
  0 ≤ f_bits f ∧ 0 ≤ f_beefBits f ∧ 0 ≤ f_beaconTier f ∧ 0 ≤ f_beaconPref f.
Proof.
  unfold parseFlags. intros Hf. apply bind_Some in Hf as (_ & _ & Hf). apply bind_Some in Hf as (i & Hi & Hf).
  apply bind_Some in Hf as (l & _ & Hf). apply bind_Some in Hf as (m & Hm & Hf).
  apply bind_Some in Hf as (b & Hb & [= <-]). simpl.
  unfold parseIngestFlags in Hi. unfold parseModeFlags in Hm. unfold parseBeaconFlags in Hb.
  inv_flags Hi. inv_flags Hm. inv_flags Hb. simplify_eq/=.
  split_and!; eapply uintVar_range; eassumption.
Qed.

Lemma loadWorkers_pos f : 1 ≤ loadWorkers f.
Proof. unfold loadWorkers. destruct (f_NumWorkers f <? 1) eqn:Hn; simpl; [lia|]. case_bool_decide; lia. Qed.

Lemma resolveMode_inl f mode prefix : resolveMode f = inl (mode, prefix) →
  mode = "asm"%string ∧ Scopes (f_MCScope f) = Some prefix ∨
  mode = "ssm"%string ∧ ∃ sc, ParseScope (f_MCScope f) = inl sc ∧ SSMPrefix sc = inl prefix.
Proof.
  unfold resolveMode. repeat case_decide; [| |done].
  - destruct (Scopes (f_MCScope f)) eqn:Hs; [|done]. intros [= <- <-]. by left.
  - destruct (ParseScope (f_MCScope f)) as [sc|] eqn:Hp; [|done].
    destruct (SSMPrefix sc) as [pf|] eqn:Hx; [|done]. intros [= <- <-]. right. eauto.
Qed.

Lemma checkBeacon_inl f u : checkBeacon f = inl u →
  f_beaconTier f ≤ 254 ∧ f_beaconPref f ≤ 255 ∧ Second ≤ f_BeaconInterval f.
Proof. unfold checkBeacon. intros H1. inv_checks. lia. Qed.

Lemma checkBeacon_nack f u : checkBeacon f = inl u →
  f_BeaconNACKAddr f = ""%string ∨ ∃ ip, ParseIP (f_BeaconNACKAddr f) = Some ip ∧ To4 ip = None.
Proof.
  unfold checkBeacon. intros H1. inv_checks. destruct (decide (f_BeaconNACKAddr f = ""%string)) as [|Hne]; [by left|right].
  rewrite (bool_decide_true _ Hne) in H1. simpl in H1. destruct (ParseIP _) as [ip|]; [|done]. exists ip.
  split; [done|]. inv_checks. by apply dec_stable.
Qed.

Lemma validate_valid `{!HostOk} f c : validate f = inl c →
  0 ≤ f_beefBits f → 0 ≤ f_beaconTier f → 0 ≤ f_beaconPref f → valid c.
Proof.
  unfold validate. intros Hv Hb2 Hb3 Hb4.
  apply result_bind_inl in Hv as (u1 & Hw & Hv). apply checkWidths_inl in Hw.
  apply result_bind_inl in Hv as ([mode prefix] & Hmode & Hv). apply resolveMode_inl in Hmode.
  apply result_bind_inl in Hv as (u2 & Hssm & Hv).
  apply result_bind_inl in Hv as (gid & Hgid & Hv).
  apply result_bind_inl in Hv as (tee & Htee & Hv).
  apply result_bind_inl in Hv as (u3 & Hfeed & Hv). apply reject_inl in Hfeed.
  apply result_bind_inl in Hv as (u4 & Hcache & Hv). apply checkCache_inl in Hcache as (Hbk & Httl).
  apply result_bind_inl in Hv as (u5 & Hq & Hv).
  apply result_bind_inl in Hv as (egress & Heg & Hv). apply loadEgress_inl in Heg.
  apply result_bind_inl in Hv as ([ups pw] & Hpx & Hv).
  apply result_bind_inl in Hv as (sb & Hsb & Hv).
  apply result_bind_inl in Hv as (compat & Hcc & Hv).
  apply result_bind_inl in Hv as (u6 & Hbc & Hv). pose proof (checkBeacon_nack _ _ Hbc).
  apply checkBeacon_inl in Hbc as (? & ? & ?).
  unfold checkQueues in Hq. inv_checks. pose proof num_cpu_pos. pose proof (loadWorkers_pos f).
  split; simpl; try done.
  - split; [lia|done].
  - lia.
  - destruct Hmode as [[-> ?]|[-> ?]]; [by left|right]. split_and!; [done..|]. by eapply checkSSM_inl.
  - destruct (parseGroupID _) eqn:Hp; [|done]. simplify_eq. by eapply parseGroupID_range.
  - revert Hfeed. destruct (f_MCJoinEnabled f); [by left|right]. simpl in Hfeed. by apply bool_decide_eq_false in Hfeed.
  - by apply parseTee_inl with f.
  - split_and!; [done| |done..]. destruct (f_NACKWorkers f <=? 0) eqn:?; lia.
  - by apply loadProxy_inl.
  - by apply loadControl_inl.
Qed.

(** The result of a number parser as parseGroupID returns it. *)
Lemma ParseUint_result (o : option Z) msg n :
  match o with Some m => inl m | None => inr (ErrText msg) end = (inl n : result Z) ↔ o = Some n.
Proof. destruct o; naive_solver. Qed.

Lemma ParseUint_Some l base bits n :
  ParseUint l base bits = Some n ↔ l ≠ [] ∧ digits base 0 l = Some n ∧ n < 2 ^ bits.
Proof.
  unfold ParseUint. case_decide; [naive_solver|]. destruct (digits base 0 l) as [m|]; [|naive_solver].
  destruct (m <? 2 ^ bits) eqn:Hm; naive_solver lia.
Qed.

(** A decimal numeral too large for the width is too large in base 16 as well. *)
Lemma decimal_overflow_hex l k n : l ≠ [] → ParseUint l 10 16 = None →
  digits 10 0 l = Some k → digits 16 0 l = Some n → n < 2 ^ 16 → False.
Proof.
  intros Hl Hd H10 H16 Hn. destruct (digits_base_mono 0 0 l k) as (m & Hm & Hle); [lia|done|].
  rewrite H16 in Hm. simplify_eq.
  assert (ParseUint l 10 16 = Some k) as Hx by (apply ParseUint_Some; split_and!; [done..|lia]).
  by rewrite Hd in Hx.
Qed.

Lemma explicit_env env flag : Getenv env ≠ ""%string → explicit env flag = true.
Proof. intros He. unfold explicit. by rewrite bool_decide_true. Qed.

(** The class TTLs of a loaded Config are those resolved from the flags. *)
Lemma Load_ttls c : Load = Some (inl c) → ∃ f, parseFlags = Some f ∧ CacheTTLs c = loadTTLs f.
Proof.
  unfold Load. destruct parseFlags as [f|]; [|done]. simpl. intros [= Hv]. exists f. split; [done|].
  unfold validate in Hv.
  repeat (apply result_bind_inl in Hv as (? & _ & Hv);
          try match type of Hv with (let '(_, _) := ?x in _) = _ => destruct x end).
  by injection Hv as <-.
Qed.

Lemma parseFlags_ttl f d : parseFlags = Some f →
  durVar "cache-ttl" (envDuration "CACHE_TTL" (60 * Second)) = Some d → f_CacheTTL f = d.
Proof.
  unfold parseFlags. intros Hf Hd. apply bind_Some in Hf as (_ & _ & Hf). apply bind_Some in Hf as (i & Hi & Hf).
  unfold parseIngestFlags in Hi. inv_flags Hi. inv_flags Hf. simplify_eq/=. congruence.
Qed.

(** *** The TTL of a class of frames *)

Inductive ttl_class := TTLTx | TTLBlock | TTLSubtree | TTLAnchor | TTLBEEF.
Definition ttl_of (k : ttl_class) : TTLs → Z :=
  match k with
  | TTLTx => CacheTTLTx | TTLBlock => CacheTTLBlock | TTLSubtree => CacheTTLSubtree
  | TTLAnchor => CacheTTLAnchor | TTLBEEF => CacheTTLBEEF
  end.
(** Its variable, its flag and its default. *)
Definition ttl_env (k : ttl_class) : string :=
  match k with
  | TTLTx => "CACHE_TTL_TX" | TTLBlock => "CACHE_TTL_BLOCK" | TTLSubtree => "CACHE_TTL_SUBTREE"
  | TTLAnchor => "CACHE_TTL_ANCHOR" | TTLBEEF => "CACHE_TTL_BEEF"
  end.
Definition ttl_flag (k : ttl_class) : string :=
  match k with
  | TTLTx => "cache-ttl-tx" | TTLBlock => "cache-ttl-block" | TTLSubtree => "cache-ttl-subtree"
  | TTLAnchor => "cache-ttl-anchor" | TTLBEEF => "cache-ttl-beef"
  end.
Definition ttl_def (k : ttl_class) : Z :=
  match k with
  | TTLTx => defaultCacheTTLTx | TTLBlock => defaultCacheTTLBlock | TTLSubtree => defaultCacheTTLSubtree
  | TTLAnchor => defaultCacheTTLAnchor | TTLBEEF => defaultCacheTTLBEEF
  end.

Lemma parseFlags_class k f : parseFlags = Some f →
  durVar (ttl_flag k) (envDuration (ttl_env k) (ttl_def k)) =
  Some (ttl_of k (mkTTLs (f_CacheTTL f) (f_CacheTTLTx f) (f_CacheTTLBlock f) (f_CacheTTLSubtree f)
    (f_CacheTTLAnchor f) (f_CacheTTLBEEF f))).
Proof.
  unfold parseFlags. intros Hf. apply bind_Some in Hf as (_ & _ & Hf). apply bind_Some in Hf as (i & Hi & Hf).
  unfold parseIngestFlags in Hi. inv_flags Hi. inv_flags Hf. simplify_eq/=. by destruct k.
Qed.

(** What the operator wrote in the variable of a class is its TTL, whatever
    CACHE_TTL says. *)
Lemma Load_class_ttl c k d : Load = Some (inl c) → FlagArg (ttl_flag k) = None →
  Getenv (ttl_env k) ≠ ""%string → ParseDuration (Getenv (ttl_env k)) = Some d → ttl_of k (CacheTTLs c) = d.
Proof.
  intros HL Ha He Hd. destruct (Load_ttls c HL) as (f & Hf & ->). apply (parseFlags_class k) in Hf.
  unfold durVar, flagVar in Hf. rewrite Ha in Hf. unfold envDuration, env_or in Hf. rewrite decide_False, Hd in Hf by done.
  injection Hf as Hf. unfold loadTTLs, resolveCacheTTLs. destruct (explicit "CACHE_TTL" _); [|by destruct k].
  pose proof (explicit_env (ttl_env k) (ttl_flag k) He) as Hx. by destruct k; simpl in *; rewrite ?Hx.
Qed.

(** *** Flags that were set parse *)

Lemma flagVar_total k name set def : flag_set = Some set → kind_named formal name = Some k →
  is_Some (flagVar (set_value k) name def).
Proof.
  intros Hs Hk. unfold flagVar, FlagArg. rewrite Hs. cbn [mbind option_bind].
  destruct (arg_of set name) as [v|] eqn:Ha; [|by eexists]. by eapply arg_typed.
Qed.
Lemma bind_total {A B} (o : option A) (f : A → option B) : is_Some o → (∀ x, is_Some (f x)) → is_Some (o ≫= f).
Proof. intros [x ->] Hf. apply Hf. Qed.

(** Every variable is defined with the kind it is read with. *)
Ltac flag_total Hs :=
  repeat (apply bind_total;
    [first [ by apply (flagVar_total KString _ _ _ Hs) | by apply (flagVar_total KInt _ _ _ Hs)
           | by apply (flagVar_total KUint _ _ _ Hs) | by apply (flagVar_total KBool _ _ _ Hs)
           | by apply (flagVar_total KFloat64 _ _ _ Hs) | by apply (flagVar_total KDuration _ _ _ Hs) ]
    |intros ?]); by eexists.

Lemma parseFlags_total set : flag_set = Some set → is_Some parseFlags.
Proof.
  intros Hs. unfold parseFlags. rewrite Hs. apply bind_total; [by eexists|intros _].
  apply bind_total; [unfold parseIngestFlags; flag_total Hs|intros i].
  apply bind_total; [unfold parseLimitFlags; flag_total Hs|intros l].
  apply bind_total; [unfold parseModeFlags; flag_total Hs|intros m].
  apply bind_total; [unfold parseBeaconFlags; flag_total Hs|intros b]. by eexists.
Qed.

(** What Load returns is valid. *)
Lemma Load_ok `{!HostOk} c : Load = Some (inl c) → valid c.
Proof.
  unfold Load. destruct parseFlags as [f|] eqn:Hf; [|done]. simpl. intros [= Hv].
  apply parseFlags_uints in Hf as (Hb1 & Hb2 & Hb3 & Hb4). by eapply validate_valid.
Qed.

(** ** Theorems *)

(** C18: nothing but a usable configuration is loaded. Whatever the environment and
    the command line hold, a Config that Load returns has every property the
    components are built on: group counts within the 4096-index zones, a prefix
    of its mode and scope, a feed for the cache, a tee only on the IPv6 loopback,
    positive TTLs, queues and worker counts, at least one existing egress
    interface, upstreams when recovery is on, and beacon fields that fit the
    ADVERT. *)
Theorem Load_valid (c : Config) : HostOk → Load = Some (inl c) → valid c.
Proof.
  intros Hok. apply Load_ok.
Qed.

Lemma formal_nameable : Forall (λ p, nameable p.1 = true) formal.
Proof.
  apply Forall_forall. intros p Hp.
  assert (forallb (λ p, nameable p.1) formal = true) as Hf by (vm_compute; reflexivity).
  rewrite forallb_forall in Hf. by apply Hf, list_elem_of_In.
Qed.

(** C37: Load returns, with a configuration or an error, exactly on the command lines
    the flag package accepts: those that, up to the first argument that is no flag
    or "--", consist of flags of Load, each with a value of its kind, after an equals
    sign or, unless the flag is a bool, in the next argument; then the values are
    exactly those written, the last one of a flag counting. On any other the process
    ends. Nothing in the environment, however malformed, stops it. In particular it
    returns on every list of arguments -name=value of flags and values of their
    kinds. *)
Theorem Load_returns :
  (is_Some Load ↔ ∃ set, reads formal Args set) ∧
  (∀ set name, reads formal Args set → FlagArg name = arg_of set name) ∧
  (∀ set, Args = written <$> set → Forall (typed formal) set →
     is_Some Load ∧ ∀ name, FlagArg name = arg_of set name).
Proof.
  assert (is_Some Load ↔ ∃ set, flag_set = Some set) as HL.
  { unfold Load. rewrite fmap_is_Some. split.
    - unfold parseFlags. intros [f (set & Hs & _)%bind_Some]. by eexists.
    - intros [set Hs]. by eapply parseFlags_total. }
  assert (∀ set, flag_set = Some set ↔ reads formal Args set) as Hr by (intros set; apply Parse_reads).
  assert (∀ set name, flag_set = Some set → FlagArg name = arg_of set name) as Ha.
  { intros set name Hs. unfold FlagArg. by rewrite Hs. }
  split_and!.
  - rewrite HL. split; intros [set Hs]; exists set; by apply Hr.
  - intros set name Hs. by apply Ha, Hr.
  - intros set HA Ht. assert (flag_set = Some set) as Hs.
    { unfold flag_set. rewrite HA. apply Parse_written; [|done]. by apply formal_nameable. }
    split; [apply HL; by eexists|]. intros name. by apply Ha.
Qed.

(** A -mc-group-id is read exactly. Of the trimmed text, a numeral of decimal
    digits denotes its decimal value, text with a 0x prefix and any other
    hexadecimal numeral its hexadecimal value, and nothing is accepted that does
    not fit 16 bits: a decimal number too large for 16 bits is refused, although
    it is then tried in base 16. *)
Theorem parseGroupID_exact (s : string) (n : Z) :
  let l := trim (bytes_of_string s) in
  parseGroupID s = inl n ↔ n < 2 ^ 16 ∧ l ≠ [] ∧
    match strip [x30; x78] (lower_bytes l) with
    | Some _ => drop 2 l ≠ [] ∧ digits 16 0 (drop 2 l) = Some n
    | None => digits 10 0 l = Some n ∨ digits 10 0 l = None ∧ digits 16 0 l = Some n
    end.
Proof.
  intros l. unfold parseGroupID. fold l. destruct (decide (l = [])) as [->|Hl]; [naive_solver|].
  destruct (strip _ _) eqn:Hs.
  { rewrite ParseUint_result, ParseUint_Some. naive_solver. }
  destruct (ParseUint l 10 16) as [m|] eqn:Hd.
  - rewrite ParseUint_result. rewrite Hd. apply ParseUint_Some in Hd as (_ & Hd & Hm). rewrite Hd. naive_solver.
  - rewrite ParseUint_result, ParseUint_Some. split.
    + intros (_ & H16 & Hn). split_and!; [done..|]. destruct (digits 10 0 l) as [k|] eqn:H10; [|auto].
      exfalso. by eapply decimal_overflow_hex; eauto.
    + intros (Hn & _ & [H10|[_ H16]]); [|done]. exfalso.
      assert (ParseUint l 10 16 = Some n) as Hx by (by apply ParseUint_Some). by rewrite Hd in Hx.
Qed.

(** A CACHE_TTL that does not parse shortens the class TTLs. When the variable is
    set to text that is no duration, the flag keeps its 60 s default, yet the
    variable counts as explicit: every class TTL the operator did not set is
    60 s, not its own default of 10, 5 or 2 minutes. *)
Theorem unparsable_ttl_collapses (c : Config) :
  Load = Some (inl c) → Getenv "CACHE_TTL" ≠ ""%string → ParseDuration (Getenv "CACHE_TTL") = None →
  FlagArg "cache-ttl" = None →
  (explicit "CACHE_TTL_BLOCK" "cache-ttl-block" = false → CacheTTLBlock (CacheTTLs c) = 60 * Second) ∧
  (explicit "CACHE_TTL_SUBTREE" "cache-ttl-subtree" = false → CacheTTLSubtree (CacheTTLs c) = 60 * Second) ∧
  (explicit "CACHE_TTL_ANCHOR" "cache-ttl-anchor" = false → CacheTTLAnchor (CacheTTLs c) = 60 * Second).
Proof.
  intros HL Hset Hbad Harg. destruct (Load_ttls c HL) as (f & Hf & ->).
  assert (f_CacheTTL f = 60 * Second) as Httl.
  { eapply parseFlags_ttl; [exact Hf|]. unfold durVar, flagVar. rewrite Harg.
    unfold envDuration, env_or. by rewrite decide_False, Hbad by done. }
  unfold loadTTLs, resolveCacheTTLs. rewrite (explicit_env "CACHE_TTL" "cache-ttl") by done. simpl.
  rewrite Httl. split_and!; by intros ->.
Qed.
End load.

(** ** Instances *)
Section instances.
Import RefEnv.

(** A Linux host with eight processors and one interface. *)
Definition refHostArgs (env : list (string * string)) (args : list string) : Host := {|
  Getenv := λ k, default ""%string (snd <$> List.find (λ p, bool_decide (p.1 = k)) env);
  Args := args;
  InterfaceByName := λ s, if decide (s = "eth0"%string) then None else Some (ErrText "no such interface");
  NumCPU := 8; GOOS := "linux"%string;
|}.
Definition refHost (env : list (string * string)) : Host := refHostArgs env [].

Lemma refHost_ok env args : HostOk (H := refHostArgs env args).
Proof. by split. Qed.

Definition ref_env : list (string * string) :=
  [("CACHE_TTL", "10 m"); ("TEE_LISTEN", "[::1]:9500"); ("SHARD_BITS", "4");
   ("PROXY_ENABLED", "true"); ("UPSTREAM_RETRY_ENDPOINTS", "up1:9300, up2:9300,")]%string.

(** The configuration a loaded environment has. *)
Definition ref_config : Config := ltac:(
  let r := eval vm_compute in (Load (H := refHost ref_env)) in
  match r with Some (inl ?c) => exact c end).

Lemma ref_config_loaded : Load (H := refHost ref_env) = Some (inl ref_config).
Proof. vm_compute. reflexivity. Qed.

Lemma Load_valid_witness : valid (H := refHost ref_env) ref_config.
Proof. apply (Load_valid (H := refHost ref_env)); [apply refHost_ok|apply ref_config_loaded]. Defined.

Lemma unparsable_ttl_collapses_witness :
  Getenv (Host := refHost ref_env) "CACHE_TTL" = "10 m"%string ∧
  CacheTTLBlock (CacheTTLs ref_config) = 60 * Second ∧
  CacheTTLBlock (CacheTTLs ref_config) < defaultCacheTTLBlock.
Proof.
  split_and!; [reflexivity| |by vm_compute].
  by apply (unparsable_ttl_collapses (H := refHost ref_env) ref_config).
Defined.

(** What the loaded configuration holds. *)
Example ref_config_fields :
  NumGroups ref_config = 16 ∧ TeeListen ref_config = Some (Addr6 IPv6loopback, 9500) ∧
  UpstreamRetryEndpoints ref_config = ["up1:9300"; "up2:9300"]%string ∧
  EgressIfaces ref_config = ["eth0"%string] ∧ MCGroupID ref_config = 11 ∧ MCPrefix ref_config = 0xFF05.
Proof. vm_compute. done. Qed.

(** Errors on the way. *)
Example load_errors :
  Load (H := refHost [("SHARD_BITS", "13")]%string) = Some (inr (ErrText "shard-bits must be in [1, 12]")) ∧
  Load (H := refHost [("MC_JOIN_ENABLED", "0")]%string) =
    Some (inr (ErrText "mc-join-enabled=false requires -tee-listen")) ∧
  Load (H := refHost [("EGRESS_IFACE", " , ")]%string) =
    Some (inr (ErrText "at least one egress interface must be specified")).
Proof. vm_compute. done. Qed.

(** -nack-addr is said to be a unicast address; a multicast one passes. *)
Example multicast_nack_addr :
  match Load (H := refHost [("NACK_ADDR", "ff05::7")]%string) with
  | Some (inl c) => IP_IsMulticast <$> ParseIP (f_BeaconNACKAddr c)
  | _ => None
  end = Some true.
Proof. vm_compute. reflexivity. Qed.

(** The NACK port is not checked to be a UDP port, and an egress interface may be named
    twice. *)
Example unchecked_values :
  match Load (H := refHost [("NACK_PORT", "70000"); ("EGRESS_IFACE", "eth0,eth0")]%string) with
  | Some (inl c) => Some (f_NACKPort c, EgressIfaces c)
  | _ => None
  end = Some (70000, ["eth0"; "eth0"]%string).
Proof. vm_compute. reflexivity. Qed.

(** The command line comes before the environment; a zone is no obstacle to the tee. *)
Example command_line :
  match Load (H := refHostArgs [("SHARD_BITS", "4")]%string
      ["-shard-bits"; "0x3"; "--debug"; "-tee-listen=[::1%lo]:9500"; "-cache-ttl"; "1m30s"; "x"; "-zz"]%string) with
  | Some (inl c) => Some (ShardBits c, f_Debug c, TeeListen c, CacheTTLBlock (CacheTTLs c))
  | _ => None
  end = Some (3, true, Some (Addr6Zone IPv6loopback "lo", 9500), 90 * Second) ∧
  Load (H := refHostArgs [] ["-shard-bits"; "three"]%string) = None.
Proof. vm_compute. done. Qed.

(** Two values for one flag, and a value with an equals sign. *)
Definition settings : list (string * string) :=
  [("cache-ttl", "1h"); ("instance", "a=b"); ("cache-ttl", "90s")]%string.
Lemma Load_returns_witness :
  is_Some (Load (H := refHostArgs [] (written <$> settings))) ∧
  FlagArg (H := refHostArgs [] (written <$> settings)) "cache-ttl" = Some "90s"%string.
Proof.
  destruct (Load_returns (H := refHostArgs [] (written <$> settings))) as (_ & _ & Hw).
  destruct (Hw settings eq_refl) as (Hl & Ha).
  { repeat constructor; eexists; (split; [reflexivity|vm_compute; reflexivity]). }
  split; [exact Hl|]. rewrite Ha. reflexivity.
Defined.

Example group_ids :
  parseGroupID "000B" = inl 11 ∧ parseGroupID " 0X0010 " = inl 16 ∧ parseGroupID "0010" = inl 10 ∧
  parseGroupID "65535" = inl 65535 ∧ (∃ e, parseGroupID "65536" = inr e) ∧ ∃ e, parseGroupID "0x" = inr e.
Proof. vm_compute. split_and!; try done; eauto. Qed.
End instances.

End Load.
