(* ===== verification/Sockets.v ===== *)
(** * Socket set-up and release

    Models the descriptor handling of src/ingress/ingress.go ([Run], [RunTee],
    [openRawSocket], [openTeeSocket]), its platform files cobind_*.go and
    mcastall_*.go, of src/server/server.go ([Run] until it listens), and of
    src/retransmit/retransmit.go ([openEgressSocket], [Open], [Close]) as sequences
    of kernel calls (class [Kernel] of External.v). Every call may fail. [held]
    computes from the history of calls which descriptors the process still holds, so
    a leak on an error path is visible in it. The theorems give the exact sequence of
    the calls and which of them succeeded.

    [fd_step] is the shutdown of a worker's socket: the goroutine that closes the
    descriptor against the receive loop and the one that re-asserts the joins. *)

From S2P Require Import Prelude GoNet External RefEnv RateLimit World CacheStore Retransmit Server Ingress GoText GoAddr Config Load.
From Stdlib Require Import Strings.Byte.
Import GoNet External World CacheStore.

Module Sockets.

(** *** Descriptors held *)

Fixpoint release (fd : Z) (fds : list Z) : list Z :=
  match fds with
  | [] => []
  | x :: fds' => if decide (x = fd) then fds' else x :: release fd fds'
  end.

Definition track (fds : list Z) (r : syscall) : list Z :=
  match r with
  | (SysSocket, inl fd) | (SysListenPacket _, inl fd) | (SysListenUDP _, inl fd)
  | (SysDialUDP _ _, inl fd) | (SysFile _, inl fd) => fd :: fds
  | (SysClose fd, _) => release fd fds
  | _ => fds
  end.

Definition held (log : list syscall) : list Z := fold_left track log [].

Section model.
Context {E : Type} `{!Kernel E}.
Context (goos : string).

(** The error of a call. *)
Definition sys_err (c : call) (e : E) : option gerror * E :=
  match sys c e with
  | (inr err, e') => (Some err, e')
  | (inl _, e') => (None, e')
  end.
(** [_ = f(...)]: the result is ignored. *)
Definition sys_ (c : call) (e : E) : E := (sys c e).2.

(** *** Ingress sockets *)

(** cobind_freebsd.go and cobind_other.go *)
Definition coBindOpts (fd : Z) (e : E) : option gerror * E :=
  if decide (goos = "freebsd"%string) then sys_err (SysSetsockopt fd SO_REUSEPORT 1) e else (None, e).

(** mcastall_linux.go and mcastall_other.go *)
Definition disableMulticastAll (fd : Z) (e : E) : E :=
  if decide (goos = "linux"%string) then sys_ (SysSetsockopt fd IPV6_MULTICAST_ALL 0) e else e.

Definition openRawSocket (w : Ingress.Worker (E := E)) (e : E) : (Z + gerror) * E :=
  match sys SysSocket e with
  | (inr err, e) => (inr (ErrWrap "socket" err), e)
  | (inl fd, e) =>
  match sys_err (SysSetsockopt fd SO_REUSEADDR 1) e with
  | (Some err, e) => (inr (ErrWrap "SO_REUSEADDR" err), sys_ (SysClose fd) e)
  | (None, e) =>
  match coBindOpts fd e with
  | (Some err, e) => (inr (ErrWrap "co-bind opts" err), sys_ (SysClose fd) e)
  | (None, e) =>
  let e := sys_ (SysSetsockopt fd SO_RCVBUF (Ingress.recvBufBytes w)) e in
  let e := disableMulticastAll fd e in
  match sys_err (SysBind fd IPv6unspecified (Ingress.port w)) e with
  | (Some err, e) => (inr (ErrWrap "bind" err), sys_ (SysClose fd) e)
  | (None, e) => (inl fd, e)
  end end end end.

Definition openTeeSocket (listen : addr * Z) (recvBuf : Z) (e : E) : (Z + gerror) * E :=
  match sys SysSocket e with
  | (inr err, e) => (inr (ErrWrap "socket" err), e)
  | (inl fd, e) =>
  let e := sys_ (SysSetsockopt fd SO_RCVBUF recvBuf) e in
  match sys_err (SysBind fd (As16 listen.1) listen.2) e with
  | (Some err, e) => (inr (ErrWrap "bind" err), sys_ (SysClose fd) e)
  | (None, e) => (inl fd, e)
  end end.

(** SO_RCVTIMEO, in nanoseconds. *)
Definition recvTimeout : Z := 200 * Load.Millisecond.

Definition netjoin (fd ifindex : Z) (ga : bytes) (srcs : list addr) (e : E) : option gerror * E :=
  sys_err (SysJoin fd ifindex ga srcs) e.

(** [Run] up to the receive loop, which it enters with the descriptor; on an error
    it returns instead. The worker reports ready exactly when a descriptor comes
    back. *)
Definition Run (w : Ingress.Worker (E := E)) (e : E) : (Z + gerror) * E :=
  match Ingress.iface w with
  | None => (inr (ErrText "ingress: no interface"), e)
  | Some ifindex =>
      match openRawSocket w e with
      | (inr err, e) => (inr (ErrWrap "ingress: open socket" err), e)
      | (inl fd, e) =>
          match Ingress.joinAll (netjoin fd) ifindex w true (Ingress.groups w) e with
          | (Some err, e) => (inr err, sys_ (SysClose fd) e)
          | (None, e) => (inl fd, sys_ (SysSetsockopt fd SO_RCVTIMEO recvTimeout) e)
          end
      end
  end.

Definition RunTee (w : Ingress.Worker (E := E)) (listen : addr * Z) (e : E) : (Z + gerror) * E :=
  match openTeeSocket listen (Ingress.recvBufBytes w) e with
  | (inr err, e) => (inr (ErrWrap "ingress tee" err), e)
  | (inl fd, e) => (inl fd, sys_ (SysSetsockopt fd SO_RCVTIMEO recvTimeout) e)
  end.

(** [reassertJoins], [n] ticks before the context is done; errors are ignored. *)
Fixpoint reassertJoins (w : Ingress.Worker (E := E)) (fd ifindex : Z) (n : nat) (e : E) : E :=
  match n with
  | O => e
  | S n' => reassertJoins w fd ifindex n'
              (Ingress.joinAll (netjoin fd) ifindex w false (Ingress.groups w) e).2
  end.

(** *** The NACK socket *)

(** What package net sets on an IPv6 datagram socket it creates: IPV6_V6ONLY, whose
    result it ignores, and outside Linux SO_BROADCAST. *)
Definition setDefaultSockopts (fd : Z) (e : E) : option gerror * E :=
  let e := sys_ (SysSetsockopt fd IPV6_V6ONLY 1) e in
  if decide (goos = "linux"%string) then (None, e) else sys_err (SysSetsockopt fd SO_BROADCAST 1) e.

(** And on one that is to listen on a multicast address, which it binds to the
    wildcard address instead. *)
Definition setDefaultMulticastSockopts (fd : Z) (e : E) : option gerror * E :=
  match sys_err (SysSetsockopt fd SO_REUSEADDR 1) e with
  | (Some err, e) => (Some err, e)
  | (None, e) => if decide (goos = "linux"%string) then (None, e) else sys_err (SysSetsockopt fd SO_REUSEPORT 1) e
  end.
Definition listen_ip (ip : bytes) : bytes := if IP_IsMulticast ip then IPv6unspecified else ip.

(** [Server.Run] up to its workers: net.ListenConfig.ListenPacket on "udp6" reads
    port and host, which must be an IPv6 literal, creates the socket, sets its own
    options, gives it to the Control function, which sets SO_REUSEADDR, and binds
    it; a failure on the way closes it. *)
Definition listenNACK `{!RateLib E, !OS E, !Backend E, !FrameLib, !ShardLib}
    (s : Server.Server (E := E)) (e : E) : (Z + gerror) * E :=
  let host := if decide (Server.bindAddr s ≠ ""%string) then Server.bindAddr s else "::"%string in
  match GoAddr.ParseIP host with
  | None => (inr (ErrWrap "server: listen" (ErrText "no such host")), e)
  | Some ip =>
  if decide (is_Some (To4 ip)) then (inr (ErrWrap "server: listen" (ErrText "no suitable address")), e) else
  if negb ((0 <=? Server.port s) && (Server.port s <=? 65535)) then
    (inr (ErrWrap "server: listen" (ErrText "invalid port")), e) else
  match sys SysSocket e with
  | (inr err, e) => (inr (ErrWrap "server: listen" err), e)
  | (inl fd, e) =>
  match setDefaultSockopts fd e with
  | (Some err, e) => (inr (ErrWrap "server: listen" err), sys_ (SysClose fd) e)
  | (None, e) =>
  match (if IP_IsMulticast ip then setDefaultMulticastSockopts fd e else (None, e)) with
  | (Some err, e) => (inr (ErrWrap "server: listen" err), sys_ (SysClose fd) e)
  | (None, e) =>
  match sys_err (SysSetsockopt fd SO_REUSEADDR 1) e with
  | (Some err, e) => (inr (ErrWrap "server: listen" err), sys_ (SysClose fd) e)
  | (None, e) =>
  match sys_err (SysBind fd (listen_ip ip) (Server.port s)) e with
  | (Some err, e) => (inr (ErrWrap "server: listen" err), sys_ (SysClose fd) e)
  | (None, e) => (inl fd, e)
  end end end end end end.

(** *** Egress sockets *)

(** The duplicate [file] is closed on every return; a udp6 packet connection is a
    UDPConn. *)
Definition openEgressSocket (multicastLoop : bool) (ifc : iface) (e : E) : (Z + gerror) * E :=
  match sys (SysListenPacket "[::]:0") e with
  | (inr err, e) => (inr (ErrWrap "listen" err), e)
  | (inl conn, e) =>
  match sys (SysFile conn) e with
  | (inr err, e) => (inr (ErrWrap "get file descriptor" err), sys_ (SysClose conn) e)
  | (inl fd, e) =>
  match sys_err (SysSetsockopt fd IPV6_MULTICAST_IF (if_Index ifc)) e with
  | (Some err, e) =>
      (inr (ErrWrap "set multicast interface" err), sys_ (SysClose fd) (sys_ (SysClose conn) e))
  | (None, e) =>
  if multicastLoop then
    match sys_err (SysSetsockopt fd IPV6_MULTICAST_LOOP 1) e with
    | (Some err, e) =>
        (inr (ErrWrap "set multicast loop" err), sys_ (SysClose fd) (sys_ (SysClose conn) e))
    | (None, e) => (inl conn, sys_ (SysClose fd) e)
    end
  else (inl conn, sys_ (SysClose fd) e)
  end end end.

(** The connections of a retransmitter: [sockets] by interface name, and
    [unicastConn]. *)
Record conns := mkConns { cn_sockets : gmap string Z; cn_unicast : option Z }.

Fixpoint openFrom (multicastLoop : bool) (unicastSrc : option bytes) (ifcs : list iface) (c : conns) (e : E)
  : option gerror * conns * E :=
  match ifcs with
  | [] =>
      match sys (SysListenUDP unicastSrc) e with
      | (inr err, e) => (Some (ErrWrap "open unicast retransmit socket" err), c, e)
      | (inl uc, e) => (None, mkConns (cn_sockets c) (Some uc), e)
      end
  | ifc :: ifcs' =>
      match openEgressSocket multicastLoop ifc e with
      | (inr err, e) => (Some (ErrWrap "open egress socket" err), c, e)
      | (inl conn, e) =>
          openFrom multicastLoop unicastSrc ifcs'
            (mkConns (<[if_Name ifc := conn]> (cn_sockets c)) (cn_unicast c)) e
      end
  end.
Definition Open (multicastLoop : bool) (unicastSrc : option bytes) (ifcs : list iface) (e : E)
  : option gerror * conns * E :=
  openFrom multicastLoop unicastSrc ifcs (mkConns ∅ None) e.

(** Closes every connection; the last error is the result. *)
Fixpoint closeAll (fds : list Z) (lastErr : option gerror) (e : E) : option gerror * E :=
  match fds with
  | [] => (lastErr, e)
  | fd :: fds' =>
      match sys_err (SysClose fd) e with
      | (Some err, e) => closeAll fds' (Some err) e
      | (None, e) => closeAll fds' lastErr e
      end
  end.
Definition Close `{!OS E} (c : conns) (e : E) : option gerror * E :=
  let '(entries, e) := range_order _ (map_to_list (cn_sockets c)) e in
  let '(lastErr, e) := closeAll (snd <$> entries) None e in
  match cn_unicast c with
  | None => (lastErr, e)
  | Some uc => closeAll [uc] lastErr e
  end.

(** ** Lemmas *)

Lemma held_app l tr : held (l ++ tr) = fold_left track tr (held l).
Proof. apply fold_left_app. Qed.

Lemma release_here fd fds : release fd (fd :: fds) = fds.
Proof. simpl. by rewrite decide_True. Qed.

(** The calls of a history that had an effect, unless the program ignores their
    result: the size of the receive buffer, the scope of memberships, the receive
    timeout, and the IPv6-only flag of package net. *)
Definition succeeded (r : syscall) : bool := match r.2 with inl _ => true | inr _ => false end.
Definition best_effort (c : call) : bool :=
  match c with
  | SysSetsockopt _ (SO_RCVBUF | IPV6_MULTICAST_ALL | SO_RCVTIMEO | IPV6_V6ONLY) _ => true
  | _ => false
  end.
Definition effective (r : syscall) : Prop := succeeded r = true ∨ best_effort r.1 = true.

(** The calls that set options. *)
Definition setopts (l : list (Z * sockopt * Z)) : list call := (λ o, SysSetsockopt o.1.1 o.1.2 o.2) <$> l.

(** The options, addresses and memberships that were asked for. *)
Definition options (tr : list syscall) : list (Z * sockopt * Z) :=
  omap (λ r, match r.1 with SysSetsockopt fd o v => Some (fd, o, v) | _ => None end) tr.
Definition binds (tr : list syscall) : list (Z * bytes * Z) :=
  omap (λ r, match r.1 with SysBind fd ip p => Some (fd, ip, p) | _ => None end) tr.
(** The joins attempted, with their results. *)
Definition joins (tr : list syscall) : list (Z * Z * bytes * list addr * bool) :=
  omap (λ r, match r with
             | (SysJoin fd i g srcs, o) =>
                 Some (fd, i, g, srcs, match o with inl _ => true | inr _ => false end)
             | _ => None
             end) tr.

Lemma sys_inv `{!KernelOk E} c (e e' : E) r : sys c e = (r, e') → klog e' = klog e ++ [(c, r)].
Proof. intros Hs. pose proof (sys_logged c e) as Hl. by rewrite Hs in Hl. Qed.

(** Runs a sequence of calls: one case per result. *)
Ltac sys_cases :=
  unfold sys_err, sys_;
  repeat match goal with
  | |- context [sys ?c ?e] => is_var e;
      let Hs := fresh "Hs" in destruct (sys c e) as [[?|?] ?] eqn:Hs; apply sys_inv in Hs; cbn [snd]
  end.
(** Writes the last history as the first one and a trace. *)
Ltac sys_trace :=
  repeat match goal with H : klog ?e' = _ |- context [klog ?e'] => rewrite H end;
  rewrite <- ?app_assoc; cbn [app].

(** Every call of a written-out trace had its effect, or may lack it. *)
Ltac all_effective := repeat (apply Forall_cons; split; [first [by left|by right]|]); by apply Forall_nil.

(** The options of a data socket, before it is bound. *)
Definition raw_options (w : Ingress.Worker (E := E)) (fd : Z) : list (Z * sockopt * Z) :=
  [(fd, SO_REUSEADDR, 1)] ++
  (if decide (goos = "freebsd"%string) then [(fd, SO_REUSEPORT, 1)] else []) ++
  [(fd, SO_RCVBUF, Ingress.recvBufBytes w)] ++
  (if decide (goos = "linux"%string) then [(fd, IPV6_MULTICAST_ALL, 0)] else []).

Lemma openRawSocket_spec `{!KernelOk E} w e r e' : openRawSocket w e = (r, e') →
  ∃ tr, klog e' = klog e ++ tr ∧
    match r with
    | inr _ => held (klog e') = held (klog e)
    | inl fd => held (klog e') = fd :: held (klog e) ∧
        fst <$> tr = SysSocket :: setopts (raw_options w fd) ++ [SysBind fd IPv6unspecified (Ingress.port w)] ∧
        head tr = Some (SysSocket, inl fd) ∧ Forall effective tr
    end.
Proof.
  unfold openRawSocket, coBindOpts, disableMulticastAll, raw_options.
  destruct (decide (goos = "freebsd"%string)), (decide (goos = "linux"%string)); sys_cases;
    intros [= <- <-]; sys_trace; eexists; (split; [reflexivity|]);
    rewrite ?held_app; cbn [fold_left track]; rewrite ?release_here; try done; by split_and!; [..|all_effective].
Qed.

Lemma openTeeSocket_spec `{!KernelOk E} listen n e r e' : openTeeSocket listen n e = (r, e') →
  ∃ fd tr, klog e' = klog e ++ tr ∧ binds tr ⊆ [(fd, As16 listen.1, listen.2)] ∧ options tr ⊆ [(fd, SO_RCVBUF, n)] ∧
    match r with
    | inr _ => held (klog e') = held (klog e)
    | inl fd' => held (klog e') = fd' :: held (klog e) ∧ fd' = fd ∧ binds tr = [(fd, As16 listen.1, listen.2)] ∧
        Forall effective tr
    end.
Proof.
  unfold openTeeSocket. sys_cases.
  7:{ intros [= <- <-]. sys_trace. exists 0. eexists. split; [reflexivity|]. split_and!; [apply list_subseteq_nil..|].
      by rewrite held_app. }
  all: match goal with H : klog _ = _ ++ [(SysSocket, inl ?fd)] |- _ => intros [= <- <-]; sys_trace; exists fd end.
  all: eexists; split; [reflexivity|]; (split; [reflexivity|]); (split; [reflexivity|]);
    rewrite ?held_app; cbn [fold_left track]; rewrite ?release_here; try done; by split_and!; [..|all_effective].
Qed.

(** The options of the NACK socket, before it is bound. *)
Definition nack_options (ip : bytes) (fd : Z) : list (Z * sockopt * Z) :=
  [(fd, IPV6_V6ONLY, 1)] ++
  (if decide (goos = "linux"%string) then [] else [(fd, SO_BROADCAST, 1)]) ++
  (if IP_IsMulticast ip then
     (fd, SO_REUSEADDR, 1) :: if decide (goos = "linux"%string) then [] else [(fd, SO_REUSEPORT, 1)]
   else []) ++
  [(fd, SO_REUSEADDR, 1)].

Lemma listenNACK_spec `{!KernelOk E, !RateLib E, !OS E, !Backend E, !FrameLib, !ShardLib} s ip e r e' :
  Server.bindAddr s ≠ ""%string → GoAddr.ParseIP (Server.bindAddr s) = Some ip → To4 ip = None →
  listenNACK s e = (r, e') → ∃ tr, klog e' = klog e ++ tr ∧
    match r with
    | inr err => held (klog e') = held (klog e) ∧ ∃ err', err = ErrWrap "server: listen" err'
    | inl fd => held (klog e') = fd :: held (klog e) ∧ 0 ≤ Server.port s ≤ 65535 ∧
        fst <$> tr = SysSocket :: setopts (nack_options ip fd) ++ [SysBind fd (listen_ip ip) (Server.port s)] ∧
        head tr = Some (SysSocket, inl fd) ∧ Forall effective tr
    end.
Proof.
  unfold listenNACK. intros Hb Hip Hv4. rewrite (decide_True _ _ Hb), Hip, Hv4, (decide_False (P := is_Some _)) by (by intros [? ?]).
  destruct (negb _) eqn:Hport; [intros [= <- <-]; exists []; rewrite app_nil_r; eauto|].
  unfold setDefaultSockopts, setDefaultMulticastSockopts, nack_options, listen_ip.
  destruct (decide (goos = "linux"%string)), (IP_IsMulticast ip); sys_cases;
    intros [= <- <-]; sys_trace; eexists; (split; [reflexivity|]);
    rewrite ?held_app; cbn [fold_left track]; rewrite ?release_here; eauto;
    (split_and!; [done|lia|lia|reflexivity|reflexivity|all_effective]).
Qed.

(** The sources a group is joined with. *)
Definition roster (w : Ingress.Worker (E := E)) (ga : bytes) : list addr :=
  match Ingress.sources w with Some m => default [] (m !! ga) | None => [] end.
Definition join_call (w : Ingress.Worker (E := E)) (fd ifindex : Z) (g : udpaddr) (c : call) : Prop :=
  ∃ ga, To16 (ua_IP g) = Some ga ∧ c = SysJoin fd ifindex ga (roster w ga).
Definition joined (w : Ingress.Worker (E := E)) (fd ifindex : Z) (g : udpaddr)
    (j : Z * Z * bytes * list addr * bool) : Prop :=
  ∃ ga, To16 (ua_IP g) = Some ga ∧ j.1 = (fd, ifindex, ga, roster w ga).

(** A pass of joins makes nothing but joins. The first pass succeeds only if every
    one did; a later pass tries every group whatever the results. *)
Lemma joinAll_spec `{!KernelOk E} w fd ifindex first grps e r e' :
  Ingress.joinAll (netjoin fd) ifindex w first grps e = (r, e') →
  ∃ tr, klog e' = klog e ++ tr ∧ Forall (λ c, ∃ i g l, c.1 = SysJoin fd i g l) tr ∧
    (r = None → Forall2 (joined w fd ifindex) grps (joins tr)) ∧
    (r = None → first = true → Forall2 (join_call w fd ifindex) grps (fst <$> tr) ∧ Forall effective tr) ∧
    (first = false → Forall (λ g, is_Some (To16 (ua_IP g))) grps → r = None).
Proof.
  revert e. induction grps as [|g grps IH]; intros e; simpl.
  { intros [= <- <-]. exists []. rewrite app_nil_r. split_and!; try done; by constructor. }
  destruct (To16 (ua_IP g)) as [ga|] eqn:Hga.
  2:{ intros [= <- <-]. exists []. rewrite app_nil_r. split_and!; try done.
      intros _ Hall. apply Forall_cons in Hall as [[x Hx] _]. congruence. }
  fold (roster w ga). unfold netjoin at 1, sys_err. destruct (sys _ e) as [[v|err] e1] eqn:Hs; apply sys_inv in Hs.
  - intros Hgo. destruct (IH e1 Hgo) as (tr & Hl & Hk & Hj & Ht & Hf). rewrite Hl, Hs, <- app_assoc.
    eexists. split; [reflexivity|]. split_and!.
    + constructor; [simpl; eauto|done].
    + intros ->. constructor; [by exists ga|by apply Hj].
    + intros -> ->. destruct (Ht eq_refl eq_refl). split; constructor; [by exists ga|done|by left|done].
    + intros ? Hall. apply Forall_cons in Hall as [_ ?]. by apply Hf.
  - destruct first.
    { intros [= <- <-]. rewrite Hs. eexists. split; [reflexivity|]. split_and!; try done.
      constructor; [simpl; eauto|constructor]. }
    intros Hgo. destruct (IH e1 Hgo) as (tr & Hl & Hk & Hj & Ht & Hf). rewrite Hl, Hs, <- app_assoc.
    eexists. split; [reflexivity|]. split_and!; try done.
    + constructor; [simpl; eauto|done].
    + intros ->. constructor; [by exists ga|by apply Hj].
    + intros ? Hall. apply Forall_cons in Hall as [_ ?]. by apply Hf.
Qed.

(** Joins leave descriptors, options and addresses alone. *)
Lemma joins_only fd tr : Forall (λ c : syscall, ∃ i g l, c.1 = SysJoin fd i g l) tr →
  (∀ fds, fold_left track tr fds = fds) ∧ options tr = [] ∧ binds tr = [].
Proof.
  induction 1 as [|[c r] tr (i & g & l & Hc) _ (IH & Ho & Hb)]; [done|]. simpl in Hc. subst c.
  split_and!; [intros fds; simpl; destruct r; apply IH|done..].
Qed.

Lemma options_app l l' : options (l ++ l') = options l ++ options l'.
Proof. apply omap_app. Qed.
Lemma binds_app l l' : binds (l ++ l') = binds l ++ binds l'.
Proof. apply omap_app. Qed.
Lemma joins_app l l' : joins (l ++ l') = joins l ++ joins l'.
Proof. apply omap_app. Qed.

(** ** Theorems: ingress *)

(** C21: a worker's socket is scoped, joined and never leaked. Whatever the kernel
    answers, [Run] either returns an error and holds no descriptor more than
    before, or enters the receive loop with one new descriptor. It has then made
    exactly these calls on it, in this order: SO_REUSEADDR (and SO_REUSEPORT on
    FreeBSD), the receive buffer, IPV6_MULTICAST_ALL off on Linux, the bind to the
    wildcard address and the data port, the join of every group of the worker with
    its own roster, the receive timeout. All of them succeeded, except that the
    results of the receive buffer, of IPV6_MULTICAST_ALL and of the timeout are not
    looked at. *)
Theorem run_joins_or_releases (w : Ingress.Worker (E := E)) (e e' : E) (r : Z + gerror) :
  KernelOk E → Run w e = (r, e') → ∃ tr, klog e' = klog e ++ tr ∧
    match r with
    | inr _ => held (klog e') = held (klog e)
    | inl fd => held (klog e') = fd :: held (klog e) ∧
        head tr = Some (SysSocket, inl fd) ∧ Forall effective tr ∧
        ∃ ifindex js, Ingress.iface w = Some ifindex ∧ Forall2 (join_call w fd ifindex) (Ingress.groups w) js ∧
          fst <$> tr = SysSocket :: setopts (raw_options w fd) ++ [SysBind fd IPv6unspecified (Ingress.port w)] ++
            js ++ setopts [(fd, SO_RCVTIMEO, recvTimeout)]
    end.
Proof.
  intros Hok. unfold Run. destruct (Ingress.iface w) as [ifindex|].
  2:{ intros [= <- <-]. exists []. by rewrite app_nil_r. }
  destruct (openRawSocket w e) as [[fd|err] e1] eqn:Ho; apply openRawSocket_spec in Ho as (tr1 & Hl1 & H1).
  2:{ intros [= <- <-]. eauto. }
  destruct H1 as (Hh1 & Hc1 & Hd1 & He1).
  destruct (Ingress.joinAll _ _ _ _ _ _) as [[err|] e2] eqn:Hj;
    apply joinAll_spec in Hj as (tr2 & Hl2 & Hk2 & Hg2 & Ht2 & _);
    destruct (joins_only _ _ Hk2) as (Hh2 & Ho2 & Hb2); unfold sys_;
    (destruct (sys _ e2) as [r3 e3] eqn:Hs; apply sys_inv in Hs; intros [= <- <-]; cbn [snd];
     eexists; split; [rewrite Hs, Hl2, Hl1, <- !app_assoc; reflexivity|]).
  - rewrite Hs, Hl2, !held_app, Hh2, Hh1. apply release_here.
  - destruct (Ht2 eq_refl eq_refl) as [Hc2 He2]. rewrite Hs, Hl2, !held_app, Hh2, Hh1. split; [done|].
    split; [by destruct tr1|]. split; [rewrite !Forall_app; split_and!; [done..|constructor; [by right|constructor]]|].
    exists ifindex, (fst <$> tr2). split_and!; [done..|]. rewrite !fmap_app, Hc1. cbn [app]. by rewrite <- !app_assoc.
Qed.

(** The joins are re-asserted. After [n] ticks every group of the worker has been
    joined [n] more times on the worker's descriptor, with its roster, however
    many of the joins the kernel refused; nothing else was called. *)
Theorem reassert_covers (w : Ingress.Worker (E := E)) (fd ifindex : Z) (n : nat) (e : E) :
  KernelOk E → Forall (λ g, is_Some (To16 (ua_IP g))) (Ingress.groups w) →
  ∃ tr, klog (reassertJoins w fd ifindex n e) = klog e ++ tr ∧
    Forall2 (joined w fd ifindex) (concat (replicate n (Ingress.groups w))) (joins tr) ∧
    held (klog e ++ tr) = held (klog e) ∧ options tr = [].
Proof.
  intros Hok Hg. revert e. induction n as [|n IH]; intros e; simpl.
  { exists []. rewrite !app_nil_r. split_and!; [done|constructor|done..]. }
  destruct (Ingress.joinAll _ _ _ _ _ _) as [r e1] eqn:Hj.
  apply joinAll_spec in Hj as (tr1 & Hl1 & Hk1 & Hj1 & _ & Hr). rewrite (Hr eq_refl Hg) in *.
  destruct (joins_only _ _ Hk1) as (Hh1 & Ho1 & _). destruct (IH e1) as (tr & Hl & Hj2 & Hh & Ho).
  exists (tr1 ++ tr). cbn [snd]. rewrite Hl, Hl1, joins_app, options_app, Ho1, app_assoc.
  split_and!; [done|by apply Forall2_app; [apply Hj1|]| |done].
  rewrite <- Hl1, Hh, Hl1, held_app. apply Hh1.
Qed.

(** C22: the tee is reachable from this host only, and from one process. With the
    address of a loaded configuration, [RunTee] binds nothing but the IPv6
    loopback address at a nonzero port, sets no option that would share the port,
    and an error leaves no descriptor behind; without one the bind has succeeded. *)
Theorem tee_socket_private `{!Load.Host, !ScopeLib} (cfg : Load.Config) (listen : addr * Z)
    (w : Ingress.Worker (E := E)) (e e' : E) (r : Z + gerror) :
  KernelOk E → Load.HostOk → Load.Load = Some (inl cfg) → Load.TeeListen cfg = Some listen →
  RunTee w listen e = (r, e') → ∃ tr, klog e' = klog e ++ tr ∧
    (∀ fd ip port, (fd, ip, port) ∈ binds tr → ip = IPv6loopback ∧ 0 < port < 2 ^ 16) ∧
    (∀ fd o v, (fd, o, v) ∈ options tr → o = SO_RCVBUF ∨ o = SO_RCVTIMEO) ∧
    match r with
    | inr _ => held (klog e') = held (klog e)
    | inl fd => held (klog e') = fd :: held (klog e) ∧ binds tr = [(fd, IPv6loopback, listen.2)] ∧ Forall effective tr
    end.
Proof.
  intros Hok Hh HL Ht. destruct listen as [a port].
  destruct (Load.v_tee _ (Load.Load_ok _ HL) a port Ht) as [Ha Hp]. unfold RunTee.
  destruct (openTeeSocket _ _ e) as [[fd|err] e1] eqn:Ho;
    apply openTeeSocket_spec in Ho as (fd0 & tr & Hl & Hb & Hopt & Hr); cbn [fst snd] in *; rewrite Ha in *.
  - destruct Hr as (Hheld & -> & Hb0 & Heff). unfold sys_. destruct (sys _ e1) as [r2 e2] eqn:Hs. apply sys_inv in Hs.
    intros [= <- <-]. cbn [snd]. exists (tr ++ [(SysSetsockopt fd0 SO_RCVTIMEO recvTimeout, r2)]).
    rewrite Hs, Hl, held_app, options_app, binds_app, <- Hl, Hheld, Hb0, app_assoc, <- Hl.
    split_and!; [done| | |done|done|apply Forall_app; split; [done|by constructor; [right|]]].
    + intros fd ip p Hin. simpl in Hin. apply list_elem_of_singleton in Hin. by simplify_eq.
    + intros fd o v. rewrite elem_of_app. intros [Hin|Hin]; [apply Hopt in Hin|]; apply list_elem_of_singleton in Hin;
        simplify_eq; auto.
  - intros [= <- <-]. exists tr. split_and!; [done| | |done].
    + intros fd ip p Hin. apply Hb, list_elem_of_singleton in Hin. by simplify_eq.
    + intros fd o v Hin. apply Hopt, list_elem_of_singleton in Hin. simplify_eq. auto.
Qed.

(** *** Egress *)

Lemma release_perm fd l l' : l ≡ₚ fd :: l' → release fd l ≡ₚ l'.
Proof.
  assert (∀ l, fd ∈ l → fd :: release fd l ≡ₚ l) as Hr.
  { clear l. induction l as [|x l IH]; intros Hin; [by apply not_elem_of_nil in Hin|]. simpl.
    case_decide as Hx; [by subst|]. apply elem_of_cons in Hin as [?|Hin]; [congruence|].
    rewrite Permutation_swap. by rewrite IH. }
  intros Hp. apply (Permutation_cons_inv (a := fd)). rewrite <- Hp. apply Hr. rewrite Hp. constructor.
Qed.

(** A connection and its duplicate, closed in the order of the error paths. *)
Lemma release_pair fd conn l : release fd (release conn (fd :: conn :: l)) = l.
Proof. simpl. destruct (decide (fd = conn)) as [->|]; simpl; by rewrite ?decide_True. Qed.

Lemma openEgressSocket_spec `{!KernelOk E} loop ifc e r e' : openEgressSocket loop ifc e = (r, e') →
  match r with
  | inr _ => held (klog e') = held (klog e)
  | inl conn => held (klog e') = conn :: held (klog e) ∧
      ∃ tr fd, klog e' = klog e ++ tr ∧ options tr = (fd, IPV6_MULTICAST_IF, if_Index ifc) ::
        (if loop then [(fd, IPV6_MULTICAST_LOOP, 1)] else [])
  end.
Proof.
  unfold openEgressSocket. destruct loop; sys_cases; intros [= <- <-]; sys_trace;
    rewrite ?held_app; cbn [fold_left track].
  all: rewrite ?release_pair, ?release_here; try done.
  all: split; [done|]; eexists _, _; split; reflexivity.
Qed.

(** The connections of a retransmitter, as descriptors. *)
Definition fds (c : conns) : list Z := (map_to_list (cn_sockets c)).*2 ++ option_list (cn_unicast c).

Lemma fds_insert c name conn :
  fds (mkConns (<[name := conn]> (cn_sockets c)) (cn_unicast c)) ++ option_list (cn_sockets c !! name) ≡ₚ conn :: fds c.
Proof.
  unfold fds. simpl. destruct (cn_sockets c !! name) as [old|] eqn:Hn; simpl.
  - rewrite <- (insert_delete_id (cn_sockets c) name old Hn) at 2. rewrite <- (insert_delete_eq (cn_sockets c)).
    rewrite !map_to_list_insert by apply lookup_delete_eq. simpl. solve_Permutation.
  - by rewrite map_to_list_insert, app_nil_r.
Qed.

(** Open, successful or not, has opened the first [n] interfaces; what it adds to the
    held descriptors are those of its connections, and one for each of these
    interfaces whose name occurred before, as its map entry was overwritten. *)
Lemma openFrom_held `{!KernelOk E} loop src ifcs c e o c' e' :
  openFrom loop src ifcs c e = (o, c', e') → cn_unicast c = None →
  ∃ n lost, (n ≤ length ifcs)%nat ∧ (o = None → n = length ifcs) ∧
    held (klog e') ++ fds c ≡ₚ fds c' ++ lost ++ held (klog e) ∧
    dom (cn_sockets c') = dom (cn_sockets c) ∪ list_to_set (take n (if_Name <$> ifcs)) ∧
    (length lost + size (cn_sockets c') = n + size (cn_sockets c))%nat.
Proof.
  revert c e. induction ifcs as [|ifc ifcs IH]; intros c e; simpl.
  - intros Ho Huc. exists 0%nat, []. destruct (sys _ e) as [[uc|err] e1] eqn:Hs; apply sys_inv in Hs; simplify_eq.
    + rewrite Hs, held_app. simpl. split_and!; [done..| |set_solver|done].
      unfold fds. simpl. rewrite Huc. simpl. rewrite app_nil_r. solve_Permutation.
    + rewrite Hs, held_app. simpl. split_and!; [done..| |set_solver|done]. by rewrite (Permutation_app_comm (fds c')).
  - destruct (openEgressSocket loop ifc e) as [[conn|err] e1] eqn:Hs; apply openEgressSocket_spec in Hs.
    + destruct Hs as [Hh _]. intros Ho Huc. apply IH in Ho as (n & lost & Hn & Ho & Hp & Hd & Hsz); [|done].
      pose proof (fds_insert c (if_Name ifc) conn) as Hf.
      exists (S n), (option_list (cn_sockets c !! if_Name ifc) ++ lost). split_and!; [lia|intros ?; f_equal; auto| | |].
      * apply (Permutation_app_inv_r [conn]). rewrite Hh in Hp. rewrite <- app_assoc, (Permutation_app_comm (fds c)).
        simpl. rewrite <- Hf, app_assoc, Hp. solve_Permutation.
      * rewrite Hd. simpl. rewrite dom_insert_L. set_solver.
      * rewrite length_app. revert Hsz. simpl. destruct (cn_sockets c !! if_Name ifc) eqn:Hl; simpl.
        -- rewrite map_size_insert_Some by (by eexists). lia.
        -- rewrite map_size_insert_None by done. lia.
    + intros [= <- <- <-] _. exists 0%nat, []. rewrite Hs. split_and!; [lia|done| |set_solver|done].
      by rewrite (Permutation_app_comm (fds _)).
Qed.

Lemma closeAll_held `{!KernelOk E} l last e o e' rest : closeAll l last e = (o, e') →
  held (klog e) ≡ₚ l ++ rest → held (klog e') ≡ₚ rest.
Proof.
  revert last e. induction l as [|fd l IH]; intros last e; simpl; [by intros [= <- <-]|].
  unfold sys_err. destruct (sys _ e) as [r e1] eqn:Hs. apply sys_inv in Hs.
  intros Hc Hh. destruct r; (eapply IH; [exact Hc|]); rewrite Hs, held_app; by apply release_perm.
Qed.

(** C23: what closing the retransmitter releases. Whether Open succeeded, failed at
    an interface or at the unicast socket, and whatever the closes report, after
    Close the process holds the descriptors it held before Open, and one more for
    each repeated name among the interfaces that were opened: with [n] of them
    opened, as many as [n] exceeds the number of different names. So nothing is left
    behind when the egress interfaces are distinct, and a list with a repeated name
    leaks. *)
Theorem egress_sockets_released `{!OS E} (loop : bool) (src : option bytes) (ifcs : list iface)
    (e e1 e2 : E) (o o' : option gerror) (c : conns) :
  OSOk E → KernelOk E → KernelFrame E →
  Open loop src ifcs e = (o, c, e1) → Close c e1 = (o', e2) →
  ∃ n lost, (n ≤ length ifcs)%nat ∧ (o = None → n = length ifcs) ∧
    held (klog e2) ≡ₚ lost ++ held (klog e) ∧
    (length lost + size (list_to_set (take n (if_Name <$> ifcs)) : gset string) = n)%nat ∧
    (NoDup (if_Name <$> ifcs) → lost = []).
Proof.
  intros Hos Hk Hf Ho. apply openFrom_held in Ho as (n & lost & Hn & Hlen & Ho & Hd & Hsz); [|done].
  unfold fds in Ho at 1. simpl in Ho, Hd, Hsz. rewrite map_to_list_empty, app_nil_r in Ho. unfold Close.
  rewrite dom_empty_L, (left_id_L ∅ (∪)) in Hd.
  assert (length lost + size (list_to_set (take n (if_Name <$> ifcs)) : gset string) = n)%nat as Hsize.
  { rewrite <- Hd, size_dom. rewrite Hsz, map_size_empty. lia. }
  assert (NoDup (if_Name <$> ifcs) → lost = []) as Hnone.
  { intros Hnd. rewrite size_list_to_set, length_take, length_fmap in Hsize.
    - destruct lost; [done|]. simpl in Hsize. lia.
    - rewrite <- (take_drop n (if_Name <$> ifcs)) in Hnd. by apply NoDup_app in Hnd as (? & _). }
  destruct (range_order _ _ e1) as [entries e1'] eqn:Hr.
  pose proof (range_order_perm _ (map_to_list (cn_sockets c)) e1) as Hp.
  pose proof (log_range _ (map_to_list (cn_sockets c)) e1) as Hlog. rewrite Hr in Hp, Hlog. simpl in Hp, Hlog.
  destruct (closeAll _ None e1') as [lastErr e3] eqn:Hc.
  assert (held (klog e3) ≡ₚ option_list (cn_unicast c) ++ lost ++ held (klog e)) as He3.
  { eapply closeAll_held; [exact Hc|]. rewrite Hlog, Ho. unfold fds. by rewrite Hp, <- app_assoc. }
  intros Hclose. exists n, lost. split_and!; [done..| |done|done].
  destruct (cn_unicast c) as [uc|]; [by eapply closeAll_held|]. by simplify_eq.
Qed.

(** What Retransmit.v takes Open to do: the same errors and calls, and the names and
    the unicast flag it keeps are those of the connections. *)
Definition egress_err (loop : bool) (ifc : iface) (e : E) : option gerror * E :=
  match openEgressSocket loop ifc e with (inr err, e) => (Some err, e) | (inl _, e) => (None, e) end.
Definition unicast_err (src : option bytes) (e : E) : option gerror * E := sys_err (SysListenUDP src) e.

Lemma Open_abstracts `{!RateLib E, !OS E, !Backend E, !ShardLib} (r : Retransmit.Retransmitter (E := E)) ifcs c e o c' e' :
  openFrom (Retransmit.multicastLoop r) (Retransmit.unicastSrc r) ifcs c e = (o, c', e') →
  (∀ name, name ∈ Retransmit.sockets r ↔ is_Some (cn_sockets c !! name)) →
  ∃ r', Retransmit.openFrom egress_err unicast_err ifcs r e = (o, r', e') ∧
    ∀ name, name ∈ Retransmit.sockets r' ↔ is_Some (cn_sockets c' !! name).
Proof.
  revert r c e. induction ifcs as [|ifc ifcs IH]; intros r c e; simpl.
  - unfold unicast_err, sys_err. destruct (sys _ e) as [[uc|err] e1]; intros [= <- <- <-] Hn; eauto.
  - unfold egress_err at 1. destruct (openEgressSocket _ ifc e) as [[conn|err] e1]; [|intros [= <- <- <-]; eauto].
    intros Ho Hn. apply (IH (Retransmit.addSocket (if_Name ifc) r)) in Ho; [done|].
    intros name. simpl. destruct (decide (name = if_Name ifc)) as [->|Hne].
    + rewrite lookup_insert_eq. split; [eauto|]. intros _. case_decide; [done|set_solver].
    + rewrite lookup_insert_ne by done. rewrite <- Hn. case_decide; set_solver.
Qed.
End model.

(** *** Shutting a worker's socket down

    Three goroutines use the descriptor of [Run]: the receive loop of pipeline.go,
    the re-assert loop, and the one that waits for the context and closes it. *)
Inductive rx_pc := RxCheck | RxRead | RxDone.
Inductive rj_pc := RjSelect | RjJoin | RjDone.
Record fdstate := mkFD { fs_cancelled : bool; fs_closed : bool; fs_rx : rx_pc; fs_rj : rj_pc }.
Definition fd_initial : fdstate := mkFD false false RxCheck RjSelect.

Inductive fd_step : fdstate → fdstate → Prop :=
| fd_cancel cl rx rj : fd_step (mkFD false cl rx rj) (mkFD true cl rx rj)
| fd_close rx rj : fd_step (mkFD true false rx rj) (mkFD true true rx rj)
(* select on done with a default *)
| fd_rx_done cl rj : fd_step (mkFD true cl RxCheck rj) (mkFD true cl RxDone rj)
| fd_rx_read cl rj : fd_step (mkFD false cl RxCheck rj) (mkFD false cl RxRead rj)
(* the read returned: datagrams or an error that continues, or one that ends the loop *)
| fd_rx_again ca cl rj : fd_step (mkFD ca cl RxRead rj) (mkFD ca cl RxCheck rj)
| fd_rx_stop ca cl rj : fd_step (mkFD ca cl RxRead rj) (mkFD ca cl RxDone rj)
(* select on done or a tick: either when both are ready *)
| fd_rj_done cl rx : fd_step (mkFD true cl rx RjSelect) (mkFD true cl rx RjDone)
| fd_rj_tick ca cl rx : fd_step (mkFD ca cl rx RjSelect) (mkFD ca cl rx RjJoin)
| fd_rj_joined ca cl rx : fd_step (mkFD ca cl rx RjJoin) (mkFD ca cl rx RjSelect).

Definition fd_ok (s : fdstate) : Prop := fs_closed s = true → fs_cancelled s = true.

Lemma fd_reachable_ok s s' : rtc fd_step s s' → fd_ok s → fd_ok s'.
Proof. induction 1 as [|s s1 s' Hs _ IH]; [done|]. intros Hok. apply IH. by destruct Hs. Qed.

(** A live worker's descriptor stays open, and the receive loop winds down.
    The descriptor is closed only after the context is cancelled, and from then on
    the receive loop begins no further read: at most the one in progress is still
    to return. *)
Theorem fd_closed_last (s s' : fdstate) :
  rtc fd_step fd_initial s → rtc fd_step s s' →
  (fs_closed s = true → fs_cancelled s = true) ∧
  (fs_cancelled s = true → fs_rx s ≠ RxRead → fs_cancelled s' = true ∧ fs_rx s' ≠ RxRead).
Proof.
  intros Hr Hr'. split; [by apply (fd_reachable_ok _ _ Hr)|].
  induction Hr' as [|s1 s2 s3 Hs _ IH]; [done|]. intros Hc Hx. apply IH.
  - eapply rtc_r; [exact Hr|done].
  - by destruct Hs.
  - by destruct Hs.
Qed.

(** ** Instances *)
Section instances.
Import RefEnv.

Definition worker0 : Ingress.Worker (E := renv) :=
  Ingress.SetGroupSources (Some {[ ref_group_addr 0xFF05 0xB 0 := [Addr6 (replicate 16 x07)] ]})
    (Ingress.New (Some 2) 9001
      [mkUDPAddr (ref_group_addr 0xFF05 0xB 0) 9001 ""; mkUDPAddr (ref_group_addr 0xFF05 0xB 1) 9001 ""]
      (store_cache (frame_store redis 0)) true (Ingress.mkTTLs 1 1 1 1 1)).
Definition env_fail : renv := mkREnv 1 ∅ false true [] [].

Definition run0 : (Z + gerror) * renv := Run "linux" worker0 env0.

Lemma run_joins_or_releases_witness :
  held (klog run0.2) = [3] ∧ Forall effective (klog run0.2) ∧ length (klog run0.2) = 8%nat.
Proof.
  destruct (run_joins_or_releases "linux" worker0 env0 run0.2 (inl 3)) as (tr & Hl & Hh & _ & He & ifx & js & _ & Hj & Hc);
    [apply _|vm_compute; reflexivity|]. change (klog env0 ++ tr) with tr in Hl.
  split; [exact Hh|]. rewrite Hl. split; [exact He|].
  transitivity (length (fst <$> tr)); [by rewrite length_fmap|]. rewrite Hc.
  cbn [length]. rewrite !length_app, <- (Forall2_length _ _ _ Hj). reflexivity.
Defined.

(** On Linux the socket is scoped to its groups before it is bound. *)
Example run0_options : options (klog run0.2) =
  [(3, SO_REUSEADDR, 1); (3, SO_RCVBUF, 67108864); (3, IPV6_MULTICAST_ALL, 0); (3, SO_RCVTIMEO, 200000000)].
Proof. vm_compute. reflexivity. Qed.

Lemma reassert_covers_witness :
  ∃ tr, klog (reassertJoins worker0 3 2 2 env_fail) = tr ∧ length (joins tr) = 4%nat.
Proof.
  destruct (reassert_covers worker0 3 2 2 env_fail) as (tr & Hl & Hj & _);
    [apply _|repeat constructor; by eexists|].
  exists tr. split; [exact Hl|]. by rewrite <- (Forall2_length _ _ _ Hj).
Defined.

Lemma tee_socket_private_witness :
  ∃ tr fd, klog (RunTee worker0 (Addr6 IPv6loopback, 9500) env0).2 = tr ∧
    binds tr = [(fd, IPv6loopback, 9500)].
Proof.
  destruct (tee_socket_private (H := Load.refHost Load.ref_env) Load.ref_config (Addr6 IPv6loopback, 9500)
    worker0 env0 (RunTee worker0 (Addr6 IPv6loopback, 9500) env0).2 (inl 3)) as (tr & Hl & _ & _ & _ & Hb & _);
    [apply _|apply Load.refHost_ok|apply Load.ref_config_loaded|reflexivity|vm_compute; reflexivity|].
  exists tr, 3. split; [exact Hl|exact Hb].
Defined.

Definition ifcs0 : list iface := [mkIface "eth0" 2; mkIface "eth1" 3].
Definition opened0 : option gerror * conns * renv := Open true (Some (replicate 16 x07)) ifcs0 env0.

Lemma egress_sockets_released_witness :
  held (klog opened0.2) ≠ [] ∧ held (klog (Close opened0.1.2 opened0.2).2) ≡ₚ held (klog env0).
Proof.
  split; [by vm_compute|].
  destruct (egress_sockets_released true (Some (replicate 16 x07)) ifcs0 env0 opened0.2
    (Close opened0.1.2 opened0.2).2 None (Close opened0.1.2 opened0.2).1 opened0.1.2) as (n & lost & _ & _ & Hh & _ & Hn);
    [apply _|apply _|apply _|vm_compute; reflexivity|by destruct (Close _ _)|].
  rewrite Hh, Hn; [done|]. by apply (bool_decide_unpack _).
Defined.

(** One interface, named twice. *)
Example repeated_interface_leaks :
  let opened := Open true None [mkIface "eth0" 2; mkIface "eth0" 2] env0 in
  opened.1.1 = None ∧ held (klog (Close opened.1.2 opened.2).2) = [3].
Proof. vm_compute. done. Qed.

Lemma fd_closed_last_witness :
  fs_cancelled (mkFD true true RxRead RjSelect) = true ∧ fs_rx (mkFD true true RxDone RjDone) ≠ RxRead.
Proof.
  assert (rtc fd_step fd_initial (mkFD true true RxRead RjSelect)) as H1.
  { eapply rtc_l; [apply fd_rx_read|]. eapply rtc_l; [apply fd_cancel|]. eapply rtc_l; [apply fd_close|]. apply rtc_refl. }
  split.
  - by apply (proj1 (fd_closed_last _ _ H1 (rtc_refl _ _))).
  - apply (fd_closed_last (mkFD true true RxDone RjSelect) (mkFD true true RxDone RjDone)); try done.
    + eapply rtc_r; [exact H1|apply fd_rx_stop].
    + eapply rtc_l; [apply fd_rj_done|apply rtc_refl].
Defined.

(** The re-assert loop can start a pass of joins on a descriptor already closed. *)
Example join_after_close : rtc fd_step (mkFD true true RxDone RjSelect) (mkFD true true RxDone RjJoin).
Proof. eapply rtc_l; [apply fd_rj_tick|apply rtc_refl]. Qed.
End instances.

End Sockets.
