(* ===== verification/Beacon.v ===== *)
(** * The beacon sender

    Models src/beacon/beacon.go: the ADVERT datagram, the groups it is sent to,
    and [Run]: one connected socket per group, a round of sends at once and one per
    tick, and the sockets closed at the end. The interval's seconds are computed in
    float64 as Go does; a value that does not fit uint16 is implementation dependent
    ([oob16]). *)

From S2P Require Import Prelude GoNet External RefEnv RateLimit World CacheStore Config Sockets.
From Stdlib Require Import Strings.Byte.
Import GoNet External World.

Module Beacon.

Definition ADVERTSize : nat := 56.
Definition MsgTypeADVERT : byte := x20.
Definition FlagHasParent : Z := 0x0002.
Definition FlagDraining : Z := 0x0004.
Definition FlagUnicastRetransmit : Z := 0x0008.
Definition FlagMulticastRetransmit : Z := 0x0010.

Definition Second : Z := 1000000000.

(** [Duration.Seconds]: [float64(d / Second) + float64(d % Second) / 1e9]. *)
Definition Seconds (d : Z) : float64 :=
  SFadd 53 1024 (float_of_Z (Z.quot d Second))
    (SFdiv 53 1024 (float_of_Z (Z.rem d Second)) (float_of_Z Second)).

(** [uint16(f)]: truncation when the result fits. *)
Definition float_to_uint16 (oob16 : float64 → Z) (f : float64) : Z :=
  let z := float_to_int (λ _, -1) f in
  if (0 <=? z) && (z <? 65536) then z else oob16 f.

Section model.
Context {E : Type} `{!RateLib E, !OS E, !Kernel E, !FrameLib, !ShardLib, !ScopeLib}.
Context (oob16 : float64 → Z).

Record Config := mkConfig {
  NACKAddr : bytes; NACKPort : Z; Tier : Z; Preference : Z; Interval : Z; Scope : byte;
  Flags : Z; InstanceID : Z; GroupID : Z; GroupPrefixes : list Z; b_rec : bool;
  Iface : option Z;           (* index of the outgoing interface *)
  BindSource : option bytes;  (* None = nil *)
}.

Definition New (cfg : Config) : Config :=
  mkConfig (NACKAddr cfg) (NACKPort cfg) (Tier cfg) (Preference cfg)
    (if Interval cfg =? 0 then 60 * Second else Interval cfg)
    (Scope cfg) (Flags cfg) (InstanceID cfg) (GroupID cfg) (GroupPrefixes cfg) (b_rec cfg)
    (Iface cfg) (BindSource cfg).

Definition buildADVERT (c : Config) : option bytes :=
  let nackIP := default IPv6unspecified (To16 (NACKAddr c)) in
  b ← gput 0 (be_enc 4 MagicBSV) (replicate ADVERTSize x00);
  b ← gput 4 (be_enc 2 ProtoVer) b;
  b ← gset_byte 6 MsgTypeADVERT b;
  b ← gset_byte 7 (Scope c) b;
  b ← gput 8 nackIP b;
  b ← gput 24 (be_enc 2 (NACKPort c)) b;
  b ← gset_byte 26 (Z_byte (Tier c)) b;
  b ← gset_byte 27 (Z_byte (Preference c)) b;
  b ← gput 28 (be_enc 2 (float_to_uint16 oob16 (Seconds (Interval c)))) b;
  b ← gput 30 (be_enc 2 (Flags c)) b;
  gput 32 (be_enc 4 (InstanceID c)) b.

Definition legacyASMPrefixes (scope : byte) : list Z :=
  (if decide (scope = x05 ∨ scope = xff) then [0xFF05] else []) ++
  (if decide (scope = x08 ∨ scope = xff) then [0xFF08] else []) ++
  (if decide (scope = x0e ∨ scope = xff) then [0xFF0E] else []).

Definition beaconGroups (c : Config) : list udpaddr :=
  let prefixes := if decide (length (GroupPrefixes c) = 0%nat) then legacyASMPrefixes (Scope c)
                  else GroupPrefixes c in
  (λ prefix, mkUDPAddr (GroupAddr prefix (GroupID c) GroupBeacon) 9300 "") <$> prefixes.

(** One round: each connected socket [i] to its group; errors are skipped. *)
Fixpoint send (c : Config) (buf : bytes) (i : nat) (conns : list udpaddr) : GoM (world E) unit :=
  match conns with
  | [] => mret tt
  | grp :: conns' =>
      err ← write_to (BeaconSocket i) buf grp;
      _ ← match err with
          | Some _ => mret tt
          | None => emit (b_rec c) BeaconAdvertSent
          end;
      send c buf (S i) conns'
  end.

(** A connected socket per group; a group that cannot be dialled is skipped. The
    result pairs descriptors and groups. *)
Fixpoint dialAll (c : Config) (groups : list udpaddr) (e : E) : list (Z * udpaddr) * E :=
  match groups with
  | [] => ([], e)
  | grp :: groups' =>
      match sys (SysDialUDP (BindSource c) grp) e with
      | (inr _, e) => dialAll c groups' e
      | (inl conn, e) =>
          let e := match Iface c with
                   | Some i => Sockets.sys_ (SysSetsockopt conn IPV6_MULTICAST_IF i) e
                   | None => e
                   end in
          let '(conns, e) := dialAll c groups' e in ((conn, grp) :: conns, e)
      end
  end.

Fixpoint rounds (c : Config) (buf : bytes) (conns : list udpaddr) (n : nat) : GoM (world E) unit :=
  match n with
  | O => mret tt
  | S n' => _ ← send c buf 0 conns; rounds c buf conns n'
  end.

(** [Run] with [n] ticks before the context is done. *)
Definition Run (c : Config) (n : nat) : GoM (world E) unit :=
  buf ← liftO (buildADVERT c);
  let groups := beaconGroups c in
  if decide (length groups = 0%nat) then mret tt else
  conns ← env_op (dialAll c groups);
  if decide (length conns = 0%nat) then mret tt else
  _ ← send c buf 0 conns.*2;
  _ ← rounds c buf conns.*2 n;
  _ ← env_op (Sockets.closeAll conns.*1 None);
  mret tt.

(** ** Lemmas *)

(** The layout of the ADVERT. *)
Lemma buildADVERT_eq c :
  buildADVERT c = Some (be_enc 4 MagicBSV ++ be_enc 2 ProtoVer ++ [MsgTypeADVERT] ++ [Scope c] ++
    default IPv6unspecified (To16 (NACKAddr c)) ++ be_enc 2 (NACKPort c) ++
    [Z_byte (Tier c)] ++ [Z_byte (Preference c)] ++
    be_enc 2 (float_to_uint16 oob16 (Seconds (Interval c))) ++ be_enc 2 (Flags c) ++
    be_enc 4 (InstanceID c) ++ replicate 20 x00).
Proof.
  unfold buildADVERT, gset_byte.
  assert (length (default IPv6unspecified (To16 (NACKAddr c))) = 16%nat) as Hip.
  { unfold To16. repeat case_decide; simpl; lia. }
  revert Hip. generalize (default IPv6unspecified (To16 (NACKAddr c))). intros ip Hip.
  rewrite gput_first by (rewrite length_be_enc; unfold ADVERTSize; lia). cbn [mbind option_bind].
  repeat (rewrite ?app_assoc; rewrite gput_next;
    [cbn [mbind option_bind]
    |by rewrite ?length_app, ?length_be_enc, ?Hip
    |rewrite ?length_be_enc, ?Hip; unfold ADVERTSize; simpl; lia]).
  rewrite !length_be_enc, Hip. cbn [length ADVERTSize Nat.sub]. by rewrite <- !app_assoc.
Qed.

(** Whole seconds survive the float64 computation: the fraction is zero, and
    every integer of the range is a float64. *)
Lemma float_of_Z_nonneg n : 0 ≤ n → float_of_Z n ≠ S754_zero true.
Proof.
  intros Hn. destruct n as [|p|p]; [done| |lia].
  unfold float_of_Z, binary_normalize, binary_round, binary_round_aux. by repeat case_match.
Qed.

Lemma Seconds_whole n : 0 ≤ n → Seconds (n * Second) = float_of_Z n.
Proof.
  intros Hn. apply float_of_Z_nonneg in Hn. unfold Seconds. rewrite Z.quot_mul, Z.rem_mul by (unfold Second; lia).
  replace (SFdiv 53 1024 (float_of_Z 0) (float_of_Z Second)) with (S754_zero false) by reflexivity.
  by destruct (float_of_Z n) as [[]| | |].
Qed.

Lemma seconds_exact n : 0 ≤ n < 65536 → float_to_uint16 oob16 (Seconds (n * Second)) = n.
Proof.
  intros Hn. rewrite Seconds_whole by lia.
  assert (all_from (λ k, float_to_int (λ _, -1) (float_of_Z k) =? k) (Z.to_nat 65536) 0 = true)
    as Hall by (vm_compute; reflexivity).
  assert (float_to_int (λ _, -1) (float_of_Z n) = n) as Hz.
  { apply Z.eqb_eq. by apply (all_from_spec (λ k, float_to_int (λ _, -1) (float_of_Z k) =? k)
      (Z.to_nat 65536) 0 Hall n); lia. }
  unfold float_to_uint16. rewrite Hz.
  destruct (0 <=? n) eqn:Hlo; [|lia]. destruct (n <? 65536) eqn:Hhi; [done|lia].
Qed.

(** The datagrams of a trace: destination and payload of each write. *)
Definition writes (evs : list event) : list (udpaddr * bytes) :=
  omap (λ ev, match ev with EvWrite _ dst b _ => Some (dst, b) | _ => None end) evs.

Lemma writes_app l l' : writes (l ++ l') = writes l ++ writes l'.
Proof. apply omap_app. Qed.

Lemma wp_send `{!KernelFrame E} c buf i conns w :
  wp (send c buf i conns) (λ _ w', klog (w_env w') = klog (w_env w) ∧
    ∃ evs, extends w w' evs ∧ writes evs = (λ grp, (grp, buf)) <$> conns) w.
Proof.
  revert i w. induction conns as [|grp conns IH]; intros i w; cbn [send].
  { wp_step. split; [done|]. exists []. split; [apply extends_refl|done]. }
  wp_step. wp_step.
  match goal with H : sock_write ?s ?x ?g ?e0 = _ |- _ =>
    pose proof (log_write s x g e0) as Hlog; rewrite H in Hlog; simpl in Hlog end.
  destruct err; repeat wp_step; (eapply wp_mono; [apply IH|]); simpl;
    intros _ w' (Hk & evs & (Hx1 & Hx2 & Hx3) & Hw).
  all: (split; [congruence|]); simpl in Hx3; rewrite <- ?app_assoc in Hx3.
  all: eexists; (split; [split_and!; [done|done|exact Hx3]|]); rewrite writes_app, ?writes_app, Hw.
  - done.
  - by destruct (b_rec c).
Qed.

(** Every round sends the same datagram once to each connected group. *)
Lemma wp_rounds `{!KernelFrame E} c buf conns n w :
  wp (rounds c buf conns n) (λ _ w', klog (w_env w') = klog (w_env w) ∧
    ∃ evs, extends w w' evs ∧ writes evs = concat (replicate n ((λ grp, (grp, buf)) <$> conns))) w.
Proof.
  revert w. induction n as [|n IH]; intros w; cbn [rounds].
  { wp_step. split; [done|]. exists []. split; [apply extends_refl|done]. }
  wp_step. eapply wp_mono; [apply wp_send|]. intros _ w1 (Hk1 & evs1 & Hx1 & Hw1).
  eapply wp_mono; [apply IH|]. intros _ w2 (Hk2 & evs2 & Hx2 & Hw2). split; [congruence|].
  exists (evs1 ++ evs2). split; [by eapply extends_trans|]. simpl. by rewrite writes_app, Hw1, Hw2.
Qed.

(** The dials of a history: source, group and the descriptor of a dial that
    succeeded. *)
Definition dials (tr : list syscall) : list (option bytes * udpaddr * option Z) :=
  omap (λ r, match r with
             | (SysDialUDP src grp, o) => Some (src, grp, match o with inl fd => Some fd | inr _ => None end)
             | _ => None
             end) tr.
(** The connections they make. *)
Definition connected (ds : list (option bytes * udpaddr * option Z)) : list (Z * udpaddr) :=
  omap (λ d, (λ fd, (fd, d.1.2)) <$> d.2) ds.

Lemma dials_app l l' : dials (l ++ l') = dials l ++ dials l'.
Proof. apply omap_app. Qed.

(** Every connection's datagrams leave by the configured interface. *)
Definition iface_options (c : Config) (conns : list (Z * udpaddr)) : list (Z * sockopt * Z) :=
  match Iface c with Some i => (λ k, (k.1, IPV6_MULTICAST_IF, i)) <$> conns | None => [] end.

(** Dialling tries every group in order, and holds one descriptor for each dial that
    succeeded. *)
Lemma dialAll_spec `{!KernelOk E} c groups e conns e' : dialAll c groups e = (conns, e') →
  ∃ tr, klog e' = klog e ++ tr ∧ (dials tr).*1 = (λ grp, (BindSource c, grp)) <$> groups ∧
    conns = connected (dials tr) ∧ Sockets.options tr = iface_options c conns ∧
    Sockets.held (klog e') ≡ₚ conns.*1 ++ Sockets.held (klog e).
Proof.
  unfold iface_options. revert e conns. induction groups as [|grp groups IH]; intros e conns; simpl.
  { intros [= <- <-]. exists []. rewrite app_nil_r. by destruct (Iface c). }
  destruct (sys _ e) as [[conn|err] e1] eqn:Hs; apply Sockets.sys_inv in Hs.
  - set (e2 := match Iface c with Some i => _ | None => e1 end).
    assert (∃ tr, klog e2 = klog e1 ++ tr ∧ dials tr = [] ∧
      Sockets.options tr = match Iface c with Some i => [(conn, IPV6_MULTICAST_IF, i)] | None => [] end ∧
      Sockets.held (klog e2) = conn :: Sockets.held (klog e)) as (tr1 & Hl1 & Hd1 & Ho1 & Hh).
    { unfold e2. destruct (Iface c) as [i|].
      - unfold Sockets.sys_. destruct (sys _ e1) as [r e3] eqn:Hs2. apply Sockets.sys_inv in Hs2. simpl.
        eexists. split; [exact Hs2|]. split_and!; [done..|]. by rewrite Hs2, Sockets.held_app, Hs, Sockets.held_app.
      - exists []. rewrite app_nil_r. split_and!; [done..|]. by rewrite Hs, Sockets.held_app. }
    destruct (dialAll c groups e2) as [conns' e3] eqn:Hd. intros [= <- <-].
    apply IH in Hd as (tr & Hl & Hg & Hc & Ho & Hp). exists ((SysDialUDP (BindSource c) grp, inl conn) :: tr1 ++ tr).
    split; [rewrite Hl, Hl1, Hs, <- !app_assoc; done|].
    change (?x :: ?l) with ([x] ++ l). rewrite !dials_app, !Sockets.options_app, Hd1, Ho1, Ho. split_and!.
    + csimpl. by rewrite Hg.
    + csimpl. by rewrite Hc.
    + by destruct (Iface c).
    + rewrite Hp, Hh. simpl. by rewrite Permutation_middle.
  - intros Hd. apply IH in Hd as (tr & Hl & Hg & Hc & Ho & Hp). eexists. split; [rewrite Hl, Hs, <- app_assoc; reflexivity|].
    change (?x :: ?l) with ([x] ++ l). rewrite !dials_app, !Sockets.options_app, Ho. split_and!; [|done|done|].
    + csimpl. by rewrite Hg.
    + rewrite Hp, Hs, Sockets.held_app. simpl. destruct err; done.
Qed.

Lemma closeAll_log `{!KernelOk E} fds last e o e' : Sockets.closeAll fds last e = (o, e') →
  ∃ tr, klog e' = klog e ++ tr ∧ dials tr = [] ∧ Sockets.options tr = [].
Proof.
  revert last e. induction fds as [|fd fds IH]; intros last e; simpl.
  { intros [= <- <-]. exists []. by rewrite app_nil_r. }
  unfold Sockets.sys_err. destruct (sys _ e) as [r e1] eqn:Hs. apply Sockets.sys_inv in Hs.
  intros Hc. destruct r; (apply IH in Hc as (tr & Hl & Hd & Ho); rewrite Hl, Hs, <- app_assoc; by eexists).
Qed.

(** ** Theorems *)

(** An ADVERT says what was configured. The datagram is 56 bytes, and a
    receiver that reads the BRC-126 offsets gets back the 16-byte NACK address,
    port, tier, preference, flags, instance and the interval in seconds, for
    every interval of whole seconds that fits the field; the rest is zero. *)
Theorem advert_roundtrip (c : Config) (ip : bytes) (n : Z) :
  FrameLibOk → NACKAddr c = ip → length ip = 16%nat → Interval c = n * Second → 0 < n < 65536 →
  0 ≤ NACKPort c < 2 ^ 16 → 0 ≤ Flags c < 2 ^ 16 → 0 ≤ InstanceID c < 2 ^ 32 →
  ∃ b, buildADVERT (New c) = Some b ∧ length b = ADVERTSize ∧
    be_dec (field 0 4 b) = MagicBSV ∧ be_dec (field 4 6 b) = ProtoVer ∧
    b !! 6%nat = Some MsgTypeADVERT ∧ b !! 7%nat = Some (Scope c) ∧ field 8 24 b = ip ∧
    be_dec (field 24 26 b) = NACKPort c ∧
    b !! 26%nat = Some (Z_byte (Tier c)) ∧ b !! 27%nat = Some (Z_byte (Preference c)) ∧
    be_dec (field 28 30 b) = n ∧ be_dec (field 30 32 b) = Flags c ∧
    be_dec (field 32 36 b) = InstanceID c ∧ field 36 56 b = replicate 20 x00.
Proof.
  intros Hok Hip Hlen Hint Hn Hport Hfl Hid.
  pose proof magic_range. pose proof protover_range.
  eexists. split; [apply buildADVERT_eq|].
  assert (Interval (New c) = n * Second) as Hint'.
  { simpl. rewrite Hint. destruct (n * Second =? 0) eqn:Hz; [unfold Second in *; lia|done]. }
  assert (default IPv6unspecified (To16 (NACKAddr (New c))) = ip) as Hip'.
  { simpl. rewrite Hip. unfold To16. rewrite decide_False by lia. by rewrite decide_True. }
  rewrite Hint', seconds_exact, Hip' by lia. clear Hint' Hip'. simpl NACKPort. simpl Tier.
  simpl Preference. simpl Flags. simpl InstanceID. simpl Scope.
  split_and!; rewrite ?length_app, ?length_be_enc, ?Hlen; try done; read_parts Hlen;
    rewrite ?field_head by (rewrite ?length_be_enc; done); try done;
    try (apply be_dec_enc_small; lia).
Qed.

(** Upgrading the binary does not move the beacon. With the default
    "asm-only" compatibility every source mode yields, for every beacon scope,
    exactly the groups the earlier derivation from the ADVERT scope byte
    yields. *)
Theorem asm_only_keeps_groups (c : Config) (mode scope : string) (sb : Z) (ps : list Z) :
  Config.beaconScopeByte scope = inl sb → Scope c = Z_byte sb →
  Config.BeaconGroupPrefixes Config.ControlGroupASMOnly mode scope = inl ps →
  GroupPrefixes c = ps →
  beaconGroups c = (λ prefix, mkUDPAddr (GroupAddr prefix (GroupID c) GroupBeacon) 9300 "") <$>
    legacyASMPrefixes (Scope c).
Proof.
  intros Hb Hs Hps Hg. unfold beaconGroups. rewrite Hg. case_decide; [done|]. rewrite Hs. f_equal. clear Hs Hg.
  unfold Config.beaconScopeByte in Hb. revert Hps.
  repeat case_decide; simplify_eq; try (intros [= <-]; reflexivity).
  match goal with H : _ ∨ _ |- _ => destruct H as [-> | ->] end; intros [= <-]; reflexivity.
Qed.

(** C26: what the beacon puts on the wire. However many ticks pass and whichever dials,
    sends and closes fail, [Run] returns without a panic; it has dialled every one of
    its groups in order, from the configured source, whatever became of the dials
    before; it has tried to send, immediately and once per tick, one and the same
    ADVERT to each group whose dial succeeded, in order and by the configured
    interface, and to nothing else; and it leaves no descriptor behind. *)
Theorem beacon_contract (c : Config) (n : nat) (w : world E) :
  KernelOk E → KernelFrame E →
  ∃ w' evs buf tr, Run c n w = Some (tt, w') ∧ buildADVERT c = Some buf ∧ extends w w' evs ∧
    klog (w_env w') = klog (w_env w) ++ tr ∧
    (dials tr).*1 = (λ grp, (BindSource c, grp)) <$> beaconGroups c ∧
    Sockets.options tr = iface_options c (connected (dials tr)) ∧
    writes evs = concat (replicate (S n) ((λ k, (k.2, buf)) <$> connected (dials tr))) ∧
    Sockets.held (klog (w_env w')) ≡ₚ Sockets.held (klog (w_env w)).
Proof.
  intros Hok Hf. destruct (buildADVERT c) as [buf|] eqn:Hb; [|by rewrite buildADVERT_eq in Hb].
  assert (wp (Run c n) (λ _ w', ∃ evs tr, extends w w' evs ∧ klog (w_env w') = klog (w_env w) ++ tr ∧
    (dials tr).*1 = (λ grp, (BindSource c, grp)) <$> beaconGroups c ∧
    Sockets.options tr = iface_options c (connected (dials tr)) ∧
    writes evs = concat (replicate (S n) ((λ k, (k.2, buf)) <$> connected (dials tr))) ∧
    Sockets.held (klog (w_env w')) ≡ₚ Sockets.held (klog (w_env w))) w) as Hwp.
  { unfold Run. wp_step. eapply wp_liftO; [exact Hb|]. case_decide as Hg.
    { wp_step. exists [], []. apply nil_length_inv in Hg. rewrite Hg, app_nil_r. unfold iface_options.
      change (connected (dials [])) with ([] : list (Z * udpaddr)).
      split_and!; [apply extends_refl|done..|by destruct (Iface c)|by rewrite fmap_nil, concat_replicate_nil|done]. }
    wp_step. wp_step. rename a into conns.
    match goal with H : dialAll _ _ _ = _ |- _ => apply dialAll_spec in H as (tr & Hl & Hd & Hc & Ho & Hh) end.
    case_decide as Hlen.
    { destruct conns; [|done]. wp_step. exists [], tr. rewrite <- Hc.
      split_and!; [unfold extends; by rewrite app_nil_r|done..|by rewrite fmap_nil, concat_replicate_nil|done]. }
    wp_step. eapply wp_mono; [apply wp_send|]. intros _ w1 (Hk1 & evs1 & Hx1 & Hw1).
    wp_step. eapply wp_mono; [apply wp_rounds|]. intros _ w2 (Hk2 & evs2 & Hx2 & Hw2).
    wp_step. wp_step. wp_step.
    match goal with H : Sockets.closeAll _ _ _ = _ |- _ =>
      pose proof (closeAll_log _ _ _ _ _ H) as (tr2 & Hl2 & Hd2 & Ho2);
      eapply Sockets.closeAll_held in H; [|rewrite Hk2, Hk1; exact Hh] end.
    exists (evs1 ++ evs2), (tr ++ tr2).
    rewrite dials_app, Sockets.options_app, Hd2, Ho2, !app_nil_r, <- Hc. split_and!; [| |done|done| |done].
    - eapply extends_trans in Hx2; [|exact Hx1]. exact Hx2.
    - simpl. rewrite Hl2, Hk2, Hk1. simpl. by rewrite Hl, <- app_assoc.
    - rewrite writes_app, Hw1, Hw2, <- list_fmap_compose. done. }
  apply wp_iff in Hwp as ([] & w' & Hrun & evs & tr & ?). exists w', evs, buf, tr. tauto.
Qed.
End model.

(** ** Instances *)
Section instances.
Import RefEnv.

Definition beacon0 : Config :=
  mkConfig (replicate 16 x20) 9300 1 128 (60 * Second) x05 0x18 7 0xB [0xFF05; 0xFF35] true (Some 2) None.

Lemma beacon_contract_witness :
  ∃ w', Run (λ _, 0) beacon0 2 world0 = Some (tt, w') ∧ ∃ evs, extends world0 w' evs ∧ Sockets.held (klog (w_env w')) ≡ₚ [].
Proof.
  destruct (beacon_contract (λ _, 0) beacon0 2 world0) as (w' & evs & buf & tr & Hrun & _ & Hx & _ & _ & _ & _ & Hh);
    [apply _|apply _|].
  exists w'. split; [exact Hrun|]. exists evs. split; [exact Hx|exact Hh].
Defined.

(** Two groups, at start-up and after one tick. *)
Example beacon0_sends :
  option_map (λ r, (writes (w_events r.2)).*1) (Run (λ _, 0) beacon0 1 world0) =
  Some ((λ p, mkUDPAddr (GroupAddr p 0xB GroupBeacon) 9300 "") <$> [0xFF05; 0xFF35; 0xFF05; 0xFF35]).
Proof. vm_compute. reflexivity. Qed.

Lemma advert_roundtrip_witness :
  ∃ b, buildADVERT (λ _, 0) (New beacon0) = Some b ∧ length b = 56%nat ∧ field 8 24 b = replicate 16 x20 ∧
    be_dec (field 28 30 b) = 60 ∧ be_dec (field 30 32 b) = 0x18.
Proof.
  destruct (advert_roundtrip (λ _, 0) beacon0 (replicate 16 x20) 60)
    as (b & Hb & Hl & _ & _ & _ & _ & Hip & _ & _ & _ & Hi & Hf & _);
    [apply _|reflexivity|reflexivity|reflexivity|lia|simpl; lia|simpl; lia|simpl; lia|].
  exists b. split; [exact Hb|]. split; [exact Hl|]. split; [exact Hip|]. split; [exact Hi|exact Hf].
Defined.

Definition beacon1 : Config :=
  mkConfig (replicate 16 x20) 9300 1 128 (60 * Second) x05 0x18 7 0xB [0xFF05] true (Some 2) None.
Lemma asm_only_keeps_groups_witness :
  beaconGroups beacon1 = [mkUDPAddr (GroupAddr 0xFF05 0xB GroupBeacon) 9300 ""].
Proof. apply (asm_only_keeps_groups beacon1 "ssm" "site" 5 [0xFF05]); vm_compute; reflexivity. Defined.
End instances.

End Beacon.
