(* ===== verification/Endpoint.v ===== *)
(** * Assembly

    Models the parts of src/main.go that decide what the components are built
    from: the SSM rosters ([excludeOwnSource], [buildSSMGroupSources]), the joined
    groups ([buildGroups]), the instance identifier, the advertised flags, and the
    ingress workers, retransmitter, recovery client and server one configuration
    makes. bootstrap.Resolver is the parameter [resolve] ([Start] followed by [Current]);
    whether its [Current] hands out the resolver's own array or a copy is the
    parameter [aliased], and every theorem holds for both. The order in which main
    builds these parts, and what can fail on the way, is Assembly.v. *)

From S2P Require Import Prelude GoNet External RefEnv RateLimit World CacheStore Retransmit Proxy Server Ingress Pipeline.
From S2P Require Import GoText GoAddr Config Load Sockets Beacon.
From Stdlib Require Import Strings.Byte.
Import GoNet External RateLimit World CacheStore GoAddr Load.

Module Endpoint.

(** *** excludeOwnSource

    [out := srcs[:0]] reuses the backing array: the loop reads element [i] and
    writes element [o ≤ i] of one array. The result is the final array and the
    length of [out]. *)
Fixpoint compact (own : addr) (n i o : nat) (arr : list addr) : list addr * nat :=
  match n with
  | O => (arr, o)
  | S n' =>
      match arr !! i with
      | Some s =>
          if decide (s ≠ own) then compact own n' (S i) (S o) (<[o := s]> arr)
          else compact own n' (S i) o arr
      | None => (arr, o)
      end
  end.

(** The returned slice, and the argument's backing array afterwards. *)
Definition excludeOwnSource (srcs : list addr) (own : addr) : list addr * list addr :=
  if negb (IsValid own) then (srcs, srcs)
  else let '(arr, o) := compact own (length srcs) 0 0 srcs in (take o arr, arr).

(** CRC-32C, bit by bit, of a byte string. *)
Fixpoint crc_bits (n : nat) (c : Z) : Z :=
  match n with
  | O => c
  | S n' => crc_bits n' (if Z.odd c then Z.lxor (Z.shiftr c 1) 0x82F63B78 else Z.shiftr c 1)
  end.
Definition crc32c (b : bytes) : Z :=
  Z.lxor (fold_left (λ c x, crc_bits 8 (Z.lxor c (byte_Z x))) b 0xFFFFFFFF) 0xFFFFFFFF.

Definition hashInstanceID (s : string) : Z :=
  let h := crc32c (bytes_of_string s) in if h =? 0 then 1 else h.

(** The register stays a 32-bit word. *)
Lemma lxor_word a b : 0 ≤ a < 2 ^ 32 → 0 ≤ b < 2 ^ 32 → 0 ≤ Z.lxor a b < 2 ^ 32.
Proof.
  intros Ha Hb. split; [apply Z.lxor_nonneg; lia|].
  destruct (decide (Z.lxor a b = 0)) as [->|Hne]; [lia|].
  apply Z.log2_lt_cancel. eapply Z.le_lt_trans; [apply Z.log2_lxor; lia|].
  change (Z.log2 (2 ^ 32)) with 32.
  assert (∀ x, 0 ≤ x < 2 ^ 32 → Z.log2 x < 32) as Hlog.
  { intros x Hx. destruct (decide (x = 0)) as [->|]; [done|]. apply Z.log2_lt_pow2; lia. }
  apply Z.max_lub_lt; by apply Hlog.
Qed.

Lemma crc_bits_word n c : 0 ≤ c < 2 ^ 32 → 0 ≤ crc_bits n c < 2 ^ 32.
Proof.
  revert c. induction n as [|n IH]; intros c Hc; simpl; [done|]. apply IH.
  assert (0 ≤ Z.shiftr c 1 < 2 ^ 32).
  { split; [apply Z.shiftr_nonneg; lia|]. rewrite Z.shiftr_div_pow2 by lia.
    apply Z.div_lt_upper_bound; lia. }
  destruct (Z.odd c); [by apply lxor_word|done].
Qed.

Lemma crc32c_word b : 0 ≤ crc32c b < 2 ^ 32.
Proof.
  unfold crc32c. apply lxor_word; [|done].
  assert (0 ≤ 0xFFFFFFFF < 2 ^ 32) as Hc by done. revert Hc. generalize 0xFFFFFFFF.
  induction b as [|x b IH]; intros c Hc; cbn [fold_left]; [done|].
  apply IH. apply crc_bits_word, lxor_word; [done|]. pose proof (byte_Z_range x). lia.
Qed.

(** The instance identifier of every name is a nonzero 32-bit word, so it
    fits the beacon's field and is never the reserved value; and the bitwise
    loop is CRC-32C: it has the algorithm's published check value. *)
Theorem instance_id_valid (s : string) :
  0 < hashInstanceID s < 2 ^ 32 ∧ hashInstanceID "123456789" = 0xE3069283.
Proof.
  split; [|by vm_compute]. unfold hashInstanceID. pose proof (crc32c_word (bytes_of_string s)).
  destruct (_ =? 0) eqn:Hz; lia.
Qed.

Section model.
Context {E : Type} `{!RateLib E, !OS E, !Backend E, !FetchNet E, !FrameLib, !ShardLib, !TeeWire}.
Context (resolve : list string → E → (list addr + gerror) * E) (aliased : bool).

Definition groupIP (cfg : Config) (idx : Z) : bytes := GroupAddr (MCPrefix cfg) (MCGroupID cfg) idx.

Definition ownSource (cfg : Config) : addr :=
  if decide (f_BindSource cfg ≠ ""%string) then default AddrZero (ParseAddr (f_BindSource cfg))
  else AddrZero.

(** The closure [resolve] of buildSSMGroupSources. *)
Definition resolveInto (own : addr) (entries : list string) (gs : gmap bytes (list addr))
    (groupIPs : list bytes) (e : E) : (gmap bytes (list addr) + gerror) * E :=
  if decide (length entries = 0%nat) then (inl gs, e) else
  match resolve entries e with
  | (inr err, e') => (inr err, e')
  | (inl current, e') =>
      let fix go current gs ips :=
        match ips with
        | [] => (inl gs, e')
        | gip :: ips' =>
            match To16 gip with
            | None => (inr (ErrText "not IPv6"), e')
            | Some ga =>
                let '(srcs, arr) := excludeOwnSource current own in
                go (if aliased then arr else current) (<[ga := srcs]> gs) ips'
            end
        end in
      go current gs groupIPs
  end.

(** The data-plane groups all get one roster. *)
Definition assignAll (srcs : list addr) (ips : list bytes) (gs : gmap bytes (list addr))
  : gmap bytes (list addr) :=
  fold_left (λ gs ip, match To16 ip with Some ga => <[ga := srcs]> gs | None => gs end) ips gs.

Definition shardIPs (cfg : Config) : list bytes :=
  (λ i, groupIP cfg (Z.of_nat i)) <$> seq 0 (Z.to_nat (NumGroups cfg)).
Definition beefIPs (cfg : Config) : list bytes :=
  (λ i, groupIP cfg (0x1000 + Z.of_nat i)) <$> seq 0 (Z.to_nat (2 ^ BEEFShardBits cfg)).

Definition buildSSMGroupSources (cfg : Config) (e : E)
  : (gmap bytes (list addr) + gerror) * E :=
  let own := ownSource cfg in
  match resolveInto own (SSMBootstrapBeacon cfg) ∅ [groupIP cfg GroupBeacon] e with
  | (inr err, e) => (inr (ErrWrap "beacon" err), e)
  | (inl gs, e) =>
  match resolveInto own (SSMBootstrapSubtreeAnn cfg) gs
          [groupIP cfg GroupSubtreeDataAnnounce; groupIP cfg GroupSubtreeGroupAnnounce] e with
  | (inr err, e) => (inr (ErrWrap "subtree-announce" err), e)
  | (inl gs, e) =>
  match resolveInto own (SSMBootstrapManifest cfg) gs [groupIP cfg GroupBlockBroadcast] e with
  | (inr err, e) => (inr (ErrWrap "manifest" err), e)
  | (inl gs, e) =>
  if decide (length (SSMPublishersStatic cfg) = 0%nat) then (inl gs, e) else
  match resolve (SSMPublishersStatic cfg) e with
  | (inr err, e) => (inr (ErrWrap "publishers-static" err), e)
  | (inl current, e) =>
      let srcs := (excludeOwnSource current own).1 in
      let gs := assignAll srcs (shardIPs cfg) gs in
      (inl (if f_BEEFEnabled cfg then assignAll srcs (beefIPs cfg) gs else gs), e)
  end end end end.

Definition buildGroups (cfg : Config) (engine : Engine) : list udpaddr :=
  ((λ i, eng_Addr engine (Z.of_nat i) (f_ListenPort cfg)) <$> seq 0 (Z.to_nat (NumGroups cfg))) ++
  [mkUDPAddr (groupIP cfg GroupBlockBroadcast) (f_ListenPort cfg) ""] ++
  (if f_SubtreeDataEnabled cfg
   then [mkUDPAddr (groupIP cfg GroupSubtreeDataAnnounce) (f_ListenPort cfg) ""] else []) ++
  (if f_BEEFEnabled cfg
   then (λ i, eng_Addr engine (0x1000 + Z.of_nat i) (f_ListenPort cfg)) <$> seq 0 (Z.to_nat (2 ^ BEEFShardBits cfg))
   else []).

(** *** Wiring *)

(** The TTLs of config.Config, as proxy.TTLConfig and ingress.TTLConfig. *)
Definition proxyTTLs (cfg : Config) : Proxy.TTLConfig :=
  let t := CacheTTLs cfg in
  Proxy.mkTTLs (Config.CacheTTLTx t) (Config.CacheTTLBlock t) (Config.CacheTTLSubtree t)
    (Config.CacheTTLAnchor t) (Config.CacheTTLBEEF t).
Definition ingressTTLs (cfg : Config) : Ingress.TTLConfig :=
  let t := CacheTTLs cfg in
  Ingress.mkTTLs (Config.CacheTTLTx t) (Config.CacheTTLBlock t) (Config.CacheTTLSubtree t)
    (Config.CacheTTLAnchor t) (Config.CacheTTLBEEF t).

(** One worker per part of the groups. *)
Definition buildIngress (cfg : Config) (mcIface : option iface) (groups : list udpaddr) (c : CacheI E)
  : list (Ingress.Worker (E := E)) :=
  (λ gs, Pipeline.SetPipeline (f_QueueDepth cfg) (f_IngressProcs cfg)
           (Ingress.SetRecvBuf (f_RecvBufBytes cfg)
             (Ingress.New (if_Index <$> mcIface) (f_ListenPort cfg) gs c true (ingressTTLs cfg))))
    <$> Ingress.Partition groups (NumWorkers cfg).

Definition proxyConfig (cfg : Config) (frameBackend : backend) (dedupB : option backend)
    (nackBindIP : bytes) (retrans : RetransI E) : Proxy.Config :=
  Proxy.mkConfig (UpstreamRetryEndpoints cfg) (Some nackBindIP) (f_ProxyTimeout cfg)
    (f_ProxyMaxEndpoints cfg) (f_ProxyDedupWindow cfg) (ProxyWorkers cfg) (f_ProxyQueue cfg)
    ((λ b, proxy_store b (f_CacheOpTimeout cfg)) <$> dedupB) (store_cache (frame_store frameBackend (f_CacheOpTimeout cfg))) retrans (proxyTTLs cfg) true
    (f_BeaconFlagsMulticast cfg) (f_BeaconFlagsUnicast cfg).

(** The retransmitter main opens. *)
Definition newRetransmitter (cfg : Config) (engine : Engine) (beefEngine : option PlaneEngine)
    (egressIfaces : list iface) (dedupB : option backend) (nackBindIP : bytes) : Retransmit.Retransmitter :=
  let r := Retransmit.New engine egressIfaces (f_EgressPort cfg) (f_DedupWindow cfg)
             ((λ b, dedup_store b (f_CacheOpTimeout cfg)) <$> dedupB) true in
  let r := Retransmit.SetBEEF beefEngine r in
  let r := Retransmit.SetUnicastSource nackBindIP r in
  Retransmit.SetMulticastLoop (f_EgressMulticastLoop cfg) r.

Definition buildServer (cfg : Config) (engine : Engine) (beefEngine : option PlaneEngine)
    (frameBackend : backend) (dedupB : option backend) (nackBindIP : bytes)
    (retrans : RetransI E) : Server.Server (E := E) :=
  let s := Server.New (f_NACKPort cfg) (store_cache (frame_store frameBackend (f_CacheOpTimeout cfg))) true retrans
             (NACKWorkers cfg) (f_Debug cfg) in
  let s := Server.SetBindAddr (IP_String nackBindIP) s in
  let s := Server.SetSuppressACK (f_SuppressACK cfg) s in
  let s := Server.SetSuppressMISS (f_SuppressMISS cfg) s in
  let s := Server.SetThrottleResponse (f_ThrottleResponse cfg) s in
  let s := Server.SetShardEngine (Some engine) s in
  let s := Server.SetBEEFEngine beefEngine s in
  let s := Server.SetRetransmitModes (f_BeaconFlagsMulticast cfg) (f_BeaconFlagsUnicast cfg) s in
  if f_ProxyEnabled cfg then
    Server.SetProxy (Some (Proxy.proxy_iface
      (Proxy.New (proxyConfig cfg frameBackend dedupB nackBindIP retrans)))) s
  else s.

Definition advertFlags (cfg : Config) : Z :=
  let flags := 0 in
  let flags := if f_BeaconFlagsUnicast cfg then Z.lor flags Beacon.FlagUnicastRetransmit else flags in
  let flags := if f_BeaconFlagsMulticast cfg then Z.lor flags Beacon.FlagMulticastRetransmit else flags in
  let flags := if f_BeaconFlagsDraining cfg then Z.lor flags Beacon.FlagDraining else flags in
  if f_ProxyEnabled cfg then Z.lor flags Beacon.FlagHasParent else flags.

(** ** Lemmas *)

(** The loop's invariant: the array is the kept prefix, then stale or unread
    elements, with the unread ones intact. *)
Lemma compact_filter own srcs n i o arr :
  (i + n = length srcs)%nat → length arr = length srcs → (o ≤ i)%nat →
  take o arr = filter (λ s, s ≠ own) (take i srcs) → drop i arr = drop i srcs →
  let '(arr', o') := compact own n i o arr in
  take o' arr' = filter (λ s, s ≠ own) srcs ∧ length arr' = length srcs.
Proof.
  revert i o arr. induction n as [|n IH]; intros i o arr Hn Hl Ho Hpre Hsuf; simpl.
  { rewrite Hpre, take_ge by lia. done. }
  destruct (lookup_lt_is_Some_2 srcs i) as [s Hs]; [lia|].
  assert (arr !! i = Some s) as Ha.
  { rewrite <- (Nat.add_0_r i), <- lookup_drop, Hsuf, lookup_drop, Nat.add_0_r. done. }
  assert (drop (S i) arr = drop (S i) srcs) as Hsuf'.
  { rewrite (drop_S _ s) in Hsuf by done. rewrite (drop_S srcs s) in Hsuf by done. congruence. }
  rewrite Ha. case_decide as Hso; apply IH; rewrite ?length_insert; try done; try lia.
  - rewrite (take_S_r _ _ s) by (apply list_lookup_insert_eq; lia).
    rewrite take_insert_ge by lia. rewrite Hpre, (take_S_r _ _ s Hs), filter_app.
    f_equal. rewrite filter_cons_True by done. done.
  - by rewrite drop_insert_lt by lia.
  - rewrite Hpre, (take_S_r _ _ s Hs), filter_app, filter_cons_False by (intros Hne; by apply Hne).
    by rewrite filter_nil, app_nil_r.
Qed.

Lemma excludeOwnSource_filter srcs own : IsValid own = true →
  (excludeOwnSource srcs own).1 = filter (λ s, s ≠ own) srcs.
Proof.
  intros Hv. unfold excludeOwnSource. rewrite Hv. simpl.
  pose proof (compact_filter own srcs (length srcs) 0 0 srcs) as Hf.
  destruct (compact _ _ _ _ _) as [arr o]. simpl. apply Hf; done || lia.
Qed.

Lemma excludeOwnSource_own srcs own : IsValid own = true → own ∉ (excludeOwnSource srcs own).1.
Proof. intros Hv. rewrite excludeOwnSource_filter, list_elem_of_filter by done. naive_solver. Qed.

(** No roster of [gs] holds [own]. *)
Definition rosters_exclude (own : addr) (gs : gmap bytes (list addr)) : Prop :=
  map_Forall (λ _ srcs, own ∉ srcs) gs.

Lemma resolveInto_exclude own entries gs ips e gs' e' : IsValid own = true →
  resolveInto own entries gs ips e = (inl gs', e') → rosters_exclude own gs → rosters_exclude own gs'.
Proof.
  intros Hv. unfold resolveInto. case_decide; [intros ?; by simplify_eq|].
  destruct (resolve entries e) as [[current|err] e1]; [|done].
  revert current gs. induction ips as [|ip ips IH]; intros current gs; [intros ?; by simplify_eq|].
  destruct (To16 ip); [|done]. destruct (excludeOwnSource current own) as [srcs arr] eqn:Hx.
  intros Hgo Hgs. eapply IH; [exact Hgo|]. apply map_Forall_insert_2; [|done].
  pose proof (excludeOwnSource_own current own Hv) as Hnot. by rewrite Hx in Hnot.
Qed.

(** A group a list is not resolved for keeps its roster. *)
Lemma resolveInto_other own entries gs ips e gs' e' ga :
  resolveInto own entries gs ips e = (inl gs', e') → Forall (λ ip, To16 ip ≠ Some ga) ips → gs' !! ga = gs !! ga.
Proof.
  unfold resolveInto. case_decide; [intros ?; by simplify_eq|].
  destruct (resolve entries e) as [[current|err] e1]; [|done].
  revert current gs. induction ips as [|ip ips IH]; intros current gs; [intros ?; by simplify_eq|].
  destruct (To16 ip) eqn:Ht; [|done]. destruct (excludeOwnSource current own) as [srcs arr].
  intros Hgo [Hip Hips]%Forall_cons. rewrite (IH _ _ Hgo Hips). apply lookup_insert_ne. congruence.
Qed.

Lemma assignAll_lookup srcs ips gs ga :
  assignAll srcs ips gs !! ga =
    if decide (Some ga ∈ (To16 <$> ips)) then Some srcs else gs !! ga.
Proof.
  unfold assignAll. revert gs. induction ips as [|ip ips IH]; intros gs.
  { rewrite decide_False; [done|]. apply not_elem_of_nil. }
  cbn [fold_left]. rewrite IH, fmap_cons. clear IH. destruct (decide (Some ga ∈ To16 <$> ips)).
  { rewrite decide_True; [done|]. by apply list_elem_of_further. }
  destruct (To16 ip) as [ga'|] eqn:Ht.
  - destruct (decide (ga' = ga)) as [->|Hne].
    + rewrite decide_True by (apply list_elem_of_here). by rewrite lookup_insert_eq.
    + rewrite decide_False; [by rewrite lookup_insert_ne|].
      rewrite elem_of_cons. intros [?|?]; congruence.
  - rewrite decide_False; [done|]. rewrite elem_of_cons. by intros [?|?].
Qed.

Lemma assignAll_exclude own srcs ips gs :
  own ∉ srcs → rosters_exclude own gs → rosters_exclude own (assignAll srcs ips gs).
Proof.
  intros Hs Hgs ga l. rewrite assignAll_lookup. case_decide; [by intros [= <-]|]. by apply Hgs.
Qed.

(** The rosters after the static publishers are assigned. *)
Definition data_plane (cfg : Config) (srcs : list addr) (gs : gmap bytes (list addr))
  : gmap bytes (list addr) :=
  if f_BEEFEnabled cfg then assignAll srcs (beefIPs cfg) (assignAll srcs (shardIPs cfg) gs)
  else assignAll srcs (shardIPs cfg) gs.

(** What a successful run of buildSSMGroupSources has done: the bootstrap
    rosters, then the static publishers' roster over the data-plane groups. *)
Lemma buildSSMGroupSources_inv cfg e gs e' : IsValid (ownSource cfg) = true →
  buildSSMGroupSources cfg e = (inl gs, e') →
  ∃ gs0 e0, rosters_exclude (ownSource cfg) gs0 ∧
    (length (SSMPublishersStatic cfg) = 0%nat ∧ gs = gs0 ∨
     ∃ current, resolve (SSMPublishersStatic cfg) e0 = (inl current, e') ∧
       gs = data_plane cfg (filter (λ s, s ≠ ownSource cfg) current) gs0).
Proof.
  intros Hv. unfold buildSSMGroupSources.
  destruct (resolveInto _ _ ∅ _ _) as [[g1|?] e1] eqn:Hr1; [|done].
  destruct (resolveInto _ _ g1 _ _) as [[g2|?] e2] eqn:Hr2; [|done].
  destruct (resolveInto _ _ g2 _ _) as [[g3|?] e3] eqn:Hr3; [|done].
  intros Hb. exists g3, e3. split.
  { eapply resolveInto_exclude; [done|exact Hr3|]. eapply resolveInto_exclude; [done|exact Hr2|].
    eapply resolveInto_exclude; [done|exact Hr1|]. apply map_Forall_empty. }
  case_decide; [simplify_eq; by left|]. right.
  destruct (resolve (SSMPublishersStatic cfg) e3) as [[current|?] e4]; [|done].
  rewrite excludeOwnSource_filter in Hb by done. simplify_eq. eauto.
Qed.

Lemma roster_excludes_own cfg e gs e' ga srcs : IsValid (ownSource cfg) = true →
  buildSSMGroupSources cfg e = (inl gs, e') → gs !! ga = Some srcs → ownSource cfg ∉ srcs.
Proof.
  intros Hv Hb. destruct (buildSSMGroupSources_inv _ _ _ _ Hv Hb) as (gs0 & e0 & Hgs0 & [[_ ->]|(current & _ & ->)]).
  { apply Hgs0. }
  assert (ownSource cfg ∉ filter (λ s, s ≠ ownSource cfg) current) as Hnot.
  { rewrite list_elem_of_filter. naive_solver. }
  unfold data_plane. destruct (f_BEEFEnabled cfg); revert ga srcs;
    repeat (apply assignAll_exclude; [done|]); exact Hgs0.
Qed.

Lemma shardIPs_elem cfg i ga : (i < Z.to_nat (NumGroups cfg))%nat →
  To16 (groupIP cfg (Z.of_nat i)) = Some ga → Some ga ∈ (To16 <$> shardIPs cfg).
Proof.
  intros Hi <-. apply list_elem_of_fmap_2. unfold shardIPs. apply list_elem_of_fmap.
  exists i. split; [done|]. apply elem_of_seq. lia.
Qed.

(** The data-plane roster of every shard group. *)
Lemma shard_roster cfg srcs gs0 i ga : (i < Z.to_nat (NumGroups cfg))%nat →
  To16 (groupIP cfg (Z.of_nat i)) = Some ga →
  data_plane cfg srcs gs0 !! ga = Some srcs.
Proof.
  unfold data_plane. intros Hi Hga. pose proof (shardIPs_elem _ _ _ Hi Hga).
  destruct (f_BEEFEnabled cfg); rewrite !assignAll_lookup; repeat (case_decide; [done|]); done.
Qed.

(** Joining groups whose roster is empty is joining them without a roster. *)
Lemma joinAll_empty join ifindex (w : Ingress.Worker (E := E)) first gs grps e :
  Forall (λ g, ∀ ga, To16 (ua_IP g) = Some ga → default [] (gs !! ga) = []) grps →
  Ingress.joinAll join ifindex (Ingress.SetGroupSources (Some gs) w) first grps e =
  Ingress.joinAll join ifindex (Ingress.SetGroupSources None w) first grps e.
Proof.
  intros Hg. revert e. induction Hg as [|g grps Hga _ IH]; intros e; simpl; [done|].
  destruct (To16 (ua_IP g)) as [ga|] eqn:Ht; [|done]. rewrite (Hga ga) by done. simpl.
  destruct (join ifindex ga [] e) as [[err|] e1]; [destruct first|]; done.
Qed.

Lemma advertFlags_range cfg : 0 ≤ advertFlags cfg < 2 ^ 16.
Proof.
  unfold advertFlags. destruct (f_ProxyEnabled cfg), (f_BeaconFlagsUnicast cfg), (f_BeaconFlagsMulticast cfg),
    (f_BeaconFlagsDraining cfg); simpl; done.
Qed.

(** ** Theorems *)

(** A roster never names the node itself. Whatever the resolver returns, and
    whether or not the rosters share its array, no roster that
    buildSSMGroupSources builds holds the bind source, and every data-plane
    shard group has exactly the resolved publishers without it, in order. *)
Theorem own_source_excluded (cfg : Config) (e e' : E) (gs : gmap bytes (list addr)) :
  IsValid (ownSource cfg) = true → buildSSMGroupSources cfg e = (inl gs, e') →
  (∀ ga srcs, gs !! ga = Some srcs → ownSource cfg ∉ srcs) ∧
  (SSMPublishersStatic cfg ≠ [] → ∃ e0 current,
     resolve (SSMPublishersStatic cfg) e0 = (inl current, e') ∧
     ∀ i ga, (i < Z.to_nat (NumGroups cfg))%nat → To16 (groupIP cfg (Z.of_nat i)) = Some ga →
       gs !! ga = Some (filter (λ s, s ≠ ownSource cfg) current)).
Proof.
  intros Hv Hb. split; [intros ga srcs; by eapply roster_excludes_own|].
  destruct (buildSSMGroupSources_inv _ _ _ _ Hv Hb) as (gs0 & e0 & Hgs0 & Hgs).
  destruct Hgs as [[Hn ->]|(current & Hres & Hgs)]; [by destruct (SSMPublishersStatic cfg)|].
  intros _. exists e0, current. split; [done|]. intros i ga Hi Hga. subst gs. by eapply shard_roster.
Qed.

(** A roster that names only the node itself turns a source-specific join
    into an any-source one. When the static publishers resolve to nothing but
    the bind source, the shard groups are joined exactly as by a worker that
    has no rosters at all. *)
Theorem own_only_roster_joins_any_source (cfg : Config) (e e' : E) (gs : gmap bytes (list addr))
    (current : list addr) (join : Z → bytes → list addr → E → option gerror * E) (ifindex : Z)
    (w : Ingress.Worker (E := E)) (first : bool) (grps : list udpaddr) (e1 : E) :
  IsValid (ownSource cfg) = true → SSMPublishersStatic cfg ≠ [] →
  (∀ e0, (resolve (SSMPublishersStatic cfg) e0).1 = inl current) →
  Forall (λ a, a = ownSource cfg) current →
  buildSSMGroupSources cfg e = (inl gs, e') →
  Forall (λ g, ∃ i, (i < Z.to_nat (NumGroups cfg))%nat ∧ ua_IP g = groupIP cfg (Z.of_nat i)) grps →
  Ingress.joinAll join ifindex (Ingress.SetGroupSources (Some gs) w) first grps e1 =
  Ingress.joinAll join ifindex (Ingress.SetGroupSources None w) first grps e1.
Proof.
  intros Hv Hne Hres Hall Hb Hgrps.
  destruct (buildSSMGroupSources_inv _ _ _ _ Hv Hb) as (gs0 & e0 & _ & [[Hn _]|(cur & Hcur & ->)]).
  { by destruct (SSMPublishersStatic cfg). }
  pose proof (Hres e0) as Hc. rewrite Hcur in Hc. simplify_eq/=.
  assert (filter (λ s, s ≠ ownSource cfg) current = []) as ->.
  { clear -Hall. induction Hall as [|a l -> _ IH]; [done|].
    rewrite filter_cons_False; [done|]. intros Hne. by apply Hne. }
  apply joinAll_empty. eapply Forall_impl; [exact Hgrps|].
  intros g (i & Hi & Hg) ga Hga. rewrite Hg in Hga. by erewrite shard_roster.
Qed.

(** The beacon advertises what the endpoint does. Bit by bit, the ADVERT
    flags of a configuration are the retransmit modes of the server that main
    builds from it, the presence of its recovery client, and the draining
    setting; they fit the 16-bit field; and the recovery client delivers by
    the same modes as the server. *)
Theorem advertised_modes_honored (cfg : Config) (engine : Engine) (pe : option PlaneEngine)
    (fb : backend) (db : option backend) (ip : bytes) (rt : RetransI E) :
  let s := buildServer cfg engine pe fb db ip rt in
  let px := Proxy.New (proxyConfig cfg fb db ip rt) in
  Z.testbit (advertFlags cfg) 3 = Server.retransmitUC s ∧
  Z.testbit (advertFlags cfg) 4 = Server.retransmitMC s ∧
  Z.testbit (advertFlags cfg) 1 = match Server.proxy s with Some _ => true | None => false end ∧
  Z.testbit (advertFlags cfg) 2 = f_BeaconFlagsDraining cfg ∧
  0 ≤ advertFlags cfg < 2 ^ 16 ∧
  Server.proxy s = (if f_ProxyEnabled cfg then Some (Proxy.proxy_iface px) else None) ∧
  Proxy.Multicast px = Server.retransmitMC s ∧ Proxy.Unicast px = Server.retransmitUC s.
Proof.
  unfold advertFlags, buildServer. simpl.
  destruct (f_ProxyEnabled cfg), (f_BeaconFlagsUnicast cfg) eqn:Hu, (f_BeaconFlagsMulticast cfg) eqn:Hm,
    (f_BeaconFlagsDraining cfg); simpl; rewrite ?Hu, ?Hm; split_and!; done.
Qed.

End model.

(** ** Instances *)
Section instances.
Import RefEnv.

Definition self : addr := Addr6 (xfd :: replicate 14 x00 ++ [x07]).
Definition peer : addr := Addr6 (xfd :: replicate 14 x00 ++ [x08]).
(** The configuration of a source-specific endpoint. *)
Definition ssm_env (publishers : string) : list (string * string) :=
  [("SOURCE_MODE", "ssm"); ("SHARD_BITS", "1"); ("BEEF_ENABLED", "1"); ("BEEF_SHARD_BITS", "1");
   ("SUBTREE_DATA_ENABLED", "1"); ("BIND_SOURCE", "fd00::7"); ("BEACON_FLAGS_UNICAST", "1");
   ("SSM_BOOTSTRAP_SUBTREE_ANNOUNCE", "ann"); ("SSM_PUBLISHERS_STATIC", publishers)]%string.
Definition cfg_pub : Config := ltac:(
  let r := eval vm_compute in (Load (H := refHost (ssm_env "pub"))) in
  match r with Some (inl ?c) => exact c end).
Definition cfg_self : Config := ltac:(
  let r := eval vm_compute in (Load (H := refHost (ssm_env "self"))) in
  match r with Some (inl ?c) => exact c end).
(** The announcers are the node and a peer; so is every list but "self". *)
Definition resolve0 (l : list string) (e : renv) : (list addr + gerror) * renv :=
  (inl (if decide (l = ["self"]) then [self; self] else [self; peer; self]), e).

Definition gs_of (cfg : Config) : gmap bytes (list addr) :=
  match (buildSSMGroupSources resolve0 true cfg env0).1 with
  | inl gs => gs | inr _ => ∅
  end.
Lemma gs_of_pub : buildSSMGroupSources resolve0 true cfg_pub env0 = (inl (gs_of cfg_pub), env0).
Proof. reflexivity. Qed.
Lemma gs_of_self : buildSSMGroupSources resolve0 true cfg_self env0 = (inl (gs_of cfg_self), env0).
Proof. reflexivity. Qed.

Lemma own_source_excluded_witness :
  gs_of cfg_pub !! groupIP cfg_pub 1 = Some [peer] ∧
  (∀ ga srcs, gs_of cfg_pub !! ga = Some srcs → self ∉ srcs).
Proof.
  destruct (own_source_excluded resolve0 true cfg_pub env0 env0 (gs_of cfg_pub))
    as [Hown Hroster]; [reflexivity|apply gs_of_pub|].
  split; [|exact Hown]. destruct Hroster as (e0 & current & Hres & Hall); [done|].
  injection Hres as <- ->.
  rewrite (Hall 1%nat (groupIP cfg_pub 1)); [reflexivity|simpl; lia|reflexivity].
Defined.

Definition worker0 : Ingress.Worker (E := renv) :=
  Ingress.New (Some 2) 9001 [] (store_cache (frame_store redis 0)) true
    (Ingress.mkTTLs 1 1 1 1 1).

Lemma own_only_roster_joins_any_source_witness :
  Ingress.joinAll (λ _ _ srcs e, (if decide (srcs = []) then None else Some (ErrText "ssm"), e)) 2
    (Ingress.SetGroupSources (Some (gs_of cfg_self)) worker0) true
    [mkUDPAddr (groupIP cfg_self 0) 9001 ""] env0 = (None, env0).
Proof.
  rewrite (own_only_roster_joins_any_source resolve0 true cfg_self env0 env0
    (gs_of cfg_self) [self; self]);
    [reflexivity|reflexivity|done|reflexivity|by repeat constructor|apply gs_of_self|].
  constructor; [|constructor]. exists 0%nat. split; [simpl; lia|reflexivity].
Defined.

End instances.

End Endpoint.
