(* ===== verification/Assembly.v ===== *)
(** * Start-up

    Models [run] of src/main.go up to the goroutines it launches: the engines, the
    cache backend and the dedup backend, the interfaces, the NACK address
    ([pickBeaconNACKAddr]), the retransmitter's sockets, the server, the recovery
    client and the ingress workers, in that order and with every early return; then
    the SSM rosters of the workers, and the beacon's configuration. An index out of
    range is a panic ([None]).

    The theorems compose the components: they start from [Load], so nothing is
    assumed of the configuration, and end at what the endpoint does, with its
    requests, recoveries and datagrams interleaved as Concurrent.v runs them. *)

From S2P Require Import Prelude GoNet External RefEnv RateLimit World CacheStore Retransmit Proxy Server Ingress Pipeline Concurrent.
From S2P Require Import GoText GoAddr GoNum Config Load Sockets Beacon Endpoint.
From Stdlib Require Import Strings.Byte.
Import GoNet External RateLimit World CacheStore GoAddr Load Endpoint.

Module Assembly.

(** scache.Config *)
Record scacheConfig := mkScache {
  sc_Backend : string; sc_MemoryMaxKeys : Z; sc_MemoryMaxBytes : Z; sc_RedisAddr : string;
  sc_AeroHosts : list string; sc_AeroNamespace : string; sc_AeroSet : string;
  sc_DialTimeout : Z; sc_OpTimeout : Z;
}.

(** The elements of [iface.Addrs()]; an empty address is nil. *)
Inductive netaddr := IPNet (ip : bytes) | IPAddr (ip : bytes) | OtherAddr.

(** Interfaces, the host name and the cache backends. *)
Class MainEnv (E : Type) `{Backend E} := {
  net_InterfaceByName : string → E → (iface + gerror) * E;
  iface_Addrs : iface → E → (list netaddr + gerror) * E;
  os_Hostname : E → (string + gerror) * E;
  scache_Open : scacheConfig → E → (backend + gerror) * E;
}.

(** [x, err := m; if err != nil { return wrap(err) }] *)
Definition etry {E A B} (m : GoM E (A + gerror)) (wrap : gerror → gerror) (k : A → GoM E (B + gerror))
  : GoM E (B + gerror) :=
  r ← m; match r with inl a => k a | inr err => mret (inr (wrap err)) end.

Definition u8 (z : Z) : Z := z mod 2 ^ 8.

Section model.
Context {E : Type} `{!RateLib E, !OS E, !Backend E, !FetchNet E, !Kernel E, !FrameLib, !ShardLib, !ScopeLib, !TeeWire}.
Context `{!Host, !MainEnv E}.

(** The first usable address of an interface. *)
Fixpoint firstGlobal (addrs : list netaddr) : option bytes :=
  match addrs with
  | [] => None
  | a :: addrs' =>
      let ip := match a with IPNet ip => ip | IPAddr ip => ip | OtherAddr => [] end in
      if decide (ip = [] ∨ To4 ip ≠ None) then firstGlobal addrs'
      else if IP_IsGlobalUnicast ip && negb (IP_IsLinkLocalUnicast ip) then To16 ip
      else firstGlobal addrs'
  end.

Definition pickBeaconNACKAddr (explicit : string) (ifc : iface) : GoM E (bytes + gerror) :=
  if decide (explicit ≠ ""%string) then
    match ParseIP explicit with
    | None => mret (inr (ErrText "invalid nack-addr"))
    | Some ip => mret (inl (default [] (To16 ip)))
    end
  else
    etry (lift_state (iface_Addrs ifc)) (ErrWrap "iface addrs") (λ addrs,
    match firstGlobal addrs with
    | Some ip => mret (inl ip)
    | None => mret (inr (ErrText "no global-unicast IPv6 address"))
    end).

Definition frameConfig (cfg : Config) : scacheConfig :=
  mkScache (f_CacheBackend cfg) (f_CacheMaxKeys cfg) (f_CacheMaxBytes cfg) (f_RedisAddr cfg)
    (AeroHosts cfg) (f_AeroNamespace cfg) (f_AeroSet cfg) (f_CacheDialTimeout cfg) (f_CacheOpTimeout cfg).

(** The backend of the cross-instance gates: the shared frame backend, or a
    Redis of its own beside the memory backend; none when it is unreachable. *)
Definition openDedup (cfg : Config) (frameBackend : backend) : GoM E (option backend) :=
  if decide (f_CacheBackend cfg = "redis" ∨ f_CacheBackend cfg = "aerospike")%string then mret (Some frameBackend)
  else if decide (f_CacheBackend cfg = "memory" ∧ f_RedisAddr cfg ≠ "")%string then
    r ← lift_state (scache_Open
          (mkScache "redis" 0 0 (f_RedisAddr cfg) [] "" "" (f_CacheDialTimeout cfg) (f_CacheOpTimeout cfg)));
    match r with inl b => mret (Some b) | inr _ => mret None end
  else mret None.

Fixpoint egressInterfaces (names : list string) (out : list iface) : GoM E (list iface + gerror) :=
  match names with
  | [] => mret (inl out)
  | name :: names' =>
      etry (lift_state (net_InterfaceByName name)) id (λ ifc, egressInterfaces names' (out ++ [ifc]))
  end.

Definition rateConfig (cfg : Config) : RateLimit.Config :=
  RateLimit.mkConfig (f_RLIPRate cfg) (f_RLIPBurst cfg) (f_RLSenderRate cfg) (f_RLSenderWindow cfg)
    (f_RLChainRate cfg) (f_RLChainWindow cfg) (f_RLSequenceMax cfg) (f_RLSequenceWindow cfg)
    (f_RLGroupRate cfg) (f_RLGroupBurst cfg).

(** What run has built when it starts the goroutines. *)
Record assembly := mkAssembly {
  as_engine : Engine; as_beef : PlaneEngine; as_frame : backend; as_dedup : option backend;
  as_egress : list iface; as_limits : RateLimit.Config; as_nackIP : bytes;
  as_retrans : Retransmit.Retransmitter (E := E); as_server : Server.Server (E := E);
  as_ings : list (Ingress.Worker (E := E));
}.

Definition openRetrans (r : Retransmit.Retransmitter (E := E)) : GoM E (Retransmit.Retransmitter (E := E) + gerror) := act (λ e,
  match Retransmit.Open Sockets.egress_err Sockets.unicast_err r e with
  | (Some err, _, e') => Some (inr err, e')
  | (None, r', e') => Some (inl r', e')
  end).

Definition assemble (cfg : Config) : GoM E (assembly + gerror) :=
  let engine := NewEngine (MCPrefix cfg) (MCGroupID cfg) (ShardBits cfg) in
  etry (mret (NewPlane (MCPrefix cfg) (MCGroupID cfg) (BEEFShardBits cfg))) (ErrWrap "beef plane") (λ beef,
  etry (lift_state (scache_Open (frameConfig cfg))) (ErrWrap "cache backend") (λ fb,
  dedupB ← openDedup cfg fb;
  let groups := buildGroups cfg engine in
  etry (if f_MCJoinEnabled cfg then
          r ← lift_state (net_InterfaceByName (f_MCIface cfg));
          mret (match r with inl ifc => inl (Some ifc) | inr err => inr err end)
        else mret (inl None)) id (λ mcIface,
  etry (egressInterfaces (EgressIfaces cfg) []) id (λ egress,
  egress0 ← liftO (egress !! 0%nat);
  etry (pickBeaconNACKAddr (f_BeaconNACKAddr cfg) egress0) (ErrWrap "resolve nack bind address") (λ nackIP,
  etry (openRetrans (newRetransmitter cfg engine (Some beef) egress dedupB nackIP)) id (λ retrans,
  let s := buildServer cfg engine (Some beef) fb dedupB nackIP (Retransmit.retrans_iface retrans) in
  let ings := buildIngress cfg mcIface groups (store_cache (frame_store fb (f_CacheOpTimeout cfg))) in
  _ ← liftO (ings !! 0%nat);
  mret (inl (mkAssembly engine beef fb dedupB egress (rateConfig cfg) nackIP retrans s ings)))))))).

(** The rosters, set on every worker. [pre] is the list of sources whose counters
    are created in advance; a range over a map orders it. *)
Definition startSSM (resolve : list string → E → (list addr + gerror) * E) (aliased : bool)
    (cfg : Config) (ings : list (Ingress.Worker (E := E)))
  : GoM E (list (Ingress.Worker (E := E)) * list string + gerror) :=
  if decide (SourceMode cfg ≠ "ssm"%string) then mret (inl (ings, [])) else
  etry (lift_state (buildSSMGroupSources resolve aliased cfg)) (ErrWrap "ssm bootstrap") (λ gs,
  let uniq : gset string := list_to_set (Addr_String <$> concat (map_to_list gs).*2) in
  pre ← lift_state (range_order string (elements uniq));
  mret (inl (Ingress.SetGroupSources (Some gs) <$> ings, pre))).

(** The beacon's configuration, when it is enabled. *)
Definition beaconConfig (cfg : Config) (egress : list iface) : GoM E (Beacon.Config + gerror) :=
  beaconIface ← liftO (egress !! 0%nat);
  etry (pickBeaconNACKAddr (f_BeaconNACKAddr cfg) beaconIface) (ErrWrap "beacon") (λ nackIP,
  host ← (if decide (f_InstanceID cfg = ""%string) then
            h ← lift_state os_Hostname;
            mret (match h with inl h => h | inr _ => ""%string end)
          else mret (f_InstanceID cfg));
  let bindSrc := if decide (f_BindSource cfg ≠ ""%string) then ParseIP (f_BindSource cfg) else None in
  etry (mret (Config.BeaconGroupPrefixes (ControlGroupCompat cfg) (SourceMode cfg) (f_BeaconScope cfg)))
    (ErrWrap "beacon group") (λ prefixes,
  mret (inl (Beacon.mkConfig nackIP (u16 (f_NACKPort cfg)) (u8 (BeaconTier cfg)) (u8 (BeaconPreference cfg))
    (f_BeaconInterval cfg) (Z_byte (BeaconScopeByte cfg)) (advertFlags cfg) (hashInstanceID host) (MCGroupID cfg)
    prefixes true (Some (if_Index beaconIface)) bindSrc)))).

(** ** Lemmas *)

Lemma wp_etry {A B W} (m : GoM W (A + gerror)) wrap (k : A → GoM W (B + gerror)) Q w :
  wp m (λ r w', match r with inl a => wp (k a) Q w' | inr err => Q (inr (wrap err)) w' end) w →
  wp (etry m wrap k) Q w.
Proof.
  intros Hm. unfold etry. apply wp_bind. eapply wp_mono; [exact Hm|]. intros [a|err] w'; [done|].
  intros HQ. by apply wp_ret.
Qed.

(** *** The joined groups *)

Definition group_indices (cfg : Config) : list Z :=
  (Z.of_nat <$> seq 0 (Z.to_nat (NumGroups cfg))) ++ [GroupBlockBroadcast] ++
  (if f_SubtreeDataEnabled cfg then [GroupSubtreeDataAnnounce] else []) ++
  (if f_BEEFEnabled cfg then (λ i, 0x1000 + Z.of_nat i) <$> seq 0 (Z.to_nat (2 ^ BEEFShardBits cfg)) else []).

Lemma buildGroups_indices `{!ShardLibOk} cfg :
  buildGroups cfg (NewEngine (MCPrefix cfg) (MCGroupID cfg) (ShardBits cfg)) =
    (λ i, mkUDPAddr (groupIP cfg i) (f_ListenPort cfg) "") <$> group_indices cfg.
Proof.
  unfold buildGroups, group_indices. rewrite !fmap_app, <- !list_fmap_compose. f_equal; [|f_equal; f_equal].
  - apply list_fmap_ext. intros _ i _. apply eng_addr_eq.
  - by destruct (f_SubtreeDataEnabled cfg).
  - destruct (f_BEEFEnabled cfg); [|done]. rewrite <- list_fmap_compose.
    apply list_fmap_ext. intros _ i _. apply eng_addr_eq.
Qed.

(** The shard groups lie below 0x1000, the BEEF plane below 0x2000, the control
    groups above both. *)
Lemma group_indices_zones `{!ShardLibOk} cfg : valid cfg →
  NoDup (group_indices cfg) ∧ Forall (λ i, 0 ≤ i < 2 ^ 16) (group_indices cfg).
Proof.
  intros [[Hb Hn] Hbeef _ _ _ _ _ _ _ _ _ _ _ _]. unfold group_indices. rewrite block_group, subtree_group, Hn.
  assert (2 ^ ShardBits cfg ≤ 2 ^ 12) by (apply Z.pow_le_mono_r; lia).
  assert (2 ^ BEEFShardBits cfg ≤ 2 ^ 12) by (apply Z.pow_le_mono_r; lia).
  set (n := Z.to_nat (2 ^ ShardBits cfg)). set (m := Z.to_nat (2 ^ BEEFShardBits cfg)).
  assert (∀ i, i ∈ Z.of_nat <$> seq 0 n → 0 ≤ i < 0x1000) as Hlo.
  { intros i (k & -> & Hk)%list_elem_of_fmap. apply elem_of_seq in Hk. lia. }
  assert (∀ i, i ∈ (λ i, 0x1000 + Z.of_nat i) <$> seq 0 m → 0x1000 ≤ i < 0x2000) as Hmid.
  { intros i (k & -> & Hk)%list_elem_of_fmap. apply elem_of_seq in Hk. lia. }
  assert (NoDup (Z.of_nat <$> seq 0 n)) by (apply NoDup_fmap_2; [intros ???; lia|apply NoDup_seq]).
  assert (NoDup ((λ i, 0x1000 + Z.of_nat i) <$> seq 0 m)) by (apply NoDup_fmap_2; [intros ???; lia|apply NoDup_seq]).
  assert (∀ i : Z, i ∈ [0xFFFE] → i = 0xFFFE) as Hblk by (intros i; apply list_elem_of_singleton).
  set (sub := if f_SubtreeDataEnabled cfg then [0xFFFB] else []).
  assert (∀ i : Z, i ∈ sub → i = 0xFFFB) as Hsub.
  { intros i. unfold sub. case_match; [apply list_elem_of_singleton|intros Hi; by apply not_elem_of_nil in Hi]. }
  assert (NoDup sub) by (unfold sub; case_match; [apply NoDup_singleton|constructor]).
  set (beef := if f_BEEFEnabled cfg then _ else []).
  assert (∀ i : Z, i ∈ beef → 0x1000 ≤ i < 0x2000) as Hbf.
  { intros i. unfold beef. case_match; [apply Hmid|intros Hi; by apply not_elem_of_nil in Hi]. }
  assert (NoDup beef) by (unfold beef; case_match; [done|constructor]).
  split.
  - rewrite !NoDup_app. split_and!; try done; try apply NoDup_singleton.
    all: intros i Hi; rewrite ?elem_of_app; intros Hin; destruct_or? Hin;
      repeat (match goal with H : i ∈ _ |- _ => first [apply Hlo in H | apply Hblk in H | apply Hsub in H | apply Hbf in H] end); lia.
  - apply Forall_forall. intros i. rewrite !elem_of_app.
    intros [Hi%Hlo|[Hi%Hblk|[Hi%Hsub|Hi%Hbf]]]; lia.
Qed.

Lemma buildGroups_NoDup `{!ShardLibOk} cfg : valid cfg →
  NoDup (buildGroups cfg (NewEngine (MCPrefix cfg) (MCGroupID cfg) (ShardBits cfg))).
Proof.
  intros Hv. destruct (group_indices_zones cfg Hv) as [Hnd Hr]. rewrite buildGroups_indices.
  apply NoDup_fmap_2_strong; [|done]. intros i j Hi Hj [= Heq]. rewrite Forall_forall in Hr.
  by eapply group_addr_inj; [apply Hr|apply Hr|exact Heq].
Qed.

(** *** The NACK address *)

(** An IPv6 address; one that was picked, not configured, is global. *)
Definition nack_addr (explicit : string) (ip : bytes) : Prop :=
  length ip = 16%nat ∧ To4 ip = None ∧
  (explicit = ""%string → IP_IsGlobalUnicast ip = true ∧ IP_IsLinkLocalUnicast ip = false).

Lemma To16_v6 ip : To4 ip = None → length ip = 4%nat ∨ length ip = 16%nat → length ip = 16%nat ∧ To16 ip = Some ip.
Proof. unfold To4, To16. intros Hv4 Hl. repeat case_decide; try done. by destruct Hl. Qed.

Lemma firstGlobal_sound addrs ip : firstGlobal addrs = Some ip → nack_addr "" ip.
Proof.
  induction addrs as [|a addrs IH]; simpl; [done|].
  set (x := match a with IPNet ip => ip | IPAddr ip => ip | OtherAddr => [] end).
  case_decide as Hx; [done|]. destruct (IP_IsGlobalUnicast x && negb (IP_IsLinkLocalUnicast x)) eqn:Hg; [|done].
  apply andb_true_iff in Hg as [Hg Hl]. apply negb_true_iff in Hl.
  assert (To4 x = None) as Hv4 by (destruct (To4 x); [|done]; exfalso; apply Hx; by right).
  destruct (To16_v6 x Hv4) as [Hlen H16].
  { unfold IP_IsGlobalUnicast in Hg. rewrite !andb_true_iff in Hg. by destruct Hg as [[[[[Hg%bool_decide_eq_true _] _] _] _] _]. }
  rewrite H16. intros [= <-]. split_and!; [done..|]. auto.
Qed.

Lemma wp_pick `{!HostOk} cfg ifc e : valid cfg →
  wp (pickBeaconNACKAddr (f_BeaconNACKAddr cfg) ifc)
    (λ r _, match r with inl ip => nack_addr (f_BeaconNACKAddr cfg) ip | inr _ => True end) e.
Proof.
  intros Hv. unfold pickBeaconNACKAddr. case_decide as Hx.
  - destruct (v_nack cfg Hv) as [?|(ip & Hip & Hv4)]; [done|]. rewrite Hip. apply wp_ret.
    pose proof (ParseIP_length _ _ Hip) as Hl. destruct (To16_v6 ip Hv4 (or_intror Hl)) as [_ ->].
    split_and!; [done..|]. intros He. by destruct Hx.
  - apply wp_etry, wp_lift_state. destruct (iface_Addrs ifc e) as [[addrs|err] e1]; [|done].
    destruct (firstGlobal addrs) as [ip|] eqn:Hf; apply wp_ret; [|done].
    rewrite Hx. by apply firstGlobal_sound in Hf.
Qed.

Lemma wp_openDedup cfg fb e : wp (openDedup cfg fb) (λ _ _, True) e.
Proof.
  unfold openDedup. case_decide; [by apply wp_ret|]. case_decide; [|by apply wp_ret].
  apply wp_bind, wp_lift_state. destruct (scache_Open _ e) as [[b|err] e1]; by apply wp_ret.
Qed.

Lemma wp_egressInterfaces names out e :
  wp (egressInterfaces names out)
    (λ r _, match r with inl l => length l = (length out + length names)%nat | inr _ => True end) e.
Proof.
  revert out e. induction names as [|n names IH]; intros out e; simpl; [apply wp_ret; lia|].
  apply wp_etry, wp_lift_state. destruct (net_InterfaceByName n e) as [[ifc|err] e1]; [|done].
  eapply wp_mono; [apply IH|]. intros [l|] w'; [|done]. rewrite length_app. simpl. lia.
Qed.

(** *** What an assembly is *)

Record built (cfg : Config) (a : assembly) : Prop := {
  bl_engine : as_engine a = NewEngine (MCPrefix cfg) (MCGroupID cfg) (ShardBits cfg);
  bl_egress : length (as_egress a) = length (EgressIfaces cfg) ∧ as_egress a ≠ [];
  bl_nack : nack_addr (f_BeaconNACKAddr cfg) (as_nackIP a);
  bl_unicast : Retransmit.unicastConn (as_retrans a) = true;
  bl_source : Retransmit.unicastSrc (as_retrans a) = Some (as_nackIP a);
  bl_sockets : ∀ name, name ∈ Retransmit.sockets (as_retrans a) ↔ name ∈ if_Name <$> as_egress a;
  bl_server : as_server a = buildServer cfg (as_engine a) (Some (as_beef a)) (as_frame a) (as_dedup a)
                (as_nackIP a) (Retransmit.retrans_iface (as_retrans a));
  bl_workers : Z.of_nat (length (as_ings a)) =
    Z.max 1 (Z.min (NumWorkers cfg) (Z.of_nat (length (buildGroups cfg (as_engine a)))));
  bl_dedup : Retransmit.dedup (as_retrans a) = (λ b, dedup_store b (f_CacheOpTimeout cfg)) <$> as_dedup a;
  bl_cache : Forall (λ w, Ingress.cache w = store_cache (frame_store (as_frame a) (f_CacheOpTimeout cfg))) (as_ings a);
  bl_sources : Forall (λ w, Ingress.sources w = None) (as_ings a);
  bl_ttls : Forall (λ w, Ingress.ttls w = ingressTTLs cfg) (as_ings a);
  bl_groups : concat (Ingress.groups <$> as_ings a) ≡ₚ buildGroups cfg (as_engine a);
}.

Lemma wp_openRetrans r e : Retransmit.sockets r = [] →
  wp (openRetrans r) (λ o _, match o with
    | inl r' => Retransmit.unicastConn r' = true ∧
        (Retransmit.dedup r' = Retransmit.dedup r ∧ Retransmit.unicastSrc r' = Retransmit.unicastSrc r) ∧
        ∀ name, name ∈ Retransmit.sockets r' ↔ name ∈ if_Name <$> Retransmit.ifaces r
    | inr _ => True end) e.
Proof.
  intros Hs. apply wp_act.
  destruct (Retransmit.Open _ _ r e) as [[[err|] r'] e'] eqn:Ho; [by eexists _, _|].
  eexists _, _. split; [done|]. pose proof (Retransmit.openFrom_settings _ _ _ _ _ _ _ _ Ho) as Hd.
  apply Retransmit.openFrom_sockets in Ho as (Hu & _ & Hn); [|rewrite Hs; constructor].
  split; [done|]. split; [done|]. intros name. rewrite Hn, Hs. set_solver.
Qed.

Lemma buildIngress_groups cfg mc groups (c : CacheI E) :
  concat (Ingress.groups <$> buildIngress cfg mc groups c) = concat (Ingress.Partition groups (NumWorkers cfg)).
Proof. unfold buildIngress. rewrite <- list_fmap_compose. f_equal. by rewrite list_fmap_id. Qed.

(** run's set-up of a valid configuration does not panic, and what it builds is
    built as [built] says. *)
Lemma wp_assemble `{!HostOk} cfg e : valid cfg →
  wp (assemble cfg) (λ r _, match r with inl a => built cfg a | inr _ => True end) e.
Proof.
  intros Hv. unfold assemble. apply wp_etry, wp_ret. destruct (NewPlane _ _ _) as [beef|]; [|done].
  apply wp_etry, wp_lift_state. destruct (scache_Open _ e) as [[fb|] e1]; [|done].
  apply wp_bind. eapply wp_mono; [apply wp_openDedup|]. intros dedupB e2 _. apply wp_etry.
  eapply (wp_mono _ (λ _ _, True)).
  { destruct (f_MCJoinEnabled cfg); [|by apply wp_ret]. apply wp_bind, wp_lift_state.
    destruct (net_InterfaceByName _ e2) as [[?|?] ?]; by apply wp_ret. }
  intros [mc|] e3 _; [|done]. apply wp_etry. eapply wp_mono; [apply wp_egressInterfaces|].
  intros [egress|] e4 Hlen; [|done]. simpl in Hlen.
  assert (egress ≠ []) as Hne.
  { destruct (v_egress cfg Hv) as [Hne _]. by destruct (EgressIfaces cfg), egress. }
  destruct (lookup_lt_is_Some_2 egress 0) as [ifc0 Hifc]; [by destruct egress; [|simpl; lia]|].
  apply wp_bind. eapply wp_liftO; [exact Hifc|]. apply wp_etry. eapply wp_mono; [by apply wp_pick|].
  intros [ip|] e5 Hip; [|done]. apply wp_etry. eapply wp_mono; [by apply wp_openRetrans|].
  intros [rt|] e6; [|done]. intros (Hu & (Hd & Hsrc) & Hs).
  set (engine := NewEngine _ _ _). set (ings := buildIngress cfg mc _ _).
  assert (Z.of_nat (length ings) = Z.max 1 (Z.min (NumWorkers cfg) (Z.of_nat (length (buildGroups cfg engine))))) as Hn.
  { unfold ings, buildIngress. by rewrite length_fmap, Ingress.length_Partition. }
  destruct (lookup_lt_is_Some_2 ings 0) as [w0 Hw0]; [lia|].
  apply wp_bind. eapply wp_liftO; [exact Hw0|]. apply wp_ret.
  split; simpl; try done.
  - apply Forall_fmap, Forall_true. done.
  - apply Forall_fmap, Forall_true. done.
  - apply Forall_fmap, Forall_true. done.
  - unfold ings. rewrite buildIngress_groups. apply Ingress.Partition_perm.
Qed.

Lemma groupIP_To16 `{!ShardLibOk} cfg i : To16 (groupIP cfg i) = Some (groupIP cfg i).
Proof. unfold To16, groupIP. by rewrite !group_addr_length. Qed.

(** The bootstrap lists feed the control groups only. *)
Lemma shard_no_roster `{!ShardLibOk} resolve aliased cfg (e e' : E) gs i : valid cfg →
  SSMPublishersStatic cfg = [] → buildSSMGroupSources resolve aliased cfg e = (inl gs, e') →
  0 ≤ i < NumGroups cfg → gs !! groupIP cfg i = None.
Proof.
  intros Hv Hst. unfold buildSSMGroupSources. rewrite Hst. simpl.
  destruct (resolveInto _ _ _ _ ∅ _ _) as [[g1|?] e1] eqn:Hr1; [|done].
  destruct (resolveInto _ _ _ _ g1 _ _) as [[g2|?] e2] eqn:Hr2; [|done].
  destruct (resolveInto _ _ _ _ g2 _ _) as [[g3|?] e3] eqn:Hr3; [|done].
  intros [= <- _] Hi. destruct (v_bits cfg Hv) as [Hb Hn].
  assert (2 ^ ShardBits cfg ≤ 2 ^ 12) by (apply Z.pow_le_mono_r; lia).
  assert (∀ c, 0xFFFB ≤ c < 2 ^ 16 → To16 (groupIP cfg c) ≠ Some (groupIP cfg i)) as Hne.
  { intros c Hc. rewrite groupIP_To16. intros [= Heq]. apply group_addr_inj in Heq; lia. }
  pose proof block_group as Hgb. pose proof beacon_group as Hgc. pose proof announce_group as Hga.
  pose proof subtree_group as Hgs.
  rewrite (resolveInto_other _ _ _ _ _ _ _ _ _ _ Hr3), (resolveInto_other _ _ _ _ _ _ _ _ _ _ Hr2),
    (resolveInto_other _ _ _ _ _ _ _ _ _ _ Hr1), lookup_empty by (repeat constructor; apply Hne; lia). done.
Qed.

(** A valid configuration has at least two shard groups and the block group, and
    at most both planes in full and the control groups. *)
Lemma length_buildGroups cfg engine : valid cfg → 3 ≤ Z.of_nat (length (buildGroups cfg engine)) ≤ 8194.
Proof.
  intros [[Hb Hn] Hbeef _ _ _ _ _ _ _ _ _ _ _ _]. unfold buildGroups.
  assert (2 ^ 1 ≤ 2 ^ ShardBits cfg ≤ 2 ^ 12) by (split; apply Z.pow_le_mono_r; lia).
  assert (0 ≤ 2 ^ BEEFShardBits cfg ≤ 2 ^ 12) by (split; [lia|apply Z.pow_le_mono_r; lia]).
  rewrite !length_app, length_fmap, length_seq, Hn.
  destruct (f_SubtreeDataEnabled cfg), (f_BEEFEnabled cfg); simpl; rewrite ?length_fmap, ?length_seq; lia.
Qed.

Lemma assembled_built `{!HostOk} cfg a e e' : Load = Some (inl cfg) → assemble cfg e = Some (inl a, e') →
  valid cfg ∧ built cfg a.
Proof.
  intros Hv%Load_ok Ha. split; [done|].
  destruct (proj1 (wp_iff _ _ _) (wp_assemble cfg e Hv)) as (r & e1 & Hr & Hb). by simplify_eq.
Qed.

(** The recovery client of an assembly: its queue and workers exist even when the
    server is not given it. *)
Definition recoveryClient (cfg : Config) (a : assembly) : Proxy.Config (E := E) :=
  Proxy.New (proxyConfig cfg (as_frame a) (as_dedup a) (as_nackIP a) (Retransmit.retrans_iface (as_retrans a))).

(** main wires the components to each other. *)
Lemma assembled_wired `{!HostOk, !OSOk E} P cfg a e e' : Load = Some (inl cfg) → assemble cfg e = Some (inl a, e') →
  Retransmit.RetransEnv P (as_retrans a) → Server.RequestEnv P (as_server a) →
  Proxy.RecoveryEnv P (recoveryClient cfg a) → Concurrent.wired (as_server a) (recoveryClient cfg a) P.
Proof.
  intros HL Ha ???. destruct (assembled_built _ _ _ _ HL Ha) as [_ Hb].
  assert (@RetransOn _ _ P (Retransmit.retrans_iface (as_retrans a))) as Hrt.
  { apply Retransmit.retrans_on; [done..|]. destruct (bl_egress _ _ Hb) as [_ Hne].
    destruct (as_egress a) as [|ifc ifcs] eqn:Heg; [done|]. intros Hnil.
    apply (not_elem_of_nil (if_Name ifc)). rewrite <- Hnil. apply (bl_sockets _ _ Hb). rewrite Heg. constructor. }
  pose proof (bl_server _ _ Hb) as Hs. split; [done..| |done| | |].
  - rewrite Hs. unfold buildServer. by destruct (f_ProxyEnabled cfg).
  - rewrite Hs. unfold buildServer. destruct (f_ProxyEnabled cfg); [by right|by left].
  - apply Proxy.New_endpoints.
  - apply Proxy.New_depth.
Qed.

(** The same when nothing is asked of the environment. *)
Lemma assembled_wired_any `{!HostOk, !OSOk E} cfg a e e' : Load = Some (inl cfg) → assemble cfg e = Some (inl a, e') →
  Concurrent.wired (as_server a) (recoveryClient cfg a) (λ _, True).
Proof. intros HL Ha. eapply assembled_wired; [exact HL|exact Ha|apply _..]. Qed.

(** What the beacon is configured with. *)
Lemma wp_beaconConfig `{!HostOk} cfg egress e : valid cfg → f_BeaconEnabled cfg = true → egress ≠ [] →
  wp (beaconConfig cfg egress) (λ r _,
    match r with
    | inl bc => ∃ ip host ifc ps src, nack_addr (f_BeaconNACKAddr cfg) ip ∧ ps ≠ [] ∧
        Config.BeaconGroupPrefixes (ControlGroupCompat cfg) (SourceMode cfg) (f_BeaconScope cfg) = inl ps ∧
        bc = Beacon.mkConfig ip (u16 (f_NACKPort cfg)) (u8 (BeaconTier cfg)) (u8 (BeaconPreference cfg))
          (f_BeaconInterval cfg) (Z_byte (BeaconScopeByte cfg)) (advertFlags cfg) (hashInstanceID host)
          (MCGroupID cfg) ps true (Some (if_Index ifc)) src
    | inr err => ∃ err', err = ErrWrap "beacon" err'
    end) e.
Proof.
  intros Hv Hbe Hne. unfold beaconConfig.
  destruct egress as [|ifc egress]; [done|]. apply wp_bind. eapply wp_liftO; [reflexivity|].
  apply wp_etry. eapply wp_mono; [by apply wp_pick|]. intros [ip|err] e1 Hip; [|eauto].
  apply wp_bind. eapply (wp_mono _ (λ _ _, True)).
  { case_decide; [|by apply wp_ret]. apply wp_bind, wp_lift_state.
    destruct (os_Hostname e1) as [[?|?] ?]; by apply wp_ret. }
  intros host e2 _. destruct (v_control cfg Hv Hbe) as (ps & Hps & Hp). rewrite Hp.
  apply wp_etry, wp_ret, wp_ret. eexists ip, host, ifc, ps, _. done.
Qed.

(** ** Theorems *)

(** C19: every loaded configuration assembles into a well-formed endpoint, or into an
    error, never a panic. The endpoint has an egress interface and an open socket
    on each, a NACK address that is IPv6 and, unless configured, global, between
    one and the configured number of ingress workers, and the workers' groups
    are pairwise different and together exactly the groups of the
    configuration. *)
Theorem assembly_wellformed (cfg : Config) (e : E) :
  HostOk → ShardLibOk → Load = Some (inl cfg) →
  ∃ r e', assemble cfg e = Some (r, e') ∧
    ∀ a, r = inl a → built cfg a ∧ NoDup (concat (Ingress.groups <$> as_ings a)).
Proof.
  intros Hh Hsh HL%Load_ok. destruct (proj1 (wp_iff _ _ _) (wp_assemble cfg e HL)) as (r & e' & Hr & Hb).
  exists r, e'. split; [done|]. intros a ->. split; [done|]. rewrite (bl_groups _ _ Hb), (bl_engine _ _ Hb).
  by apply buildGroups_NoDup.
Qed.

(** C20: the endpoint listens where it says it does. From any configuration that
    loads, the NACK socket of the assembled server is bound, with success, at the
    configured port to the endpoint's IPv6 NACK address, or to the wildcard address
    when that is a multicast one, which a configured address may be; before that
    SO_REUSEADDR was set with success, and besides it only what package net sets on
    its own. The address is also the one given as source to the socket of unicast
    repairs and to those of proxied requests. Otherwise, as for a port that is no
    UDP port, listening fails with a server error and leaves no descriptor behind. *)
Theorem nack_socket_bound (cfg : Config) (a : assembly) (e e' e1 e2 : E) (r : Z + gerror) :
  HostOk → KernelOk E → Load = Some (inl cfg) → assemble cfg e = Some (inl a, e') →
  Sockets.listenNACK GOOS (as_server a) e1 = (r, e2) →
  nack_addr (f_BeaconNACKAddr cfg) (as_nackIP a) ∧
  Retransmit.unicastSrc (as_retrans a) = Some (as_nackIP a) ∧
  Proxy.SourceIP (recoveryClient cfg a) = Some (as_nackIP a) ∧
  ∃ tr, klog e2 = klog e1 ++ tr ∧
    match r with
    | inr err => Sockets.held (klog e2) = Sockets.held (klog e1) ∧ ∃ err', err = ErrWrap "server: listen" err'
    | inl fd => Sockets.held (klog e2) = fd :: Sockets.held (klog e1) ∧ 0 ≤ f_NACKPort cfg ≤ 65535 ∧
        head tr = Some (SysSocket, inl fd) ∧ Forall Sockets.effective tr ∧
        ∃ own, fst <$> tr = SysSocket :: Sockets.setopts own ++ Sockets.setopts [(fd, SO_REUSEADDR, 1)] ++
            [SysBind fd (if IP_IsMulticast (as_nackIP a) then IPv6unspecified else as_nackIP a) (f_NACKPort cfg)] ∧
          (IP_IsMulticast (as_nackIP a) = false → GOOS = "linux"%string → own = [(fd, IPV6_V6ONLY, 1)]) ∧
          (IP_IsMulticast (as_nackIP a) = false → ∀ o v, (fd, o, v) ∈ own → o = IPV6_V6ONLY ∨ o = SO_BROADCAST)
    end.
Proof.
  intros Hh Hk HL Ha Hr. destruct (assembled_built _ _ _ _ HL Ha) as [_ Hb].
  pose proof (bl_nack _ _ Hb) as Hn. destruct (Hn) as (Hl & Hv4 & _). split; [done|]. split; [apply Hb|]. split; [done|].
  assert (Server.bindAddr (as_server a) = IP_String (as_nackIP a) ∧ Server.port (as_server a) = f_NACKPort cfg) as [Hba Hp].
  { rewrite (bl_server _ _ Hb). unfold buildServer. by destruct (f_ProxyEnabled cfg). }
  apply (Sockets.listenNACK_spec _ _ (as_nackIP a)) in Hr as (tr & Htr & Hres);
    [|rewrite Hba; by apply IP_String_nonempty|rewrite Hba; by apply ParseIP_String|done].
  exists tr. split; [done|]. rewrite Hp in Hres. destruct r as [fd|err]; [|done].
  destruct Hres as (Hheld & Hport & Hcalls & Hhead & Heff). split_and!; [done|lia|lia|done|done|].
  unfold Sockets.nack_options in Hcalls. rewrite !app_assoc in Hcalls. unfold Sockets.setopts in Hcalls at 1.
  rewrite fmap_app, <- app_assoc in Hcalls. eexists. split; [exact Hcalls|]. split.
  - intros -> ->. done.
  - intros -> o v. rewrite app_nil_r. case_decide; rewrite ?elem_of_cons, ?elem_of_app, ?elem_of_cons, elem_of_nil; naive_solver.
Qed.

(** The TTL of a class, where it is used. *)
Definition ingress_ttl (k : ttl_class) : Ingress.TTLConfig → Z :=
  match k with
  | TTLTx => Ingress.Tx | TTLBlock => Ingress.Block | TTLSubtree => Ingress.Subtree
  | TTLAnchor => Ingress.Anchor | TTLBEEF => Ingress.BEEF
  end.
Definition proxy_ttl (k : ttl_class) : Proxy.TTLConfig → Z :=
  match k with
  | TTLTx => Proxy.Tx | TTLBlock => Proxy.Block | TTLSubtree => Proxy.Subtree
  | TTLAnchor => Proxy.Anchor | TTLBEEF => Proxy.BEEF
  end.

(** The class of a frame: of a whole frame by its version, of a fragment, for an
    ingress worker, by the version of the frame it was cut from. *)
Definition version_class (ver : byte) : ttl_class :=
  match ver with x04 => TTLBlock | x05 => TTLSubtree | x06 => TTLAnchor | x09 => TTLBEEF | _ => TTLTx end.
Definition frame_class (raw : bytes) : ttl_class :=
  if IsBlockFrame raw then TTLBlock
  else if IsSubtreeDataFrame raw then TTLSubtree
  else if IsAnchorFrame raw then TTLAnchor
  else if IsBundle raw then TTLTx
  else if IsBEEFFrame raw then TTLBEEF
  else if IsFragment raw then
    match DecodeFragment raw with inl ff => version_class (ff_OrigFrameVer ff) | inr _ => TTLTx end
  else TTLTx.

Lemma decodeFrame_class `{!FrameLibOk} (iw : Ingress.Worker (E := E)) raw :
  (Ingress.decodeFrame iw raw).2 = ingress_ttl (frame_class raw) (Ingress.ttls iw).
Proof.
  destruct frame_versions as (_ & Hv4 & Hv5 & Hv6 & _ & Hv9 & _).
  unfold Ingress.decodeFrame, frame_class, Ingress.fragmentTTL, version_class. rewrite Hv4, Hv5, Hv6, Hv9.
  destruct (IsBlockFrame raw); [done|]. destruct (IsSubtreeDataFrame raw); [done|].
  destruct (IsAnchorFrame raw); [done|]. destruct (IsBundle raw); [done|]. destruct (IsBEEFFrame raw); [done|].
  destruct (IsFragment raw); [|done]. destruct (DecodeFragment raw) as [ff|]; [|done]. by destruct (ff_OrigFrameVer ff).
Qed.

Lemma ttlFor_class `{!FrameLibOk} (c : Proxy.Config (E := E)) ver :
  Proxy.ttlFor c ver = proxy_ttl (version_class ver) (Proxy.TTLs c).
Proof.
  destruct frame_versions as (_ & Hv4 & Hv5 & Hv6 & _ & Hv9 & _).
  unfold Proxy.ttlFor. rewrite Hv4, Hv5, Hv6, Hv9. by destruct ver.
Qed.

(** C39: what the operator writes is how long frames are kept. Put a whole number of
    a unit of time into the variable of a class of frames, and leave its flag
    alone: the text denotes a duration exactly when it fits 63 bits of nanoseconds,
    and then, if the endpoint comes up, whatever CACHE_TTL and the rest of the
    configuration say, an ingress worker that is given a frame of that class stores
    it with exactly that TTL, unless the frame does not decode or is not stamped, in
    which case nothing is stored; and the recovery client stores a frame it recovered
    with exactly the TTL of the class of its version byte, by which a recovered
    fragment is a transaction. *)
Theorem operator_ttl_applied (cfg : Config) (a : assembly) (e e' : E) (k : ttl_class) (l u : bytes) (n unit : Z) :
  HostOk → FrameLibOk → Load = Some (inl cfg) → assemble cfg e = Some (inl a, e') →
  l ≠ [] → GoText.digits 10 0 l = Some n → GoNum.unit_of u = Some unit →
  Getenv (ttl_env k) = GoText.string_of_bytes (l ++ u) → FlagArg (ttl_flag k) = None →
  (is_Some (GoNum.ParseDuration (Getenv (ttl_env k))) ↔ n * unit < 2 ^ 63) ∧
  (n * unit < 2 ^ 63 →
     (∀ iw raw src wd, iw ∈ as_ings a → frame_class raw = k →
        ∃ wd', Ingress.processFrame iw raw src wd = Some (tt, wd') ∧
          w_env wd' = match (Ingress.decodeFrame iw raw).1 with
                      | inl f =>
                          if fl_SeqNum f =? 0 then w_env wd
                          else (@cache_Store E (Ingress.cache iw) (field 40 56 raw) raw (n * unit) (w_env wd)).2
                      | inr _ => w_env wd
                      end) ∧
     (∀ raw ver wd, (92 ≤ length raw)%nat → raw !! 6%nat = Some ver → version_class ver = k →
        let r := @cache_Store E (Proxy.Cache (recoveryClient cfg a)) (field 40 56 raw) raw (n * unit) (w_env wd) in
        Proxy.store (recoveryClient cfg a) raw wd = Some (r.1, Proxy.with_env r.2 wd))).
Proof.
  intros Hh Hfl HL Ha Hl Hd Hu Henv Harg.
  pose proof (GoNum.ParseDuration_exact l u n unit Hl Hd Hu) as Hp. rewrite <- Henv in Hp.
  destruct (assembled_built _ _ _ _ HL Ha) as [_ Hb]. rewrite Hp. split.
  { destruct (n * unit <? 2 ^ 63) eqn:Hlt; split; [lia|by eexists|by intros [? ?]|lia]. }
  intros Hlt. rewrite (proj2 (Z.ltb_lt _ _) Hlt) in Hp.
  assert (ttl_of k (CacheTTLs cfg) = n * unit) as Hk.
  { eapply Load_class_ttl; [exact HL|done| |exact Hp]. intros Hx. by rewrite Hx in Hp. }
  split.
  - intros iw raw src wd Hiw Hcl. pose proof (bl_ttls _ _ Hb) as Hts. rewrite Forall_forall in Hts. specialize (Hts _ Hiw).
    pose proof (Ingress.wp_processFrame iw raw src wd) as ([] & wd' & Hr & _ & _ & _ & He)%wp_iff.
    exists wd'. split; [done|]. rewrite He. pose proof (decodeFrame_class iw raw) as Httl.
    assert ((Ingress.decodeFrame iw raw).2 = n * unit) as Ht.
    { rewrite Httl, Hcl, Hts, <- Hk. by destruct k. }
    clear Httl. destruct (Ingress.decodeFrame iw raw) as [[f|err] ttl]; [|done]. simpl in Ht. by rewrite Ht.
  - intros raw ver wd Hraw Hver Hcl. pose proof (Proxy.run_store (recoveryClient cfg a) raw ver wd Hraw Hver) as Hs.
    rewrite ttlFor_class, Hcl in Hs. replace (proxy_ttl k (Proxy.TTLs (recoveryClient cfg a))) with (n * unit) in Hs; [done|].
    rewrite <- Hk. by destruct k.
Qed.

(** The assembled endpoint keeps the handler's contract. The server main wires
    from any configuration that loads, whatever the environment answered on the
    way, handles every datagram without a panic, and its sends and queued jobs are
    one of the contract's outcomes: the retransmitter and the recovery client it
    is wired to discharge the interfaces the handler is proved against. *)
Theorem assembled_server_refines (growcap : nat → nat → nat) (cfg : Config) (a : assembly) (e e' : E)
    (d : bytes) (src : option udpaddr) (w : world E) :
  HostOk → OSOk E → Load = Some (inl cfg) → assemble cfg e = Some (inl a, e') → lim_ok (w_lim w) →
  ∃ w' evs jobs, Server.processNACK growcap (as_server a) d src w = Some (tt, w') ∧ lim_ok (w_lim w') ∧
    w_events w' = w_events w ++ evs ∧ w_queue w' = w_queue w ++ jobs ∧
    Server.outcome (as_server a) d src evs jobs.
Proof.
  intros Hh Hos HL Ha Hl. pose proof (assembled_wired_any cfg a e e' HL Ha) as Hw.
  destruct (Server.run_handled growcap (as_server a)) with (d := d) (src := src) (w := w)
    as (w' & Hrun & Hl' & evs & jobs & He & Hq & Ho); [apply Hw| |done|].
  { unfold Server.proxies_ok. destruct (Concurrent.wi_queue _ _ _ Hw) as [->| ->]; [done|].
    eexists. apply Proxy.enqueue_ok. }
  exists w', evs, jobs. done.
Qed.

(** C2: the whole endpoint keeps every handler's contract under every interleaving.
    From any configuration that loads, whatever the environment answered on the
    way and does in between, however requests, recoveries and ingress datagrams
    interleave, operation by operation, over the shared limiter, queue, store and
    sockets: nothing panics; the limiter stays well-formed and the job queue
    within its capacity; a finished request has had one of the contract's
    outcomes, a finished recovery has sent what it may, and ingress has sent
    nothing; the trace is exactly what the handlers caused, each in its own
    order; and each job a request queued is waiting or with one recovery
    worker. *)
Theorem endpoint_interleaved (growcap : nat → nat → nat) (cfg : Config) (a : assembly) (e e' : E)
    (sched : list Concurrent.choice) (w0 : world E) :
  HostOk → OSOk E → FrameLibOk → Load = Some (inl cfg) → assemble cfg e = Some (inl a, e') →
  lim_ok (w_lim w0) → w_queue w0 = [] →
  ∃ σ, Concurrent.exec_all growcap (as_server a) (recoveryClient cfg a) sched (Concurrent.mkSystem w0 []) = Some σ ∧
    lim_ok (w_lim (Concurrent.s_world σ)) ∧
    Z.of_nat (length (w_queue (Concurrent.s_world σ))) ≤ Proxy.QueueDepth (recoveryClient cfg a) ∧
    (∀ th, th ∈ Concurrent.s_threads σ →
       Concurrent.t_evs th `sublist_of` w_events (Concurrent.s_world σ) ∧
       (Concurrent.finished th = true → Concurrent.contract (as_server a) (recoveryClient cfg a) (λ _, True)
          (Concurrent.t_task th) (Concurrent.t_evs th) (Concurrent.t_jobs th))) ∧
    w_events (Concurrent.s_world σ) ≡ₚ w_events w0 ++ concat (Concurrent.t_evs <$> Concurrent.s_threads σ) ∧
    Concurrent.taken σ ++ w_queue (Concurrent.s_world σ) ≡ₚ concat (Concurrent.t_jobs <$> Concurrent.s_threads σ).
Proof.
  intros Hh Hos Hf HL Ha Hl Hq0. pose proof (assembled_wired_any cfg a e e' HL Ha) as Hw.
  destruct (Concurrent.exec_all_inv growcap _ _ _ Hw w0 sched (Concurrent.mkSystem w0 []))
    as (σ & Hr & [_ [Hl' [Hlen _]] Hth Hsub Htr Hq]); [by apply Concurrent.any_admissible|by apply Concurrent.inv_init; rewrite ?Hq0; [|apply (Concurrent.idle_ok _ _ _ Hw)]|].
  rewrite Hq0 in Hq. exists σ. split_and!; try done. intros th Hin. split.
  - by eapply Forall_forall in Hsub.
  - apply Concurrent.thread_done. by eapply Forall_forall in Hth.
Qed.

(** The shard groups of a configuration as the addresses a worker joins. *)
Definition shardGroups (cfg : Config) : list udpaddr :=
  (λ ip, mkUDPAddr ip (f_ListenPort cfg) ""%string) <$> shardIPs cfg.

(** Without static publishers the data plane falls back to any-source joins. A
    source-specific configuration loads as soon as one bootstrap list is set; but
    unless it is the list of static publishers, the shard groups get no roster,
    and a worker joins them exactly as one that has no rosters at all. *)
Theorem ssm_data_groups_any_source (resolve : list string → E → (list addr + gerror) * E) (aliased : bool)
    (cfg : Config) (e e' : E) (gs : gmap bytes (list addr))
    (join : Z → bytes → list addr → E → option gerror * E) (ifindex : Z)
    (w : Ingress.Worker) (first : bool) (e1 : E) :
  HostOk → ShardLibOk → Load = Some (inl cfg) → SSMPublishersStatic cfg = [] →
  buildSSMGroupSources resolve aliased cfg e = (inl gs, e') →
  Ingress.joinAll join ifindex (Ingress.SetGroupSources (Some gs) w) first (shardGroups cfg) e1 =
  Ingress.joinAll join ifindex (Ingress.SetGroupSources None w) first (shardGroups cfg) e1.
Proof.
  intros Hh Hsh HL%Load_ok Hst Hb. apply joinAll_empty. apply Forall_fmap, Forall_forall.
  intros ip (i & -> & Hi)%list_elem_of_fmap ga. cbn [ua_IP compose]. rewrite groupIP_To16. intros [= <-].
  erewrite shard_no_roster; [done|done|done|exact Hb|]. apply elem_of_seq in Hi. lia.
Qed.

(** C27: the endpoint advertises itself truthfully. For every configuration that loads
    with the beacon on and an interval of whole seconds that fits 16 bits, the ADVERT
    names, at the BRC-126 offsets, an IPv6 address for NACKs, the configured tier,
    preference, scope and interval, the configured port (cut to 16 bits, so exactly
    it when it is a UDP port, which Load does not check), the flags of the server and
    a nonzero instance, and it goes to at least one group; the start of the beacon
    can fail only for want of an address. *)
Theorem loaded_advert (oob16 : float64 → Z) (cfg : Config) (egress : list iface) (e : E) (n : Z) :
  HostOk → FrameLibOk → Load = Some (inl cfg) → f_BeaconEnabled cfg = true → egress ≠ [] →
  f_BeaconInterval cfg = n * Second → n < 65536 →
  ∃ r e', beaconConfig cfg egress e = Some (r, e') ∧
    match r with
    | inr err => ∃ err', err = ErrWrap "beacon" err'
    | inl bc => ∃ b, Beacon.buildADVERT oob16 (Beacon.New bc) = Some b ∧ length b = 56%nat ∧
        nack_addr (f_BeaconNACKAddr cfg) (field 8 24 b) ∧
        be_dec (field 24 26 b) = u16 (f_NACKPort cfg) ∧
        (0 ≤ f_NACKPort cfg < 2 ^ 16 → be_dec (field 24 26 b) = f_NACKPort cfg) ∧
        byte_Z <$> b !! 26%nat = Some (BeaconTier cfg) ∧ byte_Z <$> b !! 27%nat = Some (BeaconPreference cfg) ∧
        b !! 7%nat = Some (Z_byte (BeaconScopeByte cfg)) ∧ be_dec (field 28 30 b) = n ∧
        be_dec (field 30 32 b) = advertFlags cfg ∧ 0 < be_dec (field 32 36 b) ∧
        Beacon.beaconGroups bc ≠ []
    end.
Proof.
  intros Hh Hf HL%Load_ok Hbe Hne Hint Hn.
  destruct (proj1 (wp_iff _ _ _) (wp_beaconConfig cfg egress e HL Hbe Hne)) as (r & e' & Hr & Hb).
  exists r, e'. split; [done|]. destruct r as [bc|err]; [|done].
  destruct Hb as (ip & host & ifc & ps & src & Hip & Hps & _ & ->).
  destruct (v_beacon cfg HL) as (Ht & Hp & Hs & _). rewrite Hint in Hs.
  destruct (instance_id_valid host) as [Hid _].
  set (bc := Beacon.mkConfig ip _ _ _ _ _ _ _ _ _ _ _ _).
  destruct (Beacon.advert_roundtrip oob16 bc ip n)
    as (b & Hb & Hl & _ & _ & _ & H7 & H8 & H24 & H26 & H27 & H28 & H30 & H32 & _);
    [done|reflexivity|by destruct Hip|exact Hint|unfold Second, Millisecond in Hs; lia
    |apply Z.mod_pos_bound; lia|apply advertFlags_range|simpl; lia|].
  simpl in *. exists b. rewrite H7, H8, H24, H26, H27, H28, H30, H32. simpl.
  rewrite !Z_byte_Z. unfold u8. rewrite !Z.mod_mod, !Z.mod_small by lia.
  split_and!; try done; [intros ?; by apply Z.mod_small|lia|]. unfold Beacon.beaconGroups. simpl. by destruct ps.
Qed.
End model.

(** ** Instances *)
Section instances.
Import RefEnv.

(** One interface with a link-local and a global address; every backend opens. *)
#[local] Instance ref_MainEnv : MainEnv renv := {|
  net_InterfaceByName := λ name e, (inl (mkIface name 2), e);
  iface_Addrs := λ _ e,
    (inl [IPNet [x7f; x00; x00; x01]; OtherAddr; IPNet (xfe :: x80 :: replicate 13 x00 ++ [x07]);
          IPNet (xfd :: replicate 14 x00 ++ [x07])], e);
  os_Hostname := λ e, (inl "host"%string, e);
  scache_Open := λ c e, (inl (if decide (sc_Backend c = "memory"%string) then mem else redis), e);
|}.
#[local] Instance ref_host : Host := refHost ref_env.

Definition ref_assembly : assembly (E := renv) :=
  match assemble ref_config env0 with
  | Some (inl a, _) => a
  | _ => mkAssembly (mkEngine 0 0 0) 0 mem None [] (rateConfig ref_config) []
           (Retransmit.New (mkEngine 0 0 0 : @Engine ref_ShardLib) [] 0 0 None false)
           (Server.New 0 (store_cache (frame_store redis 0)) false
             (Retransmit.retrans_iface (Retransmit.New (mkEngine 0 0 0 : @Engine ref_ShardLib) [] 0 0 None false)) 0 false) []
  end.
Definition ref_env' : renv := match assemble ref_config env0 with Some (_, e') => e' | None => env0 end.
Lemma ref_assembled : assemble ref_config env0 = Some (inl ref_assembly, ref_env').
Proof. reflexivity. Qed.

(** The picked address is the first global one; the egress and the unicast socket
    are held. *)
Example ref_assembly_parts :
  as_nackIP ref_assembly = xfd :: replicate 14 x00 ++ [x07] ∧
  Retransmit.sockets (as_retrans ref_assembly) = ["eth0"%string] ∧
  length (Sockets.held (klog ref_env')) = 2%nat.
Proof. vm_compute. done. Qed.

(** A source-specific endpoint that relies on manifests. *)
Definition manifest_env : list (string * string) :=
  [("SOURCE_MODE", "ssm"); ("SHARD_BITS", "1"); ("SSM_BOOTSTRAP_MANIFEST", "m1")]%string.
Definition manifest_config : Config := ltac:(
  let r := eval vm_compute in (Load (H := refHost manifest_env)) in
  match r with Some (inl ?c) => exact c end).
Definition manifest_rosters : gmap bytes (list addr) :=
  match (buildSSMGroupSources resolve0 true manifest_config env0).1 with inl gs => gs | inr _ => ∅ end.

Lemma assembly_wellformed_witness :
  built ref_config ref_assembly ∧ NoDup (concat (Ingress.groups <$> as_ings ref_assembly)).
Proof.
  destruct (assembly_wellformed ref_config env0) as (r & e' & Hr & Hall);
    [apply refHost_ok|apply _|apply ref_config_loaded|].
  rewrite ref_assembled in Hr. injection Hr as <- _. by apply Hall.
Defined.

(** A block TTL of a quarter of an hour, beside a CACHE_TTL that is no duration. *)
Definition ttl_ref_env : list (string * string) := ("CACHE_TTL_BLOCK", "15m")%string :: ref_env.
Definition ttl_config : Config := ltac:(
  let r := eval vm_compute in (Load (H := refHost ttl_ref_env)) in match r with Some (inl ?c) => exact c end).
Example ttl_assembles :
  match assemble ttl_config env0 with Some (inl _, _) => true | _ => false end = true.
Proof. vm_compute. reflexivity. Qed.

(** A stamped block frame: every worker stores it for that long, and so does the
    recovery client. *)
Definition block0 : bytes := ref_frame x04 x01 x02 x00 9 1.
Lemma operator_ttl_applied_witness :
  ∃ a e', assemble ttl_config env0 = Some (inl a, e') ∧
    (∀ iw wd, iw ∈ as_ings a → ∃ wd', Ingress.processFrame iw block0 "eth0" wd = Some (tt, wd') ∧
       w_env wd' = (@cache_Store renv (Ingress.cache iw) (field 40 56 block0) block0 (15 * Minute) (w_env wd)).2) ∧
    (∀ wd, ∃ r, Proxy.store (recoveryClient ttl_config a) block0 wd = Some (r.1, Proxy.with_env r.2 wd) ∧
       r = @cache_Store renv (Proxy.Cache (recoveryClient ttl_config a)) (field 40 56 block0) block0 (15 * Minute) (w_env wd)).
Proof.
  destruct (assemble ttl_config env0) as [[[a|err] e']|] eqn:Ha;
    [|pose proof ttl_assembles as Hx; rewrite Ha in Hx; discriminate Hx..].
  exists a, e'. split; [reflexivity|].
  destruct (operator_ttl_applied (H3 := refHost ttl_ref_env) ttl_config a env0 e' TTLBlock [x31; x35] [x6d] 15 60000000000)
    as [_ [Hi Hp]];
    [apply refHost_ok|apply _|vm_compute; reflexivity|exact Ha|discriminate|reflexivity|reflexivity|reflexivity|vm_compute; reflexivity|lia|].
  split.
  - intros iw wd Hiw. destruct (Hi iw block0 "eth0"%string wd Hiw) as (wd' & Hr & He); [reflexivity|].
    exists wd'. split; [exact Hr|exact He].
  - intros wd. eexists. split; [|reflexivity]. apply (Hp block0 x04 wd); [vm_compute; lia|reflexivity..].
Defined.

(** The picked address is the one that is bound. *)
Lemma nack_socket_bound_witness :
  ∃ fd e2, Sockets.listenNACK GOOS (as_server ref_assembly) env0 = (inl fd, e2) ∧
    Sockets.binds (klog e2) = [(fd, xfd :: replicate 14 x00 ++ [x07], f_NACKPort ref_config)] ∧
    Forall Sockets.effective (klog e2).
Proof.
  destruct (nack_socket_bound ref_config ref_assembly env0 ref_env' env0
    (Sockets.listenNACK GOOS (as_server ref_assembly) env0).2 (inl 3)) as (_ & _ & _ & tr & Htr & _ & _ & _ & He & _);
    [apply refHost_ok|apply _|apply ref_config_loaded|apply ref_assembled|vm_compute; reflexivity|].
  eexists _, _. split; [vm_compute; reflexivity|]. split; [vm_compute; reflexivity|].
  change (klog env0 ++ tr) with tr in Htr. rewrite <- Htr in He. exact He.
Defined.

Lemma assembled_server_refines_witness :
  ∃ w' evs jobs,
    Server.processNACK Server.grow0 (as_server ref_assembly) Server.nack0 (Some Proxy.listener) world0 = Some (tt, w') ∧
    w_events w' = w_events world0 ++ evs ∧ w_queue w' = w_queue world0 ++ jobs ∧
    Server.outcome (as_server ref_assembly) Server.nack0 (Some Proxy.listener) evs jobs.
Proof.
  destruct (assembled_server_refines Server.grow0 ref_config ref_assembly env0 ref_env' Server.nack0
    (Some Proxy.listener) world0) as (w' & evs & jobs & Hrun & _ & He & Hq & Ho);
    [apply refHost_ok|apply _|apply ref_config_loaded|apply ref_assembled|apply Server.lim0_ok|].
  exists w', evs, jobs. split; [exact Hrun|]. split; [exact He|]. split; [exact Hq|exact Ho].
Defined.

(** A request and a datagram that alternate: the frame is cached while the request
    is with the limiter, so the request finds it. *)
Definition ref_sched : list (Concurrent.choice (E := renv)) :=
  [Concurrent.RequestArrives Server.nack0 (Some Proxy.listener);
   Concurrent.DatagramArrives (default Ingress.worker0 (as_ings ref_assembly !! 0%nat)) false Ingress.newProcessor
     (Ingress.mkSlot Retransmit.tx_frame (replicate 16 x20) true false)] ++
  concat (replicate 6 [Concurrent.Turn 0; Concurrent.Turn 1]) ++ replicate 9 (Concurrent.Turn 0).
Example ref_interleaved :
  match Concurrent.exec_all Server.grow0 (as_server ref_assembly) (recoveryClient ref_config ref_assembly) ref_sched
      (Concurrent.mkSystem world0 []) with
  | Some σ => forallb Concurrent.finished (Concurrent.s_threads σ) = true ∧
      (length <$> (Concurrent.t_evs <$> Concurrent.s_threads σ)) = [6; 2]%nat
  | None => False
  end.
Proof. vm_compute. done. Qed.

Lemma endpoint_interleaved_witness :
  ∃ σ, Concurrent.exec_all Server.grow0 (as_server ref_assembly) (recoveryClient ref_config ref_assembly) ref_sched
      (Concurrent.mkSystem world0 []) = Some σ ∧
    w_events (Concurrent.s_world σ) ≡ₚ concat (Concurrent.t_evs <$> Concurrent.s_threads σ).
Proof.
  destruct (endpoint_interleaved Server.grow0 ref_config ref_assembly env0 ref_env' ref_sched world0)
    as (σ & Hr & _ & _ & _ & Htr & _);
    [apply refHost_ok|apply _|apply _|apply ref_config_loaded|apply ref_assembled|apply Server.lim0_ok|reflexivity|].
  exists σ. split; [exact Hr|exact Htr].
Defined.

Lemma ssm_data_groups_any_source_witness :
  let w := Ingress.New (Some 2) 9001 [] (store_cache (frame_store redis 0)) true (Ingress.mkTTLs 1 1 1 1 1) in
  Ingress.joinAll (λ _ _ srcs e, (if decide (srcs = []) then Some (ErrText "any source") else None, e)) 2
    (Ingress.SetGroupSources (Some manifest_rosters) w) true
    (shardGroups manifest_config) env0 =
  (Some (ErrWrap "ingress: join group" (ErrText "any source")), env0).
Proof.
  intros w. erewrite (ssm_data_groups_any_source (H3 := refHost manifest_env) resolve0 true manifest_config env0 env0
    manifest_rosters); [reflexivity|apply refHost_ok|apply _|vm_compute; reflexivity|reflexivity|reflexivity].
Defined.

Lemma loaded_advert_witness :
  ∃ bc e' b, beaconConfig ref_config [mkIface "eth0" 2] env0 = Some (inl bc, e') ∧
    Beacon.buildADVERT (λ _, 0) (Beacon.New bc) = Some b ∧ be_dec (field 28 30 b) = 60.
Proof.
  destruct (loaded_advert (λ _, 0) ref_config [mkIface "eth0" 2] env0 60) as ([bc|err] & e' & Hbc & Hr);
    [apply refHost_ok|apply _|apply ref_config_loaded|reflexivity|done|reflexivity|lia| |].
  - destruct Hr as (b & Hb & _ & _ & _ & _ & _ & _ & _ & Hi & _).
    exists bc, e', b. split; [exact Hbc|]. split; [exact Hb|exact Hi].
  - exfalso. vm_compute in Hbc. discriminate Hbc.
Defined.
End instances.

End Assembly.
