(* ===== verification/Integrity.v ===== *)
(** * The integrity of the repair service

    The frame cache of an endpoint is written by the ingress workers (cacheFrame of
    src/ingress/ingress.go), by the recovery workers (store of src/proxy/proxy.go) and
    by the other endpoints that share the backend; the dedup gate and the proxy's
    claims live beside the frames on the same backend. This file shows that all of
    them keep the cache [coherent], whatever the interleaving, and that therefore no
    request is ever answered with a frame of another flow. *)

From S2P Require Import Prelude GoNet External RefEnv RateLimit World CacheStore Retransmit Proxy Server Ingress Concurrent.
From S2P Require Import GoText GoAddr Config Load Endpoint Assembly.
From Stdlib Require Import Strings.Byte.
Import GoNet External RateLimit World CacheStore Load Endpoint Assembly.

Module Integrity.

Section model.
Context {E : Type} `{!RateLib E, !OS E, !Backend E, !FetchNet E, !Kernel E, !FrameLib, !ShardLib, !ScopeLib, !TeeWire}.
Context `{!Host, !MainEnv E, !Contents E}.

(** What is stored under the key of a flow is a frame of that flow: HashKey and
    SeqNum are bytes 40 to 56 of the frame. *)
Definition coherent (b : backend) (e : E) : Prop :=
  ∀ k raw, stored b (bytes_of_string "bre:frame:" ++ k) raw e → field 40 56 raw = k.

Context `{!ContentsOk E}.

Lemma adds_nothing_keeps {A} b (f : E → A * E) : adds_nothing f → Keeps (coherent b) f.
Proof. intros Hf e He k raw Hs. apply He. by apply Hf in Hs. Qed.

(** A frame stored under its own key. *)
Lemma store_keeps b b' t raw ttl :
  Keeps (coherent b) (Store_Store (frame_store b' t) (field 40 56 raw) raw ttl).
Proof.
  intros e He k raw' Hs. apply stored_set in Hs as [Hs|(_ & Hk & ->)]; [by apply He|]. by apply app_inv_head in Hk.
Qed.

(** A claim in a namespace of its own. *)
Lemma claim_keeps b st k v ttl : length (st_prefix st) = 10%nat →
  st_prefix st ≠ bytes_of_string "bre:frame:" → Keeps (coherent b) (SetNX st k v ttl).
Proof.
  intros Hl Hne e He k' raw Hs. apply stored_setnx in Hs as [Hs|(_ & Hk & _)]; [by apply He|].
  exfalso. apply Hne. symmetry. by apply app_inj_1 in Hk as [? _].
Qed.

(** The components of an assembly keep its cache coherent. *)
Section assembled.
Context (cfg : Config) (a : assembly (E := E)) (Hb : built cfg a).

#[local] Instance assembled_retrans : Retransmit.RetransEnv (coherent (as_frame a)) (as_retrans a).
Proof.
  split.
  - intros. apply adds_nothing_keeps, stored_write.
  - intros. apply adds_nothing_keeps, stored_range.
  - intros d k v ttl. rewrite (bl_dedup _ _ Hb). intros (b & _ & ->)%fmap_Some. by apply claim_keeps.
Qed.

#[local] Instance assembled_request : Server.RequestEnv (coherent (as_frame a)) (as_server a).
Proof.
  split; intros; [apply adds_nothing_keeps..|]; [apply stored_now|apply stored_rate|apply stored_write|].
  rewrite (bl_server _ _ Hb). unfold buildServer.
  destruct (f_ProxyEnabled cfg); apply adds_nothing_keeps, stored_read.
Qed.

#[local] Instance assembled_recovery : Proxy.RecoveryEnv (coherent (as_frame a)) (recoveryClient cfg a).
Proof.
  split.
  - intros. apply adds_nothing_keeps, stored_resolve.
  - intros. apply adds_nothing_keeps, stored_listen.
  - intros. apply adds_nothing_keeps, stored_arrivals.
  - apply adds_nothing_keeps, stored_done.
  - intros. apply adds_nothing_keeps, stored_write.
  - intros d k v ttl. simpl. intros (b & _ & ->)%fmap_Some. by apply claim_keeps.
  - intros. apply store_keeps.
Qed.

(** The caches of the ingress workers are the endpoint's. *)
Lemma assembled_ingest w : Ingress.cache w ∈ Ingress.cache <$> as_ings a → Ingress.IngestEnv (coherent (as_frame a)) w.
Proof.
  intros (w0 & Hw & Hin)%list_elem_of_fmap raw ttl. rewrite Hw.
  rewrite (proj1 (Forall_forall _ _) (bl_cache _ _ Hb) _ Hin). apply store_keeps.
Qed.
End assembled.

(** The copies of a hit are copies of what a lookup of the requested key returned. *)
Lemma served_copies (s : Server.Server (E := E)) b t d src evs jobs so dst raw ok :
  Server.cache s = store_cache (frame_store b t) → Server.outcome_in (coherent b) s d src evs jobs →
  EvWrite so dst raw ok ∈ evs → so ≠ NACKSocket → field 40 56 raw = field 8 24 d.
Proof.
  intros Hc Ho Hin Hso. revert Hin. assert (∀ R l, Server.replied src R l → EvWrite so dst raw ok ∉ l) as Hrep.
  { intros R l [Hm|(ms1 & a & rb & ok1 & ms2 & -> & Hm1 & Hm2 & _)] Hin.
    - by pose proof (proj1 (Forall_forall _ _) Hm _ Hin).
    - apply elem_of_app in Hin as [Hin|Hin]; [by pose proof (proj1 (Forall_forall _ _) Hm1 _ Hin)|].
      apply elem_of_cons in Hin as [[= -> _ _ _]|Hin]; [done|]. by pose proof (proj1 (Forall_forall _ _) Hm2 _ Hin). }
  destruct Ho as [evs Hm|evs _ Hr|evs jobs e _ _ Hr _|evs copies reply frame e Hp Hget -> Hf Hr].
  - intros Hin. by pose proof (proj1 (Forall_forall _ _) Hm _ Hin).
  - intros Hin. by destruct (Hrep _ _ Hr).
  - intros Hin. by destruct (Hrep _ _ Hr).
  - intros [Hin|Hin]%elem_of_app; [|by destruct (Hrep _ _ Hr)].
    rewrite Hc in Hget. apply stored_get, Hp in Hget.
    pose proof (proj1 (Forall_forall _ _) Hf _ Hin) as Hcp. destruct so; simpl in Hcp; try done; naive_solver.
Qed.

(** ** Theorem *)

(** What the scheduler may do: the datagrams are handled by the endpoint's own
    workers, and whoever else writes the shared cache keeps it coherent. *)
Definition well_behaved (a : assembly (E := E)) (ch : Concurrent.choice (E := E)) : Prop :=
  match ch with
  | Concurrent.DatagramArrives w _ _ _ => Ingress.cache w ∈ Ingress.cache <$> as_ings a
  | Concurrent.Outside e => coherent (as_frame a) e
  | _ => True
  end.

(** C3: no request is ever answered with the wrong frame. Start the endpoint that
    main assembles from any configuration that loads, on a store in which every
    frame lies under its own flow key, beside others that keep it so. However
    requests, recoveries and ingress datagrams interleave, whatever upstreams send
    and however backend operations fail: the store stays coherent, and every copy
    a finished request put on the multicast egress or sent by unicast carries, in
    its own header, exactly the HashKey and SeqNum that were asked for. *)
Theorem served_frame_is_requested (growcap : nat → nat → nat) (cfg : Config) (a : assembly) (e e' : E)
    (sched : list Concurrent.choice) (w0 : world E) :
  HostOk → OSOk E → FrameLibOk → Load = Some (inl cfg) → assemble cfg e = Some (inl a, e') →
  lim_ok (w_lim w0) → w_queue w0 = [] → coherent (as_frame a) (w_env w0) → Forall (well_behaved a) sched →
  ∃ σ, Concurrent.exec_all growcap (as_server a) (recoveryClient cfg a) sched (Concurrent.mkSystem w0 []) = Some σ ∧
    coherent (as_frame a) (w_env (Concurrent.s_world σ)) ∧
    ∀ th d src so dst raw ok, th ∈ Concurrent.s_threads σ → Concurrent.finished th = true →
      Concurrent.t_task th = Concurrent.Request d src → EvWrite so dst raw ok ∈ Concurrent.t_evs th →
      so ≠ NACKSocket → field 40 56 raw = field 8 24 d.
Proof.
  intros Hh Hos Hf HL Ha Hl Hq0 Hco Hwb. destruct (assembled_built _ _ _ _ HL Ha) as [_ Hb].
  pose proof (assembled_retrans cfg a Hb). pose proof (assembled_request cfg a Hb).
  pose proof (assembled_recovery cfg a).
  pose proof (assembled_wired (coherent (as_frame a)) cfg a e e' HL Ha _ _ _) as Hw.
  destruct (Concurrent.exec_all_inv growcap _ _ _ Hw w0 sched (Concurrent.mkSystem w0 []))
    as (σ & Hr & [Hp _ Hth _ _ _]).
  { eapply Forall_impl; [exact Hwb|]. intros ch Hch. destruct ch; try done. by apply (assembled_ingest cfg). }
  { apply Concurrent.inv_init; [done|]. rewrite Hq0. by apply (Concurrent.idle_ok _ _ _ Hw). }
  exists σ. split_and!; [done..|]. intros th d src so dst raw ok Hin Hfin Ht Hev Hso.
  eapply Forall_forall in Hth; [|exact Hin]. apply Concurrent.thread_done in Hth; [|done]. rewrite Ht in Hth.
  eapply (served_copies (as_server a) (as_frame a) (f_CacheOpTimeout cfg)); [|exact Hth|exact Hev|done].
  rewrite (bl_server _ _ Hb). unfold buildServer. by destruct (f_ProxyEnabled cfg).
Qed.
End model.

(** ** Instances *)
Section instances.
Import RefEnv.
#[local] Existing Instance ref_MainEnv.
#[local] Existing Instance ref_host.

(** In the schedule of Assembly.v the request is answered with the frame that the
    other handler cached meanwhile. *)
Example ref_served :
  match Concurrent.exec_all Server.grow0 (as_server ref_assembly) (recoveryClient ref_config ref_assembly) ref_sched
      (Concurrent.mkSystem world0 []) with
  | Some σ => existsb (λ ev, match ev with
        | EvWrite (EgressSocket _) _ raw ok => bool_decide (raw = Retransmit.tx_frame) && ok | _ => false end)
      (concat (Concurrent.t_evs <$> take 1 (Concurrent.s_threads σ))) = true
  | None => False
  end.
Proof. vm_compute. done. Qed.

Lemma served_frame_is_requested_witness :
  ∃ σ, Concurrent.exec_all Server.grow0 (as_server ref_assembly) (recoveryClient ref_config ref_assembly) ref_sched
      (Concurrent.mkSystem world0 []) = Some σ ∧
    ∀ th dst raw ok iface, th ∈ Concurrent.s_threads σ → Concurrent.finished th = true →
      Concurrent.t_task th = Concurrent.Request Server.nack0 (Some Proxy.listener) →
      EvWrite (EgressSocket iface) dst raw ok ∈ Concurrent.t_evs th → field 40 56 raw = be_enc 8 7 ++ be_enc 8 1.
Proof.
  destruct (served_frame_is_requested Server.grow0 ref_config ref_assembly env0 ref_env' ref_sched world0)
    as (σ & Hr & _ & Hall);
    [apply refHost_ok|apply _|apply _|apply ref_config_loaded|apply ref_assembled|apply Server.lim0_ok|reflexivity| | |].
  - intros k raw Hs. discriminate Hs.
  - constructor; [exact I|]. constructor; [left|]. repeat (constructor; [exact I|]). constructor.
  - exists σ. split; [exact Hr|]. intros th dst raw ok ifc Hin Hf Ht He.
    exact (Hall th Server.nack0 (Some Proxy.listener) (EgressSocket ifc) dst raw ok Hin Hf Ht He ltac:(discriminate)).
Defined.
End instances.

End Integrity.
