(* ===== verification/Metrics.v ===== *)
(** * The metrics recorder

    Models src/metrics/metrics.go and src/metrics/hostinfo.go: [New] with its
    instruments and error returns, the counting methods, [PreCreateSources],
    [Shutdown], [SetLevelVar], the copy-on-write cache of measurement options ([sourceOption]) as
    an interleaving of its callers, and the labels of the host and own-source
    gauges. OpenTelemetry and the Prometheus client are the classes [Telemetry] and
    [Meter]; readiness and the HTTP handlers are in Lifecycle.v, and
    [Serve] in Exposition.v. *)

From stdpp Require Import pretty.
From S2P Require Import Prelude GoNet External RefEnv GoAddr.
Import GoNet External GoAddr.

Module Metrics.

Definition attrs : Type := list (string * string).

(** Building the exporters and instruments. *)
Class Telemetry (E : Type) := {
  tl_Hostname : E → (string + gerror) * E;
  tl_Resource : string → E → option gerror * E;             (* by instance id *)
  tl_Prometheus : E → option gerror * E;
  tl_OTLP : string → E → option gerror * E;                 (* by endpoint *)
  tl_Instrument : string → E → option gerror * E;           (* by name *)
}.

(** The values a scrape sees: [Add] adds to the series of a counter with the given
    attributes and creates it if need be; [Record] sets a gauge, which has none. *)
Class Meter (M : Type) := {
  mt_Add : string → attrs → Z → M → M;
  mt_Record : string → Z → M → M;
  mt_series : M → string → attrs → option Z;
  mt_empty : M;
}.
Class MeterOk M `{Meter M} : Prop := {
  series_empty : ∀ n a, mt_series mt_empty n a = None;
  series_add : ∀ n a v m n' a', mt_series (mt_Add n a v m) n' a' =
    if decide (n = n' ∧ a = a') then Some (default 0 (mt_series m n a) + v) else mt_series m n' a';
  series_record : ∀ n v m n' a', mt_series (mt_Record n v m) n' a' =
    if decide (n = n' ∧ a' = []) then Some v else mt_series m n' a';
}.

(** *** New *)

(** In the order New creates them. *)
Definition instruments : list string :=
  ["bre_cache_hits_total"; "bre_cache_misses_total"; "bre_cache_size"; "bre_cache_errors_total";
   "bre_nack_requests_total"; "bre_retransmits_total"; "bre_unicast_retransmits_total";
   "bre_retransmit_dedup_total"; "bre_proxy_requests_total"; "bre_proxy_recovered_total";
   "bre_proxy_failed_total"; "bre_proxy_inflight_dedup_total"; "bre_proxy_queue_dropped_total";
   "bre_responses_sent_total"; "bre_response_send_errors_total"; "bre_rate_limit_drops_total";
   "bre_frames_received_total"; "bre_cache_stored_total"; "bre_frames_cached_total";
   "bre_frames_dropped_total"; "bre_tee_datagrams_total"; "bre_beacon_adverts_sent_total"]%string.

Inductive shutdownFn := ShutdownOTLP | ShutdownProvider.

Definition ServiceName : string := "retry-endpoint".
Definition Version : string := "dev".

(** The instruments that are set, what Shutdown calls, and the variable of the log
    level (a pointer; nil is [None]). *)
Record Recorder := mkRecorder {
  r_instruments : list string; r_shutdown : list shutdownFn; r_levelVar : option Z;
}.
Definition SetLevelVar (lvl : option Z) (r : Recorder) : Recorder := mkRecorder (r_instruments r) (r_shutdown r) lvl.

Section new.
Context {E : Type} `{!Telemetry E}.

Fixpoint createAll (names done : list string) (e : E) : (list string + gerror) * E :=
  match names with
  | [] => (inl done, e)
  | name :: names' =>
      match tl_Instrument name e with
      | (Some err, e) => (inr err, e)
      | (None, e) => createAll names' (done ++ [name]) e
      end
  end.

Definition New (instanceID otlpEndpoint : string) (e : E) : (Recorder + gerror) * E :=
  let '(instanceID, e) :=
    if decide (instanceID = ""%string) then
      match tl_Hostname e with (inl h, e) => (h, e) | (inr _, e) => ("unknown"%string, e) end
    else (instanceID, e) in
  match tl_Resource instanceID e with
  | (Some err, e) => (inr (ErrWrap "metrics: build resource" err), e)
  | (None, e) =>
  match tl_Prometheus e with
  | (Some err, e) => (inr (ErrWrap "metrics: prometheus exporter" err), e)
  | (None, e) =>
  let '(otlp, e) :=
    if decide (otlpEndpoint ≠ ""%string) then
      match tl_OTLP otlpEndpoint e with
      | (Some err, e) => (inr (ErrWrap "metrics: OTLP exporter" err), e)
      | (None, e) => (inl [ShutdownOTLP], e)
      end
    else (inl [], e) in
  match otlp with
  | inr err => (inr err, e)
  | inl fns =>
  match createAll instruments [] e with
  | (inr err, e) => (inr err, e)
  | (inl done, e) => (inl (mkRecorder done (fns ++ [ShutdownProvider]) None), e)
  end end end end.

(** Runs every shutdown function; the last error is the result. *)
Fixpoint runShutdown (run : shutdownFn → E → option gerror * E) (fns : list shutdownFn)
    (last : option gerror) (e : E) : option gerror * E :=
  match fns with
  | [] => (last, e)
  | fn :: fns' =>
      match run fn e with
      | (Some err, e) => runShutdown run fns' (Some err) e
      | (None, e) => runShutdown run fns' last e
      end
  end.
Definition Shutdown (run : shutdownFn → E → option gerror * E) (r : Recorder) (e : E) : E :=
  (runShutdown run (r_shutdown r) None e).2.
End new.

(** *** The counting methods *)

Section counting.
Context {M : Type} `{!Meter M}.

(** A call on an instrument; nil panics. *)
Definition add (r : Recorder) (name : string) (v : Z) (a : attrs) (m : M) : option M :=
  if decide (name ∈ r_instruments r) then Some (mt_Add name a v m) else None.

(** The option [sourceOption] returns: one attribute. *)
Definition sourceAttr (source : string) : attrs := [("source"%string, source)].

Definition record (r : Recorder) (ev : metric) (m : M) : option M :=
  match ev with
  | CacheHit => add r "bre_cache_hits_total" 1 [] m
  | CacheMiss => add r "bre_cache_misses_total" 1 [] m
  | CacheError => add r "bre_cache_errors_total" 1 [] m
  | NACKRequest => add r "bre_nack_requests_total" 1 [] m
  | Retransmit => add r "bre_retransmits_total" 1 [] m
  | UnicastRetransmit => add r "bre_unicast_retransmits_total" 1 [] m
  | RetransmitDedup => add r "bre_retransmit_dedup_total" 1 [] m
  | ProxyRequest => add r "bre_proxy_requests_total" 1 [] m
  | ProxyRecovered => add r "bre_proxy_recovered_total" 1 [] m
  | ProxyFailed reason => add r "bre_proxy_failed_total" 1 [("reason"%string, reason)] m
  | ProxyInflightDedup => add r "bre_proxy_inflight_dedup_total" 1 [] m
  | ProxyQueueDropped => add r "bre_proxy_queue_dropped_total" 1 [] m
  | ResponseSent typ => add r "bre_responses_sent_total" 1 [("type"%string, typ)] m
  | ResponseSendError typ => add r "bre_response_send_errors_total" 1 [("type"%string, typ)] m
  | RateLimitDrop level => add r "bre_rate_limit_drops_total" 1 [("level"%string, level)] m
  | FrameReceived => add r "bre_frames_received_total" 1 [] m
  | TeeDatagram form => add r "bre_tee_datagrams_total" 1 [("form"%string, form)] m
  | FrameCached source =>
      m ← add r "bre_frames_cached_total" 1 [] m;
      add r "bre_cache_stored_total" 1 (sourceAttr source) m
  | FrameDropped reason => add r "bre_frames_dropped_total" 1 [("reason"%string, reason)] m
  | BeaconAdvertSent => add r "bre_beacon_adverts_sent_total" 1 [] m
  end.

Definition CacheSize (r : Recorder) (size : Z) (m : M) : option M :=
  if decide ("bre_cache_size"%string ∈ r_instruments r) then Some (mt_Record "bre_cache_size" size m) else None.

Fixpoint PreCreateSources (r : Recorder) (sources : list string) (m : M) : option M :=
  match sources with
  | [] => Some m
  | s :: sources' => m ← add r "bre_cache_stored_total" 0 (sourceAttr s) m; PreCreateSources r sources' m
  end.

Fixpoint record_all (r : Recorder) (evs : list metric) (m : M) : option M :=
  match evs with
  | [] => Some m
  | ev :: evs' => m ← record r ev m; record_all r evs' m
  end.

(** ** Counting: lemmas and theorems *)

Lemma createAll_done {E : Type} `{!Telemetry E} names done (e : E) r e' :
  createAll names done e = (inl r, e') → r = done ++ names.
Proof.
  revert done e. induction names as [|n names IH]; intros done e; simpl; [intros [= <- _]; by rewrite app_nil_r|].
  destruct (tl_Instrument n e) as [[err|] e1]; [done|]. intros Hc. by rewrite (IH _ _ Hc), <- app_assoc.
Qed.

Lemma New_instruments {E : Type} `{!Telemetry E} id otlp (e : E) r e' :
  New id otlp e = (inl r, e') → r_instruments r = instruments.
Proof.
  unfold New. destruct (if decide (id = ""%string) then _ else _) as [id' e1].
  destruct (tl_Resource id' e1) as [[err|] e2]; [done|]. destruct (tl_Prometheus e2) as [[err|] e3]; [done|].
  destruct (if decide (otlp ≠ ""%string) then _ else _) as [[fns|err] e4]; [|done].
  destruct (createAll _ _ e4) as [[l|err] e5] eqn:Hc; [|done]. intros [= <- _]. by apply createAll_done in Hc.
Qed.

(** A recorder with every instrument. *)
Definition complete (r : Recorder) : Prop := r_instruments r = instruments.

Lemma add_complete r name v a (m : M) : complete r → name ∈ instruments → add r name v a m = Some (mt_Add name a v m).
Proof. intros Hr Hn. unfold add. rewrite Hr. by rewrite decide_True. Qed.

Lemma record_complete r ev (m : M) : complete r → is_Some (record r ev m).
Proof.
  intros Hr. destruct ev; unfold record; rewrite ?add_complete by (done || by apply (bool_decide_unpack _)); try by eexists.
  cbn [mbind option_bind]. rewrite add_complete by (done || by apply (bool_decide_unpack _)). by eexists.
Qed.

Lemma record_all_complete r evs (m : M) : complete r → is_Some (record_all r evs m).
Proof.
  intros Hr. revert m. induction evs as [|ev evs IH]; intros m; simpl; [by eexists|].
  destruct (record_complete r ev m Hr) as [m1 ->]. apply IH.
Qed.

Lemma PreCreateSources_complete r l (m : M) : complete r → is_Some (PreCreateSources r l m).
Proof.
  intros Hr. revert m. induction l as [|x l IH]; intros m; simpl; [by eexists|].
  rewrite add_complete by (done || by apply (bool_decide_unpack _)). apply IH.
Qed.

(** How one event moves the series of a source and the total. *)
Lemma record_stored `{!MeterOk M} r ev (m m' : M) s : complete r → record r ev m = Some m' →
  mt_series m' "bre_cache_stored_total" (sourceAttr s) =
    (if decide (ev = FrameCached s) then Some (default 0 (mt_series m "bre_cache_stored_total" (sourceAttr s)) + 1)
     else mt_series m "bre_cache_stored_total" (sourceAttr s)) ∧
  default 0 (mt_series m' "bre_frames_cached_total" []) =
    default 0 (mt_series m "bre_frames_cached_total" []) +
      (match ev with FrameCached _ => 1 | _ => 0 end).
Proof.
  intros Hr Hrec. destruct (decide (ev = FrameCached s)) as [->|Hne].
  - unfold record in Hrec. rewrite add_complete in Hrec by (done || by apply (bool_decide_unpack _)).
    cbn [mbind option_bind] in Hrec. rewrite add_complete in Hrec by (done || by apply (bool_decide_unpack _)).
    injection Hrec as <-. rewrite !series_add. by rewrite !decide_True, !decide_False by (done || (intros [? _]; discriminate)).
  - destruct ev as [| | | | | | | | |reason| | |typ|typ|level| |form|source|reason|];
      unfold record in Hrec; try (rewrite add_complete in Hrec by (done || by apply (bool_decide_unpack _)));
      try (injection Hrec as <-; rewrite !series_add, !decide_False by (intros [? _]; discriminate); split; [done|lia]).
    cbn [mbind option_bind] in Hrec. rewrite add_complete in Hrec by (done || by apply (bool_decide_unpack _)).
    injection Hrec as <-. rewrite !series_add. rewrite !(decide_False (P := _ ∧ sourceAttr source = sourceAttr s)).
    2:{ intros [_ [= ->]]. done. }
    rewrite (decide_False (P := "bre_frames_cached_total" = "bre_cache_stored_total" ∧ _)) by (intros [? _]; discriminate).
    rewrite (decide_False (P := "bre_cache_stored_total" = "bre_frames_cached_total" ∧ _)) by (intros [? _]; discriminate).
    by rewrite decide_True by done.
Qed.

(** How often a source was cached, and frames in all. *)
Definition cached_of (s : string) (evs : list metric) : list metric := filter (λ ev, ev = FrameCached s) evs.
Definition is_cached (ev : metric) : bool := match ev with FrameCached _ => true | _ => false end.
Definition cached_all (evs : list metric) : list metric := filter (λ ev, is_cached ev = true) evs.

Lemma cached_of_none s evs : FrameCached s ∉ evs → cached_of s evs = [].
Proof.
  unfold cached_of. induction evs as [|ev evs IH]; [done|]. intros [Hne Hin]%not_elem_of_cons.
  rewrite filter_cons_False by congruence. by apply IH.
Qed.

Lemma record_all_stored `{!MeterOk M} r evs (m m' : M) s : complete r → record_all r evs m = Some m' →
  mt_series m' "bre_cache_stored_total" (sourceAttr s) =
    (if decide (FrameCached s ∈ evs) then
       Some (default 0 (mt_series m "bre_cache_stored_total" (sourceAttr s)) + Z.of_nat (length (cached_of s evs)))
     else mt_series m "bre_cache_stored_total" (sourceAttr s)) ∧
  default 0 (mt_series m' "bre_frames_cached_total" []) =
    default 0 (mt_series m "bre_frames_cached_total" []) + Z.of_nat (length (cached_all evs)).
Proof.
  intros Hr. revert m. induction evs as [|ev evs IH]; intros m; cbn [record_all].
  { intros [= <-]. rewrite decide_False by apply not_elem_of_nil. simpl. split; [done|lia]. }
  destruct (record r ev m) as [m1|] eqn:Hrec; [|done]. intros Hall.
  destruct (record_stored r ev m m1 s Hr Hrec) as [Hs Ht]. destruct (IH m1 Hall) as [-> ->]. rewrite Hs, Ht. split.
  - unfold cached_of. rewrite filter_cons. destruct (decide (ev = FrameCached s)) as [->|Hne].
    + rewrite (decide_True (P := FrameCached s ∈ FrameCached s :: evs)) by constructor. cbn [length default].
      destruct (decide (FrameCached s ∈ evs)) as [Hin|Hin]; simpl; [f_equal; lia|].
      fold (cached_of s evs). by rewrite cached_of_none.
    + fold (cached_of s evs). destruct (decide (FrameCached s ∈ evs)) as [Hin|Hin].
      * by rewrite decide_True by (by constructor).
      * rewrite decide_False; [done|]. rewrite elem_of_cons. intros [?|?]; [congruence|done].
  - unfold cached_all. rewrite filter_cons. destruct ev; simpl; lia.
Qed.

Lemma PreCreateSources_stored `{!MeterOk M} r l (m m' : M) s : complete r → PreCreateSources r l m = Some m' →
  mt_series m' "bre_cache_stored_total" (sourceAttr s) =
    (if decide (s ∈ l) then Some (default 0 (mt_series m "bre_cache_stored_total" (sourceAttr s)))
     else mt_series m "bre_cache_stored_total" (sourceAttr s)) ∧
  mt_series m' "bre_frames_cached_total" [] = mt_series m "bre_frames_cached_total" [].
Proof.
  intros Hr. revert m. induction l as [|x l IH]; intros m; cbn [PreCreateSources].
  { intros [= <-]. by rewrite decide_False by apply not_elem_of_nil. }
  rewrite add_complete by (done || by apply (bool_decide_unpack _)). cbn [mbind option_bind].
  intros Hall. destruct (IH _ Hall) as [-> ->]. rewrite !series_add.
  rewrite (decide_False (P := "bre_cache_stored_total" = "bre_frames_cached_total" ∧ _)) by (intros [? _]; discriminate).
  split; [|done]. destruct (decide (x = s)) as [->|Hne].
  - rewrite !(decide_True (P := _ ∧ sourceAttr s = sourceAttr s)) by done.
    rewrite (decide_True (P := s ∈ s :: l)) by constructor. case_decide; simpl; f_equal; lia.
  - rewrite !(decide_False (P := _ ∧ sourceAttr x = sourceAttr s)) by (intros [_ [= ?]]; done).
    destruct (decide (s ∈ l)).
    + by rewrite decide_True by (by constructor).
    + rewrite decide_False; [done|]. rewrite elem_of_cons. by intros [?|?].
Qed.

(** C28: the starvation series say what was cached. On a recorder that New returned no
    counting method meets a nil instrument; and after the joined sources were
    pre-created and any events recorded, the per-source series exists exactly for
    the joined sources and the sources a frame was cached from, its value is the
    number of frames cached from that source, and the total counts all of them. *)
Theorem starvation_series_exact {E : Type} `{!Telemetry E} (id otlp : string) (e e' : E) (r : Recorder)
    (joined : list string) (evs : list metric) :
  MeterOk M → New id otlp e = (inl r, e') →
  ∃ m, (m0 ← PreCreateSources r joined (mt_empty : M); record_all r evs m0) = Some m ∧
    (∀ s, mt_series m "bre_cache_stored_total" (sourceAttr s) =
       if decide (s ∈ joined ∨ FrameCached s ∈ evs) then Some (Z.of_nat (length (cached_of s evs))) else None) ∧
    default 0 (mt_series m "bre_frames_cached_total" []) = Z.of_nat (length (cached_all evs)).
Proof.
  intros Hok Hnew%New_instruments. destruct (PreCreateSources_complete r joined mt_empty Hnew) as [m0 Hm0].
  rewrite Hm0. cbn [mbind option_bind]. destruct (record_all_complete r evs m0 Hnew) as [m Hm].
  exists m. split; [done|]. split.
  - intros s. destruct (PreCreateSources_stored r joined _ _ s Hnew Hm0) as [Hp _].
    destruct (record_all_stored r evs _ _ s Hnew Hm) as [-> _]. rewrite Hp, series_empty.
    destruct (decide (FrameCached s ∈ evs)) as [Hin|Hin].
    + rewrite (decide_True (P := _ ∨ _)) by auto. by case_decide.
    + rewrite cached_of_none by done. case_decide; [by rewrite decide_True by auto|]. by rewrite decide_False by tauto.
  - destruct (PreCreateSources_stored r joined _ _ ""%string Hnew Hm0) as [_ Hp].
    destruct (record_all_stored r evs _ _ ""%string Hnew Hm) as [_ ->]. by rewrite Hp, series_empty.
Qed.
End counting.

(** *** sourceOption

    The callers of [sourceOption] share a pointer to a map that is never changed
    once it is published, and a mutex. A caller first looks without the mutex,
    then again with it, and publishes a copy extended by its source. *)
Inductive opt_pc :=
| Start | Missed | Locked | Copying (old : option (gmap string attrs)) | Unlocking (o : attrs) | Returned (o : attrs).

Record opt_state := mkOpt {
  op_ptr : option (gmap string attrs);   (* cachedBySource; None = nil *)
  op_mu : option nat;                    (* the caller that holds cachedBySourceMu *)
  op_callers : list (string * opt_pc);
}.

Definition cached (ptr : option (gmap string attrs)) (s : string) : option attrs :=
  match ptr with Some m => m !! s | None => None end.

Inductive opt_step : opt_state → opt_state → Prop :=
| os_hit p l cs i s o : cs !! i = Some (s, Start) → cached p s = Some o →
    opt_step (mkOpt p l cs) (mkOpt p l (<[i := (s, Returned o)]> cs))
| os_miss p l cs i s : cs !! i = Some (s, Start) → cached p s = None →
    opt_step (mkOpt p l cs) (mkOpt p l (<[i := (s, Missed)]> cs))
| os_lock p cs i s : cs !! i = Some (s, Missed) →
    opt_step (mkOpt p None cs) (mkOpt p (Some i) (<[i := (s, Locked)]> cs))
| os_hit_locked p l cs i s o : cs !! i = Some (s, Locked) → cached p s = Some o →
    opt_step (mkOpt p l cs) (mkOpt p l (<[i := (s, Unlocking o)]> cs))
| os_load p l cs i s : cs !! i = Some (s, Locked) → cached p s = None →
    opt_step (mkOpt p l cs) (mkOpt p l (<[i := (s, Copying p)]> cs))
| os_store p l cs i s old : cs !! i = Some (s, Copying old) →
    opt_step (mkOpt p l cs)
      (mkOpt (Some (<[s := sourceAttr s]> (default ∅ old))) l (<[i := (s, Unlocking (sourceAttr s))]> cs))
| os_unlock p l cs i s o : cs !! i = Some (s, Unlocking o) →
    opt_step (mkOpt p l cs) (mkOpt p None (<[i := (s, Returned o)]> cs)).

Definition opt_initial (sources : list string) : opt_state := mkOpt None None ((λ s, (s, Start)) <$> sources).

(** What is known of caller [i]. *)
Definition caller_ok (p : option (gmap string attrs)) (l : option nat) (i : nat) (s : string) (pc : opt_pc) : Prop :=
  match pc with
  | Start | Missed => True
  | Locked => l = Some i
  | Copying old => l = Some i ∧ old = p
  | Unlocking o => l = Some i ∧ o = sourceAttr s ∧ cached p s = Some o
  | Returned o => o = sourceAttr s ∧ cached p s = Some o
  end.

Record opt_ok (st : opt_state) : Prop := {
  oo_values : ∀ s o, cached (op_ptr st) s = Some o → o = sourceAttr s;
  oo_callers : ∀ i s pc, op_callers st !! i = Some (s, pc) → caller_ok (op_ptr st) (op_mu st) i s pc;
}.

(** Published entries stay. *)
Definition grows (p p' : option (gmap string attrs)) : Prop := ∀ s o, cached p s = Some o → cached p' s = Some o.

Lemma cached_insert s s' old :
  cached (Some (<[s := sourceAttr s]> (default ∅ old))) s' =
    if decide (s = s') then Some (sourceAttr s) else cached old s'.
Proof.
  simpl. destruct (decide (s = s')) as [->|]; [by rewrite lookup_insert_eq|]. rewrite lookup_insert_ne by done.
  destruct old; [done|]. simpl. by rewrite lookup_empty.
Qed.

(** A step that keeps the pointer, or extends it, and gives or takes the mutex only
    for the caller that moves. *)
Lemma opt_ok_move p l cs i s pc p' l' pc' : opt_ok (mkOpt p l cs) → cs !! i = Some (s, pc) →
  grows p p' → (∀ x o, cached p' x = Some o → o = sourceAttr x) →
  (∀ j, j ≠ i → l = Some j → p' = p ∧ l' = Some j) → caller_ok p' l' i s pc' →
  opt_ok (mkOpt p' l' (<[i := (s, pc')]> cs)).
Proof.
  intros [Hv Hc] Hi Hg Hv' Hl Hpc. split; [done|]. simpl. intros j s' pc'' Hj.
  destruct (decide (i = j)) as [<-|Hne].
  { rewrite list_lookup_insert_eq in Hj by (by eapply lookup_lt_Some). by simplify_eq. }
  rewrite list_lookup_insert_ne in Hj by done. specialize (Hc j s' pc'' Hj). simpl in Hc.
  destruct pc'' as [| | |old|o|o]; simpl in *; try done.
  - by apply Hl.
  - destruct Hc as [Hlj ->]. by destruct (Hl j (not_eq_sym Hne) Hlj) as [-> ->].
  - destruct Hc as (Hlj & -> & Ho). destruct (Hl j (not_eq_sym Hne) Hlj) as [-> ->]. done.
  - destruct Hc as [-> Ho]. split; [done|]. by apply Hg.
Qed.

Lemma opt_step_ok st st' : opt_step st st' → opt_ok st → opt_ok st' ∧ grows (op_ptr st) (op_ptr st').
Proof.
  intros Hs Hok. destruct Hok as [Hv Hc]. destruct Hs as [p l cs i s o Hi Ho|p l cs i s Hi Ho|p cs i s Hi
    |p l cs i s o Hi Ho|p l cs i s Hi Ho|p l cs i s old Hi|p l cs i s o Hi];
    pose proof (Hc i _ _ Hi) as Hpc; simpl in Hpc; (split; [|try by intros ??]).
  - eapply opt_ok_move; [by split|done|by intros ??|done|done|]. split; [by apply Hv|done].
  - by eapply opt_ok_move; [by split|done|by intros ??|..].
  - by eapply opt_ok_move; [by split|done|by intros ??|..].
  - subst l. eapply opt_ok_move; [by split|done|by intros ??|done|done|]. split_and!; [done|by apply Hv|done].
  - subst l. by eapply opt_ok_move; [by split|done|by intros ??|..].
  - destruct Hpc as [-> ->]. eapply opt_ok_move; [by split|done|..].
    + intros x o. rewrite cached_insert. intros Hx. case_decide; [subst; by rewrite (Hv _ _ Hx)|done].
    + intros x o. rewrite cached_insert. case_decide; [naive_solver|apply Hv].
    + intros j Hne [= <-]. done.
    + simpl. by rewrite lookup_insert_eq.
  - destruct Hpc as [-> ->]. intros x o. simpl op_ptr. rewrite cached_insert. intros Hx.
    case_decide; [subst; by rewrite (Hv _ _ Hx)|done].
  - destruct Hpc as (-> & -> & Ho). eapply opt_ok_move; [by split|done|by intros ??|done| |done].
    intros j Hne [= <-]. done.
Qed.

Lemma opt_steps_ok st st' : rtc opt_step st st' → opt_ok st → opt_ok st' ∧ grows (op_ptr st) (op_ptr st').
Proof.
  induction 1 as [|st st1 st' Hs _ IH]; [by split; [|intros ??]|]. intros Hok.
  destruct (opt_step_ok _ _ Hs Hok) as [Hok1 Hg1]. destruct (IH Hok1) as [Hok' Hg']. split; [done|].
  intros s o ?. by apply Hg', Hg1.
Qed.

(** C29: the label cache is safe to share. However the callers of sourceOption
    interleave, a caller that returns has the option of its own source, which is
    then in the published map; what is published is correct and is never lost:
    no copy drops an entry another caller published; and at most one caller is
    copying. *)
Theorem option_cache_coherent (sources : list string) (st st' : opt_state) :
  rtc opt_step (opt_initial sources) st → rtc opt_step st st' →
  (∀ i s o, op_callers st !! i = Some (s, Returned o) → o = sourceAttr s ∧ cached (op_ptr st') s = Some o) ∧
  (∀ s o, cached (op_ptr st) s = Some o → o = sourceAttr s ∧ cached (op_ptr st') s = Some o) ∧
  (∀ i j s s' old old', op_callers st !! i = Some (s, Copying old) →
     op_callers st !! j = Some (s', Copying old') → i = j).
Proof.
  intros Hr Hr'.
  destruct (opt_steps_ok _ _ Hr) as [Hok _].
  { split; [done|]. simpl. intros i s pc Hi. rewrite list_lookup_fmap in Hi.
    destruct (sources !! i); simplify_eq/=. done. }
  destruct (opt_steps_ok _ _ Hr' Hok) as [_ Hg]. destruct Hok as [Hv Hc]. split_and!.
  - intros i s o Hi. destruct (Hc _ _ _ Hi) as [-> Ho]. split; [done|by apply Hg].
  - intros s o Ho. split; [by apply Hv|by apply Hg].
  - intros i j s s' old old' [Hi _]%Hc [Hj _]%Hc. congruence.
Qed.

(** *** Info gauges (hostinfo.go) *)

Record hostIface := mkHostIface {
  hi_Name : string; hi_OperState : string; hi_IPv4 : list string; hi_IPv6 : list string; hi_SpeedMbps : Z
}.
Record inventory := mkInventory {
  in_Hostname : string; in_KernelVersion : string; in_CPULogical : Z; in_MemTotalBytes : Z;
  in_Sysctl : gmap string string; in_Interfaces : list hostIface; in_Version : string;
}.

(** The first interface that is up and has an address: its name and speed. *)
Fixpoint firstNIC (ifcs : list hostIface) : string * string :=
  match ifcs with
  | [] => (""%string, ""%string)
  | ifc :: ifcs' =>
      if decide (hi_OperState ifc = "up"%string ∧
                 ((0 < length (hi_IPv4 ifc))%nat ∨ (0 < length (hi_IPv6 ifc))%nat))
      then (hi_Name ifc, if 0 <? hi_SpeedMbps ifc then pretty (hi_SpeedMbps ifc) else ""%string)
      else firstNIC ifcs'
  end.

(** The label values of bre_host_info; [None] when the gauge is not registered. *)
Definition SetHostInfo (registered : bool) (inv : inventory) : option (list string) :=
  let '(nic, speed) := firstNIC (in_Interfaces inv) in
  if registered then Some
  [in_Hostname inv; in_KernelVersion inv; pretty (in_CPULogical inv); pretty (in_MemTotalBytes inv);
   default ""%string (in_Sysctl inv !! "net.core.rmem_max"%string); nic; speed; in_Version inv]
  else None.

(** The label of bre_own_source_info; [None] when nothing is published. *)
Definition SetOwnSource (registered : bool) (src : string) : option string :=
  match ParseAddr src with
  | None => None
  | Some a => if registered then Some (Addr_String a) else None
  end.

(** ** Instances *)
Section instances.
Import RefEnv.

#[local] Instance ref_Telemetry : Telemetry renv := {|
  tl_Hostname := λ e, (inl "host"%string, e);
  tl_Resource := λ _ e, (None, e);
  tl_Prometheus := λ e, (None, e);
  tl_OTLP := λ _ e, (None, e);
  tl_Instrument := λ _ e, ((if re_down e then Some (ErrExt 5) else None), e);
|}.
#[local] Instance ref_Meter : Meter (gmap (string * attrs) Z) := {|
  mt_Add := λ n a v m, <[(n, a) := default 0 (m !! (n, a)) + v]> m;
  mt_Record := λ n v m, <[(n, []) := v]> m;
  mt_series := λ m n a, m !! (n, a);
  mt_empty := ∅;
|}.
#[local] Instance ref_MeterOk : MeterOk (gmap (string * attrs) Z).
Proof.
  split; simpl; [intros; apply lookup_empty|intros n a v m n' a'|intros n v m n' a']; case_decide as Hd;
    try (destruct Hd as [-> ->]; by rewrite lookup_insert_eq);
    rewrite lookup_insert_ne; [done| |done|]; intros ?; simplify_eq; by apply Hd.
Qed.

Definition rec0 : Recorder := mkRecorder instruments [ShutdownProvider] None.

Lemma starvation_series_exact_witness :
  ∃ m, (m0 ← PreCreateSources rec0 ["a"; "b"]%string ∅; record_all rec0 [FrameCached "a"; CacheHit; FrameCached "a"; FrameCached "c"] m0)
      = Some m ∧
    mt_series m "bre_cache_stored_total" (sourceAttr "a") = Some 2 ∧
    mt_series m "bre_cache_stored_total" (sourceAttr "b") = Some 0 ∧
    mt_series m "bre_cache_stored_total" (sourceAttr "d") = None.
Proof.
  destruct (starvation_series_exact "" "" env0 env0 rec0 ["a"; "b"]%string
    [FrameCached "a"; CacheHit; FrameCached "a"; FrameCached "c"]) as (m & Hm & Hs & _); [apply _|reflexivity|].
  exists m. split; [exact Hm|]. split_and!; rewrite Hs; vm_compute; reflexivity.
Defined.

(** Two callers of one source race: both miss, one copies, the other finds it. *)
Definition raced : opt_state :=
  mkOpt (Some {["a"%string := sourceAttr "a"]}) (Some 1%nat)
    [("a"%string, Returned (sourceAttr "a")); ("a"%string, Unlocking (sourceAttr "a"))].
Lemma raced_reachable : rtc opt_step (opt_initial ["a"; "a"]%string) raced.
Proof.
  eapply rtc_l; [by apply (os_miss _ _ _ 0)|]. eapply rtc_l; [by apply (os_miss _ _ _ 1)|].
  eapply rtc_l; [by apply (os_lock _ _ 0)|]. eapply rtc_l; [by apply (os_load _ _ _ 0)|].
  eapply rtc_l; [by apply (os_store _ _ _ 0)|]. eapply rtc_l; [by apply (os_unlock _ _ _ 0)|].
  eapply rtc_l; [by apply (os_lock _ _ 1)|]. eapply rtc_l; [by apply (os_hit_locked _ _ _ 1)|].
  apply rtc_refl.
Qed.

Lemma option_cache_coherent_witness : cached (op_ptr raced) "a" = Some (sourceAttr "a").
Proof.
  destruct (option_cache_coherent ["a"; "a"]%string raced raced) as (Hret & _ & _);
    [apply raced_reachable|apply rtc_refl|].
  by destruct (Hret 0%nat "a"%string (sourceAttr "a")) as [_ Ho].
Defined.

(** An instrument that cannot be created ends start-up. *)
Example new_fails : (New "" "otlp:4317" (mkREnv 1 ∅ true false [] [])).1 = inr (ErrExt 5).
Proof. vm_compute. reflexivity. Qed.

Example host_labels :
  SetHostInfo true (mkInventory "h" "6.1" 8 1024 {["net.core.rmem_max"%string := "212992"%string]}
    [mkHostIface "lo" "unknown" ["127.0.0.1"%string] [] 0; mkHostIface "eth0" "up" [] ["fd00::7"%string] 10000] "dev") =
  Some ["h"; "6.1"; "8"; "1024"; "212992"; "eth0"; "10000"; "dev"]%string.
Proof. vm_compute. reflexivity. Qed.
End instances.

End Metrics.
