(* ===== verification/Lifecycle.v ===== *)
(** * Readiness and worker life cycle

    Models the readiness half of src/metrics/metrics.go ([SetWorkers],
    [WorkerReady], [WorkerDone], [SetDraining]) and the routes and handlers of its
    HTTP server ([Serve], [handleHealthz], [handleReadyz]), together with the
    goroutines of src/main.go that drive it: the ingress workers, the tee and the
    NACK server, each of which reports ready once its socket is up and done when it
    returns. [life_step] is their interleaving; a worker whose Run returns an error
    reports it on the fatal channel, one that returns nil does not. How the HTTP
    server starts and stops is Exposition.v. *)

From stdpp Require Import pretty.
From Stdlib Require Floats.SpecFloat.
From S2P Require Import Prelude GoNet External RefEnv RateLimit World CacheStore Ingress Pipeline.
From S2P Require Import GoText GoAddr Config Load Sockets Beacon Endpoint Assembly.
Import GoNet External World CacheStore Load.

Module Lifecycle.

(** *** metrics.Recorder, its readiness fields *)

Record Recorder := mkRecorder { readyCount : Z; numWorkers : Z; draining : bool }.

(** [atomic.Int32] wraps around. *)
Definition i32 (z : Z) : Z := (z + 2 ^ 31) mod 2 ^ 32 - 2 ^ 31.

Definition SetWorkers (n : Z) (r : Recorder) : Recorder := mkRecorder (readyCount r) n (draining r).
Definition WorkerReady (r : Recorder) : Recorder :=
  mkRecorder (i32 (readyCount r + 1)) (numWorkers r) (draining r).
Definition WorkerDone (r : Recorder) : Recorder :=
  mkRecorder (i32 (readyCount r + -1)) (numWorkers r) (draining r).
Definition SetDraining (r : Recorder) : Recorder := mkRecorder (readyCount r) (numWorkers r) true.

(** *** The HTTP endpoints *)

Record response := mkResponse { rs_code : Z; rs_contentType : string; rs_body : string }.

(** A quoted string, and an object of fields that are already encoded. *)
Definition quote (s : string) : string :=
  String (Ascii.ascii_of_nat 34) (s ++ String (Ascii.ascii_of_nat 34) "")%string.
Definition object (fields : list (string * string)) : string :=
  ("{" ++ String.concat "," ((λ f, quote f.1 ++ ":" ++ f.2) <$> fields) ++ "}")%string.

Definition readyBody (status : string) (ready total : Z) : string :=
  object [("status", quote status); ("workers_ready", pretty ready); ("workers_total", pretty total)]%string.

Definition handleReadyz (r : Recorder) : response :=
  let ready := readyCount r in
  let total := numWorkers r in
  if draining r then mkResponse 503 "application/json" (readyBody "draining" ready total)
  else if (total <=? ready) && (0 <? total) then mkResponse 200 "application/json" (readyBody "ready" ready total)
  else mkResponse 503 "application/json" (readyBody "starting" ready total).

(** [n / d] to the nearest integer, ties to even. *)
Definition half_even (n d : Z) : Z :=
  let q := n / d in
  let r := n mod d in
  if 2 * r <? d then q else if d <? 2 * r then q + 1 else if Z.even q then q else q + 1.

(** The verb [%.1f]: the exact value, rounded to tenths. *)
Definition fmt_1f (f : float64) : string :=
  let tenths (q : Z) := (pretty (q / 10) ++ "." ++ pretty (q mod 10))%string in
  match f with
  | SpecFloat.S754_zero s => if s then "-0.0"%string else "0.0"%string
  | SpecFloat.S754_infinity s => if s then "-Inf"%string else "+Inf"%string
  | SpecFloat.S754_nan => "NaN"%string
  | SpecFloat.S754_finite s m e =>
      let q := if 0 <=? e then 10 * Z.pos m * 2 ^ e else half_even (10 * Z.pos m) (2 ^ (- e)) in
      ((if s then "-" else "") ++ tenths q)%string
  end.

(** [uptime] is the time since the recorder was made. *)
Definition handleHealthz (uptime : Z) : response :=
  mkResponse 200 "application/json"
    (object [("status", quote "ok"); ("uptime_seconds", fmt_1f (Beacon.Seconds uptime))]%string).

(** The handlers Serve registers; a pattern without a trailing slash matches its
    path alone. *)
Inductive handler := MetricsHandler | Healthz | Readyz | LevelHandler.
Definition mux (levelVar : bool) : list (string * handler) :=
  [("/metrics", MetricsHandler); ("/healthz", Healthz); ("/readyz", Readyz)]%string ++
  (if levelVar then [("/loglevel", LevelHandler)]%string else []).
Definition route (levelVar : bool) (path : string) : option handler :=
  (λ r, r.2.2) <$> list_find (λ h, h.1 = path) (mux levelVar).

(** *** The goroutines of main *)

Inductive phase := Starting | Serving | Exited.
#[global] Instance phase_eq_dec : EqDecision phase.
Proof. solve_decision. Defined.

Record process := mkProcess {
  p_rec : Recorder;
  p_workers : list phase;
  p_tee : option phase;
  p_server : phase;
  p_fatal : bool;      (* an error was put on fatalCh *)
  p_cancelled : bool;  (* the root context is cancelled *)
}.

(** The state when the goroutines are launched, [ings] being the workers built. *)
Definition launch {W : Type} (cfg : Config) (ings : list W) : process :=
  mkProcess (SetWorkers (Z.of_nat (length ings)) (mkRecorder 0 (NumWorkers cfg) false))
    (if f_MCJoinEnabled cfg then (λ _, Starting) <$> ings else [])
    ((λ _, Starting) <$> TeeListen cfg) Starting false false.

(** A turn of one of these goroutines. The server returns only after the context
    is cancelled; an ingress or tee worker also when its descriptor fails. *)
Inductive go_step : process → process → Prop :=
| go_worker_ready r ws t s f c i :
    ws !! i = Some Starting →
    go_step (mkProcess r ws t s f c) (mkProcess (WorkerReady r) (<[i := Serving]> ws) t s f c)
| go_worker_error r ws t s f c i :
    ws !! i = Some Starting →
    go_step (mkProcess r ws t s f c) (mkProcess r (<[i := Exited]> ws) t s (f || negb c) c)
| go_worker_return r ws t s f c i :
    ws !! i = Some Serving →
    go_step (mkProcess r ws t s f c) (mkProcess (WorkerDone r) (<[i := Exited]> ws) t s f c)
| go_tee_ready r ws s f c :
    go_step (mkProcess r ws (Some Starting) s f c) (mkProcess (WorkerReady r) ws (Some Serving) s f c)
| go_tee_error r ws s f c :
    go_step (mkProcess r ws (Some Starting) s f c) (mkProcess r ws (Some Exited) s (f || negb c) c)
| go_tee_return r ws s f c :
    go_step (mkProcess r ws (Some Serving) s f c) (mkProcess (WorkerDone r) ws (Some Exited) s f c)
| go_server_ready r ws t f c :
    go_step (mkProcess r ws t Starting f c) (mkProcess (WorkerReady r) ws t Serving f c)
| go_server_error r ws t f c :
    go_step (mkProcess r ws t Starting f c) (mkProcess r ws t Exited f c)
| go_server_return r ws t f :
    go_step (mkProcess r ws t Serving f true) (mkProcess (WorkerDone r) ws t Exited f true).

(** What main does to their state; the order it does it in is Shutdown.v. *)
Definition drain (p : process) : process :=
  mkProcess (SetDraining (p_rec p)) (p_workers p) (p_tee p) (p_server p) (p_fatal p) (p_cancelled p).
Definition cancel (p : process) : process :=
  mkProcess (p_rec p) (p_workers p) (p_tee p) (p_server p) (p_fatal p) true.

Inductive life_step (cfg : Config) : process → process → Prop :=
| ls_go p p' : go_step p p' → life_step cfg p p'
| ls_drain p : 0 < f_DrainTimeout cfg → life_step cfg p (drain p)
| ls_cancel p : life_step cfg p (cancel p).

(** ** Lemmas *)

Definition serving (p : phase) : Z := match p with Serving => 1 | _ => 0 end.
Definition sum_serving (ws : list phase) : Z := foldr (λ p n, serving p + n) 0 ws.
(** How many goroutines are up. *)
Definition running (p : process) : Z :=
  sum_serving (p_workers p) + from_option serving 0 (p_tee p) + serving (p_server p).

Lemma serving_range p : 0 ≤ serving p ≤ 1.
Proof. destruct p; simpl; lia. Qed.

Lemma sum_serving_range ws : 0 ≤ sum_serving ws ≤ Z.of_nat (length ws).
Proof. induction ws as [|p ws IH]; simpl; [done|]. pose proof (serving_range p). lia. Qed.

Lemma sum_serving_insert ws i p q : ws !! i = Some p →
  sum_serving (<[i := q]> ws) = sum_serving ws + (serving q - serving p).
Proof.
  revert i. induction ws as [|x ws IH]; intros [|i]; simpl; try done.
  - intros [= ->]. lia.
  - intros Hi. rewrite (IH i Hi). lia.
Qed.

Lemma sum_serving_starting {W : Type} (l : list W) : sum_serving ((λ _, Starting) <$> l) = 0.
Proof. induction l as [|w l IH]; [done|]. csimpl. by rewrite IH. Qed.

Lemma i32_small z : 0 ≤ z < 2 ^ 31 → i32 z = z.
Proof. intros Hz. unfold i32. rewrite Z.mod_small; lia. Qed.

(** The recorder counts the goroutines that are up. *)
Record life_ok (cfg : Config) (n : Z) (p : process) : Prop := {
  lo_count : readyCount (p_rec p) = running p;
  lo_total : numWorkers (p_rec p) = n;
  lo_workers : Z.of_nat (length (p_workers p)) = if f_MCJoinEnabled cfg then n else 0;
  lo_tee : p_tee p = None ↔ TeeListen cfg = None;
}.

Lemma running_range p : 0 ≤ running p ≤ Z.of_nat (length (p_workers p)) + 2.
Proof.
  unfold running. pose proof (sum_serving_range (p_workers p)). pose proof (serving_range (p_server p)).
  destruct (p_tee p) as [ph|]; simpl; [pose proof (serving_range ph)|]; lia.
Qed.

Lemma running_bound cfg n p : life_ok cfg n p →
  running p ≤ (if f_MCJoinEnabled cfg then n else 0) + match TeeListen cfg with Some _ => 1 | None => 0 end + 1.
Proof.
  intros [_ _ Hw Ht]. unfold running. pose proof (sum_serving_range (p_workers p)).
  pose proof (serving_range (p_server p)). destruct (p_tee p) as [ph|]; simpl.
  - pose proof (serving_range ph). destruct (TeeListen cfg); [lia|]. discriminate (proj2 Ht eq_refl).
  - destruct (TeeListen cfg); lia.
Qed.

(** A step that keeps the shape and moves the counter with the goroutines. *)
Lemma life_ok_move cfg n p p' : n + 2 < 2 ^ 31 → 0 ≤ n → life_ok cfg n p →
  numWorkers (p_rec p') = numWorkers (p_rec p) → length (p_workers p') = length (p_workers p) →
  (p_tee p' = None ↔ p_tee p = None) →
  readyCount (p_rec p') = readyCount (p_rec p) ∧ running p' = running p ∨
  (∃ d, readyCount (p_rec p') = i32 (readyCount (p_rec p) + d) ∧ running p' = running p + d) →
  life_ok cfg n p'.
Proof.
  intros Hb Hn [Hc Ht Hw Htee] Hnw Hlen Htee' Hmv. pose proof (running_range p') as Hr.
  rewrite Hlen, Hw in Hr. split; [|by rewrite Hnw|by rewrite Hlen|by rewrite Htee'].
  destruct Hmv as [[-> ->]|(d & -> & Hd)]; [done|]. rewrite Hc, <- Hd. apply i32_small.
  destruct (f_MCJoinEnabled cfg); lia.
Qed.

Lemma life_step_ok cfg n p p' : n + 2 < 2 ^ 31 → 0 ≤ n → life_step cfg p p' → life_ok cfg n p → life_ok cfg n p'.
Proof.
  intros Hb Hn Hstep Hok.
  eapply life_ok_move; [done|done|exact Hok| | | |]; destruct Hstep as [? ? Hg| |]; try destruct Hg; simpl;
    rewrite ?length_insert; try done.
  all: unfold running; simpl; try (erewrite sum_serving_insert by done); try (left; split; [done|]; simpl; lia).
  all: right; eexists; (split; [reflexivity|]; simpl; lia).
Qed.

Lemma launch_ok {W : Type} cfg (ings : list W) : life_ok cfg (Z.of_nat (length ings)) (launch cfg ings).
Proof.
  unfold launch. split; simpl.
  - unfold running. cbn [p_workers p_tee p_server]. destruct (f_MCJoinEnabled cfg), (TeeListen cfg); try done.
    all: by rewrite sum_serving_starting.
  - done.
  - destruct (f_MCJoinEnabled cfg); by rewrite ?length_fmap.
  - by destruct (TeeListen cfg).
Qed.

Lemma reachable_life {W : Type} cfg (ings : list W) p :
  Z.of_nat (length ings) + 2 < 2 ^ 31 → rtc (life_step cfg) (launch cfg ings) p →
  life_ok cfg (Z.of_nat (length ings)) p.
Proof.
  intros Hb Hr. pose proof (launch_ok cfg ings) as Hok. revert Hok.
  induction Hr as [|p1 p2 p3 Hs _ IH]; [done|]. intros Hok. apply IH.
  eapply life_step_ok; [done|lia|done|done].
Qed.

(** Draining is never undone. *)
Lemma draining_stays cfg p p' : rtc (life_step cfg) p p' → draining (p_rec p) = true → draining (p_rec p') = true.
Proof. induction 1 as [|p1 p2 p3 Hs _ IH]; [done|]. intros Hd. apply IH. by destruct Hs as [? ? []| |]. Qed.

(** ** Theorems *)
Section model.
Context {E : Type} `{!RateLib E, !OS E, !Backend E, !FetchNet E, !Kernel E, !FrameLib, !ShardLib, !ScopeLib, !TeeWire}.
Context `{!Host, !Assembly.MainEnv E}.


(** The workers of an assembled endpoint are few enough for the 32-bit counter. *)
Lemma assembled_life cfg (a : Assembly.assembly (E := E)) e e' p : HostOk → Load = Some (inl cfg) →
  Assembly.assemble cfg e = Some (inl a, e') →
  rtc (life_step cfg) (launch cfg (Assembly.as_ings a)) p →
  life_ok cfg (Z.of_nat (length (Assembly.as_ings a))) p ∧ valid cfg ∧
  Z.of_nat (length (Assembly.as_ings a)) = Z.max 1 (Z.min (NumWorkers cfg)
    (Z.of_nat (length (Endpoint.buildGroups cfg (Assembly.as_engine a))))).
Proof.
  intros Hh HL Ha Hr. destruct (Assembly.assembled_built _ _ _ _ HL Ha) as [Hv Hb].
  pose proof (Assembly.bl_workers _ _ Hb) as Hn. pose proof (Assembly.length_buildGroups cfg (Assembly.as_engine a) Hv).
  split_and!; [|done|done]. apply reachable_life; [lia|done].
Qed.

(** C38: what /readyz answers. In every reachable state of an endpoint assembled from
    a loaded configuration the counter is exactly the number of goroutines that
    are up, ingress workers, tee and NACK server alike; the answer is 200
    precisely when the process is not draining and that number reaches the count
    of ingress workers; the body reports both numbers; and once draining has begun
    the answer is 503, and says so, for good. *)
Theorem readyz_exact (cfg : Config) (a : Assembly.assembly (E := E)) (e e' : E) (p : process) :
  HostOk → Load = Some (inl cfg) → Assembly.assemble cfg e = Some (inl a, e') →
  let n := Z.of_nat (length (Assembly.as_ings a)) in
  rtc (life_step cfg) (launch cfg (Assembly.as_ings a)) p →
  readyCount (p_rec p) = running p ∧
  (rs_code (handleReadyz (p_rec p)) = 200 ↔ draining (p_rec p) = false ∧ n ≤ running p) ∧
  (∃ status, rs_body (handleReadyz (p_rec p)) = readyBody status (running p) n) ∧
  (draining (p_rec p) = true →
     ∀ p', rtc (life_step cfg) p p' →
       handleReadyz (p_rec p') = mkResponse 503 "application/json" (readyBody "draining" (running p') n)).
Proof.
  intros Hh HL Ha n Hr. destruct (assembled_life _ _ _ _ _ Hh HL Ha Hr) as ([Hc Ht _ _] & _ & Hn).
  fold n in Ht, Hn. split; [done|]. split; [|split].
  - unfold handleReadyz. rewrite Hc, Ht. destruct (draining (p_rec p)); simpl; [naive_solver|].
    rewrite (proj2 (Z.ltb_lt 0 n)) by lia. destruct (n <=? running p) eqn:Hle; simpl; split; try done.
    + intros _. split; [done|lia].
    + intros [_ ?]. lia.
  - unfold handleReadyz. rewrite Hc, Ht. destruct (draining (p_rec p)); [by eexists|]. case_match; by eexists.
  - intros Hd p' Hr'. destruct (assembled_life _ _ _ _ p' Hh HL Ha) as ([Hc' Ht' _ _] & _); [by etrans|].
    unfold handleReadyz. by rewrite (draining_stays _ _ _ Hr' Hd), Hc', Ht'.
Qed.

(** A tee-only endpoint with more than two configured ingress workers never
    becomes ready. The workers are built, and counted, although the join is
    disabled, so at most the tee and the server report ready. *)
Theorem tee_only_never_ready (cfg : Config) (a : Assembly.assembly (E := E)) (e e' : E) (p : process) :
  HostOk → Load = Some (inl cfg) → Assembly.assemble cfg e = Some (inl a, e') →
  f_MCJoinEnabled cfg = false → 2 < NumWorkers cfg →
  rtc (life_step cfg) (launch cfg (Assembly.as_ings a)) p → rs_code (handleReadyz (p_rec p)) = 503.
Proof.
  intros Hh HL Ha Hmc Hnw Hr. destruct (assembled_life _ _ _ _ _ Hh HL Ha Hr) as (Hok & Hv & Hn).
  pose proof (Assembly.length_buildGroups cfg (Assembly.as_engine a) Hv).
  pose proof (running_bound _ _ _ Hok) as Hb.
  rewrite Hmc in Hb. destruct Hok as [Hc Ht _ _]. unfold handleReadyz. rewrite Hc, Ht.
  destruct (draining (p_rec p)); [done|].
  rewrite (proj2 (Z.leb_gt _ _)); [done|]. destruct (TeeListen cfg); lia.
Qed.
End model.

(** ** Instances *)
Section instances.
Import RefEnv Assembly.

#[local] Existing Instance Assembly.ref_MainEnv.
#[local] Existing Instance Assembly.ref_host.

(** The default single worker: the NACK server alone makes the endpoint ready. *)
Definition server_up : process :=
  mkProcess (mkRecorder 1 1 false) [Starting] (Some Starting) Serving false false.
Lemma server_up_reachable : rtc (life_step ref_config) (launch ref_config (as_ings ref_assembly)) server_up.
Proof. eapply rtc_l; [apply ls_go, go_server_ready|]. apply rtc_refl. Qed.

Lemma readyz_exact_witness :
  running server_up = 1 ∧ rs_code (handleReadyz (p_rec server_up)) = 200.
Proof.
  destruct (readyz_exact ref_config ref_assembly env0 ref_env' server_up) as (Hc & _ & _ & _);
    [apply refHost_ok|apply ref_config_loaded|apply ref_assembled|apply server_up_reachable|].
  split; [symmetry; exact Hc|reflexivity].
Defined.

(** The endpoints as a client sees them: a tie is rounded to even, the log level has
    no route without a level variable. *)
Example endpoints :
  handleHealthz 1250000000 = mkResponse 200 "application/json"
    ("{" ++ quote "status" ++ ":" ++ quote "ok" ++ "," ++ quote "uptime_seconds" ++ ":1.2}")%string ∧
  fmt_1f (Beacon.Seconds 86400000000000) = "86400.0"%string ∧ fmt_1f (Beacon.Seconds 350000000) = "0.3"%string ∧
  (route true <$> ["/readyz"; "/loglevel"; "/readyz/"]%string) = [Some Readyz; Some LevelHandler; None] ∧
  route false "/loglevel" = None.
Proof. vm_compute. done. Qed.

(** The only ingress worker returned with a nil error: nothing was put on the
    fatal channel and the endpoint still answers ready. *)
Example ingress_dead_still_ready :
  ∃ p, rtc (life_step ref_config) (launch ref_config (as_ings ref_assembly)) p ∧
    p_workers p = [Exited] ∧ p_fatal p = false ∧ p_cancelled p = false ∧
    rs_code (handleReadyz (p_rec p)) = 200.
Proof.
  eexists. split.
  - eapply rtc_l; [apply ls_go, go_server_ready|]. eapply rtc_l; [by apply ls_go, (go_worker_ready _ _ _ _ _ _ 0)|].
    eapply rtc_l; [by apply ls_go, (go_worker_return _ _ _ _ _ _ 0)|]. apply rtc_refl.
  - split_and!; reflexivity.
Qed.

(** A tee-only endpoint with three workers. *)
Definition tee_env : list (string * string) :=
  [("TEE_LISTEN", "[::1]:9500"); ("MC_JOIN_ENABLED", "0"); ("INGRESS_WORKERS", "3")]%string.
Definition tee_config : Config := ltac:(
  let r := eval vm_compute in (Load (H := refHost tee_env)) in
  match r with Some (inl ?c) => exact c end).
Definition tee_assembly : assembly (E := renv) :=
  match assemble tee_config env0 with Some (inl a, _) => a | _ => ref_assembly end.
Definition tee_env' : renv := match assemble tee_config env0 with Some (_, e') => e' | None => env0 end.
Definition tee_up : process :=
  mkProcess (mkRecorder 2 3 false) [] (Some Serving) Serving false false.

Lemma tee_only_never_ready_witness : rs_code (handleReadyz (p_rec tee_up)) = 503.
Proof.
  apply (tee_only_never_ready (H3 := refHost tee_env) tee_config tee_assembly env0 tee_env');
    [apply refHost_ok|vm_compute; reflexivity|reflexivity|reflexivity|simpl; lia|].
  eapply rtc_l; [apply ls_go, go_tee_ready|]. eapply rtc_l; [apply ls_go, go_server_ready|]. apply rtc_refl.
Defined.
End instances.

End Lifecycle.
