(* ===== verification/Exposition.v ===== *)
(** * The goroutines behind the metrics

    Serve of src/metrics/metrics.go, with the http.Server it starts, and the cache
    size sampler of src/main.go.

    net/http is part of the step relation as its documentation states it: after
    Shutdown has begun, ListenAndServe returns ErrServerClosed, also when it is
    called only then, and no new request is accepted; Shutdown returns when the
    requests under way are done, or with an error when its context expires, which
    is five seconds later on the clock of the model. A listener that cannot be
    opened, or breaks, is only logged. Shutdown.v takes Serve as one goroutine that
    leaves once the done channel is closed; the first theorem says why it may. *)

From S2P Require Import Prelude GoNet External RefEnv RateLimit World CacheStore Metrics.
Import GoNet External World CacheStore.

Module Exposition.

(** ** Serve *)

(** The goroutine in ListenAndServe. *)
Inductive listener := NotYet | Listening | Closed.
(** Serve itself: waiting for done, in srv.Shutdown with a context that expires at
    [deadline], returned. *)
Inductive serve_pc := AtDone | InShutdown (deadline : Z) | Returned.

Record serve_state := mkServe {
  sv_done : bool;               (* the done channel is closed *)
  sv_listener : listener;
  sv_active : nat;              (* requests under way *)
  sv_accepted : nat;            (* requests accepted so far *)
  sv_now : Z;                   (* the monotonic clock *)
  sv_pc : serve_pc;
}.

Definition serve_initial : serve_state := mkServe false NotYet 0 0 0 AtDone.

(** context.WithTimeout(context.Background(), 5*time.Second), in nanoseconds. *)
Definition shutdownTimeout : Z := 5 * 1000000000.

(** Serve's own turns: it calls Shutdown, and Shutdown returns, without an error when
    nothing is under way, with one when its context has expired. *)
Inductive serve_turn : serve_state → serve_state → Prop :=
| sv_shutdown l n a t :
    serve_turn (mkServe true l n a t AtDone)
      (mkServe true (match l with NotYet => NotYet | _ => Closed end) n a t (InShutdown (t + shutdownTimeout)))
| sv_drained d l a t dl :
    serve_turn (mkServe d l 0 a t (InShutdown dl)) (mkServe d l 0 a t Returned)
| sv_expired d l n a t dl : dl ≤ t →
    serve_turn (mkServe d l n a t (InShutdown dl)) (mkServe d l n a t Returned).

(** Turns of the others: the listening goroutine, clients, main and the clock. *)
Inductive serve_env : serve_state → serve_state → Prop :=
| sv_listen d n a t : serve_env (mkServe d NotYet n a t AtDone) (mkServe d Listening n a t AtDone)
| sv_refused d n a t pc : pc ≠ AtDone → serve_env (mkServe d NotYet n a t pc) (mkServe d Closed n a t pc)
| sv_broken d l n a t pc : serve_env (mkServe d l n a t pc) (mkServe d Closed n a t pc)
| sv_accept d n a t pc : serve_env (mkServe d Listening n a t pc) (mkServe d Listening (S n) (S a) t pc)
| sv_answer d l n a t pc : serve_env (mkServe d l (S n) a t pc) (mkServe d l n a t pc)
| sv_close d l n a t pc : serve_env (mkServe d l n a t pc) (mkServe true l n a t pc)
| sv_tick d l n a t t' pc : t ≤ t' → serve_env (mkServe d l n a t pc) (mkServe d l n a t' pc).

Definition serve_step (s s' : serve_state) : Prop := serve_turn s s' ∨ serve_env s s'.

(** Serve has called Shutdown at [t0], when [a0] requests had been accepted. *)
Record shutting (t0 : Z) (a0 : nat) (s : serve_state) : Prop := {
  sh_done : sv_done s = true;
  sh_closed : sv_listener s ≠ Listening;
  sh_accepted : sv_accepted s = a0;
  sh_pc : sv_pc s = InShutdown (t0 + shutdownTimeout) ∨
          sv_pc s = Returned ∧ (sv_active s = 0%nat ∨ t0 + shutdownTimeout ≤ sv_now s);
}.

Lemma shutting_step t0 a0 s s' : shutting t0 a0 s → serve_step s s' → shutting t0 a0 s'.
Proof.
  intros [Hd Hc Ha Hp] [Ht|He].
  - destruct Ht; split; simpl in *; try done; [naive_solver..|right]. split; [done|]. destruct Hp as [[= ->]|[? _]]; [by right|done].
  - destruct He; split; simpl in *; try done; destruct Hp as [Hp|[Hp Hg]]; subst; auto; right; split; auto; destruct Hg; auto; try lia.
Qed.

Lemma shutting_run t0 a0 s s' : shutting t0 a0 s → rtc serve_step s s' → shutting t0 a0 s'.
Proof. intros Hs. induction 1 as [|s s1 s' Hst _ IH]; [done|]. by eapply IH, shutting_step. Qed.

(** Serve drains for five seconds and ends. From the turn in which it calls Shutdown
    on, nothing is accepted. While a request is under way it does not return before
    five seconds have passed on the clock; when none is, or they have passed, its
    next turn is the return, however many requests are under way. *)
Theorem serve_drains (s s1 s' : serve_state) : sv_pc s = AtDone → serve_turn s s1 → rtc serve_step s1 s' →
  sv_done s = true ∧ sv_accepted s' = sv_accepted s ∧ sv_listener s' ≠ Listening ∧
  (sv_pc s' = Returned → sv_active s' = 0%nat ∨ sv_now s + 5 * 1000000000 ≤ sv_now s') ∧
  (sv_pc s' ≠ Returned →
     ((sv_active s' = 0%nat ∨ sv_now s + 5 * 1000000000 ≤ sv_now s') ↔ ∃ s2, serve_turn s' s2 ∧ sv_pc s2 = Returned)).
Proof.
  intros Hpc Ht Hr. assert (sv_done s = true ∧ shutting (sv_now s) (sv_accepted s) s1) as [Hd Hs].
  { destruct Ht as [l n a t| |]; [|done..]. split; [done|]. split; [done|by destruct l|done|by left]. }
  destruct (shutting_run _ _ _ _ Hs Hr) as [_ Hc Ha Hp]. split_and!; [done..| |].
  - intros Hret. rewrite Hret in Hp. by destruct Hp as [?|[_ ?]].
  - intros Hret. destruct Hp as [Hp|[? _]]; [|done]. unfold shutdownTimeout in Hp. destruct s' as [d l n a t pc]. simpl in *. subst pc. split.
    + intros [->|Hle]; eexists; split; [apply sv_drained|done|by apply sv_expired|done].
    + intros (s2 & Hs2 & Hs2'). inversion Hs2; subst; auto.
Qed.

(** ** The cache size sampler *)

Section sampler.
Context {E : Type} `{!Backend E}.
Context {M : Type} `{!Metrics.Meter M}.

(** One sample, int64(c.Len()), for each tick, at which the backend is in the state
    [e]. *)
Fixpoint sampleCache (rec : Metrics.Recorder) (c : Store) (ticks : list E) (m : M) : option M :=
  match ticks with
  | [] => Some m
  | e :: ticks' => m ← Metrics.CacheSize rec (i64 (Len c e)) m; sampleCache rec c ticks' m
  end.

(** The sampler never meets a missing instrument. From its first tick on, the
    gauge shows the number of entries the backend reported at the last one, and no
    other series is touched. *)
Theorem sampler_latest (rec : Metrics.Recorder) (c : Store) (ticks : list E) (m : M) :
  Metrics.MeterOk M → Metrics.complete rec →
  ∃ m', sampleCache rec c ticks m = Some m' ∧
    (∀ e, last ticks = Some e → - 2 ^ 63 ≤ Len c e < 2 ^ 63 →
       Metrics.mt_series m' "bre_cache_size" [] = Some (Len c e)) ∧
    (∀ n a, n ≠ "bre_cache_size"%string ∨ ticks = [] → Metrics.mt_series m' n a = Metrics.mt_series m n a).
Proof.
  intros Hm Hc. revert m. induction ticks as [|e ticks IH] using rev_ind; intros m.
  { exists m. by split_and!. }
  destruct (IH m) as (m1 & Hs & _ & Hother).
  assert (sampleCache rec c (ticks ++ [e]) m = Some (Metrics.mt_Record "bre_cache_size" (i64 (Len c e)) m1)) as Hr.
  { revert Hs. clear -Hc. revert m. induction ticks as [|e0 ticks IH]; intros m; simpl.
    - intros [= ->]. unfold Metrics.CacheSize. rewrite Hc. by rewrite decide_True by (by apply (bool_decide_unpack _)).
    - destruct (Metrics.CacheSize rec _ m) as [m2|]; [|done]. apply IH. }
  eexists. split; [exact Hr|]. split.
  - intros e' Hl Hrange. rewrite last_snoc in Hl. injection Hl as <-. rewrite Metrics.series_record, decide_True by done.
    f_equal. by apply i64_small.
  - intros n a [Hn|Hn]; [|by destruct ticks]. rewrite Metrics.series_record, decide_False by naive_solver.
    apply Hother. by left.
Qed.
End sampler.

(** ** Instances *)
Section instances.
Import RefEnv.
#[local] Existing Instance Metrics.ref_Meter.
#[local] Existing Instance Metrics.ref_MeterOk.

(** A slow request is under way when done is closed, and outlasts the grace. *)
Definition slow : serve_state := mkServe true Listening 1 1 7 AtDone.
Definition slow_shutting : serve_state := mkServe true Closed 1 1 7 (InShutdown (7 + shutdownTimeout)).
Definition abandoned (t : Z) : serve_state := mkServe true Closed 1 1 t Returned.
Lemma serve_drains_witness :
  rtc serve_step slow_shutting (abandoned (7 + 5 * 1000000000)) ∧
  ∀ t, rtc serve_step slow_shutting (abandoned t) → 7 + 5 * 1000000000 ≤ t.
Proof.
  split.
  - eapply rtc_l; [right; apply (sv_tick _ _ _ _ _ (7 + 5 * 1000000000)); lia|].
    eapply rtc_l; [left; apply sv_expired; unfold shutdownTimeout; lia|]. apply rtc_refl.
  - intros t Hr. destruct (serve_drains slow slow_shutting (abandoned t) eq_refl (sv_shutdown _ _ _ _) Hr)
      as (_ & _ & _ & [Hx|Hx] & _); [reflexivity|discriminate Hx|exact Hx].
Defined.

Lemma sampler_latest_witness :
  ∃ m', sampleCache Metrics.rec0 (frame_store redis 0) [env0; env0] (Metrics.mt_empty : gmap (string * Metrics.attrs) Z) = Some m' ∧
    Metrics.mt_series m' "bre_cache_size" [] = Some 0.
Proof.
  destruct (sampler_latest Metrics.rec0 (frame_store redis 0) [env0; env0] (Metrics.mt_empty : gmap (string * Metrics.attrs) Z))
    as (m' & Hm & Hl & _); [apply _|reflexivity|].
  exists m'. split; [exact Hm|]. apply (Hl env0); [reflexivity|vm_compute; done].
Defined.
End instances.

End Exposition.
