(* ===== verification/Shutdown.v ===== *)
(** * Shutdown: how run ends (main.go, from the start of the beacon to its return)

    [main_step] interleaves the goroutine main runs in with the goroutines of its
    wait group and with the recovery workers of the proxy, which are outside it.
    The ingress, tee and server goroutines step as in Lifecycle.v. Main starts the
    beacon, waits for a signal or a fatal error, drains, cancels the root context,
    closes the done channel, waits for the group, flushes the metrics and runs its
    deferred calls; a beacon that cannot start makes it return at once, with the
    deferred calls alone.

    The theorems say in which order resources are released, and that once main has
    left its select the process ends. The rank of a state bounds the turns that
    are left to main and to the wait group; turns of the recovery workers do not
    change it. *)

From S2P Require Import Prelude GoNet External RefEnv RateLimit World CacheStore Retransmit Proxy Ingress Pipeline.
From S2P Require Import GoText GoAddr Config Load Sockets Beacon Endpoint Assembly Lifecycle.
Import GoNet External World CacheStore Load Lifecycle.

Module Shutdown.

(** *** Data *)

(** What the deferred calls release. *)
Inductive resource := EgressSockets | DedupBackend | FrameBackend | TraceExporter.
#[global] Instance resource_eq_dec : EqDecision resource.
Proof. solve_decision. Defined.

(** The deferred calls of run: cancel2, cancel and the four releases. *)
Inductive dcall := CancelFlush | CancelRoot | Release (r : resource).

(** Why run returns. *)
Inductive ending := Signal | Fatal | BeaconFailed.

(** main exits with status 1 exactly when run returned an error. *)
Definition exitStatus (en : ending) : Z := match en with Signal => 0 | Fatal | BeaconFailed => 1 end.

(** A recovery worker of proxy.Start. *)
Inductive ppc := Idle | Recovering | Gone.

(** Where main is. *)
Inductive mpc :=
| StartingBeacon | Selecting
| Draining (en : ending) | Sleeping (en : ending) | Cancelling (en : ending) | ClosingDone (en : ending)
| Waiting (en : ending) | Flushing (en : ending)
| Unwinding (en : ending) (todo : list dcall) | Ended (en : ending).

Record mainstate := mkMain {
  m_proc : process;             (* ingress, tee, server; recorder; fatalCh; ctx *)
  m_metrics : bool;             (* rec.Serve is running *)
  m_sampler : bool;             (* the cache size sampler is running *)
  m_beacon : bool;              (* the beacon sender is running *)
  m_proxies : list ppc;
  m_done : bool;                (* the done channel is closed *)
  m_flushed : bool;             (* rec.Shutdown has been called *)
  m_closed : list resource;     (* released, first to last *)
  m_pc : mpc;
}.

Definition with_proc (p : process) (st : mainstate) : mainstate :=
  mkMain p (m_metrics st) (m_sampler st) (m_beacon st) (m_proxies st) (m_done st) (m_flushed st) (m_closed st) (m_pc st).
Definition with_metrics (b : bool) (st : mainstate) : mainstate :=
  mkMain (m_proc st) b (m_sampler st) (m_beacon st) (m_proxies st) (m_done st) (m_flushed st) (m_closed st) (m_pc st).
Definition with_sampler (b : bool) (st : mainstate) : mainstate :=
  mkMain (m_proc st) (m_metrics st) b (m_beacon st) (m_proxies st) (m_done st) (m_flushed st) (m_closed st) (m_pc st).
Definition with_beacon (b : bool) (st : mainstate) : mainstate :=
  mkMain (m_proc st) (m_metrics st) (m_sampler st) b (m_proxies st) (m_done st) (m_flushed st) (m_closed st) (m_pc st).
Definition with_proxies (l : list ppc) (st : mainstate) : mainstate :=
  mkMain (m_proc st) (m_metrics st) (m_sampler st) (m_beacon st) l (m_done st) (m_flushed st) (m_closed st) (m_pc st).
Definition close_done (st : mainstate) : mainstate :=
  mkMain (m_proc st) (m_metrics st) (m_sampler st) (m_beacon st) (m_proxies st) true (m_flushed st) (m_closed st) (m_pc st).
Definition flush (st : mainstate) : mainstate :=
  mkMain (m_proc st) (m_metrics st) (m_sampler st) (m_beacon st) (m_proxies st) (m_done st) true (m_closed st) (m_pc st).
Definition release (r : resource) (st : mainstate) : mainstate :=
  mkMain (m_proc st) (m_metrics st) (m_sampler st) (m_beacon st) (m_proxies st) (m_done st) (m_flushed st)
    (m_closed st ++ [r]) (m_pc st).
Definition at_pc (pc : mpc) (st : mainstate) : mainstate :=
  mkMain (m_proc st) (m_metrics st) (m_sampler st) (m_beacon st) (m_proxies st) (m_done st) (m_flushed st) (m_closed st) pc.

Definition run_deferred (d : dcall) (st : mainstate) : mainstate :=
  match d with
  | CancelFlush => st
  | CancelRoot => with_proc (cancel (m_proc st)) st
  | Release r => release r st
  end.

(** The phases of the goroutines of a process, weighed. *)
Definition weight (w : phase → nat) (p : process) : nat :=
  (sum_list_with w (p_workers p) + from_option w 0 (p_tee p) + w (p_server p))%nat.
Definition helpers (st : mainstate) : nat :=
  (Nat.b2n (m_metrics st) + Nat.b2n (m_sampler st) + Nat.b2n (m_beacon st))%nat.

(** The counter of the wait group. *)
Definition live (p : phase) : nat := match p with Exited => 0 | _ => 1 end.
Definition wg (st : mainstate) : nat := (weight live (m_proc st) + helpers st)%nat.

(** *** The steps *)
Section machine.
Context (cfg : Config) (rel : list resource).

(** The deferred calls, last deferred first, before cancel2 is added. *)
Definition deferred : list dcall := CancelRoot :: (Release <$> rel).

Inductive main_turn : mainstate → mainstate → Prop :=
| mt_beacon st : m_pc st = StartingBeacon →
    main_turn st (at_pc Selecting (with_beacon (f_BeaconEnabled cfg) st))
| mt_beacon_fails st : m_pc st = StartingBeacon → f_BeaconEnabled cfg = true →
    main_turn st (at_pc (Unwinding BeaconFailed deferred) st)
| mt_signal st : m_pc st = Selecting → main_turn st (at_pc (Draining Signal) st)
| mt_fatal st : m_pc st = Selecting → p_fatal (m_proc st) = true → main_turn st (at_pc (Draining Fatal) st)
| mt_drain st en : m_pc st = Draining en → 0 < f_DrainTimeout cfg →
    main_turn st (at_pc (Sleeping en) (with_proc (drain (m_proc st)) st))
| mt_no_drain st en : m_pc st = Draining en → f_DrainTimeout cfg ≤ 0 → main_turn st (at_pc (Cancelling en) st)
| mt_wake st en : m_pc st = Sleeping en → main_turn st (at_pc (Cancelling en) st)
| mt_cancel st en : m_pc st = Cancelling en →
    main_turn st (at_pc (ClosingDone en) (with_proc (cancel (m_proc st)) st))
| mt_done st en : m_pc st = ClosingDone en → main_turn st (at_pc (Waiting en) (close_done st))
| mt_waited st en : m_pc st = Waiting en → wg st = 0%nat → main_turn st (at_pc (Flushing en) st)
| mt_flush st en : m_pc st = Flushing en →
    main_turn st (at_pc (Unwinding en (CancelFlush :: deferred)) (flush st))
| mt_unwind st en d todo : m_pc st = Unwinding en (d :: todo) →
    main_turn st (at_pc (Unwinding en todo) (run_deferred d st))
| mt_return st en : m_pc st = Unwinding en [] → main_turn st (at_pc (Ended en) st).

(** A turn of main or of a goroutine of its wait group. *)
Inductive own_step : mainstate → mainstate → Prop :=
| os_main st st' : main_turn st st' → own_step st st'
| os_go st p' : go_step (m_proc st) p' → own_step st (with_proc p' st)
| os_metrics st : m_metrics st = true → m_done st = true → own_step st (with_metrics false st)
| os_sampler st : m_sampler st = true → p_cancelled (m_proc st) = true → own_step st (with_sampler false st)
| os_beacon st : m_beacon st = true → own_step st (with_beacon false st).

(** A turn of a recovery worker: take a job, finish it, or leave. The choice
    between a job and the cancelled context is not ordered. *)
Inductive proxy_step : mainstate → mainstate → Prop :=
| px_take st i : m_proxies st !! i = Some Idle → proxy_step st (with_proxies (<[i := Recovering]> (m_proxies st)) st)
| px_done st i : m_proxies st !! i = Some Recovering → proxy_step st (with_proxies (<[i := Idle]> (m_proxies st)) st)
| px_leave st i : m_proxies st !! i = Some Idle → p_cancelled (m_proc st) = true →
    proxy_step st (with_proxies (<[i := Gone]> (m_proxies st)) st).

Definition main_step (st st' : mainstate) : Prop := own_step st st' ∨ proxy_step st st'.

(** *** Reading a state *)

Definition stage (pc : mpc) : nat :=
  match pc with
  | StartingBeacon => 0 | Selecting => 1 | Draining _ => 2 | Sleeping _ => 3 | Cancelling _ => 4
  | ClosingDone _ => 5 | Waiting _ => 6 | Flushing _ => 7 | Unwinding _ _ => 8 | Ended _ => 9
  end.

Definition ending_of (pc : mpc) : option ending :=
  match pc with
  | StartingBeacon | Selecting => None
  | Draining en | Sleeping en | Cancelling en | ClosingDone en | Waiting en | Flushing en
  | Unwinding en _ | Ended en => Some en
  end.

(** Run is not returning because the beacon could not start. *)
Definition orderly (st : mainstate) : Prop := ending_of (m_pc st) ≠ Some BeaconFailed.

Definition released (d : dcall) : option resource := match d with Release r => Some r | _ => None end.
Definition pending (pc : mpc) : list resource :=
  match pc with Unwinding _ todo => omap released todo | Ended _ => [] | _ => rel end.
End machine.

(** The resources of an assembled endpoint in the order in which run acquires them and
    defers their release: a dedup backend of its own exists only beside the memory
    backend. Deferred calls run last to first. *)
Definition acquired {B : Type} (cfg : Config) (dedup : option B) : list resource :=
  [TraceExporter; FrameBackend] ++
  (if decide (f_CacheBackend cfg = "memory"%string ∧ is_Some dedup) then [DedupBackend] else []) ++
  [EgressSockets].
Definition releases {B : Type} (cfg : Config) (dedup : option B) : list resource := reverse (acquired cfg dedup).

(** The goroutines when main comes to the start of the beacon. *)
Definition launched {W : Type} (cfg : Config) (ings : list W) : mainstate :=
  mkMain (launch cfg ings) true (bool_decide (f_CacheBackend cfg = "memory"%string)) false
    (if f_ProxyEnabled cfg then replicate (Z.to_nat (ProxyWorkers cfg)) Idle else []) false false [] StartingBeacon.

(** ** Lemmas *)

Lemma sum_insert (w : phase → nat) ws i p q : ws !! i = Some p →
  (sum_list_with w (<[i := q]> ws) + w p = sum_list_with w ws + w q)%nat.
Proof.
  revert i. induction ws as [|x ws IH]; intros [|i]; simpl; try done.
  - intros [= ->]. lia.
  - intros Hi%IH. lia.
Qed.

(** A goroutine only moves forward. *)
Definition forward (ph ph' : phase) : Prop :=
  match ph, ph' with Starting, Serving | Starting, Exited | Serving, Exited => True | _, _ => False end.

(** A turn moves one goroutine forward and touches neither the context nor the
    draining flag. *)
Lemma go_step_moves p p' : go_step p p' →
  p_cancelled p' = p_cancelled p ∧ draining (p_rec p') = draining (p_rec p) ∧
  (p_fatal p = true → p_fatal p' = true) ∧
  ∃ ph ph', forward ph ph' ∧ ∀ w, (weight w p' + w ph = weight w p + w ph')%nat.
Proof.
  assert (∀ b c, b = true → b || c = true) by (intros [] c; done).
  destruct 1; simpl; (split_and!; [done|done|by auto|]).
  1,4,7: exists Starting, Serving.
  4,6,8: exists Starting, Exited.
  7,8,9: exists Serving, Exited.
  all: split; [done|]; intros w; unfold weight; simpl; try lia.
  all: match goal with H : ?ws !! ?i = Some ?p |- context [<[_ := ?q]> _] => pose proof (sum_insert w ws i p q H) end; lia.
Qed.

(** What main's position says about the rest of the state. *)
Record main_ok (cfg : Config) (rel : list resource) (st : mainstate) : Prop := {
  mo_early : (stage (m_pc st) < 5)%nat → p_cancelled (m_proc st) = false;
  mo_cancel : orderly st → (5 ≤ stage (m_pc st))%nat → p_cancelled (m_proc st) = true;
  mo_done : orderly st → (6 ≤ stage (m_pc st))%nat → m_done st = true;
  mo_quiet : orderly st → (7 ≤ stage (m_pc st))%nat → wg st = 0%nat;
  mo_flush : orderly st → (8 ≤ stage (m_pc st))%nat → m_flushed st = true;
  mo_drain : orderly st → (3 ≤ stage (m_pc st))%nat → 0 < f_DrainTimeout cfg → draining (p_rec (m_proc st)) = true;
  mo_fatal : ending_of (m_pc st) = Some Fatal → p_fatal (m_proc st) = true;
  mo_beacon : ending_of (m_pc st) = Some BeaconFailed → (8 ≤ stage (m_pc st))%nat;
  mo_order : m_closed st ++ pending rel (m_pc st) = rel;
}.

(** A turn of another goroutine than main. *)
Lemma main_ok_move cfg rel st st' : main_ok cfg rel st →
  m_pc st' = m_pc st → m_closed st' = m_closed st → m_done st' = m_done st → m_flushed st' = m_flushed st →
  p_cancelled (m_proc st') = p_cancelled (m_proc st) →
  draining (p_rec (m_proc st')) = draining (p_rec (m_proc st)) →
  (p_fatal (m_proc st) = true → p_fatal (m_proc st') = true) → (wg st' ≤ wg st)%nat → main_ok cfg rel st'.
Proof.
  intros [] Hpc Hcl Hd Hf Hc Hdr Hfat Hwg.
  assert (orderly st' → orderly st) by (unfold orderly; by rewrite Hpc).
  split; rewrite ?Hpc, ?Hcl, ?Hd, ?Hf, ?Hc, ?Hdr; try by auto.
  intros Ho Hs. assert (wg st = 0%nat) by auto. lia.
Qed.

Lemma go_wg st p' : go_step (m_proc st) p' → (wg (with_proc p' st) ≤ wg st)%nat.
Proof.
  intros (_ & _ & _ & ph & ph' & Hf & Hw)%go_step_moves. specialize (Hw live). unfold wg, helpers. simpl.
  destruct ph, ph'; simpl in *; try done; lia.
Qed.

(** A deferred call releases its resource and keeps everything else, cancelling
    the context at most. *)
Lemma run_deferred_ok cfg rel st en d todo : m_pc st = Unwinding en (d :: todo) → main_ok cfg rel st →
  main_ok cfg rel (at_pc (Unwinding en todo) (run_deferred d st)).
Proof.
  intros Hpc [He Hc Hd Hq Hf Hdr Hfat Hb Ho]. unfold orderly in *. rewrite Hpc in *. simpl in *.
  split; simpl in *; unfold orderly; simpl; destruct d; simpl in *; try (auto; lia); try (intros; lia).
  by rewrite <- app_assoc.
Qed.

Lemma released_all (rel : list resource) : omap released (Release <$> rel) = rel.
Proof. induction rel as [|r rel IH]; [done|]. csimpl. by rewrite IH. Qed.

Lemma main_turn_ok cfg rel st st' : main_turn cfg rel st st' → main_ok cfg rel st → main_ok cfg rel st'.
Proof.
  intros Ht Hok. destruct Ht as [st Hpc|st Hpc|st Hpc|st Hpc|st en Hpc|st en Hpc|st en Hpc|st en Hpc|st en Hpc|
    st en Hpc|st en Hpc|st en d todo Hpc|st en Hpc].
  12: by apply run_deferred_ok.
  all: destruct Hok as [He Hc Hd Hq Hf Hdr Hfat Hb Ho]; unfold orderly in *; rewrite Hpc in *; simpl in *.
  all: split; simpl in *; unfold orderly; simpl; try (intros; lia); try by auto with lia.
  all: try (intros; exfalso; congruence).
  all: change (m_closed st ++ omap released (Release <$> rel) = rel); by rewrite released_all.
Qed.

Lemma main_step_ok cfg rel st st' : main_step cfg rel st st' → main_ok cfg rel st → main_ok cfg rel st'.
Proof.
  intros [[? ? Ht|? p' Hg|? Hm|? Hm|? Hm]|Hx] Hok; [by eapply main_turn_ok| | | | |destruct Hx].
  all: eapply main_ok_move; try exact Hok; try done.
  1-3: by apply go_step_moves in Hg as (? & ? & ? & _).
  1: by apply go_wg.
  all: unfold wg, helpers; simpl; rewrite Hm; simpl; lia.
Qed.

Lemma steps_ok cfg rel st st' : rtc (main_step cfg rel) st st' → main_ok cfg rel st → main_ok cfg rel st'.
Proof. induction 1 as [|? ? ? Hs _ IH]; [done|]. intros Hok. by apply IH, (main_step_ok _ _ _ _ Hs). Qed.

Lemma launched_main_ok {W : Type} cfg rel (ings : list W) : main_ok cfg rel (launched cfg ings).
Proof. by split; simpl; try (intros; lia). Qed.

Lemma reachable_main {W : Type} cfg rel (ings : list W) st :
  rtc (main_step cfg rel) (launched cfg ings) st → main_ok cfg rel st.
Proof.
  intros Hr. eapply steps_ok; [done|]. apply launched_main_ok.
Qed.

(** Seen from the readiness counter, main is one of the runs of Lifecycle.v. *)
Lemma main_step_life cfg rel st st' : main_step cfg rel st st' →
  rtc (life_step cfg) (m_proc st) (m_proc st').
Proof.
  intros [[? ? Ht|? p' Hg|? Hm|? Hm|? Hm]|[]]; simpl; try apply rtc_refl; [|by apply rtc_once, ls_go].
  destruct Ht as [| | | | | | | | | | |? ? [] |]; simpl; try apply rtc_refl; apply rtc_once; by constructor.
Qed.

Lemma main_life {W : Type} cfg rel (ings : list W) st : rtc (main_step cfg rel) (launched cfg ings) st →
  rtc (life_step cfg) (launch cfg ings) (m_proc st).
Proof.
  change (launch cfg ings) with (m_proc (launched cfg ings)).
  induction 1 as [|st1 st2 st3 Hs _ IH]; [apply rtc_refl|].
  etrans; [by eapply main_step_life|done].
Qed.

(** *** Progress *)

Lemma live_worker ws : (0 < sum_list_with live ws)%nat → ∃ i ph, ws !! i = Some ph ∧ ph ≠ Exited.
Proof.
  induction ws as [|ph ws IH]; simpl; [lia|]. intros Hs.
  destruct (decide (ph = Exited)) as [->|Hp]; [|by exists 0%nat, ph].
  destruct IH as (i & ph' & ? & ?); [done|]. by exists (S i), ph'.
Qed.

(** After the cancellation every goroutine that is up can take its next turn. *)
Lemma go_enabled p : p_cancelled p = true → (0 < weight live p)%nat → ∃ p', go_step p p'.
Proof.
  destruct p as [r ws t s f c]. unfold weight. simpl. intros -> Hw.
  destruct (decide (0 < sum_list_with live ws)%nat) as [(i & [] & Hi & Hp)%live_worker|Hz]; [| |done|].
  - eexists. by apply go_worker_error with (i := i).
  - eexists. by apply go_worker_return with (i := i).
  - destruct t as [[]|]; [eexists; apply go_tee_error|eexists; apply go_tee_return| |];
      (destruct s; simpl in *; [eexists; apply go_server_error|eexists; apply go_server_return|lia]).
Qed.

Lemma wait_enabled cfg rel st : p_cancelled (m_proc st) = true → m_done st = true → wg st ≠ 0%nat →
  ∃ st', own_step cfg rel st st'.
Proof.
  intros Hc Hd Hw. destruct (m_metrics st) eqn:Hm; [eexists; by apply os_metrics|].
  destruct (m_sampler st) eqn:Hs; [eexists; by apply os_sampler|].
  destruct (m_beacon st) eqn:Hb; [eexists; by apply os_beacon|].
  destruct (go_enabled (m_proc st)) as [p' Hp]; [done| |eexists; by apply os_go].
  revert Hw. unfold wg, helpers. rewrite Hm, Hs, Hb. simpl. lia.
Qed.

Lemma main_enabled cfg rel st : main_ok cfg rel st → (2 ≤ stage (m_pc st))%nat → (stage (m_pc st) ≠ 9)%nat →
  ∃ st', own_step cfg rel st st'.
Proof.
  intros [_ Hc Hd _ _ _ _ Hb _] H2 H9. unfold orderly in *.
  destruct (m_pc st) as [| |en|en|en|en|en|en|en [|d todo]|en] eqn:Hpc; simpl in *; try lia.
  - destruct (Z.le_gt_cases (f_DrainTimeout cfg) 0); eexists; apply os_main;
      [by eapply mt_no_drain|by eapply mt_drain].
  - eexists. by eapply os_main, mt_wake.
  - eexists. by eapply os_main, mt_cancel.
  - eexists. by eapply os_main, mt_done.
  - assert (Some en ≠ Some BeaconFailed) by (intros Heq; specialize (Hb Heq); lia).
    destruct (decide (wg st = 0%nat)); [eexists; by eapply os_main, mt_waited|].
    apply wait_enabled; [apply Hc|apply Hd|]; auto; lia.
  - eexists. by eapply os_main, mt_flush.
  - eexists. by eapply os_main, mt_return.
  - eexists. by eapply os_main, mt_unwind.
Qed.

(** The turns that are left to a goroutine, and to main. *)
Definition left (p : phase) : nat := match p with Starting => 2 | Serving => 1 | Exited => 0 end.
Definition pc_rank (rel : list resource) (pc : mpc) : nat :=
  match pc with
  | Ended _ => 0
  | Unwinding _ todo => 1 + length todo
  | Flushing _ => 4 + length rel
  | Waiting _ => 5 + length rel
  | ClosingDone _ => 6 + length rel
  | Cancelling _ => 7 + length rel
  | Sleeping _ => 8 + length rel
  | Draining _ => 9 + length rel
  | Selecting => 10 + length rel
  | StartingBeacon => 12 + length rel
  end.
Definition rank (rel : list resource) (st : mainstate) : nat :=
  (weight left (m_proc st) + helpers st + pc_rank rel (m_pc st))%nat.

Lemma own_step_rank cfg rel st st' : own_step cfg rel st st' → (rank rel st' < rank rel st)%nat.
Proof.
  intros [? ? Ht|? p' Hg|? Hm|? Hm|? Hm]; unfold rank, helpers; simpl; try (rewrite Hm; simpl; lia).
  - destruct Ht as [? Hpc|? Hpc|? Hpc|? Hpc|? ? Hpc|? ? Hpc|? ? Hpc|? ? Hpc|? ? Hpc|? ? Hpc|? ? Hpc|? ? [] ? Hpc|? ? Hpc];
      rewrite Hpc; unfold deferred, weight; simpl; rewrite ?length_fmap; try destruct (f_BeaconEnabled cfg); simpl; lia.
  - apply go_step_moves in Hg as (_ & _ & _ & ph & ph' & Hf & Hw). specialize (Hw left).
    destruct ph, ph'; simpl in *; try done; lia.
Qed.

Lemma proxy_steps_rank rel st st' : rtc proxy_step st st' → rank rel st' = rank rel st ∧ m_pc st' = m_pc st.
Proof. induction 1 as [|? ? ? Hs _ [IH1 IH2]]; [done|]. rewrite IH1, IH2. by destruct Hs. Qed.

Lemma own_step_stage cfg rel st st' : own_step cfg rel st st' → (2 ≤ stage (m_pc st))%nat → (2 ≤ stage (m_pc st'))%nat.
Proof.
  intros [? ? Ht| | | |]; try done.
  destruct Ht as [? Hpc|? Hpc|? Hpc|? Hpc|? ? Hpc|? ? Hpc|? ? Hpc|? ? Hpc|? ? Hpc|? ? Hpc|? ? Hpc|? ? ? ? Hpc|? ? Hpc];
    rewrite Hpc; simpl; lia.
Qed.

(** However the recovery workers' turns are mixed in, main or a goroutine of its
    wait group can go on, and after finitely many of their turns [P] holds. *)
Inductive inevitably (cfg : Config) (rel : list resource) (P : mainstate → Prop) (st : mainstate) : Prop :=
| inev_now : P st → inevitably cfg rel P st
| inev_next :
    (∀ st1, rtc proxy_step st st1 → ∃ st2, own_step cfg rel st1 st2) →
    (∀ st1 st2, rtc proxy_step st st1 → own_step cfg rel st1 st2 → inevitably cfg rel P st2) →
    inevitably cfg rel P st.

(** The process has ended with everything released. *)
Definition ended (rel : list resource) (st : mainstate) : Prop :=
  ∃ en, m_pc st = Ended en ∧ m_closed st = rel.

Lemma main_completes cfg rel n : ∀ st, (rank rel st < n)%nat → main_ok cfg rel st → (2 ≤ stage (m_pc st))%nat →
  inevitably cfg rel (ended rel) st.
Proof.
  induction n as [|n IH]; [lia|]. intros st Hn Hok H2.
  destruct (decide (stage (m_pc st) = 9%nat)) as [H9|H9].
  { apply inev_now. pose proof (mo_order _ _ _ Hok) as Ho. destruct (m_pc st) as [| | | | | | | | |en] eqn:Hpc; try done.
    simpl in Ho. rewrite app_nil_r in Ho. by exists en. }
  assert (∀ st1, rtc proxy_step st st1 → main_ok cfg rel st1) as Hpx.
  { intros st1 Hr. eapply steps_ok, Hok. eapply rtc_subrel; [|exact Hr]. by right. }
  apply inev_next.
  - intros st1 Hr. destruct (proxy_steps_rank rel _ _ Hr) as [_ Hpc]. by apply main_enabled; [auto|rewrite Hpc..].
  - intros st1 st2 Hr Hs. destruct (proxy_steps_rank rel _ _ Hr) as [Hrk Hpc].
    pose proof (own_step_rank _ _ _ _ Hs). apply IH; [lia| |].
    + eapply main_step_ok; [by left|auto].
    + eapply own_step_stage; [done|by rewrite Hpc].
Qed.

(** Nothing is released before main unwinds. *)
Lemma closed_stage cfg rel st : main_ok cfg rel st → m_closed st ≠ [] → (8 ≤ stage (m_pc st))%nat.
Proof.
  intros Hok Hne. pose proof (mo_order _ _ _ Hok) as Ho.
  destruct (m_pc st); simpl in *; try lia.
  all: destruct Hne; apply (app_inv_tail rel); done.
Qed.

(** ** Theorems *)
Section model.
Context {E : Type} `{!RateLib E, !OS E, !Backend E, !FetchNet E, !Kernel E, !FrameLib, !ShardLib, !ScopeLib, !TeeWire}.
Context `{!Host, !Assembly.MainEnv E}.

(** C24: The order of the end. In every reachable state of an assembled endpoint
    the resources released so far are a prefix of this list: the egress sockets, the
    dedup backend if it is one of its own, the frame backend, the trace exporter. Unless
    the beacon could not start, nothing is released before every goroutine of the
    wait group has exited, the context is cancelled and the metrics are flushed; if it
    could not, run returns at once and releases the same list without waiting. With a
    drain timeout /readyz has answered 503 since before the cancellation. When the
    process has ended everything is released, and it exits with status 1 only after
    an ingress or tee error or a failed start of the beacon. *)
Theorem shutdown_order (cfg : Config) (a : Assembly.assembly (E := E)) (st : mainstate) :
  let own_dedup := bool_decide (f_CacheBackend cfg = "memory"%string ∧ is_Some (Assembly.as_dedup a)) in
  let order := if own_dedup then [EgressSockets; DedupBackend; FrameBackend; TraceExporter]
               else [EgressSockets; FrameBackend; TraceExporter] in
  rtc (main_step cfg (releases cfg (Assembly.as_dedup a))) (launched cfg (Assembly.as_ings a)) st →
  m_closed st `prefix_of` order ∧
  (orderly st → m_closed st ≠ [] →
     wg st = 0%nat ∧ p_cancelled (m_proc st) = true ∧ m_done st = true ∧ m_flushed st = true) ∧
  (orderly st → p_cancelled (m_proc st) = true → 0 < f_DrainTimeout cfg →
     rs_code (handleReadyz (p_rec (m_proc st))) = 503) ∧
  (∀ en, m_pc st = Ended en → m_closed st = order ∧
     (exitStatus en = 1 → en = BeaconFailed ∨ p_fatal (m_proc st) = true)).
Proof.
  intros own order Hr.
  assert (releases cfg (Assembly.as_dedup a) = order) as Hrel.
  { unfold order, own, releases, acquired. case_decide; [by rewrite bool_decide_true|by rewrite bool_decide_false]. }
  rewrite Hrel in Hr. clearbody order. apply reachable_main in Hr as Hok. pose proof (mo_order _ _ _ Hok) as Ho. split_and!.
  - by exists (pending order (m_pc st)).
  - intros Hor Hne. apply (closed_stage _ _ _ Hok) in Hne as H8. destruct Hok. split_and!; auto with lia.
  - intros Hor Hc Hd. unfold handleReadyz. rewrite (mo_drain _ _ _ Hok Hor); [done| |done].
    destruct (decide (stage (m_pc st) < 5)%nat) as [H5|]; [|lia].
    rewrite (mo_early _ _ _ Hok H5) in Hc. discriminate Hc.
  - intros en Hen. rewrite Hen in Ho. simpl in Ho. rewrite app_nil_r in Ho. split; [done|].
    destruct en; [done| |by left]. intros _. right. apply (mo_fatal _ _ _ Hok). by rewrite Hen.
Qed.

(** C25: Once main has left its select, by a signal or a fatal error, the process
    ends with everything released, however the goroutines are scheduled: main and
    the wait group are never stuck, and have only finitely many turns left, even
    while recovery workers go on. In particular no goroutine blocks on the fatal
    channel after main stopped reading it. *)
Theorem shutdown_completes (cfg : Config) (a : Assembly.assembly (E := E)) (st : mainstate) :
  let rel := releases cfg (Assembly.as_dedup a) in
  rtc (main_step cfg rel) (launched cfg (Assembly.as_ings a)) st → ending_of (m_pc st) ≠ None →
  inevitably cfg rel (ended rel) st.
Proof.
  intros rel Hr Hen. eapply main_completes; [apply Nat.lt_succ_diag_r|by eapply reachable_main|].
  destruct (m_pc st); simpl in *; try done; lia.
Qed.
End model.

(** ** Instances *)
Section instances.
Import RefEnv Assembly.

#[local] Existing Instance Assembly.ref_MainEnv.
#[local] Existing Instance Assembly.ref_host.

Definition ref_rel : list resource := releases ref_config (as_dedup ref_assembly).
Definition ref_steps : mainstate → mainstate → Prop := rtc (main_step ref_config ref_rel).
Definition ref_launched : mainstate := launched ref_config (as_ings ref_assembly).

(** One turn of main, of a goroutine, of a recovery worker. *)
#[local] Ltac turn c := eapply rtc_l; [left; eapply os_main, c; first [done|simpl; lia]|].
#[local] Ltac goes c := eapply rtc_l; [left; eapply os_go, c; done|].
#[local] Ltac helper c := eapply rtc_l; [left; eapply c; done|].
#[local] Ltac recovers c i := eapply rtc_l; [right; apply (c _ i); done|].

(** A signal arrives while the first recovery worker is busy. *)
Definition signalled : mainstate :=
  mkMain (launch ref_config (as_ings ref_assembly)) true true true [Recovering; Idle; Idle; Idle] false false []
    (Draining Signal).

Lemma signalled_reachable : ref_steps ref_launched signalled.
Proof. recovers px_take 0%nat. turn mt_beacon. turn mt_signal. apply rtc_refl. Qed.

(** Main has waited for its group and released the egress sockets. *)
Definition unwound : mainstate :=
  mkMain (mkProcess (mkRecorder 0 1 false) [Exited] (Some Exited) Exited false true) false false false
    [Recovering; Idle; Idle; Idle] true true [EgressSockets]
    (Unwinding Signal [Release FrameBackend; Release TraceExporter]).

Lemma unwound_reachable : ref_steps ref_launched unwound.
Proof.
  etrans; [apply signalled_reachable|]. turn mt_no_drain. turn mt_cancel. turn mt_done.
  helper os_metrics. helper os_sampler. helper os_beacon.
  eapply rtc_l; [left; eapply os_go, (go_worker_error _ _ _ _ _ _ 0%nat); done|]. goes go_tee_error. goes go_server_error.
  turn mt_waited. turn mt_flush. turn mt_unwind. turn mt_unwind. turn mt_unwind. apply rtc_refl.
Qed.

Lemma shutdown_order_witness : wg unwound = 0%nat ∧ m_flushed unwound = true.
Proof.
  destruct (shutdown_order ref_config ref_assembly unwound) as (_ & Hq & _); [apply unwound_reachable|].
  destruct Hq as (? & _ & _ & ?); [discriminate|discriminate|done].
Defined.

Lemma shutdown_completes_witness : inevitably ref_config ref_rel (ended ref_rel) signalled.
Proof. apply (shutdown_completes ref_config ref_assembly); [apply signalled_reachable|discriminate]. Defined.

(** The recovery workers are not in the wait group: one can be in the middle of a
    recovery when the sockets it sends on are closed. *)
Example recovery_outlives_sockets :
  ref_steps ref_launched unwound ∧ EgressSockets ∈ m_closed unwound ∧ m_proxies unwound !! 0%nat = Some Recovering.
Proof. split_and!; [apply unwound_reachable|constructor|done]. Qed.
End instances.
End Shutdown.
