(* ===== verification/Boot.v ===== *)
(** * The start of run

    Composes the start-up of src/main.go from its first line to the launch of the
    goroutines: Load, the logger with its level, the metrics recorder with its info
    gauges, tracing, the assembly of Assembly.v, the worker count of readiness, the
    SSM rosters and the series created in advance, in that order and with every
    early return. The logging and tracing packages are operations of [BootEnv]; a
    failed tracing set-up is only logged.

    The theorem shows what the starvation alert of the recorder can rely on from
    the moment the endpoint is up. *)

From S2P Require Import Prelude GoNet External RefEnv RateLimit World CacheStore Retransmit Proxy Server Ingress.
From S2P Require Import GoText GoAddr Config Load Sockets Beacon Endpoint Assembly Metrics Lifecycle.
From Stdlib Require Import Strings.Byte.
Import GoNet External World CacheStore GoAddr Load Endpoint Assembly.

Module Boot.

(** logging.Options *)
Record logOptions := mkLogOptions {
  lo_Service : string; lo_InstanceID : string; lo_Version : string; lo_Level : Z; lo_Format : Z;
}.
(** slog.LevelDebug *)
Definition LevelDebug : Z := -4.

(** The packages run calls first: logging, whose Init returns the variable of the
    level; hostinfo.Gather, the registration of an info gauge by name, tracing.Init
    with its endpoint and sampling rate. *)
Class BootEnv (E : Type) := {
  logging_ParseLevel : string → Z;
  logging_ParseFormat : string → Z;
  logging_Init : logOptions → E → option Z * E;
  logging_InstallSIGHUPToggle : option Z → Z → E → unit * E;
  hostinfo_Gather : E → Metrics.inventory * E;
  prom_Register : string → E → option gerror * E;
  tracing_Init : string → float64 → E → option gerror * E;
}.

Section model.
Context {E : Type} `{!RateLib E, !OS E, !Backend E, !FetchNet E, !Kernel E, !FrameLib, !ShardLib, !ScopeLib, !TeeWire}.
Context `{!Host, !MainEnv E, !Metrics.Telemetry E, !BootEnv E}.
Context {M : Type} `{!Metrics.Meter M}.
Context (resolve : list string → E → (list addr + gerror) * E) (aliased : bool).

(** What run has built when it launches the goroutines. *)
Record booted := mkBooted {
  bt_cfg : Config;
  bt_rec : Metrics.Recorder;
  bt_host : option (list string);      (* labels of bre_host_info *)
  bt_own : option string;              (* label of bre_own_source_info *)
  bt_assembly : assembly (E := E);
  bt_ings : list (Ingress.Worker (E := E));
  bt_meter : M;
  bt_process : Lifecycle.process;
}.

Definition setHostInfo : GoM E (option (list string)) :=
  inv ← lift_state hostinfo_Gather;
  err ← lift_state (prom_Register "bre_host_info");
  mret (Metrics.SetHostInfo (bool_decide (err = None)) inv).

(** The gauge is registered only for a source that parses. *)
Definition setOwnSource (src : string) : GoM E (option string) :=
  match ParseAddr src with
  | None => mret None
  | Some _ =>
      err ← lift_state (prom_Register "bre_own_source_info");
      mret (Metrics.SetOwnSource (bool_decide (err = None)) src)
  end.

(** The logger; -debug overrides the level. *)
Definition initLogging (cfg : Config) : GoM E (option Z) :=
  let logLevel := if f_Debug cfg then LevelDebug else logging_ParseLevel (f_LogLevel cfg) in
  levelVar ← lift_state (logging_Init (mkLogOptions Metrics.ServiceName (f_InstanceID cfg) Metrics.Version
                           logLevel (logging_ParseFormat (f_LogFormat cfg))));
  _ ← lift_state (logging_InstallSIGHUPToggle levelVar logLevel);
  mret levelVar.

(** The flag package ends the process on a bad command line. *)
Definition boot : GoM E (booted + gerror) :=
  match Load with
  | None => gpanic
  | Some (inr err) => mret (inr err)
  | Some (inl cfg) =>
      levelVar ← initLogging cfg;
      etry (lift_state (Metrics.New (f_InstanceID cfg) (f_OTLPEndpoint cfg))) id (λ rec,
      let rec := Metrics.SetLevelVar levelVar rec in
      host ← setHostInfo;
      own ← setOwnSource (f_BindSource cfg);
      _ ← lift_state (tracing_Init (f_OTLPEndpoint cfg) (f_TraceSampling cfg));
      etry (assemble cfg) id (λ a,
      etry (startSSM resolve aliased cfg (as_ings a)) id (λ r,
      m ← liftO (Metrics.PreCreateSources rec r.2 (Metrics.mt_empty : M));
      mret (inl (mkBooted cfg rec host own a r.1 m (Lifecycle.launch cfg (as_ings a)))))))
  end.

(** ** Lemmas *)

Lemma elem_of_rosters (gs : gmap bytes (list addr)) a :
  a ∈ concat (map_to_list gs).*2 ↔ ∃ ga srcs, gs !! ga = Some srcs ∧ a ∈ srcs.
Proof.
  rewrite list_elem_of_In, in_concat. setoid_rewrite <- list_elem_of_In. split.
  - intros (srcs & ([ga l] & -> & Hin)%list_elem_of_fmap & Ha). apply elem_of_map_to_list in Hin. eauto.
  - intros (ga & srcs & Hin & Ha). exists srcs. split; [|done]. apply list_elem_of_fmap.
    exists (ga, srcs). split; [done|]. by apply elem_of_map_to_list.
Qed.

(** The labels that are created in advance are those of the rosters' sources. *)
Lemma wp_startSSM `{!OSOk E} cfg ings (e : E) :
  wp (startSSM resolve aliased cfg ings) (λ r _,
    match r with
    | inl (ings', pre) =>
        ings' = ings ∧ pre = [] ∧ SourceMode cfg ≠ "ssm"%string ∨
        ∃ gs e0 e1, buildSSMGroupSources resolve aliased cfg e0 = (inl gs, e1) ∧
          ings' = Ingress.SetGroupSources (Some gs) <$> ings ∧
          ∀ s, s ∈ pre ↔ ∃ a ga srcs, s = Addr_String a ∧ gs !! ga = Some srcs ∧ a ∈ srcs
    | inr _ => True
    end) e.
Proof.
  unfold startSSM. case_decide as Hm; [apply wp_ret; by left|].
  apply wp_etry, wp_lift_state. destruct (buildSSMGroupSources _ _ cfg e) as [[gs|err] e1] eqn:Hb; [|done].
  apply wp_bind, wp_lift_state. destruct (range_order string _ e1) as [pre e2] eqn:Hr. apply wp_ret. right.
  exists gs, e, e1. split; [done|]. split; [done|]. intros s.
  pose proof (range_order_perm string (elements (list_to_set (C := gset string)
    (Addr_String <$> concat (map_to_list gs).*2))) e1) as Hp. rewrite Hr in Hp. simpl in Hp.
  rewrite (elem_of_Permutation_proper s _ _ Hp), elem_of_elements, elem_of_list_to_set, list_elem_of_fmap.
  setoid_rewrite elem_of_rosters. naive_solver.
Qed.

Lemma wp_initLogging cfg (e : E) : wp (initLogging cfg) (λ lv _,
  ∃ o e0, lo_Level o = (if f_Debug cfg then LevelDebug else logging_ParseLevel (f_LogLevel cfg)) ∧
    lv = (logging_Init o e0).1) e.
Proof.
  unfold initLogging. apply wp_bind, wp_lift_state. destruct (logging_Init _ e) as [lv e1] eqn:Hi.
  apply wp_bind, wp_lift_state. destruct (logging_InstallSIGHUPToggle _ _ e1) as [[] e2]. apply wp_ret.
  eexists _, e. rewrite Hi. by split.
Qed.

Lemma wp_setHostInfo (e : E) : wp setHostInfo (λ _ _, True) e.
Proof.
  unfold setHostInfo. apply wp_bind, wp_lift_state. destruct (hostinfo_Gather e) as [inv e1].
  apply wp_bind, wp_lift_state. destruct (prom_Register _ e1) as [err e2]. by apply wp_ret.
Qed.

(** The gauge names the source that the rosters leave out, as frames would. *)
Lemma wp_setOwnSource (cfg : Config) (e : E) :
  wp (setOwnSource (f_BindSource cfg)) (λ own _, ∀ o, own = Some o →
    IsValid (ownSource cfg) = true ∧ o = Addr_String (ownSource cfg)) e.
Proof.
  unfold setOwnSource. destruct (ParseAddr (f_BindSource cfg)) as [a|] eqn:Ha; [|by apply wp_ret].
  apply wp_bind, wp_lift_state. destruct (prom_Register _ e) as [err e1]. apply wp_ret.
  unfold Metrics.SetOwnSource, ownSource. rewrite Ha. intros o Ho.
  rewrite decide_True by (intros Hs; by rewrite Hs in Ha). simpl.
  apply ParseAddr_wf in Ha as Hwf. split; [by destruct a|]. destruct err; by simplify_eq/=.
Qed.

(** What is true of an endpoint that has just been booted. *)
Record booted_ok (cfg : Config) (b : booted) : Prop := {
  bo_cfg : bt_cfg b = cfg;
  bo_built : built cfg (bt_assembly b);
  bo_workers : length (bt_ings b) = length (as_ings (bt_assembly b));
  bo_series : ∀ w s v, w ∈ bt_ings b →
    Metrics.mt_series (bt_meter b) "bre_cache_stored_total" (Metrics.sourceAttr s) = Some v ↔
      v = 0 ∧ ∃ a ga, a ∈ Sockets.roster w ga ∧ s = Addr_String a;
  bo_level : ∃ o e0, lo_Level o = (if f_Debug cfg then LevelDebug else logging_ParseLevel (f_LogLevel cfg)) ∧
    Metrics.r_levelVar (bt_rec b) = (logging_Init o e0).1;
  bo_own : ∀ o w ga, bt_own b = Some o → w ∈ bt_ings b →
    o = Addr_String (ownSource cfg) ∧ ownSource cfg ∉ Sockets.roster w ga;
}.

(** A series that was created in advance. *)
Lemma precreated `{!Metrics.MeterOk M} rec pre (m : M) s v : Metrics.complete rec →
  Metrics.PreCreateSources rec pre (Metrics.mt_empty : M) = Some m →
  Metrics.mt_series m "bre_cache_stored_total" (Metrics.sourceAttr s) = Some v ↔ v = 0 ∧ s ∈ pre.
Proof.
  intros Hc Hm. destruct (Metrics.PreCreateSources_stored rec pre _ _ s Hc Hm) as [-> _].
  rewrite Metrics.series_empty. simpl. case_decide; naive_solver.
Qed.

Lemma wp_boot `{!HostOk, !OSOk E, !Metrics.MeterOk M} cfg (e : E) :
  Load = Some (inl cfg) → wp boot (λ r _, match r with inl b => booted_ok cfg b | inr _ => True end) e.
Proof.
  intros HL. pose proof (Load_ok _ HL) as Hv. unfold boot. rewrite HL. apply wp_bind.
  eapply wp_mono; [apply wp_initLogging|]. intros lv e0 Hlv. apply wp_etry, wp_lift_state.
  destruct (Metrics.New _ _ e0) as [[rec0|err] e1] eqn:Hrec; [|done]. apply Metrics.New_instruments in Hrec as Hcomp.
  cbv zeta. set (rec := Metrics.SetLevelVar lv rec0).
  apply wp_bind. eapply wp_mono; [apply wp_setHostInfo|]. intros host e2 _.
  apply wp_bind. eapply wp_mono; [apply wp_setOwnSource|]. intros own e3 Hown.
  apply wp_bind, wp_lift_state. destruct (tracing_Init _ _ e3) as [terr e4].
  apply wp_etry. eapply wp_mono; [by apply wp_assemble|]. intros [a|err] e5 Hb; [|done].
  apply wp_etry. eapply wp_mono; [apply wp_startSSM|]. intros [[ings pre]|err] e6 Hs; [|done].
  destruct (Metrics.PreCreateSources_complete rec pre (Metrics.mt_empty : M) Hcomp) as [m Hm].
  apply wp_bind. eapply wp_liftO; [exact Hm|]. apply wp_ret.
  pose proof (precreated rec pre m) as Hser. pose proof (proj1 (Forall_forall _ _) (bl_sources _ _ Hb)) as Hsrc.
  destruct Hs as [(-> & -> & _)|(gs & e7 & e8 & Hgs & -> & Hpre)]; split; simpl; try done.
  - intros w s v Hw. rewrite Hser by done. unfold Sockets.roster. rewrite (Hsrc w Hw). set_solver.
  - intros o w ga Ho Hw. destruct (Hown o Ho) as [_ ->]. unfold Sockets.roster. rewrite (Hsrc w Hw). set_solver.
  - by rewrite length_fmap.
  - intros w s v (w0 & -> & _)%list_elem_of_fmap. rewrite Hser, Hpre by done. unfold Sockets.roster. simpl.
    f_equiv. split; [intros (x & ga & srcs & -> & Hl & Hx); exists x, ga; by rewrite Hl|].
    intros (x & ga & Hx & ->). destruct (gs !! ga) as [srcs|] eqn:Hl; simpl in Hx; [eauto 6|]. by apply not_elem_of_nil in Hx.
  - intros o w ga Ho (w0 & -> & _)%list_elem_of_fmap. destruct (Hown o Ho) as [Hval ->]. split; [done|].
    unfold Sockets.roster. simpl. destruct (gs !! ga) as [srcs|] eqn:Hl; simpl; [|apply not_elem_of_nil].
    by eapply roster_excludes_own.
Qed.

(** ** Theorem *)

(** C30: what the starvation alert sees of a node that has just come up. Every
    configuration that loads boots into an error or an endpoint, never a panic.
    On that endpoint the series of bre_cache_stored_total are exactly those of
    the sources in its workers' rosters, all at zero; and the source it
    publishes as its own is the bind source, in the spelling frames are labelled
    with, and is in no roster. *)
Theorem boot_sources (cfg : Config) (e : E) :
  HostOk → OSOk E → Metrics.MeterOk M → Load = Some (inl cfg) →
  ∃ r e', boot e = Some (r, e') ∧ ∀ b, r = inl b → built cfg (bt_assembly b) ∧
    (∀ w s v, w ∈ bt_ings b →
       Metrics.mt_series (bt_meter b) "bre_cache_stored_total" (Metrics.sourceAttr s) = Some v ↔
         v = 0 ∧ ∃ a ga, a ∈ Sockets.roster w ga ∧ s = Addr_String a) ∧
    (∀ o w ga, bt_own b = Some o → w ∈ bt_ings b →
       o = Addr_String (ownSource cfg) ∧ ownSource cfg ∉ Sockets.roster w ga).
Proof.
  intros Hh Hos Hm HL. destruct (proj1 (wp_iff _ _ _) (wp_boot cfg e HL)) as (r & e' & Hr & Hb).
  exists r, e'. split; [done|]. intros b ->. by destruct Hb.
Qed.
End model.

(** ** Instances *)
Section instances.
Import RefEnv.
#[local] Existing Instance Assembly.ref_MainEnv.
#[local] Existing Instance Metrics.ref_Telemetry.
#[local] Existing Instance Metrics.ref_Meter.
#[local] Existing Instance Metrics.ref_MeterOk.

#[local] Instance ref_BootEnv : BootEnv renv := {|
  logging_ParseLevel := λ s, if decide (s = "info"%string) then 0 else 4;
  logging_ParseFormat := λ _, 0;
  logging_Init := λ o e, (Some (lo_Level o), e);
  logging_InstallSIGHUPToggle := λ _ _ e, (tt, e);
  hostinfo_Gather := λ e, (Metrics.mkInventory "h" "6.1" 8 1024 ∅ [] "dev", e);
  prom_Register := λ _ e, (None, e);
  tracing_Init := λ _ _ e, (Some (ErrExt 7), e);
|}.

(** A source-specific endpoint whose publishers resolve to itself and a peer: the
    peer has a series, the node publishes itself and does not join itself. *)
#[local] Instance ssm_host : Host := refHost (ssm_env "pub").
Abbreviation ssm_boot := (boot (M := gmap (string * Metrics.attrs) Z) resolve0 true).

Example ssm_boots :
  match ssm_boot env0 with
  | Some (inl b, _) => bool_decide (bt_own b = Some "fd00::7"%string ∧ Metrics.r_levelVar (bt_rec b) = Some 0 ∧
      Metrics.mt_series (bt_meter b) "bre_cache_stored_total" (Metrics.sourceAttr "fd00::8") = Some 0 ∧
      Metrics.mt_series (bt_meter b) "bre_cache_stored_total" (Metrics.sourceAttr "fd00::7") = None)
  | _ => false
  end = true.
Proof. vm_compute. reflexivity. Qed.

Lemma boot_sources_witness :
  ∃ b e', ssm_boot env0 = Some (inl b, e') ∧ bt_own b = Some "fd00::7"%string ∧
    ∀ w s v, w ∈ bt_ings b →
      Metrics.mt_series (bt_meter b) "bre_cache_stored_total" (Metrics.sourceAttr s) = Some v ↔
        v = 0 ∧ ∃ a ga, a ∈ Sockets.roster w ga ∧ s = Addr_String a.
Proof.
  destruct (boot_sources (M := gmap (string * Metrics.attrs) Z) resolve0 true cfg_pub env0)
    as (r & e' & Hr & Hb); [apply refHost_ok|apply _|apply _|vm_compute; reflexivity|].
  pose proof ssm_boots as Hs. rewrite Hr in Hs. destruct r as [b|err]; [|discriminate Hs].
  apply bool_decide_eq_true in Hs as (Hown & _). exists b, e'. split; [exact Hr|]. split; [exact Hown|].
  apply (Hb b eq_refl).
Defined.
End instances.

End Boot.
